(* ===== verification/_CoqProject ===== *)
-Q . S2P
Prelude.v
TreeMath.v
Crypto.v
Keys.v
SecretStore.v
Tree.v
TreeInv.v
TreeOps.v
TreeSort.v
PathCrypto.v
PathSpec.v
PathDecrypt.v
PathEncrypt.v
TreeHistory.v
Signed.v
TopSort.v
CaMap.v
OpGraph.v
OpSearch.v
OpEpochs.v
OpTopsort.v
OpGraphInv.v
OpExtend.v
AppSecret.v
Cgka.v
CgkaReplay.v
CgkaConverge.v
CgkaReplica.v
CgkaErrors.v
ToySerialize.v
CgkaWitness.v
Individual.v
IndividualWitness.v
Membership.v
MemberSort.v
MemberExplore.v
MemberDrain.v
MemberOrder.v
GroupState.v
Group.v
GroupView.v
GroupProps.v
GroupChange.v
Reach.v
ReachProps.v
ReachMembers.v
GroupWitness.v
Ciphertext.v
CiphertextProps.v
CausalDecrypt.v
Active.v
ActiveProps.v
Keeps.v
Document.v
DocMembers.v
DocContent.v
DocWitness.v
Keyhive.v
KeyhiveStores.v
KeyhiveSafe.v
KeyhiveLive.v
KeyhiveIngest.v
KeyhiveProps.v
KeyhiveWitness.v
MemberOps.v
MemberOpsProps.v
MemberOpsAll.v
KeyhiveSync.v
MemberOpsWitness.v
KeyhiveFacade.v
KeyhiveMembers.v
KeyhiveQueries.v
KeyhiveQueriesProps.v
KeyhiveCallsWitness.v
