(* ===== verification/Prelude.v ===== *)
(** * A verification of Keyhive: group key agreement, membership and causal encryption

    The repository compares three implementations of continuous group key
    agreement.  The development models one of them, Keyhive
    ([src/keyhive], in Rust), from the arithmetic of its ratchet tree up to
    replicas, groups and the decryption of histories.

    ** The program

    - [beekem] is the key agreement.  A replica ([cgka.rs]) holds a ratchet tree
      ([tree.rs], [treemath.rs], [keys.rs], [secret_store.rs]) and a causal graph
      of signed operations ([operation.rs], [topsort.rs]).  Local operations
      change the tree and extend the graph; a remote operation is applied
      directly or recorded, and a replay of the sorted graph rebuilds the tree.
      The root secret gives the keys of content ([pcs_key.rs], [encrypted.rs]).
    - [keyhive_crypto] wraps hashes, key exchange, encryption and signatures.
    - [keyhive_core] is access control.  Individuals publish prekeys, the active
      agent holds their secrets, a group's members follow from signed delegations
      and revocations, a document is a group with a key agreement, and ciphertext
      stores decrypt a history from one key.  A keyhive holds all of them and takes
      the events of other keyhives in.

    ** Files

    Shared:
    - [Prelude]: outcomes [res] (value, error, panic, fuel used up), the state
      monad [M] of [&mut self] methods, loops, and lemmas on them.
    - [Crypto], [Signed]: [keyhive_crypto]; third-party primitives are the
      classes [Primitives] and [Ed25519], what is relied on [PrimitiveLaws] and
      [Ed25519Laws].  [ToyPrimitives], [toy_ed] and [ToySerialize] are concrete
      instances, over which the witnesses run.
    - [CaMap]: [content_addressed_map.rs].

    The tree:
    - [TreeMath]: [treemath.rs] on wrapping [u32].  [Keys], [SecretStore]: node
      keys and sealed node secrets.  [Tree]: the operations of [tree.rs] on
      structure.  [PathCrypto]: [encrypt_path] and [decrypt_tree_secret].
    - [TreeInv], [TreeOps], [TreeSort]: the invariant, what each operation does,
      and the clean-up after concurrent changes as a function on lists.
    - [PathSpec], [PathDecrypt], [PathEncrypt], [TreeHistory]: all members agree
      on the root secret, after an update and in every reachable tree.

    The graph and the replicas:
    - [TopSort], [OpGraph]: [topsort.rs] and [operation.rs].  [OpSearch],
      [OpEpochs], [OpTopsort], [OpGraphInv], [OpExtend]: sorting ends, is
      complete and causal, and agrees with applying step by step.
    - [AppSecret], [Cgka]: [pcs_key.rs], [encrypted.rs] and [cgka.rs].
      [CgkaReplay], [CgkaConverge], [CgkaReplica], [CgkaErrors]:
      replicas with the same operations have the same tree, content reaches
      the members, and the refused operations.  [CgkaWitness]: a group of two.

    Principals and groups:
    - [Individual]: [individual.rs], [individual/state.rs], [individual/op.rs].
      [Active], [ActiveProps]: [active.rs].
    - [Membership], [MemberSort]: delegations, revocations and
      [MembershipOperation::reverse_topsort].  [MemberExplore], [MemberDrain],
      [MemberOrder]: what the sort returns.
    - [GroupState], [Group]: [group/state.rs], [group.rs] and the stores.
      [GroupView]: the members that a history justifies, and that rebuilding
      returns them.  [GroupProps], [GroupChange]: which operations are accepted,
      no escalation, adding and revoking.
    - [Reach], [ReachProps], [ReachMembers]: the walks over groups and documents.
    - [IndividualWitness], [GroupWitness]: instances, and runs on inputs that the
      code treats unexpectedly.

    Content:
    - [Ciphertext]: [store/ciphertext.rs], [store/ciphertext/memory.rs] and
      [crypto/envelope.rs].  [CiphertextProps]: the interface of stores as a
      class with laws, and the memory store as its instance.  [CausalDecrypt]:
      causal decryption over any store with the laws.

    Documents and keyhives:
    - [Document]: [principal/document.rs].  [Keeps]: invariants of monadic code.
      [DocMembers], [DocContent]: a document's leaves follow its readers, content
      comes back as it was, and histories are decrypted.
      [DocWitness].
    - [Keyhive]: the state of [keyhive.rs], [event/static_event.rs] and
      [principal/public.rs]: lookup, conversion of events, receiving, ingesting.
      The groups and documents of a keyhive share its stores of operations, which
      are put into a group for each call on it.  A lock that a call takes while it
      holds it is [Diverge].
    - [KeyhiveStores], [KeyhiveSafe]: what is stored is genuine and closed under
      dependencies.  [KeyhiveLive], [KeyhiveIngest]: a history of operations is
      taken, in any order.  [KeyhiveProps]: the theorems.  [KeyhiveWitness].
    - [MemberOps]: the export of membership operations, for one agent and for
      all.  [MemberOpsProps], [MemberOpsAll]: the walk ends with exactly
      what the agent is to be sent, and the two queries agree.
      [KeyhiveSync]: what one keyhive exports another takes.  [MemberOpsWitness].
    - [KeyhiveFacade]: the calls of the active agent on its keyhive, with the
      locks they hold.  [KeyhiveMembers]: adding to a group and revoking from it
      reaches the leaves of the documents that contain it.
    - [KeyhiveQueries]: prekey and key agreement operations an agent is to be
      sent, and the events.  [KeyhiveQueriesProps]: the pass over all agents
      agrees with the query for one.  [KeyhiveCallsWitness].

    ** Correspondence

    Definitions keep the names of the source, with a prefix where two types have
    a method of the same name.  An asynchronous method is its result, since the
    code awaits each future before it goes on and holds its locks while it
    writes; listeners are the lists of what they are told.  Builds are release
    builds: [debug_assert] is not evaluated.  Hash maps and sets are [gmap] and
    [gset] with [map_to_list] and [elements] as the iteration order; where a
    result depends on the order, the order is an argument.  A call that serializes
    is assumed to succeed, as [bincode] does for these types.

    ** Assumptions

    Theorems that go through digests assume [collision_free]; those that
    decrypt assume [PrimitiveLaws]; those on the operations of a replica assume
    that the remote operations are the ones honest replicas made.  The view of a
    group is characterised for histories in which no delegation is revoked
    twice, because the sort depends on the iteration order otherwise.  The
    prekeys of the active agent are followed as long as the generator draws no
    key that was rotated away before.  Every hypothesis is discharged at a
    concrete input by the theorem's witness.

    ** Fuel

    Loops that are not structural take fuel and return [Diverge] or [None]
    without it.  Where the code's own data bounds the loop, the definition
    computes the fuel from them (the size of the graph, of the tree, of the
    delegations in play) and the theorems show that it is enough.  Otherwise the
    fuel is an argument and the theorem states that some amount, and each larger
    one, gives the result.  Only the sampling in [pick_prekey] has no bound: it
    depends on the hash.

    ** Not modelled

    Archives of groups, documents and keyhives, fork and merge of keyhives,
    transactions, the bindings for JavaScript, formatting and instrumentation.  OpenMLS
    ([src/openmls]), the Java implementation ([src/key-agreement]) and the scripts
    of the evaluation are separate programs. *)

From stdpp Require Export base numbers list gmap sets sorting.
From Stdlib Require Import Strings.Byte.

(** ** Outcomes of fallible Rust code *)

(** [Ok]/[Err] are Rust's [Result]; [Panic] is an [unwrap]/[expect]/[panic!]
    or an out-of-bounds index; [Diverge] is a loop that used up the fuel its
    definition gives it. *)
Inductive res (E A : Type) : Type :=
  | Ok (a : A)
  | Err (e : E)
  | Panic
  | Diverge.
Arguments Ok {E A} a.
Arguments Err {E A} e.
Arguments Panic {E A}.
Arguments Diverge {E A}.

(** Computations over a mutable state [S]: the state written before an error
    stays written, as it does behind a Rust [&mut]. *)
Definition M (S E A : Type) : Type := S -> res E A * S.

Section Monad.
Context {S E : Type}.

Definition ret {A} (a : A) : M S E A := fun s => (Ok a, s).
Definition throw {A} (e : E) : M S E A := fun s => (Err e, s).
Definition panic {A} : M S E A := fun s => (Panic, s).
Definition diverge {A} : M S E A := fun s => (Diverge, s).
Definition get : M S E S := fun s => (Ok s, s).
Definition gets {A} (f : S -> A) : M S E A := fun s => (Ok (f s), s).
Definition modify (f : S -> S) : M S E unit := fun s => (Ok tt, f s).

Definition bindM {A B} (m : M S E A) (k : A -> M S E B) : M S E B := fun s =>
  match m s with
  | (Ok a, s') => k a s'
  | (Err e, s') => (Err e, s')
  | (Panic, s') => (Panic, s')
  | (Diverge, s') => (Diverge, s')
  end.

(** [Result] and [Option] values used with [?], [expect] and [unwrap]. *)
Definition liftR {A} (r : res E A) : M S E A := fun s => (r, s).
Definition ok_or {A} (o : option A) (e : E) : M S E A :=
  match o with Some a => ret a | None => throw e end.
Definition expect {A} (o : option A) : M S E A :=
  match o with Some a => ret a | None => panic end.
Definition loop_result {A} (o : option A) : M S E A :=
  match o with Some a => ret a | None => diverge end.

Definition whenM (b : bool) (m : M S E unit) : M S E unit :=
  if b then m else ret tt.

(** [for x in l { f x }] *)
Fixpoint forM {A} (l : list A) (f : A -> M S E unit) : M S E unit :=
  match l with
  | [] => ret tt
  | x :: l' => bindM (f x) (fun _ => forM l' f)
  end.

(** [while c { b }]; the fuel bounds the number of iterations. *)
Fixpoint whileM (fuel : nat) (c : M S E bool) (b : M S E unit) : M S E unit :=
  bindM c (fun go =>
    if go then
      match fuel with
      | O => diverge
      | Datatypes.S fuel' => bindM b (fun _ => whileM fuel' c b)
      end
    else ret tt).
End Monad.

(** [Result] sequencing for code that only reads its state. *)
Definition bindR {E A B} (r : res E A) (k : A -> res E B) : res E B :=
  match r with
  | Ok a => k a
  | Err e => Err e
  | Panic => Panic
  | Diverge => Diverge
  end.
Definition expectR {E A} (o : option A) : res E A :=
  match o with Some a => Ok a | None => Panic end.
Definition loopR {E A} (o : option A) : res E A :=
  match o with Some a => Ok a | None => Diverge end.
Definition ok_orR {E A} (o : option A) (e : E) : res E A :=
  match o with Some a => Ok a | None => Err e end.
(** [for x in l { acc = f(acc, x)? }] *)
Fixpoint foldR {E A B} (f : B -> A -> res E B) (l : list A) (b : B) : res E B :=
  match l with
  | [] => Ok b
  | x :: l' => bindR (f b x) (foldR f l')
  end.
(** A reader of the state inside a stateful computation. *)
Definition readM {S E A} (f : S -> res E A) : M S E A := fun s => (f s, s).

Declare Scope monad_scope.
Delimit Scope monad_scope with monad.
Notation "x <- m ;; k" := (bindM m (fun x => k))
  (at level 100, m at next level, right associativity) : monad_scope.
Notation "m ;; k" := (bindM m (fun _ => k))
  (at level 100, right associativity) : monad_scope.

Notation "'let*' x ':=' m 'in' k" := (bindR m (fun x => k))
  (at level 200, x name, m at level 100, k at level 200) : monad_scope.

(** [for x in l { acc = f(acc, x).await? }] over a state. *)
Fixpoint foldM {S E A B} (f : B -> A -> M S E B) (l : list A) (b : B) : M S E B :=
  match l with
  | [] => ret b
  | x :: l' => bindM (f b x) (foldM f l')
  end.

(** Running a computation over a component of a larger state. *)
Definition zoom {S T E A} (proj : T -> S) (put : S -> T -> T) (m : M S E A) : M T E A :=
  fun t => let '(r, s) := m (proj t) in (r, put s t).

(** [?] into a wider error type. *)
Definition res_map_err {E E' A} (f : E -> E') (r : res E A) : res E' A :=
  match r with Ok a => Ok a | Err e => Err (f e) | Panic => Panic | Diverge => Diverge end.
Definition map_err {S E E' A} (f : E -> E') (m : M S E A) : M S E' A :=
  fun s => let '(r, s') := m s in (res_map_err f r, s').

(** Symbolic execution of one step, and its inverse. *)
Section MonadLemmas.
Context {S E : Type}.

Lemma bindM_ok {A B} (m : M S E A) (k : A -> M S E B) s a s' :
  m s = (Ok a, s') -> bindM m k s = k a s'.
Proof. intros H. unfold bindM. by rewrite H. Qed.

Lemma bindM_assoc {A B C} (m : M S E A) (f : A -> M S E B) (g : B -> M S E C) s :
  bindM (bindM m f) g s = bindM m (fun a => bindM (f a) g) s.
Proof. unfold bindM. by destruct (m s) as [[] ?]. Qed.

Lemma bindM_inv {A B} (m : M S E A) (k : A -> M S E B) s b s'' :
  bindM m k s = (Ok b, s'') -> exists a s', m s = (Ok a, s') /\ k a s' = (Ok b, s'').
Proof. unfold bindM. destruct (m s) as [[a|e| |] s'] eqn:Hm; try done. eauto. Qed.

Lemma forM_app {A} (l l' : list A) (f : A -> M S E unit) s :
  forM (l ++ l') f s = bindM (forM l f) (fun _ => forM l' f) s.
Proof.
  revert s. induction l as [|x l IH]; intros s; simpl; [done|].
  rewrite bindM_assoc. unfold bindM at 1 2. destruct (f x s) as [[] ?]; auto.
Qed.

(** A loop whose every step succeeds and keeps an invariant. *)
Lemma forM_ok {A} (I : S -> Prop) (l : list A) (f : A -> M S E unit) s :
  (forall x s, x ∈ l -> I s -> exists s', f x s = (Ok tt, s') /\ I s') ->
  I s -> exists s', forM l f s = (Ok tt, s') /\ I s'.
Proof.
  revert s. induction l as [|x l IH]; intros s Hf HI; simpl; [eauto|].
  destruct (Hf x s) as (s' & Hx & HI'); [set_solver|done|].
  rewrite (bindM_ok _ _ _ _ _ Hx). apply IH; [|done].
  intros y s0 Hy. apply Hf. set_solver.
Qed.
End MonadLemmas.

(** A fold whose every step succeeds and keeps an invariant on what was done. *)
Lemma foldR_ok {E A B} (I : list A -> B -> Prop) (f : B -> A -> res E B) :
  forall l done b, I done b ->
  (forall done' x b, x ∈ l -> I done' b -> exists b', f b x = Ok b' /\ I (done' ++ [x]) b') ->
  exists b', foldR f l b = Ok b' /\ I (done ++ l) b'.
Proof.
  induction l as [|x l IH]; intros done b HI Hf; simpl.
  - exists b. by rewrite app_nil_r.
  - destruct (Hf done x b) as (b' & Hx & HI'); [set_solver|done|]. rewrite Hx. simpl.
    destruct (IH (done ++ [x]) b' HI') as (b'' & H1 & H2).
    + intros done' y b0 Hy. apply Hf. set_solver.
    + exists b''. by rewrite <- app_assoc in H2.
Qed.

(** Execute the first action of the goal's computation with its equation. *)
Ltac step H := rewrite (bindM_ok _ _ _ _ _ H).
Ltac step_gets := match goal with
  | |- context [bindM (gets ?f) ?k ?s] => rewrite (bindM_ok (gets f) k s (f s) s eq_refl)
  end.
Ltac step_modify := match goal with
  | |- context [bindM (modify ?f) ?k ?s] => rewrite (bindM_ok (modify f) k s tt (f s) eq_refl)
  end.

(** Pure loops: [None] when the fuel runs out. *)
Fixpoint while {S : Type} (fuel : nat) (c : S -> bool) (b : S -> S) (s : S) : option S :=
  if c s then
    match fuel with
    | O => None
    | Datatypes.S fuel' => while fuel' c b (b s)
    end
  else Some s.

(** A loop with an invariant and a measure the fuel covers returns a state
    that satisfies the invariant and the negated guard. *)
Lemma while_total {S} (I : S -> Prop) (m : S -> nat) (c : S -> bool) (b : S -> S) :
  (forall s, I s -> c s = true -> I (b s) /\ (m (b s) < m s)%nat) ->
  forall fuel s, I s -> (m s <= fuel)%nat ->
  exists s', while fuel c b s = Some s' /\ I s' /\ c s' = false.
Proof.
  intros Hstep fuel. induction fuel as [|fuel IH]; intros s HI Hm; simpl.
  - destruct (c s) eqn:Hc; [|eauto].
    destruct (Hstep s HI Hc). lia.
  - destruct (c s) eqn:Hc; [|eauto].
    destruct (Hstep s HI Hc). apply IH; [done|lia].
Qed.

(** More fuel never changes a result. *)
Lemma while_mono {S} (c : S -> bool) (b : S -> S) n m s s' :
  while n c b s = Some s' -> (n <= m)%nat -> while m c b s = Some s'.
Proof.
  revert m s. induction n as [|n IH]; intros m s; simpl.
  - destruct (c s) eqn:Hc; [done|]. intros [= <-] _.
    destruct m; simpl; by rewrite Hc.
  - destruct (c s) eqn:Hc.
    + intros Hw Hle. destruct m as [|m]; [lia|]. simpl. rewrite Hc.
      apply IH; [done|lia].
    + intros [= <-] _. destruct m; simpl; by rewrite Hc.
Qed.

Lemma forallb_false {A} (f : A -> bool) l : forallb f l = false -> exists x, x ∈ l /\ f x = false.
Proof.
  induction l as [|x l IH]; cbn; [done|]. destruct (f x) eqn:Hx; [|intros _; exists x; split; [left|done]].
  intros (y & Hy & Hf)%IH. exists y. split; [by right|done].
Qed.

(** ** Machine integers: [u32] as [N] with its wrap-around *)

Definition u32_modulus : N := (2 ^ 32)%N.
Definition wrap32 (x : N) : N := (x mod u32_modulus)%N.
Definition u32_add (a b : N) : N := wrap32 (a + b)%N.
Definition u32_sub (a b : N) : N := wrap32 (a + u32_modulus - b)%N.
Definition u32_mul (a b : N) : N := wrap32 (a * b)%N.
(** Release builds mask the shift amount to the width. *)
Definition u32_shl (a k : N) : N := wrap32 (N.shiftl a (k mod 32)%N).
Definition u32_shr (a k : N) : N := N.shiftr a (k mod 32)%N.

Lemma wrap32_small x : (x < 2 ^ 32)%N -> wrap32 x = x.
Proof. intros. unfold wrap32, u32_modulus. by apply N.mod_small. Qed.

Lemma u32_add_small a b : (a + b < 2 ^ 32)%N -> u32_add a b = (a + b)%N.
Proof. apply wrap32_small. Qed.

Lemma u32_mul_small a b : (a * b < 2 ^ 32)%N -> u32_mul a b = (a * b)%N.
Proof. apply wrap32_small. Qed.

Lemma u32_sub_small a b : (a < 2 ^ 32)%N -> (b <= a)%N -> u32_sub a b = (a - b)%N.
Proof.
  intros Ha Hb. unfold u32_sub, wrap32, u32_modulus in *.
  replace (a + 2 ^ 32 - b)%N with ((a - b) + 1 * 2 ^ 32)%N by lia.
  rewrite N.Div0.mod_add. apply N.mod_small. lia.
Qed.

Lemma u32_shl_small a k :
  (k < 32)%N -> (a * 2 ^ k < 2 ^ 32)%N -> u32_shl a k = (a * 2 ^ k)%N.
Proof.
  intros Hk Ha. unfold u32_shl. rewrite (N.mod_small k) by lia.
  rewrite N.shiftl_mul_pow2. by apply wrap32_small.
Qed.

Lemma u32_shr_small a k : (k < 32)%N -> u32_shr a k = N.shiftr a k.
Proof. intros Hk. unfold u32_shr. by rewrite (N.mod_small k) by lia. Qed.

(** ** Lists *)

Lemma list_filter_all {A} (P : A -> Prop) `{!forall x, Decision (P x)} (l : list A) :
  Forall P l -> filter P l = l.
Proof.
  induction 1 as [|x l Hx _ IH]; [done|]. rewrite filter_cons_True by done. by rewrite IH.
Qed.

Lemma list_filter_none {A} (P : A -> Prop) `{!forall x, Decision (P x)} (l : list A) :
  Forall (fun x => ~ P x) l -> filter P l = [].
Proof.
  induction 1 as [|x l Hx _ IH]; [done|]. by rewrite filter_cons_False.
Qed.
