(* ===== verification/TreeMath.v ===== *)
(** * Index arithmetic of the ratchet tree ([keyhive/beekem/src/treemath.rs])

    Leaves and inner nodes are stored in two arrays; leaf [i] sits at tree
    position [2i] and inner node [j] at [2j+1].  The functions below are the
    source's, on [u32] with wrap-around.  The second half gives the reference
    reading: the node at level [k] and offset [i] has position
    [i * 2^(k+1) + 2^k - 1], and every function acts on [(k, i)] the obvious
    way as long as positions stay below [2^31]. *)

From S2P Require Import Prelude.

Local Open Scope N_scope.

(** ** The source *)

Record LeafNodeIndex := mkLeafNodeIndex { leaf_u32 : N }.
Record InnerNodeIndex := mkInnerNodeIndex { inner_u32 : N }.

Inductive TreeNodeIndex :=
  | Leaf (l : LeafNodeIndex)
  | Inner (i : InnerNodeIndex).

#[export] Instance LeafNodeIndex_eq_dec : EqDecision LeafNodeIndex.
Proof. solve_decision. Defined.
#[export] Instance InnerNodeIndex_eq_dec : EqDecision InnerNodeIndex.
Proof. solve_decision. Defined.
#[export] Instance TreeNodeIndex_eq_dec : EqDecision TreeNodeIndex.
Proof. solve_decision. Defined.

Definition LeafNodeIndex_usize (l : LeafNodeIndex) : nat := N.to_nat (leaf_u32 l).
Definition InnerNodeIndex_usize (i : InnerNodeIndex) : nat := N.to_nat (inner_u32 i).

Definition leaf_to_tree_index (l : LeafNodeIndex) : N := u32_mul (leaf_u32 l) 2.
Definition leaf_from_tree_index (node_index : N) : LeafNodeIndex :=
  mkLeafNodeIndex (node_index / 2).

Definition leaf_add (l : LeafNodeIndex) (rhs : N) : LeafNodeIndex :=
  mkLeafNodeIndex (u32_add (leaf_u32 l) rhs).
Definition leaf_sub (l : LeafNodeIndex) (rhs : N) : LeafNodeIndex :=
  mkLeafNodeIndex (u32_sub (leaf_u32 l) rhs).

Definition inner_to_tree_index (i : InnerNodeIndex) : N := u32_add (u32_mul (inner_u32 i) 2) 1.
Definition inner_from_tree_index (node_index : N) : InnerNodeIndex :=
  mkInnerNodeIndex (u32_sub node_index 1 / 2).

Definition inner_add (i : InnerNodeIndex) (rhs : N) : InnerNodeIndex :=
  mkInnerNodeIndex (u32_add (inner_u32 i) rhs).
Definition inner_sub (i : InnerNodeIndex) (rhs : N) : InnerNodeIndex :=
  mkInnerNodeIndex (u32_sub (inner_u32 i) rhs).

Definition TreeNodeIndex_new (index : N) : TreeNodeIndex :=
  if index mod 2 =? 0 then Leaf (leaf_from_tree_index index)
  else Inner (inner_from_tree_index index).

Definition TreeNodeIndex_u32 (x : TreeNodeIndex) : N :=
  match x with
  | Leaf l => leaf_to_tree_index l
  | Inner i => inner_to_tree_index i
  end.

Definition TreeNodeIndex_cmp (x y : TreeNodeIndex) : comparison :=
  TreeNodeIndex_u32 x ?= TreeNodeIndex_u32 y.

(** The loops of [log2] and [level] shift by one more bit per step: 33 steps
    cover every [u32] on which they return. *)
Definition log2_loop (x : N) : option N :=
  while 33 (fun k => 0 <? u32_shr x k) (fun k => k + 1) 0.

Definition log2 (x : N) : N :=
  if x =? 0 then 0 else default 0 (log2_loop x) - 1.

Definition level_loop (x : N) : option N :=
  while 33 (fun k => N.land (u32_shr x k) 1 =? 1) (fun k => k + 1) 0.

Definition level (index : N) : N :=
  let x := index in
  if N.land x 1 =? 0 then 0 else default 0 (level_loop x).

Record TreeSize := mkTreeSize { TreeSize_u32 : N }.

#[export] Instance TreeSize_eq_dec : EqDecision TreeSize.
Proof. solve_decision. Defined.

Definition TreeSize_new (nodes : N) : TreeSize :=
  let k := log2 nodes in
  mkTreeSize (u32_sub (u32_shl 1 (k + 1)) 1).

Definition from_leaf_count (leaf_count : N) : TreeSize :=
  TreeSize_new (u32_mul leaf_count 2).

Definition leaf_count (size : TreeSize) : N := u32_add (TreeSize_u32 size / 2) 1.
Definition inner_node_count (size : TreeSize) : N := TreeSize_u32 size / 2.

Definition leaf_is_left (size : TreeSize) (leaf_index : LeafNodeIndex) : bool :=
  leaf_u32 leaf_index <? leaf_count size / 2.

Definition TreeSize_inc (size : TreeSize) : TreeSize :=
  mkTreeSize (u32_add (u32_mul (TreeSize_u32 size) 2) 1).

Definition root (size : TreeSize) : TreeNodeIndex :=
  TreeNodeIndex_new (u32_sub (u32_shl 1 (log2 (TreeSize_u32 size))) 1).

Definition left (index : InnerNodeIndex) : TreeNodeIndex :=
  let x := inner_to_tree_index index in
  let k := level x in
  TreeNodeIndex_new (N.lxor x (u32_shl 1 (k - 1))).

Definition right (index : InnerNodeIndex) : TreeNodeIndex :=
  let x := inner_to_tree_index index in
  let k := level x in
  TreeNodeIndex_new (N.lxor x (u32_shl 3 (k - 1))).

Definition parent (x : TreeNodeIndex) : InnerNodeIndex :=
  let x := TreeNodeIndex_u32 x in
  let k := level x in
  let b := N.land (u32_shr x (k + 1)) 1 in
  let index := N.lxor (N.lor x (u32_shl 1 k)) (u32_shl b (k + 1)) in
  inner_from_tree_index index.

Definition sibling (index : TreeNodeIndex) : TreeNodeIndex :=
  let p := parent index in
  match TreeNodeIndex_u32 index ?= inner_to_tree_index p with
  | Lt => right p
  | Gt => left p
  | Eq => left p
  end.

(** Every tree has fewer than 32 levels, so a walk to the root that returns at
    all takes at most 31 steps. *)
Definition direct_path (node_index : TreeNodeIndex) (size : TreeSize) :
    option (list InnerNodeIndex) :=
  let r := TreeNodeIndex_u32 (root size) in
  snd <$> while 32
    (fun '(x, _) => negb (x =? r))
    (fun '(x, d) =>
       let parent := parent (TreeNodeIndex_new x) in
       (inner_to_tree_index parent, d ++ [parent]))
    (TreeNodeIndex_u32 node_index, []).

Definition lca_loop (x y : N) : option (N * N * N) :=
  while 32
    (fun '(xn, yn, k) => negb (xn =? yn))
    (fun '(xn, yn, k) => (u32_shr xn 1, u32_shr yn 1, k + 1))
    (x, y, 0).

Definition lowest_common_ancestor (x y : LeafNodeIndex) : option InnerNodeIndex :=
  let x := leaf_to_tree_index x in
  let y := leaf_to_tree_index y in
  let lx := level x + 1 in
  let ly := level y + 1 in
  if (lx <=? ly) && (u32_shr x ly =? u32_shr y ly) then
    Some (inner_from_tree_index y)
  else if (ly <=? lx) && (u32_shr x lx =? u32_shr y lx) then
    Some (inner_from_tree_index x)
  else
    (fun '(xn, yn, k) =>
       inner_from_tree_index (u32_sub (u32_add (u32_shl xn k) (u32_shl 1 (k - 1))) 1))
    <$> lca_loop x y.

Definition is_node_in_tree (node_index : TreeNodeIndex) (size : TreeSize) : bool :=
  TreeNodeIndex_u32 node_index <? TreeSize_u32 size.

(** ** Reference reading: levels and offsets *)

Definition p2 (k : nat) : N := 2 ^ N.of_nat k.

(** Position of the node at level [k] (leaves are level 0) and offset [i]. *)
Definition pos (k : nat) (i : N) : N := i * p2 (S k) + (p2 k - 1).

(** Inner node at level [S k]: its index among the inner nodes is [pos k i]. *)
Definition inode (k : nat) (i : N) : InnerNodeIndex := mkInnerNodeIndex (pos k i).

Definition node_at (k : nat) (i : N) : TreeNodeIndex :=
  match k with
  | O => Leaf (mkLeafNodeIndex i)
  | S k' => Inner (inode k' i)
  end.

(** The full tree of height [h] and the nodes it has.  Height 30 is the last
    one whose positions, and the shifts taken on them, stay inside [u32]. *)
Definition size_of (h : nat) : TreeSize := mkTreeSize (p2 (S h) - 1).

Definition in_tree (h k : nat) (i : N) : Prop :=
  (h <= 30)%nat /\ (k <= h)%nat /\ i < p2 (h - k).

Lemma p2_S k : p2 (S k) = 2 * p2 k.
Proof. unfold p2. by rewrite Nat2N.inj_succ, N.pow_succ_r'. Qed.

Lemma p2_pos k : 0 < p2 k.
Proof. unfold p2. apply N.neq_0_lt_0, N.pow_nonzero. lia. Qed.

Lemma p2_add a b : p2 (a + b) = p2 a * p2 b.
Proof. unfold p2. by rewrite Nat2N.inj_add, N.pow_add_r. Qed.

Lemma p2_mono a b : (a <= b)%nat -> p2 a <= p2 b.
Proof. intros. unfold p2. apply N.pow_le_mono_r; lia. Qed.

Lemma p2_lt a b : (a < b)%nat -> p2 a < p2 b.
Proof. intros. unfold p2. apply N.pow_lt_mono_r; lia. Qed.

Lemma p2_lt_inv a b : p2 a < p2 b -> (a < b)%nat.
Proof.
  intros H. destruct (Nat.lt_ge_cases a b) as [|Hge]; [done|].
  apply p2_mono in Hge. lia.
Qed.

Lemma pos_S k i : pos (S k) i = 2 * pos k i + 1.
Proof. unfold pos. rewrite !p2_S. pose proof (p2_pos k). nia. Qed.

Lemma pos_0 i : pos 0 i = 2 * i.
Proof. unfold pos, p2. simpl. lia. Qed.

Lemma pos_child_l k i : pos (S k) i = pos k (2 * i) + p2 k.
Proof. unfold pos. rewrite !p2_S. pose proof (p2_pos k). nia. Qed.

Lemma pos_child_r k i : pos k (2 * i + 1) = pos (S k) i + p2 k.
Proof. unfold pos. rewrite !p2_S. pose proof (p2_pos k). nia. Qed.

(** Reading a position bit by bit. *)
Lemma pos_testbit_low k i j : j < N.of_nat k -> N.testbit (pos k i) j = true.
Proof.
  revert j. induction k as [|k IH]; intros j Hj; [lia|].
  rewrite pos_S. destruct (N.eq_dec j 0) as [->|Hne].
  - by rewrite N.testbit_odd_0.
  - replace j with (N.succ (N.pred j)) by lia. rewrite N.testbit_odd_succ by lia.
    apply IH. lia.
Qed.

Lemma pos_testbit_mid k i : N.testbit (pos k i) (N.of_nat k) = false.
Proof.
  induction k as [|k IH].
  - by rewrite pos_0, N.testbit_even_0.
  - rewrite pos_S, Nat2N.inj_succ. by rewrite N.testbit_odd_succ by lia.
Qed.

Lemma pos_shiftr k i : N.shiftr (pos k i) (N.of_nat (S k)) = i.
Proof.
  rewrite N.shiftr_div_pow2. change (2 ^ N.of_nat (S k)) with (p2 (S k)).
  unfold pos. rewrite N.add_comm, N.div_add by (pose proof (p2_pos (S k)); lia).
  rewrite N.div_small; [lia|]. rewrite p2_S. pose proof (p2_pos k). lia.
Qed.

(** ** Bounds *)

Lemma in_tree_pos h k i : in_tree h k i -> pos k i < p2 (S h) - 1.
Proof.
  intros (_ & Hk & Hi). unfold pos.
  assert (p2 (S h) = p2 (h - k) * p2 (S k)) as ->.
  { rewrite <- p2_add. f_equal. lia. }
  rewrite p2_S. pose proof (p2_pos k). nia.
Qed.

Lemma p2_31 h : (h <= 30)%nat -> p2 (S h) <= 2147483648.
Proof. intros. change 2147483648 with (p2 31). apply p2_mono. lia. Qed.

Lemma in_tree_bound h k i : in_tree h k i -> pos k i < 2147483647.
Proof.
  intros Hin. pose proof (in_tree_pos _ _ _ Hin). destruct Hin as (Hh & _).
  pose proof (p2_31 h Hh). lia.
Qed.

Lemma in_tree_parent h k i : in_tree h k i -> (k < h)%nat -> in_tree h (S k) (i / 2).
Proof.
  intros (Hh & Hk & Hi) Hlt. repeat split; [lia..|].
  apply N.Div0.div_lt_upper_bound. rewrite <- p2_S.
  by replace (S (h - S k)) with (h - k)%nat by lia.
Qed.

Lemma in_tree_child h k i c :
  in_tree h (S k) i -> c < 2 -> in_tree h k (2 * i + c).
Proof.
  intros (Hh & Hk & Hi) Hc. repeat split; [lia..|].
  replace (h - k)%nat with (S (h - S k)) by lia. rewrite p2_S. lia.
Qed.

Lemma in_tree_root h : (h <= 30)%nat -> in_tree h h 0.
Proof. intros. repeat split; [lia..|]. apply p2_pos. Qed.

Create HintDb treemath.
#[export] Hint Resolve in_tree_parent in_tree_child in_tree_root p2_pos : treemath.

(** ** Reading and building indices *)

Lemma node_at_u32 h k i : in_tree h k i -> TreeNodeIndex_u32 (node_at k i) = pos k i.
Proof.
  intros Hin. pose proof (in_tree_bound _ _ _ Hin) as Hb.
  destruct k as [|k]; simpl.
  - unfold leaf_to_tree_index. simpl. rewrite pos_0 in *. rewrite u32_mul_small; lia.
  - unfold inner_to_tree_index. simpl. rewrite pos_S in *.
    rewrite u32_mul_small by lia. rewrite u32_add_small; lia.
Qed.

Lemma inode_u32 h k i : in_tree h (S k) i -> inner_to_tree_index (inode k i) = pos (S k) i.
Proof. intros Hin. apply (node_at_u32 h (S k) i Hin). Qed.

Lemma TreeNodeIndex_new_pos k i : pos k i < 2 ^ 32 -> TreeNodeIndex_new (pos k i) = node_at k i.
Proof.
  intros Hb. unfold TreeNodeIndex_new. destruct k as [|k]; simpl.
  - rewrite pos_0, (N.mul_comm 2 i), N.Div0.mod_mul. simpl.
    unfold leaf_from_tree_index. by rewrite N.div_mul by lia.
  - rewrite pos_S in *. rewrite N.add_comm, (N.mul_comm 2), N.Div0.mod_add. simpl.
    unfold inner_from_tree_index. rewrite u32_sub_small by lia.
    rewrite N.add_sub_swap, N.sub_diag, N.add_0_l, N.div_mul by lia. done.
Qed.

Lemma inner_from_tree_index_pos k i :
  pos (S k) i < 2 ^ 32 -> inner_from_tree_index (pos (S k) i) = inode k i.
Proof.
  intros Hb. pose proof (TreeNodeIndex_new_pos (S k) i Hb) as H.
  unfold TreeNodeIndex_new in H. simpl in H. destruct (_ =? 0); congruence.
Qed.

(** Counting loops. *)
Lemma while_count (c : N -> bool) fuel (n a : N) :
  (forall j, a <= j < a + n -> c j = true) -> c (a + n) = false ->
  (N.to_nat n <= fuel)%nat -> while fuel c (fun k => k + 1) a = Some (a + n).
Proof.
  revert n a. induction fuel as [|fuel IH]; intros n a Hlt Hstop Hf.
  - replace n with 0 in * by lia. rewrite N.add_0_r in *. simpl. by rewrite Hstop.
  - simpl. destruct (N.eq_dec n 0) as [->|Hn].
    + rewrite N.add_0_r in *. by rewrite Hstop.
    + rewrite (Hlt a) by lia. rewrite (IH (n - 1)).
      * f_equal. lia.
      * intros j Hj. apply Hlt. lia.
      * replace (a + 1 + (n - 1)) with (a + n) by lia. done.
      * lia.
Qed.

Lemma land_1_testbit x k : N.land (N.shiftr x k) 1 = N.b2n (N.testbit x k).
Proof.
  change 1 with (N.ones 1). rewrite N.land_ones, N.pow_1_r.
  rewrite <- N.bit0_mod, N.shiftr_spec'. done.
Qed.

(** ** The operations on levels and offsets *)

Lemma level_pos h k i : in_tree h k i -> level (pos k i) = N.of_nat k.
Proof.
  intros Hin. pose proof Hin as (Hh & Hk & _). unfold level.
  pose proof (land_1_testbit (pos k i) 0) as H0. rewrite N.shiftr_0_r in H0. rewrite H0.
  destruct k as [|k].
  - by rewrite pos_0, N.testbit_even_0.
  - rewrite pos_testbit_low by lia. simpl. unfold level_loop.
    rewrite (while_count _ _ (N.of_nat (S k)) 0); [done|..|lia].
    + intros j Hj. rewrite u32_shr_small by lia.
      rewrite land_1_testbit, pos_testbit_low by lia. done.
    + rewrite N.add_0_l, u32_shr_small by lia.
      by rewrite land_1_testbit, pos_testbit_mid.
Qed.

Lemma log2_correct x : x < 2 ^ 31 -> log2 x = N.log2 x.
Proof.
  intros Hx. unfold log2. destruct (N.eqb_spec x 0) as [->|Hne]; [done|].
  assert (N.log2 x < 31) as Hlog by (apply N.log2_lt_pow2; lia).
  unfold log2_loop. rewrite (while_count _ _ (N.log2 x + 1) 0).
  - simpl. lia.
  - intros j Hj. rewrite u32_shr_small by lia. apply N.ltb_lt.
    rewrite N.shiftr_div_pow2. apply N.div_str_pos. split.
    + apply N.neq_0_lt_0, N.pow_nonzero. lia.
    + apply N.log2_le_pow2; lia.
  - rewrite N.add_0_l, u32_shr_small by lia. apply N.ltb_ge.
    rewrite N.shiftr_div_pow2, N.div_small; [done|].
    apply N.log2_lt_pow2; lia.
  - lia.
Qed.

(** Flipping one bit. *)
Lemma lxor_set x k : N.testbit x k = false -> N.lxor x (2 ^ k) = x + 2 ^ k.
Proof.
  intros Hb. symmetry. apply N.add_nocarry_lxor. apply N.bits_inj. intros j.
  rewrite N.land_spec, N.bits_0, N.pow2_bits_eqb.
  destruct (N.eqb_spec k j) as [->|]; [by rewrite Hb|by rewrite andb_false_r].
Qed.

Lemma lor_set x k : N.testbit x k = false -> N.lor x (2 ^ k) = x + 2 ^ k.
Proof.
  intros Hb. rewrite <- lxor_set by done. apply N.bits_inj. intros j.
  rewrite N.lor_spec, N.lxor_spec, N.pow2_bits_eqb.
  destruct (N.eqb_spec k j) as [->|]; [by rewrite Hb|by destruct (N.testbit x j)].
Qed.

Lemma lxor_clear x k : N.testbit x k = true -> N.lxor x (2 ^ k) + 2 ^ k = x.
Proof.
  intros Hb. rewrite <- lxor_set.
  - by rewrite N.lxor_assoc, N.lxor_nilpotent, N.lxor_0_r.
  - by rewrite N.lxor_spec, N.pow2_bits_eqb, N.eqb_refl, Hb.
Qed.

Lemma shl_1 k : (k <= 31)%nat -> u32_shl 1 (N.of_nat k) = p2 k.
Proof.
  intros Hk. rewrite u32_shl_small, N.mul_1_l; [done|lia|].
  rewrite N.mul_1_l. change (2 ^ 32) with (p2 32). apply p2_lt. lia.
Qed.

Lemma left_inode h k i : in_tree h (S k) i -> left (inode k i) = node_at k (2 * i).
Proof.
  intros Hin. pose proof (in_tree_bound _ _ _ Hin) as Hb. pose proof Hin as (Hh & Hk & _).
  unfold left. rewrite (inode_u32 h), (level_pos h) by done.
  rewrite Nat2N.inj_succ, <- N.add_1_r, N.add_sub, shl_1 by lia.
  pose proof (lxor_clear (pos (S k) i) (N.of_nat k)) as Hc.
  rewrite pos_testbit_low in Hc by lia. specialize (Hc eq_refl).
  change (2 ^ N.of_nat k) with (p2 k) in Hc. rewrite pos_child_l in *.
  rewrite <- (TreeNodeIndex_new_pos k) by lia. f_equal. lia.
Qed.

Lemma right_inode h k i : in_tree h (S k) i -> right (inode k i) = node_at k (2 * i + 1).
Proof.
  intros Hin. pose proof (in_tree_bound _ _ _ (in_tree_child _ _ _ 1 Hin ltac:(lia))) as Hb.
  pose proof Hin as (Hh & Hk & _).
  unfold right. rewrite (inode_u32 h), (level_pos h) by done.
  rewrite Nat2N.inj_succ, <- N.add_1_r, N.add_sub.
  assert (u32_shl 3 (N.of_nat k) = N.lxor (p2 k) (p2 (S k))) as ->.
  { rewrite u32_shl_small; [|lia|].
    - change (p2 (S k)) with (2 ^ N.of_nat (S k)). rewrite lxor_set.
      + fold (p2 k) (p2 (S k)). rewrite p2_S. unfold p2. lia.
      + unfold p2. rewrite N.pow2_bits_eqb. apply N.eqb_neq. lia.
    - pose proof (p2_mono k 29 ltac:(lia)) as Hp. unfold p2 in Hp. simpl in Hp. lia. }
  rewrite <- N.lxor_assoc.
  pose proof (lxor_clear (pos (S k) i) (N.of_nat k)) as Hc.
  rewrite pos_testbit_low in Hc by lia. specialize (Hc eq_refl).
  change (2 ^ N.of_nat k) with (p2 k) in Hc.
  unfold p2 at 2. rewrite lxor_set.
  - change (2 ^ N.of_nat (S k)) with (p2 (S k)). rewrite p2_S.
    rewrite <- (TreeNodeIndex_new_pos k) by lia. f_equal. rewrite pos_child_r. lia.
  - rewrite N.lxor_spec, pos_testbit_mid. unfold p2. rewrite N.pow2_bits_eqb.
    simpl. apply N.eqb_neq. lia.
Qed.

Lemma halve i : exists j c, i = 2 * j + N.b2n c /\ i / 2 = j /\ N.testbit i 0 = c.
Proof.
  exists (i / 2), (N.testbit i 0). rewrite N.bit0_mod.
  split; [apply N.div_mod; lia|done].
Qed.

Lemma parent_node_at h k i :
  in_tree h k i -> (k < h)%nat -> parent (node_at k i) = inode k (i / 2).
Proof.
  intros Hin Hlt. pose proof (in_tree_bound _ _ _ (in_tree_parent _ _ _ Hin Hlt)) as Hb.
  pose proof Hin as (Hh & Hk & _).
  unfold parent. rewrite (node_at_u32 h), (level_pos h) by done.
  rewrite u32_shr_small, land_1_testbit by lia. rewrite shl_1 by lia.
  unfold p2 at 1. rewrite lor_set by apply pos_testbit_mid.
  change (2 ^ N.of_nat k) with (p2 k).
  rewrite <- (inner_from_tree_index_pos k) by lia. f_equal.
  assert (N.testbit (pos k i) (N.of_nat k + 1) = N.testbit i 0) as ->.
  { rewrite <- (pos_shiftr k i) at 2. rewrite N.shiftr_spec'. f_equal. lia. }
  destruct (halve i) as (j & c & -> & -> & ->). destruct c; simpl N.b2n in *.
  - replace (N.of_nat k + 1) with (N.of_nat (S k)) by lia. rewrite shl_1 by lia.
    pose proof (lxor_clear (pos k (2 * j + 1) + p2 k) (N.of_nat (S k))) as Hc.
    assert (N.testbit (pos k (2 * j + 1) + p2 k) (N.of_nat (S k)) = true) as Ht.
    { unfold p2. rewrite <- lor_set by apply pos_testbit_mid.
      rewrite N.lor_spec, <- (N.add_0_l (N.of_nat (S k))), <- N.shiftr_spec', pos_shiftr.
      by rewrite N.testbit_odd_0. }
    specialize (Hc Ht). fold (p2 (S k)) in Hc. rewrite pos_child_r in *.
    rewrite p2_S in *. lia.
  - unfold u32_shl. rewrite N.shiftl_0_l.
    change (wrap32 0) with 0. rewrite N.lxor_0_r, N.add_0_r, pos_child_l. done.
Qed.

(** Exchange of left and right child. *)
Lemma sibling_node_at h k i :
  in_tree h k i -> (k < h)%nat -> sibling (node_at k i) = node_at k (N.lxor i 1).
Proof.
  intros Hin Hlt. pose proof (in_tree_parent _ _ _ Hin Hlt) as Hp.
  unfold sibling. rewrite (parent_node_at h) by done.
  rewrite (node_at_u32 h), (inode_u32 h) by done.
  pose proof (p2_pos k). change 1 with (2 ^ 0).
  destruct (halve i) as (j & c & -> & Hj & Hbit). rewrite Hj in *.
  destruct c; simpl N.b2n in *.
  - pose proof (lxor_clear _ 0 Hbit) as Hc. change (2 ^ 0) with 1 in *.
    replace (N.lxor (2 * j + 1) 1) with (2 * j) by lia. rewrite pos_child_r.
    destruct (N.compare_spec (pos (S k) j + p2 k) (pos (S k) j)); try lia.
    by apply (left_inode h).
  - rewrite lxor_set by done. change (2 ^ 0) with 1. rewrite N.add_0_r, pos_child_l.
    destruct (N.compare_spec (pos k (2 * j)) (pos k (2 * j) + p2 k)); try lia.
    by apply (right_inode h).
Qed.

Lemma log2_size h : (h <= 30)%nat -> log2 (TreeSize_u32 (size_of h)) = N.of_nat h.
Proof.
  intros Hh. pose proof (p2_31 h Hh). pose proof (p2_pos h). simpl.
  rewrite log2_correct by (simpl; lia).
  apply N.log2_unique; [lia|]. fold (p2 h).
  replace (2 ^ N.succ (N.of_nat h)) with (p2 (S h)) by (unfold p2; f_equal; lia).
  rewrite p2_S. lia.
Qed.

Lemma root_size h : (h <= 30)%nat -> root (size_of h) = node_at h 0.
Proof.
  intros Hh. pose proof (in_tree_bound _ _ _ (in_tree_root h Hh)).
  unfold root. rewrite log2_size, shl_1 by lia.
  pose proof (p2_31 h Hh). pose proof (p2_pos h). rewrite p2_S in *.
  rewrite u32_sub_small by (simpl; lia).
  rewrite <- TreeNodeIndex_new_pos by (simpl; lia). done.
Qed.

Lemma leaf_count_size h : (h <= 30)%nat -> leaf_count (size_of h) = p2 h.
Proof.
  intros Hh. pose proof (p2_31 h Hh). pose proof (p2_pos h).
  unfold leaf_count, size_of. simpl. rewrite p2_S in *.
  replace (2 * p2 h - 1) with (1 + (p2 h - 1) * 2) by lia.
  rewrite N.div_add by lia. change (1 / 2) with 0. rewrite u32_add_small; simpl; lia.
Qed.

Lemma inner_node_count_size h : (h <= 30)%nat -> inner_node_count (size_of h) = p2 h - 1.
Proof.
  intros Hh. pose proof (p2_pos h). unfold inner_node_count, size_of. simpl. rewrite p2_S.
  replace (2 * p2 h - 1) with (1 + (p2 h - 1) * 2) by lia.
  rewrite N.div_add by lia. change (1 / 2) with 0. lia.
Qed.

Lemma TreeSize_inc_size h : (h <= 29)%nat -> TreeSize_inc (size_of h) = size_of (S h).
Proof.
  intros Hh. pose proof (p2_31 (S h) ltac:(lia)). pose proof (p2_pos (S h)).
  rewrite (p2_S (S h)) in *. unfold TreeSize_inc, size_of. simpl TreeSize_u32.
  rewrite (p2_S (S h)). generalize dependent (p2 (S h)). intros x **.
  rewrite u32_mul_small by (simpl; lia). rewrite u32_add_small by (simpl; lia).
  f_equal. lia.
Qed.

(** The nodes above [(k, i)], bottom up. *)
Fixpoint path_from (n k : nat) (i : N) : list InnerNodeIndex :=
  match n with
  | O => []
  | S n' => inode k (i / 2) :: path_from n' (S k) (i / 2)
  end.

Lemma path_from_length n k i : length (path_from n k i) = n.
Proof. revert k i. induction n; intros; simpl; auto. Qed.

Lemma node_at_inj h k i k' i' :
  in_tree h k i -> in_tree h k' i' -> node_at k i = node_at k' i' -> k = k' /\ i = i'.
Proof.
  intros Hin Hin' Heq.
  assert (pos k i = pos k' i') as Hpos by (by rewrite <- !(node_at_u32 h), Heq).
  assert (k = k') as ->.
  { apply Nat2N.inj. rewrite <- (level_pos h k i), <- (level_pos h k' i') by done. congruence. }
  split; [done|]. by rewrite <- (pos_shiftr k' i), Hpos, pos_shiftr.
Qed.

Lemma pos_root_iff h k i : in_tree h k i -> (pos k i =? pos h 0) = (k =? h)%nat.
Proof.
  intros Hin. pose proof Hin as (Hh & Hk & Hi). destruct (Nat.eqb_spec k h) as [->|Hne].
  - apply N.eqb_eq. f_equal. rewrite Nat.sub_diag in Hi. change (p2 0) with 1 in Hi. lia.
  - apply N.eqb_neq. intros Heq. apply Hne. apply Nat2N.inj.
    rewrite <- (level_pos h k i), <- (level_pos h h 0) by auto with treemath. congruence.
Qed.

Lemma direct_path_node_at h k i :
  in_tree h k i -> direct_path (node_at k i) (size_of h) = Some (path_from (h - k) k i).
Proof.
  intros Hin. pose proof Hin as (Hh & Hk & _). unfold direct_path.
  rewrite root_size, (node_at_u32 h h 0), (node_at_u32 h k i) by auto with treemath.
  match goal with |- _ <$> while _ ?c ?b _ = _ =>
    enough (forall n k i d fuel, in_tree h k i -> h = (k + n)%nat -> (n <= fuel)%nat ->
      while fuel c b (pos k i, d) = Some (pos h 0, d ++ path_from n k i)) as Hloop end.
  { rewrite (Hloop (h - k)%nat); [done|done|lia|lia]. }
  clear k i Hin Hk. intros n. induction n as [|n IH]; intros k i d fuel Hin -> Hf.
  - rewrite Nat.add_0_r in *. pose proof (pos_root_iff _ _ _ Hin) as Hr.
    rewrite Nat.eqb_refl in Hr. simpl path_from. rewrite app_nil_r.
    destruct fuel; simpl; rewrite Hr; simpl; (apply N.eqb_eq in Hr; by rewrite Hr).
  - destruct fuel as [|fuel]; [lia|]. simpl.
    rewrite (pos_root_iff _ _ _ Hin). rewrite (proj2 (Nat.eqb_neq _ _)) by lia. simpl.
    rewrite TreeNodeIndex_new_pos by (pose proof (in_tree_bound _ _ _ Hin); lia).
    rewrite (parent_node_at (k + S n)) by (done || lia).
    rewrite (inode_u32 (k + S n)) by (apply in_tree_parent; done || lia).
    rewrite IH; [|apply in_tree_parent; done || lia|lia|lia].
    by rewrite <- app_assoc.
Qed.

Lemma div_p2_S x k : x / p2 (S k) = x / p2 k / 2.
Proof. rewrite p2_S, N.mul_comm. symmetry. apply N.Div0.div_div. Qed.

Lemma double_div_p2_S x k : (2 * x) / p2 (S k) = x / p2 k.
Proof. rewrite p2_S. apply N.Div0.div_mul_cancel_l. lia. Qed.

Lemma double_div_p2_top h x : x < p2 h -> (2 * x) / p2 (S h) = 0.
Proof. intros. rewrite double_div_p2_S. by apply N.div_small. Qed.

Lemma lca_loop_spec h a b :
  (h <= 30)%nat -> a < p2 h -> b < p2 h -> a <> b ->
  exists m, (m < h)%nat /\
    lca_loop (2 * a) (2 * b) = Some (a / p2 (S m), b / p2 (S m), N.of_nat (S (S m))) /\
    a / p2 (S m) = b / p2 (S m) /\ a / p2 m <> b / p2 m.
Proof.
  intros Hh Ha Hb Hab. unfold lca_loop.
  match goal with |- context [while _ ?c ?b0 _] => destruct (while_total
    (fun '(xn, yn, k) => exists kn, k = N.of_nat kn /\ (kn <= S h)%nat /\
       xn = (2 * a) / p2 kn /\ yn = (2 * b) / p2 kn /\
       forall k', kn = S k' -> (2 * a) / p2 k' <> (2 * b) / p2 k')
    (fun '(_, _, k) => (S h - N.to_nat k)%nat) c b0) with (fuel := 32%nat) (s := (2 * a, 2 * b, 0))
    as ([[xn yn] k] & Hw & (kn & -> & Hkn & -> & -> & Hlast) & Hc) end.
  - intros [[xn yn] k] (kn & -> & Hkn & -> & -> & Hlast) Hc. simpl in *.
    apply negb_true_iff, N.eqb_neq in Hc.
    assert (kn <> S h) by (intros ->; by rewrite !double_div_p2_top in Hc by done).
    split; [|lia]. exists (S kn). rewrite !u32_shr_small, !N.shiftr_div_pow2, N.pow_1_r by lia.
    rewrite !div_p2_S. repeat split; [lia..|]. by intros k' [= <-].
  - exists 0%nat. repeat split; [lia|by rewrite N.div_1_r..|done].
  - simpl. lia.
  - rewrite Hw. simpl in Hc. apply negb_false_iff, N.eqb_eq in Hc.
    destruct kn as [|[|m]]; rewrite ?double_div_p2_S in *;
      change (p2 0) with 1 in Hc; rewrite ?N.div_1_r in Hc; [lia..|].
    specialize (Hlast _ eq_refl). rewrite !double_div_p2_S in Hlast.
    exists m. split_and!; [lia|done..].
Qed.

(** The lowest common ancestor of two distinct leaves is the inner node at the
    first level at which their ancestors agree. *)
Lemma lowest_common_ancestor_leaves h a b :
  (h <= 30)%nat -> a < p2 h -> b < p2 h -> a <> b ->
  exists m, (m < h)%nat /\
    lowest_common_ancestor (mkLeafNodeIndex a) (mkLeafNodeIndex b)
      = Some (inode m (a / p2 (S m))) /\
    a / p2 (S m) = b / p2 (S m) /\ a / p2 m <> b / p2 m.
Proof.
  intros Hh Ha Hb Hab.
  destruct (lca_loop_spec h a b) as (m & Hm & Hloop & Heq & Hne); [done..|].
  exists m. split; [done|]. split; [|done].
  assert (forall c, c < p2 h -> in_tree h 0 c) as Hin
    by (intros; split_and!; [lia..|by rewrite Nat.sub_0_r]).
  unfold lowest_common_ancestor.
  change (leaf_to_tree_index (mkLeafNodeIndex a)) with (TreeNodeIndex_u32 (node_at 0 a)).
  change (leaf_to_tree_index (mkLeafNodeIndex b)) with (TreeNodeIndex_u32 (node_at 0 b)).
  rewrite !(node_at_u32 h), !(level_pos h), !pos_0, Hloop by auto.
  change (N.of_nat 0 + 1) with 1.
  assert ((u32_shr (2 * a) 1 =? u32_shr (2 * b) 1) = false) as ->.
  { rewrite !u32_shr_small by lia. apply N.eqb_neq.
    rewrite !N.shiftr_div_pow2, N.pow_1_r, !(N.mul_comm 2), !N.div_mul by lia. done. }
  rewrite !andb_false_r.
  assert (in_tree h (S m) (a / p2 (S m))) as Hin'.
  { split_and!; [lia..|]. apply N.Div0.div_lt_upper_bound. rewrite <- p2_add.
    by replace (S m + (h - S m))%nat with h by lia. }
  pose proof (in_tree_bound _ _ _ Hin') as Hbd.
  cbn [fmap option_fmap option_map]. f_equal.
  replace (N.of_nat (S (S m)) - 1) with (N.of_nat (S m)) by lia.
  rewrite <- inner_from_tree_index_pos by lia. f_equal.
  pose proof (p2_31 m ltac:(lia)). pose proof (p2_pos (S m)).
  clear Hin' Hloop Heq Hne. generalize dependent (a / p2 (S m)). intros q Hbd.
  unfold pos in *. rewrite shl_1 by lia.
  rewrite u32_shl_small by (fold (p2 (S (S m))); lia). fold (p2 (S (S m))).
  rewrite u32_add_small by lia. rewrite u32_sub_small by lia. lia.
Qed.

Lemma from_leaf_count_size n :
  0 < n < 2 ^ 30 -> from_leaf_count n = size_of (S (N.to_nat (N.log2 n))).
Proof.
  intros Hn. assert (N.log2 n < 30) by (apply N.log2_lt_pow2; lia).
  unfold from_leaf_count, TreeSize_new. rewrite u32_mul_small by lia.
  rewrite log2_correct, (N.mul_comm n), N.log2_double by lia.
  replace (N.succ (N.log2 n) + 1) with (N.of_nat (S (S (N.to_nat (N.log2 n))))) by lia.
  rewrite shl_1 by lia. pose proof (p2_31 (S (N.to_nat (N.log2 n))) ltac:(lia)).
  pose proof (p2_pos (S (S (N.to_nat (N.log2 n))))).
  rewrite u32_sub_small by (simpl; lia). done.
Qed.

Lemma p2_log2 n : 0 < n -> p2 (N.to_nat (N.log2 n)) <= n < p2 (S (N.to_nat (N.log2 n))).
Proof.
  intros Hn. unfold p2. rewrite Nat2N.inj_succ, N2Nat.id.
  by apply N.log2_spec.
Qed.

(** [size_of] is ordered like the heights. *)
Lemma size_of_le h h' : TreeSize_u32 (size_of h) <= TreeSize_u32 (size_of h') <-> (h <= h')%nat.
Proof.
  simpl. pose proof (p2_pos (S h)). pose proof (p2_pos (S h')). split; intros H1.
  - destruct (Nat.le_gt_cases h h') as [|Hgt]; [done|].
    pose proof (p2_lt (S h') (S h) ltac:(lia)). lia.
  - pose proof (p2_mono (S h) (S h') ltac:(lia)). lia.
Qed.

Lemma path_from_lookup n k i j :
  (j < n)%nat -> path_from n k i !! j = Some (inode (k + j) (i / p2 (S j))).
Proof.
  revert k i j. induction n as [|n IH]; intros k i j Hj; [lia|]. destruct j as [|j]; simpl.
  - by rewrite Nat.add_0_r.
  - rewrite IH by lia. f_equal. f_equal; [lia|].
    rewrite (p2_S (S j)). by rewrite N.Div0.div_div.
Qed.

Lemma path_from_drop n k i j :
  (j <= n)%nat -> drop j (path_from n k i) = path_from (n - j) (k + j) (i / p2 j).
Proof.
  revert k i j. induction n as [|n IH]; intros k i j Hj.
  - replace j with 0%nat by lia. done.
  - destruct j as [|j]; simpl.
    + change (p2 0) with 1. by rewrite Nat.add_0_r, N.div_1_r.
    + rewrite IH by lia. rewrite Nat.add_succ_r. simpl. f_equal.
      by rewrite p2_S, N.Div0.div_div.
Qed.

Lemma in_tree_leaf h a : (h <= 30)%nat -> a < p2 h -> in_tree h 0 a.
Proof. intros. split_and!; [lia..|]. by rewrite Nat.sub_0_r. Qed.

Lemma in_tree_ancestor h k i j :
  in_tree h k i -> (k + j <= h)%nat -> in_tree h (k + j) (i / p2 j).
Proof.
  intros (Hh & Hk & Hi) Hj. split_and!; [lia..|].
  apply N.Div0.div_lt_upper_bound. rewrite <- p2_add.
  by replace (j + (h - (k + j)))%nat with (h - k)%nat by lia.
Qed.
#[export] Hint Resolve in_tree_leaf : treemath.

(** ** Properties *)



(** The direct path of a leaf goes up one level at a time and ends at the
    root; in particular the loop of [direct_path] terminates on every leaf of
    the tree, and its length is the height. *)
Theorem direct_path_leaf h a :
  (h <= 30)%nat -> a < p2 h ->
  exists path, direct_path (Leaf (mkLeafNodeIndex a)) (size_of h) = Some path /\
    length path = h /\
    (forall x, path !! 0%nat = Some x -> parent (Leaf (mkLeafNodeIndex a)) = x) /\
    (forall j x y, path !! j = Some x -> path !! S j = Some y -> parent (Inner x) = y) /\
    ((0 < h)%nat -> Inner <$> last path = Some (root (size_of h))).
Proof.
  intros Hh Ha. pose proof (in_tree_leaf h a Hh Ha) as Hin.
  exists (path_from h 0 a). split_and!.
  - rewrite <- (Nat.sub_0_r h) at 2. by apply (direct_path_node_at h 0 a).
  - apply path_from_length.
  - intros x Hx. destruct h as [|h]; [done|]. simplify_eq/=.
    apply (parent_node_at (S h) 0 a); [done|lia].
  - intros j x y Hx Hy. pose proof (lookup_lt_Some _ _ _ Hy) as Hlt.
    rewrite path_from_length in Hlt. rewrite path_from_lookup in Hx, Hy by lia. simplify_eq.
    change (Inner (inode (0 + j) (a / p2 (S j)))) with (node_at (S (0 + j)) (a / p2 (S j))).
    rewrite (parent_node_at h); [by rewrite <- div_p2_S| |lia].
    apply (in_tree_ancestor h 0 a (S j)); [done|lia].
  - intros Hpos. destruct h as [|h]; [lia|]. rewrite last_lookup, path_from_length. simpl pred.
    rewrite path_from_lookup by lia. rewrite root_size by done. simpl.
    by rewrite N.div_small.
Qed.

Lemma direct_path_leaf_witness :
  exists path, direct_path (Leaf (mkLeafNodeIndex 5)) (size_of 3) = Some path /\ length path = 3%nat.
Proof.
  destruct (direct_path_leaf 3 5 ltac:(lia) eq_refl) as (p & Hp & Hl & _).
  exists p. split; [exact Hp|exact Hl].
Defined.

(** [lowest_common_ancestor] of two distinct leaves is the first node the
    two direct paths share: it is at the same place on both, nothing below it
    on one path is on the other, and above it the paths are equal. *)
Theorem lowest_common_ancestor_paths h a b :
  (h <= 30)%nat -> a < p2 h -> b < p2 h -> a <> b ->
  exists c m pa pb,
    lowest_common_ancestor (mkLeafNodeIndex a) (mkLeafNodeIndex b) = Some c /\
    direct_path (Leaf (mkLeafNodeIndex a)) (size_of h) = Some pa /\
    direct_path (Leaf (mkLeafNodeIndex b)) (size_of h) = Some pb /\
    pa !! m = Some c /\ drop m pa = drop m pb /\
    (forall j x, (j < m)%nat -> pa !! j = Some x -> x ∉ pb).
Proof.
  intros Hh Ha Hb Hab.
  destruct (lowest_common_ancestor_leaves h a b) as (m & Hm & Hlca & Heq & Hne); [done..|].
  pose proof (in_tree_leaf h a Hh Ha) as Hia. pose proof (in_tree_leaf h b Hh Hb) as Hib.
  pose proof (direct_path_node_at h 0 a Hia) as Hpa. pose proof (direct_path_node_at h 0 b Hib) as Hpb.
  rewrite Nat.sub_0_r in Hpa, Hpb.
  exists (inode m (a / p2 (S m))), m, (path_from h 0 a), (path_from h 0 b).
  split_and!; [done..| | |].
  - by rewrite path_from_lookup by lia.
  - rewrite !path_from_drop by lia. destruct (h - m)%nat as [|n] eqn:Hn; [lia|]. simpl.
    rewrite <- !div_p2_S. by rewrite Heq.
  - intros j x Hj Hx [j' Hx']%list_elem_of_lookup.
    pose proof (lookup_lt_Some _ _ _ Hx') as Hlt. rewrite path_from_length in Hlt.
    rewrite path_from_lookup in Hx, Hx' by lia.
    destruct (node_at_inj h (S j') (b / p2 (S j')) (S j) (a / p2 (S j))) as [[= ->] Hq].
    1-2: apply (in_tree_ancestor h 0 _ (S _)); [done|lia].
    { simpl in *. congruence. }
    apply Hne. replace m with (S j + (m - S j))%nat by lia.
    rewrite p2_add, <- !N.Div0.div_div. by rewrite Hq.
Qed.

Lemma lowest_common_ancestor_paths_witness :
  lowest_common_ancestor (mkLeafNodeIndex 4) (mkLeafNodeIndex 7) = Some (mkInnerNodeIndex 5).
Proof.
  destruct (lowest_common_ancestor_paths 3 4 7 ltac:(lia) eq_refl eq_refl ltac:(done))
    as (c & m & pa & pb & Hc & Hrest).
  transitivity (Some c); [exact Hc|]. rewrite <- Hc. reflexivity.
Defined.

(** Tree sizes: [TreeSize::new(n)] is the smallest full tree with at least
    [n] nodes, and [TreeSize::from_leaf_count(n)] always has room for one more
    leaf than [n] (the slack [push_leaf] relies on) and at most [2n] leaves. *)
Theorem tree_sizes n :
  0 < n < 2 ^ 30 ->
  (exists h, TreeSize_new n = size_of h /\ n <= TreeSize_u32 (size_of h) /\
     forall h', n <= TreeSize_u32 (size_of h') -> (h <= h')%nat) /\
  n < leaf_count (from_leaf_count n) <= 2 * n /\
  inner_node_count (from_leaf_count n) + 1 = leaf_count (from_leaf_count n).
Proof.
  intros Hn. assert (N.log2 n < 30) as Hlog by (apply N.log2_lt_pow2; lia).
  pose proof (p2_log2 n ltac:(lia)) as [Hlo Hhi]. set (h := N.to_nat (N.log2 n)) in *.
  pose proof (p2_pos h) as Hp. split; [|split].
  - exists h. split_and!.
    + unfold TreeSize_new. rewrite log2_correct by lia.
      replace (N.log2 n + 1) with (N.of_nat (S h)) by lia. rewrite shl_1 by lia.
      pose proof (p2_31 h ltac:(lia)). rewrite u32_sub_small; [done| |]; lia.
    + simpl. lia.
    + intros h' Hh'. simpl in Hh'.
      destruct (Nat.le_gt_cases h h') as [|Hgt]; [done|].
      pose proof (p2_mono (S h') h ltac:(lia)). pose proof (p2_pos (S h')). lia.
  - rewrite from_leaf_count_size by done. fold h. rewrite leaf_count_size by lia.
    rewrite p2_S in *. lia.
  - rewrite from_leaf_count_size by done. fold h.
    rewrite inner_node_count_size, leaf_count_size by lia. pose proof (p2_pos (S h)). lia.
Qed.

Lemma tree_sizes_witness : 4 < leaf_count (from_leaf_count 4) <= 8.
Proof. exact (proj1 (proj2 (tree_sizes 4 ltac:(lia)))). Defined.
