(* ===== verification/Crypto.v ===== *)
(** * Keys, nonces and digests ([keyhive/keyhive_crypto/src])

    The crate wraps third-party primitives (x25519, BLAKE3, XChaCha20-Poly1305,
    bincode).  Those are the class [Primitives]; what the wrappers rely on is
    the class [PrimitiveLaws].  The wrappers themselves ([share_key.rs],
    [symmetric_key.rs], [siv.rs], [separable.rs], [digest.rs]) are definitions. *)

From Stdlib Require Import String Strings.Byte.
From S2P Require Import Prelude.

(** ** Bytes *)

Abbreviation bytes := (list byte).

#[export] Instance byte_eq_dec : EqDecision byte := byte_eq_dec.
#[export] Instance byte_countable : Countable byte.
Proof.
  refine (inj_countable Byte.to_N Byte.of_N _). intros x. apply Byte.of_to_N.
Defined.

(** Lexicographic order of [[u8]] slices. *)
Fixpoint bytes_cmp (a b : bytes) : comparison :=
  match a, b with
  | [], [] => Eq
  | [], _ :: _ => Lt
  | _ :: _, [] => Gt
  | x :: a', y :: b' =>
      match N.compare (Byte.to_N x) (Byte.to_N y) with
      | Eq => bytes_cmp a' b'
      | c => c
      end
  end.

Definition bytes_le (a b : bytes) : Prop := bytes_cmp a b <> Gt.

#[export] Instance bytes_le_dec : RelDecision bytes_le.
Proof. intros a b. unfold bytes_le. apply _. Defined.

Lemma bytes_cmp_antisym a b : bytes_cmp b a = CompOpp (bytes_cmp a b).
Proof.
  revert b. induction a as [|x a IH]; intros [|y b]; simpl; [done..|].
  rewrite (N.compare_antisym (to_N x) (to_N y)).
  destruct (N.compare (to_N x) (to_N y)); simpl; auto.
Qed.

Lemma bytes_cmp_eq a b : bytes_cmp a b = Eq <-> a = b.
Proof.
  revert b. induction a as [|x a IH]; intros [|y b]; simpl; try (split; done).
  destruct (N.compare_spec (to_N x) (to_N y)) as [Heq|Hlt|Hgt].
  - assert (x = y) as ->.
    { apply (inj Some). by rewrite <- (Byte.of_to_N x), Heq, Byte.of_to_N. }
    rewrite IH. split; congruence.
  - split; [done|]. intros [= -> ->]. lia.
  - split; [done|]. intros [= -> ->]. lia.
Qed.

#[export] Instance bytes_le_trans : Transitive bytes_le.
Proof.
  intros a. induction a as [|x a IH]; intros [|y b] [|z c]; unfold bytes_le in *; simpl; try done.
  destruct (N.compare_spec (to_N x) (to_N y)); try done;
  destruct (N.compare_spec (to_N y) (to_N z)); try done;
  destruct (N.compare_spec (to_N x) (to_N z)); try done; try lia.
  intros. by eapply IH.
Qed.

#[export] Instance bytes_le_total : Total bytes_le.
Proof.
  intros a b. unfold bytes_le. rewrite (bytes_cmp_antisym a b).
  destruct (bytes_cmp a b); simpl; auto.
Qed.

#[export] Instance bytes_le_antisymm : AntiSymm (=) bytes_le.
Proof.
  intros a b Hab Hba. apply bytes_cmp_eq. unfold bytes_le in *.
  rewrite (bytes_cmp_antisym a b) in Hba. by destruct (bytes_cmp a b).
Qed.

(** ** Newtypes *)

Record ShareKey := mkShareKey { ShareKey_bytes : bytes }.
Record ShareSecretKey := mkShareSecretKey { ShareSecretKey_bytes : bytes }.
Record SymmetricKey := mkSymmetricKey { SymmetricKey_bytes : bytes }.
Record Siv := mkSiv { Siv_bytes : bytes }.
(** [Digest<T>]: 32 bytes and a phantom tag. *)
Record Digest (T : Type) := mkDigest { Digest_raw : bytes }.
Arguments mkDigest {T} Digest_raw.
Arguments Digest_raw {T} d.

#[export] Instance ShareKey_eq_dec : EqDecision ShareKey.
Proof. solve_decision. Defined.
#[export] Instance ShareSecretKey_eq_dec : EqDecision ShareSecretKey.
Proof. solve_decision. Defined.
#[export] Instance SymmetricKey_eq_dec : EqDecision SymmetricKey.
Proof. solve_decision. Defined.
#[export] Instance Siv_eq_dec : EqDecision Siv.
Proof. solve_decision. Defined.
#[export] Instance Digest_eq_dec T : EqDecision (Digest T).
Proof. solve_decision. Defined.
#[export] Instance ShareKey_countable : Countable ShareKey.
Proof. by refine (inj_countable' ShareKey_bytes mkShareKey _); intros []. Defined.
#[export] Instance Digest_countable T : Countable (Digest T).
Proof. by refine (inj_countable' Digest_raw mkDigest _); intros []. Defined.

(** [impl Ord for ShareKey] and the derived order of digests. *)
Definition ShareKey_cmp (a b : ShareKey) : comparison :=
  bytes_cmp (ShareKey_bytes a) (ShareKey_bytes b).
Definition ShareKey_le (a b : ShareKey) : Prop := bytes_le (ShareKey_bytes a) (ShareKey_bytes b).
Definition Digest_le {T} (a b : Digest T) : Prop := bytes_le (Digest_raw a) (Digest_raw b).

#[export] Instance ShareKey_le_dec : RelDecision ShareKey_le.
Proof. intros a b. unfold ShareKey_le. apply _. Defined.
#[export] Instance ShareKey_le_trans : Transitive ShareKey_le.
Proof. intros a b c. unfold ShareKey_le. apply transitivity. Qed.
#[export] Instance ShareKey_le_total : Total ShareKey_le.
Proof. intros a b. apply (total bytes_le). Qed.
#[export] Instance ShareKey_le_antisymm : AntiSymm (=) ShareKey_le.
Proof. intros [a] [b] H1 H2. f_equal. by apply (anti_symm bytes_le). Qed.
#[export] Instance Digest_le_dec T : RelDecision (@Digest_le T).
Proof. intros a b. unfold Digest_le. apply _. Defined.
#[export] Instance Digest_le_trans T : Transitive (@Digest_le T).
Proof. intros a b c. unfold Digest_le. apply transitivity. Qed.
#[export] Instance Digest_le_total T : Total (@Digest_le T).
Proof. intros a b. apply (total bytes_le). Qed.
#[export] Instance Digest_le_antisymm T : AntiSymm (=) (@Digest_le T).
Proof. intros [a] [b] H1 H2. f_equal. by apply (anti_symm bytes_le). Qed.

(** ** Third-party primitives *)

Class Primitives := {
  (** [x25519_dalek]: [PublicKey::from(&StaticSecret)], [diffie_hellman],
      [StaticSecret::random_from_rng]. *)
  Rng : Type;
  x25519_public : bytes -> bytes;
  x25519_diffie_hellman : bytes -> bytes -> bytes;
  x25519_random_secret : Rng -> bytes * Rng;
  (** [blake3]: [derive_key(context, material)], [hash], and [Hasher] with
      [finalize_xof().fill] for [n] bytes. *)
  blake3_derive_key : string -> bytes -> bytes;
  blake3_hash : bytes -> bytes;
  blake3_xof : bytes -> nat -> bytes;
  (** [chacha20poly1305]: [encrypt_in_place]/[decrypt_in_place] with key,
      nonce, associated data and buffer. *)
  xchacha_encrypt : bytes -> bytes -> bytes -> bytes -> option bytes;
  xchacha_decrypt : bytes -> bytes -> bytes -> bytes -> option bytes;
}.

Class PrimitiveLaws (P : Primitives) : Prop := {
  diffie_hellman_comm a b :
    x25519_diffie_hellman a (x25519_public b) = x25519_diffie_hellman b (x25519_public a);
  xchacha_decrypt_encrypt k n ad m c :
    xchacha_encrypt k n ad m = Some c -> xchacha_decrypt k n ad c = Some m;
  (** Buffers up to the cipher's limit of 2^38 - 64 bytes are encrypted; a
      32-byte key is far below it. *)
  xchacha_encrypt_32 k n ad m : length m = 32%nat -> is_Some (xchacha_encrypt k n ad m);
  blake3_derive_key_32 ctx m : length (blake3_derive_key ctx m) = 32%nat;
  x25519_random_secret_32 r : length (x25519_random_secret r).1 = 32%nat;
}.

(** ** The wrappers *)

Definition SEPARATOR_STR : string := "/keyhive/".
Definition SEPARATOR : bytes := list_byte_of_string SEPARATOR_STR.

Section Wrappers.
Context `{P : Primitives}.

(** [Separable::derive_from_bytes], before [directly_from_32_bytes]. *)
Definition derive_from_bytes (b : bytes) : bytes := blake3_derive_key SEPARATOR_STR b.

Definition ShareSecretKey_generate (csprng : Rng) : ShareSecretKey * Rng :=
  let '(b, csprng') := x25519_random_secret csprng in (mkShareSecretKey b, csprng').

Definition share_key (sk : ShareSecretKey) : ShareKey :=
  mkShareKey (x25519_public (ShareSecretKey_bytes sk)).

Definition derive_new_secret_key (sk : ShareSecretKey) (other : ShareKey) : ShareSecretKey :=
  let b := x25519_diffie_hellman (ShareSecretKey_bytes sk) (ShareKey_bytes other) in
  mkShareSecretKey (derive_from_bytes b).

Definition derive_symmetric_key (sk : ShareSecretKey) (other : ShareKey) : SymmetricKey :=
  let secret := x25519_diffie_hellman (ShareSecretKey_bytes sk) (ShareKey_bytes other) in
  mkSymmetricKey (derive_from_bytes secret).

Definition ratchet_forward (sk : ShareSecretKey) : ShareSecretKey :=
  mkShareSecretKey (derive_from_bytes (ShareSecretKey_bytes sk)).

Fixpoint ratchet_n_forward (sk : ShareSecretKey) (n : nat) : ShareSecretKey :=
  match n with
  | O => sk
  | S n' => ratchet_n_forward (ratchet_forward sk) n'
  end.

Definition Siv_new (key : SymmetricKey) (plaintext doc_id : bytes) : Siv :=
  mkSiv (blake3_xof (SEPARATOR ++ doc_id ++ SymmetricKey_bytes key ++ plaintext) 24).

Definition try_encrypt (key : SymmetricKey) (nonce : Siv) (data : bytes) : option bytes :=
  xchacha_encrypt (SymmetricKey_bytes key) (Siv_bytes nonce) SEPARATOR data.

Definition try_decrypt (key : SymmetricKey) (nonce : Siv) (data : bytes) : option bytes :=
  xchacha_decrypt (SymmetricKey_bytes key) (Siv_bytes nonce) SEPARATOR data.

Lemma ratchet_n_forward_S sk n :
  ratchet_n_forward sk (S n) = ratchet_forward (ratchet_n_forward sk n).
Proof. revert sk. induction n as [|n IH]; intros sk; [done|]. simpl in *. by rewrite IH. Qed.

Lemma ratchet_n_forward_add sk n m :
  ratchet_n_forward sk (n + m) = ratchet_n_forward (ratchet_n_forward sk n) m.
Proof. revert sk. induction n as [|n IH]; intros sk; simpl; auto. Qed.

Context {L : PrimitiveLaws P}.

Lemma derive_symmetric_key_comm a b :
  derive_symmetric_key a (share_key b) = derive_symmetric_key b (share_key a).
Proof. unfold derive_symmetric_key. simpl. by rewrite diffie_hellman_comm. Qed.

Lemma try_decrypt_encrypt k n m c : try_encrypt k n m = Some c -> try_decrypt k n c = Some m.
Proof. apply xchacha_decrypt_encrypt. Qed.

Lemma ratchet_forward_32 sk : length (ShareSecretKey_bytes (ratchet_forward sk)) = 32%nat.
Proof. apply blake3_derive_key_32. Qed.
End Wrappers.

(** ** Digests: zero counting *)

(** [u8::count_zeros]: zero bits anywhere in the byte. *)
Definition count_zeros (x : byte) : N :=
  N.of_nat (length (filter (fun i => N.testbit (Byte.to_N x) (N.of_nat i) = false) (seq 0 8))).

Fixpoint trailing_zeros_loop (count : N) (l : bytes) : N :=
  match l with
  | [] => count
  | x :: l' =>
      let zeros := count_zeros x in
      let count := ((count + zeros) mod 256)%N in
      if negb (zeros =? 8)%N then count else trailing_zeros_loop count l'
  end.

Definition trailing_zeros {T} (d : Digest T) : N := trailing_zeros_loop 0 (reverse (Digest_raw d)).

Fixpoint trailing_zero_bytes_loop (count : N) (l : bytes) : N :=
  match l with
  | [] => count
  | x :: l' =>
      if decide (x = x00) then trailing_zero_bytes_loop ((count + 1) mod 256)%N l' else count
  end.

Definition trailing_zero_bytes {T} (d : Digest T) : N :=
  trailing_zero_bytes_loop 0 (reverse (Digest_raw d)).

(** The bits of a digest as a big-endian number, least significant first: what
    "trailing zero bits" counts. *)
Definition byte_bits (x : byte) : list bool :=
  (fun i => N.testbit (Byte.to_N x) (N.of_nat i)) <$> seq 0 8.
Fixpoint leading_false (l : list bool) : N :=
  match l with
  | false :: l' => 1 + leading_false l'
  | _ => 0
  end%N.
Definition trailing_zero_bits {T} (d : Digest T) : N :=
  leading_false (reverse (Digest_raw d) ≫= byte_bits).

Lemma trailing_zero_bytes_loop_spec n l c :
  (c + N.of_nat (n + length l) < 256)%N -> head l <> Some x00 ->
  trailing_zero_bytes_loop c (replicate n x00 ++ l) = (c + N.of_nat n)%N.
Proof.
  revert c. induction n as [|n IH]; intros c Hc Hl; simpl.
  - destruct l as [|x l]; simpl; [lia|]. rewrite decide_False by (simpl in Hl; congruence). lia.
  - rewrite N.mod_small by lia. rewrite IH; [lia|lia|done].
Qed.

(** [Digest::trailing_zero_bytes] counts exactly the zero bytes at the end
    of the digest. *)
Theorem trailing_zero_bytes_correct {T} (d : Digest T) l n :
  length (Digest_raw d) = 32%nat ->
  Digest_raw d = l ++ replicate n x00 -> last l <> Some x00 ->
  trailing_zero_bytes d = N.of_nat n.
Proof.
  intros Hlen Hd Hl. unfold trailing_zero_bytes. rewrite Hd in *.
  rewrite length_app, length_replicate in Hlen.
  rewrite reverse_app, reverse_replicate.
  rewrite trailing_zero_bytes_loop_spec; [lia| |].
  - rewrite length_reverse. lia.
  - by rewrite head_reverse.
Qed.

Lemma trailing_zero_bytes_correct_witness :
  trailing_zero_bytes (@mkDigest unit (replicate 30 xff ++ replicate 2 x00)) = 2%N.
Proof.
  apply (trailing_zero_bytes_correct _ (replicate 30 xff) 2); [reflexivity..|].
  vm_compute. discriminate.
Defined.

(** [Digest::trailing_zeros] is documented to return the number of trailing
    zero bits, but it adds up [u8::count_zeros], the zero bits anywhere in the
    byte: when the last byte is not zero the result is that byte's number of
    zero bits, and it differs from the number of trailing zero bits on, for
    instance, every digest that ends in [0x01]. *)
Theorem trailing_zeros_counts_all_zero_bits {T} (d : Digest T) l x :
  Digest_raw d = l ++ [x] -> x <> x00 ->
  trailing_zeros d = count_zeros x /\
  (x = x01 -> trailing_zeros d = 7%N /\ trailing_zero_bits d = 0%N).
Proof.
  intros Hd Hx. unfold trailing_zeros, trailing_zero_bits. rewrite Hd, reverse_snoc.
  assert (trailing_zeros_loop 0 (x :: reverse l) = count_zeros x) as ->.
  { simpl. rewrite N.add_0_l. by destruct x. }
  split; [done|]. by intros ->.
Qed.

Lemma trailing_zeros_counts_all_zero_bits_witness :
  trailing_zeros (@mkDigest unit (replicate 31 x00 ++ [x01])) = 7%N.
Proof.
  apply (trailing_zeros_counts_all_zero_bits _ (replicate 31 x00) x01); [reflexivity|discriminate|reflexivity].
Defined.

(** ** A model of the primitives

    Used by the witnesses: the public key is the secret, Diffie-Hellman is
    bytewise exclusive or, key derivation increments the first 32 bytes, hashing
    is the identity, and sealing prepends key and nonce. *)
Module ToyPrimitives.
Definition xor_byte (a b : byte) : byte :=
  default x00 (Byte.of_N (N.lxor (Byte.to_N a) (Byte.to_N b))).
Definition pad32 (b : bytes) : bytes := take 32 (b ++ replicate 32 x00).
Definition succ_byte (a : byte) : byte := default x00 (Byte.of_N (Byte.to_N a + 1)).

#[export] Instance toy : Primitives := {|
  Rng := nat;
  x25519_public b := b;
  x25519_diffie_hellman := zip_with xor_byte;
  x25519_random_secret r := (pad32 (replicate r x01 ++ [x7f]), S r);
  blake3_derive_key _ m := pad32 (succ_byte <$> m);
  blake3_hash m := m;
  blake3_xof m n := take n (m ++ replicate n x00);
  xchacha_encrypt k n ad m := Some (k ++ n ++ m);
  xchacha_decrypt k n ad c :=
    if decide (take (length (k ++ n)) c = k ++ n) then Some (drop (length (k ++ n)) c) else None
|}.

Lemma length_pad32 b : length (pad32 b) = 32%nat.
Proof. unfold pad32. rewrite length_take, length_app, length_replicate. lia. Qed.

#[export] Instance toy_laws : PrimitiveLaws toy.
Proof.
  split; simpl.
  - intros a. induction a as [|x a IH]; intros [|y b]; simpl; [done..|].
    f_equal; [|apply IH]. unfold xor_byte. by rewrite N.lxor_comm.
  - intros k n ad m c [= <-]. rewrite app_assoc.
    rewrite take_app_length, drop_app_length. by rewrite decide_True.
  - eauto.
  - intros. apply length_pad32.
  - intros. apply length_pad32.
Qed.
End ToyPrimitives.
