(* ===== verification/Keys.v ===== *)
(** * Identities, errors and node keys of BeeKEM
    ([keyhive/beekem/src/{id,error,encrypted,keys}.rs])

    The key map of a member, secrets sealed for one Diffie-Hellman partner, and
    the public key(s) of a tree node with their merge. *)

From S2P Require Import Prelude TreeMath Crypto.

(** ** Identities ([id.rs]) and errors ([error.rs]) *)

Record MemberId := mkMemberId { MemberId_bytes : bytes }.
Record TreeId := mkTreeId { TreeId_bytes : bytes }.

#[export] Instance MemberId_eq_dec : EqDecision MemberId.
Proof. solve_decision. Defined.
#[export] Instance TreeId_eq_dec : EqDecision TreeId.
Proof. solve_decision. Defined.
#[export] Instance MemberId_countable : Countable MemberId.
Proof. by refine (inj_countable' MemberId_bytes mkMemberId _); intros []. Defined.

(** [impl Ord for MemberId] *)
Definition MemberId_le (a b : MemberId) : Prop := bytes_le (MemberId_bytes a) (MemberId_bytes b).
#[export] Instance MemberId_le_dec : RelDecision MemberId_le.
Proof. intros a b. unfold MemberId_le. apply _. Defined.
#[export] Instance MemberId_le_trans : Transitive MemberId_le.
Proof. intros a b c. unfold MemberId_le. apply transitivity. Qed.
#[export] Instance MemberId_le_total : Total MemberId_le.
Proof. intros a b. apply (total bytes_le). Qed.
#[export] Instance MemberId_le_antisymm : AntiSymm (=) MemberId_le.
Proof. intros [a] [b] H1 H2. f_equal. by apply (anti_symm bytes_le). Qed.

(** The message a variant carries for display is left out. *)
Inductive CgkaError :=
  | Conversion
  | CurrentEncrypterNotFound
  | Decryption
  | DeriveNonce
  | Encryption
  | EncryptedSecretNotFound
  | IdentifierNotFound
  | InvalidOperation
  | InvalidPathLength
  | NoRootKey
  | NotInitialized
  | OperationNotFound
  | OutOfOrderOperation
  | OwnerIdentifierNotFound
  | ShareKeyNotFound
  | SecretKeyNotFound
  | RemoveLastMember
  | Serialize
  | UnexpectedKeyConflict
  | UnexpectedInitialOperation
  | UnexpectedInviteOperation
  | UnknownPcsKey
  | SigningError.

Definition is_missing_dependency (e : CgkaError) : bool :=
  match e with
  | NotInitialized | IdentifierNotFound | UnexpectedInitialOperation
  | UnexpectedInviteOperation | OutOfOrderOperation => true
  | _ => false
  end.

#[export] Instance TreeNodeIndex_countable : Countable TreeNodeIndex.
Proof.
  refine (inj_countable'
    (fun x => match x with Leaf l => inl (leaf_u32 l) | Inner i => inr (inner_u32 i) end)
    (fun s => match s with inl l => Leaf (mkLeafNodeIndex l) | inr i => Inner (mkInnerNodeIndex i) end) _).
  by intros [[]|[]].
Defined.

(** ** Sealed secrets ([encrypted.rs]) *)

Record EncryptedSecret := mkEncryptedSecret {
  es_nonce : Siv;
  es_ciphertext : bytes;
  es_paired_pk : ShareKey;
}.

#[export] Instance EncryptedSecret_eq_dec : EqDecision EncryptedSecret.
Proof. solve_decision. Defined.

(** [ShareKeyMap]: a [BTreeMap] read and written by key only. *)
Abbreviation ShareKeyMap := (gmap ShareKey ShareSecretKey).

Section Sealing.
Context `{P : Primitives}.

Definition encrypt_secret (doc_id : bytes) (secret sk : ShareSecretKey) (paired_pk : ShareKey) :
    res CgkaError EncryptedSecret :=
  let key := derive_symmetric_key sk paired_pk in
  let ciphertext := ShareSecretKey_bytes secret in
  let nonce := Siv_new key ciphertext doc_id in
  match try_encrypt key nonce ciphertext with
  | Some ciphertext' => Ok (mkEncryptedSecret nonce ciphertext' paired_pk)
  | None => Err Encryption
  end.

(** [EncryptedSecret::try_encrypter_decrypt] *)
Definition try_encrypter_decrypt (e : EncryptedSecret) (encrypter_secret_key : ShareSecretKey) :
    option bytes :=
  let key := derive_symmetric_key encrypter_secret_key (es_paired_pk e) in
  try_decrypt key (es_nonce e) (es_ciphertext e).

(** [ShareKeyMap::try_decrypt_encryption] *)
Definition try_decrypt_encryption (sks : ShareKeyMap) (encrypter_pk : ShareKey)
    (encrypted : EncryptedSecret) : res CgkaError bytes :=
  match sks !! es_paired_pk encrypted with
  | None => Err SecretKeyNotFound
  | Some sk =>
      let key := derive_symmetric_key sk encrypter_pk in
      match try_decrypt key (es_nonce encrypted) (es_ciphertext encrypted) with
      | Some buf => Ok buf
      | None => Err Decryption
      end
  end.

(** [ShareKeyMap::extend] and [Merge for ShareKeyMap]: later entries win. *)
Definition ShareKeyMap_extend (self other : ShareKeyMap) : ShareKeyMap := other ∪ self.
Definition ShareKeyMap_merge (self fork : ShareKeyMap) : ShareKeyMap := fork ∪ self.

Context {L : PrimitiveLaws P}.

Lemma encrypt_secret_ok doc_id secret sk paired_pk :
  length (ShareSecretKey_bytes secret) = 32%nat ->
  exists e, encrypt_secret doc_id secret sk paired_pk = Ok e /\ es_paired_pk e = paired_pk /\
    try_decrypt (derive_symmetric_key sk paired_pk) (es_nonce e) (es_ciphertext e)
      = Some (ShareSecretKey_bytes secret).
Proof.
  intros Hlen. unfold encrypt_secret.
  destruct (try_encrypt _ _ _) as [c|] eqn:Hc.
  - eexists. split_and!; [done..|]. simpl. by apply try_decrypt_encrypt.
  - exfalso. unfold try_encrypt in Hc.
    destruct (xchacha_encrypt_32 (SymmetricKey_bytes (derive_symmetric_key sk paired_pk))
      (Siv_bytes (Siv_new (derive_symmetric_key sk paired_pk) (ShareSecretKey_bytes secret) doc_id))
      SEPARATOR (ShareSecretKey_bytes secret) Hlen) as [? Hx].
    by rewrite Hx in Hc.
Qed.

Lemma encrypt_secret_inv doc_id secret sk paired_pk e :
  encrypt_secret doc_id secret sk paired_pk = Ok e ->
  es_paired_pk e = paired_pk /\
  try_decrypt (derive_symmetric_key sk paired_pk) (es_nonce e) (es_ciphertext e)
    = Some (ShareSecretKey_bytes secret).
Proof.
  unfold encrypt_secret. destruct (try_encrypt _ _ _) as [c|] eqn:Hc; [|done].
  intros [= <-]. simpl. split; [done|]. by apply try_decrypt_encrypt.
Qed.
End Sealing.

(** ** Node keys ([keys.rs]) *)

Record ConflictKeys := mkConflictKeys {
  ck_first : ShareKey;
  ck_second : ShareKey;
  ck_more : list ShareKey;
}.

Inductive NodeKey :=
  | NKShareKey (k : ShareKey)
  | NKConflictKeys (ks : ConflictKeys).

#[export] Instance ConflictKeys_eq_dec : EqDecision ConflictKeys.
Proof. solve_decision. Defined.
#[export] Instance NodeKey_eq_dec : EqDecision NodeKey.
Proof. solve_decision. Defined.

Definition ConflictKeys_push (ks : ConflictKeys) (key : ShareKey) : ConflictKeys :=
  mkConflictKeys (ck_first ks) (ck_second ks) (ck_more ks ++ [key]).
Definition ConflictKeys_contains (ks : ConflictKeys) (key : ShareKey) : bool :=
  bool_decide (ck_first ks = key) || bool_decide (ck_second ks = key)
    || bool_decide (key ∈ ck_more ks).
Definition ConflictKeys_len (ks : ConflictKeys) : nat := 2 + length (ck_more ks).
Definition ConflictKeys_iter (ks : ConflictKeys) : list ShareKey :=
  [ck_first ks] ++ [ck_second ks] ++ ck_more ks.
Definition ConflictKeys_into_vec (ks : ConflictKeys) : list ShareKey :=
  [ck_first ks; ck_second ks] ++ ck_more ks.

Definition NodeKey_keys (nk : NodeKey) : list ShareKey :=
  match nk with
  | NKShareKey pk => [pk]
  | NKConflictKeys ks => ConflictKeys_into_vec ks
  end.

Definition NodeKey_len (nk : NodeKey) : nat :=
  match nk with
  | NKShareKey _ => 1
  | NKConflictKeys ks => ConflictKeys_len ks
  end.

Definition NodeKey_contains_key (nk : NodeKey) (key : ShareKey) : bool :=
  match nk with
  | NKShareKey pk => bool_decide (key = pk)
  | NKConflictKeys ks => ConflictKeys_contains ks key
  end.

(** The slice patterns at the end of [merge] and [SecretStore::node_key];
    [None] is their [unreachable!]. *)
Definition NodeKey_of_slice (l : list ShareKey) : option NodeKey :=
  match l with
  | [] => None
  | [first] => Some (NKShareKey first)
  | [first; second] => Some (NKConflictKeys (mkConflictKeys first second []))
  | first :: second :: more => Some (NKConflictKeys (mkConflictKeys first second more))
  end.

Definition NodeKey_merge (self new_key : NodeKey) (removed : list ShareKey) : option NodeKey :=
  match self with
  | NKShareKey key =>
      if decide (key ∈ removed) then Some new_key
      else NodeKey_of_slice (merge_sort ShareKey_le (NodeKey_keys new_key ++ [key]))
  | NKConflictKeys keys =>
      NodeKey_of_slice (merge_sort ShareKey_le
        (NodeKey_keys new_key ++ filter (fun k => k ∉ removed) (ConflictKeys_iter keys)))
  end.

Lemma NodeKey_of_slice_keys l : l <> [] -> exists nk, NodeKey_of_slice l = Some nk /\ NodeKey_keys nk = l.
Proof. destruct l as [|a [|b [|c l]]]; [done|eexists; split; done..]. Qed.

Lemma NodeKey_keys_inj a b : NodeKey_keys a = NodeKey_keys b -> a = b.
Proof.
  destruct a as [a|[a1 a2 am]], b as [b|[b1 b2 bm]]; unfold ConflictKeys_into_vec; simpl;
    intros; simplify_eq/=; done.
Qed.

Lemma NodeKey_keys_ne nk : NodeKey_keys nk <> [].
Proof. by destruct nk. Qed.

Lemma merge_sort_ne l : l <> [] -> merge_sort ShareKey_le l <> [].
Proof.
  intros Hl Hs. apply Hl, Permutation_nil. rewrite <- Hs. apply merge_sort_Permutation.
Qed.

Lemma NodeKey_contains_key_spec nk k : NodeKey_contains_key nk k = true <-> k ∈ NodeKey_keys nk.
Proof.
  destruct nk as [pk|[a b more]]; unfold NodeKey_contains_key, NodeKey_keys,
    ConflictKeys_contains, ConflictKeys_into_vec; cbn [ck_first ck_second ck_more].
  - rewrite bool_decide_eq_true. set_solver.
  - rewrite !orb_true_iff, !bool_decide_eq_true. set_solver.
Qed.

(** Merging keeps the keys that were not replaced and adds the new ones. *)
Lemma NodeKey_merge_keys self new_key removed :
  exists nk, NodeKey_merge self new_key removed = Some nk /\
    NodeKey_keys nk ≡ₚ NodeKey_keys new_key ++ filter (fun k => k ∉ removed) (NodeKey_keys self).
Proof.
  pose proof (NodeKey_keys_ne new_key) as Hne.
  destruct self as [key|ks]; unfold NodeKey_merge.
  - destruct (decide (key ∈ removed)) as [Hin|Hout].
    + exists new_key. split; [done|]. simpl. rewrite filter_cons_False by (by auto).
      by rewrite app_nil_r.
    + destruct (NodeKey_of_slice_keys (merge_sort ShareKey_le (NodeKey_keys new_key ++ [key])))
        as (nk & -> & Hk).
      { apply merge_sort_ne. by destruct (NodeKey_keys new_key). }
      exists nk. split; [done|]. rewrite Hk, merge_sort_Permutation. simpl.
      by rewrite filter_cons_True by done.
  - match goal with |- context [NodeKey_of_slice ?l] =>
      destruct (NodeKey_of_slice_keys l) as (nk & -> & Hk) end.
    { apply merge_sort_ne. by destruct (NodeKey_keys new_key). }
    exists nk. split; [done|]. rewrite Hk. apply merge_sort_Permutation.
Qed.

(** Merging a single key that [removed] spares gives sorted keys. *)
Lemma NodeKey_merge_sorted self new_key removed nk :
  Sorted ShareKey_le (NodeKey_keys self) ->
  Forall (fun k => k ∉ removed) (NodeKey_keys self) ->
  NodeKey_merge self new_key removed = Some nk ->
  Sorted ShareKey_le (NodeKey_keys nk).
Proof.
  intros _ Hkeep. destruct self as [key|ks]; unfold NodeKey_merge.
  - inversion Hkeep; subst. rewrite decide_False by done. intros Hm.
    destruct (NodeKey_of_slice_keys (merge_sort ShareKey_le (NodeKey_keys new_key ++ [key])))
      as (nk' & Hnk & Hk).
    { apply merge_sort_ne. by destruct (NodeKey_keys new_key). }
    simplify_eq. rewrite Hk. apply Sorted_merge_sort. apply _.
  - match goal with |- NodeKey_of_slice ?l = _ -> _ =>
      destruct (NodeKey_of_slice_keys l) as (nk' & Hnk & Hk) end.
    { apply merge_sort_ne. pose proof (NodeKey_keys_ne new_key). by destruct (NodeKey_keys new_key). }
    intros Hm. simplify_eq. rewrite Hk. apply Sorted_merge_sort. apply _.
Qed.

(** Applying a list of updates, each with the key it writes and the keys it
    says it replaced. *)
Definition merge_all (old : NodeKey) (l : list (ShareKey * list ShareKey)) : option NodeKey :=
  foldl (fun acc '(k, r) => nk ← acc; NodeKey_merge nk (NKShareKey k) r) (Some old) l.

(** Concurrent updates: each replaced the old keys, none replaced another's. *)
Definition concurrent_updates (old : NodeKey) (l : list (ShareKey * list ShareKey)) : Prop :=
  Forall (fun u => Forall (fun k => k ∈ u.2) (NodeKey_keys old) /\
                   Forall (fun v => v.1 ∉ u.2) l) l.

Lemma merge_all_keys old l0 l u :
  Forall (fun v => Forall (fun k => k ∈ v.2) (NodeKey_keys old) /\ Forall (fun w => w.1 ∉ v.2) l0) (u :: l) ->
  u :: l ⊆ l0 ->
  exists nk, merge_all old (u :: l) = Some nk /\ NodeKey_keys nk ≡ₚ (u :: l).*1 /\
    Sorted ShareKey_le (NodeKey_keys nk).
Proof.
  intros Hall Hsub. unfold merge_all.
  induction l as [|v l IH] using rev_ind.
  - destruct u as [k r]. simpl. inversion Hall as [|? ? [Hold _] _]; subst. simpl in Hold.
    destruct (NodeKey_merge_keys old (NKShareKey k) r) as (nk & Hm & Hk).
    exists nk. split; [done|].
    assert (filter (fun k0 => k0 ∉ r) (NodeKey_keys old) = []) as Hnil.
    { apply list_filter_none. eapply Forall_impl; [exact Hold|]. simpl. auto. }
    rewrite Hnil in Hk. simpl in Hk. split; [done|].
    apply symmetry, Permutation_singleton_l in Hk as <-. repeat constructor.
  - rewrite app_comm_cons, foldl_app. rewrite app_comm_cons in Hall, Hsub.
    apply Forall_app in Hall as [Hall Hv]. inversion Hv as [|? ? [_ Hkeep] _]; subst.
    destruct IH as (nk & -> & Hk & Hs); [done|set_solver|].
    destruct v as [k r]. cbn [snd] in Hkeep.
    assert (Forall (fun k0 => k0 ∉ r) (NodeKey_keys nk)) as Hnk.
    { rewrite Hk. apply Forall_fmap, Forall_forall. intros x Hx.
      apply (proj1 (Forall_forall _ _) Hkeep). set_solver. }
    destruct (NodeKey_merge_keys nk (NKShareKey k) r) as (nk' & Hm & Hk').
    exists nk'. split; [done|]. split; [|by eapply NodeKey_merge_sorted].
    rewrite Hk', list_filter_all, Hk, fmap_app by done. apply Permutation_cons_append.
Qed.

(** Convergence at a leaf: concurrent rotations of the same leaf give the
    same node key in whatever order they are merged, and that node key holds
    exactly the new keys. *)
Theorem merge_all_order_independent old l l' :
  concurrent_updates old l -> l ≡ₚ l' -> l <> [] ->
  exists nk, merge_all old l = Some nk /\ merge_all old l' = Some nk /\ NodeKey_keys nk ≡ₚ l.*1.
Proof.
  intros Hc Hp Hne. destruct l as [|u l]; [done|]. destruct l' as [|u' l'].
  { by apply symmetry, Permutation_nil_cons in Hp. }
  destruct (merge_all_keys old (u :: l) l u) as (nk & Hm & Hk & Hs); [done..|].
  destruct (merge_all_keys old (u :: l) l' u') as (nk' & Hm' & Hk' & Hs').
  { by rewrite <- Hp. }
  { by rewrite <- Hp. }
  exists nk. split; [done|]. split; [|done]. rewrite Hm'. f_equal.
  apply NodeKey_keys_inj, (Sorted_unique ShareKey_le); [done..|].
  rewrite Hk, Hk', Hp. done.
Qed.

Lemma merge_all_order_independent_witness :
  let key b := mkShareKey [b] in
  let old := NKShareKey (key Byte.x01) in
  let l := [(key Byte.x03, [key Byte.x01]); (key Byte.x02, [key Byte.x01])] in
  exists nk, merge_all old l = Some nk /\ merge_all old (reverse l) = Some nk /\
    NodeKey_keys nk = [key Byte.x02; key Byte.x03].
Proof.
  intros key old l.
  destruct (merge_all_order_independent old l (reverse l)) as (nk & H1 & H2 & _).
  - repeat constructor; vm_compute; set_solver.
  - symmetry. apply reverse_Permutation.
  - done.
  - exists nk. split; [exact H1|]. split; [exact H2|].
    vm_compute in H1. injection H1 as <-. reflexivity.
Defined.
