(* ===== verification/SecretStore.v ===== *)
(** * The secret store of an inner node ([keyhive/beekem/src/secret_store.rs])

    A store holds one version per concurrent writer of the node; each version
    has the node's public key, the sealed node secret for every node of the
    sibling resolution, and the public key of the child that sealed it. *)

From S2P Require Import Prelude TreeMath Crypto Keys.

Record SecretStoreVersion := mkVersion {
  v_pk : ShareKey;
  v_sk : gmap TreeNodeIndex EncryptedSecret;
  v_encrypter_pk : ShareKey;
}.

Record SecretStore := mkSecretStore { versions : list SecretStoreVersion }.

#[export] Instance SecretStoreVersion_eq_dec : EqDecision SecretStoreVersion.
Proof. solve_decision. Defined.
#[export] Instance SecretStore_eq_dec : EqDecision SecretStore.
Proof. solve_decision. Defined.

Definition SecretStore_new (pk encrypter_pk : ShareKey) (sk : gmap TreeNodeIndex EncryptedSecret) :
    SecretStore :=
  mkSecretStore [mkVersion pk sk encrypter_pk].

Definition has_conflict (s : SecretStore) : bool := (1 <? length (versions s))%nat.

(** [None] is the [unreachable!] of a store without versions. *)
Definition SecretStore_node_key (s : SecretStore) : option NodeKey :=
  match versions s with
  | [v] => Some (NKShareKey (v_pk v))
  | vs => NodeKey_of_slice (v_pk <$> vs)
  end.

(** The index whose entry is opened: the last one seen, or else the latest
    earlier one that has an entry. *)
Definition lookup_idx (sk : gmap TreeNodeIndex EncryptedSecret) (seen_idxs : list TreeNodeIndex) :
    option TreeNodeIndex :=
  match last seen_idxs with
  | None => None
  | Some idx =>
      if decide (is_Some (sk !! idx)) then Some idx
      else snd <$> list_find (fun i => is_Some (sk !! i)) (drop 1 (reverse seen_idxs))
  end.

Section Decrypt.
Context `{P : Primitives}.

(** [SecretStoreVersion::decrypt_secret] *)
Definition version_decrypt_secret (v : SecretStoreVersion) (child_node_key : NodeKey)
    (child_sks : ShareKeyMap) (seen_idxs : list TreeNodeIndex) : res CgkaError ShareSecretKey :=
  let is_encrypter := NodeKey_contains_key child_node_key (v_encrypter_pk v) in
  match lookup_idx (v_sk v) seen_idxs with
  | None => Err EncryptedSecretNotFound
  | Some idx =>
      match v_sk v !! idx with
      | None => Err EncryptedSecretNotFound
      | Some encrypted =>
          let decrypted : res CgkaError bytes :=
            if is_encrypter then
              match child_sks !! v_encrypter_pk v with
              | None => Err SecretKeyNotFound
              | Some secret_key =>
                  match try_encrypter_decrypt encrypted secret_key with
                  | None => Err Decryption
                  | Some b => Ok b
                  end
              end
            else try_decrypt_encryption child_sks (v_encrypter_pk v) encrypted in
          match decrypted with
          | Ok b => if decide (length b = 32%nat) then Ok (mkShareSecretKey b) else Err Conversion
          | Err e => Err e
          | Panic => Panic
          | Diverge => Diverge
          end
      end
  end.

(** [SecretStore::decrypt_secret]; [self.versions[0]] panics without versions. *)
Definition store_decrypt_secret (s : SecretStore) (child_node_key : NodeKey)
    (child_sks : ShareKeyMap) (seen_idxs : list TreeNodeIndex) : res CgkaError ShareSecretKey :=
  if has_conflict s then Err UnexpectedKeyConflict
  else match versions s with
       | [] => Panic
       | v :: _ => version_decrypt_secret v child_node_key child_sks seen_idxs
       end.
End Decrypt.

Definition remove_keys_from (s : SecretStore) (removed_keys : gset ShareKey) : SecretStore :=
  if decide (removed_keys = ∅) then s
  else mkSecretStore (filter (fun v => v_pk v ∉ removed_keys) (versions s)).

Definition SecretStore_merge (self other : SecretStore) (removed_keys : gset ShareKey) : SecretStore :=
  mkSecretStore (versions (remove_keys_from self removed_keys) ++ versions other).

(** ** Lemmas *)

(** "There should always be at least one version." *)
Definition store_wf (s : SecretStore) : Prop := versions s <> [].

Lemma store_node_key_keys s :
  store_wf s -> exists nk, SecretStore_node_key s = Some nk /\ NodeKey_keys nk = v_pk <$> versions s.
Proof.
  destruct s as [[|v [|w vs]]]; unfold store_wf; simpl; [done|eauto|].
  intros _. destruct (NodeKey_of_slice_keys (v_pk <$> v :: w :: vs)) as (nk & H1 & H2); [done|].
  exists nk. split; [exact H1|exact H2].
Qed.

Lemma has_conflict_false s :
  store_wf s -> has_conflict s = false -> exists v, versions s = [v].
Proof.
  destruct s as [[|v [|w vs]]]; unfold store_wf, has_conflict; simpl; [done|eauto|done].
Qed.

Lemma remove_keys_versions s removed :
  versions (remove_keys_from s removed) = filter (fun v => v_pk v ∉ removed) (versions s).
Proof.
  unfold remove_keys_from. destruct (decide (removed = ∅)) as [->|]; [|done].
  symmetry. apply list_filter_all, Forall_forall. set_solver.
Qed.

Lemma SecretStore_merge_wf self other removed :
  store_wf other -> store_wf (SecretStore_merge self other removed).
Proof. unfold store_wf. simpl. intros H1 H2. apply app_eq_nil in H2. naive_solver. Qed.

(** The source's two-step search finds the latest seen index with an entry. *)
Lemma lookup_idx_spec sk seen :
  lookup_idx sk seen = snd <$> list_find (fun i => is_Some (sk !! i)) (reverse seen).
Proof.
  unfold lookup_idx. destruct (last seen) as [i|] eqn:Hl.
  - apply last_Some in Hl as [l ->]. rewrite reverse_snoc. simpl.
    rewrite drop_0. destruct (decide (is_Some (sk !! i))); simpl; [done|].
    by destruct (list_find _ (reverse l)) as [[]|].
  - apply last_None in Hl as ->. done.
Qed.

Section Opening.
Context `{P : Primitives} {L : PrimitiveLaws P}.

(** [e] is [secret], sealed under the Diffie-Hellman secret of [child_sk] and
    the partner key it names. *)
Definition sealed (child_sk secret : ShareSecretKey) (e : EncryptedSecret) : Prop :=
  try_decrypt (derive_symmetric_key child_sk (es_paired_pk e)) (es_nonce e) (es_ciphertext e)
    = Some (ShareSecretKey_bytes secret).

Lemma encrypt_secret_sealed doc_id secret sk paired_pk e :
  encrypt_secret doc_id secret sk paired_pk = Ok e ->
  es_paired_pk e = paired_pk /\ sealed sk secret e.
Proof. intros H. unfold sealed. by apply encrypt_secret_inv in H as [-> ?]. Qed.

(** The child that sealed the version opens it with its own secret. *)
Lemma version_decrypt_encrypter v nk sks seen idx e child_sk secret :
  lookup_idx (v_sk v) seen = Some idx -> v_sk v !! idx = Some e ->
  sealed child_sk secret e -> length (ShareSecretKey_bytes secret) = 32%nat ->
  NodeKey_contains_key nk (v_encrypter_pk v) = true ->
  sks !! v_encrypter_pk v = Some child_sk ->
  version_decrypt_secret v nk sks seen = Ok secret.
Proof.
  intros Hidx He Hs Hlen Hnk Hsk. unfold version_decrypt_secret.
  rewrite Hidx, He, Hnk, Hsk. unfold try_encrypter_decrypt. rewrite Hs.
  rewrite decide_True by done. by destruct secret.
Qed.

(** A member of the sibling resolution opens it with the partner's secret. *)
Lemma version_decrypt_partner v nk sks seen idx e child_sk secret partner_sk :
  lookup_idx (v_sk v) seen = Some idx -> v_sk v !! idx = Some e ->
  sealed child_sk secret e -> length (ShareSecretKey_bytes secret) = 32%nat ->
  v_encrypter_pk v = share_key child_sk ->
  NodeKey_contains_key nk (v_encrypter_pk v) = false ->
  sks !! es_paired_pk e = Some partner_sk -> es_paired_pk e = share_key partner_sk ->
  version_decrypt_secret v nk sks seen = Ok secret.
Proof.
  intros Hidx He Hs Hlen Hpk Hnk Hsk Hpair. unfold version_decrypt_secret.
  rewrite Hidx, He, Hnk. unfold try_decrypt_encryption. rewrite Hsk, Hpk.
  rewrite derive_symmetric_key_comm, <- Hpair, Hs.
  rewrite decide_True by done. by destruct secret.
Qed.
End Opening.

(** ** Properties *)

Definition version_pks (s : SecretStore) : gset ShareKey := list_to_set (v_pk <$> versions s).

Lemma merge_removes_all s other removed :
  version_pks s ⊆ removed -> versions (SecretStore_merge s other removed) = versions other.
Proof.
  intros Hsub. simpl. rewrite remove_keys_versions, list_filter_none; [done|].
  apply Forall_forall. intros v Hv Hn. apply Hn, Hsub.
  apply elem_of_list_to_set, list_elem_of_fmap. eauto.
Qed.

Lemma merge_keeps_all s other removed :
  version_pks s ## removed -> versions (SecretStore_merge s other removed) = versions s ++ versions other.
Proof.
  intros Hd. simpl. rewrite remove_keys_versions, list_filter_all; [done|].
  apply Forall_forall. intros v Hv Hn. apply (Hd (v_pk v)); [|done].
  apply elem_of_list_to_set, list_elem_of_fmap. eauto.
Qed.

(** Merging two concurrent writes of an inner node, each of which replaced
    what was there: both survive, whichever is merged first, and the node is in
    conflict. *)
Theorem store_merge_concurrent s a b ra rb :
  store_wf a -> store_wf b ->
  version_pks s ⊆ ra -> version_pks s ⊆ rb ->
  version_pks a ## rb -> version_pks b ## ra ->
  versions (SecretStore_merge (SecretStore_merge s a ra) b rb) = versions a ++ versions b /\
  versions (SecretStore_merge (SecretStore_merge s a ra) b rb)
    ≡ₚ versions (SecretStore_merge (SecretStore_merge s b rb) a ra) /\
  has_conflict (SecretStore_merge (SecretStore_merge s a ra) b rb) = true.
Proof.
  intros Ha Hb Hsa Hsb Hab Hba.
  assert (forall x y rx ry, version_pks s ⊆ rx -> version_pks x ## ry ->
    versions (SecretStore_merge (SecretStore_merge s x rx) y ry) = versions x ++ versions y) as Hm.
  { intros x y rx ry Hsx Hxy. rewrite merge_keeps_all.
    - by rewrite merge_removes_all.
    - unfold version_pks. by rewrite merge_removes_all. }
  rewrite !Hm by done. split; [done|]. split; [by rewrite Permutation_app_comm|].
  unfold has_conflict. rewrite Hm by done. rewrite length_app. apply Nat.ltb_lt.
  unfold store_wf in *. destruct (versions a), (versions b); simpl; try done. lia.
Qed.

Lemma store_merge_concurrent_witness :
  let st b := SecretStore_new (mkShareKey [b]) (mkShareKey []) ∅ in
  let r : gset ShareKey := {[ mkShareKey [Byte.x01] ]} in
  has_conflict (SecretStore_merge (SecretStore_merge (st Byte.x01) (st Byte.x03) r) (st Byte.x02) r) = true.
Proof.
  intros st r.
  apply (store_merge_concurrent (st Byte.x01) (st Byte.x03) (st Byte.x02) r r);
    try (vm_compute; discriminate).
  - done.
  - done.
  - intros x Hx Hr. vm_compute in Hx. set_solver.
  - intros x Hx Hr. vm_compute in Hx. set_solver.
Defined.

(** The comment on [SecretStore.versions] claims that public keys are in
    lexicographic order; [merge] appends without sorting, so two concurrent
    single-version writes merged in the order of decreasing keys give a store
    whose keys are not sorted. *)
Theorem store_merge_unsorted pk pk' e e' m m' s removed :
  version_pks s ⊆ removed -> pk ∉ removed -> ~ ShareKey_le pk pk' ->
  ~ Sorted ShareKey_le (v_pk <$> versions
      (SecretStore_merge (SecretStore_merge s (SecretStore_new pk e m) removed)
                         (SecretStore_new pk' e' m') removed)).
Proof.
  intros Hs Hpk Hle. rewrite merge_keeps_all.
  - rewrite merge_removes_all by done. simpl. intros Hsort.
    inversion Hsort as [|? ? _ Hhd]; subst. inversion Hhd; subst. done.
  - unfold version_pks. rewrite merge_removes_all by done. simpl. set_solver.
Qed.

Lemma store_merge_unsorted_witness :
  let st b := SecretStore_new (mkShareKey [b]) (mkShareKey []) ∅ in
  let r : gset ShareKey := {[ mkShareKey [Byte.x01] ]} in
  ~ Sorted ShareKey_le (v_pk <$> versions
      (SecretStore_merge (SecretStore_merge (st Byte.x01) (st Byte.x03) r) (st Byte.x02) r)).
Proof.
  intros st r. apply store_merge_unsorted.
  - intros x Hx. vm_compute in Hx. set_solver.
  - vm_compute. set_solver.
  - vm_compute. intros H. by apply H.
Defined.
