(* ===== verification/Tree.v ===== *)
(** * The BeeKEM tree ([keyhive/beekem/src/tree.rs])

    The state of one replica's ratchet tree and every operation on it.
    [&mut self] methods are computations over the tree (and the random number
    generator where one is passed), [&self] methods are readers.  [Vec] indexing
    and [expect] outside the arrays are [Panic].  Walks towards the root have
    fuel 32: a tree has at most 31 levels. *)

From S2P Require Import Prelude TreeMath Crypto Keys SecretStore.

Local Open Scope monad_scope.

Record LeafNode := mkLeafNode { ln_id : MemberId; ln_pk : NodeKey }.

#[export] Instance LeafNode_eq_dec : EqDecision LeafNode.
Proof. solve_decision. Defined.

Record PathChange := mkPathChange {
  pc_leaf_id : MemberId;
  pc_leaf_idx : N;
  pc_leaf_pk : NodeKey;
  pc_path : list (N * SecretStore);
  pc_removed_keys : list ShareKey;
}.

Record BeeKem := mkBeeKem {
  bk_doc_id : TreeId;
  next_leaf_idx : LeafNodeIndex;
  leaves : list (option LeafNode);
  inner_nodes : list (option SecretStore);
  tree_size : TreeSize;
  id_to_leaf_idx : gmap MemberId LeafNodeIndex;
  current_secret_encrypter_leaf_idx : option LeafNodeIndex;
}.

Definition set_next_leaf_idx (x : LeafNodeIndex) (t : BeeKem) : BeeKem :=
  mkBeeKem (bk_doc_id t) x (leaves t) (inner_nodes t) (tree_size t) (id_to_leaf_idx t)
    (current_secret_encrypter_leaf_idx t).
Definition set_leaves (x : list (option LeafNode)) (t : BeeKem) : BeeKem :=
  mkBeeKem (bk_doc_id t) (next_leaf_idx t) x (inner_nodes t) (tree_size t) (id_to_leaf_idx t)
    (current_secret_encrypter_leaf_idx t).
Definition set_inner_nodes (x : list (option SecretStore)) (t : BeeKem) : BeeKem :=
  mkBeeKem (bk_doc_id t) (next_leaf_idx t) (leaves t) x (tree_size t) (id_to_leaf_idx t)
    (current_secret_encrypter_leaf_idx t).
Definition set_tree_size (x : TreeSize) (t : BeeKem) : BeeKem :=
  mkBeeKem (bk_doc_id t) (next_leaf_idx t) (leaves t) (inner_nodes t) x (id_to_leaf_idx t)
    (current_secret_encrypter_leaf_idx t).
Definition set_id_to_leaf_idx (x : gmap MemberId LeafNodeIndex) (t : BeeKem) : BeeKem :=
  mkBeeKem (bk_doc_id t) (next_leaf_idx t) (leaves t) (inner_nodes t) (tree_size t) x
    (current_secret_encrypter_leaf_idx t).
Definition set_encrypter (x : option LeafNodeIndex) (t : BeeKem) : BeeKem :=
  mkBeeKem (bk_doc_id t) (next_leaf_idx t) (leaves t) (inner_nodes t) (tree_size t)
    (id_to_leaf_idx t) x.

Abbreviation TreeM := (M BeeKem CgkaError).

(** ** Readers *)

Definition leaf (idx : LeafNodeIndex) (t : BeeKem) : res CgkaError (option LeafNode) :=
  expectR (leaves t !! LeafNodeIndex_usize idx).

Definition inner_node (idx : InnerNodeIndex) (t : BeeKem) : res CgkaError (option SecretStore) :=
  expectR (inner_nodes t !! InnerNodeIndex_usize idx).

Definition leaf_index_for_id (id : MemberId) (t : BeeKem) : res CgkaError LeafNodeIndex :=
  ok_orR (id_to_leaf_idx t !! id) IdentifierNotFound.

Definition contains_id (id : MemberId) (t : BeeKem) : bool :=
  bool_decide (is_Some (id_to_leaf_idx t !! id)).

Definition id_for_leaf (idx : LeafNodeIndex) (t : BeeKem) : res CgkaError MemberId :=
  let* o := leaf idx t in
  let* l := ok_orR o IdentifierNotFound in
  Ok (ln_id l).

Definition node_key_for_index (idx : TreeNodeIndex) (t : BeeKem) : res CgkaError NodeKey :=
  match idx with
  | Leaf l_idx =>
      let* o := leaf l_idx t in
      let* l := ok_orR o ShareKeyNotFound in
      Ok (ln_pk l)
  | Inner i_idx =>
      let* o := inner_node i_idx t in
      let* s := ok_orR o ShareKeyNotFound in
      expectR (SecretStore_node_key s)
  end.

Definition node_key_for_id (id : MemberId) (t : BeeKem) : res CgkaError NodeKey :=
  let* idx := leaf_index_for_id id t in
  node_key_for_index (Leaf idx) t.

Definition member_count (t : BeeKem) : N := wrap32 (N.of_nat (size (id_to_leaf_idx t))).

Definition is_root (idx : TreeNodeIndex) (t : BeeKem) : bool :=
  bool_decide (idx = root (tree_size t)).

Definition is_blank (idx : TreeNodeIndex) (t : BeeKem) : res CgkaError bool :=
  match idx with
  | Leaf l_idx => let* o := leaf l_idx t in Ok (bool_decide (o = None))
  | Inner p_idx => let* o := inner_node p_idx t in Ok (bool_decide (o = None))
  end.

Definition should_skip_for_resolution (idx : TreeNodeIndex) (t : BeeKem) : res CgkaError bool :=
  match idx with
  | Leaf _ => is_blank idx t
  | Inner i_idx =>
      let* o := inner_node i_idx t in
      Ok (match o with None => true | Some n => has_conflict n end)
  end.

Definition has_root_key (t : BeeKem) : res CgkaError bool :=
  match root (tree_size t) with
  | Leaf _ => Panic
  | Inner p_idx =>
      let* o := inner_node p_idx t in
      Ok (match o with Some r => negb (has_conflict r) | None => false end)
  end.

Definition conflict_node_count (t : BeeKem) : nat :=
  length (filter (fun n => from_option has_conflict false n = true) (inner_nodes t)).

Definition path_length_for (idx : LeafNodeIndex) (t : BeeKem) : res CgkaError nat :=
  let* p := loopR (direct_path (Leaf idx) (tree_size t)) in Ok (length p).

Definition is_valid_path (new_path : PathChange) (t : BeeKem) : res CgkaError bool :=
  let* leaf_idx := expectR (id_to_leaf_idx t !! pc_leaf_id new_path) in
  let* n := path_length_for (mkLeafNodeIndex (pc_leaf_idx new_path)) t in
  Ok ((length (pc_path new_path) =? n)%nat && (leaf_u32 leaf_idx =? pc_leaf_idx new_path)%N).

(** Highest non-blank, non-conflict descendants of a node; [acc] is the
    accumulator the source pushes to. *)
Fixpoint append_resolution (fuel : nat) (idx : TreeNodeIndex) (acc : list TreeNodeIndex) (t : BeeKem) :
    res CgkaError (list TreeNodeIndex) :=
  let* skip := should_skip_for_resolution idx t in
  if skip then
    match idx with
    | Inner i_idx =>
        match fuel with
        | O => Diverge
        | S fuel' =>
            let* acc := append_resolution fuel' (left i_idx) acc t in
            append_resolution fuel' (right i_idx) acc t
        end
    | Leaf _ => Ok acc
    end
  else Ok (acc ++ [idx]).

(** ** Writers *)

Definition insert_leaf_at (idx : LeafNodeIndex) (id : MemberId) (pk : NodeKey) : TreeM unit := fun t =>
  if decide (LeafNodeIndex_usize idx < length (leaves t))%nat then
    (Ok tt, set_leaves (<[LeafNodeIndex_usize idx := Some (mkLeafNode id pk)]> (leaves t)) t)
  else (Panic, t).

Definition blank_leaf (idx : LeafNodeIndex) : TreeM unit := fun t =>
  if decide (LeafNodeIndex_usize idx < length (leaves t))%nat then
    (Ok tt, set_leaves (<[LeafNodeIndex_usize idx := None]> (leaves t)) t)
  else (Panic, t).

Definition insert_inner_node_at (idx : InnerNodeIndex) (s : SecretStore) : TreeM unit := fun t =>
  if decide (InnerNodeIndex_usize idx < length (inner_nodes t))%nat then
    (Ok tt, set_inner_nodes (<[InnerNodeIndex_usize idx := Some s]> (inner_nodes t)) t)
  else (Panic, t).

Definition blank_inner_node (idx : InnerNodeIndex) : TreeM unit := fun t =>
  if decide (InnerNodeIndex_usize idx < length (inner_nodes t))%nat then
    (Ok tt, set_inner_nodes (<[InnerNodeIndex_usize idx := None]> (inner_nodes t)) t)
  else (Panic, t).

Fixpoint blank_path_loop (fuel : nat) (idx : InnerNodeIndex) : TreeM InnerNodeIndex :=
  r <- gets (is_root (Inner idx)) ;;
  if r then ret idx
  else match fuel with
       | O => diverge
       | S fuel' => blank_inner_node idx ;; blank_path_loop fuel' (parent (Inner idx))
       end.

Definition blank_path (idx : InnerNodeIndex) : TreeM unit :=
  idx <- blank_path_loop 32 idx ;;
  blank_inner_node idx ;;
  modify (set_encrypter None).

Definition blank_leaf_and_path (idx : LeafNodeIndex) : TreeM unit :=
  blank_leaf idx ;;
  blank_path (parent (Leaf idx)).

Definition grow_tree_to_size : TreeM unit :=
  modify (fun t =>
    set_inner_nodes (resize (N.to_nat (inner_node_count (tree_size t))) None (inner_nodes t))
      (set_leaves (resize (N.to_nat (leaf_count (tree_size t))) None (leaves t)) t)).

Definition maybe_grow_tree (new_count : N) : TreeM unit :=
  size <- gets tree_size ;;
  if (TreeSize_u32 (from_leaf_count new_count) <=? TreeSize_u32 size)%N then ret tt
  else
    modify (fun t => set_tree_size (TreeSize_inc (tree_size t)) t) ;;
    grow_tree_to_size.

Definition push_leaf (id : MemberId) (pk : NodeKey) : TreeM N :=
  next <- gets next_leaf_idx ;;
  maybe_grow_tree (leaf_u32 next) ;;
  l_idx <- gets next_leaf_idx ;;
  modify (fun t => set_next_leaf_idx (leaf_add (next_leaf_idx t) 1) t) ;;
  insert_leaf_at l_idx id pk ;;
  modify (fun t => set_id_to_leaf_idx (<[id := l_idx]> (id_to_leaf_idx t)) t) ;;
  blank_path (parent (Leaf l_idx)) ;;
  ret (leaf_u32 l_idx).

Definition BeeKem_new (doc_id : TreeId) (initial_member_id : MemberId) (initial_member_pk : ShareKey) :
    res CgkaError BeeKem :=
  let tree := mkBeeKem doc_id (mkLeafNodeIndex 0) [] [] (from_leaf_count 1) ∅ None in
  match (grow_tree_to_size ;; push_leaf initial_member_id (NKShareKey initial_member_pk)) tree with
  | (Ok _, tree') => Ok tree'
  | (Err e, _) => Err e
  | (Panic, _) => Panic
  | (Diverge, _) => Diverge
  end.

(** Keys of the stores on a path, in path order. *)
Fixpoint path_keys (path : list InnerNodeIndex) (t : BeeKem) : res CgkaError (list ShareKey) :=
  match path with
  | [] => Ok []
  | idx :: path' =>
      let* o := inner_node idx t in
      let* ks := match o with
                 | Some store => let* nk := expectR (SecretStore_node_key store) in Ok (NodeKey_keys nk)
                 | None => Ok []
                 end in
      let* rest := path_keys path' t in
      Ok (ks ++ rest)
  end.

(** The trimming loop of [remove_id]; [next_leaf_idx] falls in every step. *)
Definition trim_guard : TreeM bool :=
  readM (fun t => let* o := leaf (leaf_sub (next_leaf_idx t) 1) t in Ok (bool_decide (o = None))).

Definition trim_body : TreeM unit :=
  next <- gets next_leaf_idx ;;
  blank_path (parent (Leaf (leaf_sub next 1))) ;;
  modify (fun t => set_next_leaf_idx (leaf_sub (next_leaf_idx t) 1) t).

Definition trim_blank_leaves : TreeM unit := fun t =>
  whileM (S (N.to_nat (leaf_u32 (next_leaf_idx t)))) trim_guard trim_body t.

Definition remove_id (id : MemberId) : TreeM (N * list ShareKey) :=
  count <- gets member_count ;;
  if (count =? 1)%N then throw RemoveLastMember
  else
    l_idx <- readM (leaf_index_for_id id) ;;
    size <- gets tree_size ;;
    path <- loop_result (direct_path (Leaf l_idx) size) ;;
    removed_keys <- readM (path_keys path) ;;
    blank_leaf_and_path l_idx ;;
    modify (fun t => set_id_to_leaf_idx (delete id (id_to_leaf_idx t)) t) ;;
    trim_blank_leaves ;;
    ret (leaf_u32 l_idx, removed_keys).

(** The loop that takes leaves off the right end until every added id was met;
    [next_leaf_idx] falls in every step. *)
Fixpoint pop_leaves (fuel : nat) (added_ids : gset MemberId) (leaves_to_sort : list LeafNode) :
    TreeM (list LeafNode) :=
  next <- gets next_leaf_idx ;;
  if negb (bool_decide (added_ids = ∅)) && (0 <? leaf_u32 next)%N then
    match fuel with
    | O => diverge
    | S fuel' =>
        let leaf_idx := leaf_sub next 1 in
        next_leaf <- readM (leaf leaf_idx) ;;
        blank_leaf_and_path leaf_idx ;;
        modify (set_next_leaf_idx leaf_idx) ;;
        match next_leaf with
        | Some l => pop_leaves fuel' (added_ids ∖ {[ln_id l]}) (leaves_to_sort ++ [l])
        | None => pop_leaves fuel' added_ids leaves_to_sort
        end
    end
  else ret leaves_to_sort.

Definition leaf_id_le (a b : LeafNode) : Prop := MemberId_le (ln_id a) (ln_id b).
#[export] Instance leaf_id_le_dec : RelDecision leaf_id_le.
Proof. intros a b. unfold leaf_id_le. apply _. Defined.

Definition sort_leaves_and_blank_paths_for_concurrent_membership_changes
    (added_ids : gset MemberId) (removed_ids : gset (MemberId * N)) :
    TreeM unit :=
  forM (elements removed_ids) (fun '(_, idx) => blank_leaf_and_path (mkLeafNodeIndex idx)) ;;
  let added_ids := added_ids ∖ set_map fst removed_ids in
  next <- gets next_leaf_idx ;;
  leaves_to_sort <- pop_leaves (N.to_nat (leaf_u32 next)) added_ids [] ;;
  forM (merge_sort leaf_id_le leaves_to_sort) (fun l => push_leaf (ln_id l) (ln_pk l) ;; ret tt).

(** [self.inner_node_mut(idx)] followed by merge or insert. *)
Definition merge_inner_node (removed : gset ShareKey) (entry : N * SecretStore) : TreeM unit :=
  let current_idx := mkInnerNodeIndex entry.1 in
  o <- readM (inner_node current_idx) ;;
  match o with
  | Some current_node => insert_inner_node_at current_idx (SecretStore_merge current_node entry.2 removed)
  | None => insert_inner_node_at current_idx entry.2
  end.

Definition apply_path (new_path : PathChange) : TreeM unit :=
  here <- gets (contains_id (pc_leaf_id new_path)) ;;
  if negb here then ret tt
  else
    ids <- gets id_to_leaf_idx ;;
    leaf_idx <- expect (ids !! pc_leaf_id new_path) ;;
    valid <- readM (is_valid_path new_path) ;;
    if negb valid then
      o <- readM (leaf leaf_idx) ;;
      l <- expect o ;;
      new_node_key <- expect (NodeKey_merge (ln_pk l) (pc_leaf_pk new_path) (pc_removed_keys new_path)) ;;
      insert_leaf_at leaf_idx (pc_leaf_id new_path) new_node_key ;;
      blank_path (parent (Leaf leaf_idx))
    else
      o <- readM (leaf leaf_idx) ;;
      old_leaf <- expect o ;;
      merged <- expect (NodeKey_merge (ln_pk old_leaf) (pc_leaf_pk new_path) (pc_removed_keys new_path)) ;;
      insert_leaf_at leaf_idx (pc_leaf_id new_path) merged ;;
      forM (pc_path new_path) (merge_inner_node (list_to_set (pc_removed_keys new_path))) ;;
      rk <- readM has_root_key ;;
      modify (set_encrypter (if rk then Some leaf_idx else None)).
