(* ===== verification/TreeInv.v ===== *)
(** * Well-formed trees: the structural operations of [tree.rs]

    The invariant of [BeeKem], what blanking a path, pushing and removing a
    leaf do to it, and the findings about concurrent membership changes. *)

From S2P Require Import Prelude TreeMath Crypto Keys SecretStore Tree.

Local Open Scope N_scope.

(** ** Shape: array sizes match the tree size *)

Record shape (h : nat) (t : BeeKem) : Prop := {
  sh_h : (1 <= h <= 30)%nat;
  sh_size : tree_size t = size_of h;
  sh_leaves : length (leaves t) = N.to_nat (p2 h);
  sh_inner : length (inner_nodes t) = N.to_nat (p2 h - 1);
}.

(** Updates that keep the array sizes keep the shape. *)
Ltac solve_shape :=
  match goal with H : shape _ _ |- shape _ _ =>
    destruct H; constructor; simpl; rewrite ?length_insert; done end.

Lemma inode_bound h k i :
  in_tree h (S k) i -> (InnerNodeIndex_usize (inode k i) < N.to_nat (p2 h - 1))%nat.
Proof.
  intros Hin. pose proof (in_tree_pos _ _ _ Hin) as Hp. rewrite pos_S, p2_S in Hp.
  unfold InnerNodeIndex_usize, inode. simpl. lia.
Qed.

Lemma inode_usize_inj h k i k' i' :
  in_tree h (S k) i -> in_tree h (S k') i' ->
  InnerNodeIndex_usize (inode k i) = InnerNodeIndex_usize (inode k' i') -> k = k' /\ i = i'.
Proof.
  intros Hin Hin' Heq. apply N2Nat.inj in Heq. simpl in Heq.
  destruct (node_at_inj h (S k) i (S k') i') as [[= ->] ->]; [done..| |done].
  simpl. unfold inode. by rewrite Heq.
Qed.

Lemma is_root_node_at h t k i :
  shape h t -> in_tree h k i -> is_root (node_at k i) t = (k =? h)%nat.
Proof.
  intros Hs Hin. pose proof (sh_h _ _ Hs) as Hh. unfold is_root. rewrite (sh_size _ _ Hs).
  rewrite root_size by lia. pose proof Hin as (_ & Hk & Hi). destruct (Nat.eqb_spec k h) as [->|Hne].
  - rewrite Nat.sub_diag in Hi. change (p2 0) with 1 in Hi.
    apply bool_decide_eq_true. f_equal. lia.
  - apply bool_decide_eq_false. intros Heq.
    apply (node_at_inj h) in Heq; [lia|done|]. apply in_tree_root. lia.
Qed.

(** ** Blanking *)

Definition blank_nodes (path : list InnerNodeIndex) (l : list (option SecretStore)) :
    list (option SecretStore) :=
  foldl (fun l i => <[InnerNodeIndex_usize i := None]> l) l path.

Lemma blank_nodes_length path l : length (blank_nodes path l) = length l.
Proof.
  unfold blank_nodes. revert l. induction path as [|i path IH]; intros l; simpl; [done|].
  by rewrite IH, length_insert.
Qed.

Lemma blank_nodes_lookup path l j :
  blank_nodes path l !! j =
    if decide (j ∈ InnerNodeIndex_usize <$> path) then (fun _ => None) <$> l !! j else l !! j.
Proof.
  unfold blank_nodes. revert l. induction path as [|i path IH]; intros l; simpl.
  - destruct (decide (j ∈ [])) as [Hin|]; [by apply not_elem_of_nil in Hin|done].
  - rewrite IH. destruct (decide (j = InnerNodeIndex_usize i)) as [->|Hne].
    + rewrite (decide_True (P := _ ∈ _ :: _)) by set_solver.
      destruct (decide (InnerNodeIndex_usize i < length l)%nat) as [Hlt|Hge].
      * rewrite list_lookup_insert_eq by done. apply lookup_lt_is_Some_2 in Hlt as [x ->].
        by case_decide.
      * rewrite list_insert_ge, (proj2 (lookup_ge_None l _)) by lia. by case_decide.
    + rewrite list_lookup_insert_ne by done.
      destruct (decide (j ∈ InnerNodeIndex_usize <$> path)).
      * by rewrite decide_True by set_solver.
      * by rewrite decide_False by set_solver.
Qed.

(** The inner nodes from [(S k, i)] up to the root. *)
Definition upward (h k : nat) (i : N) : list InnerNodeIndex :=
  inode k i :: path_from (h - S k) (S k) i.

Lemma blank_inner_node_ok h t k i :
  shape h t -> in_tree h (S k) i ->
  blank_inner_node (inode k i) t =
    (Ok tt, set_inner_nodes (<[InnerNodeIndex_usize (inode k i) := None]> (inner_nodes t)) t).
Proof.
  intros Hs Hin. unfold blank_inner_node. rewrite decide_True; [done|].
  rewrite (sh_inner _ _ Hs). by apply inode_bound.
Qed.

Lemma shape_set_inner_nodes h t l :
  shape h t -> length l = length (inner_nodes t) -> shape h (set_inner_nodes l t).
Proof. intros []. constructor; simpl; congruence. Qed.

Lemma blank_path_loop_spec h t k i fuel :
  shape h t -> in_tree h (S k) i -> (h - S k <= fuel)%nat ->
  blank_path_loop fuel (inode k i) t =
    (Ok (inode (h - 1) 0),
     set_inner_nodes (blank_nodes (take (h - S k) (upward h k i)) (inner_nodes t)) t).
Proof.
  revert t k i. induction fuel as [|fuel IH]; intros t k i Hs Hin Hf.
  all: pose proof (sh_h _ _ Hs) as Hh; pose proof Hin as (_ & Hk & Hi); cbn [blank_path_loop].
  all: step_gets; rewrite (is_root_node_at h t (S k) i Hs Hin : is_root (Inner (inode k i)) t = _).
  all: destruct (Nat.eqb_spec (S k) h) as [<-|Hne].
  1,3: rewrite Nat.sub_diag in *; change (p2 0) with 1 in Hi;
       replace i with 0 by lia; simpl; rewrite Nat.sub_0_r; by destruct t.
  { lia. }
  step (blank_inner_node_ok h t k i Hs Hin). pose proof (parent_node_at h (S k) i Hin ltac:(lia)) as Hp. simpl in Hp. rewrite Hp.
  rewrite IH; [| |apply in_tree_parent; [done|lia]|lia].
  - unfold upward. by replace (h - S k)%nat with (S (h - S (S k))) by lia.
  - apply shape_set_inner_nodes; [done|apply length_insert].
Qed.

Lemma upward_snoc h k i :
  in_tree h (S k) i -> upward h k i = take (h - S k) (upward h k i) ++ [inode (h - 1) 0].
Proof.
  intros Hin. pose proof Hin as (_ & Hk & Hi).
  rewrite <- (take_drop (h - S k) (upward h k i)) at 1. f_equal.
  unfold upward. destruct (h - S k)%nat as [|n] eqn:Hn.
  - assert (S k = h) as <- by lia. change (p2 0) with 1 in Hi. simpl.
    rewrite Nat.sub_0_r. by replace i with 0 by lia.
  - cbn [drop]. rewrite path_from_drop by lia. replace (S n - n)%nat with 1%nat by lia.
    simpl. replace (S (k + n)) with (h - 1)%nat by lia.
    destruct (in_tree_ancestor h (S k) i (S n) Hin ltac:(lia)) as (_ & _ & Ha).
    replace (h - (S k + S n))%nat with 0%nat in Ha by lia. change (p2 0) with 1 in Ha.
    rewrite <- div_p2_S. apply N.lt_1_r in Ha. by rewrite Ha.
Qed.

(** [blank_path] clears every inner node from its start up to the root and
    forgets the encrypter. *)
Lemma blank_path_spec h t k i :
  shape h t -> in_tree h (S k) i ->
  blank_path (inode k i) t =
    (Ok tt, set_encrypter None (set_inner_nodes (blank_nodes (upward h k i) (inner_nodes t)) t)).
Proof.
  intros Hs Hin. pose proof (sh_h _ _ Hs) as Hh. pose proof Hin as (_ & Hk & _).
  unfold blank_path. step (blank_path_loop_spec h t k i 32 Hs Hin ltac:(lia)).
  set (l := blank_nodes _ _).
  assert (shape h (set_inner_nodes l t)) as Hs'
    by (apply shape_set_inner_nodes; [done|apply blank_nodes_length]).
  assert (in_tree h (S (h - 1)) 0) as Hr
    by (replace (S (h - 1)) with h by lia; apply in_tree_root; lia).
  step (blank_inner_node_ok h _ _ _ Hs' Hr).
  rewrite (upward_snoc h k i Hin). unfold blank_nodes. by rewrite foldl_app.
Qed.

Lemma upward_leaf h a : (1 <= h)%nat -> upward h 0 (a / 2) = path_from h 0 a.
Proof. intros. unfold upward. destruct h as [|h]; [lia|]. simpl. by rewrite Nat.sub_0_r. Qed.

(** The form every caller uses: the path above a leaf. *)
Lemma blank_path_leaf h t a :
  shape h t -> a < p2 h ->
  blank_path (parent (Leaf (mkLeafNodeIndex a))) t =
    (Ok tt, set_encrypter None (set_inner_nodes (blank_nodes (path_from h 0 a) (inner_nodes t)) t)).
Proof.
  intros Hs Ha. pose proof (sh_h _ _ Hs) as Hh.
  pose proof (in_tree_leaf h a ltac:(lia) Ha) as Hin.
  pose proof (parent_node_at h 0 a Hin ltac:(lia)) as Hp. simpl in Hp. rewrite Hp.
  rewrite (blank_path_spec h); [|done|apply in_tree_parent; [done|lia]].
  by rewrite upward_leaf by lia.
Qed.

(** ** The invariant *)

(** Leaves and the member index agree, everything from [next_leaf_idx] on is
    blank, and no store is empty. *)
Record wf_core (h : nat) (t : BeeKem) : Prop := {
  wf_shape : shape h t;
  wf_next : leaf_u32 (next_leaf_idx t) <= p2 h;
  wf_ids : forall id l, id_to_leaf_idx t !! id = Some l <->
    exists nk, leaves t !! LeafNodeIndex_usize l = Some (Some (mkLeafNode id nk));
  wf_right : forall j x, leaf_u32 (next_leaf_idx t) <= N.of_nat j -> leaves t !! j = Some x -> x = None;
  wf_stores : Forall (fun o => from_option store_wf True o) (inner_nodes t);
}.

(** In addition the encrypter is known exactly when the root has one version,
    and it is a member. *)
Record wf (h : nat) (t : BeeKem) : Prop := {
  wf_is_core : wf_core h t;
  wf_root : is_Some (current_secret_encrypter_leaf_idx t) <-> has_root_key t = Ok true;
  wf_encrypter : forall l, current_secret_encrypter_leaf_idx t = Some l ->
    exists id, id_to_leaf_idx t !! id = Some l;
}.

Definition root_usize (h : nat) : nat := InnerNodeIndex_usize (inode (h - 1) 0).

Lemma root_in_tree h : (1 <= h <= 30)%nat -> in_tree h (S (h - 1)) 0.
Proof. intros. replace (S (h - 1)) with h by lia. apply in_tree_root. lia. Qed.

Lemma has_root_key_spec h t :
  shape h t -> exists o, inner_nodes t !! root_usize h = Some o /\
    has_root_key t = Ok (match o with Some r => negb (has_conflict r) | None => false end).
Proof.
  intros Hs. pose proof (sh_h _ _ Hs) as Hh.
  pose proof (inode_bound h _ _ (root_in_tree h Hh)) as Hb. fold (root_usize h) in Hb.
  rewrite <- (sh_inner _ _ Hs) in Hb. apply lookup_lt_is_Some_2 in Hb as [o Ho].
  exists o. split; [done|]. unfold has_root_key. rewrite (sh_size _ _ Hs), root_size by lia.
  destruct h as [|h]; [lia|]. simpl. unfold root_usize in Ho. simpl in Ho.
  rewrite Nat.sub_0_r in Ho. unfold inner_node. by rewrite Ho.
Qed.

Lemma root_on_path h a :
  (1 <= h <= 30)%nat -> a < p2 h -> inode (h - 1) 0 ∈ path_from h 0 a.
Proof.
  intros Hh Ha. apply list_elem_of_lookup. exists (h - 1)%nat.
  rewrite path_from_lookup by lia. simpl. replace (S (h - 1)) with h by lia.
  by rewrite N.div_small.
Qed.

Lemma blank_nodes_root h a l o :
  (1 <= h <= 30)%nat -> a < p2 h -> blank_nodes (path_from h 0 a) l !! root_usize h = Some o -> o = None.
Proof.
  intros Hh Ha. rewrite blank_nodes_lookup, decide_True.
  - destruct (l !! root_usize h); simpl; congruence.
  - unfold root_usize. apply list_elem_of_fmap_2. by apply root_on_path.
Qed.

Lemma blank_nodes_stores path l :
  Forall (fun o => from_option store_wf True o) l ->
  Forall (fun o => from_option store_wf True o) (blank_nodes path l).
Proof.
  unfold blank_nodes. revert l. induction path as [|i path IH]; intros l Hl; simpl; [done|].
  apply IH. by apply Forall_insert.
Qed.

(** Blanking the path of any leaf re-establishes the invariant. *)
Definition blank_leaf_path (h : nat) (a : N) (t : BeeKem) : BeeKem :=
  set_encrypter None (set_inner_nodes (blank_nodes (path_from h 0 a) (inner_nodes t)) t).

Lemma shape_blank_leaf_path h a t : shape h t -> shape h (blank_leaf_path h a t).
Proof. intros []. constructor; simpl; rewrite ?blank_nodes_length; done. Qed.

Lemma has_root_key_blank h a t :
  shape h t -> a < p2 h -> has_root_key (blank_leaf_path h a t) = Ok false.
Proof.
  intros Hs Ha. pose proof (sh_h _ _ Hs) as Hh.
  destruct (has_root_key_spec h _ (shape_blank_leaf_path h a t Hs)) as (o & Ho & ->).
  simpl in Ho. apply blank_nodes_root in Ho as ->; done.
Qed.

Lemma wf_core_blank h a t : wf_core h t -> wf_core h (blank_leaf_path h a t).
Proof.
  intros []. constructor; simpl; try done.
  - by apply shape_blank_leaf_path.
  - by apply blank_nodes_stores.
Qed.

Lemma wf_blank h a t : wf_core h t -> a < p2 h -> wf h (blank_leaf_path h a t).
Proof.
  intros Hw Ha. constructor.
  - by apply wf_core_blank.
  - rewrite has_root_key_blank by (done || apply Hw). simpl. split; [by intros []|done].
  - done.
Qed.

(** ** Growing *)

Definition grow (h : nat) (t : BeeKem) : BeeKem :=
  set_inner_nodes (resize (N.to_nat (p2 (S h) - 1)) None (inner_nodes t))
    (set_leaves (resize (N.to_nat (p2 (S h))) None (leaves t)) (set_tree_size (size_of (S h)) t)).

Lemma from_leaf_count_le h n :
  (h <= 30)%nat -> n <= p2 h -> n < 2 ^ 30 ->
  (TreeSize_u32 (from_leaf_count n) <=? TreeSize_u32 (size_of h)) = negb (n =? p2 h).
Proof.
  intros Hh Hn Hb. pose proof (p2_pos h). pose proof (p2_pos (S h)).
  destruct (N.eq_dec n 0) as [->|Hz].
  - rewrite (proj2 (N.eqb_neq 0 _)) by lia. apply N.leb_le. change (TreeSize_u32 (from_leaf_count 0)) with 1.
    simpl. rewrite p2_S. lia.
  - rewrite from_leaf_count_size by lia. pose proof (p2_log2 n ltac:(lia)) as [Hlo Hhi].
    destruct (N.eqb_spec n (p2 h)) as [->|Hne].
    + apply N.leb_gt. apply N.lt_nge. intros Hle%size_of_le.
      pose proof (p2_mono _ _ Hle). lia.
    + apply N.leb_le, size_of_le. apply p2_lt_inv. lia.
Qed.

Lemma maybe_grow_tree_spec h t n :
  shape h t -> n <= p2 h -> n < 2 ^ 30 ->
  maybe_grow_tree n t = (Ok tt, if n =? p2 h then grow h t else t).
Proof.
  intros Hs Hn Hb. pose proof (sh_h _ _ Hs) as Hh. unfold maybe_grow_tree. step_gets.
  rewrite (sh_size _ _ Hs), from_leaf_count_le by (done || lia).
  destruct (N.eqb_spec n (p2 h)) as [->|]; simpl; [|done].
  assert (h <= 29)%nat.
  { enough (h < 30)%nat by lia. apply p2_lt_inv. exact Hb. }
  step_modify. unfold grow_tree_to_size, modify. simpl.
  rewrite (sh_size _ _ Hs), TreeSize_inc_size by lia.
  rewrite inner_node_count_size, leaf_count_size by lia. done.
Qed.

Lemma shape_grow h t : (h <= 29)%nat -> shape h t -> shape (S h) (grow h t).
Proof.
  intros Hh []. constructor; simpl; [lia|done|by rewrite length_resize..].
Qed.

Lemma resize_extend {A} n (l : list (option A)) :
  (length l <= n)%nat -> resize n None l = l ++ replicate (n - length l) None.
Proof. intros. rewrite resize_spec. by rewrite take_ge by lia. Qed.

Lemma resize_lookup_Some {A} n (l : list (option A)) j x :
  (length l <= n)%nat -> resize n None l !! j = Some (Some x) <-> l !! j = Some (Some x).
Proof.
  intros Hl. rewrite resize_extend by done.
  destruct (decide (j < length l)%nat).
  - by rewrite lookup_app_l.
  - rewrite lookup_app_r, (proj2 (lookup_ge_None l j)) by lia.
    split; [|done]. intros [[=] _]%lookup_replicate_1.
Qed.

Lemma wf_core_grow h t : (h <= 29)%nat -> wf_core h t -> wf_core (S h) (grow h t).
Proof.
  intros Hh [Hs Hn Hids Hr Hst]. pose proof (p2_pos h). destruct Hs as [Hh' Hsz Hl Hi].
  assert (length (leaves t) <= N.to_nat (p2 (S h)))%nat by (rewrite Hl, p2_S; lia).
  constructor; simpl.
  - by apply shape_grow.
  - rewrite p2_S. lia.
  - intros id l. rewrite Hids. setoid_rewrite resize_lookup_Some; done.
  - intros j x Hj Hx. destruct x as [x|]; [|done].
    rewrite resize_lookup_Some in Hx by done. by eapply Hr in Hx.
  - rewrite resize_extend by (rewrite Hi, p2_S; lia).
    apply Forall_app. split; [done|]. by apply Forall_replicate.
Qed.

(** ** Pushing a leaf *)

Lemma insert_leaf_at_ok h t a id nk :
  shape h t -> a < p2 h ->
  insert_leaf_at (mkLeafNodeIndex a) id nk t =
    (Ok tt, set_leaves (<[N.to_nat a := Some (mkLeafNode id nk)]> (leaves t)) t).
Proof.
  intros Hs Ha. unfold insert_leaf_at. rewrite decide_True; [done|].
  unfold LeafNodeIndex_usize. simpl. rewrite (sh_leaves _ _ Hs). lia.
Qed.

Definition put_leaf (a : N) (id : MemberId) (nk : NodeKey) (t : BeeKem) : BeeKem :=
  set_id_to_leaf_idx (<[id := mkLeafNodeIndex a]> (id_to_leaf_idx t))
    (set_leaves (<[N.to_nat a := Some (mkLeafNode id nk)]> (leaves t))
      (set_next_leaf_idx (mkLeafNodeIndex (a + 1)) t)).

(** The height and tree after making room for one more leaf. *)
Definition roomy (h : nat) (t : BeeKem) : nat * BeeKem :=
  if leaf_u32 (next_leaf_idx t) =? p2 h then (S h, grow h t) else (h, t).

Definition pushed (h : nat) (id : MemberId) (nk : NodeKey) (t : BeeKem) : BeeKem :=
  let '(h', t') := roomy h t in
  let a := leaf_u32 (next_leaf_idx t) in
  blank_leaf_path h' a (put_leaf a id nk t').

Lemma roomy_spec h t :
  wf_core h t -> leaf_u32 (next_leaf_idx t) < 2 ^ 30 ->
  wf_core (roomy h t).1 (roomy h t).2 /\
  leaf_u32 (next_leaf_idx t) < p2 (roomy h t).1 /\
  next_leaf_idx (roomy h t).2 = next_leaf_idx t /\
  id_to_leaf_idx (roomy h t).2 = id_to_leaf_idx t.
Proof.
  intros Hw Hb. pose proof (wf_next _ _ Hw). pose proof (p2_pos h). unfold roomy.
  destruct (N.eqb_spec (leaf_u32 (next_leaf_idx t)) (p2 h)) as [Heq|Hne]; simpl; [|split_and!; (done || lia)].
  assert (h < 30)%nat by (apply p2_lt_inv; rewrite <- Heq; exact Hb).
  split_and!; [apply wf_core_grow; [lia|done]| |done..]. rewrite p2_S. lia.
Qed.

Lemma wf_core_put_leaf h t id nk :
  wf_core h t -> leaf_u32 (next_leaf_idx t) < p2 h -> id_to_leaf_idx t !! id = None ->
  wf_core h (put_leaf (leaf_u32 (next_leaf_idx t)) id nk t).
Proof.
  intros [Hs Hn Hids Hr Hst] Hlt Hfresh. destruct (next_leaf_idx t) as [a] eqn:Ha. simpl in *.
  pose proof Hs as [Hh Hsz Hl Hi]. assert (N.to_nat a < length (leaves t))%nat by lia.
  constructor; simpl; [| lia | | |done].
  - constructor; simpl; rewrite ?length_insert; done.
  - intros id' [b]. unfold LeafNodeIndex_usize. simpl.
    destruct (decide (b = a)) as [->|Hne].
    + rewrite list_lookup_insert_eq by done. split.
      * destruct (decide (id' = id)) as [->|Hid]; [eauto|].
        rewrite lookup_insert_ne by done. intros Hx. apply Hids in Hx as [nk' Hx].
        apply Hr in Hx; [done|]. unfold LeafNodeIndex_usize. simpl. lia.
      * intros [nk' Hx]. simplify_eq. apply lookup_insert_eq.
    + rewrite list_lookup_insert_ne by lia. fold (LeafNodeIndex_usize (mkLeafNodeIndex b)).
      destruct (decide (id' = id)) as [->|Hid].
      * rewrite lookup_insert_eq. split; [congruence|].
        intros Hx. apply (Hids id (mkLeafNodeIndex b)) in Hx. congruence.
      * rewrite lookup_insert_ne by done. apply (Hids id' (mkLeafNodeIndex b)).
  - intros j x Hj. rewrite list_lookup_insert_ne by lia. apply Hr. lia.
Qed.

(** [push_leaf] after making room. *)
Lemma push_leaf_with_room h t id nk a :
  shape h t -> next_leaf_idx t = mkLeafNodeIndex a -> a < p2 h -> a < 2 ^ 30 ->
  (l_idx <- gets next_leaf_idx ;;
   modify (fun t => set_next_leaf_idx (leaf_add (next_leaf_idx t) 1) t) ;;
   insert_leaf_at l_idx id nk ;;
   modify (fun t => set_id_to_leaf_idx (<[id := l_idx]> (id_to_leaf_idx t)) t) ;;
   blank_path (parent (Leaf l_idx)) ;;
   ret (leaf_u32 l_idx))%monad t = (Ok a, blank_leaf_path h a (put_leaf a id nk t)).
Proof.
  intros Hs Ha Hlt Hb. step_gets. step_modify. rewrite Ha.
  unfold leaf_add at 1. simpl leaf_u32. rewrite u32_add_small by lia.
  set (t1 := set_next_leaf_idx _ t).
  assert (shape h t1) as Hs1 by (destruct Hs; by constructor).
  step (insert_leaf_at_ok h t1 a id nk Hs1 Hlt). step_modify.
  match goal with |- context [bindM (blank_path _) _ ?t2] =>
    assert (shape h t2) as Hs2 by (destruct Hs1; constructor; simpl; rewrite ?length_insert; done);
    step (blank_path_leaf h t2 a Hs2 Hlt) end.
  done.
Qed.

Lemma push_leaf_no_growth h t id nk :
  shape h t -> leaf_u32 (next_leaf_idx t) < p2 h ->
  push_leaf id nk t = (Ok (leaf_u32 (next_leaf_idx t)),
    blank_leaf_path h (leaf_u32 (next_leaf_idx t)) (put_leaf (leaf_u32 (next_leaf_idx t)) id nk t)).
Proof.
  intros Hs Hlt. pose proof (sh_h _ _ Hs) as Hh. pose proof (p2_mono h 30 ltac:(lia)) as Hb.
  assert (leaf_u32 (next_leaf_idx t) < 2 ^ 30) by (eapply N.lt_le_trans; [exact Hlt|exact Hb]).
  unfold push_leaf. step_gets. step (maybe_grow_tree_spec h t (leaf_u32 (next_leaf_idx t)) Hs ltac:(lia) ltac:(done)).
  rewrite (proj2 (N.eqb_neq _ _)) by lia.
  apply push_leaf_with_room; auto. by destruct (next_leaf_idx t).
Qed.

Lemma push_leaf_eq h t id nk :
  wf_core h t -> leaf_u32 (next_leaf_idx t) < 2 ^ 30 ->
  push_leaf id nk t = (Ok (leaf_u32 (next_leaf_idx t)), pushed h id nk t).
Proof.
  intros Hw Hb. pose proof (wf_next _ _ Hw) as Hn.
  pose proof (roomy_spec h t Hw Hb) as (Hw' & Hlt & Hnx & _).
  unfold push_leaf. step_gets.
  step (maybe_grow_tree_spec h t _ (wf_shape _ _ Hw) Hn Hb).
  unfold pushed, roomy in *.
  destruct (leaf_u32 (next_leaf_idx t) =? p2 h); cbn [fst snd] in *;
    apply push_leaf_with_room; auto using wf_shape; simpl; by destruct (next_leaf_idx t).
Qed.

Lemma wf_pushed h t id nk :
  wf_core h t -> leaf_u32 (next_leaf_idx t) < 2 ^ 30 -> id_to_leaf_idx t !! id = None ->
  wf (roomy h t).1 (pushed h id nk t).
Proof.
  intros Hw Hb Hfresh. pose proof (roomy_spec h t Hw Hb) as (Hw' & Hlt & Hnx & Hid).
  unfold pushed. destruct (roomy h t) as [h' t']. cbn [fst snd] in *.
  apply wf_blank; [|done]. rewrite <- Hnx in *. apply wf_core_put_leaf; [done..|congruence].
Qed.

(** ** Removing a member *)

(** No root key: the state every membership change ends in. *)
Definition unkeyed (h : nat) (t : BeeKem) : Prop :=
  current_secret_encrypter_leaf_idx t = None /\ inner_nodes t !! root_usize h = Some None.

Lemma unkeyed_wf h t : wf_core h t -> unkeyed h t -> wf h t.
Proof.
  intros Hw [He Hr]. constructor; [done| |by rewrite He].
  destruct (has_root_key_spec h t (wf_shape _ _ Hw)) as (o & Ho & ->). rewrite Hr in Ho.
  simplify_eq. rewrite He. split; [by intros []|done].
Qed.

Lemma unkeyed_blank h a t : shape h t -> a < p2 h -> unkeyed h (blank_leaf_path h a t).
Proof.
  intros Hs Ha. split; [done|]. pose proof (sh_h _ _ Hs) as Hh.
  destruct (has_root_key_spec h _ (shape_blank_leaf_path h a t Hs)) as (o & Ho & _).
  rewrite Ho. f_equal. exact (blank_nodes_root _ _ _ _ Hh Ha Ho).
Qed.

Lemma path_keys_ok h t a :
  wf_core h t -> a < p2 h ->
  path_keys (path_from h 0 a) t =
    Ok (path_from h 0 a ≫= fun i =>
          match inner_nodes t !! InnerNodeIndex_usize i with
          | Some (Some s) => v_pk <$> versions s
          | _ => []
          end).
Proof.
  intros Hw Ha. pose proof (wf_shape _ _ Hw) as Hs. pose proof (sh_h _ _ Hs) as Hh.
  assert (Forall (fun i => exists k j, i = inode k j /\ in_tree h (S k) j) (path_from h 0 a)) as Hall.
  { apply Forall_lookup. intros m i Hm. pose proof (lookup_lt_Some _ _ _ Hm) as Hlt.
    rewrite path_from_length in Hlt. rewrite path_from_lookup in Hm by lia. simplify_eq.
    exists m, (a / p2 (S m)). split; [done|].
    apply (in_tree_ancestor h 0 a (S m)); [|lia]. apply in_tree_leaf; [lia|done]. }
  induction Hall as [|i path (k & j & -> & Hin) _ IH]; [done|].
  pose proof (inode_bound _ _ _ Hin) as Hb. rewrite <- (sh_inner _ _ Hs) in Hb.
  apply lookup_lt_is_Some_2 in Hb as [o Ho].
  cbn [path_keys mbind list_bind]. unfold inner_node. rewrite Ho. cbn [expectR bindR].
  destruct o as [s|]; [|cbn [bindR]; by rewrite IH].
  assert (store_wf s) as Hsw.
  { eapply (Forall_lookup_1 _ _ _ _ (wf_stores _ _ Hw)) in Ho. done. }
  destruct (store_node_key_keys s Hsw) as (nk & -> & Hk). cbn [expectR bindR]. rewrite IH, Hk. done.
Qed.

Lemma blank_leaf_ok h t a :
  shape h t -> a < p2 h ->
  blank_leaf (mkLeafNodeIndex a) t = (Ok tt, set_leaves (<[N.to_nat a := None]> (leaves t)) t).
Proof.
  intros Hs Ha. unfold blank_leaf. rewrite decide_True; [done|].
  unfold LeafNodeIndex_usize. simpl. rewrite (sh_leaves _ _ Hs). lia.
Qed.

Definition drop_leaf (a : N) (t : BeeKem) : BeeKem := set_leaves (<[N.to_nat a := None]> (leaves t)) t.

Lemma shape_drop_leaf h a t : shape h t -> shape h (drop_leaf a t).
Proof. intros []. constructor; simpl; rewrite ?length_insert; done. Qed.

Lemma blank_leaf_and_path_eq h t a :
  shape h t -> a < p2 h ->
  blank_leaf_and_path (mkLeafNodeIndex a) t = (Ok tt, blank_leaf_path h a (drop_leaf a t)).
Proof.
  intros Hs Ha. unfold blank_leaf_and_path. step (blank_leaf_ok h t a Hs Ha).
  rewrite (blank_path_leaf h); [done|by apply shape_drop_leaf|done].
Qed.

(** Taking a member out of both the leaves and the index. *)
Lemma wf_core_delete h t id a :
  wf_core h t -> id_to_leaf_idx t !! id = Some (mkLeafNodeIndex a) ->
  wf_core h (set_id_to_leaf_idx (delete id (id_to_leaf_idx t)) (drop_leaf a t)).
Proof.
  intros Hw Hid. pose proof Hw as [Hs Hn Hids Hr Hst].
  pose proof (proj1 (Hids id (mkLeafNodeIndex a)) Hid) as [nk Hnk].
  unfold LeafNodeIndex_usize in Hnk. simpl in Hnk. pose proof (lookup_lt_Some _ _ _ Hnk) as Hlt.
  constructor; simpl; [solve_shape|done| | |done].
  - intros id' [b]. unfold LeafNodeIndex_usize. simpl. destruct (decide (b = a)) as [->|Hne].
    + rewrite list_lookup_insert_eq by done. split; [|by intros [? ?]].
      intros Hx. apply lookup_delete_Some in Hx as [Hne Hx].
      apply Hids in Hx as [nk' Hx]. unfold LeafNodeIndex_usize in Hx. simpl in Hx. congruence.
    + rewrite list_lookup_insert_ne by lia.
      change (N.to_nat b) with (LeafNodeIndex_usize (mkLeafNodeIndex b)).
      rewrite <- Hids, lookup_delete_Some. split; [naive_solver|].
      intros Hx. split; [|done]. intros ->. congruence.
  - intros j x Hj. destruct (decide (j = N.to_nat a)) as [->|Hne].
    + rewrite list_lookup_insert_eq by done. congruence.
    + rewrite list_lookup_insert_ne by done. by apply Hr.
Qed.

Lemma member_bound h t id l :
  wf_core h t -> id_to_leaf_idx t !! id = Some l ->
  leaf_u32 l < leaf_u32 (next_leaf_idx t) /\ leaf_u32 l < p2 h.
Proof.
  intros Hw Hid. apply (wf_ids _ _ Hw) in Hid as [nk Hnk].
  pose proof (lookup_lt_Some _ _ _ Hnk) as Hlt. rewrite (sh_leaves _ _ (wf_shape _ _ Hw)) in Hlt.
  unfold LeafNodeIndex_usize in *. split; [|lia].
  destruct (N.lt_ge_cases (leaf_u32 l) (leaf_u32 (next_leaf_idx t))) as [|Hge]; [done|].
  eapply (wf_right _ _ Hw) in Hnk; [done|lia].
Qed.

Lemma wf_core_set_next h t a :
  wf_core h t -> a <= leaf_u32 (next_leaf_idx t) ->
  (forall j x, a <= N.of_nat j -> leaves t !! j = Some x -> x = None) ->
  wf_core h (set_next_leaf_idx (mkLeafNodeIndex a) t).
Proof.
  intros [Hs Hn Hids Hr Hst] Ha Hblank. constructor; simpl; [solve_shape|lia|done..].
Qed.

(** What the trimming loop leaves alone and what it achieves. *)
Record trimmed (h : nat) (t t' : BeeKem) : Prop := {
  tr_leaves : leaves t' = leaves t;
  tr_ids : id_to_leaf_idx t' = id_to_leaf_idx t;
  tr_next : leaf_u32 (next_leaf_idx t') <= leaf_u32 (next_leaf_idx t);
  tr_last : exists x, leaves t !! N.to_nat (leaf_u32 (next_leaf_idx t') - 1) = Some (Some x);
  tr_blank : forall j, inner_nodes t !! j = Some None -> inner_nodes t' !! j = Some None;
  tr_paths : exists bs, Forall (fun b => b < p2 h) bs /\
    inner_nodes t' = foldl (fun l b => blank_nodes (path_from h 0 b) l) (inner_nodes t) bs;
}.

Lemma trim_loop_ok h fuel : forall t,
  wf_core h t -> unkeyed h t -> id_to_leaf_idx t <> ∅ ->
  (N.to_nat (leaf_u32 (next_leaf_idx t)) < fuel)%nat ->
  exists t', whileM fuel trim_guard trim_body t = (Ok tt, t') /\
    wf_core h t' /\ unkeyed h t' /\ trimmed h t t'.
Proof.
  induction fuel as [|fuel IH]; intros t Hw Hu Hne Hf; [lia|].
  pose proof (wf_shape _ _ Hw) as Hs. pose proof (sh_h _ _ Hs) as Hh. pose proof (p2_31 h ltac:(lia)).
  rewrite p2_S in *. pose proof (wf_next _ _ Hw) as Hn.
  apply map_choose in Hne as (id & l & Hid).
  pose proof (member_bound _ _ _ _ Hw Hid) as [Hl _].
  destruct (next_leaf_idx t) as [a] eqn:Ha. simpl leaf_u32 in *.
  set (b := a - 1). assert (leaf_sub (mkLeafNodeIndex a) 1 = mkLeafNodeIndex b) as Hsub.
  { unfold leaf_sub. simpl. by rewrite u32_sub_small by lia. }
  assert (is_Some (leaves t !! N.to_nat b)) as [o Ho]
    by (apply lookup_lt_is_Some_2; rewrite (sh_leaves _ _ Hs); lia).
  assert (trim_guard t = (Ok (bool_decide (o = None)), t)) as Hg.
  { unfold trim_guard, readM, leaf. rewrite Ha, Hsub.
    unfold LeafNodeIndex_usize. simpl. by rewrite Ho. }
  cbn [whileM]. step Hg. destruct o as [x|].
  { rewrite bool_decide_eq_false_2 by done. exists t.
    split; [done|]. split; [done|]. split; [done|].
    constructor; rewrite ?Ha; simpl; [done|done|lia|eauto|done|]. by exists []. }
  rewrite bool_decide_eq_true_2 by done.
  assert (trim_body t = (Ok tt, set_next_leaf_idx (mkLeafNodeIndex b) (blank_leaf_path h b t))) as Hb.
  { unfold trim_body. step_gets. rewrite Ha, Hsub.
    step (blank_path_leaf h t b Hs ltac:(lia)).
    unfold modify. f_equal. f_equal. simpl. rewrite Ha. apply Hsub. }
  step Hb.
  assert (wf_core h (set_next_leaf_idx (mkLeafNodeIndex b) (blank_leaf_path h b t))) as Hw'.
  { apply wf_core_set_next; [by apply wf_core_blank|simpl; rewrite Ha; simpl; lia|].
    simpl. intros j y Hj Hy. destruct (decide (j = N.to_nat b)) as [->|Hjb]; [congruence|].
    eapply (wf_right _ _ Hw); [|exact Hy]. rewrite Ha. simpl. lia. }
  destruct (IH _ Hw') as (t' & Ht' & Hwt & Hut & [? ? Hnx ? Hbl (bs & Hbs & Hin)]).
  - destruct (unkeyed_blank h b t Hs ltac:(lia)). by split.
  - simpl. intros Hx. rewrite Hx in Hid. done.
  - simpl. lia.
  - exists t'. split; [done|]. split; [done|]. split; [done|].
    constructor; [done|done|rewrite Ha; simpl in *; lia|done| |].
    + intros j Hj. apply Hbl. simpl. rewrite blank_nodes_lookup, Hj. by case_decide.
    + exists (b :: bs). split; [constructor; [lia|done]|exact Hin].
Qed.

(** No two members share a leaf, so the member count never wraps. *)
Lemma members_injective h t id id' l :
  wf_core h t -> id_to_leaf_idx t !! id = Some l -> id_to_leaf_idx t !! id' = Some l -> id = id'.
Proof.
  intros Hw H1 H2. apply (wf_ids _ _ Hw) in H1 as [nk H1], H2 as [nk' H2]. congruence.
Qed.

Lemma member_count_size h t : wf_core h t -> member_count t = N.of_nat (size (id_to_leaf_idx t)).
Proof.
  intros Hw. unfold member_count. apply wrap32_small.
  pose proof (wf_shape _ _ Hw) as Hs. pose proof (sh_h _ _ Hs) as Hh.
  pose proof (p2_31 h ltac:(lia)) as Hp. rewrite p2_S in Hp.
  assert (length (map_to_list (id_to_leaf_idx t)) <= length (seq 0 (length (leaves t))))%nat as Hle.
  { rewrite <- (length_fmap (fun x => LeafNodeIndex_usize x.2)).
    apply submseteq_length, NoDup_submseteq.
    - apply NoDup_fmap_2_strong; [|apply NoDup_map_to_list].
      intros [i1 [l1]] [i2 [l2]] H1%elem_of_map_to_list H2%elem_of_map_to_list Heq.
      simpl in Heq. apply N2Nat.inj in Heq. simpl in Heq. subst l2.
      by rewrite (members_injective _ _ _ _ _ Hw H1 H2).
    - intros x ([i l] & -> & H1%elem_of_map_to_list)%list_elem_of_fmap.
      apply (wf_ids _ _ Hw) in H1 as [nk H1]. apply lookup_lt_Some in H1.
      apply elem_of_seq. simpl. lia. }
  rewrite length_map_to_list, length_seq, (sh_leaves _ _ Hs) in Hle. lia.
Qed.

Lemma remove_id_ok h t id a :
  wf_core h t -> id_to_leaf_idx t !! id = Some (mkLeafNodeIndex a) -> member_count t <> 1 ->
  exists keys t', remove_id id t = (Ok (a, keys), t') /\
    path_keys (path_from h 0 a) t = Ok keys /\
    wf_core h t' /\ unkeyed h t' /\
    trimmed h (set_id_to_leaf_idx (delete id (id_to_leaf_idx t)) (blank_leaf_path h a (drop_leaf a t))) t'.
Proof.
  intros Hw Hid Hc. pose proof (wf_shape _ _ Hw) as Hs. pose proof (sh_h _ _ Hs) as Hh.
  pose proof (member_bound _ _ _ _ Hw Hid) as [Hn Ha]. simpl in Hn, Ha.
  assert (delete id (id_to_leaf_idx t) <> ∅) as Hne.
  { intros Hd. apply Hc. rewrite (member_count_size h) by done.
    rewrite <- (insert_delete_id _ _ _ Hid), Hd. rewrite insert_empty, map_size_singleton. done. }
  eexists. pose proof (path_keys_ok h t a Hw Ha) as Hk.
  set (t1 := set_id_to_leaf_idx (delete id (id_to_leaf_idx t)) (blank_leaf_path h a (drop_leaf a t))).
  assert (wf_core h t1) as Hw1.
  { pose proof (wf_core_blank h a _ (wf_core_delete h t id a Hw Hid)) as Hx. exact Hx. }
  assert (unkeyed h t1) as Hu1.
  { pose proof (unkeyed_blank h a (drop_leaf a t) (shape_drop_leaf _ _ _ Hs) Ha) as Hx. exact Hx. }
  destruct (trim_loop_ok h (S (N.to_nat (leaf_u32 (next_leaf_idx t1)))) t1 Hw1 Hu1 Hne ltac:(lia))
    as (t' & Ht' & Hw' & Hu' & Htr).
  exists t'. split_and!; [|exact Hk|done..].
  unfold remove_id. step_gets. rewrite (proj2 (N.eqb_neq _ _) Hc).
  assert (readM (leaf_index_for_id id) t = (Ok (mkLeafNodeIndex a), t)) as Hli
    by (unfold readM, leaf_index_for_id; by rewrite Hid).
  step Hli. step_gets. rewrite (sh_size _ _ Hs).
  pose proof (direct_path_node_at h 0 a (in_tree_leaf h a ltac:(lia) Ha)) as Hd.
  rewrite Nat.sub_0_r in Hd. simpl node_at in Hd. rewrite Hd. cbn [loop_result].
  rewrite (bindM_ok (ret _) _ t _ t eq_refl).
  rewrite (bindM_ok (readM (path_keys _)) _ t _ t (f_equal (fun r => (r, t)) Hk)).
  step (blank_leaf_and_path_eq h t a Hs Ha). step_modify.
  step (Ht' : trim_blank_leaves t1 = (Ok tt, t')). done.
Qed.
