(* ===== verification/TreeOps.v ===== *)
(** * What the operations of the BeeKEM tree do

    The functional specifications of creating a tree, adding and removing a
    member and applying a path change ([keyhive/beekem/src/tree.rs]), each with
    the preservation of the invariant [wf]. *)

From S2P Require Import Prelude TreeMath Crypto Keys SecretStore Tree TreeInv.

Local Open Scope N_scope.

Lemma node_key_for_id_leaf t id l nk :
  id_to_leaf_idx t !! id = Some l ->
  leaves t !! LeafNodeIndex_usize l = Some (Some (mkLeafNode id nk)) -> node_key_for_id id t = Ok nk.
Proof.
  intros Hi Hl. unfold node_key_for_id, leaf_index_for_id, node_key_for_index, leaf. rewrite Hi.
  cbn. by rewrite Hl.
Qed.

Lemma node_key_for_id_ext t t' id :
  id_to_leaf_idx t' !! id = id_to_leaf_idx t !! id ->
  (forall l, id_to_leaf_idx t !! id = Some l ->
    leaves t' !! LeafNodeIndex_usize l = leaves t !! LeafNodeIndex_usize l) ->
  node_key_for_id id t' = node_key_for_id id t.
Proof.
  intros Hi Hl. unfold node_key_for_id, leaf_index_for_id, node_key_for_index, leaf. rewrite Hi.
  destruct (id_to_leaf_idx t !! id) as [l|] eqn:He; [|done]. cbn. by rewrite Hl.
Qed.

(** ** A new tree *)

Definition empty_tree (doc_id : TreeId) : BeeKem :=
  mkBeeKem doc_id (mkLeafNodeIndex 0) [None; None] [None] (size_of 1) ∅ None.

Lemma empty_tree_wf doc_id : wf_core 1 (empty_tree doc_id).
Proof.
  constructor; simpl.
  - by constructor; simpl; [lia|..].
  - done.
  - intros id l. split; [done|]. intros [nk Hnk].
    destruct (LeafNodeIndex_usize l) as [|[|[]]]; done.
  - intros [|[|[]]] x; simpl; congruence.
  - by repeat constructor.
Qed.

Lemma BeeKem_new_eq doc_id id pk :
  BeeKem_new doc_id id pk = Ok (pushed 1 id (NKShareKey pk) (empty_tree doc_id)).
Proof.
  unfold BeeKem_new.
  match goal with |- context [bindM ?m ?k ?s] =>
    rewrite (bindM_ok m k s tt (empty_tree doc_id) eq_refl) end.
  by rewrite (push_leaf_eq 1 _ _ _ (empty_tree_wf doc_id)).
Qed.

Lemma pushed_ids h t id nk :
  id_to_leaf_idx (pushed h id nk t) = <[id := next_leaf_idx t]> (id_to_leaf_idx t).
Proof.
  unfold pushed, roomy. destruct (next_leaf_idx t) as [a].
  by destruct (leaf_u32 (mkLeafNodeIndex a) =? p2 h).
Qed.

Lemma unkeyed_has_root_key h t : shape h t -> unkeyed h t -> has_root_key t = Ok false.
Proof.
  intros Hs [_ Hr]. destruct (has_root_key_spec h t Hs) as (o & Ho & ->). rewrite Hr in Ho. by simplify_eq.
Qed.

Lemma unkeyed_pushed h t id nk :
  wf_core h t -> leaf_u32 (next_leaf_idx t) < 2 ^ 30 -> unkeyed (roomy h t).1 (pushed h id nk t).
Proof.
  intros Hw Hb. pose proof (roomy_spec h t Hw Hb) as (Hw' & Hlt & _).
  unfold pushed. destruct (roomy h t) as [h' t']. cbn [fst snd] in *.
  pose proof (wf_shape _ _ Hw'). apply unkeyed_blank; [solve_shape|done].
Qed.

(** A new tree satisfies the invariant, and holds exactly the first member
    with the key given. *)
Theorem BeeKem_new_correct doc_id id pk :
  exists t, BeeKem_new doc_id id pk = Ok t /\ wf 1 t /\
    id_to_leaf_idx t = {[ id := mkLeafNodeIndex 0 ]} /\ member_count t = 1 /\
    node_key_for_id id t = Ok (NKShareKey pk) /\ has_root_key t = Ok false.
Proof.
  rewrite BeeKem_new_eq. eexists. split; [done|].
  pose proof (wf_pushed 1 (empty_tree doc_id) id (NKShareKey pk) (empty_tree_wf _) ltac:(done) ltac:(done)) as Hw.
  assert (id_to_leaf_idx (pushed 1 id (NKShareKey pk) (empty_tree doc_id)) = {[ id := mkLeafNodeIndex 0 ]}) as Hi
    by (rewrite pushed_ids; apply insert_empty).
  split_and!; [exact Hw|exact Hi| | |].
  - unfold member_count. rewrite Hi, map_size_singleton. done.
  - apply (node_key_for_id_leaf _ _ (mkLeafNodeIndex 0)); [|done]. rewrite Hi. apply lookup_insert_eq.
  - apply (unkeyed_has_root_key 1); [apply Hw|]. by apply (unkeyed_pushed 1 (empty_tree doc_id) id _ (empty_tree_wf _)).
Qed.

(** ** Adding *)

Lemma pushed_leaves h t id nk j :
  wf_core h t -> leaf_u32 (next_leaf_idx t) < 2 ^ 30 -> (j < length (leaves t))%nat ->
  N.of_nat j <> leaf_u32 (next_leaf_idx t) ->
  leaves (pushed h id nk t) !! j = leaves t !! j.
Proof.
  intros Hw Hb Hj Hne. pose proof (sh_leaves _ _ (wf_shape _ _ Hw)) as Hl. unfold pushed, roomy.
  destruct (leaf_u32 (next_leaf_idx t) =? p2 h); simpl; rewrite list_lookup_insert_ne by lia; [|done].
  rewrite resize_extend by (rewrite Hl, p2_S; lia). by apply lookup_app_l.
Qed.

Lemma pushed_new_leaf h t id nk :
  wf_core h t -> leaf_u32 (next_leaf_idx t) < 2 ^ 30 ->
  leaves (pushed h id nk t) !! N.to_nat (leaf_u32 (next_leaf_idx t)) = Some (Some (mkLeafNode id nk)).
Proof.
  intros Hw Hb. pose proof (roomy_spec h t Hw Hb) as (Hw' & Hlt & _).
  unfold pushed. destruct (roomy h t) as [h' t']. cbn [fst snd] in *. simpl.
  apply list_lookup_insert_eq. rewrite (sh_leaves _ _ (wf_shape _ _ Hw')). lia.
Qed.

(** C28. Adding a member to a well-formed tree with room below 2^30 leaves
    keeps the invariant (in a tree of the same or of the next height), puts the
    member at the next free leaf with its key, keeps every other member's leaf
    and key, and drops the root key until someone updates. *)
Theorem push_leaf_correct h t id nk :
  wf h t -> leaf_u32 (next_leaf_idx t) < 2 ^ 30 -> id_to_leaf_idx t !! id = None ->
  exists h' t', push_leaf id nk t = (Ok (leaf_u32 (next_leaf_idx t)), t') /\
    (h <= h' <= S h)%nat /\ wf h' t' /\
    id_to_leaf_idx t' = <[id := next_leaf_idx t]> (id_to_leaf_idx t) /\
    node_key_for_id id t' = Ok nk /\
    (forall id', id' <> id -> node_key_for_id id' t' = node_key_for_id id' t) /\
    has_root_key t' = Ok false.
Proof.
  intros [Hw _ _] Hb Hf. exists (roomy h t).1, (pushed h id nk t).
  pose proof (wf_pushed h t id nk Hw Hb Hf) as Hw'. split_and!.
  - by apply push_leaf_eq.
  - unfold roomy. case_match; simpl; lia.
  - unfold roomy. case_match; simpl; lia.
  - done.
  - apply pushed_ids.
  - eapply node_key_for_id_leaf; [rewrite pushed_ids; apply lookup_insert_eq|by apply pushed_new_leaf].
  - intros id' Hne. apply node_key_for_id_ext.
    + rewrite pushed_ids. by apply lookup_insert_ne.
    + intros l Hl. pose proof (member_bound _ _ _ _ Hw Hl) as [H1 H2].
      unfold LeafNodeIndex_usize. apply pushed_leaves; [done..| |lia].
      rewrite (sh_leaves _ _ (wf_shape _ _ Hw)). lia.
  - apply (unkeyed_has_root_key (roomy h t).1); [apply Hw'|by apply unkeyed_pushed].
Qed.

(** ** Removing *)

(** C27. Removing one of several members keeps the invariant and returns the
    leaf and the public keys on its path; afterwards the member is gone, the
    others keep their leaf and key, every node on the removed leaf's path is
    blank, there is no root key, and the last leaf in use is occupied. *)
Theorem remove_id_correct h t id a :
  wf h t -> id_to_leaf_idx t !! id = Some (mkLeafNodeIndex a) -> member_count t <> 1 ->
  exists keys t', remove_id id t = (Ok (a, keys), t') /\ wf h t' /\
    path_keys (path_from h 0 a) t = Ok keys /\
    id_to_leaf_idx t' = delete id (id_to_leaf_idx t) /\
    (forall id', id' <> id -> node_key_for_id id' t' = node_key_for_id id' t) /\
    leaves t' !! N.to_nat a = Some None /\
    (forall i, i ∈ path_from h 0 a -> inner_nodes t' !! InnerNodeIndex_usize i = Some None) /\
    has_root_key t' = Ok false /\
    (exists l, leaves t' !! N.to_nat (leaf_u32 (next_leaf_idx t') - 1) = Some (Some l)).
Proof.
  intros [Hw _ _] Hid Hc. pose proof (wf_shape _ _ Hw) as Hs. pose proof (sh_h _ _ Hs) as Hh.
  pose proof (member_bound _ _ _ _ Hw Hid) as [_ Ha]. simpl in Ha.
  destruct (remove_id_ok h t id a Hw Hid Hc) as (keys & t' & H1 & Hk & Hw' & Hu & [Tl Ti Tn Tlast Tb _]).
  simpl in *. assert (N.to_nat a < length (leaves t))%nat by (rewrite (sh_leaves _ _ Hs); lia).
  exists keys, t'. split_and!; try done.
  - by apply unkeyed_wf.
  - intros id' Hne. apply node_key_for_id_ext; [by rewrite Ti, lookup_delete_ne|].
    intros [b] Hl. rewrite Tl. apply list_lookup_insert_ne. unfold LeafNodeIndex_usize. simpl.
    intros Hab. apply N2Nat.inj in Hab. subst b. exact (Hne (members_injective h t id' id _ Hw Hl Hid)).
  - rewrite Tl. by apply list_lookup_insert_eq.
  - intros i Hi. apply Tb. rewrite blank_nodes_lookup, decide_True; [|by apply list_elem_of_fmap_2].
    apply list_elem_of_lookup in Hi as [m Hm]. pose proof (lookup_lt_Some _ _ _ Hm) as Hlt.
    rewrite path_from_length in Hlt. rewrite path_from_lookup in Hm by lia. simplify_eq.
    match goal with |- context [inner_nodes t !! ?j] =>
      destruct (lookup_lt_is_Some_2 (inner_nodes t) j) as [o ->]; [|done] end.
    rewrite (sh_inner _ _ Hs). apply inode_bound.
    apply (in_tree_ancestor h 0 a (S m)); [|lia]. apply in_tree_leaf; [lia|done].
  - by apply (unkeyed_has_root_key h); [apply Hw'|].
  - by rewrite Tl.
Qed.

(** The error branches of [remove_id] leave the tree as it was: the last
    member cannot be removed, nor an unknown one. *)
Theorem remove_id_errors t id :
  (member_count t = 1 -> remove_id id t = (Err RemoveLastMember, t)) /\
  (member_count t <> 1 -> id_to_leaf_idx t !! id = None -> remove_id id t = (Err IdentifierNotFound, t)).
Proof.
  unfold remove_id. split; intros Hc; step_gets.
  - by rewrite Hc.
  - intros Hid. rewrite (proj2 (N.eqb_neq _ _) Hc).
    unfold bindM, readM, leaf_index_for_id. by rewrite Hid.
Qed.

(** ** Applying a path change *)

(** A change whose indices are inside a tree of height [h] and whose stores
    have a version. *)
Definition change_fits (h : nat) (p : PathChange) : Prop :=
  pc_leaf_idx p < p2 h /\ Forall (fun e => e.1 < p2 h - 1 /\ store_wf e.2) (pc_path p).

(** What a node on the path becomes. *)
Definition merged_store (removed : gset ShareKey) (old : option SecretStore) (s : SecretStore) : SecretStore :=
  match old with Some c => SecretStore_merge c s removed | None => s end.

Definition merged_inner (removed : gset ShareKey) (entry : N * SecretStore)
    (l : list (option SecretStore)) : list (option SecretStore) :=
  <[N.to_nat entry.1 := Some (merged_store removed (default None (l !! N.to_nat entry.1)) entry.2)]> l.

Lemma merge_inner_node_eq h t removed entry :
  shape h t -> entry.1 < p2 h - 1 ->
  merge_inner_node removed entry t = (Ok tt, set_inner_nodes (merged_inner removed entry (inner_nodes t)) t).
Proof.
  intros Hs He. unfold merge_inner_node, merged_inner.
  assert (N.to_nat entry.1 < length (inner_nodes t))%nat as Hlt by (rewrite (sh_inner _ _ Hs); lia).
  destruct (lookup_lt_is_Some_2 _ _ Hlt) as [o Ho].
  assert (readM (inner_node (mkInnerNodeIndex entry.1)) t = (Ok o, t)) as Hrd.
  { unfold readM, inner_node, InnerNodeIndex_usize. simpl. by rewrite Ho. }
  step Hrd. rewrite Ho. unfold insert_inner_node_at, InnerNodeIndex_usize. simpl.
  destruct o; by rewrite decide_True.
Qed.

Lemma merged_inner_stores removed entry l :
  store_wf entry.2 -> Forall (fun o => from_option store_wf True o) l ->
  Forall (fun o => from_option store_wf True o) (merged_inner removed entry l).
Proof.
  intros He Hl. apply Forall_insert; [done|]. simpl. unfold merged_store.
  destruct (default None _); [by apply SecretStore_merge_wf|done].
Qed.

Lemma merge_path_ok h removed path : forall t,
  wf_core h t -> Forall (fun e => e.1 < p2 h - 1 /\ store_wf e.2) path ->
  forM path (merge_inner_node removed) t =
    (Ok tt, set_inner_nodes (foldl (fun l e => merged_inner removed e l) (inner_nodes t) path) t) /\
  wf_core h (set_inner_nodes (foldl (fun l e => merged_inner removed e l) (inner_nodes t) path) t).
Proof.
  induction path as [|e path IH]; intros t Hw Hall.
  { simpl. by destruct t. }
  inversion Hall as [|? ? [He Hst] Hall']; subst. pose proof Hw as [Hs Hn Hi Hr Hsts]. simpl.
  step (merge_inner_node_eq h t removed e Hs He).
  set (t1 := set_inner_nodes _ t).
  assert (wf_core h t1) as Hw1.
  { constructor; simpl; try done.
    - apply shape_set_inner_nodes; [done|]. apply length_insert.
    - by apply merged_inner_stores. }
  destruct (IH t1 Hw1 Hall') as [H1 H2]. by split.
Qed.

(** The leaf update both branches start with. *)
Definition rekey_leaf (a : N) (id : MemberId) (nk : NodeKey) (t : BeeKem) : BeeKem :=
  set_leaves (<[N.to_nat a := Some (mkLeafNode id nk)]> (leaves t)) t.

Lemma wf_core_rekey h t id a nk :
  wf_core h t -> id_to_leaf_idx t !! id = Some (mkLeafNodeIndex a) -> wf_core h (rekey_leaf a id nk t).
Proof.
  intros Hw Hid. pose proof (member_bound _ _ _ _ Hw Hid) as [Hna Ha]. simpl in Hna, Ha.
  pose proof Hw as [Hs Hn Hi Hr Hst]. pose proof (proj1 (Hi _ _) Hid) as [nk0 Hl].
  unfold LeafNodeIndex_usize in Hl. simpl in Hl. pose proof (lookup_lt_Some _ _ _ Hl) as Hlt.
  constructor; simpl; [solve_shape|done| | |done].
  - intros id' [b]. rewrite Hi. unfold LeafNodeIndex_usize. simpl.
    destruct (decide (b = a)) as [->|Hne].
    + rewrite list_lookup_insert_eq, Hl by done. split; intros [? [= <- _]]; eauto.
    + by rewrite list_lookup_insert_ne by lia.
  - intros j x Hj. rewrite list_lookup_insert_ne by lia. by apply Hr.
Qed.

Lemma is_valid_path_eq h t p a :
  wf_core h t -> id_to_leaf_idx t !! pc_leaf_id p = Some (mkLeafNodeIndex a) -> pc_leaf_idx p < p2 h ->
  is_valid_path p t = Ok ((length (pc_path p) =? h)%nat && (a =? pc_leaf_idx p)).
Proof.
  intros Hw Hid Hp. unfold is_valid_path, path_length_for. rewrite Hid. cbn [expectR bindR].
  pose proof (wf_shape _ _ Hw) as Hs. pose proof (sh_h _ _ Hs) as Hh. rewrite (sh_size _ _ Hs).
  pose proof (direct_path_node_at h 0 _ (in_tree_leaf h _ ltac:(lia) Hp)) as Hd. simpl node_at in Hd.
  rewrite Hd. cbn [loopR bindR]. by rewrite path_from_length, Nat.sub_0_r.
Qed.

Lemma merged_path_other removed path : forall l j,
  j ∉ (fun e => N.to_nat e.1) <$> path ->
  foldl (fun l e => merged_inner removed e l) l path !! j = l !! j.
Proof.
  induction path as [|e path IH]; intros l j Hj; simpl; [done|].
  rewrite IH by set_solver. apply list_lookup_insert_ne. set_solver.
Qed.

Lemma merged_path_lookup removed path : forall l i s,
  NoDup path.*1 -> (i, s) ∈ path -> (N.to_nat i < length l)%nat ->
  foldl (fun l e => merged_inner removed e l) l path !! N.to_nat i =
    Some (Some (merged_store removed (default None (l !! N.to_nat i)) s)).
Proof.
  induction path as [|e path IH]; intros l i s Hnd Hin Hlt; [by apply not_elem_of_nil in Hin|].
  apply NoDup_cons in Hnd as [Hnew Hnd]. simpl. apply elem_of_cons in Hin as [<-|Hin].
  - rewrite merged_path_other; [by apply list_lookup_insert_eq|].
    intros (x & Hx & Hxin)%list_elem_of_fmap. apply N2Nat.inj in Hx. simpl in *. subst i.
    apply Hnew, list_elem_of_fmap. eauto.
  - assert (N.to_nat e.1 <> N.to_nat i) as Hne.
    { intros Heq%N2Nat.inj. apply Hnew. rewrite Heq. apply list_elem_of_fmap. by exists (i, s). }
    rewrite IH with (s := s); [|done..|by unfold merged_inner; rewrite length_insert].
    unfold merged_inner. by rewrite list_lookup_insert_ne.
Qed.

Lemma wf_set_encrypter h t l id :
  wf_core h t -> id_to_leaf_idx t !! id = Some l -> forall rk, has_root_key t = Ok rk ->
  wf h (set_encrypter (if rk then Some l else None) t).
Proof.
  intros [] Hid rk Hrk. split; [by constructor; [solve_shape|..]| |].
  - simpl. change (has_root_key (set_encrypter _ t)) with (has_root_key t). rewrite Hrk.
    destruct rk; split; try done; by intros [].
  - simpl. destruct rk; [|done]. intros ? [= <-]. eauto.
Qed.

(** The state [apply_path] ends in for a member at leaf [a]. *)
Definition applied (h : nat) (a : N) (p : PathChange) (nk : NodeKey) (t : BeeKem) : BeeKem :=
  let t1 := rekey_leaf a (pc_leaf_id p) nk t in
  if (length (pc_path p) =? h)%nat && (a =? pc_leaf_idx p) then
    let t2 := set_inner_nodes (foldl (fun l e => merged_inner (list_to_set (pc_removed_keys p)) e l)
      (inner_nodes t) (pc_path p)) t1 in
    set_encrypter (match has_root_key t2 with Ok true => Some (mkLeafNodeIndex a) | _ => None end) t2
  else blank_leaf_path h a t1.

Lemma apply_path_eq h t p a :
  wf_core h t -> change_fits h p -> id_to_leaf_idx t !! pc_leaf_id p = Some (mkLeafNodeIndex a) ->
  exists old nk, leaves t !! N.to_nat a = Some (Some (mkLeafNode (pc_leaf_id p) old)) /\
    NodeKey_merge old (pc_leaf_pk p) (pc_removed_keys p) = Some nk /\
    apply_path p t = (Ok tt, applied h a p nk t) /\ wf h (applied h a p nk t).
Proof.
  intros Hw [Hpi Hall] Hid. pose proof (member_bound _ _ _ _ Hw Hid) as [_ Ha]. simpl in Ha.
  pose proof (wf_shape _ _ Hw) as Hs.
  pose proof (proj1 (wf_ids _ _ Hw _ _) Hid) as [old Hold]. unfold LeafNodeIndex_usize in Hold. simpl in Hold.
  destruct (NodeKey_merge_keys old (pc_leaf_pk p) (pc_removed_keys p)) as (nk & Hm & _).
  exists old, nk. split; [done|]. split; [done|].
  pose proof (wf_core_rekey h t _ a nk Hw Hid) as Hw1.
  assert (readM (leaf (mkLeafNodeIndex a)) t = (Ok (Some (mkLeafNode (pc_leaf_id p) old)), t)) as Hrd.
  { unfold readM, leaf, LeafNodeIndex_usize. simpl. by rewrite Hold. }
  unfold apply_path, applied. step_gets. unfold contains_id. rewrite bool_decide_eq_true_2 by by rewrite Hid.
  cbn [negb]. step_gets. rewrite Hid. cbn [expect].
  rewrite (bindM_ok (ret _) _ t _ t eq_refl).
  rewrite (bindM_ok (readM (is_valid_path p)) _ t _ t
    (f_equal (fun r => (r, t)) (is_valid_path_eq h t p a Hw Hid Hpi))).
  destruct ((length (pc_path p) =? h)%nat && (a =? pc_leaf_idx p)); cbn [negb]; step Hrd; cbn [expect];
    rewrite (bindM_ok (ret _) _ t _ t eq_refl); cbn [ln_pk]; rewrite Hm; cbn [expect];
    rewrite (bindM_ok (ret _) _ t _ t eq_refl);
    step (insert_leaf_at_ok h t a (pc_leaf_id p) nk Hs Ha); fold (rekey_leaf a (pc_leaf_id p) nk t).
  - destruct (merge_path_ok h (list_to_set (pc_removed_keys p)) (pc_path p) _ Hw1 Hall) as [H2 Hw2].
    step H2. set (t2 := set_inner_nodes _ _) in *. change (set_inner_nodes _ _) with t2.
    destruct (has_root_key_spec h t2 (wf_shape _ _ Hw2)) as (o & _ & Hrk).
    rewrite (bindM_ok (readM has_root_key) _ t2 _ t2 (f_equal (fun r => (r, t2)) Hrk)).
    rewrite Hrk. set (rk := match o with Some r => negb (has_conflict r) | None => false end) in *.
    split; [by destruct rk|]. by destruct rk eqn:He; apply (wf_set_encrypter h t2 _ _ Hw2 Hid _ Hrk).
  - split; [|by apply wf_blank]. by apply blank_path_leaf; [apply Hw1|].
Qed.

(** C26. Applying a path change.  For an unknown member nothing happens.  For a
    member whose leaf moved or whose path has another length, only the leaf key
    is merged and the path above it is blanked.  Otherwise the leaf key is
    merged, every node of the path is merged with its new store and no other
    node changes, and the tree has a root key, with the member recorded as its
    encrypter, exactly when the root has one version.  The invariant holds in
    all cases. *)
Theorem apply_path_correct h t p :
  wf h t -> change_fits h p ->
  match id_to_leaf_idx t !! pc_leaf_id p with
  | None => apply_path p t = (Ok tt, t)
  | Some l =>
      exists old nk t', leaves t !! LeafNodeIndex_usize l = Some (Some (mkLeafNode (pc_leaf_id p) old)) /\
        NodeKey_merge old (pc_leaf_pk p) (pc_removed_keys p) = Some nk /\
        apply_path p t = (Ok tt, t') /\ wf h t' /\ id_to_leaf_idx t' = id_to_leaf_idx t /\
        leaves t' = <[LeafNodeIndex_usize l := Some (mkLeafNode (pc_leaf_id p) nk)]> (leaves t) /\
        if decide (length (pc_path p) = h /\ leaf_u32 l = pc_leaf_idx p) then
          (NoDup (pc_path p).*1 -> forall i s, (i, s) ∈ pc_path p -> inner_nodes t' !! N.to_nat i =
             Some (Some (merged_store (list_to_set (pc_removed_keys p))
                           (default None (inner_nodes t !! N.to_nat i)) s))) /\
          (forall j, j ∉ (fun e => N.to_nat e.1) <$> pc_path p -> inner_nodes t' !! j = inner_nodes t !! j) /\
          (current_secret_encrypter_leaf_idx t' = Some l <-> has_root_key t' = Ok true)
        else inner_nodes t' = blank_nodes (path_from h 0 (leaf_u32 l)) (inner_nodes t) /\
             has_root_key t' = Ok false
  end.
Proof.
  intros [Hw _ _] Hfit. destruct (id_to_leaf_idx t !! pc_leaf_id p) as [[a]|] eqn:Hid.
  2: { unfold apply_path. step_gets. unfold contains_id. rewrite Hid. by rewrite bool_decide_eq_false_2 by by intros []. }
  destruct (apply_path_eq h t p a Hw Hfit Hid) as (old & nk & Hl & Hm & He & Hw').
  exists old, nk, (applied h a p nk t). split_and!; try done.
  1, 2: unfold applied; by destruct (_ && _).
  pose proof (member_bound _ _ _ _ Hw Hid) as [_ Ha]. simpl in Ha.
  pose proof (wf_root _ _ Hw') as Hr. unfold applied in *. simpl.
  destruct (decide _) as [[Hlen Hix]|Hno].
  - assert ((length (pc_path p) =? h)%nat && (a =? pc_leaf_idx p) = true) as Hb.
    { rewrite Hlen, Hix, Nat.eqb_refl. apply N.eqb_refl. }
    rewrite Hb in *. split_and!.
    + intros Hnd i s Hin. simpl. apply merged_path_lookup; [done..|].
      rewrite (sh_inner _ _ (wf_shape _ _ Hw)). destruct Hfit as [_ Hall].
      pose proof (proj1 (Forall_forall _ _) Hall _ Hin) as [Hi _]. simpl in Hi. lia.
    + intros j Hj. simpl. by apply merged_path_other.
    + rewrite <- Hr. simpl. destruct (has_root_key _) as [[]| | |]; split; try done; by intros [].
  - assert ((length (pc_path p) =? h)%nat && (a =? pc_leaf_idx p) = false) as ->.
    { apply andb_false_iff. rewrite Nat.eqb_neq, N.eqb_neq. destruct (decide (length (pc_path p) = h)); [right|by left].
      intros ->. by apply Hno. }
    split; [done|]. apply has_root_key_blank; [|done]. apply (wf_core_rekey h t _ a nk Hw Hid).
Qed.

(** ** A concrete tree, for the witnesses *)

Definition sample_id (b : Byte.byte) : MemberId := mkMemberId [b].
Definition sample_key (b : Byte.byte) : NodeKey := NKShareKey (mkShareKey [b]).

Definition sample1 : BeeKem :=
  pushed 1 (sample_id Byte.x01) (sample_key Byte.x01) (empty_tree (mkTreeId [])).
Definition sample2 : BeeKem := pushed 1 (sample_id Byte.x02) (sample_key Byte.x02) sample1.
Definition sample3 : BeeKem := pushed 1 (sample_id Byte.x03) (sample_key Byte.x03) sample2.

Lemma sample1_wf : wf 1 sample1.
Proof. exact (wf_pushed 1 _ _ _ (empty_tree_wf _) eq_refl eq_refl). Qed.

Lemma sample2_wf : wf 1 sample2.
Proof. exact (wf_pushed 1 sample1 (sample_id Byte.x02) _ (wf_is_core _ _ sample1_wf) eq_refl eq_refl). Qed.

Lemma sample3_wf : wf 2 sample3.
Proof. exact (wf_pushed 1 sample2 (sample_id Byte.x03) _ (wf_is_core _ _ sample2_wf) eq_refl eq_refl). Qed.

Lemma push_leaf_correct_witness :
  exists h' t', push_leaf (sample_id Byte.x03) (sample_key Byte.x03) sample2 = (Ok 2, t') /\ wf h' t' /\
    node_key_for_id (sample_id Byte.x01) t' = Ok (sample_key Byte.x01).
Proof.
  destruct (push_leaf_correct 1 sample2 (sample_id Byte.x03) (sample_key Byte.x03) sample2_wf
    ltac:(done) ltac:(done)) as (h' & t' & H1 & _ & H2 & _ & _ & H3 & _).
  exists h', t'. split_and!; [exact H1|exact H2|]. rewrite H3 by done. reflexivity.
Defined.

Lemma remove_id_correct_witness :
  exists keys t', remove_id (sample_id Byte.x02) sample3 = (Ok (1, keys), t') /\ wf 2 t' /\
    leaves t' !! 1%nat = Some None /\
    node_key_for_id (sample_id Byte.x03) t' = Ok (sample_key Byte.x03).
Proof.
  destruct (remove_id_correct 2 sample3 (sample_id Byte.x02) 1 sample3_wf ltac:(done) ltac:(done))
    as (keys & t' & H1 & H2 & _ & _ & H3 & H4 & _).
  exists keys, t'. split_and!; [exact H1|exact H2|exact H4|]. rewrite H3 by done. reflexivity.
Defined.

Lemma remove_id_errors_witness :
  remove_id (sample_id Byte.x01) sample1 = (Err RemoveLastMember, sample1) /\
  remove_id (sample_id Byte.x09) sample3 = (Err IdentifierNotFound, sample3).
Proof.
  split.
  - apply (remove_id_errors sample1 (sample_id Byte.x01)). reflexivity.
  - apply (remove_id_errors sample3 (sample_id Byte.x09)); [discriminate|reflexivity].
Defined.

(** A full path for the first member of [sample3] and one computed in a smaller
    tree. *)
Definition sample_change (path : list N) : PathChange :=
  mkPathChange (sample_id Byte.x01) 0 (sample_key Byte.x11)
    ((fun i => (i, SecretStore_new (mkShareKey [Byte.x21]) (mkShareKey [Byte.x11]) ∅)) <$> path)
    [mkShareKey [Byte.x01]].

Lemma apply_path_correct_witness :
  (exists t', apply_path (sample_change [0; 1]) sample3 = (Ok tt, t') /\ wf 2 t' /\ has_root_key t' = Ok true) /\
  (exists t', apply_path (sample_change [0]) sample3 = (Ok tt, t') /\ wf 2 t' /\ has_root_key t' = Ok false).
Proof.
  split.
  - pose proof (apply_path_correct 2 sample3 (sample_change [0; 1]) sample3_wf
      ltac:(split; [done|by repeat constructor])) as H.
    destruct H as (old & nk & t' & _ & _ & H1 & H2 & _). exists t'. split; [exact H1|]. split; [exact H2|].
    change t' with ((Ok tt : res CgkaError unit, t').2). rewrite <- H1. vm_compute. reflexivity.
  - pose proof (apply_path_correct 2 sample3 (sample_change [0]) sample3_wf
      ltac:(split; [done|by repeat constructor])) as H.
    destruct H as (old & nk & t' & _ & _ & H1 & H2 & _ & _ & H3). exists t'. split; [exact H1|].
    split; [exact H2|]. change t' with ((Ok tt : res CgkaError unit, t').2). rewrite <- H1. vm_compute. reflexivity.
Defined.
