(* ===== verification/TreeSort.v ===== *)
(** * Concurrent membership changes

    [sort_leaves_and_blank_paths_for_concurrent_membership_changes] refines a
    function on lists of leaves: pop leaves from the right until every added
    member was met, sort the popped leaves by identity, and put them back.  The
    file also shows where that clean-up step goes wrong. *)

From S2P Require Import Prelude TreeMath Crypto Keys SecretStore Tree TreeInv TreeOps.

Local Open Scope N_scope.

#[export] Instance leaf_id_le_trans : Transitive leaf_id_le.
Proof. intros a b c. unfold leaf_id_le. apply transitivity. Qed.
#[export] Instance leaf_id_le_total : Total leaf_id_le.
Proof. intros a b. apply (total MemberId_le). Qed.

(** ** The reference function *)

Fixpoint pop_list (rev_leaves : list (option LeafNode)) (added : gset MemberId) (acc : list LeafNode) :
    list LeafNode * list (option LeafNode) :=
  if decide (added = ∅) then (acc, rev_leaves)
  else match rev_leaves with
       | [] => (acc, [])
       | None :: r => pop_list r added acc
       | Some l :: r => pop_list r (added ∖ {[ln_id l]}) (acc ++ [l])
       end.

Definition resorted (added : gset MemberId) (ls : list (option LeafNode)) : list (option LeafNode) :=
  let '(popped, rest) := pop_list (reverse ls) added [] in
  reverse rest ++ (Some <$> merge_sort leaf_id_le popped).

(** ** An invariant for the middle of the clean-up

    [X] are the members whose leaf was popped and not yet put back: their index
    entry is stale. *)
Definition index_except (X : gset MemberId) (ids : gmap MemberId LeafNodeIndex)
    (ls : list (option LeafNode)) : Prop :=
  forall id, (id ∉ X -> forall l, ids !! id = Some l <->
                exists nk, ls !! LeafNodeIndex_usize l = Some (Some (mkLeafNode id nk))) /\
             (id ∈ X -> forall j nk, ls !! j <> Some (Some (mkLeafNode id nk))).

Record layout (h : nat) (X : gset MemberId) (t : BeeKem) : Prop := {
  lay_shape : shape h t;
  lay_next : leaf_u32 (next_leaf_idx t) <= p2 h;
  lay_ids : index_except X (id_to_leaf_idx t) (leaves t);
  lay_right : forall j x, leaf_u32 (next_leaf_idx t) <= N.of_nat j -> leaves t !! j = Some x -> x = None;
  lay_stores : Forall (fun o => from_option store_wf True o) (inner_nodes t);
}.

Lemma layout_wf_core h t : layout h ∅ t <-> wf_core h t.
Proof.
  split; intros [].
  - constructor; try done. intros id l. by apply lay_ids0.
  - by constructor.
Qed.

Lemma index_except_pop X ids ls a l :
  index_except X ids ls -> ls !! a = Some (Some l) ->
  index_except ({[ln_id l]} ∪ X) ids (<[a := None]> ls).
Proof.
  intros Hi Hl id. destruct l as [lid lnk]. simpl. destruct (Hi id) as [H1 H2].
  pose proof (lookup_lt_Some _ _ _ Hl) as Hlt.
  assert (forall j y, <[a := None]> ls !! j = Some (Some y) -> j <> a /\ ls !! j = Some (Some y)) as Hins.
  { intros j y Hj. destruct (decide (j = a)) as [->|Hne].
    - by rewrite list_lookup_insert_eq in Hj.
    - by rewrite list_lookup_insert_ne in Hj. }
  split.
  - intros Hid b. rewrite H1 by set_solver. split; intros [nk Hnk]; exists nk.
    + rewrite list_lookup_insert_ne; [done|]. intros ->. rewrite Hnk in Hl. set_solver.
    + by apply Hins.
  - intros Hid j nk [Hja Hj]%Hins. destruct (decide (id ∈ X)) as [HX|HX]; [by eapply H2|].
    assert (id = lid) as -> by set_solver.
    assert (forall b n, ls !! b = Some (Some (mkLeafNode lid n)) ->
      ids !! lid = Some (mkLeafNodeIndex (N.of_nat b))) as Hget.
    { intros b n Hb. apply H1; [done|]. exists n. unfold LeafNodeIndex_usize. simpl. by rewrite Nat2N.id. }
    pose proof (Hget _ _ Hl). pose proof (Hget _ _ Hj). simplify_eq.
Qed.

Lemma index_except_push X ids ls a l :
  index_except X ids ls -> ls !! N.to_nat a = Some None -> ln_id l ∈ X ->
  index_except (X ∖ {[ln_id l]}) (<[ln_id l := mkLeafNodeIndex a]> ids) (<[N.to_nat a := Some l]> ls).
Proof.
  intros Hi Hl HX id. destruct l as [lid lnk]. simpl in *. destruct (Hi id) as [H1 H2].
  pose proof (lookup_lt_Some _ _ _ Hl) as Hlt. split.
  - intros Hid [b]. unfold LeafNodeIndex_usize in *. simpl. destruct (decide (id = lid)) as [->|Hne].
    + rewrite lookup_insert_eq. destruct (decide (b = a)) as [->|Hba].
      * rewrite list_lookup_insert_eq by done. split; [eauto|done].
      * rewrite list_lookup_insert_ne by lia. split; [congruence|]. intros [nk Hnk]. by eapply H2 in Hnk.
    + rewrite lookup_insert_ne by done. rewrite H1 by set_solver. simpl.
      destruct (decide (b = a)) as [->|Hba].
      * rewrite list_lookup_insert_eq by done. rewrite Hl. split; intros [nk [=]]; congruence.
      * by rewrite list_lookup_insert_ne by lia.
  - intros Hid j nk. destruct (decide (j = N.to_nat a)) as [->|Hja].
    + rewrite list_lookup_insert_eq by done. set_solver.
    + rewrite list_lookup_insert_ne by done. apply H2. set_solver.
Qed.

Lemma layout_blank h X a t : layout h X t -> layout h X (blank_leaf_path h a t).
Proof.
  intros []. constructor; simpl; try done.
  - by apply shape_blank_leaf_path.
  - by apply blank_nodes_stores.
Qed.

Definition used (t : BeeKem) : list (option LeafNode) :=
  take (N.to_nat (leaf_u32 (next_leaf_idx t))) (leaves t).

Lemma layout_pop h X t a x :
  layout h X t -> next_leaf_idx t = mkLeafNodeIndex (a + 1) -> leaves t !! N.to_nat a = Some x ->
  layout h (from_option (fun l => {[ln_id l]} ∪ X) X x)
    (set_next_leaf_idx (mkLeafNodeIndex a) (blank_leaf_path h a (drop_leaf a t))).
Proof.
  intros [Hs Hn Hi Hr Hst] Ha Hx. rewrite Ha in *. simpl in Hn, Hr.
  pose proof (lookup_lt_Some _ _ _ Hx) as Hlt. constructor; simpl.
  - pose proof (shape_blank_leaf_path h a _ (shape_drop_leaf h a t Hs)) as []. by constructor.
  - lia.
  - destruct x as [l|]; simpl; [by apply index_except_pop|]. by rewrite list_insert_id.
  - intros j y Hj. destruct (decide (j = N.to_nat a)) as [->|Hne].
    + rewrite list_lookup_insert_eq by done. congruence.
    + rewrite list_lookup_insert_ne by done. apply Hr. lia.
  - by apply blank_nodes_stores.
Qed.

Lemma used_snoc t a x :
  next_leaf_idx t = mkLeafNodeIndex (a + 1) -> leaves t !! N.to_nat a = Some x ->
  used t = take (N.to_nat a) (leaves t) ++ [x].
Proof.
  intros Ha Hx. unfold used. rewrite Ha. cbn [leaf_u32].
  replace (N.to_nat (a + 1)) with (S (N.to_nat a)) by lia. by rewrite (take_S_r _ _ x).
Qed.

(** The state between the pops: [popped] is what the loop took so far. *)
Definition popping (h : nat) (X : gset MemberId) (t t' : BeeKem) (popped : list LeafNode)
    (rest : list (option LeafNode)) : Prop :=
  layout h (list_to_set (ln_id <$> popped) ∪ X) t' /\ used t' = rest /\
  id_to_leaf_idx t' = id_to_leaf_idx t /\ (t' = t \/ unkeyed h t') /\
  NoDup (ln_id <$> popped) /\ (forall id, id ∈ ln_id <$> popped -> id ∉ X).

Lemma popping_refl h X t : layout h X t -> popping h X t t [] (used t).
Proof.
  intros Hl. split_and!; [|done|done|by left|by constructor|set_solver]. simpl. by rewrite (left_id_L ∅ (∪)).
Qed.

Lemma popping_step h X t x a t' popped :
  layout h X t -> a < p2 h -> leaves t !! N.to_nat a = Some x ->
  popping h (from_option (fun l => {[ln_id l]} ∪ X) X x)
    (set_next_leaf_idx (mkLeafNodeIndex a) (blank_leaf_path h a (drop_leaf a t))) t' popped (used t') ->
  popping h X t t' (option_list x ++ popped) (used t').
Proof.
  intros Hl Ha Hx (H1 & H2 & H3 & H4 & H5 & H6). pose proof (lay_shape _ _ _ Hl) as Hs.
  assert (forall l, x = Some l -> ln_id l ∉ X) as HlX.
  { intros [id nk] -> HX. by eapply (lay_ids _ _ _ Hl id) in Hx. }
  split_and!; try done.
  - destruct x as [l|]; simpl in *; [|done].
    match goal with |- layout _ ?Y _ =>
      assert (Y = list_to_set (ln_id <$> popped) ∪ ({[ln_id l]} ∪ X)) as -> by set_solver end. done.
  - right. destruct H4 as [->|]; [|done].
    by pose proof (unkeyed_blank h a (drop_leaf a t) (shape_drop_leaf _ _ _ Hs) Ha).
  - destruct x as [l|]; [|done]. simpl in *. constructor; [|done]. set_solver.
  - destruct x as [l|]; [|done]. simpl in *. pose proof (HlX l eq_refl). set_solver.
Qed.

Lemma pop_list_stop rev_leaves added acc :
  added = ∅ \/ rev_leaves = [] -> pop_list rev_leaves added acc = (acc, rev_leaves).
Proof. intros [->| ->]; [by destruct rev_leaves|]. simpl. by case_decide. Qed.

Lemma pop_list_step x rev_leaves added acc :
  added <> ∅ -> pop_list (x :: rev_leaves) added acc =
    pop_list rev_leaves (from_option (fun l => added ∖ {[ln_id l]}) added x) (acc ++ option_list x).
Proof. intros Ha. simpl. rewrite decide_False by done. destruct x; simpl; by rewrite ?app_nil_r. Qed.

Lemma pop_leaves_ok h fuel : forall X t added acc,
  layout h X t -> (N.to_nat (leaf_u32 (next_leaf_idx t)) <= fuel)%nat ->
  exists popped t', pop_leaves fuel added acc t = (Ok (acc ++ popped), t') /\
    pop_list (reverse (used t)) added acc = (acc ++ popped, reverse (used t')) /\
    popping h X t t' popped (used t').
Proof.
  induction fuel as [|fuel IH]; intros X t added acc Hl Hf; cbn [pop_leaves]; step_gets.
  all: destruct (negb (bool_decide (added = ∅)) && (0 <? leaf_u32 (next_leaf_idx t))) eqn:Hg.
  2, 4: exists [], t; rewrite app_nil_r; split_and!; [done| |by apply popping_refl];
    apply pop_list_stop; apply andb_false_iff in Hg as [Hg|Hg];
    [left; by apply negb_false_iff, bool_decide_eq_true_1 in Hg
    |right; apply N.ltb_ge in Hg; unfold used; by replace (leaf_u32 (next_leaf_idx t)) with 0 by lia].
  all: apply andb_true_iff in Hg as [Hne%negb_true_iff%bool_decide_eq_false_1 Hpos%N.ltb_lt].
  { lia. }
  pose proof (lay_shape _ _ _ Hl) as Hs. pose proof (sh_h _ _ Hs) as Hh.
  pose proof (lay_next _ _ _ Hl) as Hn. pose proof (p2_31 h ltac:(lia)) as H31. rewrite p2_S in H31.
  destruct (next_leaf_idx t) as [n] eqn:Hnx. simpl leaf_u32 in *.
  assert (exists a, n = a + 1) as [a ->] by (exists (n - 1); lia).
  assert (leaf_sub (mkLeafNodeIndex (a + 1)) 1 = mkLeafNodeIndex a) as ->.
  { unfold leaf_sub. simpl. rewrite u32_sub_small by lia. f_equal. lia. }
  assert (is_Some (leaves t !! N.to_nat a)) as [x Hx]
    by (apply lookup_lt_is_Some_2; rewrite (sh_leaves _ _ Hs); lia).
  assert (readM (leaf (mkLeafNodeIndex a)) t = (Ok x, t)) as Hrd.
  { unfold readM, leaf, LeafNodeIndex_usize. simpl. by rewrite Hx. }
  step Hrd. step (blank_leaf_and_path_eq h t a Hs ltac:(lia)). step_modify.
  rewrite (used_snoc t a x) by done. rewrite reverse_snoc, pop_list_step by done.
  set (t1 := set_next_leaf_idx _ _).
  assert (reverse (take (N.to_nat a) (leaves t)) = reverse (used t1)) as ->.
  { unfold used, t1. simpl. by rewrite take_insert_ge by lia. }
  destruct (IH _ t1 (from_option (fun l => added ∖ {[ln_id l]}) added x) (acc ++ option_list x)
    (layout_pop h X t a x Hl Hnx Hx)) as (popped & t' & H1 & H2 & H3); [simpl; lia|].
  exists (option_list x ++ popped), t'. rewrite !(assoc_L (++)). split_and!; [|done|].
  - rewrite <- H1. by destruct x; simpl; rewrite ?app_nil_r.
  - apply (popping_step h X t x a); [done|lia|done|exact H3].
Qed.

(** ** Putting the leaves back *)

Lemma layout_push h X t l :
  layout h X t -> leaf_u32 (next_leaf_idx t) < p2 h -> ln_id l ∈ X ->
  layout h (X ∖ {[ln_id l]}) (blank_leaf_path h (leaf_u32 (next_leaf_idx t))
    (put_leaf (leaf_u32 (next_leaf_idx t)) (ln_id l) (ln_pk l) t)).
Proof.
  intros Hl Hlt HX. apply layout_blank. pose proof Hl as [Hs Hn Hi Hr Hst].
  destruct (next_leaf_idx t) as [a] eqn:Ha. simpl in *.
  assert (is_Some (leaves t !! N.to_nat a)) as [x Hx]
    by (apply lookup_lt_is_Some_2; rewrite (sh_leaves _ _ Hs); lia).
  assert (x = None) as -> by (eapply Hr; [|exact Hx]; lia). constructor; simpl; [solve_shape|lia| | |done].
  - destruct l as [id nk]. by apply (index_except_push X _ _ a (mkLeafNode id nk)).
  - intros j y Hj. rewrite list_lookup_insert_ne by lia. apply Hr. lia.
Qed.

Lemma used_push h t id nk :
  shape h t -> leaf_u32 (next_leaf_idx t) < p2 h ->
  used (blank_leaf_path h (leaf_u32 (next_leaf_idx t)) (put_leaf (leaf_u32 (next_leaf_idx t)) id nk t)) =
    used t ++ [Some (mkLeafNode id nk)].
Proof.
  intros Hs Hlt. destruct (next_leaf_idx t) as [a] eqn:Ha. unfold used. simpl leaf_u32 in *.
  rewrite Ha. simpl leaf_u32.
  replace (N.to_nat (a + 1)) with (S (N.to_nat a)) by lia.
  assert (N.to_nat a < length (leaves t))%nat by (rewrite (sh_leaves _ _ Hs); lia).
  simpl leaves. rewrite (take_S_r _ _ (Some (mkLeafNode id nk))) by by apply list_lookup_insert_eq.
  by rewrite take_insert_ge by lia.
Qed.

Lemma used_length h X t : layout h X t -> length (used t) = N.to_nat (leaf_u32 (next_leaf_idx t)).
Proof.
  intros Hl. unfold used. rewrite length_take, (sh_leaves _ _ (lay_shape _ _ _ Hl)).
  pose proof (lay_next _ _ _ Hl). lia.
Qed.

Lemma push_all_ok h : forall ls X t,
  layout h X t -> leaf_u32 (next_leaf_idx t) + N.of_nat (length ls) <= p2 h ->
  NoDup (ln_id <$> ls) -> list_to_set (ln_id <$> ls) ⊆ X ->
  exists t', forM ls (fun l => push_leaf (ln_id l) (ln_pk l) ;; ret tt)%monad t = (Ok tt, t') /\
    layout h (X ∖ list_to_set (ln_id <$> ls)) t' /\ used t' = used t ++ (Some <$> ls) /\
    (forall id, id ∉ ln_id <$> ls -> id_to_leaf_idx t' !! id = id_to_leaf_idx t !! id) /\
    (t' = t \/ unkeyed h t').
Proof.
  induction ls as [|l ls IH]; intros X t Hl Hlen Hnd HX.
  { exists t. split_and!; try done.
    - simpl. by rewrite difference_empty_L.
    - by rewrite app_nil_r.
    - by left. }
  pose proof (lay_shape _ _ _ Hl) as Hs. pose proof (sh_h _ _ Hs) as Hh. simpl in *.
  apply NoDup_cons in Hnd as [Hnew Hnd].
  assert (leaf_u32 (next_leaf_idx t) < p2 h) as Hlt by lia.
  rewrite bindM_assoc. step (push_leaf_no_growth h t (ln_id l) (ln_pk l) Hs Hlt).
  cbn [bindM ret]. set (t1 := blank_leaf_path h _ _).
  destruct (IH (X ∖ {[ln_id l]}) t1) as (t' & H1 & H2 & H3 & H4 & H5).
  - apply layout_push; [done..|set_solver].
  - simpl. lia.
  - done.
  - set_solver.
  - exists t'. split_and!.
    + exact H1.
    + match goal with |- layout _ ?Y _ =>
        assert (Y = X ∖ {[ln_id l]} ∖ list_to_set (ln_id <$> ls)) as -> by set_solver end. done.
    + rewrite H3. unfold t1. rewrite (used_push h) by done. rewrite <- (assoc_L (++)). by destruct l.
    + intros id Hid. rewrite H4 by set_solver. simpl. apply lookup_insert_ne. set_solver.
    + right. destruct H5 as [->|]; [|done]. apply unkeyed_blank; [solve_shape|done].
Qed.

(** ** The whole clean-up *)

Lemma pop_list_elems added : forall r acc p rest,
  pop_list r added acc = (p, rest) ->
  (forall l, l ∈ p \/ Some l ∈ rest <-> l ∈ acc \/ Some l ∈ r) /\
  (length p + length rest <= length acc + length r)%nat.
Proof.
  intros r. revert added. induction r as [|x r IH]; intros added acc p rest; simpl.
  - case_decide; intros [= <- <-]; naive_solver.
  - case_decide; [intros [= <- <-]; naive_solver|]. destruct x as [l|]; intros Hp%IH; revert Hp.
    + rewrite length_app. simpl. intros [H1 H2]. split; [|lia]. intros l'. rewrite H1. set_solver.
    + intros [H1 H2]. split; [|lia]. intros l'. rewrite H1. set_solver.
Qed.

Lemma resorted_elems added ls l : Some l ∈ resorted added ls <-> Some l ∈ ls.
Proof.
  unfold resorted. destruct (pop_list _ _ _) as [p rest] eqn:Hp.
  apply pop_list_elems in Hp as [Hp _]. specialize (Hp l).
  rewrite elem_of_app, elem_of_reverse, list_elem_of_fmap. setoid_rewrite merge_sort_Permutation.
  rewrite elem_of_reverse in Hp. split.
  - intros [?|(? & [= <-] & ?)]; set_solver.
  - intros Hl. destruct (proj2 Hp (or_intror Hl)); eauto.
Qed.

Lemma blank_removed_ok h t (removed : list (MemberId * N)) :
  wf_core h t ->
  (forall id idx, (id, idx) ∈ removed -> idx < p2 h /\ leaves t !! N.to_nat idx = Some None) ->
  exists t', forM removed (fun '(_, idx) => blank_leaf_and_path (mkLeafNodeIndex idx)) t = (Ok tt, t') /\
    wf_core h t' /\ used t' = used t /\ id_to_leaf_idx t' = id_to_leaf_idx t /\ (t' = t \/ unkeyed h t').
Proof.
  intros Hw Hr.
  destruct (forM_ok (fun t' => wf_core h t' /\ leaves t' = leaves t /\ next_leaf_idx t' = next_leaf_idx t /\
    id_to_leaf_idx t' = id_to_leaf_idx t /\ (t' = t \/ unkeyed h t'))
    removed (fun '(_, idx) => blank_leaf_and_path (mkLeafNodeIndex idx)) t) as (t' & H1 & H2 & H3 & H4 & H5 & H6).
  - intros [id idx] s Hin (Hs & Hl & Hn & Hi & _). destruct (Hr _ _ Hin) as [Hlt Hb].
    pose proof (wf_shape _ _ Hs) as Hsh.
    eexists. split; [apply (blank_leaf_and_path_eq h); done|].
    assert (drop_leaf idx s = s) as ->.
    { unfold drop_leaf. rewrite list_insert_id by congruence. by destruct s. }
    split_and!; [by apply wf_core_blank|done..|]. right. by apply unkeyed_blank.
  - split_and!; [done..|by left].
  - exists t'. split_and!; try done. unfold used. congruence.
Qed.

Lemma sort_leaves_ok (h : nat) (t : BeeKem) (added : gset MemberId) (removed : gset (MemberId * N)) :
  wf_core h t ->
  (forall id idx, (id, idx) ∈ removed -> idx < p2 h /\ leaves t !! N.to_nat idx = Some None) ->
  exists t', sort_leaves_and_blank_paths_for_concurrent_membership_changes added removed t = (Ok tt, t') /\
    wf_core h t' /\ used t' = resorted (added ∖ set_map fst removed) (used t) /\ (t' = t \/ unkeyed h t').
Proof.
  intros Hw Hr.
  destruct (blank_removed_ok h t (elements removed) Hw) as (t1 & H1 & Hw1 & Hu1 & _ & He1).
  { intros id idx Hin%elem_of_elements. eauto. }
  apply layout_wf_core in Hw1.
  destruct (pop_leaves_ok h _ ∅ t1 (added ∖ set_map fst removed) [] Hw1 ltac:(reflexivity))
    as (popped & t2 & H2 & Hp2 & (Hw2 & _ & _ & He2 & Hnd & _)).
  pose proof (pop_list_elems _ _ _ _ _ Hp2) as [_ Hlen].
  destruct (push_all_ok h (merge_sort leaf_id_le popped) _ t2 Hw2) as (t3 & H3 & Hw3 & Hu3 & _ & He3).
  - rewrite (Permutation_length (merge_sort_Permutation _ _)).
    rewrite !length_reverse, (used_length _ _ _ Hw1), (used_length _ _ _ Hw2) in Hlen. simpl in Hlen.
    pose proof (lay_next _ _ _ Hw1). lia.
  - by rewrite merge_sort_Permutation.
  - intros id. rewrite merge_sort_Permutation. set_solver.
  - exists t3. split_and!.
    + unfold sort_leaves_and_blank_paths_for_concurrent_membership_changes. step H1. step_gets.
      step H2. exact H3.
    + apply layout_wf_core. match type of Hw3 with layout _ ?Y _ => assert (Y = ∅) as HY end.
      { apply set_eq. intros id. rewrite merge_sort_Permutation. set_solver. }
      by rewrite HY in Hw3.
    + rewrite Hu3. unfold resorted. rewrite <- Hu1, Hp2. by rewrite reverse_involutive.
    + destruct He3 as [->|]; [|by right]. destruct He2 as [->|]; [|by right]. done.
Qed.

(** ** Properties *)

Lemma used_elems h t l : wf_core h t -> Some l ∈ leaves t <-> Some l ∈ used t.
Proof.
  intros Hw. unfold used. rewrite !list_elem_of_lookup. split.
  - intros [j Hj]. exists j. apply lookup_take_Some. split; [done|].
    destruct (decide (j < N.to_nat (leaf_u32 (next_leaf_idx t)))%nat) as [|Hge]; [done|].
    eapply (wf_right _ _ Hw) in Hj; [done|lia].
  - intros [j [Hj _]%lookup_take_Some]. eauto.
Qed.


Lemma pop_list_tail ls : forall r acc,
  NoDup (ln_id <$> ls) ->
  pop_list (reverse (Some <$> ls) ++ r) (list_to_set (ln_id <$> ls)) acc = (acc ++ reverse ls, r).
Proof.
  induction ls as [|l ls IH] using rev_ind; intros r acc Hnd.
  { simpl. rewrite app_nil_r. by apply pop_list_stop; left. }
  rewrite !fmap_app in *. simpl in *. rewrite reverse_snoc. simpl app.
  apply NoDup_app in Hnd as (Hnd & Hdis & _). rewrite pop_list_step by set_solver. simpl.
  replace (list_to_set ((ln_id <$> ls) ++ [ln_id l]) ∖ {[ln_id l]})
    with (list_to_set (C := gset MemberId) (ln_id <$> ls)) by set_solver.
  rewrite IH by done. by rewrite reverse_snoc, <- (assoc_L (++)).
Qed.

Lemma merge_sort_leaves_unique l1 l2 :
  l1 ≡ₚ l2 -> NoDup (ln_id <$> l1) -> merge_sort leaf_id_le l1 = merge_sort leaf_id_le l2.
Proof.
  intros Hp Hnd. 
  assert (forall a b, a ∈ l1 -> b ∈ l1 -> ln_id a = ln_id b -> a = b) as Hinj.
  { intros a b [i Hi]%list_elem_of_lookup [j Hj]%list_elem_of_lookup Hab.
    assert (i = j) as ->; [|congruence].
    eapply NoDup_lookup; [exact Hnd| |]; rewrite list_lookup_fmap.
    - by rewrite Hi.
    - rewrite Hj. simpl. by rewrite Hab. }
  apply (StronglySorted_unique_strong leaf_id_le).
  - intros a b Ha Hb H1 H2. rewrite !merge_sort_Permutation in *.
    apply Hinj; [done|by rewrite Hp|]. by apply (anti_symm MemberId_le).
  - apply StronglySorted_merge_sort; apply _.
  - apply StronglySorted_merge_sort; apply _.
  - by rewrite !merge_sort_Permutation.
Qed.

Lemma resorted_adds base ls added :
  NoDup (ln_id <$> ls) -> added = list_to_set (ln_id <$> ls) ->
  resorted added (base ++ (Some <$> ls)) = base ++ (Some <$> merge_sort leaf_id_le ls).
Proof.
  intros Hnd ->. unfold resorted. rewrite reverse_app, pop_list_tail by done.
  rewrite reverse_involutive. simpl. f_equal. f_equal.
  apply merge_sort_leaves_unique; [apply reverse_Permutation|].
  by rewrite reverse_Permutation.
Qed.

Lemma wf_ids_determined h t t' :
  wf_core h t -> wf_core h t' -> used t = used t' -> id_to_leaf_idx t = id_to_leaf_idx t'.
Proof.
  intros Hw Hw' Hu.
  assert (forall t id l, wf_core h t -> id_to_leaf_idx t !! id = Some l <->
    exists nk, used t !! LeafNodeIndex_usize l = Some (Some (mkLeafNode id nk))) as Hspec.
  { clear. intros t id l Hw. rewrite (wf_ids _ _ Hw). unfold used.
    setoid_rewrite lookup_take_Some. split; [|naive_solver].
    intros [nk Hnk]. exists nk. split; [done|].
    assert (id_to_leaf_idx t !! id = Some l) as Hid by (apply (wf_ids _ _ Hw); eauto).
    pose proof (member_bound _ _ _ _ Hw Hid). unfold LeafNodeIndex_usize. lia. }
  apply map_eq. intros id. apply option_eq. intros l. by rewrite !Hspec, Hu.
Qed.

(** Concurrent additions converge: two replicas that share the leaves
    [base] and then appended the same new members in different orders end, after
    the clean-up, with the same leaves and the same member index. *)
Theorem concurrent_adds_converge (h : nat) (t1 t2 : BeeKem) (base : list (option LeafNode))
    (ls1 ls2 : list LeafNode) (added : gset MemberId) :
  wf h t1 -> wf h t2 ->
  used t1 = base ++ (Some <$> ls1) -> used t2 = base ++ (Some <$> ls2) ->
  ls1 ≡ₚ ls2 -> NoDup (ln_id <$> ls1) -> added = list_to_set (ln_id <$> ls1) ->
  exists t1' t2',
    sort_leaves_and_blank_paths_for_concurrent_membership_changes added ∅ t1 = (Ok tt, t1') /\
    sort_leaves_and_blank_paths_for_concurrent_membership_changes added ∅ t2 = (Ok tt, t2') /\
    used t1' = used t2' /\ id_to_leaf_idx t1' = id_to_leaf_idx t2'.
Proof.
  intros [Hw1 _ _] [Hw2 _ _] Hu1 Hu2 Hp Hnd Hadd.
  destruct (sort_leaves_ok h t1 added ∅ Hw1) as (t1' & H1 & Hw1' & Hr1 & _); [set_solver|].
  destruct (sort_leaves_ok h t2 added ∅ Hw2) as (t2' & H2 & Hw2' & Hr2 & _); [set_solver|].
  rewrite set_map_empty, difference_empty_L in Hr1, Hr2.
  assert (used t1' = used t2') as Hu.
  { rewrite Hr1, Hr2, Hu1, Hu2. rewrite !resorted_adds; try done.
    - by rewrite (merge_sort_leaves_unique ls1 ls2).
    - by rewrite <- Hp.
    - rewrite Hadd. apply set_eq. intros id. rewrite !elem_of_list_to_set. by rewrite Hp. }
  exists t1', t2'. split_and!; [done..|]. by apply (wf_ids_determined h).
Qed.

(** ** Witnesses *)

(** Members 2 and 3 added after member 1, in both orders. *)
Definition adds_23 : BeeKem := sample3.
Definition adds_32 : BeeKem :=
  pushed 1 (sample_id Byte.x02) (sample_key Byte.x02)
    (pushed 1 (sample_id Byte.x03) (sample_key Byte.x03) sample1).

Lemma adds_32_wf : wf 2 adds_32.
Proof.
  refine (wf_pushed 1 (pushed 1 (sample_id Byte.x03) (sample_key Byte.x03) sample1) (sample_id Byte.x02) _ _ eq_refl eq_refl).
  exact (wf_is_core _ _ (wf_pushed 1 sample1 (sample_id Byte.x03) _ (wf_is_core _ _ sample1_wf) eq_refl eq_refl)).
Qed.

Lemma concurrent_adds_converge_witness :
  exists t1 t2,
    sort_leaves_and_blank_paths_for_concurrent_membership_changes
      {[ sample_id Byte.x02; sample_id Byte.x03 ]} ∅ adds_23 = (Ok tt, t1) /\
    sort_leaves_and_blank_paths_for_concurrent_membership_changes
      {[ sample_id Byte.x02; sample_id Byte.x03 ]} ∅ adds_32 = (Ok tt, t2) /\
    used t1 = used t2 /\ used adds_23 <> used adds_32.
Proof.
  pose (leaf_of b := mkLeafNode (sample_id b) (sample_key b)).
  destruct (concurrent_adds_converge 2 adds_23 adds_32 [Some (leaf_of Byte.x01)]
    [leaf_of Byte.x02; leaf_of Byte.x03] [leaf_of Byte.x03; leaf_of Byte.x02]
    {[ sample_id Byte.x02; sample_id Byte.x03 ]}) as (t1 & t2 & H1 & H2 & H3 & _).
  - exact sample3_wf.
  - exact adds_32_wf.
  - reflexivity.
  - reflexivity.
  - apply Permutation_swap.
  - repeat constructor; set_solver.
  - set_solver.
  - exists t1, t2. split_and!; [exact H1|exact H2|exact H3|]. vm_compute. discriminate.
Defined.


(** ** Where the clean-up loses and keeps members it should not *)

(** An epoch that removes the last leaf's member and concurrently adds
    another loses the added member when the removal is applied first: trimming
    frees the removed leaf, the addition takes it, and the clean-up blanks it
    again.  The member stays in the index without a leaf, so its key is not
    found, while a replica that applied the addition first keeps it. *)
Theorem concurrent_add_lost_after_remove :
  let cleanup := sort_leaves_and_blank_paths_for_concurrent_membership_changes
    {[ sample_id Byte.x04 ]} {[ (sample_id Byte.x03, 2) ]} in
  let add := push_leaf (sample_id Byte.x04) (sample_key Byte.x04) in
  let '(r1, t1) := (remove_id (sample_id Byte.x03) ;; add ;; cleanup)%monad sample3 in
  let '(r2, t2) := (add ;; remove_id (sample_id Byte.x03) ;; cleanup)%monad sample3 in
  r1 = Ok tt /\ r2 = Ok tt /\
  contains_id (sample_id Byte.x04) t1 = true /\
  node_key_for_id (sample_id Byte.x04) t1 = Err ShareKeyNotFound /\
  node_key_for_id (sample_id Byte.x04) t2 = Ok (sample_key Byte.x04).
Proof. vm_compute. split_and!; reflexivity. Qed.

(** Adding a member that is already in the tree, as two concurrent
    additions of the same member do, gives it two leaves; removing the member
    afterwards blanks only one of them, so its key stays in the tree and later
    path secrets are still encrypted to it. *)
Theorem double_add_survives_remove :
  let add := push_leaf (sample_id Byte.x04) (sample_key Byte.x04) in
  let cleanup := sort_leaves_and_blank_paths_for_concurrent_membership_changes {[ sample_id Byte.x04 ]} ∅ in
  let '(r, t) := (add ;; add ;; cleanup ;; remove_id (sample_id Byte.x04))%monad sample3 in
  (exists keys, r = Ok (4, keys)) /\
  contains_id (sample_id Byte.x04) t = false /\
  leaves t !! 3%nat = Some (Some (mkLeafNode (sample_id Byte.x04) (sample_key Byte.x04))) /\
  append_resolution 32 (root (tree_size t)) [] t =
    Ok [Leaf (mkLeafNodeIndex 0); Leaf (mkLeafNodeIndex 1); Leaf (mkLeafNodeIndex 2); Leaf (mkLeafNodeIndex 3)].
Proof. vm_compute. split_and!; [eexists|..]; reflexivity. Qed.
