(* ===== verification/PathCrypto.v ===== *)
(** * Path encryption and decryption ([keyhive/beekem/src/tree.rs])

    [encrypt_path] writes a fresh secret at every ancestor of a leaf;
    [decrypt_tree_secret] recovers the root secret from a leaf. *)

From S2P Require Import Prelude TreeMath Crypto Keys SecretStore Tree.

Local Open Scope monad_scope.

(** [PcsKey] of [pcs_key.rs]. *)
Record PcsKey := mkPcsKey { pcs_secret : ShareSecretKey }.

#[export] Instance PcsKey_eq_dec : EqDecision PcsKey.
Proof. solve_decision. Defined.

Section Path.
Context `{P : Primitives}.

Abbreviation PathM := (M (BeeKem * Rng) CgkaError).

Definition on_tree {A} (m : TreeM A) : PathM A := zoom fst (fun t s => (t, s.2)) m.
Definition on_rng {A} (m : M Rng CgkaError A) : PathM A := zoom snd (fun r s => (s.1, r)) m.

Definition generate : M Rng CgkaError ShareSecretKey := fun r =>
  let '(sk, r') := ShareSecretKey_generate r in (Ok sk, r').

(** The loop over the sibling resolution: the first sealed copy is also
    stored under the child's own index. *)
Fixpoint encrypt_for_resolution (t : BeeKem) (child_idx : TreeNodeIndex)
    (child_sk new_parent_sk : ShareSecretKey) (resolution : list TreeNodeIndex)
    (used_paired_sibling : bool) (secret_map : gmap TreeNodeIndex EncryptedSecret) :
    res CgkaError (gmap TreeNodeIndex EncryptedSecret) :=
  match resolution with
  | [] => Ok secret_map
  | idx :: rest =>
      let* nk := node_key_for_index idx t in
      let* next_pk := match nk with NKShareKey pk => Ok pk | NKConflictKeys _ => Panic end in
      let* encrypted_sk :=
        encrypt_secret (TreeId_bytes (bk_doc_id t)) new_parent_sk child_sk next_pk in
      let secret_map :=
        if used_paired_sibling then secret_map else <[child_idx := encrypted_sk]> secret_map in
      encrypt_for_resolution t child_idx child_sk new_parent_sk rest true
        (<[idx := encrypted_sk]> secret_map)
  end.

Definition encrypt_new_secret_store_for_parent (t : BeeKem) (child_idx : TreeNodeIndex)
    (child_pk : ShareKey) (child_sk : ShareSecretKey) (new_parent_pk : ShareKey)
    (new_parent_sk : ShareSecretKey) : M Rng CgkaError SecretStore :=
  let sibling_idx := sibling child_idx in
  sibling_resolution <- liftR (append_resolution 32 sibling_idx [] t) ;;
  secret_map <-
    match sibling_resolution with
    | [] =>
        paired_sk <- generate ;;
        let paired_pk := share_key paired_sk in
        encrypted_sk <-
          liftR (encrypt_secret (TreeId_bytes (bk_doc_id t)) new_parent_sk child_sk paired_pk) ;;
        ret (<[child_idx := encrypted_sk]> ∅)
    | _ :: _ =>
        liftR (encrypt_for_resolution t child_idx child_sk new_parent_sk sibling_resolution false ∅)
    end ;;
  ret (SecretStore_new new_parent_pk child_pk secret_map).

Definition encrypt_key_for_parent (child_idx : TreeNodeIndex) (child_pk : ShareKey)
    (child_sk : ShareSecretKey) (new_parent_pk : ShareKey) (new_parent_sk : ShareSecretKey) :
    PathM unit :=
  let parent_idx := parent child_idx in
  t <- gets fst ;;
  secret_store <- on_rng (encrypt_new_secret_store_for_parent t child_idx child_pk child_sk
                            new_parent_pk new_parent_sk) ;;
  on_tree (insert_inner_node_at parent_idx secret_store).

(** The [while !self.is_root(child_idx)] loop of [encrypt_path]; returns the
    last child secret, the path and the replaced keys. *)
Fixpoint encrypt_path_loop (fuel : nat) (child_idx : TreeNodeIndex) (child_pk : ShareKey)
    (child_sk : ShareSecretKey) (path : list (N * SecretStore)) (removed_keys : list ShareKey) :
    PathM (ShareSecretKey * list (N * SecretStore) * list ShareKey) :=
  t <- gets fst ;;
  if is_root child_idx t then ret (child_sk, path, removed_keys)
  else
    match fuel with
    | O => diverge
    | S fuel' =>
        let parent_idx := parent child_idx in
        o <- on_tree (readM (inner_node parent_idx)) ;;
        replaced <- match o with
                    | Some store =>
                        nk <- expect (SecretStore_node_key store) ;; ret (NodeKey_keys nk)
                    | None => ret []
                    end ;;
        let new_parent_sk := ratchet_forward child_sk in
        let new_parent_pk := share_key new_parent_sk in
        encrypt_key_for_parent child_idx child_pk child_sk new_parent_pk new_parent_sk ;;
        o' <- on_tree (readM (inner_node parent_idx)) ;;
        store' <- expect o' ;;
        encrypt_path_loop fuel' (Inner parent_idx) new_parent_pk new_parent_sk
          (path ++ [(inner_u32 parent_idx, store')]) (removed_keys ++ replaced)
    end.

Definition encrypt_path (id : MemberId) (pk : ShareKey) (sks : ShareKeyMap) :
    PathM (option (PcsKey * PathChange)) :=
  leaf_idx <- on_tree (readM (leaf_index_for_id id)) ;;
  old_key <- on_tree (readM (node_key_for_id id)) ;;
  on_tree (insert_leaf_at leaf_idx id (NKShareKey pk)) ;;
  child_sk <- ok_or (sks !! pk) SecretKeyNotFound ;;
  result <- encrypt_path_loop 32 (Leaf leaf_idx) pk child_sk [] (NodeKey_keys old_key) ;;
  on_tree (modify (set_encrypter (Some leaf_idx))) ;;
  let '(root_sk, path, removed_keys) := result in
  ret (Some (mkPcsKey root_sk,
             mkPathChange id (leaf_u32 leaf_idx) (NKShareKey pk) path removed_keys)).

(** *** Decryption *)

Definition maybe_decrypt_parent_key (t : BeeKem) (child_idx : TreeNodeIndex)
    (child_node_key : NodeKey) (seen_idxs : list TreeNodeIndex) :
    M ShareKeyMap CgkaError (option ShareSecretKey) :=
  o <- liftR (inner_node (parent child_idx) t) ;;
  match o with
  | None => ret None
  | Some p =>
      nk <- expect (SecretStore_node_key p) ;;
      match nk with
      | NKConflictKeys _ => ret None
      | NKShareKey parent_pk =>
          sks <- get ;;
          match sks !! parent_pk with
          | Some sk => ret (Some sk)
          | None =>
              secret <- liftR (store_decrypt_secret p child_node_key sks seen_idxs) ;;
              modify (fun sks => <[parent_pk := secret]> sks) ;;
              ret (Some secret)
          end
      end
  end.

(** The inner loop: go up past blank and conflict nodes. *)
Fixpoint skip_up (fuel : nat) (t : BeeKem) (child_idx : TreeNodeIndex) (parent_idx : InnerNodeIndex) :
    res CgkaError (TreeNodeIndex * InnerNodeIndex) :=
  let* skip := should_skip_for_resolution (Inner parent_idx) t in
  if skip then
    match fuel with
    | O => Diverge
    | S fuel' => skip_up fuel' t (Inner parent_idx) (parent (Inner parent_idx))
    end
  else Ok (child_idx, parent_idx).

(** The outer loop, from [child_idx] up; [last] is
    [maybe_last_secret_decrypted]. *)
Fixpoint decrypt_loop (fuel : nat) (t : BeeKem) (lca : InnerNodeIndex) (child_idx : TreeNodeIndex)
    (seen_idxs : list TreeNodeIndex) (child_node_key : NodeKey) (last : option ShareSecretKey) :
    M ShareKeyMap CgkaError ShareSecretKey :=
  if is_root child_idx t then ok_or last NoRootKey
  else
    match fuel with
    | O => diverge
    | S fuel' =>
        cp <- liftR (skip_up 32 t child_idx (parent child_idx)) ;;
        let '(child_idx, parent_idx) := cp in
        secret <- maybe_decrypt_parent_key t child_idx child_node_key seen_idxs ;;
        match secret with
        | None => panic
        | Some secret =>
            if decide (parent_idx = lca) then
              path <- loop_result (direct_path (Inner parent_idx) (tree_size t)) ;;
              ret (ratchet_n_forward secret (length path))
            else
              child_node_key <- liftR (node_key_for_index (Inner parent_idx) t) ;;
              decrypt_loop fuel' t lca (Inner parent_idx) (seen_idxs ++ [Inner parent_idx])
                child_node_key (Some secret)
        end
    end.

Definition decrypt_tree_secret (t : BeeKem) (owner_id : MemberId) :
    M ShareKeyMap CgkaError ShareSecretKey :=
  leaf_idx <- liftR (leaf_index_for_id owner_id t) ;;
  rk <- liftR (has_root_key t) ;;
  if negb rk then throw NoRootKey
  else
    o <- liftR (leaf leaf_idx t) ;;
    l <- expect o ;;
    if decide (Some leaf_idx = current_secret_encrypter_leaf_idx t) then
      match ln_pk l with
      | NKConflictKeys _ => throw ShareKeyNotFound
      | NKShareKey pk =>
          sks <- get ;;
          secret <- ok_or (sks !! pk) ShareKeyNotFound ;;
          path <- loop_result (direct_path (Leaf leaf_idx) (tree_size t)) ;;
          ret (ratchet_n_forward secret (length path))
      end
    else
      encrypter <- expect (current_secret_encrypter_leaf_idx t) ;;
      lca <- loop_result (lowest_common_ancestor leaf_idx encrypter) ;;
      decrypt_loop 32 t lca (Leaf leaf_idx) [Leaf leaf_idx] (ln_pk l) None.
End Path.
