(* ===== verification/PathSpec.v ===== *)
(** * What the keys of a BeeKEM tree promise

    The abstract contract between [encrypt_path] and [decrypt_tree_secret]:
    which node keys are usable, what the resolution of a subtree is, and the
    invariant [keyed] that every single-version node is sealed for exactly the
    usable keys below it. *)

From S2P Require Import Prelude TreeMath Crypto Keys SecretStore Tree TreeInv PathCrypto.

Local Open Scope N_scope.

(** ** Usable keys *)

Definition store_at (t : BeeKem) (k : nat) (i : N) : option SecretStore :=
  match inner_nodes t !! InnerNodeIndex_usize (inode k i) with Some o => o | None => None end.

(** The one public key a path secret can be encrypted to at node [i] of level
    [k]: blank nodes and nodes in conflict have none. *)
Definition usable (t : BeeKem) (k : nat) (i : N) : option ShareKey :=
  match k with
  | O => match leaves t !! N.to_nat i with
         | Some (Some (mkLeafNode _ (NKShareKey pk))) => Some pk
         | _ => None
         end
  | S k' => match store_at t k' i with
            | Some (mkSecretStore [v]) => Some (v_pk v)
            | _ => None
            end
  end.

(** The highest usable nodes below a node. *)
Fixpoint resolution (t : BeeKem) (k : nat) (i : N) : list TreeNodeIndex :=
  match usable t k i with
  | Some _ => [node_at k i]
  | None => match k with
            | O => []
            | S k' => resolution t k' (2 * i) ++ resolution t k' (2 * i + 1)
            end
  end.

(** The level of the highest usable ancestor of leaf [a], up to level [k]. *)
Fixpoint top (t : BeeKem) (a : N) (k : nat) : nat :=
  match usable t k (a / p2 k) with
  | Some _ => k
  | None => match k with O => O | S k' => top t a k' end
  end.

(** No leaf is in conflict. *)
Definition leaves_single (t : BeeKem) : Prop :=
  forall j l, leaves t !! j = Some (Some l) -> exists pk, ln_pk l = NKShareKey pk.

Definition stores_wf (t : BeeKem) : Prop := Forall (fun o => from_option store_wf True o) (inner_nodes t).

Lemma store_at_lookup h t k i :
  shape h t -> in_tree h (S k) i ->
  inner_nodes t !! InnerNodeIndex_usize (inode k i) = Some (store_at t k i).
Proof.
  intros Hs Hin. unfold store_at. pose proof (inode_bound _ _ _ Hin) as Hb.
  rewrite <- (sh_inner _ _ Hs) in Hb. by apply lookup_lt_is_Some_2 in Hb as [o ->].
Qed.

Lemma store_at_wf h t k i s :
  shape h t -> stores_wf t -> in_tree h (S k) i -> store_at t k i = Some s -> store_wf s.
Proof.
  intros Hs Hw Hin He. pose proof (store_at_lookup h t k i Hs Hin) as Hl. rewrite He in Hl.
  by eapply (Forall_lookup_1 _ _ _ _ Hw) in Hl.
Qed.

Lemma usable_store t k i pk :
  usable t (S k) i = Some pk -> exists v, store_at t k i = Some (mkSecretStore [v]) /\ v_pk v = pk.
Proof. simpl. destruct (store_at t k i) as [[[|v []]]|]; try done. intros [= <-]. eauto. Qed.

(** ** The code's tests are about usable keys *)

Lemma should_skip_inner h t k i :
  shape h t -> stores_wf t -> in_tree h (S k) i ->
  should_skip_for_resolution (Inner (inode k i)) t = Ok (bool_decide (usable t (S k) i = None)).
Proof.
  intros Hs Hw Hin. cbn [should_skip_for_resolution]. unfold inner_node.
  rewrite (store_at_lookup h) by done. cbn [expectR bindR]. simpl usable.
  destruct (store_at t k i) as [s|] eqn:He; [|done].
  pose proof (store_at_wf h t k i s Hs Hw Hin He) as Hne.
  by destruct s as [[|v [|w vs]]].
Qed.

Lemma should_skip_leaf h t i :
  shape h t -> leaves_single t -> i < p2 h ->
  should_skip_for_resolution (Leaf (mkLeafNodeIndex i)) t = Ok (bool_decide (usable t 0 i = None)).
Proof.
  intros Hs Hl Hi. simpl. unfold leaf, LeafNodeIndex_usize. simpl.
  destruct (lookup_lt_is_Some_2 (leaves t) (N.to_nat i)) as [o Ho]; [rewrite (sh_leaves _ _ Hs); lia|].
  rewrite Ho. simpl. destruct o as [[id nk]|]; [|done].
  destruct (Hl _ _ Ho) as [pk Hpk]. simpl in Hpk. by subst nk.
Qed.

Lemma node_key_usable t k i pk :
  usable t k i = Some pk -> node_key_for_index (node_at k i) t = Ok (NKShareKey pk).
Proof.
  destruct k as [|k].
  - simpl. unfold leaf, LeafNodeIndex_usize. simpl.
    destruct (leaves t !! N.to_nat i) as [[[id [k|ks]]|]|]; try done. by intros [= ->].
  - intros (v & Hv & Hpk)%usable_store. simpl. unfold inner_node.
    unfold store_at in Hv. destruct (inner_nodes t !! _) as [o|]; [|done]. subst o. simpl.
    by rewrite Hpk.
Qed.

Lemma append_resolution_eq h t : forall k i fuel acc,
  shape h t -> stores_wf t -> leaves_single t -> in_tree h k i -> (k <= fuel)%nat ->
  append_resolution fuel (node_at k i) acc t = Ok (acc ++ resolution t k i).
Proof.
  induction k as [|k IH]; intros i fuel acc Hs Hw Hl Hin Hf.
  - destruct Hin as (Hh & _ & Hi). rewrite Nat.sub_0_r in Hi.
    destruct fuel; cbn [append_resolution node_at]; rewrite (should_skip_leaf h) by done; cbn [bindR resolution];
      destruct (usable t 0 i); simpl; by rewrite ?app_nil_r.
  - destruct fuel as [|fuel]; [lia|]. cbn [append_resolution node_at].
    rewrite (should_skip_inner h) by done. cbn [bindR resolution].
    destruct (usable t (S k) i); [done|]. cbn [bool_decide decide_rel].
    rewrite bool_decide_eq_true_2 by done.
    rewrite (left_inode h), (right_inode h) by done.
    pose proof (in_tree_child _ _ _ 0 Hin ltac:(lia)) as H0. rewrite N.add_0_r in H0.
    pose proof (in_tree_child _ _ _ 1 Hin ltac:(lia)) as H1.
    rewrite IH by (done || lia). cbn [bindR]. rewrite IH by (done || lia). by rewrite (assoc_L (++)).
Qed.

(** ** The highest usable ancestor *)

Lemma top_le t a k : (top t a k <= k)%nat.
Proof.
  induction k as [|k IH]; cbn [top]; [by destruct (usable _ _ _)|].
  destruct (usable t (S k) (a / p2 (S k))); lia.
Qed.

Lemma top_0 t a : top t a 0 = 0%nat.
Proof. cbn [top]. by destruct (usable _ _ _). Qed.

Lemma top_usable t a k :
  is_Some (usable t 0 a) -> is_Some (usable t (top t a k) (a / p2 (top t a k))).
Proof.
  intros H0. induction k as [|k IH].
  - by rewrite top_0, N.div_1_r.
  - cbn [top]. destruct (usable t (S k) (a / p2 (S k))) eqn:He; [rewrite He; eauto|done].
Qed.

Lemma top_highest t a k j :
  (top t a k < j <= k)%nat -> usable t j (a / p2 j) = None.
Proof.
  induction k as [|k IH]; intros Hj; [pose proof (top_le t a 0); lia|].
  cbn [top] in Hj. destruct (usable t (S k) (a / p2 (S k))) eqn:He; [lia|].
  destruct (decide (j = S k)) as [->|]; [done|]. apply IH. lia.
Qed.

Lemma top_unique t a k j :
  (j <= k)%nat -> is_Some (usable t j (a / p2 j)) ->
  (forall j', (j < j' <= k)%nat -> usable t j' (a / p2 j') = None) -> top t a k = j.
Proof.
  induction k as [|k IH]; intros Hj [pk Hu] Hn.
  - rewrite top_0. lia.
  - cbn [top]. destruct (decide (j = S k)) as [->|Hne]; [by rewrite Hu|].
    rewrite Hn by lia. apply IH; [lia|eauto|]. intros j' Hj'. apply Hn. lia.
Qed.

Lemma child_cases x : exists c, x = 2 * (x / 2) + N.b2n c.
Proof. destruct (halve x) as (j & c & H1 & <- & _). eauto. Qed.

Lemma lxor_1 j c : N.lxor (2 * j + N.b2n c) 1 = 2 * j + N.b2n (negb c).
Proof.
  destruct c; simpl N.b2n.
  - pose proof (lxor_clear (2 * j + 1) 0 (N.testbit_odd_0 j)) as H.
    change (2 ^ 0) with 1 in H. lia.
  - rewrite N.add_0_r. exact (lxor_set (2 * j) 0 (N.testbit_even_0 j)).
Qed.

(** Two nodes with the same parent are equal or siblings. *)
Lemma same_half x c : x / 2 = c / 2 -> x = c \/ x = N.lxor c 1.
Proof.
  intros H. destruct (child_cases x) as [b Hx], (child_cases c) as [b' Hc]. rewrite H in Hx.
  generalize dependent (c / 2). intros j **. subst x c. rewrite lxor_1. destruct b, b'; simpl; lia.
Qed.

(** Every occupied leaf below a node is covered by the node's resolution. *)
Lemma top_in_resolution t a k :
  is_Some (usable t 0 a) ->
  node_at (top t a k) (a / p2 (top t a k)) ∈ resolution t k (a / p2 k).
Proof.
  intros H0. induction k as [|k IH].
  - rewrite top_0, N.div_1_r. cbn [resolution]. destruct H0 as [pk ->]. set_solver.
  - cbn [top resolution]. destruct (usable t (S k) (a / p2 (S k))) eqn:He; [set_solver|].
    destruct (child_cases (a / p2 k)) as [c Hc]. rewrite <- div_p2_S in Hc. apply elem_of_app.
    destruct c; simpl in Hc; [right|left]; [by rewrite <- Hc|].
    rewrite N.add_0_r in Hc. by rewrite <- Hc.
Qed.

(** A resolution only depends on the subtree. *)
Lemma top_ext t t' a k :
  (forall j, (j <= k)%nat -> usable t' j (a / p2 j) = usable t j (a / p2 j)) -> top t' a k = top t a k.
Proof.
  induction k as [|k IH]; intros He; cbn [top]; rewrite He by lia; [done|].
  destruct (usable t (S k) _); [done|]. apply IH. intros j Hj. apply He. lia.
Qed.

Lemma resolution_ext t t' : forall k i,
  (forall j c, (j <= k)%nat -> c / p2 (k - j) = i -> usable t' j c = usable t j c) ->
  resolution t' k i = resolution t k i.
Proof.
  induction k as [|k IH]; intros i He; cbn [resolution].
  - by rewrite (He 0%nat i ltac:(lia)) by apply N.div_1_r.
  - rewrite (He (S k) i ltac:(lia)) by (rewrite Nat.sub_diag; apply N.div_1_r).
    destruct (usable t (S k) i); [done|]. f_equal; apply IH; intros j c Hj Hc; apply He; try lia.
    + replace (S k - j)%nat with (S (k - j)) by lia. rewrite div_p2_S, Hc.
      rewrite N.mul_comm. apply N.div_mul. lia.
    + replace (S k - j)%nat with (S (k - j)) by lia. rewrite div_p2_S, Hc.
      rewrite N.add_comm, (N.mul_comm 2), N.div_add by lia. done.
Qed.

(** ** Sealed trees *)

Section Sealed.
Context `{P : Primitives} {L : PrimitiveLaws P}.

(** The secrets that honest members generated, by public key. *)
Variable secrets : ShareKeyMap.

Definition directory : Prop :=
  forall pk sk, secrets !! pk = Some sk -> pk = share_key sk /\ length (ShareSecretKey_bytes sk) = 32%nat.

(** [m] holds [secret] for whoever has the highest usable key above an occupied
    leaf below node [c] of level [k]. *)
Definition sealed_for (t : BeeKem) (k : nat) (c : N) (child_sk secret : ShareSecretKey)
    (m : gmap TreeNodeIndex EncryptedSecret) : Prop :=
  forall a pk, a / p2 k = c -> is_Some (usable t 0 a) ->
    usable t (top t a k) (a / p2 (top t a k)) = Some pk ->
    exists e, m !! node_at (top t a k) (a / p2 (top t a k)) = Some e /\
      es_paired_pk e = pk /\ sealed child_sk secret e.

(** The version of node [i] of level [k + 1] was written from its child [c] and
    can be opened from both children. *)
Definition sealed_from (t : BeeKem) (k : nat) (c : N) (v : SecretStoreVersion) : Prop :=
  exists secret child_sk,
    secrets !! v_pk v = Some secret /\ secrets !! v_encrypter_pk v = Some child_sk /\
    usable t k c = Some (v_encrypter_pk v) /\
    (exists e, v_sk v !! node_at k c = Some e /\ sealed child_sk secret e) /\
    sealed_for t k (N.lxor c 1) child_sk secret (v_sk v).

Definition keyed (h : nat) (t : BeeKem) : Prop :=
  forall k i v, in_tree h (S k) i -> store_at t k i = Some (mkSecretStore [v]) ->
    exists c, c / 2 = i /\ sealed_from t k c v.

(** The secrets above the current encrypter are one ratchet chain. *)
Definition chain_from (h : nat) (t : BeeKem) (e : N) (sk : ShareSecretKey) : Prop :=
  forall j, (j <= h)%nat ->
    usable t j (e / p2 j) = Some (share_key (ratchet_n_forward sk j)) /\
    secrets !! share_key (ratchet_n_forward sk j) = Some (ratchet_n_forward sk j).

(** A tree whose members can all follow its keys. *)
Record sealed_tree (h : nat) (t : BeeKem) : Prop := {
  st_wf : wf h t;
  st_leaves : leaves_single t;
  st_keyed : keyed h t;
  st_chain : forall l, current_secret_encrypter_leaf_idx t = Some l ->
    exists sk, chain_from h t (leaf_u32 l) sk;
}.

(** What member [id] must hold: the secret of its leaf key, among others that
    were honestly generated. *)
Definition holds_leaf_key (t : BeeKem) (id : MemberId) (sks : ShareKeyMap) : Prop :=
  sks ⊆ secrets /\ exists a pk, id_to_leaf_idx t !! id = Some (mkLeafNodeIndex a) /\
    usable t 0 a = Some pk /\ is_Some (sks !! pk).
End Sealed.
