(* ===== verification/PathDecrypt.v ===== *)
(** * Every member derives the same tree secret

    In a tree that satisfies the contract of [PathSpec], [decrypt_tree_secret]
    returns the secret at the root of the encrypter's ratchet chain, whoever
    runs it. *)

From S2P Require Import Prelude TreeMath Crypto Keys SecretStore Tree TreeInv PathCrypto PathSpec.

Local Open Scope N_scope.

Section Decrypt.
Context `{P : Primitives} {L : PrimitiveLaws P}.
Context (secrets : ShareKeyMap) (Hdir : directory secrets).
Context (h : nat) (t : BeeKem) (Hs : shape h t) (Hw : stores_wf t) (Hk : keyed secrets h t).

Lemma ancestor_in_tree a j : a < p2 h -> (j <= h)%nat -> in_tree h j (a / p2 j).
Proof.
  intros Ha Hj. pose proof (sh_h _ _ Hs). apply (in_tree_ancestor h 0 a j); [|done].
  apply in_tree_leaf; [lia|done].
Qed.

Lemma parent_ancestor a j :
  a < p2 h -> (j < h)%nat -> parent (node_at j (a / p2 j)) = inode j (a / p2 (S j)).
Proof.
  intros Ha Hj. rewrite (parent_node_at h) by (done || (apply ancestor_in_tree; [done|lia])).
  by rewrite <- div_p2_S.
Qed.

(** The next usable level above [k], if some level up to [m] is usable. *)
Lemma next_usable a k m :
  (k < m)%nat -> is_Some (usable t m (a / p2 m)) ->
  exists j, (k <= j < m)%nat /\ is_Some (usable t (S j) (a / p2 (S j))) /\
    forall x, (k < x <= j)%nat -> usable t x (a / p2 x) = None.
Proof.
  intros Hkm Hm. remember (m - k)%nat as d eqn:Hd. revert k Hkm Hd.
  induction d as [|d IH]; intros k Hkm Hd; [lia|].
  destruct (usable t (S k) (a / p2 (S k))) as [pk|] eqn:He.
  - exists k. split; [lia|]. split; [by rewrite He|]. lia.
  - destruct (decide (S k = m)) as [<-|Hne]; [rewrite He in Hm; by destruct Hm|].
    destruct (IH (S k) ltac:(lia) ltac:(lia)) as (j & Hj & Hu & Hn). exists j.
    split; [lia|]. split; [done|]. intros x Hx.
    destruct (decide (x = S k)) as [->|]; [done|]. apply Hn. lia.
Qed.

Lemma skip_up_ok a j : forall d k fuel,
  a < p2 h -> (j < h)%nat -> (j = k + d)%nat -> (d <= fuel)%nat ->
  is_Some (usable t (S j) (a / p2 (S j))) ->
  (forall x, (k < x <= j)%nat -> usable t x (a / p2 x) = None) ->
  skip_up fuel t (node_at k (a / p2 k)) (inode k (a / p2 (S k))) =
    Ok (node_at j (a / p2 j), inode j (a / p2 (S j))).
Proof.
  induction d as [|d IH]; intros k fuel Ha Hj -> Hf Hu Hn.
  - rewrite Nat.add_0_r in *. destruct fuel; cbn [skip_up];
      rewrite (should_skip_inner h) by (done || by apply ancestor_in_tree); destruct Hu as [pk ->]; done.
  - destruct fuel as [|fuel]; [lia|]. cbn [skip_up].
    rewrite (should_skip_inner h) by (done || (apply ancestor_in_tree; [done|lia])).
    rewrite Hn by lia. rewrite bool_decide_eq_true_2 by done. cbn [bindR].
    pose proof (parent_ancestor a (S k) Ha ltac:(lia)) as Hp. cbn [node_at] in Hp. rewrite Hp.
    rewrite Nat.add_succ_r in *. rewrite <- (IH (S k) fuel); try done; try lia.
    intros x Hx. apply Hn. lia.
Qed.

(** A member that holds the secret of its highest usable key below a usable
    node opens that node. *)
Lemma version_decrypt_ok a k v pk sks seen :
  a < p2 h -> (k < h)%nat -> is_Some (usable t 0 a) ->
  store_at t k (a / p2 (S k)) = Some (mkSecretStore [v]) ->
  usable t (top t a k) (a / p2 (top t a k)) = Some pk ->
  sks ⊆ secrets -> is_Some (sks !! pk) ->
  last seen = Some (node_at (top t a k) (a / p2 (top t a k))) ->
  exists secret, secrets !! v_pk v = Some secret /\
    version_decrypt_secret v (NKShareKey pk) sks seen = Ok secret.
Proof.
  intros Ha Hkh H0 Hv Hpk Hsub [sk Hsk] Hlast.
  destruct (Hk k (a / p2 (S k)) v (ancestor_in_tree a (S k) Ha ltac:(lia)) Hv)
    as (c & Hc & secret & child_sk & Hsec & Hcsk & Huc & (e & He & Hsealed) & Hfor).
  exists secret. split; [done|].
  pose proof (Hdir _ _ Hsec) as [_ Hlen]. pose proof (Hdir _ _ Hcsk) as [Henc _].
  pose proof (lookup_weaken _ _ _ _ Hsk Hsub) as Hsk'. pose proof (Hdir _ _ Hsk') as [Hpksk _].
  assert (NodeKey_contains_key (NKShareKey pk) (v_encrypter_pk v) = true -> sks !! v_encrypter_pk v = Some child_sk) as Hown.
  { intros Hb%bool_decide_eq_true_1. rewrite Hb in *. congruence. }
  assert (forall x e, last seen = Some x -> v_sk v !! x = Some e -> lookup_idx (v_sk v) seen = Some x) as Hidx.
  { intros x e' Hx He'. unfold lookup_idx. rewrite Hx. by rewrite decide_True by by rewrite He'. }
  destruct (same_half (a / p2 k) c) as [Hside|Hside]; [by rewrite <- div_p2_S|..].
  - assert (top t a k = k) as Htop.
    { apply top_unique; [done|rewrite Hside, Huc; eauto|lia]. }
    rewrite Htop, Hside in *. assert (pk = v_encrypter_pk v) as -> by congruence.
    eapply version_decrypt_encrypter; [by eapply Hidx|done|done|done|by apply bool_decide_eq_true_2|].
    apply Hown. by apply bool_decide_eq_true_2.
  - destruct (Hfor a pk Hside H0 Hpk) as (e' & He' & Hpair & Hsealed').
    destruct (NodeKey_contains_key (NKShareKey pk) (v_encrypter_pk v)) eqn:Hcon.
    + eapply version_decrypt_encrypter; eauto.
    + by eapply (version_decrypt_partner v _ sks seen _ e' child_sk secret sk); rewrite ?Hpair; eauto.
Qed.

Lemma maybe_decrypt_parent_key_ok a k parent_pk pk sks seen :
  a < p2 h -> (k < h)%nat -> is_Some (usable t 0 a) ->
  usable t (S k) (a / p2 (S k)) = Some parent_pk ->
  usable t (top t a k) (a / p2 (top t a k)) = Some pk ->
  sks ⊆ secrets -> is_Some (sks !! pk) ->
  last seen = Some (node_at (top t a k) (a / p2 (top t a k))) ->
  exists secret sks', secrets !! parent_pk = Some secret /\
    maybe_decrypt_parent_key t (node_at k (a / p2 k)) (NKShareKey pk) seen sks = (Ok (Some secret), sks') /\
    sks ⊆ sks' /\ sks' ⊆ secrets /\ is_Some (sks' !! parent_pk).
Proof.
  intros Ha Hkh H0 Hpar Hpk Hsub Hsk Hlast.
  apply usable_store in Hpar as (v & Hv & <-).
  destruct (version_decrypt_ok a k v pk sks seen Ha Hkh H0 Hv Hpk Hsub Hsk Hlast) as (secret & Hsec & Hdec).
  exists secret. unfold maybe_decrypt_parent_key. rewrite parent_ancestor by done.
  assert (inner_node (inode k (a / p2 (S k))) t = Ok (Some (mkSecretStore [v]))) as Hin.
  { unfold inner_node. rewrite (store_at_lookup h), Hv; [done..|]. by apply ancestor_in_tree. }
  unfold liftR, bindM at 1. rewrite Hin. cbn [SecretStore_node_key versions expect ret bindM get].
  destruct (sks !! v_pk v) as [sk|] eqn:Hc.
  - exists sks. pose proof (lookup_weaken _ _ _ _ Hc Hsub). simplify_eq.
    by split_and!.
  - exists (<[v_pk v := secret]> sks).
    cbn [store_decrypt_secret has_conflict versions length Nat.ltb Nat.leb]. rewrite Hdec. cbn [modify].
    split_and!; try done.
    + by apply insert_subseteq.
    + by apply insert_subseteq_l.
    + rewrite lookup_insert_eq. eauto.
Qed.

Lemma is_root_ancestor a j :
  a < p2 h -> (j <= h)%nat -> is_root (node_at j (a / p2 j)) t = (j =? h)%nat.
Proof. intros Ha Hj. apply (is_root_node_at h); [done|]. by apply ancestor_in_tree. Qed.

Section Loop.
Context (a : N) (Ha : a < p2 h) (H0 : is_Some (usable t 0 a)).
Context (e : N) (He : e < p2 h) (sk : ShareSecretKey) (Hchain : chain_from secrets h t e sk).
(** The two leaves meet at level [S m]. *)
Context (m : nat) (Hm : (m < h)%nat) (Hmeet : a / p2 (S m) = e / p2 (S m)).

Lemma lca_secret s :
  secrets !! share_key (ratchet_n_forward sk (S m)) = Some s ->
  ratchet_n_forward s (h - S m) = ratchet_n_forward sk h.
Proof.
  intros Hsec. destruct (Hchain (S m) ltac:(lia)) as [_ Hsec']. simplify_eq.
  rewrite <- ratchet_n_forward_add. f_equal. lia.
Qed.

Lemma decrypt_loop_ok : forall d j fuel pk sks seen last_secret,
  (m = j + d)%nat -> (d < fuel)%nat -> (fuel <= 32)%nat ->
  usable t j (a / p2 j) = Some pk -> sks ⊆ secrets -> is_Some (sks !! pk) ->
  last seen = Some (node_at j (a / p2 j)) ->
  exists sks', decrypt_loop fuel t (inode m (a / p2 (S m))) (node_at j (a / p2 j)) seen
      (NKShareKey pk) last_secret sks = (Ok (ratchet_n_forward sk h), sks') /\
    sks ⊆ sks' /\ sks' ⊆ secrets.
Proof.
  intros d. induction d as [d IH] using lt_wf_ind. intros j fuel pk sks seen last_secret Hmj Hf Hf32 Hpk Hsub Hsk Hlast.
  pose proof (sh_h _ _ Hs) as Hh. destruct fuel as [|fuel]; [lia|]. cbn [decrypt_loop].
  rewrite is_root_ancestor by (done || lia). rewrite (proj2 (Nat.eqb_neq j h)) by lia.
  assert (is_Some (usable t (S m) (a / p2 (S m)))) as Hum.
  { rewrite Hmeet. destruct (Hchain (S m) ltac:(lia)) as [-> _]. eauto. }
  destruct (next_usable a j (S m) ltac:(lia) Hum) as (k & Hk1 & [ppk Hup] & Hnone).
  rewrite parent_ancestor by (done || lia).
  assert (skip_up 32 t (node_at j (a / p2 j)) (inode j (a / p2 (S j))) =
    Ok (node_at k (a / p2 k), inode k (a / p2 (S k)))) as Hskip.
  { by apply (skip_up_ok a k (k - j)); (done || lia || idtac). }
  unfold liftR, bindM at 1. rewrite Hskip.
  assert (top t a k = j) as Htop by (apply top_unique; [lia|by rewrite Hpk|done]).
  destruct (maybe_decrypt_parent_key_ok a k ppk pk sks seen) as (secret & sks' & Hsec & Hdec & H1 & H2 & H3);
    try done; try lia; [by rewrite Htop..|].
  unfold bindM at 1. rewrite Hdec. destruct (decide (k = m)) as [->|Hkm].
  - rewrite decide_True by done. rewrite (sh_size _ _ Hs).
    pose proof (direct_path_node_at h (S m) _ (ancestor_in_tree a (S m) Ha ltac:(lia))) as Hd.
    cbn [node_at] in Hd. rewrite Hd. cbn [loop_result ret bindM]. rewrite path_from_length.
    exists sks'. split_and!; [|done..]. rewrite (lca_secret secret); [done|].
    destruct (Hchain (S m) ltac:(lia)) as [Hu _]. rewrite <- Hmeet in Hu. congruence.
  - rewrite decide_False.
    + rewrite (node_key_usable t (S k) _ ppk Hup : node_key_for_index (Inner (inode k _)) t = _).
      destruct (IH (m - S k)%nat ltac:(lia) (S k) fuel ppk sks' (seen ++ [node_at (S k) (a / p2 (S k))]) (Some secret))
        as (sks'' & Hr & H4 & H5); try done; try lia.
      { by rewrite last_snoc. }
      exists sks''. split_and!; [exact Hr| |done]. by transitivity sks'.
    + intros Heq. apply Hkm.
      assert (node_at (S k) (a / p2 (S k)) = node_at (S m) (a / p2 (S m))) as Hn by (simpl; congruence).
      apply (node_at_inj h) in Hn as [[= ?] _]; [done|apply ancestor_in_tree; [done|lia]..].
Qed.
End Loop.

Lemma decrypt_tree_secret_ok id a pk e sk sks :
  id_to_leaf_idx t !! id = Some (mkLeafNodeIndex a) -> a < p2 h -> usable t 0 a = Some pk ->
  has_root_key t = Ok true -> current_secret_encrypter_leaf_idx t = Some (mkLeafNodeIndex e) -> e < p2 h ->
  chain_from secrets h t e sk -> sks ⊆ secrets -> is_Some (sks !! pk) ->
  exists sks', decrypt_tree_secret t id sks = (Ok (ratchet_n_forward sk h), sks') /\
    sks ⊆ sks' /\ sks' ⊆ secrets.
Proof.
  intros Hid Ha Hpk Hrk Henc He Hchain Hsub Hsk. pose proof (sh_h _ _ Hs) as Hh.
  assert (exists l, leaves t !! N.to_nat a = Some (Some l) /\ ln_pk l = NKShareKey pk) as ([lid nk] & Hl & Hnk).
  { simpl in Hpk. destruct (leaves t !! N.to_nat a) as [[[lid [k|]]|]|]; try done. simplify_eq. eauto. }
  simpl in Hnk. subst nk.
  unfold decrypt_tree_secret, leaf_index_for_id, leaf, LeafNodeIndex_usize, liftR.
  rewrite Hid. cbn [ok_orR bindM]. rewrite Hrk. cbn [negb leaf_u32]. rewrite Hl.
  cbn [expectR expect ret bindM ln_pk]. rewrite Henc. destruct (decide (a = e)) as [<-|Hne].
  - rewrite decide_True by done. destruct Hsk as [sk' Hsk]. cbn [get bindM]. rewrite Hsk. cbn [ok_or ret bindM].
    rewrite (sh_size _ _ Hs).
    pose proof (direct_path_node_at h 0 a (in_tree_leaf h a ltac:(lia) Ha)) as Hd. cbn [node_at] in Hd. rewrite Hd.
    cbn [loop_result ret bindM]. rewrite path_from_length, Nat.sub_0_r. exists sks. split_and!; [|done..].
    destruct (Hchain 0%nat ltac:(lia)) as [Hu Hsec]. change (p2 0) with 1 in Hu. rewrite N.div_1_r in Hu.
    pose proof (lookup_weaken _ _ _ _ Hsk Hsub). cbn [ratchet_n_forward] in *.
    unfold ret. congruence.
  - rewrite decide_False by congruence. cbn [expect ret bindM].
    destruct (lowest_common_ancestor_leaves h a e ltac:(lia) Ha He Hne) as (m & Hm & Hlca & Hmeet & _).
    rewrite Hlca. cbn [loop_result ret bindM].
    pose proof (decrypt_loop_ok a Ha ltac:(eauto) e He sk Hchain m Hm Hmeet m 0 32 pk sks
      [Leaf (mkLeafNodeIndex a)] None) as Hloop.
    change (p2 0) with 1 in Hloop. rewrite N.div_1_r in Hloop.
    apply Hloop; (done || lia || eauto).
Qed.
End Decrypt.

(** The contract, read from the decrypting side. *)
Lemma sealed_tree_decrypts `{P : Primitives} {L : PrimitiveLaws P} (secrets : ShareKeyMap) h t e sk id sks :
  directory secrets -> sealed_tree secrets h t -> has_root_key t = Ok true ->
  current_secret_encrypter_leaf_idx t = Some (mkLeafNodeIndex e) -> chain_from secrets h t e sk ->
  holds_leaf_key secrets t id sks ->
  exists sks', decrypt_tree_secret t id sks = (Ok (ratchet_n_forward sk h), sks') /\ sks ⊆ sks' /\ sks' ⊆ secrets.
Proof.
  intros Hdir [Hwf Hl Hk Hc] Hrk He Hchain (Hsub & a & pk & Hid & Hpk & Hsk). pose proof (wf_is_core _ _ Hwf) as Hw.
  destruct (wf_encrypter _ _ Hwf _ He) as [eid Heid].
  pose proof (member_bound _ _ _ _ Hw Heid) as [_ Heb]. pose proof (member_bound _ _ _ _ Hw Hid) as [_ Ha].
  by eapply (decrypt_tree_secret_ok secrets Hdir h t (wf_shape _ _ Hw) (wf_stores _ _ Hw) Hk id a pk e sk).
Qed.
