(* ===== verification/PathEncrypt.v ===== *)
(** * Updating a path seals it for every member

    [encrypt_path] succeeds on every sealed tree, its result is sealed again,
    and the key it returns is the one every member decrypts. *)

From S2P Require Import Prelude TreeMath Crypto Keys SecretStore Tree TreeInv TreeOps PathCrypto PathSpec PathDecrypt.

Local Open Scope N_scope.

(** ** Stability of the contract *)

Lemma ancestor_div a j k : (j <= k)%nat -> a / p2 k = a / p2 j / p2 (k - j).
Proof.
  intros Hj. replace k with (j + (k - j))%nat at 1 by lia. rewrite p2_add.
  symmetry. apply N.Div0.div_div.
Qed.

Lemma sealed_for_ext `{P : Primitives} t t' k c child_sk secret m :
  (forall a j, a / p2 k = c -> (j <= k)%nat -> usable t' j (a / p2 j) = usable t j (a / p2 j)) ->
  sealed_for t k c child_sk secret m -> sealed_for t' k c child_sk secret m.
Proof.
  intros He Hf a pk Ha H0 Hpk.
  assert (top t' a k = top t a k) as Ht by (apply top_ext; auto). rewrite Ht in *.
  pose proof (top_le t a k). rewrite He in Hpk by done.
  apply Hf; try done. pose proof (He a 0%nat Ha ltac:(lia)) as H1.
  change (p2 0) with 1 in H1. rewrite N.div_1_r in H1. by rewrite <- H1.
Qed.

Section Encrypt.
Context `{P : Primitives} {L : PrimitiveLaws P}.

(** ** Sealing one node *)

Section OneNode.
Context (t : BeeKem) (child_idx : TreeNodeIndex) (child_sk secret : ShareSecretKey).
Context (Hlen : length (ShareSecretKey_bytes secret) = 32%nat).

Definition has_key (x : TreeNodeIndex) : Prop := exists pk, node_key_for_index x t = Ok (NKShareKey pk).

Definition sealed_at (m : gmap TreeNodeIndex EncryptedSecret) (x : TreeNodeIndex) : Prop :=
  exists e, m !! x = Some e /\ sealed child_sk secret e.

Definition sealed_to (m : gmap TreeNodeIndex EncryptedSecret) (x : TreeNodeIndex) : Prop :=
  exists e pk, node_key_for_index x t = Ok (NKShareKey pk) /\ m !! x = Some e /\
    es_paired_pk e = pk /\ sealed child_sk secret e.

Lemma seal_one x pk :
  node_key_for_index x t = Ok (NKShareKey pk) ->
  exists e, encrypt_secret (TreeId_bytes (bk_doc_id t)) secret child_sk pk = Ok e /\
    sealed child_sk secret e /\ forall m, sealed_to (<[x := e]> m) x.
Proof.
  intros Hx. destruct (encrypt_secret_ok (TreeId_bytes (bk_doc_id t)) secret child_sk pk Hlen) as (e & He & Hp & Hd).
  assert (sealed child_sk secret e) by (unfold sealed; by rewrite Hp).
  exists e. split_and!; [done..|]. intros m. exists e, pk. split_and!; try done. apply lookup_insert_eq.
Qed.

Lemma encrypt_rest_ok : forall res m,
  Forall has_key res ->
  exists m', encrypt_for_resolution t child_idx child_sk secret res true m = Ok m' /\
    (forall x, x ∈ res \/ sealed_to m x -> sealed_to m' x) /\ (sealed_at m child_idx -> sealed_at m' child_idx).
Proof.
  induction res as [|x res IH]; intros m Hall.
  - exists m. split_and!; [done| |done]. intros x [Hx|]; [by apply not_elem_of_nil in Hx|done].
  - inversion Hall as [|? ? [pk Hpk] Hall']; subst. destruct (seal_one x pk Hpk) as (e & He & Hse & Hto).
    cbn [encrypt_for_resolution]. rewrite Hpk. cbn [bindR]. rewrite He. cbn [bindR].
    destruct (IH (<[x := e]> m) Hall') as (m' & Hm' & Hto' & Hat').
    exists m'. split_and!; [done| |].
    + intros y Hy. apply Hto'. destruct (decide (y = x)) as [->|Hne]; [by right|].
      destruct Hy as [Hy|(e' & pk' & H1 & H2 & H3)]; [left; set_solver|right].
      exists e', pk'. by rewrite lookup_insert_ne.
    + intros (e' & H1 & H2). apply Hat'. destruct (decide (child_idx = x)) as [->|Hne].
      * exists e. by rewrite lookup_insert_eq.
      * exists e'. by rewrite lookup_insert_ne.
Qed.

Lemma encrypt_resolution_ok x res :
  Forall has_key (x :: res) ->
  exists m, encrypt_for_resolution t child_idx child_sk secret (x :: res) false ∅ = Ok m /\
    (forall y, y ∈ x :: res -> sealed_to m y) /\ sealed_at m child_idx.
Proof.
  intros Hall. inversion Hall as [|? ? [pk Hpk] Hall']; subst.
  destruct (seal_one x pk Hpk) as (e & He & Hse & Hto).
  cbn [encrypt_for_resolution]. rewrite Hpk. cbn [bindR]. rewrite He. cbn [bindR].
  destruct (encrypt_rest_ok res (<[x := e]> (<[child_idx := e]> ∅)) Hall') as (m & Hm & H1 & H2).
  exists m. split_and!; [done| |].
  - intros y [->|Hy]%elem_of_cons; apply H1; [by right|by left].
  - apply H2. exists e. split; [|done]. destruct (decide (x = child_idx)) as [->|Hne].
    + apply lookup_insert_eq.
    + rewrite lookup_insert_ne by done. apply lookup_insert_eq.
Qed.
End OneNode.

Lemma resolution_has_key t : forall k i, Forall (has_key t) (resolution t k i).
Proof.
  induction k as [|k IH]; intros i; cbn [resolution].
  - destruct (usable t 0 i) as [pk|] eqn:Hu; [|done]. apply Forall_singleton. exists pk.
    by apply (node_key_usable t 0).
  - destruct (usable t (S k) i) as [pk|] eqn:Hu; [|by apply Forall_app].
    apply Forall_singleton. exists pk. by apply node_key_usable.
Qed.

(** ** One step of the path *)

Section Path.
Context (h : nat) (e : N) (He : e < p2 h) (sk : ShareSecretKey).

Definition path_secret (j : nat) : ShareSecretKey := ratchet_n_forward sk j.
Definition path_key (j : nat) : ShareKey := share_key (path_secret j).

(** The store written at level [S k]. *)
Definition fresh_store (t : BeeKem) (k : nat) (s : SecretStore) : Prop :=
  exists m, s = SecretStore_new (path_key (S k)) (path_key k) m /\
    sealed_at (path_secret k) (path_secret (S k)) m (node_at k (e / p2 k)) /\
    sealed_for t k (N.lxor (e / p2 k) 1) (path_secret k) (path_secret (S k)) m.

Lemma new_store_ok t k r :
  shape h t -> stores_wf t -> leaves_single t -> (k < h)%nat ->
  exists s r', encrypt_new_secret_store_for_parent t (node_at k (e / p2 k)) (path_key k) (path_secret k)
      (path_key (S k)) (path_secret (S k)) r = (Ok s, r') /\ fresh_store t k s.
Proof.
  intros Hs Hw Hl Hk. pose proof (sh_h _ _ Hs) as Hh.
  pose proof (ancestor_in_tree h t Hs e k He ltac:(lia)) as Hin.
  assert (in_tree h k (N.lxor (e / p2 k) 1)) as Hin'.
  { pose proof (in_tree_parent _ _ _ Hin Hk) as Hp. destruct (child_cases (e / p2 k)) as [c Hc].
    rewrite Hc, lxor_1. apply in_tree_child; [done|by destruct c]. }
  unfold encrypt_new_secret_store_for_parent. rewrite (sibling_node_at h) by done.
  unfold liftR, bindM at 1. rewrite (append_resolution_eq h) by (done || lia). cbn [app].
  pose proof (resolution_has_key t k (N.lxor (e / p2 k) 1)) as Hkeys.
  assert (length (ShareSecretKey_bytes (path_secret (S k))) = 32%nat) as Hlen'.
  { unfold path_secret. rewrite ratchet_n_forward_S. apply ratchet_forward_32. }
  destruct (resolution t k (N.lxor (e / p2 k) 1)) as [|x res] eqn:Hres.
  - unfold bindM at 1 2, generate. destruct (ShareSecretKey_generate r) as [psk r'].
    destruct (encrypt_secret_ok (TreeId_bytes (bk_doc_id t)) (path_secret (S k)) (path_secret k) (share_key psk) Hlen')
      as (enc & Henc & Hp & Hd). cbn [bindM]. rewrite Henc. cbn [bindM ret].
    eexists _, r'. split; [done|]. eexists. split_and!; [done| |].
    + exists enc. split; [apply lookup_insert_eq|]. unfold sealed. by rewrite Hp.
    + intros a pk Ha H0 _. pose proof (top_in_resolution t a k H0) as Hx.
      rewrite Ha, Hres in Hx. by apply not_elem_of_nil in Hx.
  - destruct (encrypt_resolution_ok t (node_at k (e / p2 k)) (path_secret k) (path_secret (S k)) Hlen' x res Hkeys)
      as (m & Hm & Hto & Hat).
    unfold bindM. rewrite Hm. eexists _, r. split; [done|]. exists m. split_and!; [done..|].
    intros a pk Ha H0 Hpk. pose proof (top_in_resolution t a k H0) as Hx. rewrite Ha, Hres in Hx.
    destruct (Hto _ Hx) as (enc & pk' & H1 & H2 & H3 & H4).
    rewrite (node_key_usable _ _ _ _ Hpk) in H1. exists enc. by simplify_eq.
Qed.

Lemma encrypt_key_for_parent_ok t k r :
  shape h t -> stores_wf t -> leaves_single t -> (k < h)%nat ->
  exists s r', encrypt_key_for_parent (node_at k (e / p2 k)) (path_key k) (path_secret k)
      (path_key (S k)) (path_secret (S k)) (t, r) =
      (Ok tt, (set_inner_nodes (<[InnerNodeIndex_usize (inode k (e / p2 (S k))) := Some s]> (inner_nodes t)) t, r')) /\
    fresh_store t k s.
Proof.
  intros Hs Hw Hl Hk. destruct (new_store_ok t k r Hs Hw Hl Hk) as (s & r' & Hs' & Hf).
  exists s, r'. split; [|done]. unfold encrypt_key_for_parent.
  rewrite (parent_ancestor h t Hs) by done. step_gets. unfold bindM at 1, on_rng, zoom. simpl fst. simpl snd.
  rewrite Hs'. unfold on_tree, zoom, insert_inner_node_at. simpl. rewrite decide_True; [done|].
  rewrite (sh_inner _ _ Hs). apply inode_bound. by apply (ancestor_in_tree h t Hs).
Qed.

(** ** The loop *)

(** The two trees have the same usable keys off the path of leaf [e]. *)
Definition agree_off_path (t t' : BeeKem) : Prop :=
  forall j c, in_tree h j c -> c <> e / p2 j -> usable t' j c = usable t j c.

Lemma in_tree_below k c a j : in_tree h k c -> a / p2 k = c -> (j <= k)%nat -> in_tree h j (a / p2 j).
Proof.
  intros (Hh & Hk & Hc) Ha Hj. split_and!; [lia..|].
  rewrite (ancestor_div a j k Hj) in Ha. pose proof (p2_pos (k - j)).
  replace (h - j)%nat with ((k - j) + (h - k))%nat by lia. rewrite p2_add.
  destruct (N.lt_ge_cases (a / p2 j) (p2 (k - j) * p2 (h - k))) as [|Hge]; [done|exfalso].
  apply (N.Div0.div_le_mono _ _ (p2 (k - j))) in Hge. rewrite N.mul_comm, N.div_mul in Hge by lia. lia.
Qed.

Lemma sealed_for_agree t t' k c child_sk secret m :
  agree_off_path t t' -> in_tree h k c -> c <> e / p2 k ->
  sealed_for t k c child_sk secret m -> sealed_for t' k c child_sk secret m.
Proof.
  intros Hag Hin Hne. apply sealed_for_ext. intros a j Ha Hj. apply Hag.
  - by eapply in_tree_below.
  - intros Heq. apply Hne. rewrite <- Ha, (ancestor_div a j k Hj), (ancestor_div e j k Hj). by rewrite Heq.
Qed.

Lemma sibling_off_path t k :
  shape h t -> (k < h)%nat -> in_tree h k (N.lxor (e / p2 k) 1) /\ N.lxor (e / p2 k) 1 <> e / p2 k.
Proof.
  intros Hs Hk. pose proof (ancestor_in_tree h t Hs e k He ltac:(lia)) as Hin.
  pose proof (in_tree_parent _ _ _ Hin Hk) as Hp. destruct (child_cases (e / p2 k)) as [c Hc].
  generalize dependent (e / p2 k). intros x _ Hp Hx. generalize dependent (x / 2). intros y Hy ->.
  rewrite lxor_1. split; [apply in_tree_child; [done|by destruct c]|]. destruct c; simpl; lia.
Qed.

Lemma fresh_store_agree t t' k s :
  agree_off_path t t' -> shape h t -> (k < h)%nat -> fresh_store t k s -> fresh_store t' k s.
Proof.
  intros Hag Hs Hk (m & Hm & Hat & Hfor). exists m. split_and!; [done..|].
  destruct (sibling_off_path t k Hs Hk). by eapply sealed_for_agree.
Qed.

Definition write_node (k : nat) (s : SecretStore) (t : BeeKem) : BeeKem :=
  set_inner_nodes (<[InnerNodeIndex_usize (inode k (e / p2 (S k))) := Some s]> (inner_nodes t)) t.

Lemma store_at_write_eq t k s :
  shape h t -> (k < h)%nat -> store_at (write_node k s t) k (e / p2 (S k)) = Some s.
Proof.
  intros Hs Hk. unfold store_at. simpl. rewrite list_lookup_insert_eq; [done|].
  rewrite (sh_inner _ _ Hs). apply inode_bound. by apply (ancestor_in_tree h t Hs).
Qed.

Lemma store_at_write_ne t k s k' i :
  shape h t -> (k < h)%nat -> in_tree h (S k') i -> k' <> k \/ i <> e / p2 (S k) ->
  store_at (write_node k s t) k' i = store_at t k' i.
Proof.
  intros Hs Hk Hin Hne. unfold store_at. simpl. rewrite list_lookup_insert_ne; [done|].
  intros Heq. apply (inode_usize_inj h) in Heq as [<- <-]; [by destruct Hne|by apply (ancestor_in_tree h t Hs)|done].
Qed.

Lemma agree_write t k s : shape h t -> (k < h)%nat -> agree_off_path t (write_node k s t).
Proof.
  intros Hs Hk [|j] c Hin Hc; [done|]. cbn [usable]. rewrite store_at_write_ne; [done..|].
  destruct (decide (j = k)) as [->|]; [by right|by left].
Qed.

Lemma shape_write t k s : shape h t -> shape h (write_node k s t).
Proof. intros Hs. apply shape_set_inner_nodes; [done|]. apply length_insert. Qed.

Lemma stores_write t k s : stores_wf t -> store_wf s -> stores_wf (write_node k s t).
Proof. intros Hw Hsw. by apply Forall_insert. Qed.

Fixpoint write_all (k : nat) (stores : list SecretStore) (t : BeeKem) : BeeKem :=
  match stores with
  | [] => t
  | s :: rest => write_all (S k) rest (write_node k s t)
  end.

Fixpoint path_entries (k : nat) (stores : list SecretStore) : list (N * SecretStore) :=
  match stores with
  | [] => []
  | s :: rest => (inner_u32 (inode k (e / p2 (S k))), s) :: path_entries (S k) rest
  end.

Definition node_keys (t : BeeKem) (k : nat) : list ShareKey :=
  match store_at t k (e / p2 (S k)) with Some s => v_pk <$> versions s | None => [] end.

Fixpoint old_keys (n k : nat) (t : BeeKem) : list ShareKey :=
  match n with
  | O => []
  | S n' => node_keys t k ++ old_keys n' (S k) t
  end.

Lemma old_keys_write t s : forall n k k0,
  shape h t -> (k0 < k)%nat -> (k + n <= h)%nat -> old_keys n k (write_node k0 s t) = old_keys n k t.
Proof.
  induction n as [|n IH]; intros k k0 Hs Hk Hn; [done|]. cbn [old_keys]. rewrite IH by (done || lia).
  f_equal. unfold node_keys. rewrite store_at_write_ne; [done..|lia| |left; lia].
  apply (ancestor_in_tree h t Hs); [done|lia].
Qed.

Lemma fresh_store_wf t k s : fresh_store t k s -> store_wf s.
Proof. by intros (m & -> & _). Qed.

Lemma encrypt_path_loop_ok : forall n k fuel t r path removed,
  (k + n = h)%nat -> (n <= fuel)%nat -> shape h t -> stores_wf t -> leaves_single t ->
  exists stores r', length stores = n /\
    encrypt_path_loop fuel (node_at k (e / p2 k)) (path_key k) (path_secret k) path removed (t, r) =
      (Ok (path_secret h, path ++ path_entries k stores, removed ++ old_keys n k t), (write_all k stores t, r')) /\
    forall j s, stores !! j = Some s -> fresh_store t (k + j) s.
Proof.
  induction n as [|n IH]; intros k fuel t r path removed Hk Hf Hs Hw Hl.
  all: destruct fuel as [|fuel]; cbn [encrypt_path_loop]; try lia; step_gets; simpl fst;
    rewrite (is_root_ancestor h t Hs) by (done || lia).
  1, 2: exists [], r; replace k with h by lia; rewrite Nat.eqb_refl, !app_nil_r; done.
  rewrite (proj2 (Nat.eqb_neq k h)) by lia. rewrite (parent_ancestor h t Hs) by (done || lia).
  pose proof (ancestor_in_tree h t Hs e (S k) He ltac:(lia)) as Hin.
  assert (forall t', shape h t' -> on_tree (readM (inner_node (inode k (e / p2 (S k))))) (t', r) =
    (Ok (store_at t' k (e / p2 (S k))), (t', r))) as Hrd.
  { intros t' Hs'. unfold on_tree, zoom, readM, inner_node. simpl. by rewrite (store_at_lookup h). }
  step (Hrd t Hs).
  match goal with |- context [bindM ?m _ (t, r)] =>
    assert (m (t, r) = (Ok (node_keys t k), (t, r))) as Hrep end.
  { unfold node_keys. destruct (store_at t k (e / p2 (S k))) as [s0|] eqn:He0; [|done].
    destruct (store_node_key_keys s0) as (nk & Hnk & Hkeys); [by eapply store_at_wf|].
    rewrite Hnk. cbn [expect ret bindM]. by rewrite Hkeys. }
  step Hrep. clear Hrd Hrep.
  destruct (encrypt_key_for_parent_ok t k r Hs Hw Hl ltac:(lia)) as (s & r1 & Henc & Hfresh).
  assert (ratchet_forward (path_secret k) = path_secret (S k)) as Hrat by (symmetry; apply ratchet_n_forward_S).
  rewrite Hrat. fold (path_key (S k)). step Henc. fold (write_node k s t).
  pose proof (shape_write t k s Hs) as Hs1. pose proof (fresh_store_wf _ _ _ Hfresh) as Hsw.
  assert (on_tree (readM (inner_node (inode k (e / p2 (S k))))) (write_node k s t, r1) =
    (Ok (Some s), (write_node k s t, r1))) as Hrd.
  { unfold on_tree, zoom, readM, inner_node. simpl fst. rewrite (store_at_lookup h) by done.
    by rewrite store_at_write_eq by (done || lia). }
  step Hrd. cbn [expect]. rewrite (bindM_ok (ret s) _ _ s _ eq_refl).
  destruct (IH (S k) fuel (write_node k s t) r1 (path ++ [(inner_u32 (inode k (e / p2 (S k))), s)])
    (removed ++ node_keys t k)) as (stores & r' & Hlen' & Hloop & Hall);
    [lia..|done|by apply stores_write|done|].
  exists (s :: stores), r'. split; [simpl; lia|]. split.
  - cbn [path_entries old_keys write_all]. rewrite old_keys_write in Hloop by (done || lia).
    rewrite <- !(assoc_L (++)) in Hloop. exact Hloop.
  - intros [|j] s' Hj; simpl in Hj.
    + simplify_eq. by rewrite Nat.add_0_r.
    + rewrite Nat.add_succ_r. apply (fresh_store_agree (write_node k s t)); [|done| |by apply Hall].
      * intros j' c Hin' Hc. symmetry. by apply agree_write; (done || lia).
      * apply lookup_lt_Some in Hj. lia.
Qed.

(** ** The tree after the loop *)

Lemma write_all_ok : forall stores k t,
  shape h t -> (k + length stores = h)%nat -> stores_wf t -> Forall store_wf stores ->
  let t' := write_all k stores t in
  shape h t' /\ stores_wf t' /\ leaves t' = leaves t /\ id_to_leaf_idx t' = id_to_leaf_idx t /\
  next_leaf_idx t' = next_leaf_idx t /\ agree_off_path t t' /\
  (forall j s, stores !! j = Some s -> store_at t' (k + j) (e / p2 (S (k + j))) = Some s) /\
  (forall k' i, in_tree h (S k') i -> (k' < k)%nat \/ i <> e / p2 (S k') -> store_at t' k' i = store_at t k' i).
Proof.
  induction stores as [|s stores IH]; intros k t Hs Hk Hw Hall t'.
  { by split_and!. }
  inversion Hall as [|? ? Hsw Hall']; subst. simpl in Hk.
  destruct (IH (S k) (write_node k s t) (shape_write t k s Hs) ltac:(lia) (stores_write t k s Hw Hsw) Hall')
    as (H1 & H2 & H3 & H4 & H5 & H6 & H7 & H8).
  split_and!; try done.
  - intros j c Hin Hc. rewrite H6 by done. by apply agree_write; (done || lia).
  - intros [|j] s' Hj; simpl in Hj.
    + simplify_eq. rewrite Nat.add_0_r. rewrite H8; [|apply (ancestor_in_tree h t Hs); [done|lia]|left; lia].
      apply store_at_write_eq; [done|lia].
    + rewrite Nat.add_succ_r. by apply (H7 j).
  - intros k' i Hin Hor. rewrite H8; [|done|destruct Hor; [left; lia|by right]].
    apply store_at_write_ne; [done|lia|done|]. destruct (decide (k' = k)) as [->|]; [right|by left].
    destruct Hor; [lia|done].
Qed.

(** The tree [encrypt_path] leaves behind. *)
Definition updated (id : MemberId) (stores : list SecretStore) (t : BeeKem) : BeeKem :=
  set_encrypter (Some (mkLeafNodeIndex e))
    (write_all 0 stores (rekey_leaf e id (NKShareKey (path_key 0)) t)).

Lemma agree_rekey t id : shape h t -> agree_off_path t (rekey_leaf e id (NKShareKey (path_key 0)) t).
Proof.
  intros Hs [|j] c Hin Hc; [|done]. cbn [usable]. simpl leaves.
  change (p2 0) with 1 in Hc. rewrite N.div_1_r in Hc. by rewrite list_lookup_insert_ne by lia.
Qed.

Lemma leaves_single_rekey t id : leaves_single t -> leaves_single (rekey_leaf e id (NKShareKey (path_key 0)) t).
Proof.
  intros Hl j l. simpl. destruct (decide (j = N.to_nat e)) as [->|Hne].
  - intros [(_ & [= <-] & _)|(Hne & _)]%list_lookup_insert_Some; [eauto|done].
  - rewrite list_lookup_insert_ne by done. apply Hl.
Qed.

Lemma updated_usable id stores t :
  shape h t -> stores_wf t -> length stores = h -> (forall j s, stores !! j = Some s -> fresh_store t j s) ->
  forall j, (j <= h)%nat -> usable (updated id stores t) j (e / p2 j) = Some (path_key j).
Proof.
  intros Hs Hw Hlen' Hfresh j Hj. set (t1 := rekey_leaf e id (NKShareKey (path_key 0)) t).
  assert (shape h t1) as Hs1 by solve_shape.
  assert (Forall store_wf stores) as Hall.
  { apply Forall_lookup. intros i s Hi. by eapply fresh_store_wf, Hfresh. }
  destruct (write_all_ok stores 0 t1 Hs1 Hlen' Hw Hall) as (_ & _ & Hl & _ & _ & _ & Hst & _).
  destruct j as [|j]; cbn [usable].
  - change (p2 0) with 1. rewrite N.div_1_r. unfold updated. simpl leaves. fold t1. rewrite Hl. simpl.
    rewrite list_lookup_insert_eq; [done|]. rewrite (sh_leaves _ _ Hs). lia.
  - destruct (lookup_lt_is_Some_2 stores j) as [s Hj']; [lia|].
    pose proof (Hst j s Hj') as Hj1. simpl in Hj1.
    unfold updated. fold t1. unfold store_at in *. simpl inner_nodes. rewrite Hj1.
    by destruct (Hfresh j s Hj') as (m & -> & _).
Qed.

Lemma updated_agree id stores t :
  shape h t -> stores_wf t -> length stores = h -> Forall store_wf stores ->
  agree_off_path t (updated id stores t) /\
  (forall k i, in_tree h (S k) i -> i <> e / p2 (S k) -> store_at (updated id stores t) k i = store_at t k i).
Proof.
  intros Hs Hw Hlen' Hall. set (t1 := rekey_leaf e id (NKShareKey (path_key 0)) t).
  assert (shape h t1) as Hs1 by solve_shape.
  destruct (write_all_ok stores 0 t1 Hs1 Hlen' Hw Hall) as (_ & _ & _ & _ & _ & Hag & _ & Hst).
  split.
  - intros j c Hin Hc. transitivity (usable t1 j c); [exact (Hag j c Hin Hc)|exact (agree_rekey t id Hs j c Hin Hc)].
  - intros k i Hin Hi. pose proof (Hst k i Hin (or_intror Hi)) as H1. exact H1.
Qed.

(** Nodes off the path stay sealed. *)
Lemma sealed_off_path (secrets : ShareKeyMap) t t' k i v :
  agree_off_path t t' -> keyed secrets h t -> in_tree h (S k) i -> i <> e / p2 (S k) ->
  store_at t k i = Some (mkSecretStore [v]) -> exists c, c / 2 = i /\ sealed_from secrets t' k c v.
Proof.
  intros Hag Hkeyed Hin Hne Hv.
  destruct (Hkeyed k i v Hin Hv) as (c & Hc & secret & child_sk & H1 & H2 & H3 & H4 & H5).
  exists c. split; [done|]. exists secret, child_sk.
  assert (forall x, x / 2 = i -> in_tree h k x /\ x <> e / p2 k) as Hoff.
  { intros x Hx. split.
    - destruct (child_cases x) as [b ->]. rewrite Hx. apply in_tree_child; [done|by destruct b].
    - intros ->. apply Hne. by rewrite <- Hx, <- div_p2_S. }
  split_and!; try done.
  - destruct (Hoff c Hc). by rewrite Hag.
  - destruct (Hoff (N.lxor c 1)) as [Ho1 Ho2]; [|by eapply sealed_for_agree].
    destruct (child_cases c) as [b Hb]. rewrite Hc in Hb. rewrite Hb, lxor_1.
    rewrite N.add_comm, (N.mul_comm 2), N.div_add by lia. by destruct b.
Qed.

Lemma updated_keyed (secrets : ShareKeyMap) id stores t :
  (forall j, (j <= h)%nat -> secrets !! path_key j = Some (path_secret j)) -> shape h t -> stores_wf t -> length stores = h -> (forall j s, stores !! j = Some s -> fresh_store t j s) ->
  keyed secrets h t -> keyed secrets h (updated id stores t).
Proof.
  intros Hhonest Hs Hw Hlen' Hfresh Hkeyed k i v Hin Hv.
  assert (Forall store_wf stores) as Hall.
  { apply Forall_lookup. intros j s Hi. by eapply fresh_store_wf, Hfresh. }
  destruct (updated_agree id stores t Hs Hw Hlen' Hall) as [Hag Hst].
  pose proof Hin as (_ & Hk & _). destruct (decide (i = e / p2 (S k))) as [->|Hne].
  - exists (e / p2 k). split; [by rewrite <- div_p2_S|].
    destruct (lookup_lt_is_Some_2 stores k) as [s Hj]; [lia|].
    destruct (Hfresh k s Hj) as (m & -> & Hat & Hfor).
    pose proof (updated_usable id stores t Hs Hw Hlen' Hfresh) as Hu.
    assert (v = mkVersion (path_key (S k)) m (path_key k)) as ->.
    { set (t1 := rekey_leaf e id (NKShareKey (path_key 0)) t).
      assert (shape h t1) as Hs1 by solve_shape.
      destruct (write_all_ok stores 0 t1 Hs1 Hlen' Hw Hall) as (_ & _ & _ & _ & _ & _ & Hst' & _).
      pose proof (Hst' k _ Hj) as H1. unfold updated in Hv. fold t1 in Hv. unfold store_at in *.
      simpl in *. rewrite H1 in Hv. by injection Hv. }
    exists (path_secret (S k)), (path_secret k). simpl. split_and!; [by apply Hhonest; lia..| | |].
    + apply Hu. lia.
    + done.
    + destruct (sibling_off_path t k Hs ltac:(lia)). by eapply sealed_for_agree.
  - rewrite Hst in Hv by done. by eapply sealed_off_path.
Qed.

(** ** The whole update *)

Lemma updated_wf id stores t :
  wf_core h t -> id_to_leaf_idx t !! id = Some (mkLeafNodeIndex e) -> length stores = h ->
  (forall j s, stores !! j = Some s -> fresh_store t j s) ->
  wf h (updated id stores t) /\ has_root_key (updated id stores t) = Ok true.
Proof.
  intros Hw Hid Hlen' Hfresh. pose proof (wf_shape _ _ Hw) as Hs. pose proof (sh_h _ _ Hs) as Hh.
  assert (Forall store_wf stores) as Hall.
  { apply Forall_lookup. intros j s Hi. by eapply fresh_store_wf, Hfresh. }
  pose proof (wf_core_rekey h t id e (NKShareKey (path_key 0)) Hw Hid) as Hw1.
  set (t1 := rekey_leaf e id (NKShareKey (path_key 0)) t) in *.
  destruct (write_all_ok stores 0 t1 (wf_shape _ _ Hw1) Hlen' (wf_stores _ _ Hw1) Hall)
    as (H1 & H2 & H3 & H4 & H5 & _).
  assert (wf_core h (write_all 0 stores t1)) as Hw2.
  { destruct Hw1. constructor; rewrite ?H3, ?H4, ?H5; done. }
  assert (has_root_key (write_all 0 stores t1) = Ok true) as Hrk.
  { destruct (has_root_key_spec h _ H1) as (o & Ho & ->).
    pose proof (updated_usable id stores t Hs (wf_stores _ _ Hw) Hlen' Hfresh h ltac:(lia)) as Hu.
    rewrite N.div_small in Hu by done. destruct h as [|h']; [lia|].
    apply usable_store in Hu as (v & Hv & _). unfold root_usize in Ho. rewrite Nat.sub_succ, Nat.sub_0_r in Ho.
    unfold store_at, updated in Hv. fold t1 in Hv. simpl inner_nodes in Hv. rewrite Ho in Hv. by subst o. }
  split; [|exact Hrk]. apply (wf_set_encrypter h _ (mkLeafNodeIndex e) id Hw2 ltac:(by rewrite H4) true Hrk).
Qed.

Lemma old_keys_rekey id nk t : forall n k, old_keys n k (rekey_leaf e id nk t) = old_keys n k t.
Proof. induction n as [|n IH]; intros k; [done|]. cbn [old_keys]. by rewrite IH. Qed.

Lemma encrypt_path_eq id sks t r old :
  wf_core h t -> leaves_single t -> id_to_leaf_idx t !! id = Some (mkLeafNodeIndex e) ->
  leaves t !! N.to_nat e = Some (Some (mkLeafNode id old)) -> sks !! path_key 0 = Some sk ->
  exists stores r', length stores = h /\ (forall j s, stores !! j = Some s -> fresh_store t j s) /\
    encrypt_path id (path_key 0) sks (t, r) =
      (Ok (Some (mkPcsKey (path_secret h),
                 mkPathChange id e (NKShareKey (path_key 0)) (path_entries 0 stores) (NodeKey_keys old ++ old_keys h 0 t))),
       (updated id stores t, r')).
Proof.
  intros Hw Hl Hid Hold Hsk. pose proof (wf_shape _ _ Hw) as Hs. pose proof (sh_h _ _ Hs) as Hh.
  pose proof (wf_core_rekey h t id e (NKShareKey (path_key 0)) Hw Hid) as Hw1.
  set (t1 := rekey_leaf e id (NKShareKey (path_key 0)) t) in *.
  destruct (encrypt_path_loop_ok h 0 32 t1 r [] (NodeKey_keys old) ltac:(lia) ltac:(lia)
    (wf_shape _ _ Hw1) (wf_stores _ _ Hw1) (leaves_single_rekey t id Hl)) as (stores & r' & Hlen' & Hloop & Hfresh).
  change (p2 0) with 1 in Hloop. rewrite N.div_1_r in Hloop.
  exists stores, r'. split_and!; [done| |].
  - intros j s Hj. apply (fresh_store_agree t1); [|by apply Hw1| |by apply (Hfresh j)].
    + intros j' c Hin Hc. symmetry. by apply agree_rekey.
    + apply lookup_lt_Some in Hj. lia.
  - assert (on_tree (readM (leaf_index_for_id id)) (t, r) = (Ok (mkLeafNodeIndex e), (t, r))) as E1.
    { unfold on_tree, zoom, readM, leaf_index_for_id. simpl. by rewrite Hid. }
    assert (on_tree (readM (node_key_for_id id)) (t, r) = (Ok old, (t, r))) as E2.
    { unfold on_tree, zoom, readM. simpl. by rewrite (node_key_for_id_leaf t id (mkLeafNodeIndex e) old). }
    assert (on_tree (insert_leaf_at (mkLeafNodeIndex e) id (NKShareKey (path_key 0))) (t, r) = (Ok tt, (t1, r))) as E3.
    { unfold on_tree, zoom. simpl fst. by rewrite (insert_leaf_at_ok h). }
    unfold encrypt_path. step E1. step E2. step E3. rewrite Hsk. cbn [ok_or].
    rewrite (bindM_ok (ret sk) _ _ sk _ eq_refl). step Hloop.
    by rewrite <- (old_keys_rekey id (NKShareKey (path_key 0)) t h 0).
Qed.

(** ** A replica that applies the change *)

Lemma merged_inner_write t k s removed :
  (forall x, x ∈ node_keys t k -> x ∈ removed) -> shape h t -> (k < h)%nat ->
  merged_inner removed (inner_u32 (inode k (e / p2 (S k))), s) (inner_nodes t) = inner_nodes (write_node k s t).
Proof.
  intros Hsub Hs Hk. unfold merged_inner, write_node. cbn [fst snd inner_nodes set_inner_nodes].
  change (N.to_nat (inner_u32 ?x)) with (InnerNodeIndex_usize x).
  rewrite (store_at_lookup h) by (done || by apply (ancestor_in_tree h t Hs)). cbn [default from_option id]. unfold merged_store, node_keys in *.
  destruct (store_at t k (e / p2 (S k))) as [c|]; [|done]. do 2 f_equal. destruct s as [vs].
  unfold SecretStore_merge. rewrite remove_keys_versions, list_filter_none; [done|].
  apply Forall_forall. intros v Hv Hn. apply Hn, Hsub, list_elem_of_fmap. eauto.
Qed.

Lemma merge_entries_write removed : forall stores k t,
  shape h t -> (k + length stores <= h)%nat ->
  (forall x, x ∈ old_keys (length stores) k t -> x ∈ removed) ->
  foldl (fun l en => merged_inner removed en l) (inner_nodes t) (path_entries k stores) =
    inner_nodes (write_all k stores t).
Proof.
  induction stores as [|s stores IH]; intros k t Hs Hk Hsub; [done|]. simpl in Hk, Hsub.
  cbn [path_entries foldl write_all]. rewrite merged_inner_write; [|set_solver|done|lia].
  apply IH; [by apply shape_write|lia|]. rewrite old_keys_write by (done || lia). set_solver.
Qed.

Lemma path_entries_fit t : forall stores k,
  shape h t -> (k + length stores <= h)%nat -> Forall store_wf stores ->
  Forall (fun en => en.1 < p2 h - 1 /\ store_wf en.2) (path_entries k stores) /\
  length (path_entries k stores) = length stores.
Proof.
  induction stores as [|s stores IH]; intros k Hs Hk Hall; [done|].
  inversion Hall; subst. simpl in Hk. destruct (IH (S k) Hs ltac:(lia)) as [H1' H2']; [done|].
  cbn [path_entries length]. split; [|by rewrite H2']. constructor; [|done]. cbn [fst snd]. split; [|done].
  pose proof (inode_bound h k (e / p2 (S k)) ltac:(apply (ancestor_in_tree h t Hs); [done|lia])) as Hb.
  unfold InnerNodeIndex_usize in Hb. lia.
Qed.

Lemma write_all_frame : forall stores k t,
  write_all k stores t = set_inner_nodes (inner_nodes (write_all k stores t)) t.
Proof.
  induction stores as [|s stores IH]; intros k t; cbn [write_all]; [by destruct t|]. by rewrite IH at 1.
Qed.

Lemma leaves_single_updated id stores t : leaves_single t -> leaves_single (updated id stores t).
Proof.
  intros Hl. unfold updated. rewrite write_all_frame. exact (leaves_single_rekey t id Hl).
Qed.

Lemma apply_change_eq id stores t old :
  wf_core h t -> id_to_leaf_idx t !! id = Some (mkLeafNodeIndex e) ->
  leaves t !! N.to_nat e = Some (Some (mkLeafNode id old)) -> length stores = h ->
  (forall j s, stores !! j = Some s -> fresh_store t j s) ->
  apply_path (mkPathChange id e (NKShareKey (path_key 0)) (path_entries 0 stores)
    (NodeKey_keys old ++ old_keys h 0 t)) t = (Ok tt, updated id stores t).
Proof.
  intros Hw Hid Hold Hlen' Hfresh. pose proof (wf_shape _ _ Hw) as Hs. pose proof (sh_h _ _ Hs) as Hh.
  assert (Forall store_wf stores) as Hall.
  { apply Forall_lookup. intros j s Hi. by eapply fresh_store_wf, Hfresh. }
  destruct (path_entries_fit t stores 0 Hs ltac:(lia) Hall) as [Hfit Hlen2].
  set (p := mkPathChange _ _ _ _ _).
  destruct (apply_path_eq h t p e Hw (conj He Hfit) Hid) as (old' & nk & H1 & H2 & H3 & _).
  simpl pc_leaf_id in H1. assert (old' = old) as -> by congruence. rewrite H3. f_equal.
  assert (nk = NKShareKey (path_key 0)) as ->.
  { destruct (NodeKey_merge_keys old (pc_leaf_pk p) (pc_removed_keys p)) as (nk' & Hm & Hk).
    assert (nk' = nk) as -> by congruence. rewrite list_filter_none in Hk.
    - simpl in Hk. apply NodeKey_keys_inj. simpl. by apply Permutation_singleton_r in Hk.
    - apply Forall_forall. intros x Hx Hn. apply Hn. simpl. set_solver. }
  destruct (updated_wf id stores t Hw Hid Hlen' Hfresh) as [_ Hrk].
  unfold applied, updated in *. simpl pc_path. simpl pc_leaf_id. simpl pc_leaf_idx. simpl pc_removed_keys.
  rewrite Hlen2, Hlen', Nat.eqb_refl, N.eqb_refl. cbn [andb].
  pose proof (merge_entries_write (list_to_set (NodeKey_keys old ++ old_keys h 0 t)) stores 0
    (rekey_leaf e id (NKShareKey (path_key 0)) t)) as Hm.
  simpl inner_nodes in Hm at 1. rewrite Hm; [|solve_shape|lia|].
  - rewrite <- write_all_frame.
    change (has_root_key (set_encrypter _ ?t')) with (has_root_key t') in Hrk. by rewrite Hrk.
  - rewrite old_keys_rekey, Hlen'. intros x Hx. apply elem_of_list_to_set. set_solver.
Qed.

End Path.
End Encrypt.

(** ** Summary *)

(** Everything an update of member [id] in a sealed tree achieves. *)
Lemma update_sealed `{P : Primitives} {L : PrimitiveLaws P} (secrets : ShareKeyMap) h t r id e sk sks :
  sealed_tree secrets h t ->
  id_to_leaf_idx t !! id = Some (mkLeafNodeIndex e) -> sks !! share_key sk = Some sk ->
  (forall j, (j <= h)%nat -> secrets !! share_key (ratchet_n_forward sk j) = Some (ratchet_n_forward sk j)) ->
  exists change t' r', encrypt_path id (share_key sk) sks (t, r) =
      (Ok (Some (mkPcsKey (ratchet_n_forward sk h), change)), (t', r')) /\
    apply_path change t = (Ok tt, t') /\ sealed_tree secrets h t' /\ has_root_key t' = Ok true /\
    current_secret_encrypter_leaf_idx t' = Some (mkLeafNodeIndex e) /\ chain_from secrets h t' e sk.
Proof.
  intros [Hwf Hl Hk _] Hid Hsk Hhon. pose proof (wf_is_core _ _ Hwf) as Hw.
  pose proof (member_bound _ _ _ _ Hw Hid) as [_ He]. simpl in He.
  pose proof (proj1 (wf_ids _ _ Hw _ _) Hid) as [old Hold]. unfold LeafNodeIndex_usize in Hold. simpl in Hold.
  destruct (encrypt_path_eq h e He sk id sks t r old Hw Hl Hid Hold Hsk) as (stores & r' & Hlen' & Hfresh & Henc).
  destruct (updated_wf h e He sk id stores t Hw Hid Hlen' Hfresh) as [Hwf' Hrk].
  pose proof (updated_usable h e He sk id stores t (wf_shape _ _ Hw) (wf_stores _ _ Hw) Hlen' Hfresh) as Hu.
  assert (chain_from secrets h (updated e sk id stores t) e sk) as Hchain by (split; [by apply Hu|by apply Hhon]).
  eexists _, _, r'. split; [exact Henc|]. split_and!; try done.
  - by apply (apply_change_eq h e He sk).
  - constructor; [done|by apply leaves_single_updated| |].
    + apply (updated_keyed h e He sk); [done|apply Hw|apply Hw|done..].
    + intros l [= <-]. eauto.
Qed.

(** What a successful update did: the path change it returns reproduces it. *)
Lemma encrypt_path_inv `{P : Primitives} {L : PrimitiveLaws P} h t r id sk sks o t' r' :
  wf h t -> leaves_single t -> sks !! share_key sk = Some sk ->
  encrypt_path id (share_key sk) sks (t, r) = (Ok o, (t', r')) ->
  exists pcs change, o = Some (pcs, change) /\ apply_path change t = (Ok tt, t').
Proof.
  intros Hwf Hl Hsk Hrun. pose proof (wf_is_core _ _ Hwf) as Hw.
  destruct (id_to_leaf_idx t !! id) as [[e]|] eqn:Hid.
  - pose proof (member_bound _ _ _ _ Hw Hid) as [_ He]. simpl in He.
    pose proof (proj1 (wf_ids _ _ Hw _ _) Hid) as [old Hold]. unfold LeafNodeIndex_usize in Hold. simpl in Hold.
    destruct (encrypt_path_eq h e He sk id sks t r old Hw Hl Hid Hold Hsk) as (stores & r0 & Hlen' & Hfresh & Henc).
    change (share_key sk) with (path_key sk 0) in Hrun. rewrite Henc in Hrun.
    pose proof (f_equal fst Hrun) as Ho. pose proof (f_equal (fun x => fst (snd x)) Hrun) as Ht. cbn [fst snd] in Ho, Ht.
    injection Ho as <-. rewrite <- Ht. eexists _, _. split; [reflexivity|]. by apply (apply_change_eq h e He sk).
  - unfold encrypt_path in Hrun. apply bindM_inv in Hrun as (l & s1 & H1 & _).
    unfold on_tree, zoom, readM, leaf_index_for_id in H1. cbn [fst snd] in H1. by rewrite Hid in H1.
Qed.

(** ** Properties *)

(** C4. Updating a path establishes a new shared secret.  In a sealed tree, a
    member that rotates to a key whose ratchet chain is honest gets a root
    secret and a path change; the tree stays sealed and has a root key, and
    every member that holds its own leaf secret decrypts exactly the root
    secret the updater got. *)
Theorem update_agreement `{P : Primitives} {L : PrimitiveLaws P} (secrets : ShareKeyMap) h t r id e sk sks :
  directory secrets -> sealed_tree secrets h t ->
  id_to_leaf_idx t !! id = Some (mkLeafNodeIndex e) -> sks !! share_key sk = Some sk ->
  (forall j, (j <= h)%nat -> secrets !! share_key (ratchet_n_forward sk j) = Some (ratchet_n_forward sk j)) ->
  exists pcs change t' r', encrypt_path id (share_key sk) sks (t, r) = (Ok (Some (pcs, change)), (t', r')) /\
    sealed_tree secrets h t' /\ has_root_key t' = Ok true /\
    forall id' sks', holds_leaf_key secrets t' id' sks' ->
      exists sks'', decrypt_tree_secret t' id' sks' = (Ok (pcs_secret pcs), sks'').
Proof.
  intros Hdir Hst Hid Hsk Hhon.
  destruct (update_sealed secrets h t r id e sk sks Hst Hid Hsk Hhon)
    as (change & t' & r' & Henc & _ & Hst' & Hrk & He & Hchain).
  eexists _, change, t', r'. split; [exact Henc|]. split_and!; [done..|].
  intros id' sks' Hholds. destruct (sealed_tree_decrypts secrets h t' e sk id' sks') as (sks'' & Hdec & _); eauto.
Qed.

(** A replica in the state the update was made in ends, after applying the
    path change, in exactly the updater's tree. *)
Theorem update_replicates `{P : Primitives} {L : PrimitiveLaws P} h t r id e sk sks :
  wf h t -> leaves_single t ->
  id_to_leaf_idx t !! id = Some (mkLeafNodeIndex e) -> sks !! share_key sk = Some sk ->
  exists pcs change t' r', encrypt_path id (share_key sk) sks (t, r) = (Ok (Some (pcs, change)), (t', r')) /\
    pcs_secret pcs = ratchet_n_forward sk h /\ apply_path change t = (Ok tt, t').
Proof.
  intros Hwf Hl Hid Hsk. pose proof (wf_is_core _ _ Hwf) as Hw.
  pose proof (member_bound _ _ _ _ Hw Hid) as [_ He]. simpl in He.
  pose proof (proj1 (wf_ids _ _ Hw _ _) Hid) as [old Hold]. unfold LeafNodeIndex_usize in Hold. simpl in Hold.
  destruct (encrypt_path_eq h e He sk id sks t r old Hw Hl Hid Hold Hsk) as (stores & r' & Hlen' & Hfresh & Henc).
  eexists _, _, _, r'. split; [exact Henc|]. split; [done|].
  by apply (apply_change_eq h e He sk).
Qed.
