(* ===== verification/TreeHistory.v ===== *)
(** * Histories of a BeeKEM tree

    Trees reachable by creating a group, adding and removing members and
    updating paths, one after the other, are sealed; so whenever such a tree has
    a root key its members agree on it. *)

From S2P Require Import Prelude TreeMath Crypto Keys SecretStore Tree TreeInv TreeOps PathCrypto PathSpec PathDecrypt.
From S2P Require Import PathEncrypt.

Local Open Scope N_scope.

(** ** Blanking a path *)

Lemma path_from_inode h b k i :
  (h <= 30)%nat -> b < p2 h -> in_tree h (S k) i ->
  inode k i ∈ path_from h 0 b <-> i = b / p2 (S k).
Proof.
  intros Hh Hb Hin. pose proof Hin as (_ & Hk & _). split.
  - intros [m Hm]%list_elem_of_lookup. pose proof (lookup_lt_Some _ _ _ Hm) as Hlt. rewrite path_from_length in Hlt.
    rewrite path_from_lookup in Hm by done. simpl in Hm.
    assert (node_at (S k) i = node_at (S m) (b / p2 (S m))) as Heq by (simpl; congruence).
    apply (node_at_inj h) in Heq as [[= ->] ->]; [done..|].
    apply (in_tree_ancestor h 0 b (S m)); [by apply in_tree_leaf|lia].
  - intros ->. apply list_elem_of_lookup. exists k. rewrite path_from_lookup by lia. done.
Qed.

Lemma store_at_blank h t t' b k i :
  shape h t -> b < p2 h -> in_tree h (S k) i ->
  inner_nodes t' = blank_nodes (path_from h 0 b) (inner_nodes t) ->
  store_at t' k i = if decide (i = b / p2 (S k)) then None else store_at t k i.
Proof.
  intros Hs Hb Hin He. pose proof (sh_h _ _ Hs) as Hh. unfold store_at. rewrite He, blank_nodes_lookup.
  pose proof (path_from_inode h b k i ltac:(lia) Hb Hin) as Hiff.
  destruct (decide (i = b / p2 (S k))) as [Hi|Hi].
  - rewrite decide_True by (apply list_elem_of_fmap_2; by apply Hiff).
    by destruct (inner_nodes t !! _).
  - rewrite decide_False; [done|]. intros (x & Hx & Hxin)%list_elem_of_fmap.
    pose proof Hxin as [m Hm]%list_elem_of_lookup. pose proof (lookup_lt_Some _ _ _ Hm) as Hlt.
    rewrite path_from_length in Hlt. rewrite path_from_lookup in Hm by done. simplify_eq. simpl in Hx.
    apply (inode_usize_inj h) in Hx as [-> ->]; [|done|].
    + done.
    + apply (in_tree_ancestor h 0 b (S m)); [apply in_tree_leaf; [lia|done]|lia].
Qed.

Section History.
Context `{P : Primitives} {L : PrimitiveLaws P}.
Context (secrets : ShareKeyMap).

Lemma keyed_blank h t t' b :
  shape h t -> b < p2 h -> keyed secrets h t ->
  inner_nodes t' = blank_nodes (path_from h 0 b) (inner_nodes t) ->
  (forall j, j <> N.to_nat b -> leaves t' !! j = leaves t !! j) ->
  keyed secrets h t'.
Proof.
  intros Hs Hb Hk Hin Hl k i v Hti Hv. rewrite (store_at_blank h t t' b) in Hv by done.
  case_decide as Hi; [done|].
  apply (sealed_off_path h b Hb secrets t t' k i v); try done.
  intros [|j] c Hjc Hc; cbn [usable].
  - change (p2 0) with 1 in Hc. rewrite N.div_1_r in Hc. by rewrite Hl by lia.
  - rewrite (store_at_blank h t t' b) by done. by rewrite decide_False.
Qed.

Lemma keyed_blanks h t bs : forall t',
  shape h t -> Forall (fun b => b < p2 h) bs -> keyed secrets h t ->
  inner_nodes t' = foldl (fun l b => blank_nodes (path_from h 0 b) l) (inner_nodes t) bs ->
  leaves t' = leaves t -> keyed secrets h t'.
Proof.
  induction bs as [|b bs IH] using rev_ind; intros t' Hs Hbs Hk Hin Hl.
  - simpl in Hin. intros k i v Hti. unfold store_at. rewrite Hin. intros Hv.
    destruct (Hk k i v Hti Hv) as (c & Hc & secret & csk & H1 & H2 & H3 & H4 & H5).
    assert (forall j x, usable t' j x = usable t j x) as Hu.
    { intros [|j] x; cbn [usable]; unfold store_at; by rewrite ?Hl, ?Hin. }
    exists c. split; [done|]. exists secret, csk. rewrite Hu. split_and!; try done.
    eapply sealed_for_ext; [|done]. intros; apply Hu.
  - apply Forall_app in Hbs as [Hbs Hb]. inversion Hb; subst.
    set (t1 := set_inner_nodes (foldl (fun l b => blank_nodes (path_from h 0 b) l) (inner_nodes t) bs) t).
    apply (keyed_blank h t1 t' b); try done.
    + apply shape_set_inner_nodes; [done|]. clear. induction bs as [|b bs IH] using rev_ind; [done|].
      by rewrite foldl_app; simpl; rewrite blank_nodes_length.
    + by apply IH.
    + rewrite Hin, foldl_app. done.
    + intros j _. by rewrite Hl.
Qed.

(** ** Growing *)

Lemma resize_default {A} n (l : list (option A)) j :
  (length l <= n)%nat ->
  match resize n None l !! j with Some o => o | None => None end =
  match l !! j with Some o => o | None => None end.
Proof.
  intros Hl. rewrite resize_extend by done. destruct (decide (j < length l)%nat).
  - by rewrite lookup_app_l.
  - rewrite lookup_app_r, (proj2 (lookup_ge_None l j)) by lia.
    destruct (replicate _ None !! _) eqn:Hr; [|done]. by apply lookup_replicate in Hr as [-> _].
Qed.

Lemma usable_grow h t j c : shape h t -> usable (grow h t) j c = usable t j c.
Proof.
  intros []. pose proof (p2_pos h). destruct j as [|j]; cbn [usable].
  - pose proof (resize_default (N.to_nat (p2 (S h))) (leaves t) (N.to_nat c)) as Hr. simpl leaves.
    rewrite sh_leaves, p2_S in Hr. specialize (Hr ltac:(lia)). rewrite <- p2_S in Hr.
    destruct (resize _ None (leaves t) !! _) as [[]|], (leaves t !! _) as [[]|]; by simplify_eq.
  - unfold store_at. simpl inner_nodes. rewrite resize_default; [done|]. rewrite sh_inner, p2_S. lia.
Qed.

Lemma in_tree_of_index h k i :
  in_tree (S h) (S k) i -> (InnerNodeIndex_usize (inode k i) < N.to_nat (p2 h - 1))%nat -> (h <= 30)%nat ->
  in_tree h (S k) i.
Proof.
  intros (Hh & Hk & Hi) Hlt Hh'. unfold InnerNodeIndex_usize, inode, pos in Hlt. cbn [inner_u32] in Hlt.
  pose proof (p2_pos k). pose proof (p2_pos h).
  assert (k < h)%nat as Hkh by (apply p2_lt_inv; lia). split_and!; [done|lia|].
  apply (N.mul_lt_mono_pos_r (p2 (S k))); [apply p2_pos|].
  rewrite <- p2_add. replace (h - S k + S k)%nat with h by lia. lia.
Qed.

Lemma keyed_grow h t : (h <= 29)%nat -> shape h t -> keyed secrets h t -> keyed secrets (S h) (grow h t).
Proof.
  intros Hh Hs Hk k i v Hin Hv. pose proof (p2_pos h).
  assert (inner_nodes t !! InnerNodeIndex_usize (inode k i) = Some (Some (mkSecretStore [v]))) as Hl.
  { unfold store_at in Hv. simpl inner_nodes in Hv. rewrite resize_default in Hv
      by (rewrite (sh_inner _ _ Hs), p2_S; lia).
    destruct (inner_nodes t !! _); [by subst|done]. }
  pose proof (lookup_lt_Some _ _ _ Hl) as Hlt. rewrite (sh_inner _ _ Hs) in Hlt.
  pose proof (in_tree_of_index h k i Hin Hlt ltac:(lia)) as Hin'.
  destruct (Hk k i v Hin') as (c & Hc & secret & csk & H1 & H2 & H3 & H4 & H5); [unfold store_at; by rewrite Hl|].
  exists c. split; [done|]. exists secret, csk. rewrite (usable_grow h) by done. split_and!; try done.
  eapply sealed_for_ext; [|done]. intros. by apply usable_grow.
Qed.

(** ** Each operation keeps the tree sealed *)

Lemma sealed_pushed h t id pk :
  sealed_tree secrets h t -> leaf_u32 (next_leaf_idx t) < 2 ^ 30 -> id_to_leaf_idx t !! id = None ->
  sealed_tree secrets (roomy h t).1 (pushed h id (NKShareKey pk) t).
Proof.
  intros [Hwf Hl Hk _] Hb Hf. pose proof (wf_is_core _ _ Hwf) as Hw.
  pose proof (roomy_spec h t Hw Hb) as (Hw' & Hlt & _ & _).
  assert (keyed secrets (roomy h t).1 (roomy h t).2 /\ leaves_single (roomy h t).2) as [Hk' Hl'].
  { unfold roomy. destruct (N.eqb_spec (leaf_u32 (next_leaf_idx t)) (p2 h)) as [Heq|]; [|done]. simpl. split.
    - apply keyed_grow; [|apply Hw|done]. rewrite Heq in Hb. enough (h < 30)%nat by lia. by apply p2_lt_inv.
    - intros j l. simpl. rewrite resize_lookup_Some; [apply Hl|].
      rewrite (sh_leaves _ _ (wf_shape _ _ Hw)), p2_S. lia. }
  constructor.
  - by apply wf_pushed.
  - unfold pushed. destruct (roomy h t) as [h' t']. cbn [fst snd] in *. intros j l. simpl.
    intros [(_ & [= <-] & _)|(_ & ?)]%list_lookup_insert_Some; eauto.
  - unfold pushed. destruct (roomy h t) as [h' t']. cbn [fst snd] in *.
    apply (keyed_blank h' t' _ (leaf_u32 (next_leaf_idx t))); [apply Hw'|done..|].
    intros j Hj. simpl. by rewrite list_lookup_insert_ne.
  - unfold pushed. destruct (roomy h t) as [h' t']. done.
Qed.

Lemma sealed_removed h t id a keys t' :
  sealed_tree secrets h t -> remove_id id t = (Ok (a, keys), t') -> sealed_tree secrets h t'.
Proof.
  intros [Hwf Hl Hk _] Hrm. pose proof (wf_is_core _ _ Hwf) as Hw.
  assert (member_count t <> 1 /\ id_to_leaf_idx t !! id = Some (mkLeafNodeIndex a)) as [Hc Hid].
  { unfold remove_id in Hrm. unfold bindM at 1, gets at 1 in Hrm.
    destruct (N.eqb_spec (member_count t) 1); [done|]. split; [done|].
    destruct (id_to_leaf_idx t !! id) as [[b]|] eqn:Hid.
    - destruct (remove_id_ok h t id b Hw Hid) as (keys' & t'' & Hrm' & _); [done|].
      unfold remove_id in Hrm'. unfold bindM at 1, gets at 1 in Hrm'.
      rewrite (proj2 (N.eqb_neq _ _)) in Hrm' by done. rewrite Hrm in Hrm'. by simplify_eq.
    - unfold bindM at 1, readM at 1, leaf_index_for_id in Hrm. by rewrite Hid in Hrm. }
  pose proof (member_bound _ _ _ _ Hw Hid) as [_ Ha]. simpl in Ha.
  destruct (remove_id_ok h t id a Hw Hid Hc) as (keys' & t'' & Hrm' & _ & Hw' & Hu & [Tl Ti _ _ _ (bs & Hbs & Hin)]).
  rewrite Hrm in Hrm'. simplify_eq. constructor.
  - by apply unkeyed_wf.
  - intros j l. rewrite Tl. simpl. intros [(_ & [=] & _)|(_ & ?)]%list_lookup_insert_Some. eauto.
  - eapply (keyed_blanks h _ bs); [..|exact Hin|exact Tl]; [|done|].
    + pose proof (shape_blank_leaf_path h a _ (shape_drop_leaf h a t (wf_shape _ _ Hw))) as []. by constructor.
    + apply (keyed_blank h t _ a); [apply Hw|done..|]. intros j Hj. simpl. by rewrite list_lookup_insert_ne.
  - destruct Hu as [-> _]. done.
Qed.

(** ** Reachable trees *)

(** A leaf secret whose ratchet chain is honest; no tree is higher than 30. *)
Definition honest_chain (sk : ShareSecretKey) : Prop :=
  forall j, (j <= 30)%nat -> secrets !! share_key (ratchet_n_forward sk j) = Some (ratchet_n_forward sk j).

(** What a replica that sees all operations in one order goes through: the
    creation, additions of new members, removals, its own updates and the
    updates of others. *)
Inductive reachable : BeeKem -> Prop :=
  | reach_new doc_id id pk t :
      BeeKem_new doc_id id pk = Ok t -> reachable t
  | reach_add t id pk n t' :
      reachable t -> contains_id id t = false -> leaf_u32 (next_leaf_idx t) < 2 ^ 30 ->
      push_leaf id (NKShareKey pk) t = (Ok n, t') -> reachable t'
  | reach_remove t id removed t' :
      reachable t -> remove_id id t = (Ok removed, t') -> reachable t'
  | reach_update t r id sk sks result t' r' :
      reachable t -> contains_id id t = true -> sks !! share_key sk = Some sk -> honest_chain sk ->
      encrypt_path id (share_key sk) sks (t, r) = (result, (t', r')) -> reachable t'
  | reach_apply t r id sk sks pcs change t' r' :
      reachable t -> contains_id id t = true -> sks !! share_key sk = Some sk -> honest_chain sk ->
      encrypt_path id (share_key sk) sks (t, r) = (Ok (Some (pcs, change)), (t', r')) ->
      reachable (apply_path change t).2.

Lemma contains_id_true id t : contains_id id t = true -> exists e, id_to_leaf_idx t !! id = Some (mkLeafNodeIndex e).
Proof. unfold contains_id. intros [[e] He]%bool_decide_eq_true_1. eauto. Qed.

Lemma sealed_new doc_id id pk t : BeeKem_new doc_id id pk = Ok t -> sealed_tree secrets 1 t.
Proof.
  rewrite BeeKem_new_eq. intros [= <-]. apply (sealed_pushed 1 (empty_tree doc_id)); [|done|done].
  constructor.
  - apply unkeyed_wf; [apply empty_tree_wf|done].
  - intros [|[|[]]] l; done.
  - intros k i v _. unfold store_at. simpl.
    destruct (InnerNodeIndex_usize (inode k i)) as [|[]]; done.
  - done.
Qed.

Lemma reachable_sealed t : reachable t -> exists h, sealed_tree secrets h t.
Proof.
  induction 1 as [doc_id id pk t Hn|t id pk n t' _ [h Hs] Hc Hb Hp|t id [a keys] t' _ [h Hs] Hr
    |t r id sk sks result t' r' _ [h Hs] Hc Hsk Hhon He|t r id sk sks pcs change t' r' _ [h Hs] Hc Hsk Hhon He].
  - eauto using sealed_new.
  - pose proof (wf_is_core _ _ (st_wf _ _ _ Hs)) as Hw. rewrite (push_leaf_eq h) in Hp by done. simplify_eq.
    eexists. apply sealed_pushed; [done..|]. unfold contains_id in Hc. apply bool_decide_eq_false_1 in Hc.
    by apply eq_None_not_Some.
  - eauto using sealed_removed.
  - destruct (contains_id_true _ _ Hc) as [e Hid]. pose proof (sh_h _ _ (wf_shape _ _ (wf_is_core _ _ (st_wf _ _ _ Hs)))).
    destruct (update_sealed secrets h t r id e sk sks Hs Hid Hsk) as (? & ? & ? & Henc & _ & Hs' & _);
      [intros; apply Hhon; lia|]. rewrite He in Henc. simplify_eq. eauto.
  - destruct (contains_id_true _ _ Hc) as [e Hid]. pose proof (sh_h _ _ (wf_shape _ _ (wf_is_core _ _ (st_wf _ _ _ Hs)))).
    destruct (update_sealed secrets h t r id e sk sks Hs Hid Hsk) as (? & ? & ? & Henc & Happ & Hs' & _);
      [intros; apply Hhon; lia|]. rewrite He in Henc. simplify_eq. rewrite Happ. eauto.
Qed.
End History.

(** ** Properties *)

(** C5. Agreement along histories: in every tree a replica reaches by creating
    the group, adding and removing members and updating paths (its own updates
    and those of others), if the tree has a root key then there is one secret
    that every member holding its own leaf secret decrypts. *)
Theorem reachable_agreement `{P : Primitives} {L : PrimitiveLaws P} (secrets : ShareKeyMap) t :
  directory secrets -> reachable secrets t -> has_root_key t = Ok true ->
  exists secret, forall id sks, holds_leaf_key secrets t id sks ->
    exists sks', decrypt_tree_secret t id sks = (Ok secret, sks') /\ sks ⊆ sks' /\ sks' ⊆ secrets.
Proof.
  intros Hdir Hr Hrk. destruct (reachable_sealed secrets t Hr) as [h Hst].
  destruct (proj2 (wf_root _ _ (st_wf _ _ _ Hst)) Hrk) as [[e] He].
  destruct (st_chain _ _ _ Hst _ He) as [sk Hchain].
  exists (ratchet_n_forward sk h). intros id sks Hh. by eapply sealed_tree_decrypts.
Qed.

(** ** Witnesses: a group of three over the toy primitives *)

Import ToyPrimitives.

Definition toy_secret (b : Byte.byte) : ShareSecretKey := mkShareSecretKey (pad32 [b]).
Definition toy_all : list ShareSecretKey :=
  [toy_secret Byte.x01; toy_secret Byte.x02; toy_secret Byte.x03] ++
  (ratchet_n_forward (toy_secret Byte.x10) <$> seq 0 31).
Definition toy_secrets : ShareKeyMap := list_to_map ((fun s => (share_key s, s)) <$> toy_all).

Lemma toy_directory : directory toy_secrets.
Proof.
  intros pk sk H. apply elem_of_list_to_map_2, list_elem_of_fmap in H as (s & [= -> ->] & Hs). split; [done|].
  assert (Forall (fun s => length (ShareSecretKey_bytes s) = 32%nat) toy_all) as Hall
    by (vm_compute; repeat constructor).
  by apply (proj1 (Forall_forall _ _) Hall).
Qed.

Lemma toy_honest : honest_chain toy_secrets (toy_secret Byte.x10).
Proof. intros j Hj. do 31 (destruct j as [|j]; [vm_compute; reflexivity|]). lia. Qed.

Definition toy_pk (b : Byte.byte) : ShareKey := share_key (toy_secret b).
Definition toy_t1 : BeeKem := pushed 1 (sample_id Byte.x01) (NKShareKey (toy_pk Byte.x01)) (empty_tree (mkTreeId [])).
Definition toy_t2 : BeeKem := (push_leaf (sample_id Byte.x02) (NKShareKey (toy_pk Byte.x02)) toy_t1).2.
Definition toy_t3 : BeeKem := (push_leaf (sample_id Byte.x03) (NKShareKey (toy_pk Byte.x03)) toy_t2).2.
Definition toy_rng : Rng := 0%nat.
(** Member 2 rotates to the secret [0x10]. *)
Definition toy_sks : ShareKeyMap := {[ toy_pk Byte.x10 := toy_secret Byte.x10 ]}.
Definition toy_update := encrypt_path (sample_id Byte.x02) (share_key (toy_secret Byte.x10)) toy_sks (toy_t3, toy_rng).
Definition toy_t4 : BeeKem := toy_update.2.1.

Lemma toy_t3_reachable : reachable toy_secrets toy_t3.
Proof.
  eapply (reach_add _ toy_t2 (sample_id Byte.x03) (toy_pk Byte.x03) 2); [|vm_compute; reflexivity..].
  eapply (reach_add _ toy_t1 (sample_id Byte.x02) (toy_pk Byte.x02) 1); [|vm_compute; reflexivity..].
  eapply (reach_new _ (mkTreeId []) (sample_id Byte.x01) (toy_pk Byte.x01)). vm_compute. reflexivity.
Qed.

Lemma toy_t4_reachable : reachable toy_secrets toy_t4.
Proof.
  apply (reach_update (P := toy) _ toy_t3 toy_rng (sample_id Byte.x02) (toy_secret Byte.x10) toy_sks toy_update.1 toy_t4 toy_update.2.2).
  - exact toy_t3_reachable.
  - vm_compute. reflexivity.
  - vm_compute. reflexivity.
  - exact toy_honest.
  - unfold toy_t4, toy_update. by destruct (encrypt_path _ _ _ _) as [? []].
Qed.

Lemma toy_holds b : b = Byte.x01 \/ b = Byte.x03 ->
  holds_leaf_key toy_secrets toy_t4 (sample_id b) {[ toy_pk b := toy_secret b ]}.
Proof.
  intros Hb. split.
  - apply map_singleton_subseteq_l. destruct Hb as [-> | ->]; vm_compute; reflexivity.
  - destruct Hb as [-> | ->]; eexists _, _; (split; [vm_compute; reflexivity|]);
      (split; [vm_compute; reflexivity|]); eexists; vm_compute; reflexivity.
Qed.

Lemma reachable_agreement_witness :
  exists secret,
    (exists sks', decrypt_tree_secret toy_t4 (sample_id Byte.x01) {[ toy_pk Byte.x01 := toy_secret Byte.x01 ]} = (Ok secret, sks')) /\
    (exists sks', decrypt_tree_secret toy_t4 (sample_id Byte.x03) {[ toy_pk Byte.x03 := toy_secret Byte.x03 ]} = (Ok secret, sks')).
Proof.
  destruct (reachable_agreement toy_secrets toy_t4 toy_directory toy_t4_reachable ltac:(vm_compute; reflexivity))
    as [secret Hs].
  exists secret. split.
  - destruct (Hs _ _ (toy_holds Byte.x01 ltac:(by left))) as (sks' & H & _). exists sks'. exact H.
  - destruct (Hs _ _ (toy_holds Byte.x03 ltac:(by right))) as (sks' & H & _). exists sks'. exact H.
Defined.

Lemma update_agreement_witness :
  exists pcs change t' r',
    encrypt_path (sample_id Byte.x02) (share_key (toy_secret Byte.x10)) toy_sks (toy_t3, toy_rng) = (Ok (Some (pcs, change)), (t', r')) /\
    exists sks', decrypt_tree_secret t' (sample_id Byte.x03) {[ toy_pk Byte.x03 := toy_secret Byte.x03 ]}
      = (Ok (pcs_secret pcs), sks').
Proof.
  destruct (reachable_sealed toy_secrets toy_t3 toy_t3_reachable) as [h Hst].
  destruct (update_agreement (P := toy) toy_secrets h toy_t3 toy_rng (sample_id Byte.x02) 1 (toy_secret Byte.x10) toy_sks
    toy_directory Hst) as (pcs & change & t' & r' & H1 & _ & _ & H2).
  - vm_compute. reflexivity.
  - vm_compute. reflexivity.
  - intros j Hj. apply toy_honest.
    pose proof (sh_h _ _ (wf_shape _ _ (wf_is_core _ _ (st_wf _ _ _ Hst)))). lia.
  - exists pcs, change, t', r'. split; [exact H1|].
    assert (t' = toy_t4) as -> by (unfold toy_t4, toy_update; by rewrite H1).
    exact (H2 _ _ (toy_holds Byte.x03 ltac:(by right))).
Defined.

Lemma update_replicates_witness :
  exists pcs change t' r',
    encrypt_path (sample_id Byte.x02) (share_key (toy_secret Byte.x10)) toy_sks (toy_t3, toy_rng) = (Ok (Some (pcs, change)), (t', r')) /\
    apply_path change toy_t3 = (Ok tt, t').
Proof.
  destruct (reachable_sealed toy_secrets toy_t3 toy_t3_reachable) as [h [Hwf Hl _ _]].
  destruct (update_replicates (P := toy) h toy_t3 toy_rng (sample_id Byte.x02) 1 (toy_secret Byte.x10) toy_sks Hwf Hl)
    as (pcs & change & t' & r' & H1 & _ & H2).
  - vm_compute. reflexivity.
  - vm_compute. reflexivity.
  - exists pcs, change, t', r'. split; [exact H1|exact H2].
Defined.
