(* ===== verification/Signed.v ===== *)
(** * Digests and signed payloads
    ([keyhive/keyhive_crypto/src/{digest,signed}.rs] and [signer/*.rs])

    Hashing of serializable values, the [Signed] wrapper with its equality and
    order, and signing and verifying. *)

From Stdlib Require Import String.
From S2P Require Import Prelude TreeMath Crypto.

Local Open Scope monad_scope.

(** ** Serialization and hashing

    [bincode::serialize], as a parameter: the types of this library always
    serialize. *)
Class Serialize (T : Type) := serialize : T -> bytes.

(** [Digest::hash] *)
Definition Digest_hash `{P : Primitives} {T} `{S : Serialize T} (preimage : T) : Digest T :=
  mkDigest (blake3_hash (serialize preimage)).

(** The idealisation used where the code takes a digest for the value. *)
Definition collision_free `{P : Primitives} (T : Type) `{S : Serialize T} : Prop :=
  forall a b : T, Digest_hash a = Digest_hash b -> a = b.

(** [Display for Digest]: "Digest(" hex ")". *)
Definition hex_digit (n : N) : Byte.byte :=
  default Byte.x00 (Byte.of_N (if (n <? 10)%N then (48 + n)%N else (87 + n)%N)).
Definition byte_hex (b : Byte.byte) : bytes := [hex_digit (Byte.to_N b / 16)%N; hex_digit (Byte.to_N b mod 16)%N].
Definition Digest_display {T} (d : Digest T) : bytes :=
  list_byte_of_string "Digest(" ++ (Digest_raw d ≫= byte_hex) ++ list_byte_of_string ")".

(** ** Ed25519, as a parameter *)

Record VerifyingKey := mkVerifyingKey { VerifyingKey_bytes : bytes }.
Record Signature := mkSignature { Signature_bytes : bytes }.

#[export] Instance VerifyingKey_eq_dec : EqDecision VerifyingKey.
Proof. solve_decision. Defined.
#[export] Instance Signature_eq_dec : EqDecision Signature.
Proof. solve_decision. Defined.
#[export] Instance VerifyingKey_countable : Countable VerifyingKey.
Proof. by refine (inj_countable' VerifyingKey_bytes mkVerifyingKey _); intros []. Defined.
#[export] Instance Signature_countable : Countable Signature.
Proof. by refine (inj_countable' Signature_bytes mkSignature _); intros []. Defined.

(** [ed25519_dalek]: a signing key signs byte strings, and its verifying key
    checks them. *)
Class Ed25519 := {
  SigningKey : Type;
  ed_verifying_key : SigningKey -> VerifyingKey;
  ed_try_sign : SigningKey -> bytes -> option Signature;
  ed_verify : VerifyingKey -> bytes -> Signature -> bool;
}.
Class Ed25519Laws (E : Ed25519) : Prop := {
  ed_verify_sign sk m s : ed_try_sign sk m = Some s -> ed_verify (ed_verifying_key sk) m s = true;
}.

(** ** [Signed]

    The memo cell for the digest is left out: it only ever holds the digest of
    the wrapped, immutable value. *)
Record Signed (T : Type) := mkSigned {
  payload : T;
  issuer : VerifyingKey;
  signature : Signature;
}.
Arguments mkSigned {T} payload issuer signature.
Arguments payload {T} s.
Arguments issuer {T} s.
Arguments signature {T} s.

(** [PartialEq for Signed] *)
Definition Signed_eq {T} (a b : Signed T) : bool :=
  bool_decide (issuer a = issuer b) && bool_decide (signature a = signature b).

Lemma Signed_eq_refl {T} (a : Signed T) : Signed_eq a a = true.
Proof. unfold Signed_eq. by rewrite !bool_decide_eq_true_2. Qed.

(** [Ord for Signed] over the order of payloads. *)
Definition Signed_cmp {T} (payload_cmp : T -> T -> comparison) (a b : Signed T) : comparison :=
  match bytes_cmp (VerifyingKey_bytes (issuer a)) (VerifyingKey_bytes (issuer b)) with
  | Eq =>
      match bytes_cmp (Signature_bytes (signature a)) (Signature_bytes (signature b)) with
      | Eq => payload_cmp (payload a) (payload b)
      | unequal => unequal
      end
  | unequal => unequal
  end.

Definition Signed_map {T U} (f : T -> U) (s : Signed T) : Signed U :=
  mkSigned (f (payload s)) (issuer s) (signature s).

Inductive SigningError := SigningFailed.
Inductive VerificationError := SignatureVerificationFailed.

Section Signing.
Context `{E : Ed25519} {T : Type} `{S : Serialize T}.

(** [Signed::try_verify] *)
Definition try_verify (s : Signed T) : res VerificationError unit :=
  if ed_verify (issuer s) (serialize (payload s)) (signature s) then Ok tt else Err SignatureVerificationFailed.

(** [MemorySigner::try_sign_bytes_sync] *)
Definition try_sign_bytes_sync (sk : SigningKey) (payload_bytes : bytes) : res SigningError Signature :=
  match ed_try_sign sk payload_bytes with Some s => Ok s | None => Err SigningFailed end.

(** [MemorySigner::try_sign_sync] *)
Definition try_sign_sync (sk : SigningKey) (payload : T) : res SigningError (Signed T) :=
  let* s := try_sign_bytes_sync sk (serialize payload) in
  Ok (mkSigned payload (ed_verifying_key sk) s).

(** [async_signer::try_sign_async]: a signer is a verifying key and a signing
    function; awaiting its future gives the function's result. *)
Record AsyncSigner := mkAsyncSigner {
  signer_verifying_key : VerifyingKey;
  try_sign_bytes_async : bytes -> res SigningError Signature;
}.
Definition try_sign_async (signer : AsyncSigner) (payload : T) : res SigningError (Signed T) :=
  let* s := try_sign_bytes_async signer (serialize payload) in
  Ok (mkSigned payload (signer_verifying_key signer) s).

(** [AsyncSigner for MemorySigner] *)
Definition MemorySigner (sk : SigningKey) : AsyncSigner :=
  mkAsyncSigner (ed_verifying_key sk) (try_sign_bytes_sync sk).

(** [try_sign_basic] over a [SyncSignerBasic]. *)
Definition try_sign_basic (signer : bytes -> res SigningError Signature) (issuer : VerifyingKey) (payload : T) :
    res SigningError (Signed T) :=
  let* s := signer (serialize payload) in
  Ok (mkSigned payload issuer s).
End Signing.

(** ** Properties *)

(** Signing with an in-memory key, directly or through the asynchronous
    interface, gives the same result; when it succeeds the payload is kept, the
    issuer is the key's verifying key, and the signature verifies. *)
Theorem sign_then_verify `{E : Ed25519} {L : Ed25519Laws E} {T} `{S : Serialize T} (sk : SigningKey) (v : T) s :
  try_sign_async (MemorySigner sk) v = Ok s ->
  try_sign_sync sk v = Ok s /\ payload s = v /\ issuer s = ed_verifying_key sk /\ try_verify s = Ok tt.
Proof.
  unfold try_sign_async, try_sign_sync, try_verify. simpl. unfold try_sign_bytes_sync.
  destruct (ed_try_sign sk (serialize v)) as [g|] eqn:Hg; simpl; [|done].
  intros [= <-]. split_and!; try done. simpl. by rewrite (ed_verify_sign sk _ g).
Qed.

(** [PartialEq for Signed] ignores the payload while [Ord for Signed]
    compares it last: two values with the same issuer and signature and payloads
    that differ are equal but do not compare as [Equal], against the contract of
    [Ord]. *)
Theorem signed_order_disagrees_with_eq {T} (payload_cmp : T -> T -> comparison) (p q : T) (vk : VerifyingKey)
    (sg : Signature) :
  payload_cmp p q <> Eq ->
  Signed_eq (mkSigned p vk sg) (mkSigned q vk sg) = true /\
  Signed_cmp payload_cmp (mkSigned p vk sg) (mkSigned q vk sg) <> Eq.
Proof.
  intros Hne. unfold Signed_eq, Signed_cmp. simpl. rewrite !bool_decide_eq_true_2 by done.
  split; [done|]. rewrite !(proj2 (bytes_cmp_eq _ _)) by done. done.
Qed.

(** ** Witnesses *)

(** A signature scheme for the witnesses: the signature is the message. *)
Definition toy_ed : Ed25519 := {|
  SigningKey := bytes;
  ed_verifying_key := mkVerifyingKey;
  ed_try_sign sk m := Some (mkSignature (sk ++ m));
  ed_verify vk m s := bool_decide (Signature_bytes s = VerifyingKey_bytes vk ++ m) |}.
Lemma toy_ed_laws : Ed25519Laws toy_ed.
Proof. split. simpl. intros sk m s [= <-]. by apply bool_decide_eq_true_2. Qed.

Lemma sign_then_verify_witness :
  let sk : @SigningKey toy_ed := [Byte.x01] in
  exists s, try_sign_async (T := bytes) (S := id) (MemorySigner (E := toy_ed) sk) [Byte.x02] = Ok s /\
    try_verify (E := toy_ed) (S := id) s = Ok tt.
Proof.
  intros sk. eexists. split; [reflexivity|].
  apply (sign_then_verify (L := toy_ed_laws) (T := bytes) (S := id) sk [Byte.x02]). reflexivity.
Defined.

Lemma signed_order_disagrees_with_eq_witness :
  Signed_eq (mkSigned 1%N (mkVerifyingKey []) (mkSignature [])) (mkSigned 2%N (mkVerifyingKey []) (mkSignature [])) = true /\
  Signed_cmp N.compare (mkSigned 1%N (mkVerifyingKey []) (mkSignature [])) (mkSigned 2%N (mkVerifyingKey []) (mkSignature [])) <> Eq.
Proof. apply (signed_order_disagrees_with_eq N.compare 1%N 2%N). discriminate. Defined.
