(* ===== verification/TopSort.v ===== *)
(** * Topological sorting ([keyhive/beekem/src/topsort.rs]) *)

From S2P Require Import Prelude.

Section TopSort.
Context {T : Type} `{Countable T}.

Record TopologicalSort := mkTopologicalSort {
  deps : gmap T (gset T);
  rdeps : gmap T (gset T);
}.

(** [map.entry(k).or_default()] *)
Definition or_default (k : T) (m : gmap T (gset T)) : gmap T (gset T) := <[k := default ∅ (m !! k)]> m.
(** [map.entry(k).or_default().insert(x)] *)
Definition entry_insert (k x : T) (m : gmap T (gset T)) : gmap T (gset T) :=
  <[k := default ∅ (m !! k) ∪ {[x]}]> m.

Definition TopologicalSort_new : TopologicalSort := mkTopologicalSort ∅ ∅.

Definition add_dependency (dependency dependent : T) (ts : TopologicalSort) : TopologicalSort :=
  mkTopologicalSort
    (entry_insert dependent dependency (or_default dependency (deps ts)))
    (entry_insert dependency dependent (or_default dependent (rdeps ts))).

Definition ts_is_empty (ts : TopologicalSort) : bool := bool_decide (deps ts = ∅).

Definition remove_node (ts : TopologicalSort) (node : T) : TopologicalSort :=
  match rdeps ts !! node with
  | None => mkTopologicalSort (delete node (deps ts)) (rdeps ts)
  | Some dependents =>
      mkTopologicalSort
        (foldl (fun m dep => match m !! dep with
                             | Some dep_set => <[dep := dep_set ∖ {[node]}]> m
                             | None => m
                             end) (delete node (deps ts)) (elements dependents))
        (delete node (rdeps ts))
  end.

Definition pop_all (ts : TopologicalSort) : list T * TopologicalSort :=
  let ready := (filter (fun nd : T * gset T => nd.2 = ∅) (map_to_list (deps ts))).*1 in
  (ready, foldl remove_node ts ready).

(** ** Lemmas *)

(** Every dependency has its reverse entry. *)
Definition mirrored (ts : TopologicalSort) : Prop :=
  forall x y s, deps ts !! y = Some s -> x ∈ s -> exists r, rdeps ts !! x = Some r /\ y ∈ r.

Lemma or_default_lookup k m y : or_default k m !! y = if decide (y = k) then Some (default ∅ (m !! k)) else m !! y.
Proof. unfold or_default. case_decide; subst; by rewrite ?lookup_insert_eq, ?lookup_insert_ne. Qed.

Lemma entry_insert_lookup k x m y :
  entry_insert k x m !! y = if decide (y = k) then Some (default ∅ (m !! k) ∪ {[x]}) else m !! y.
Proof. unfold entry_insert. case_decide; subst; by rewrite ?lookup_insert_eq, ?lookup_insert_ne. Qed.

Lemma add_dependency_deps p x ts y :
  deps (add_dependency p x ts) !! y =
    if decide (y = x) then Some (default ∅ (deps ts !! x) ∪ {[p]})
    else if decide (y = p) then Some (default ∅ (deps ts !! p)) else deps ts !! y.
Proof.
  simpl. rewrite entry_insert_lookup. destruct (decide (y = x)) as [->|]; [|by rewrite or_default_lookup].
  rewrite or_default_lookup. by destruct (decide (x = p)) as [->|].
Qed.

Lemma add_dependency_mirrored p x ts : mirrored ts -> mirrored (add_dependency p x ts).
Proof.
  intros Hm a y s Hs Ha. rewrite add_dependency_deps in Hs. simpl. rewrite entry_insert_lookup.
  assert (forall s, deps ts !! y = Some s -> a ∈ s -> exists r,
    (if decide (a = p) then Some (default ∅ (or_default x (rdeps ts) !! p) ∪ {[x]})
     else or_default x (rdeps ts) !! a) = Some r /\ y ∈ r) as Hold.
  { intros s0 Hs0 Ha0. destruct (Hm a y s0 Hs0 Ha0) as (r & Hr & Hy).
    clear Hs. destruct (decide (a = p)) as [Hap|Hap].
    - eexists. split; [reflexivity|]. subst a. rewrite or_default_lookup. case_decide; subst; rewrite Hr; set_solver.
    - exists r. rewrite or_default_lookup. case_decide; subst; by rewrite Hr. }
  destruct (decide (y = x)) as [->|Hyx].
  - injection Hs as <-. apply elem_of_union in Ha as [Ha|Ha%elem_of_singleton].
    + destruct (deps ts !! x) as [s0|] eqn:Hs0; [|simpl in Ha; set_solver]. by apply (Hold s0).
    + subst a. rewrite decide_True by done. eexists. split; [reflexivity|]. set_solver.
  - destruct (decide (y = p)) as [->|Hyp]; [|by apply (Hold s)].
    injection Hs as <-. destruct (deps ts !! p) as [s0|] eqn:Hs0; [|simpl in Ha; set_solver]. by apply (Hold s0).
Qed.

Lemma discharge_lookup (node : T) (l : list T) (m : gmap T (gset T)) (y : T) :
  foldl (fun m dep => match m !! dep with
                      | Some dep_set => <[dep := dep_set ∖ {[node]}]> m
                      | None => m
                      end) m l !! y =
    if decide (y ∈ l) then (fun s => s ∖ {[node]}) <$> m !! y else m !! y.
Proof.
  revert m. induction l as [|d l IH]; intros m; cbn [foldl].
  - by rewrite decide_False by apply not_elem_of_nil.
  - rewrite IH. destruct (m !! d) as [s|] eqn:Hd.
    + destruct (decide (y = d)) as [->|Hne].
      * rewrite lookup_insert_eq, Hd, (decide_True (P := d ∈ d :: l)) by set_solver. simpl.
        case_decide; simpl; f_equal; set_solver.
      * rewrite lookup_insert_ne by done. repeat case_decide; set_solver.
    + destruct (decide (y = d)) as [->|Hne]; [|repeat case_decide; set_solver].
      rewrite Hd. by repeat case_decide.
Qed.

Lemma remove_node_deps ts node y :
  mirrored ts ->
  deps (remove_node ts node) !! y = if decide (y = node) then None else (fun s => s ∖ {[node]}) <$> deps ts !! y.
Proof.
  intros Hm. unfold remove_node.
  assert (forall s, deps ts !! y = Some s -> node ∉ s -> Some s = (fun s => s ∖ {[node]}) <$> deps ts !! y) as Hkeep.
  { intros s -> Hn. simpl. f_equal. set_solver. }
  destruct (rdeps ts !! node) as [ds|] eqn:Hr; simpl.
  - rewrite discharge_lookup. destruct (decide (y = node)) as [->|Hne].
    + rewrite lookup_delete_eq. by case_decide.
    + rewrite lookup_delete_ne by done. case_decide as Hin; [done|].
      destruct (deps ts !! y) as [s|] eqn:Hs; [|done]. apply Hkeep; [done|].
      intros Hns. destruct (Hm node y s Hs Hns) as (r & Hr' & Hy). apply Hin, elem_of_elements. congruence.
  - destruct (decide (y = node)) as [->|Hne]; [by rewrite lookup_delete_eq|].
    rewrite lookup_delete_ne by done. destruct (deps ts !! y) as [s|] eqn:Hs; [|done].
    apply Hkeep; [done|].
    intros Hns. destruct (Hm node y s Hs Hns) as (r & Hr' & _). congruence.
Qed.

Lemma remove_node_mirrored ts node : mirrored ts -> mirrored (remove_node ts node).
Proof.
  intros Hm x y s Hs Hx. rewrite remove_node_deps in Hs by done.
  destruct (decide (y = node)); [done|]. destruct (deps ts !! y) as [s0|] eqn:Hs0; [|done].
  injection Hs as <-. destruct (Hm x y s0 Hs0 ltac:(set_solver)) as (r & Hr & Hy). exists r. split; [|done].
  unfold remove_node. destruct (rdeps ts !! node); [|done]. simpl.
  rewrite lookup_delete_ne; [done|]. set_solver.
Qed.

Lemma remove_nodes_deps l : forall ts,
  mirrored ts ->
  mirrored (foldl remove_node ts l) /\
  forall y, deps (foldl remove_node ts l) !! y =
    if decide (y ∈ l) then None else (fun s => s ∖ list_to_set l) <$> deps ts !! y.
Proof.
  induction l as [|n l IH]; intros ts Hm; cbn [foldl].
  - split; [done|]. intros y. rewrite decide_False by apply not_elem_of_nil.
    destruct (deps ts !! y); [|done]. simpl. f_equal. set_solver.
  - destruct (IH (remove_node ts n) (remove_node_mirrored ts n Hm)) as [H1 H2]. split; [done|].
    intros y. rewrite H2, remove_node_deps by done. destruct (decide (y = n)) as [->|Hne].
    + rewrite (decide_True (P := n ∈ n :: l)) by set_solver. by case_decide.
    + destruct (decide (y ∈ l)) as [Hl|Hl]; [by rewrite decide_True by (by right)|].
      rewrite decide_False by (by rewrite not_elem_of_cons).
      destruct (deps ts !! y); [|done]. simpl. f_equal. set_solver.
Qed.

(** What a round of [pop_all] returns and leaves. *)
Lemma pop_all_spec ts ready ts' :
  mirrored ts -> pop_all ts = (ready, ts') ->
  NoDup ready /\ (forall y, y ∈ ready <-> deps ts !! y = Some ∅) /\ mirrored ts' /\
  forall y, deps ts' !! y = if decide (y ∈ ready) then None else (fun s => s ∖ list_to_set ready) <$> deps ts !! y.
Proof.
  intros Hm [= <- <-]. split_and!.
  - assert (forall l : list (T * gset T), NoDup l.*1 -> NoDup (filter (fun nd => nd.2 = ∅) l).*1) as Hnd.
    { induction l as [|x l IH]; intros Hl; [constructor|]. apply NoDup_cons in Hl as [Hx Hl].
      destruct (decide (x.2 = ∅)); [rewrite filter_cons_True by done|rewrite filter_cons_False by done; auto].
      simpl. constructor; [|auto]. intros (z & Hz & Hin)%list_elem_of_fmap. apply Hx.
      apply list_elem_of_fmap. exists z. split; [done|]. by apply list_elem_of_filter in Hin as [_ ?]. }
    apply Hnd, NoDup_fst_map_to_list.
  - intros y. rewrite list_elem_of_fmap. split.
    + intros ([n s] & -> & [Hs Hin]%list_elem_of_filter). simpl in *. subst. by apply elem_of_map_to_list.
    + intros Hy. exists (y, ∅). split; [done|]. apply list_elem_of_filter. split; [done|].
      by apply elem_of_map_to_list.
  - by apply remove_nodes_deps.
  - by apply remove_nodes_deps.
Qed.
End TopSort.
