(* ===== verification/CaMap.v ===== *)
(** * Content-addressed maps ([keyhive/beekem/src/content_addressed_map.rs])

    A map from the digest of a value to the value. *)

From S2P Require Import Prelude TreeMath Crypto Signed.

Abbreviation CaMap T := (gmap (Digest T) T).

Section CaMap.
Context `{P : Primitives} {T : Type} `{S : Serialize T}.

Definition CaMap_new : CaMap T := ∅.
Definition CaMap_insert (value : T) (m : CaMap T) : Digest T * CaMap T :=
  let key := Digest_hash value in (key, <[key := value]> m).
Definition CaMap_insert_checked (value : T) (m : CaMap T) : (Digest T * bool) * CaMap T :=
  let key := Digest_hash value in
  ((key, bool_decide (m !! key = None)), <[key := value]> m).
Definition CaMap_remove_by_hash (hash : Digest T) (m : CaMap T) : option T * CaMap T := (m !! hash, delete hash m).
Definition CaMap_remove_by_value (value : T) (m : CaMap T) : option T * CaMap T :=
  CaMap_remove_by_hash (Digest_hash value) m.
Definition CaMap_get (hash : Digest T) (m : CaMap T) : option T := m !! hash.
Definition CaMap_len (m : CaMap T) : nat := size m.
Definition CaMap_is_empty (m : CaMap T) : bool := bool_decide (m = ∅).
Definition CaMap_contains_key (hash : Digest T) (m : CaMap T) : bool := bool_decide (is_Some (m !! hash)).
Definition CaMap_contains_value (value : T) (m : CaMap T) : bool := CaMap_contains_key (Digest_hash value) m.
(** [Merge]: entries that are there already stay. *)
Definition CaMap_merge (self other : CaMap T) : CaMap T :=
  foldl (fun m kv => match m !! kv.1 with Some _ => m | None => <[kv.1 := kv.2]> m end) self (map_to_list other).
(** [Extend]: later entries win. *)
Definition CaMap_extend (self : CaMap T) (entries : list (Digest T * T)) : CaMap T :=
  foldl (fun m kv => <[kv.1 := kv.2]> m) self entries.
(** [FromIterator] *)
Definition CaMap_from_iter (l : list T) : CaMap T :=
  CaMap_extend ∅ ((fun v => (Digest_hash v, v)) <$> l).

(** ** Lemmas *)

(** Every value sits under its own digest. *)
Definition ca_wf (m : CaMap T) : Prop := map_Forall (fun k v => k = Digest_hash v) m.

Lemma CaMap_merge_union self other : CaMap_merge self other = self ∪ other.
Proof.
  assert (forall l m, NoDup l.*1 -> foldl (fun m kv => match m !! kv.1 with Some _ => m | None => <[kv.1 := kv.2]> m end) m l
    = m ∪ (list_to_map l : CaMap T)) as Hf.
  { induction l as [|[k v] l IH]; intros m Hnd; simpl; [by rewrite (right_id_L ∅ (∪))|].
    apply NoDup_cons in Hnd as [Hk Hnd]. rewrite IH by done. apply map_eq. intros k'.
    rewrite !lookup_union. destruct (decide (k' = k)) as [->|Hne].
    - rewrite lookup_insert_eq. destruct (m !! k) eqn:Hm; simpl; rewrite ?Hm, ?lookup_insert_eq; simpl.
      + by destruct (list_to_map l !! k).
      + by destruct (list_to_map l !! k).
    - rewrite (lookup_insert_ne (list_to_map l)) by done. destruct (m !! k); [done|]. by rewrite lookup_insert_ne. }
  unfold CaMap_merge. rewrite Hf by apply NoDup_fst_map_to_list. by rewrite list_to_map_to_list.
Qed.

Lemma ca_wf_insert v m : ca_wf m -> ca_wf (CaMap_insert v m).2.
Proof. intros Hm. by apply map_Forall_insert_2. Qed.

Lemma ca_wf_union a b : ca_wf a -> ca_wf b -> ca_wf (a ∪ b).
Proof.
  intros Ha Hb k v [Hk|[_ Hk]]%lookup_union_Some_raw; [by apply Ha|by apply Hb].
Qed.
End CaMap.

(** With collision-free digests, merging content-addressed maps is
    commutative and idempotent and keeps the addressing: replicas may exchange
    their maps in any order. *)
Theorem CaMap_merge_converges `{P : Primitives} {T} `{S : Serialize T} (a b : CaMap T) :
  collision_free T -> ca_wf a -> ca_wf b ->
  CaMap_merge a b = CaMap_merge b a /\ CaMap_merge a a = a /\ ca_wf (CaMap_merge a b) /\
  forall v, CaMap_contains_value v (CaMap_merge a b) = CaMap_contains_value v a || CaMap_contains_value v b.
Proof.
  intros Hcf Ha Hb. rewrite !CaMap_merge_union. split_and!.
  - apply map_eq. intros k. rewrite !lookup_union.
    destruct (a !! k) as [x|] eqn:Hx, (b !! k) as [y|] eqn:Hy; simpl; try done.
    assert (x = y) as -> by (apply Hcf; by rewrite <- (Ha _ _ Hx), <- (Hb _ _ Hy)). done.
  - apply map_eq. intros k. rewrite lookup_union. by destruct (a !! k).
  - by apply ca_wf_union.
  - intros v. unfold CaMap_contains_value, CaMap_contains_key. rewrite lookup_union.
    by destruct (a !! Digest_hash v), (b !! Digest_hash v).
Qed.

Lemma CaMap_merge_converges_witness :
  let P := ToyPrimitives.toy in
  let S : Serialize bytes := id in
  let a := (CaMap_insert [Byte.x01] ∅).2 in
  let b := (CaMap_insert [Byte.x02] ∅).2 in
  CaMap_merge a b = CaMap_merge b a.
Proof.
  intros P S a b. apply (CaMap_merge_converges a b).
  - intros x y Heq. by injection Heq.
  - apply ca_wf_insert. apply map_Forall_empty.
  - apply ca_wf_insert. apply map_Forall_empty.
Defined.
