(* ===== verification/OpGraph.v ===== *)
(** * CGKA operations and their causal graph ([keyhive/beekem/src/operation.rs])

    Operations name their causal predecessors by digest.  The graph keeps the
    operations, their predecessors and the heads, and sorts the ancestors of a
    set of heads into epochs.  Hash sets and maps are [gset] and [gmap]: where
    the source iterates over one, the model iterates in the order of
    [elements]. *)

From S2P Require Import Prelude TreeMath Crypto Keys SecretStore Tree Signed TopSort CaMap.

Local Open Scope monad_scope.

(** ** Operations *)

Inductive CgkaOperation :=
  | Add (added_id : MemberId) (pk : ShareKey) (leaf_index : N)
        (predecessors add_predecessors : list (Digest (Signed CgkaOperation))) (doc_id : TreeId)
  | Remove (id : MemberId) (leaf_idx : N) (removed_keys : list ShareKey)
        (predecessors : list (Digest (Signed CgkaOperation))) (doc_id : TreeId)
  | Update (id : MemberId) (new_path : PathChange)
        (predecessors : list (Digest (Signed CgkaOperation))) (doc_id : TreeId).

Abbreviation SignedOp := (Signed CgkaOperation).
Abbreviation OpHash := (Digest (Signed CgkaOperation)).
(** An epoch is a non-empty list of concurrent operations. *)
Abbreviation CgkaEpoch := (list (Signed CgkaOperation)).

Definition init_add (doc_id : TreeId) (added_id : MemberId) (pk : ShareKey) : CgkaOperation :=
  Add added_id pk 0 [] [] doc_id.

Definition predecessors (op : CgkaOperation) : gset OpHash :=
  match op with
  | Add _ _ _ predecessors _ _ => list_to_set predecessors
  | Remove _ _ _ predecessors _ => list_to_set predecessors
  | Update _ _ predecessors _ => list_to_set predecessors
  end.

Definition op_doc_id (op : CgkaOperation) : TreeId :=
  match op with
  | Add _ _ _ _ _ doc_id => doc_id
  | Remove _ _ _ _ doc_id => doc_id
  | Update _ _ _ doc_id => doc_id
  end.

Definition is_add (op : CgkaOperation) : bool := match op with Add _ _ _ _ _ _ => true | _ => false end.
Definition is_update (op : CgkaOperation) : bool := match op with Update _ _ _ _ => true | _ => false end.

(** ** The graph *)

Record CgkaOperationGraph := mkGraph {
  cgka_ops : CaMap (Signed CgkaOperation);
  cgka_ops_predecessors : gmap OpHash (gset OpHash);
  cgka_op_heads : gset OpHash;
  add_heads : gset OpHash;
}.

Section Graph.
Context `{P : Primitives} `{S : !Serialize (Signed CgkaOperation)}.

Definition graph_new : CgkaOperationGraph := mkGraph CaMap_new ∅ ∅ ∅.

(** [Merge for CgkaOperationGraph] *)
Definition graph_merge (self fork : CgkaOperationGraph) : CgkaOperationGraph :=
  mkGraph (CaMap_merge (cgka_ops self) (cgka_ops fork))
    (cgka_ops_predecessors fork ∪ cgka_ops_predecessors self)
    (cgka_op_heads self ∪ cgka_op_heads fork)
    (add_heads self ∪ add_heads fork).

Definition contains_op_hash (op_hash : OpHash) (g : CgkaOperationGraph) : bool :=
  CaMap_contains_key op_hash (cgka_ops g).

Definition contains_predecessors (preds : gset OpHash) (g : CgkaOperationGraph) : bool :=
  forallb (fun hash => CaMap_contains_key hash (cgka_ops g)) (elements preds).

Definition has_single_head (g : CgkaOperationGraph) : bool := (size (cgka_op_heads g) =? 1)%nat.

(** [expect("op to be in history")] *)
Definition is_add_op (hash : OpHash) (ops : CaMap (Signed CgkaOperation)) : res CgkaError bool :=
  let* op := expectR (CaMap_get hash ops) in Ok (is_add (payload op)).

Definition add_op_and_update_heads (op : SignedOp) (external_heads : option (gset OpHash))
    (g : CgkaOperationGraph) : res CgkaError CgkaOperationGraph :=
  let op_hash := Digest_hash op in
  let ops := (CaMap_insert op (cgka_ops g)).2 in
  let* add := is_add_op op_hash ops in
  let '(op_predecessors, heads, adds) :=
    match external_heads with
    | Some ext =>
        (ext, cgka_op_heads g ∖ ext,
         match payload op with
         | Add _ _ _ _ add_predecessors _ => add_heads g ∖ list_to_set add_predecessors
         | _ => add_heads g
         end)
    | None => (cgka_op_heads g, ∅, if add then ∅ else add_heads g)
    end in
  let heads := {[op_hash]} ∪ heads in
  let* add' := is_add_op op_hash ops in
  let adds := if add' then {[op_hash]} ∪ adds else adds in
  Ok (mkGraph ops (<[op_hash := op_predecessors]> (cgka_ops_predecessors g)) heads adds).

Definition add_local_op (op : SignedOp) : CgkaOperationGraph -> res CgkaError CgkaOperationGraph :=
  add_op_and_update_heads op None.
Definition add_op (op : SignedOp) (heads : gset OpHash) : CgkaOperationGraph -> res CgkaError CgkaOperationGraph :=
  add_op_and_update_heads op (Some heads).

Definition heads_contained_in (heads : gset OpHash) (g : CgkaOperationGraph) : bool :=
  forallb (fun h => bool_decide (h ∈ heads)) (elements (cgka_op_heads g)).

Definition predecessors_for (op_hash : OpHash) (g : CgkaOperationGraph) : option (gset OpHash) :=
  cgka_ops_predecessors g !! op_hash.

(** ** Sorting into epochs *)

Record search_state := mkSearch {
  frontier : list OpHash;
  seen : gset OpHash;
  successors : gmap OpHash (gset OpHash);
  dependencies : @TopologicalSort OpHash _ _;
}.

(** The body of the loop over the predecessors of [op_hash]. *)
Definition visit_pred (op_hash : OpHash) (s : search_state) (update_pred : OpHash) : search_state :=
  let deps' := add_dependency update_pred op_hash (dependencies s) in
  let succ' := entry_insert update_pred op_hash (successors s) in
  if decide (update_pred ∈ seen s) then mkSearch (frontier s) (seen s) succ' deps'
  else mkSearch (frontier s ++ [update_pred]) ({[update_pred]} ∪ seen s) succ' deps'.

(** [while let Some(op_hash) = frontier.pop_front()]; every hash enters the
    frontier once, and one without an entry ends the loop. *)
Fixpoint search (fuel : nat) (preds : gmap OpHash (gset OpHash)) (s : search_state) : res CgkaError search_state :=
  match frontier s with
  | [] => Ok s
  | op_hash :: rest =>
      match fuel with
      | O => Diverge
      | Datatypes.S fuel' =>
          let* ps := ok_orR (preds !! op_hash) OperationNotFound in
          search fuel' preds
            (foldl (visit_pred op_hash) (mkSearch rest (seen s) (successors s) (dependencies s)) (elements ps))
      end
  end.

Definition search_from (heads : gset OpHash) (preds : gmap OpHash (gset OpHash)) : res CgkaError search_state :=
  search (Datatypes.S (size preds)) preds
    (mkSearch (elements heads) heads (gset_to_gmap ∅ heads) TopologicalSort_new).

(** A popped operation becomes an epoch head; one without successors stays one
    for good, by counting itself. *)
Definition mark_head (st : gset OpHash * gmap OpHash (gset OpHash)) (hash : OpHash) :
    res CgkaError (gset OpHash * gmap OpHash (gset OpHash)) :=
  let* s := expectR (st.2 !! hash) in
  Ok ({[hash]} ∪ st.1, if decide (s = ∅) then <[hash := {[hash]}]> st.2 else st.2).

Definition discharge_from (hash : OpHash) (succ : gmap OpHash (gset OpHash)) (h : OpHash) :
    res CgkaError (gmap OpHash (gset OpHash)) :=
  if decide (hash = h) then Ok succ
  else let* s := expectR (succ !! h) in Ok (<[h := s ∖ {[hash]}]> succ).

Definition discharge (epoch_heads : gset OpHash) (succ : gmap OpHash (gset OpHash)) (hash : OpHash) :
    res CgkaError (gmap OpHash (gset OpHash)) :=
  foldR (discharge_from hash) (elements epoch_heads) succ.

Definition retain_head (succ : gmap OpHash (gset OpHash)) (acc : gset OpHash) (h : OpHash) :
    res CgkaError (gset OpHash) :=
  let* s := expectR (succ !! h) in Ok (if decide (s = ∅) then acc else {[h]} ∪ acc).

(** [if !next.is_empty() { op_hashes.push(next) }] *)
Definition push_epoch (epochs : list CgkaEpoch) (next : CgkaEpoch) : list CgkaEpoch :=
  match next with [] => epochs | _ => epochs ++ [next] end.

Definition get_op (ops : CaMap (Signed CgkaOperation)) (acc : CgkaEpoch) (hash : OpHash) : res CgkaError CgkaEpoch :=
  let* op := ok_orR (CaMap_get hash ops) OperationNotFound in Ok (acc ++ [op]).

(** [while !dependencies.is_empty()]; every round pops something, unless the
    dependencies have a cycle. *)
Fixpoint epoch_loop (fuel : nat) (ops : CaMap (Signed CgkaOperation)) (ts : @TopologicalSort OpHash _ _)
    (succ : gmap OpHash (gset OpHash)) (epoch_heads : gset OpHash) (next_epoch : CgkaEpoch)
    (epochs : list CgkaEpoch) : res CgkaError (list CgkaEpoch) :=
  if ts_is_empty ts then Ok (push_epoch epochs next_epoch)
  else
    match fuel with
    | O => Diverge
    | Datatypes.S fuel' =>
        let '(next_set, ts) := pop_all ts in
        let next_set := merge_sort Digest_le next_set in
        let* marked := foldR mark_head next_set (epoch_heads, succ) in
        let* succ := foldR (discharge marked.1) next_set marked.2 in
        let* epoch_heads := foldR (retain_head succ) (elements marked.1) ∅ in
        let should_end_epoch := (size epoch_heads <=? 1)%nat in
        if should_end_epoch then
          let* next := foldR (get_op ops) next_set [] in
          epoch_loop fuel' ops ts succ epoch_heads [] (push_epoch (push_epoch epochs next_epoch) next)
        else
          let* next := foldR (get_op ops) next_set next_epoch in
          epoch_loop fuel' ops ts succ epoch_heads next epochs
    end.

(** [NonEmpty::from_vec(..).expect(..)] *)
Definition non_empty {A} (l : list A) : res CgkaError (list A) :=
  match l with [] => Panic | _ => Ok l end.

Definition topsort_for_heads (heads : gset OpHash) (g : CgkaOperationGraph) : res CgkaError (list CgkaEpoch) :=
  let* s := search_from heads (cgka_ops_predecessors g) in
  if ts_is_empty (dependencies s) then
    let* single_epoch := foldR (fun acc hash => let* op := expectR (CaMap_get hash (cgka_ops g)) in Ok (acc ++ [op]))
                           (elements heads) [] in
    let* epoch := non_empty single_epoch in
    Ok [epoch]
  else
    let* epochs := epoch_loop (size (deps (dependencies s))) (cgka_ops g) (dependencies s) (successors s) ∅ [] [] in
    non_empty epochs.

Definition topsort_graph (g : CgkaOperationGraph) : res CgkaError (list CgkaEpoch) :=
  topsort_for_heads (cgka_op_heads g) g.
End Graph.
