(* ===== verification/OpSearch.v ===== *)
(** * The breadth-first search of [topsort_for_heads]

    What the search collects: the ancestors of the heads, their successors, and
    the dependencies handed to the topological sort. *)

From S2P Require Import Prelude TreeMath Crypto Keys SecretStore Tree Signed TopSort CaMap OpGraph.

Section Search.
Context (preds : gmap OpHash (gset OpHash)).

(** [y] is an immediate causal predecessor of [x]. *)
Definition edge (x y : OpHash) : Prop := exists s, preds !! x = Some s /\ y ∈ s.

#[export] Instance edge_dec x y : Decision (edge x y).
Proof.
  destruct (preds !! x) as [s|] eqn:Hs.
  - destruct (decide (y ∈ s)); [left|right]; [by exists s|]. intros (s' & ? & ?). congruence.
  - right. intros (s' & ? & ?). congruence.
Defined.

(** [y] is one of the heads or an ancestor of one. *)
Definition ancestor_of (heads : gset OpHash) (y : OpHash) : Prop := exists h, h ∈ heads /\ rtc edge h y.

Definition closed : Prop := forall x y, edge x y -> is_Some (preds !! y).

(** The search state after following the edges of [E]. *)
Record collected (E : OpHash -> OpHash -> Prop) (s : search_state) : Prop := {
  co_mirrored : mirrored (dependencies s);
  co_seen y : y ∈ seen s <-> is_Some (successors s !! y);
  co_succ y r : successors s !! y = Some r -> forall x, x ∈ r <-> E x y;
  co_deps y r : deps (dependencies s) !! y = Some r -> forall z, z ∈ r <-> E y z;
  co_nodes y : is_Some (deps (dependencies s) !! y) <-> exists z, E y z \/ E z y;
  co_closed x y : E x y -> y ∈ seen s;
}.

Lemma collected_iff E E' s : (forall x y, E x y <-> E' x y) -> collected E s -> collected E' s.
Proof.
  intros HE [H1 H2 H3 H4 H5 H6]. constructor; try done.
  - intros y r Hr x. rewrite <- HE. by apply H3.
  - intros y r Hr z. rewrite <- HE. by apply H4.
  - intros y. rewrite H5. by setoid_rewrite HE.
  - intros x y. rewrite <- HE. apply H6.
Qed.

Lemma visit_pred_seen op s p : seen (visit_pred op s p) = {[p]} ∪ seen s.
Proof. unfold visit_pred. case_decide; simpl; [|done]. set_solver. Qed.

Lemma visit_pred_succ op s p : successors (visit_pred op s p) = entry_insert p op (successors s).
Proof. unfold visit_pred. by case_decide. Qed.

Lemma visit_pred_deps op s p : dependencies (visit_pred op s p) = add_dependency p op (dependencies s).
Proof. unfold visit_pred. by case_decide. Qed.

Lemma visit_pred_collected E op s p :
  collected E s -> collected (fun x y => E x y \/ (x = op /\ y = p)) (visit_pred op s p).
Proof.
  intros [Hm Hseen Hsucc Hdeps Hnodes Hcl].
  constructor; rewrite ?visit_pred_seen, ?visit_pred_succ, ?visit_pred_deps.
  - by apply add_dependency_mirrored.
  - intros y. rewrite entry_insert_lookup. destruct (decide (y = p)) as [->|Hne].
    + split; [eauto|set_solver].
    + rewrite <- Hseen. set_solver.
  - intros y r Hr x. rewrite entry_insert_lookup in Hr. destruct (decide (y = p)) as [->|Hne].
    + injection Hr as <-. rewrite elem_of_union, elem_of_singleton.
      destruct (successors s !! p) as [r0|] eqn:Hp; simpl.
      * rewrite (Hsucc p r0 Hp). naive_solver.
      * assert (~ E x p) as Hno by (intros [r0 Hr0]%Hcl%Hseen; congruence). set_solver.
    + rewrite (Hsucc y r Hr). naive_solver.
  - intros y r Hr z. rewrite add_dependency_deps in Hr.
    assert (forall r0, default ∅ (deps (dependencies s) !! y) = r0 -> z ∈ r0 <-> E y z) as Hold.
    { intros r0 <-. destruct (deps (dependencies s) !! y) as [r0|] eqn:Hy; simpl; [by apply Hdeps|].
      split; [set_solver|]. intros Hz.
      assert (is_Some (deps (dependencies s) !! y)) as [? ?] by (apply Hnodes; eauto). congruence. }
    destruct (decide (y = op)) as [->|Hne].
    + injection Hr as <-. rewrite elem_of_union, elem_of_singleton, (Hold _ eq_refl). naive_solver.
    + assert (default ∅ (deps (dependencies s) !! y) = r) as Hd.
      { destruct (decide (y = p)) as [->|]; [by injection Hr|]. by rewrite Hr. }
      rewrite (Hold _ Hd). naive_solver.
  - intros y. rewrite add_dependency_deps. destruct (decide (y = op)) as [->|Hne]; [|destruct (decide (y = p)) as [->|Hne']].
    + split; [|eauto]. intros _. exists p. naive_solver.
    + split; [|eauto]. intros _. exists op. naive_solver.
    + rewrite Hnodes. naive_solver.
  - intros x y [HE|[-> ->]]; [|set_solver]. apply Hcl in HE. set_solver.
Qed.

(** The frontier holds what was seen and not expanded. *)
Record searching (heads : gset OpHash) (D : gset OpHash) (s : search_state) : Prop := {
  se_collected : collected (fun x y => x ∈ D /\ edge x y) s;
  se_heads : heads ⊆ seen s;
  se_reach x : x ∈ seen s -> ancestor_of heads x;
  se_nodup : NoDup (frontier s);
  se_frontier x : x ∈ frontier s <-> x ∈ seen s /\ x ∉ D;
  se_done : D ⊆ seen s;
  se_known : D ⊆ dom preds;
}.

Lemma visit_pred_frontier op s p :
  frontier (visit_pred op s p) = if decide (p ∈ seen s) then frontier s else frontier s ++ [p].
Proof. unfold visit_pred. by case_decide. Qed.

(** Expanding [op], after the predecessors in [done]. *)
Lemma visit_preds_inv heads D op ps :
  preds !! op = Some ps -> ancestor_of heads op ->
  forall l done s,
  elements ps = done ++ l ->
  collected (fun x y => (x ∈ D /\ edge x y) \/ (x = op /\ y ∈ done)) s ->
  heads ⊆ seen s -> (forall x, x ∈ seen s -> ancestor_of heads x) ->
  NoDup (frontier s) -> (forall x, x ∈ frontier s <-> x ∈ seen s /\ x ∉ {[op]} ∪ D) -> {[op]} ∪ D ⊆ seen s ->
  {[op]} ∪ D ⊆ dom preds ->
  searching heads ({[op]} ∪ D) (foldl (visit_pred op) s l).
Proof.
  intros Hps Hanc l. induction l as [|p l IH]; intros done s Hel Hco Hh Hr Hnd Hf Hd Hk; cbn [foldl].
  - constructor; try done. eapply collected_iff; [|done]. intros x y. rewrite app_nil_r in Hel.
    rewrite <- Hel, elem_of_elements. unfold edge. set_solver.
  - apply (IH (done ++ [p])).
    + by rewrite <- app_assoc.
    + eapply collected_iff; [|by apply visit_pred_collected]. intros x y. rewrite elem_of_app, list_elem_of_singleton.
      naive_solver.
    + rewrite visit_pred_seen. set_solver.
    + rewrite visit_pred_seen. intros x [->%elem_of_singleton|Hx]%elem_of_union; [|auto].
      destruct Hanc as (h & Hh0 & Hho). exists h. split; [done|]. eapply rtc_r; [done|].
      exists ps. split; [done|]. apply elem_of_elements. rewrite Hel. set_solver.
    + rewrite visit_pred_frontier. case_decide as Hp; [done|]. apply NoDup_app. split_and!; [done| |apply NoDup_singleton].
      intros x [Hx _]%Hf ->%list_elem_of_singleton. done.
    + intros x. rewrite visit_pred_frontier, visit_pred_seen. case_decide as Hp.
      * rewrite Hf. set_solver.
      * rewrite elem_of_app, list_elem_of_singleton, Hf. set_solver.
    + rewrite visit_pred_seen. set_solver.
    + done.
Qed.

Lemma search_ok heads : closed -> heads ⊆ dom preds -> forall fuel D s,
  searching heads D s -> (size (dom preds ∖ D) <= fuel)%nat ->
  exists s', search fuel preds s = Ok s' /\ searching heads (seen s') s'.
Proof.
  intros Hcl Hdom. induction fuel as [|fuel IH]; intros D s Hs Hfuel; simpl.
  all: assert (frontier s = [] -> seen s = D) as Hend
    by (intros Hfr; destruct Hs; apply set_eq; intros x; specialize (se_frontier0 x); rewrite Hfr in se_frontier0;
        destruct (decide (x ∈ D)); set_solver).
  all: destruct (frontier s) as [|op rest] eqn:Hfr; [exists s; by rewrite Hend|].
  all: destruct Hs as [Hco Hh Hr Hnd Hf Hd Hk]; rewrite Hfr in *.
  all: destruct (proj1 (Hf op) ltac:(by left)) as [Hop HopD].
  all: assert (is_Some (preds !! op)) as [ps Hps]
    by (destruct (Hr op Hop) as (h & Hh0 & [->|(y & _ & Hy)]%rtc_inv_r); [by apply elem_of_dom, Hdom|by eapply Hcl]).
  all: assert (op ∈ dom preds ∖ D) as Hin by (apply elem_of_difference; split; [by apply elem_of_dom; exists ps|done]).
  - assert (size (dom preds ∖ D) = 0)%nat as Hz%size_empty_inv by lia. set_solver.
  - rewrite Hps. simpl. apply (IH ({[op]} ∪ D)).
    + apply NoDup_cons in Hnd as [Hnd1 Hnd2].
      eapply (visit_preds_inv heads D op ps Hps (Hr op Hop) _ []); simpl; try done.
      * apply (collected_iff (fun x y => x ∈ D /\ edge x y)); [set_solver|by destruct Hco].
      * intros x. specialize (Hf x). rewrite elem_of_cons in Hf. set_solver.
      * set_solver.
      * set_solver.
    + assert (dom preds ∖ ({[op]} ∪ D) = (dom preds ∖ D) ∖ {[op]}) as -> by set_solver.
      rewrite size_difference by set_solver. rewrite size_singleton. lia.
Qed.

Lemma search_from_ok heads :
  closed -> heads ⊆ dom preds ->
  exists s, search_from heads preds = Ok s /\ searching heads (seen s) s.
Proof.
  intros Hcl Hdom. apply (search_ok heads Hcl Hdom _ ∅).
  - constructor; simpl; try done; try set_solver.
    + constructor; simpl; try set_solver.
      * intros x y s Hs. done.
      * intros y. split; [intros Hy; exists ∅; by apply lookup_gset_to_gmap_Some|].
        by intros [? [? _]%lookup_gset_to_gmap_Some].
      * intros y r [_ <-]%lookup_gset_to_gmap_Some. set_solver.
      * split; [by intros []|set_solver].
    + apply NoDup_elements.
  - rewrite difference_empty_L, size_dom. lia.
Qed.

(** What the epochs are built from: all ancestors of the heads, unless an
    isolated head. *)
Definition linked (heads : gset OpHash) (y : OpHash) : Prop :=
  ancestor_of heads y /\ exists z, ancestor_of heads z /\ (edge y z \/ edge z y).

Lemma searching_seen heads s y : searching heads (seen s) s -> y ∈ seen s <-> ancestor_of heads y.
Proof.
  intros [Hco Hh Hr _ _ _ _]. split; [apply Hr|]. intros (h & Hh0 & Hy).
  apply Hh in Hh0. induction Hy as [x|x b c Hxb _ IH]; [done|]. by apply IH, (co_closed _ _ Hco x).
Qed.
End Search.
