(* ===== verification/OpEpochs.v ===== *)
(** * Cutting the causal graph into epochs

    The second half of [topsort_for_heads]: the pop loop terminates, lists
    every linked ancestor once and in causal order, and ends an epoch exactly
    where one operation follows everything before it. *)

From S2P Require Import Prelude TreeMath Crypto Keys SecretStore Tree Signed TopSort CaMap OpGraph OpSearch.

Section Phases.
(** ** The three inner loops of a round *)

Lemma mark_heads_ok (next : list OpHash) : forall heads succ,
  NoDup next -> (forall y, y ∈ next -> is_Some (succ !! y)) ->
  exists succ', foldR mark_head next (heads, succ) = Ok (heads ∪ list_to_set next, succ') /\
  forall y, succ' !! y = if decide (y ∈ next /\ succ !! y = Some ∅) then Some {[y]} else succ !! y.
Proof.
  induction next as [|h next IH]; intros heads succ Hnd Hs; cbn [foldR list_to_set].
  - exists succ. split; [by rewrite (right_id_L ∅ (∪))|]. intros y.
    by rewrite decide_False by (by intros [?%not_elem_of_nil _]).
  - apply NoDup_cons in Hnd as [Hh Hnd]. destruct (Hs h ltac:(by left)) as [s Hsh]. 
    unfold mark_head at 1. cbn [fst snd]. rewrite Hsh. cbn [bindR expectR].
    set (succ1 := if decide (s = ∅) then _ else _).
    assert (forall y, y <> h -> succ1 !! y = succ !! y) as Hne.
    { intros y Hy. unfold succ1. case_decide; [by rewrite lookup_insert_ne|done]. }
    destruct (IH ({[h]} ∪ heads) succ1 Hnd) as (succ' & Hf & Hl).
    { intros y Hy. rewrite Hne by (intros ->; done). apply Hs. by right. }
    exists succ'. split; [rewrite Hf; do 2 f_equal; set_solver|]. intros y. rewrite Hl.
    destruct (decide (y = h)) as [->|Hy].
    + rewrite decide_False by naive_solver. unfold succ1. destruct (decide (s = ∅)) as [->|Hse].
      * rewrite lookup_insert_eq. rewrite decide_True; [done|]. split; [by left|done].
      * rewrite decide_False; [done|]. intros [_ ?]. congruence.
    + rewrite Hne by done. destruct (decide (y ∈ next /\ succ !! y = Some ∅)) as [[? ?]|Hn].
      * rewrite decide_True; [done|]. split; [by right|done].
      * rewrite decide_False; [done|]. intros [[?|?]%elem_of_cons ?]; [done|]. by apply Hn.
Qed.

Lemma discharge_ok (H : gset OpHash) (hash : OpHash) succ :
  (forall y, y ∈ H -> is_Some (succ !! y)) ->
  exists succ', discharge H succ hash = Ok succ' /\
  forall y, succ' !! y = if decide (y ∈ H /\ y <> hash) then (fun s => s ∖ {[hash]}) <$> succ !! y else succ !! y.
Proof.
  intros Hs. unfold discharge.
  destruct (foldR_ok (E := CgkaError) (fun done m => forall y, m !! y =
      if decide (y ∈ done /\ y <> hash) then (fun s => s ∖ {[hash]}) <$> succ !! y else succ !! y)
    (discharge_from hash) (elements H) [] succ) as (m & Hf & Hm).
  - intros y. by rewrite decide_False by (by intros [?%not_elem_of_nil _]).
  - intros done x m Hx Hm. apply elem_of_elements in Hx. unfold discharge_from.
    destruct (decide (hash = x)) as [<-|Hne].
    + exists m. split; [done|]. intros y. rewrite Hm. apply decide_ext.
      rewrite elem_of_app, list_elem_of_singleton. naive_solver.
    + destruct (Hs x Hx) as [s0 Hs0].
      assert (exists s, m !! x = Some s /\ s ∖ {[hash]} = s0 ∖ {[hash]}) as (s & Hmx & Hss).
      { rewrite Hm, Hs0. case_decide; eexists; (split; [reflexivity|]); set_solver. }
      rewrite Hmx. simpl. eexists. split; [reflexivity|]. intros y. destruct (decide (y = x)) as [->|Hyx].
      * rewrite lookup_insert_eq, decide_True by set_solver. rewrite Hs0. simpl. by rewrite Hss.
      * rewrite lookup_insert_ne, Hm by done. apply decide_ext. set_solver.
  - exists m. split; [done|]. intros y. rewrite Hm. apply decide_ext. simpl. by rewrite elem_of_elements.
Qed.

Lemma discharges_ok (H : gset OpHash) (next : list OpHash) : forall succ,
  (forall y, y ∈ H -> is_Some (succ !! y)) ->
  exists succ', foldR (discharge H) next succ = Ok succ' /\
  (forall y, y ∉ H -> succ' !! y = succ !! y) /\
  forall y s, y ∈ H -> succ !! y = Some s -> succ' !! y = Some (s ∖ (list_to_set next ∖ {[y]})).
Proof.
  induction next as [|h next IH]; intros succ Hs; simpl.
  - exists succ. split_and!; [done..|]. intros y s Hy ->. f_equal. set_solver.
  - destruct (discharge_ok H h succ Hs) as (succ1 & -> & H1). simpl.
    destruct (IH succ1) as (succ' & -> & H2 & H3).
    { intros y Hy. rewrite H1. case_decide; [apply fmap_is_Some|]; by apply Hs. }
    exists succ'. split_and!; [done| |].
    + intros y Hy. rewrite H2 by done. rewrite H1, decide_False; [done|]. by intros [? _].
    + intros y s Hy Hs0. destruct (decide (y = h)) as [->|Hne].
      * rewrite (H3 h s Hy); [f_equal; set_solver|]. rewrite H1, decide_False; [done|]. by intros [_ ?].
      * rewrite (H3 y (s ∖ {[h]}) Hy); [f_equal; set_solver|]. by rewrite H1, decide_True, Hs0.
Qed.

Lemma retain_ok (succ : gmap OpHash (gset OpHash)) (H : gset OpHash) :
  (forall y, y ∈ H -> is_Some (succ !! y)) ->
  exists H', foldR (retain_head succ) (elements H) ∅ = Ok H' /\
  forall y, y ∈ H' <-> y ∈ H /\ succ !! y <> Some ∅.
Proof.
  intros Hs.
  destruct (foldR_ok (E := CgkaError) (fun done (K : gset OpHash) => forall y, y ∈ K <-> y ∈ done /\ succ !! y <> Some ∅)
    (retain_head succ) (elements H) [] ∅) as (K & Hf & HK).
  - intros y. set_solver.
  - intros done x K Hx HK. apply elem_of_elements in Hx. unfold retain_head. destruct (Hs x Hx) as [s Hsx].
    rewrite Hsx. simpl. eexists. split; [reflexivity|]. intros y.
    rewrite elem_of_app, list_elem_of_singleton. case_decide as Hse; [|rewrite elem_of_union, elem_of_singleton].
    + rewrite HK. naive_solver.
    + rewrite HK. split; [intros [->|[? ?]]; [|naive_solver]|naive_solver]. split; [by right|]. rewrite Hsx. congruence.
  - exists K. split; [done|]. intros y. rewrite HK. simpl. by rewrite elem_of_elements.
Qed.

Lemma get_ops_ok (ops : CaMap (Signed CgkaOperation)) (l : list OpHash) : forall acc,
  (forall y, y ∈ l -> is_Some (ops !! y)) ->
  exists new, foldR (get_op ops) l acc = Ok (acc ++ new) /\ Forall2 (fun h op => ops !! h = Some op) l new.
Proof.
  induction l as [|h l IH]; intros acc Hl; simpl.
  - exists []. by rewrite app_nil_r.
  - destruct (Hl h ltac:(by left)) as [op Hop]. unfold get_op at 1, CaMap_get. rewrite Hop. simpl.
    destruct (IH (acc ++ [op])) as (new & -> & Hnew); [intros y Hy; apply Hl; by right|].
    exists (op :: new). rewrite <- app_assoc. by split; [|constructor].
Qed.
End Phases.

Section Rounds.
(** ** One round of the loop *)

Context (preds : gmap OpHash (gset OpHash)) (T : gset OpHash) (rank : OpHash -> nat).
Notation edge := (edge preds).
Hypothesis (T_closed : forall x y, x ∈ T -> edge x y -> y ∈ T).
Hypothesis (ranked : forall x y, edge x y -> (rank y < rank x)%nat).

(** The entry of a popped operation that still heads the epoch: it stands for
    itself when it has no successor, and else for the successors to come. *)
Definition open_entry (Q : gset OpHash) (h : OpHash) (s : gset OpHash) : Prop :=
  (s = {[h]} /\ forall x, x ∈ T -> ~ edge x h) \/
  ((exists x, x ∈ T /\ edge x h) /\ forall x, x ∈ s <-> x ∈ T /\ x ∉ Q /\ edge x h).

(** The state of the loop when [Q] has been popped. *)
Record popped (Q : gset OpHash) (ts : @TopologicalSort OpHash _ _) (succ : gmap OpHash (gset OpHash))
    (heads : gset OpHash) : Prop := {
  po_sub : Q ⊆ T;
  po_down x y : x ∈ Q -> edge x y -> y ∈ Q;
  po_mirrored : mirrored ts;
  po_nodes y : is_Some (deps ts !! y) <-> y ∈ T /\ y ∉ Q;
  po_deps y s : deps ts !! y = Some s -> forall z, z ∈ s <-> edge y z /\ z ∉ Q;
  po_heads h : h ∈ heads <-> h ∈ Q /\ ((forall x, x ∈ T -> ~ edge x h) \/ exists x, x ∈ T /\ x ∉ Q /\ edge x h);
  po_open h : h ∈ heads -> exists s, succ !! h = Some s /\ open_entry Q h s;
  po_succ y : y ∈ T -> y ∉ Q -> exists s, succ !! y = Some s /\ forall x, x ∈ s <-> x ∈ T /\ edge x y;
}.

Lemma rank_min (X : gset OpHash) x : x ∈ X -> exists m, m ∈ X /\ forall y, y ∈ X -> (rank m <= rank y)%nat.
Proof.
  remember (rank x) as n eqn:Hn. revert x Hn. induction n as [n IH] using lt_wf_ind. intros x Hn Hx.
  destruct (decide (set_Exists (fun y => (rank y < rank x)%nat) X)) as [(y & Hy & Hlt)|Hno].
  - apply (IH (rank y) ltac:(lia) y eq_refl Hy).
  - exists x. split; [done|]. intros y Hy. destruct (decide (rank y < rank x)%nat) as [Hlt|]; [|lia].
    destruct Hno. by exists y.
Qed.

(** A round pops something as long as something is left. *)
Lemma popped_progress Q ts succ heads :
  popped Q ts succ heads -> deps ts <> ∅ -> exists y, deps ts !! y = Some ∅.
Proof.
  intros Hp Hne. destruct (map_choose _ Hne) as (x & s & Hx).
  destruct (rank_min (dom (deps ts)) x) as (m & Hm & Hmin); [by apply elem_of_dom|].
  apply elem_of_dom in Hm as [sm Hsm]. exists m. rewrite Hsm. f_equal. apply set_eq. intros z.
  split; [|set_solver]. intros [Hz HzQ]%(po_deps _ _ _ _ Hp _ _ Hsm).
  assert (z ∈ dom (deps ts)) as Hzd.
  { apply elem_of_dom, (po_nodes _ _ _ _ Hp). split; [|done]. eapply T_closed; [|done].
    apply (po_nodes _ _ _ _ Hp). by exists sm. }
  specialize (Hmin z Hzd). specialize (ranked _ _ Hz). lia.
Qed.

(** What is popped next: what has all its predecessors popped. *)
Lemma popped_next Q ts succ heads next ts' :
  popped Q ts succ heads -> pop_all ts = (next, ts') ->
  NoDup next /\ mirrored ts' /\
  (forall y, y ∈ next <-> y ∈ T /\ y ∉ Q /\ forall z, edge y z -> z ∈ Q) /\
  forall y, deps ts' !! y = if decide (y ∈ next) then None else (fun s => s ∖ list_to_set next) <$> deps ts !! y.
Proof.
  intros Hp Hpop. destruct (pop_all_spec _ _ _ (po_mirrored _ _ _ _ Hp) Hpop) as (H1 & H2 & H3 & H4).
  split_and!; try done. intros y. rewrite H2. split.
  - intros Hy. destruct (proj1 (po_nodes _ _ _ _ Hp y) ltac:(by eexists)) as [HT HQ]. split_and!; [done..|].
    intros z Hz. destruct (decide (z ∈ Q)) as [|Hn]; [done|].
    assert (z ∈ (∅ : gset OpHash)) by (by apply (po_deps _ _ _ _ Hp y ∅ Hy)). set_solver.
  - intros (HT & HQ & Hz). destruct (proj2 (po_nodes _ _ _ _ Hp y) (conj HT HQ)) as [s Hs]. rewrite Hs. f_equal.
    apply set_eq. intros z. rewrite (po_deps _ _ _ _ Hp y s Hs). set_solver.
Qed.

Lemma no_self_edge x : ~ edge x x.
Proof. intros H%ranked. lia. Qed.

(** The entries of the epoch heads after marking, and after discharging. *)
Lemma open_marked Q ts succ heads (next : list OpHash) (succ1 : gmap OpHash (gset OpHash)) :
  popped Q ts succ heads ->
  (forall y, y ∈ next <-> y ∈ T /\ y ∉ Q /\ forall z, edge y z -> z ∈ Q) ->
  (forall y, succ1 !! y = if decide (y ∈ next /\ succ !! y = Some ∅) then Some {[y]} else succ !! y) ->
  forall y, y ∈ heads ∪ list_to_set next -> exists s, succ1 !! y = Some s /\ open_entry Q y s.
Proof.
  intros Hp Hnext Hsucc1 y Hy. rewrite Hsucc1. destruct (decide (y ∈ next)) as [Hn|Hn].
  - destruct (proj1 (Hnext y) Hn) as (HT & HQ & _). destruct (po_succ _ _ _ _ Hp y HT HQ) as (s & Hs & Hsx).
    destruct (decide (s = ∅)) as [->|Hse].
    + rewrite decide_True by done. eexists. split; [reflexivity|]. left. set_solver.
    + rewrite decide_False by (rewrite Hs; intros [_ ?]; congruence). exists s. split; [done|]. right.
      apply set_choose_L in Hse as [x Hx]. split; [exists x; by apply Hsx|].
      intros x'. rewrite Hsx. split; [|naive_solver]. intros [? He]. split_and!; [done| |done].
      intros HxQ. by eapply HQ, (po_down _ _ _ _ Hp x').
  - rewrite decide_False by tauto. apply (po_open _ _ _ _ Hp). set_solver.
Qed.

Lemma open_discharged Q y s (next : list OpHash) :
  open_entry Q y s -> open_entry (Q ∪ list_to_set next) y (s ∖ (list_to_set next ∖ {[y]})).
Proof.
  intros [[-> Hno]|[Hex Hs]].
  - left. set_solver.
  - right. split; [done|]. intros x. rewrite elem_of_difference, Hs. pose proof (no_self_edge y) as Hirr.
    destruct (decide (x = y)) as [->|]; set_solver.
Qed.

Lemma open_nonempty Q y s :
  open_entry Q y s -> s <> ∅ <-> (forall x, x ∈ T -> ~ edge x y) \/ exists x, x ∈ T /\ x ∉ Q /\ edge x y.
Proof.
  intros [[-> Hno]|[(x & HxT & Hx) Hs]].
  - split; [auto|set_solver].
  - split.
    + intros [x' Hx']%set_choose_L. right. exists x'. by apply Hs.
    + intros [Hno|(x' & Hx')]; [by destruct (Hno x)|]. apply Hs in Hx'. set_solver.
Qed.

(** A round keeps the invariant, for the popped operations with the new ones. *)
Lemma round_ok Q ts succ heads next ts' :
  popped Q ts succ heads -> pop_all ts = (next, ts') ->
  let next' := merge_sort Digest_le next in
  exists marked succ' heads',
    foldR mark_head next' (heads, succ) = Ok marked /\
    foldR (discharge marked.1) next' marked.2 = Ok succ' /\
    foldR (retain_head succ') (elements marked.1) ∅ = Ok heads' /\
    popped (Q ∪ list_to_set next') ts' succ' heads'.
Proof.
  intros Hp Hpop next'. destruct (popped_next _ _ _ _ _ _ Hp Hpop) as (Hnd & Hmir & Hnext & Hdeps).
  assert (next' ≡ₚ next) as Hperm by apply merge_sort_Permutation.
  assert (forall y, y ∈ next <-> y ∈ next') as Hin by (intros y; by rewrite Hperm).
  setoid_rewrite Hin in Hnext. assert (list_to_set next =@{gset OpHash} list_to_set next') as Hset by (by rewrite Hperm).
  destruct (mark_heads_ok next' heads succ) as (succ1 & Hmark & Hsucc1).
  { by rewrite Hperm. }
  { intros y (HT & HQ & _)%Hnext. destruct (po_succ _ _ _ _ Hp y HT HQ) as (s & Hs & _). by exists s. }
  set (H := heads ∪ list_to_set next') in *.
  pose proof (open_marked _ _ _ _ _ _ Hp Hnext Hsucc1 : forall y, y ∈ H -> _) as Hopen.
  destruct (discharges_ok H next' succ1) as (succ2 & Hdis & Hout & Hsucc2).
  { intros y (s & Hs & _)%Hopen. by exists s. }
  assert (forall y, y ∈ H -> exists s, succ2 !! y = Some s /\ open_entry (Q ∪ list_to_set next') y s) as Hopen2.
  { intros y Hy. destruct (Hopen y Hy) as (s & Hs & Ho). eexists. split; [by apply (Hsucc2 y s)|].
    by apply open_discharged. }
  destruct (retain_ok succ2 H) as (heads' & Hret & Hheads).
  { intros y (s & Hs & _)%Hopen2. by exists s. }
  exists (H, succ1), succ2, heads'. split_and!; [done..|].
  assert (forall h, h ∈ H -> h ∈ Q ∪ list_to_set next') as HHQ.
  { intros h [Hh|Hh]%elem_of_union; [apply (po_heads _ _ _ _ Hp) in Hh|]; set_solver. }
  constructor; try done.
  - intros y [Hy|Hy%elem_of_list_to_set%Hnext]%elem_of_union; [by apply (po_sub _ _ _ _ Hp)|by destruct Hy].
  - intros x y [Hx|Hx%elem_of_list_to_set%Hnext]%elem_of_union He; apply elem_of_union; left.
    + by apply (po_down _ _ _ _ Hp x).
    + destruct Hx as (_ & _ & Hx). by apply Hx.
  - intros y. rewrite Hdeps. destruct (decide (y ∈ next)) as [Hy|Hy].
    + split; [by intros []|]. apply Hin in Hy. set_solver.
    + rewrite fmap_is_Some, (po_nodes _ _ _ _ Hp). apply (not_iff_compat (Hin y)) in Hy. set_solver.
  - intros y s Hs z. rewrite Hdeps, Hset in Hs. destruct (decide (y ∈ next)) as [Hy|Hy]; [done|].
    destruct (deps ts !! y) as [s0|] eqn:Hs0; [|done]. injection Hs as <-.
    rewrite elem_of_difference, (po_deps _ _ _ _ Hp y s0 Hs0). set_solver.
  - intros h. rewrite Hheads. split.
    + intros [Hh Hne]. split; [by apply HHQ|]. destruct (Hopen2 h Hh) as (s & Hs & Ho).
      apply (open_nonempty _ _ _ Ho). congruence.
    + intros [Hh Hcase]. assert (h ∈ H) as HhH.
      { apply elem_of_union in Hh as [Hh|Hh]; [|set_solver]. apply elem_of_union. left.
        apply (po_heads _ _ _ _ Hp). split; [done|]. set_solver. }
      split; [done|]. destruct (Hopen2 h HhH) as (s & Hs & Ho).
      apply (open_nonempty _ _ _ Ho) in Hcase. congruence.
  - intros h [Hh _]%Hheads. by apply Hopen2.
  - intros y HT HQ. assert (y ∉ H) as HyH by (by intros ?%HHQ). rewrite (Hout y HyH), Hsucc1.
    rewrite decide_False by set_solver. apply (po_succ _ _ _ _ Hp); set_solver.
Qed.

(** ** Where an epoch ends *)

Lemma next_open Q ts succ heads (next : list OpHash) y :
  popped Q ts succ heads ->
  (forall y, y ∈ next <-> y ∈ T /\ y ∉ Q /\ forall z, edge y z -> z ∈ Q) -> y ∈ next ->
  (forall x, x ∈ T -> ~ edge x y) \/ exists x, x ∈ T /\ x ∉ Q ∪ list_to_set next /\ edge x y.
Proof.
  intros Hp Hnext Hy. destruct (proj1 (Hnext y) Hy) as (HT & HQ & _).
  destruct (po_succ _ _ _ _ Hp y HT HQ) as (s & Hs & Hsx). destruct (decide (s = ∅)) as [->|Hse].
  - left. set_solver.
  - right. apply set_choose_L in Hse as [x Hx]. apply Hsx in Hx as [HxT Hxy]. exists x. split_and!; [done| |done].
    intros [Hq|Hn%elem_of_list_to_set%Hnext]%elem_of_union.
    + by eapply HQ, (po_down _ _ _ _ Hp x).
    + destruct Hn as (_ & _ & Hn). by eapply HQ, Hn.
Qed.

(** From below: everything popped leads up to the one open operation. *)
Lemma cut_up (Q : gset OpHash) h :
  (forall q, q ∈ Q -> q <> h -> exists x, x ∈ Q /\ edge x q) ->
  forall q, q ∈ Q -> q <> h -> tc edge h q.
Proof.
  intros Hstep.
  assert (forall n q, (max_list (rank <$> elements Q) - rank q = n)%nat -> q ∈ Q -> q <> h -> tc edge h q) as Hind; [|by eauto].
  induction n as [n IH] using lt_wf_ind. intros q Hn Hq Hne.
  destruct (Hstep q Hq Hne) as (x & Hx & He). destruct (decide (x = h)) as [->|Hxh]; [by apply tc_once|].
  eapply tc_r; [|done]. eapply IH; [|reflexivity|done|done].
  assert (rank x <= max_list (rank <$> elements Q))%nat
    by (apply max_list_elem_of_le, list_elem_of_fmap; exists x; split; [done|by apply elem_of_elements]).
  specialize (ranked _ _ He). lia.
Qed.

(** From above: everything left leads down to it. *)
Lemma cut_down (Q : gset OpHash) (next : list OpHash) h :
  (forall y, y ∈ next <-> y ∈ T /\ y ∉ Q /\ forall z, edge y z -> z ∈ Q) -> next = [h] ->
  forall x, x ∈ T -> x ∉ Q -> x <> h -> tc edge x h.
Proof.
  intros Hnext -> x. remember (rank x) as n eqn:Hn. revert x Hn.
  induction n as [n IH] using lt_wf_ind. intros x -> HT HQ Hne.
  destruct (preds !! x) as [ps|] eqn:Hps.
  2: { destruct Hne. apply list_elem_of_singleton, Hnext. split_and!; [done..|]. intros z (? & ? & _). congruence. }
  destruct (decide (ps ∖ Q = ∅)) as [Hsub%empty_difference_subseteq_L|Hsub].
  { destruct Hne. apply list_elem_of_singleton, Hnext. split_and!; [done..|]. intros z (s & Hs & Hz).
    apply Hsub. congruence. }
  apply set_choose_L in Hsub as (p & [Hp HpQ]%elem_of_difference).
  assert (edge x p) as He by (by exists ps). destruct (decide (p = h)) as [->|Hph]; [by apply tc_once|].
  eapply tc_l; [done|]. eapply IH; [|reflexivity|by eapply T_closed|done|done]. by apply ranked.
Qed.

(** When at most one operation is open, the round popped just that one; it
    follows all that was popped and precedes all that is left. *)
Lemma epoch_cut Q ts succ heads (next : list OpHash) ts' succ' heads' :
  popped Q ts succ heads -> popped (Q ∪ list_to_set next) ts' succ' heads' ->
  NoDup next -> next <> [] ->
  (forall y, y ∈ next <-> y ∈ T /\ y ∉ Q /\ forall z, edge y z -> z ∈ Q) ->
  (size heads' <= 1)%nat ->
  exists h, next = [h] /\ (forall q, q ∈ Q -> tc edge h q) /\
    forall x, x ∈ T -> x ∉ Q ∪ list_to_set next -> tc edge x h.
Proof.
  intros Hp Hp' Hnd Hne Hnext Hsize.
  assert (forall y, y ∈ next -> y ∈ heads') as Hopen.
  { intros y Hy. apply (po_heads _ _ _ _ Hp'). split; [set_solver|]. by apply (next_open Q ts succ heads). }
  destruct next as [|h next]; [done|]. exists h.
  assert (size heads' = 1)%nat as Hone.
  { assert (size heads' <> 0)%nat; [|lia]. intros ?%size_empty_inv. specialize (Hopen h ltac:(by left)). set_solver. }
  assert (forall x, x ∈ heads' -> x = h) as Huniq.
  { intros x Hx. apply (size_singleton_inv heads'); [done..|]. apply Hopen. by left. }
  assert (next = []) as ->.
  { destruct next as [|h2 next]; [done|]. apply NoDup_cons in Hnd as [Hnin _]. destruct Hnin.
    rewrite <- (Huniq h2) by (apply Hopen; by right; left). by left. }
  destruct (proj1 (Hnext h) ltac:(by left)) as (HT & HhQ & _).
  split_and!; [done| |].
  - intros q Hq. apply (cut_up (Q ∪ list_to_set [h])); [|set_solver|by intros ->].
    intros q' Hq' Hqh. destruct (decide (q' ∈ heads')) as [?%Huniq|Hno]; [done|].
    destruct (decide (set_Exists (fun x => edge x q') (Q ∪ list_to_set [h]))) as [(x & Hx & He)|Hnone]; [by exists x|].
    destruct Hno. apply (po_heads _ _ _ _ Hp'). split; [done|].
    destruct (decide (set_Exists (fun x => edge x q') T)) as [(x & Hx & He)|HnoT].
    + right. exists x. split_and!; [done| |done]. intros HxQ. apply Hnone. by exists x.
    + left. intros x Hx He. apply HnoT. by exists x.
  - intros x Hx HxQ. apply (cut_down Q [h] h Hnext eq_refl); [done|set_solver..].
Qed.
End Rounds.
