(* ===== verification/OpTopsort.v ===== *)
(** * Correctness of [topsort_for_heads]

    The epochs it returns, and the invariant of operation graphs under which
    it returns them. *)

From S2P Require Import Prelude TreeMath Crypto Keys SecretStore Tree Signed TopSort CaMap OpGraph OpSearch OpEpochs.

Section Output.
Context `{P : Primitives} `{S : !Serialize (Signed CgkaOperation)}.
Context (preds : gmap OpHash (gset OpHash)) (ops : CaMap (Signed CgkaOperation)).

(** Every operation comes after all its predecessors. *)
Definition causal (l : list OpHash) : Prop :=
  forall l1 a l2, l = l1 ++ a :: l2 -> forall p, edge preds a p -> p ∈ l1.

(** Every operation of [e1] is an ancestor of every operation of [e2]. *)
Definition precedes (e1 e2 : CgkaEpoch) : Prop :=
  forall a b, a ∈ e1 -> b ∈ e2 -> tc (edge preds) (Digest_hash b) (Digest_hash a).

(** An epoch list: operations of the graph, no empty epoch, no operation twice,
    causal order, and every epoch entirely before the later ones. *)
Record epochs_ok (epochs : list CgkaEpoch) : Prop := {
  ep_known : Forall (fun op => ops !! Digest_hash op = Some op) (mjoin epochs);
  ep_nonempty : Forall (fun e => e <> []) epochs;
  ep_nodup : NoDup (Digest_hash <$> mjoin epochs);
  ep_causal : causal (Digest_hash <$> mjoin epochs);
  ep_precedes : StronglySorted precedes epochs;
}.

Lemma causal_app l l' : causal l -> (forall a p, a ∈ l' -> edge preds a p -> p ∈ l) -> causal (l ++ l').
Proof.
  intros Hl Hl' l1 a l2 Heq p Hp. apply app_eq_inv in Heq as [(k & Hk1 & Hk2)|(k & -> & Hk2)].
  - destruct k as [|b k]; [|injection Hk2 as -> ->; by eapply Hl].
    rewrite app_nil_r in Hk1. subst l1. simpl in Hk2. subst l'. apply (Hl' a); [by left|done].
  - apply elem_of_app. left. apply (Hl' a); [|done]. subst l'. set_solver.
Qed.

Lemma StronglySorted_snoc {A} (R : A -> A -> Prop) l x :
  StronglySorted R l -> (forall y, y ∈ l -> R y x) -> StronglySorted R (l ++ [x]).
Proof.
  induction 1 as [|y l Hl IH Hy]; intros Hx; simpl; [by repeat constructor|]. constructor.
  - apply IH. intros z Hz. apply Hx. by right.
  - apply Forall_app. split; [done|]. repeat constructor. apply Hx. by left.
Qed.

(** What the loop has put out when [Q] has been popped: finished epochs, and
    the open one. *)
Record emitted (T Q : gset OpHash) (epochs : list CgkaEpoch) (next : CgkaEpoch) : Prop := {
  em_known : Forall (fun op => ops !! Digest_hash op = Some op) (mjoin epochs ++ next);
  em_nonempty : Forall (fun e => e <> []) epochs;
  em_nodup : NoDup (Digest_hash <$> mjoin epochs ++ next);
  em_all y : y ∈ (Digest_hash <$> mjoin epochs ++ next) <-> y ∈ Q;
  em_causal : causal (Digest_hash <$> mjoin epochs ++ next);
  em_precedes : StronglySorted precedes epochs;
  em_cut a b : a ∈ mjoin epochs -> b ∈ (Digest_hash <$> next) \/ (b ∈ T /\ b ∉ Q) -> tc (edge preds) b (Digest_hash a);
}.

Lemma push_epoch_join epochs next : mjoin (push_epoch epochs next) = mjoin epochs ++ next.
Proof. destruct next; simpl; [by rewrite app_nil_r|]. rewrite join_app. simpl. by rewrite app_nil_r. Qed.

Lemma push_epoch_precedes epochs next :
  StronglySorted precedes epochs -> (forall a b, a ∈ mjoin epochs -> b ∈ next -> tc (edge preds) (Digest_hash b) (Digest_hash a)) ->
  StronglySorted precedes (push_epoch epochs next).
Proof.
  intros Hs Hc. destruct next as [|o next]; [done|]. apply StronglySorted_snoc; [done|].
  intros e He a b Ha Hb. apply Hc; [|done]. apply list_elem_of_join. by exists e.
Qed.

Lemma push_epoch_nonempty epochs next :
  Forall (fun e => e <> []) epochs -> Forall (fun e : CgkaEpoch => e <> []) (push_epoch epochs next).
Proof. intros He. destruct next; [done|]. apply Forall_app. by repeat constructor. Qed.

Lemma emitted_start T : emitted T ∅ [] [].
Proof.
  constructor; simpl; try by constructor.
  - intros y. split; [by intros ?%not_elem_of_nil|by intros ?%not_elem_of_empty].
  - intros l1 a l2 Hl. by destruct l1.
  - by intros a b ?%not_elem_of_nil.
Qed.

(** Ending the last epoch. *)
Lemma emitted_done T epochs next : emitted T T epochs next -> epochs_ok (push_epoch epochs next) /\
  forall y, y ∈ (Digest_hash <$> mjoin (push_epoch epochs next)) <-> y ∈ T.
Proof.
  intros [H0 H1 H2 H3 H4 H5 H6]. split; [constructor|]; rewrite ?push_epoch_join; try done.
  - by apply push_epoch_nonempty.
  - apply push_epoch_precedes; [done|]. intros a b Ha Hb. apply H6; [done|]. left. by apply list_elem_of_fmap_2.
Qed.

(** Listing a round in the open epoch. *)
Lemma emitted_more (T Q : gset OpHash) epochs next (l : list OpHash) new :
  emitted T Q epochs next -> NoDup l -> Digest_hash <$> new = l ->
  Forall (fun op => ops !! Digest_hash op = Some op) new ->
  (forall y, y ∈ l -> y ∈ T /\ y ∉ Q /\ forall z, edge preds y z -> z ∈ Q) ->
  emitted T (Q ∪ list_to_set l) epochs (next ++ new).
Proof.
  intros [H0 H1 H2 H3 H4 H5 H6] Hnd Hnew Hops Hl. constructor; try done; rewrite ?(assoc_L (++)), ?fmap_app, ?Hnew.
  - by apply Forall_app.
  - rewrite <- fmap_app. apply NoDup_app. split_and!; [done| |done]. intros y Hy%H3 (_ & ? & _)%Hl. done.
  - intros y. rewrite <- fmap_app, elem_of_app, H3. set_solver.
  - rewrite <- fmap_app. apply causal_app; [done|]. intros a p (_ & _ & Ha)%Hl Hp. by apply H3, Ha.
  - intros a b Ha [Hb|[HT HQ]].
    + apply elem_of_app in Hb as [Hb|Hb]; [by apply H6; [|left]|]. apply H6; [done|]. right.
      by destruct (Hl b Hb) as (? & ? & _).
    + apply H6; [done|]. right. set_solver.
Qed.

(** Closing the open epoch and emitting a single operation as an epoch. *)
Lemma emitted_cut (T Q : gset OpHash) epochs next h op :
  emitted T Q epochs next -> Digest_hash op = h -> ops !! h = Some op ->
  h ∈ T /\ h ∉ Q /\ (forall z, edge preds h z -> z ∈ Q) ->
  (forall q, q ∈ Q -> tc (edge preds) h q) ->
  (forall x, x ∈ T -> x ∉ Q ∪ list_to_set [h] -> tc (edge preds) x h) ->
  emitted T (Q ∪ list_to_set [h]) (push_epoch (push_epoch epochs next) [op]) [].
Proof.
  intros Hem Hop Hknown Hh Hup Hdown.
  destruct (emitted_more T Q epochs next [h] [op] Hem) as [M0 _ M2 M3 M4 _ _].
  { apply NoDup_singleton. }
  { simpl. by rewrite Hop. }
  { repeat constructor. by rewrite Hop. }
  { by intros y ->%list_elem_of_singleton. }
  destruct Hem as [_ H1 H2 H3 H4 H5 H6].
  assert (forall a, a ∈ mjoin epochs ++ next -> tc (edge preds) h (Digest_hash a)) as Hup'.
  { intros a Ha. apply Hup, H3. by apply list_elem_of_fmap_2. }
  constructor; rewrite ?push_epoch_join, ?app_nil_r, <- ?(assoc_L (++)); try done.
  - by do 2 apply push_epoch_nonempty.
  - apply push_epoch_precedes; [apply push_epoch_precedes; [done|]|].
    + intros a b Ha Hb. apply H6; [done|]. left. by apply list_elem_of_fmap_2.
    + rewrite push_epoch_join. intros a b Ha ->%list_elem_of_singleton. rewrite Hop. by apply Hup'.
  - intros a b Ha [Hb|[HT HQ]]; [by apply not_elem_of_nil in Hb|]. specialize (Hdown b HT HQ).
    rewrite (assoc_L (++)) in Ha. apply elem_of_app in Ha as [Ha| ->%list_elem_of_singleton]; [|by rewrite Hop].
    etrans; [done|]. by apply Hup'.
Qed.

(** ** The loop *)

Context (T : gset OpHash) (rank : OpHash -> nat).
Hypothesis (ops_wf : ca_wf ops).
Hypothesis (T_known : forall y, y ∈ T -> is_Some (ops !! y)).
Hypothesis (T_closed : forall x y, x ∈ T -> edge preds x y -> y ∈ T).
Hypothesis (ranked : forall x y, edge preds x y -> (rank y < rank x)%nat).

Lemma ops_keys l new : Forall2 (fun h op => ops !! h = Some op) l new -> Digest_hash <$> new = l.
Proof.
  induction 1 as [|h op l new Hop _ IH]; [done|]. rewrite fmap_cons, IH. f_equal. symmetry. by apply ops_wf.
Qed.

Lemma ops_known l new :
  Forall2 (fun h op => ops !! h = Some op) l new -> Forall (fun op => ops !! Digest_hash op = Some op) new.
Proof.
  induction 1 as [|h op l new Hop _ IH]; constructor; [|done]. by rewrite <- (ops_wf _ _ Hop).
Qed.

Lemma all_popped Q ts succ heads : popped preds T Q ts succ heads -> deps ts = ∅ -> Q = T.
Proof.
  intros Hp He. apply set_eq. intros y. split; [apply (po_sub _ _ _ _ _ _ Hp)|]. intros Hy.
  destruct (decide (y ∈ Q)) as [|Hn]; [done|].
  destruct (proj2 (po_nodes _ _ _ _ _ _ Hp y) (conj Hy Hn)) as [s Hs]. by rewrite He in Hs.
Qed.

Lemma epoch_loop_ok : forall fuel Q ts succ heads next epochs,
  popped preds T Q ts succ heads -> emitted T Q epochs next -> (size (T ∖ Q) <= fuel)%nat ->
  exists out, epoch_loop fuel ops ts succ heads next epochs = Ok out /\ epochs_ok out /\
    forall y, y ∈ (Digest_hash <$> mjoin out) <-> y ∈ T.
Proof.
  induction fuel as [|fuel IH]; intros Q ts succ heads next epochs Hp Hem Hfuel; cbn [epoch_loop]; unfold ts_is_empty.
  all: destruct (decide (deps ts = ∅)) as [He|He];
    [rewrite bool_decide_true by done; pose proof (all_popped _ _ _ _ Hp He); subst Q;
     eexists; split; [reflexivity|by apply emitted_done]|rewrite bool_decide_false by done].
  all: destruct (popped_progress _ _ _ T_closed ranked _ _ _ _ Hp He) as [m Hm].
  all: destruct (pop_all ts) as [ready ts'] eqn:Hpop.
  all: destruct (popped_next _ _ _ T_closed ranked _ _ _ _ _ _ Hp Hpop) as (Hnd & _ & Hready & _).
  all: assert (m ∈ ready) as Hmr
    by (apply (pop_all_spec _ _ _ (po_mirrored _ _ _ _ _ _ Hp) Hpop); done).
  { apply Hready in Hmr as (HmT & HmQ & _). assert (size (T ∖ Q) = 0)%nat as Hz%size_empty_inv by lia. set_solver. }
  destruct (round_ok _ _ _ T_closed ranked _ _ _ _ _ _ Hp Hpop) as (marked & succ' & heads' & -> & Hdis & Hret & Hp').
  set (next' := merge_sort Digest_le ready) in *. cbn [bindR]. rewrite Hdis. cbn [bindR]. rewrite Hret. cbn [bindR].
  assert (next' ≡ₚ ready) as Hperm by apply merge_sort_Permutation.
  assert (NoDup next') as Hnd' by (by rewrite Hperm).
  assert (forall y, y ∈ next' <-> y ∈ T /\ y ∉ Q /\ forall z, edge preds y z -> z ∈ Q) as Hnext
    by (intros y; rewrite Hperm; apply Hready).
  assert (size (T ∖ (Q ∪ list_to_set next')) <= fuel)%nat as Hfuel'.
  { assert (size (T ∖ (Q ∪ list_to_set next')) < size (T ∖ Q))%nat; [|lia]. apply subset_size.
    rewrite <- Hperm in Hmr. destruct (proj1 (Hnext m) Hmr) as (? & ? & _). clear -Hmr H H0. set_solver. }
  clear Hfuel. assert (forall y, y ∈ next' -> is_Some (ops !! y)) as Hknown
    by (intros y (Hy & _)%Hnext; by apply T_known).
  destruct (size heads' <=? 1)%nat eqn:Hsize.
  - apply Nat.leb_le in Hsize.
    destruct (epoch_cut _ _ _ T_closed ranked _ _ _ _ next' _ _ _ Hp Hp' Hnd') as (h & Hh & Hup & Hdown); [|done..|].
    { intros Hnil. rewrite <- Hperm, Hnil in Hmr. by apply not_elem_of_nil in Hmr. }
    clearbody next'. subst next'. destruct (get_ops_ok ops [h] [] Hknown) as (new & -> & Hnew). cbn [bindR app].
    pose proof (ops_keys _ _ Hnew) as Hkeys. inversion Hnew as [|? op ? new' Hop Hnil]; subst. inversion Hnil; subst.
    eapply IH; [exact Hp'| |done]. eapply emitted_cut; [done| |done|apply Hnext; by left|done..]. by injection Hkeys.
  - destruct (get_ops_ok ops next' next Hknown) as (new & -> & Hnew). cbn [bindR].
    eapply IH; [exact Hp'| |done]. eapply emitted_more; [done..|by apply ops_keys|by eapply ops_known|]. intros y Hy. by apply Hnext.
Qed.
End Output.

(** ** Well-formed graphs *)

Section GraphInvariant.
Context `{P : Primitives} `{S : !Serialize (Signed CgkaOperation)}.

(** The graph holds its operations under their digests, with the predecessors
    they name; it is closed under predecessors and acyclic, and its heads are
    the operations without successors. *)
Record graph_wf (g : CgkaOperationGraph) : Prop := {
  gw_ops : ca_wf (cgka_ops g);
  gw_preds k op : cgka_ops g !! k = Some op -> cgka_ops_predecessors g !! k = Some (predecessors (payload op));
  gw_dom : dom (cgka_ops_predecessors g) = dom (cgka_ops g);
  gw_closed : closed (cgka_ops_predecessors g);
  gw_acyclic : exists rank : OpHash -> nat, forall x y, edge (cgka_ops_predecessors g) x y -> (rank y < rank x)%nat;
  gw_heads x : x ∈ cgka_op_heads g <-> is_Some (cgka_ops g !! x) /\ forall y, ~ edge (cgka_ops_predecessors g) y x;
  gw_adds x : x ∈ add_heads g -> exists op, cgka_ops g !! x = Some op /\ is_add (payload op) = true;
}.

Lemma ancestor_closed preds heads x y : ancestor_of preds heads x -> edge preds x y -> ancestor_of preds heads y.
Proof. intros (h & Hh & Hx) He. exists h. split; [done|]. by eapply rtc_r. Qed.

Lemma ancestor_known (preds : gmap OpHash (gset OpHash)) heads x :
  closed preds -> heads ⊆ dom preds -> ancestor_of preds heads x -> x ∈ dom preds.
Proof.
  intros Hcl Hh (h & Hin & [->|(y & _ & Hy)]%rtc_inv_r); [by apply Hh|]. by apply elem_of_dom, (Hcl y).
Qed.

(** The state in which the pop loop starts. *)
Lemma searching_popped preds heads s :
  searching preds heads (seen s) s -> ts_is_empty (dependencies s) = false ->
  popped preds (dom (deps (dependencies s))) ∅ (dependencies s) (successors s) ∅ /\
  forall y, y ∈ dom (deps (dependencies s)) <-> linked preds heads y.
Proof.
  intros Hs Hne. pose proof Hs as [Hco _ _ _ _ _ _].
  assert (forall x, x ∈ seen s <-> ancestor_of preds heads x) as Hseen by (intros x; by apply searching_seen).
  assert (forall y, y ∈ dom (deps (dependencies s)) <-> linked preds heads y) as Hdom.
  { intros y. rewrite elem_of_dom, (co_nodes _ _ Hco). setoid_rewrite Hseen. unfold linked. split.
    - intros (z & [[Hy He]|[Hz He]]).
      + split; [done|]. exists z. split; [by eapply ancestor_closed|by left].
      + split; [by eapply ancestor_closed|]. exists z. split; [done|by right].
    - intros (Hy & z & Hz & [He|He]); exists z; auto. }
  split; [|done]. constructor.
  - apply empty_subseteq.
  - by intros x y ?%not_elem_of_empty.
  - apply Hco.
  - intros y. rewrite elem_of_dom. pose proof (not_elem_of_empty (C := gset OpHash) y). tauto.
  - intros y r Hr z. rewrite (co_deps _ _ Hco y r Hr), Hseen. split; [|intros [He _]; split; [|done]].
    { intros [_ He]. split; [done|apply not_elem_of_empty]. }
    by apply Hdom, elem_of_dom; exists r.
  - intros h. pose proof (not_elem_of_empty (C := gset OpHash) h). tauto.
  - by intros h ?%not_elem_of_empty.
  - intros y [Hy _]%Hdom _. destruct (proj1 (co_seen _ _ Hco y) ltac:(by apply Hseen)) as [r Hr]. exists r.
    split; [done|]. intros x. rewrite (co_succ _ _ Hco y r Hr), Hdom, Hseen. unfold linked. naive_solver.
Qed.

Lemma single_epoch_ok (g : CgkaOperationGraph) (l : list OpHash) : forall acc,
  (forall y, y ∈ l -> is_Some (cgka_ops g !! y)) ->
  exists new, foldR (fun acc hash => bindR (expectR (CaMap_get hash (cgka_ops g))) (fun op => Ok (acc ++ [op]))) l acc
    = (Ok (acc ++ new) : res CgkaError _) /\ Forall2 (fun h op => cgka_ops g !! h = Some op) l new.
Proof.
  induction l as [|h l IH]; intros acc Hl; simpl.
  - exists []. by rewrite app_nil_r.
  - destruct (Hl h ltac:(by left)) as [op Hop]. unfold CaMap_get at 1. rewrite Hop. simpl.
    destruct (IH (acc ++ [op])) as (new & -> & Hnew); [intros y Hy; apply Hl; by right|].
    exists (op :: new). rewrite <- app_assoc. by split; [|constructor].
Qed.

(** What [topsort_for_heads] lists: the linked ancestors of the heads, or just
    the heads when nothing is linked. *)
Definition listed (preds : gmap OpHash (gset OpHash)) (heads : gset OpHash) (y : OpHash) : Prop :=
  linked preds heads y \/ ((forall z, ~ linked preds heads z) /\ y ∈ heads).

Section Sort.
Context (g : CgkaOperationGraph) (heads : gset OpHash).
Notation preds := (cgka_ops_predecessors g).
Hypothesis (Hg : graph_wf g).
Hypothesis (Hsub : heads ⊆ dom (cgka_ops g)).

Lemma ancestor_in_graph y : ancestor_of preds heads y -> is_Some (cgka_ops g !! y).
Proof.
  intros Hy. apply elem_of_dom. rewrite <- (gw_dom _ Hg).
  apply (ancestor_known _ heads); [apply Hg|by rewrite (gw_dom _ Hg)|done].
Qed.

Lemma search_in_graph : exists s, search_from heads preds = Ok s /\ searching preds heads (seen s) s /\
  (ts_is_empty (dependencies s) = true -> forall x y, ancestor_of preds heads x -> ~ edge preds x y).
Proof.
  destruct (search_from_ok preds heads (gw_closed _ Hg)) as (s & Hs & Hse); [by rewrite (gw_dom _ Hg)|].
  exists s. split_and!; [done..|]. intros Hemp x y Hx He. apply bool_decide_eq_true in Hemp.
  pose proof (se_collected _ _ _ _ Hse) as Hco.
  destruct (proj2 (co_nodes _ _ Hco x)) as [r Hr]; [|by rewrite Hemp in Hr].
  exists y. left. split; [|done]. by apply (searching_seen preds heads s x Hse).
Qed.

(** With some edge among the ancestors, the loop runs over the linked ones. *)
Lemma topsort_linked :
  (exists y, linked preds heads y) ->
  exists T ts succ out, (forall y, y ∈ T <-> linked preds heads y) /\ popped preds T ∅ ts succ ∅ /\
    epoch_loop (size T) (cgka_ops g) ts succ ∅ [] [] = Ok out /\ topsort_for_heads heads g = Ok out /\
    epochs_ok preds (cgka_ops g) out /\ forall y, y ∈ (Digest_hash <$> mjoin out) <-> y ∈ T.
Proof.
  intros (y0 & Hy0). destruct (gw_acyclic _ Hg) as [rank Hrank].
  destruct search_in_graph as (s & Hs & Hse & Hemp). unfold topsort_for_heads. rewrite Hs. cbn [bindR].
  destruct (ts_is_empty (dependencies s)) eqn:He.
  { exfalso. destruct Hy0 as (Hy & z & Hz & [Hyz|Hzy]); [by apply (Hemp eq_refl y0 z)|by apply (Hemp eq_refl z y0)]. }
  destruct (searching_popped preds heads s Hse He) as [Hpop Hdom]. rewrite <- size_dom.
  set (T := dom (deps (dependencies s))) in *.
  destruct (epoch_loop_ok preds (cgka_ops g) T rank (gw_ops _ Hg)) with
    (fuel := size T) (Q := ∅ : gset OpHash) (ts := dependencies s) (succ := successors s)
    (heads := ∅ : gset OpHash) (next := [] : CgkaEpoch) (epochs := [] : list CgkaEpoch) as (out & Hout & Hok & Hall).
  - intros y [Hy _]%Hdom. by apply ancestor_in_graph.
  - intros x y (Hx & _)%Hdom He'. apply Hdom. split; [by eapply ancestor_closed|]. exists x. auto.
  - done.
  - done.
  - apply emitted_start.
  - by rewrite difference_empty_L.
  - exists T, (dependencies s), (successors s), out. rewrite Hout. cbn [bindR]. split_and!; try done.
    destruct out as [|e out]; [|done]. apply Hdom, Hall in Hy0. by apply not_elem_of_nil in Hy0.
Qed.

(** Without one, the heads are one epoch. *)
Lemma topsort_unlinked :
  heads <> ∅ -> (forall y, ~ linked preds heads y) ->
  exists new, topsort_for_heads heads g = Ok [new] /\
    Forall2 (fun h op => cgka_ops g !! h = Some op) (elements heads) new.
Proof.
  intros Hne Hno. destruct search_in_graph as (s & Hs & Hse & _). unfold topsort_for_heads. rewrite Hs. cbn [bindR].
  destruct (ts_is_empty (dependencies s)) eqn:He.
  - destruct (single_epoch_ok g (elements heads) []) as (new & -> & Hnew).
    { intros y Hy%elem_of_elements. apply elem_of_dom. by apply Hsub. }
    exists new. cbn [bindR app]. destruct new as [|o new]; [|done].
    apply Forall2_nil_inv_r in Hnew. destruct Hne. by apply leibniz_equiv, elements_empty_iff.
  - destruct (searching_popped preds heads s Hse He) as [_ Hdom]. apply bool_decide_eq_false in He.
    apply map_choose in He as (k & r & Hk). destruct (Hno k). apply Hdom, elem_of_dom. by exists r.
Qed.

Lemma linked_dec : (exists y, linked preds heads y) \/ (forall y, ~ linked preds heads y).
Proof.
  destruct search_in_graph as (s & Hs & Hse & Hemp). destruct (ts_is_empty (dependencies s)) eqn:He.
  - right. intros y (Hy & z & Hz & [Hyz|Hzy]); [by apply (Hemp eq_refl y z)|by apply (Hemp eq_refl z y)].
  - left. destruct (searching_popped preds heads s Hse He) as [_ Hdom]. apply bool_decide_eq_false in He.
    apply map_choose in He as (k & r & Hk). exists k. apply Hdom, elem_of_dom. by exists r.
Qed.

Lemma topsort_ok :
  heads <> ∅ ->
  exists epochs, topsort_for_heads heads g = Ok epochs /\ epochs_ok preds (cgka_ops g) epochs /\
    forall y, y ∈ (Digest_hash <$> mjoin epochs) <-> listed preds heads y.
Proof.
  intros Hne. destruct linked_dec as [Hlink|Hno].
  - destruct (topsort_linked Hlink) as (T & ts & succ & out & HT & _ & _ & Hout & Hok & Hall). exists out.
    split_and!; [done..|]. intros y. rewrite Hall, HT. unfold listed. split; [auto|].
    intros [?|[Hno _]]; [done|]. destruct Hlink as [z Hz]. by destruct (Hno z).
  - destruct (topsort_unlinked Hne Hno) as (new & Hnew & Hops). exists [new]. split; [done|].
    pose proof (ops_keys _ (gw_ops _ Hg) _ _ Hops) as Hkeys.
    assert (mjoin [new] = new) as Hjoin by (cbn [mjoin list_join]; by rewrite app_nil_r).
    assert (forall x y, x ∈ heads -> ~ edge preds x y) as Hnoedge.
    { intros x y Hx He. assert (ancestor_of preds heads x) as Ha by (exists x; split; [done|apply rtc_refl]).
      apply (Hno x). split; [done|]. exists y. split; [by eapply ancestor_closed|by left]. }
    split; [constructor; rewrite ?Hjoin|rewrite Hjoin]; rewrite ?Hkeys.
    + by eapply ops_known; [apply (gw_ops _ Hg)|].
    + repeat constructor. intros ->. simpl in Hkeys. destruct Hne. by apply leibniz_equiv, elements_empty_iff.
    + apply NoDup_elements.
    + intros l1 a l2 Hl p He. destruct (Hnoedge a p); [|done]. apply elem_of_elements. rewrite Hl.
      apply elem_of_app. right. by left.
    + repeat constructor.
    + intros y. rewrite elem_of_elements. unfold listed. split; [auto|]. intros [?|[_ ?]]; [by destruct (Hno y)|done].
Qed.
End Sort.
End GraphInvariant.
