(* ===== verification/OpGraphInv.v ===== *)
(** * Growing the operation graph

    Adding operations keeps the graph well formed, and a graph that grew from
    one initial operation is sorted in full. *)

From S2P Require Import Prelude TreeMath Crypto Keys SecretStore Tree Signed TopSort CaMap OpGraph OpSearch OpEpochs.
From S2P Require Import OpTopsort.

Section Grow.
Context `{P : Primitives} `{S : !Serialize (Signed CgkaOperation)}.

Lemma contains_predecessors_spec ps g : contains_predecessors ps g = true <-> ps ⊆ dom (cgka_ops g).
Proof.
  unfold contains_predecessors. rewrite forallb_forall. split.
  - intros Hall x Hx. apply elem_of_dom. specialize (Hall x).
    apply bool_decide_eq_true in Hall; [done|]. by apply list_elem_of_In, elem_of_elements.
  - intros Hsub x Hx%list_elem_of_In%elem_of_elements%Hsub. by apply bool_decide_eq_true, elem_of_dom.
Qed.

Lemma contains_op_hash_spec h g : contains_op_hash h g = bool_decide (is_Some (cgka_ops g !! h)).
Proof. done. Qed.

(** The graph after recording [op] with the predecessors [ps]. *)
Definition grown (op : SignedOp) (ps heads adds : gset OpHash) (g : CgkaOperationGraph) : CgkaOperationGraph :=
  mkGraph (<[Digest_hash op := op]> (cgka_ops g)) (<[Digest_hash op := ps]> (cgka_ops_predecessors g))
    ({[Digest_hash op]} ∪ heads) (if is_add (payload op) then {[Digest_hash op]} ∪ adds else adds).

Definition add_preds (op : CgkaOperation) : gset OpHash :=
  match op with Add _ _ _ _ add_predecessors _ => list_to_set add_predecessors | _ => ∅ end.

Lemma add_op_eq op ps g :
  add_op op ps g = Ok (grown op ps (cgka_op_heads g ∖ ps) (add_heads g ∖ add_preds (payload op)) g).
Proof.
  unfold add_op, add_op_and_update_heads, is_add_op, CaMap_get. cbn [CaMap_insert snd]. rewrite lookup_insert_eq.
  cbn [expectR bindR]. unfold grown. destruct (payload op); cbn [is_add add_preds]; by rewrite ?difference_empty_L.
Qed.

Lemma add_local_op_eq op g :
  add_local_op op g = Ok (grown op (cgka_op_heads g) ∅ (if is_add (payload op) then ∅ else add_heads g) g).
Proof.
  unfold add_local_op, add_op_and_update_heads, is_add_op, CaMap_get. cbn [CaMap_insert snd]. rewrite lookup_insert_eq.
  cbn [expectR bindR]. unfold grown. by destruct (payload op).
Qed.

Lemma grown_edge (preds : gmap OpHash (gset OpHash)) h ps x y :
  edge (<[h := ps]> preds) x y <-> (x = h /\ y ∈ ps) \/ (x <> h /\ edge preds x y).
Proof.
  unfold edge. destruct (decide (x = h)) as [->|Hne].
  - rewrite lookup_insert_eq. naive_solver.
  - rewrite lookup_insert_ne by done. naive_solver.
Qed.

Lemma grown_wf op heads adds g :
  let ps := predecessors (payload op) in
  graph_wf g -> cgka_ops g !! Digest_hash op = None -> ps ⊆ dom (cgka_ops g) ->
  heads = cgka_op_heads g ∖ ps -> adds ⊆ add_heads g -> graph_wf (grown op ps heads adds g).
Proof.
  intros ps Hg Hnew Hps -> Hadds. pose proof Hg as [Hops Hpreds Hdom Hcl [rank Hrank] Hheads Had].
  set (h := Digest_hash op) in *.
  assert (h ∉ dom (cgka_ops_predecessors g)) as Hh by (rewrite Hdom; by apply not_elem_of_dom).
  assert (forall x, ~ edge (cgka_ops_predecessors g) x h) as Hnoto by (intros x Hx%Hcl%elem_of_dom; done).
  assert (forall y, ~ edge (cgka_ops_predecessors g) h y) as Hnofrom
    by (intros y (s & Hs & _); apply Hh, elem_of_dom; by exists s).
  assert (h ∉ ps) as Hself by (intros Hin%Hps; by apply not_elem_of_dom in Hnew).
  constructor; cbn [cgka_ops cgka_ops_predecessors cgka_op_heads add_heads grown]; fold h.
  - by apply map_Forall_insert_2.
  - intros k o. destruct (decide (k = h)) as [->|Hk]; [rewrite !lookup_insert_eq; by intros [= ->]|].
    rewrite !lookup_insert_ne by done. apply Hpreds.
  - rewrite !dom_insert_L. by rewrite Hdom.
  - intros x y [[-> Hy]|[_ Hy]]%grown_edge; rewrite lookup_insert_is_Some'; right.
    + apply elem_of_dom. rewrite Hdom. by apply Hps.
    + by apply (Hcl x).
  - exists (fun x => if decide (x = h) then Datatypes.S (max_list (rank <$> elements ps)) else rank x).
    intros x y [[-> Hy]|[Hx Hy]]%grown_edge.
    + rewrite (decide_True (P := h = h)) by done. rewrite decide_False by (intros ->; done).
      apply Nat.lt_succ_r, max_list_elem_of_le, list_elem_of_fmap. exists y. split; [done|by apply elem_of_elements].
    + rewrite (decide_False (P := x = h)) by done. rewrite decide_False by (intros ->; by apply (Hnoto x)).
      by apply Hrank.
  - intros x. rewrite elem_of_union, elem_of_singleton, elem_of_difference, Hheads, lookup_insert_is_Some'.
    setoid_rewrite grown_edge. split.
    + intros [->|[[Hx Hno] Hxp]].
      * split; [by left|]. intros y [[-> ?]|[_ ?]]; [done|]. by apply (Hnoto y).
      * split; [by right|]. intros y [[-> ?]|[_ ?]]; [done|]. by apply (Hno y).
    + intros [[<-|Hx] Hno]; [by left|]. destruct (decide (x = h)) as [->|Hxh]; [by left|]. right. split_and!; [done| |].
      * intros y Hy. apply (Hno y). right. split; [|done]. intros ->. by apply (Hnofrom x).
      * intros Hin. apply (Hno h). by left.
  - intros x Hx. assert ((x = h /\ is_add (payload op) = true) \/ x ∈ add_heads g) as [[-> Ha]|Hin].
    { destruct (is_add (payload op)); [|right; by apply Hadds].
      apply elem_of_union in Hx as [->%elem_of_singleton|Hx]; [by left|right; by apply Hadds]. }
    + exists op. by rewrite lookup_insert_eq.
    + destruct (Had x Hin) as (o & Ho & Ha). exists o. split; [|done]. rewrite lookup_insert_ne; [done|].
      intros <-. congruence.
Qed.

(** ** Heads *)

Lemma heads_cover g y : graph_wf g -> is_Some (cgka_ops g !! y) -> ancestor_of (cgka_ops_predecessors g) (cgka_op_heads g) y.
Proof.
  intros Hg. destruct (gw_acyclic _ Hg) as [rank Hrank]. set (D := dom (cgka_ops_predecessors g)).
  remember (max_list (rank <$> elements D) - rank y)%nat as k eqn:Hk. revert y Hk.
  induction k as [k IH] using lt_wf_ind. intros y -> Hy.
  destruct (decide (set_Exists (fun x => edge (cgka_ops_predecessors g) x y) D)) as [(x & Hx & He)|Hno].
  - eapply ancestor_closed; [|done]. assert (rank x <= max_list (rank <$> elements D))%nat
      by (apply max_list_elem_of_le, list_elem_of_fmap; exists x; split; [done|by apply elem_of_elements]).
    eapply IH; [|reflexivity|].
    + specialize (Hrank x y He). lia.
    + apply elem_of_dom. by rewrite <- (gw_dom _ Hg).
  - exists y. split; [|apply rtc_refl]. apply (gw_heads _ Hg). split; [done|]. intros x He. apply Hno.
    exists x. split; [|done]. destruct He as (s & Hs & _). apply elem_of_dom. by exists s.
Qed.

Lemma heads_known g : graph_wf g -> cgka_op_heads g ⊆ dom (cgka_ops g).
Proof. intros Hg x [Hx _]%(gw_heads _ Hg). by apply elem_of_dom. Qed.

Lemma heads_nonempty g y : graph_wf g -> is_Some (cgka_ops g !! y) -> cgka_op_heads g <> ∅.
Proof. intros Hg Hy He. destruct (heads_cover g y Hg Hy) as (h & Hh & _). rewrite He in Hh. by apply not_elem_of_empty in Hh. Qed.

(** Heads among the predecessors of an operation are all of them, if those
    follow nothing in their own history. *)
Lemma heads_are_preds g (ps : gset OpHash) :
  graph_wf g -> ps ⊆ dom (cgka_ops g) -> cgka_op_heads g ⊆ ps ->
  (forall x y, y ∈ ps -> ancestor_of (cgka_ops_predecessors g) ps x -> ~ edge (cgka_ops_predecessors g) x y) ->
  ps = cgka_op_heads g.
Proof.
  intros Hg Hps Hheads Hanti. apply set_eq. intros y. split; [|apply Hheads]. intros Hy.
  destruct (heads_cover g y Hg) as (h & Hh & [->|(x & Hhx & Hxy)]%rtc_inv_r).
  - apply elem_of_dom. by apply Hps.
  - done.
  - destruct (Hanti x y Hy); [|done]. exists h. split; [by apply Hheads|done].
Qed.

(** An operation on top of all heads is new: its digest is not in the graph. *)
Lemma op_on_heads_new g op y :
  collision_free (Signed CgkaOperation) -> graph_wf g -> is_Some (cgka_ops g !! y) ->
  predecessors (payload op) = cgka_op_heads g -> cgka_ops g !! Digest_hash op = None.
Proof.
  intros Hcf Hg Hy Hps. destruct (cgka_ops g !! Digest_hash op) as [o|] eqn:Ho; [|done]. exfalso.
  assert (o = op) as -> by (apply Hcf; symmetry; by apply (gw_ops _ Hg)).
  destruct (set_choose_L _ (heads_nonempty g y Hg Hy)) as [h Hh].
  apply (gw_heads _ Hg) in Hh as Hh'. destruct Hh' as [_ Hno]. apply (Hno (Digest_hash op)).
  exists (predecessors (payload op)). split; [by apply (gw_preds _ Hg)|]. by rewrite Hps.
Qed.

(** Well-formed graphs with the same operations have the same predecessors and
    heads. *)
Lemma same_ops_same_graph g1 g2 :
  graph_wf g1 -> graph_wf g2 -> cgka_ops g1 = cgka_ops g2 ->
  cgka_ops_predecessors g1 = cgka_ops_predecessors g2 /\ cgka_op_heads g1 = cgka_op_heads g2.
Proof.
  intros H1 H2 Heq. assert (cgka_ops_predecessors g1 = cgka_ops_predecessors g2) as Hp.
  { apply map_eq. intros k. destruct (cgka_ops g1 !! k) as [o|] eqn:Ho.
    - rewrite (gw_preds _ H1 k o Ho). rewrite Heq in Ho. by rewrite (gw_preds _ H2 k o Ho).
    - pose proof Ho as Ho'. rewrite Heq in Ho'. apply not_elem_of_dom in Ho, Ho'.
      rewrite <- (gw_dom _ H1) in Ho. rewrite <- (gw_dom _ H2) in Ho'.
      apply not_elem_of_dom in Ho, Ho'. congruence. }
  split; [done|]. apply set_eq. intros x. by rewrite (gw_heads _ H1), (gw_heads _ H2), Heq, Hp.
Qed.
End Grow.
