(* ===== verification/OpExtend.v ===== *)
(** * Sorting a history extended by one operation

    An operation whose predecessors are the heads of a history comes alone in
    the last epoch, and the epochs before it are those of the history without
    it.  So applying operations one by one and replaying the graph agree. *)

From S2P Require Import Prelude TreeMath Crypto Keys SecretStore Tree Signed TopSort CaMap OpGraph OpSearch OpEpochs OpTopsort OpGraphInv.

Section Lockstep.
Context `{P : Primitives} `{S : !Serialize (Signed CgkaOperation)}.
(** The history [T] with predecessors [p1] and operations [ops1], and the
    extension by [n], whose predecessors [H] are the sinks of [T]. *)
Context (p1 p2 : gmap OpHash (gset OpHash)) (ops1 ops2 : CaMap (Signed CgkaOperation)).
Context (T H : gset OpHash) (n : OpHash) (op : SignedOp) (rank1 rank2 : OpHash -> nat).
Hypothesis (T_closed : forall x y, x ∈ T -> edge p1 x y -> y ∈ T).
Hypothesis (ranked1 : forall x y, edge p1 x y -> (rank1 y < rank1 x)%nat).
Hypothesis (ranked2 : forall x y, edge p2 x y -> (rank2 y < rank2 x)%nat).
Hypothesis (agree : forall x, x ∈ T -> p2 !! x = p1 !! x).
Hypothesis (agree_ops : forall x, x ∈ T -> ops2 !! x = ops1 !! x).
Hypothesis (n_new : n ∉ T).
Hypothesis (n_preds : p2 !! n = Some H).
Hypothesis (n_op : ops2 !! n = Some op).
Hypothesis (H_sub : H ⊆ T).
Hypothesis (H_sinks : forall y, y ∈ T -> y ∈ H <-> forall x, x ∈ T -> ~ edge p1 x y).
Notation T2 := (T ∪ {[n]}).

Lemma edge_agree x y : x ∈ T -> edge p2 x y <-> edge p1 x y.
Proof. intros Hx. unfold edge. by rewrite agree. Qed.

Lemma edge_n y : edge p2 n y <-> y ∈ H.
Proof. unfold edge. rewrite n_preds. naive_solver. Qed.

Lemma T2_closed x y : x ∈ T2 -> edge p2 x y -> y ∈ T2.
Proof.
  intros [Hx| ->%elem_of_singleton]%elem_of_union He; apply elem_of_union; left.
  - by apply edge_agree, (T_closed x) in He.
  - by apply H_sub, edge_n.
Qed.

(** A downward closed part with all the sinks is everything. *)
Lemma sinks_all (Q : gset OpHash) :
  (forall x y, x ∈ Q -> edge p1 x y -> y ∈ Q) -> H ⊆ Q -> T ⊆ Q.
Proof.
  intros Hdown HH y. remember (max_list (rank1 <$> elements T) - rank1 y)%nat as k eqn:Hk. revert y Hk.
  induction k as [k IH] using lt_wf_ind. intros y -> Hy.
  destruct (decide (set_Exists (fun x => edge p1 x y) T)) as [(x & Hx & He)|Hno].
  - apply (Hdown x); [|done]. eapply IH; [|reflexivity|done].
    assert (rank1 x <= max_list (rank1 <$> elements T))%nat
      by (apply max_list_elem_of_le, list_elem_of_fmap; exists x; split; [done|by apply elem_of_elements]).
    pose proof (ranked1 x y He). lia.
  - apply HH, H_sinks; [done|]. intros x Hx He. apply Hno. by exists x.
Qed.

(** While something of [T] is left, both runs pop the same. *)
Lemma lockstep_next Q ts1 s1 h1 ts2 s2 h2 next1 ts1' next2 ts2' :
  popped p1 T Q ts1 s1 h1 -> popped p2 T2 Q ts2 s2 h2 ->
  deps ts1 <> ∅ -> pop_all ts1 = (next1, ts1') -> pop_all ts2 = (next2, ts2') ->
  merge_sort Digest_le next1 = merge_sort Digest_le next2.
Proof.
  intros Hp1 Hp2 Hne Hpop1 Hpop2.
  destruct (popped_next _ _ _ T_closed ranked1 _ _ _ _ _ _ Hp1 Hpop1) as (Hnd1 & _ & Hn1 & _).
  destruct (popped_next _ _ _ T2_closed ranked2 _ _ _ _ _ _ Hp2 Hpop2) as (Hnd2 & _ & Hn2 & _).
  apply (StronglySorted_unique Digest_le); try apply (StronglySorted_merge_sort Digest_le).
  rewrite !merge_sort_Permutation. apply NoDup_Permutation; [done..|]. intros y. rewrite Hn1, Hn2.
  destruct (map_choose _ Hne) as (x & s & Hx).
  destruct (proj1 (po_nodes _ _ _ _ _ _ Hp1 x) (mk_is_Some _ _ Hx)) as [HxT HxQ]. split.
  - intros (HT & HQ & Hz). split_and!; [by apply elem_of_union_l|done|]. intros z Hz'. by apply Hz, edge_agree.
  - intros (HT & HQ & Hz). apply elem_of_union in HT as [HT| ->%elem_of_singleton].
    + split_and!; [done..|]. intros z Hz'. by apply Hz, edge_agree.
    + destruct HxQ. apply sinks_all; [|intros z Hz'; by apply Hz, edge_n|done]. apply Hp1.
Qed.

(** Both runs have the same epoch heads. *)
Lemma lockstep_heads Q ts1 s1 h1 ts2 s2 h2 :
  popped p1 T Q ts1 s1 h1 -> popped p2 T2 Q ts2 s2 h2 -> h1 = h2.
Proof.
  intros Hp1 Hp2. apply set_eq. intros y. rewrite (po_heads _ _ _ _ _ _ Hp1), (po_heads _ _ _ _ _ _ Hp2).
  assert (n ∉ Q) as HnQ by (intros ?%(po_sub _ _ _ _ _ _ Hp1); done).
  split; intros [HyQ Hcase]; (split; [done|]); pose proof (po_sub _ _ _ _ _ _ Hp1 y HyQ) as HyT.
  - right. destruct Hcase as [Hno|(x & HxT & HxQ & He)].
    + exists n. split_and!; [by apply elem_of_union_r, elem_of_singleton|done|]. by apply edge_n, H_sinks.
    + exists x. split_and!; [by apply elem_of_union_l|done|by apply edge_agree].
  - destruct Hcase as [Hno|(x & [HxT| ->%elem_of_singleton]%elem_of_union & HxQ & He)].
    + left. intros x Hx He. apply (Hno x); [by apply elem_of_union_l|by apply edge_agree].
    + right. exists x. split_and!; [done..|by apply edge_agree].
    + left. by apply H_sinks, edge_n.
Qed.

Lemma get_ops_agree (l : list OpHash) : forall acc,
  (forall y, y ∈ l -> y ∈ T) -> foldR (get_op ops2) l acc = foldR (get_op ops1) l acc.
Proof.
  induction l as [|h l IH]; intros acc Hl; cbn [foldR]; [done|]. unfold get_op at 1 3, CaMap_get.
  rewrite agree_ops by (apply Hl; by left). destruct (ops1 !! h); [|done]. cbn [ok_orR bindR].
  apply IH. intros y Hy. apply Hl. by right.
Qed.

Lemma nothing_left p X Q ts succ heads : popped p X Q ts succ heads -> X ⊆ Q -> deps ts = ∅.
Proof.
  intros Hp HX. apply map_empty. intros y. destruct (deps ts !! y) as [s|] eqn:Hs; [|done].
  destruct (proj1 (po_nodes _ _ _ _ _ _ Hp y) (mk_is_Some _ _ Hs)) as [HyX HyQ]. by destruct HyQ; apply HX.
Qed.

(** The last round pops [n] alone, as an epoch of its own. *)
Lemma last_round ts succ heads fuel next epochs :
  popped p2 T2 T ts succ heads ->
  epoch_loop (Datatypes.S fuel) ops2 ts succ heads next epochs = Ok (push_epoch epochs next ++ [[op]]).
Proof.
  intros Hp. cbn [epoch_loop]. unfold ts_is_empty.
  assert (is_Some (deps ts !! n)) as [d Hd]
    by (apply (po_nodes _ _ _ _ _ _ Hp); split; [by apply elem_of_union_r, elem_of_singleton|done]).
  rewrite bool_decide_false by (intros He; by rewrite He in Hd). destruct (pop_all ts) as [ready ts'] eqn:Hpop.
  destruct (popped_next _ _ _ T2_closed ranked2 _ _ _ _ _ _ Hp Hpop) as (Hnd & _ & Hn & _).
  assert (ready ≡ₚ [n]) as ->%Permutation_singleton_r.
  { apply NoDup_Permutation; [done|apply NoDup_singleton|]. intros y. rewrite Hn, list_elem_of_singleton. split.
    - by intros ([?| ->%elem_of_singleton]%elem_of_union & ? & _).
    - intros ->. split_and!; [by apply elem_of_union_r, elem_of_singleton|done|].
      intros z Hz%edge_n. by apply H_sub. }
  destruct (round_ok _ _ _ T2_closed ranked2 _ _ _ _ _ _ Hp Hpop) as (marked & succ' & heads' & Hm & Hdis & Hret & Hp').
  cbn [merge_sort list_merge merge_list_to_stack merge_stack] in *.
  assert (merge_sort Digest_le [n] = [n]) as Hsort by done. rewrite Hsort in *.
  rewrite Hm. cbn [bindR]. rewrite Hdis. cbn [bindR]. rewrite Hret. cbn [bindR].
  assert (heads' ⊆ {[n]}) as Hsub.
  { intros y [Hy Hcase]%(po_heads _ _ _ _ _ _ Hp'). apply elem_of_singleton.
    destruct Hcase as [Hno|(x & Hx & HxT & _)]; [|by destruct HxT; apply Hx || set_solver].
    apply elem_of_union in Hy as [Hy|Hy]; [|by apply elem_of_list_to_set, list_elem_of_singleton in Hy].
    exfalso. assert (y ∈ H) as HyH.
    - apply H_sinks; [done|]. intros x Hx He. apply (Hno x); [by apply elem_of_union_l|by apply edge_agree].
    - apply (Hno n); [by apply elem_of_union_r, elem_of_singleton|by apply edge_n]. }
  assert (size heads' <= 1)%nat as Hsize by (rewrite <- (size_singleton (C := gset OpHash) n); by apply subseteq_size).
  apply Nat.leb_le in Hsize. rewrite Hsize. cbn [foldR]. unfold get_op, CaMap_get. rewrite n_op. cbn [ok_orR bindR foldR app].
  assert (deps ts' = ∅) as He by (eapply nothing_left; [done|]; intros y Hy; set_solver).
  destruct fuel; cbn [epoch_loop]; unfold ts_is_empty; by rewrite bool_decide_true.
Qed.

Lemma epoch_loop_step fuel ops ts succ heads next epochs ready ts' marked succ' heads' :
  deps ts <> ∅ -> pop_all ts = (ready, ts') ->
  foldR mark_head (merge_sort Digest_le ready) (heads, succ) = Ok marked ->
  foldR (discharge marked.1) (merge_sort Digest_le ready) marked.2 = Ok succ' ->
  foldR (retain_head succ') (elements marked.1) ∅ = Ok heads' ->
  epoch_loop (Datatypes.S fuel) ops ts succ heads next epochs =
    if (size heads' <=? 1)%nat then
      bindR (foldR (get_op ops) (merge_sort Digest_le ready) []) (fun new =>
        epoch_loop fuel ops ts' succ' heads' [] (push_epoch (push_epoch epochs next) new))
    else
      bindR (foldR (get_op ops) (merge_sort Digest_le ready) next) (fun next' =>
        epoch_loop fuel ops ts' succ' heads' next' epochs).
Proof.
  intros He Hpop Hm Hd Hr. cbn [epoch_loop]. unfold ts_is_empty. rewrite bool_decide_false by done.
  rewrite Hpop, Hm. cbn [bindR]. rewrite Hd. cbn [bindR]. rewrite Hr. done.
Qed.

Lemma epoch_loop_done fuel ops ts succ heads next epochs :
  deps ts = ∅ -> epoch_loop fuel ops ts succ heads next epochs = Ok (push_epoch epochs next).
Proof. intros He. destruct fuel; cbn [epoch_loop]; unfold ts_is_empty; by rewrite bool_decide_true. Qed.

Lemma lockstep_loop fuel : forall Q ts1 s1 h1 ts2 s2 h2 next epochs out,
  popped p1 T Q ts1 s1 h1 -> popped p2 T2 Q ts2 s2 h2 ->
  epoch_loop fuel ops1 ts1 s1 h1 next epochs = Ok out ->
  epoch_loop (Datatypes.S fuel) ops2 ts2 s2 h2 next epochs = Ok (out ++ [[op]]).
Proof.
  induction fuel as [|fuel IH]; intros Q ts1 s1 h1 ts2 s2 h2 next epochs out Hp1 Hp2.
  all: pose proof (lockstep_heads _ _ _ _ _ _ _ Hp1 Hp2); subst h2.
  all: destruct (decide (deps ts1 = ∅)) as [He|He];
    [rewrite (epoch_loop_done _ ops1 _ _ _ _ _ He); intros [= <-]; apply last_round;
     by rewrite <- (all_popped _ _ _ _ _ _ Hp1 He) at 2|].
  { cbn [epoch_loop]. unfold ts_is_empty. by rewrite bool_decide_false. }
  destruct (pop_all ts1) as [r1 ts1'] eqn:Hpop1, (pop_all ts2) as [r2 ts2'] eqn:Hpop2.
  pose proof (lockstep_next _ _ _ _ _ _ _ _ _ _ _ Hp1 Hp2 He Hpop1 Hpop2) as Hsame.
  destruct (round_ok _ _ _ T_closed ranked1 _ _ _ _ _ _ Hp1 Hpop1) as (m1 & s1' & h1' & Hm1 & Hd1 & Hr1 & Hp1').
  destruct (round_ok _ _ _ T2_closed ranked2 _ _ _ _ _ _ Hp2 Hpop2) as (m2 & s2' & h2' & Hm2 & Hd2 & Hr2 & Hp2').
  assert (deps ts2 <> ∅) as He2.
  { destruct (map_choose _ He) as (x & s & Hx). intros Hemp.
    destruct (proj1 (po_nodes _ _ _ _ _ _ Hp1 x) (mk_is_Some _ _ Hx)) as [HxT HxQ].
    destruct (proj2 (po_nodes _ _ _ _ _ _ Hp2 x)) as [? Hx2]; [split; [by apply elem_of_union_l|done]|].
    by rewrite Hemp in Hx2. }
  rewrite (epoch_loop_step _ _ _ _ _ _ _ _ _ _ _ _ He Hpop1 Hm1 Hd1 Hr1).
  rewrite (epoch_loop_step _ _ _ _ _ _ _ _ _ _ _ _ He2 Hpop2 Hm2 Hd2 Hr2).
  rewrite <- Hsame in *. pose proof (lockstep_heads _ _ _ _ _ _ _ Hp1' Hp2'); subst h2'.
  assert (forall y, y ∈ merge_sort Digest_le r1 -> y ∈ T) as HrT.
  { intros y Hy. apply (po_sub _ _ _ _ _ _ Hp1'). by apply elem_of_union_r, elem_of_list_to_set. }
  destruct (size h1' <=? 1)%nat; rewrite get_ops_agree by done; destruct (foldR (get_op ops1) _ _); try done;
    cbn [bindR]; by eapply IH.
Qed.
End Lockstep.

Section Rooted.
Context `{P : Primitives} `{S : !Serialize (Signed CgkaOperation)}.

(** [r] is the only operation without predecessors. *)
Definition rooted (g : CgkaOperationGraph) (r : OpHash) : Prop :=
  forall x, cgka_ops_predecessors g !! x = Some ∅ -> x = r.

Section Run.
Context (g : CgkaOperationGraph) (r : OpHash) (heads : gset OpHash).
Notation preds := (cgka_ops_predecessors g).
Hypothesis (Hg : graph_wf g).
Hypothesis (Hr : rooted g r).
Hypothesis (Hsub : heads ⊆ dom (cgka_ops g)).
Hypothesis (Hne : heads <> ∅).

Lemma ancestor_preds y : ancestor_of preds heads y -> is_Some (preds !! y).
Proof.
  intros Hy%ancestor_in_graph; [|done..]. apply elem_of_dom. rewrite (gw_dom _ Hg). by apply elem_of_dom.
Qed.

(** Every descent ends in the root. *)
Lemma descend x y : ancestor_of preds heads x -> edge preds x y -> exists z, ancestor_of preds heads z /\ edge preds z r.
Proof.
  destruct (gw_acyclic _ Hg) as [rank Hrank].
  remember (rank x) as k eqn:Hk. revert x y Hk. induction k as [k IH] using lt_wf_ind. intros x y -> Hx He.
  pose proof (ancestor_closed _ _ _ _ Hx He) as Hy. destruct (ancestor_preds y Hy) as [s Hs].
  destruct (decide (s = ∅)) as [->|Hse].
  - rewrite (Hr y Hs) in He. by exists x.
  - apply set_choose_L in Hse as [w Hw]. apply (IH (rank y) ltac:(by apply Hrank) y w eq_refl Hy). by exists s.
Qed.

(** With any edge at all, every ancestor is linked. *)
Lemma rooted_linked : (exists z, linked preds heads z) -> forall y, ancestor_of preds heads y -> linked preds heads y.
Proof.
  intros (z & Hz & w & Hw & Hedge) y Hy. split; [done|]. destruct (ancestor_preds y Hy) as [s Hs].
  destruct (decide (s = ∅)) as [->|Hse].
  - rewrite (Hr y Hs). destruct Hedge as [He|He];
      [destruct (descend z w Hz He) as (x & Hx & Hxr)|destruct (descend w z Hw He) as (x & Hx & Hxr)]; eauto.
  - apply set_choose_L in Hse as [x Hx]. assert (edge preds y x) as He by (by exists s).
    exists x. split; [by eapply ancestor_closed|by left].
Qed.

Lemma rooted_unlinked : (forall z, ~ linked preds heads z) -> heads = {[r]}.
Proof.
  intros Hno. assert (forall y, y ∈ heads -> y = r) as Hall.
  { intros y Hy. assert (ancestor_of preds heads y) as Ha by (exists y; split; [done|apply rtc_refl]).
    destruct (ancestor_preds y Ha) as [s Hs]. destruct (decide (s = ∅)) as [->|Hse]; [by apply Hr|].
    apply set_choose_L in Hse as [x Hx]. assert (edge preds y x) as He by (by exists s).
    destruct (Hno y). split; [done|]. exists x. split; [by eapply ancestor_closed|by left]. }
  destruct (set_choose_L _ Hne) as [y Hy]. apply set_eq. intros z. rewrite elem_of_singleton. split; [apply Hall|].
  intros ->. by rewrite <- (Hall y Hy).
Qed.

(** A history of one operation, as a state of the loop. *)
Lemma single_popped :
  (forall y, ~ edge preds r y) -> popped preds {[r]} ∅ (mkTopologicalSort {[r := ∅]} ∅) {[r := ∅]} ∅.
Proof.
  intros Hno. constructor.
  - apply empty_subseteq.
  - by intros x y ?%not_elem_of_empty.
  - intros x y s Hs Hx. simpl in Hs. apply lookup_singleton_Some in Hs as [_ <-]. by apply not_elem_of_empty in Hx.
  - intros y. simpl. rewrite lookup_singleton_is_Some, elem_of_singleton. pose proof (not_elem_of_empty (C := gset OpHash) y).
    split; [intros <-; done|by intros [-> _]].
  - intros y s Hs z. simpl in Hs. apply lookup_singleton_Some in Hs as [<- <-]. split; [by intros ?%not_elem_of_empty|]. intros [He _]. by apply Hno in He.
  - intros y. pose proof (not_elem_of_empty (C := gset OpHash) y). tauto.
  - by intros y ?%not_elem_of_empty.
  - intros y ->%elem_of_singleton _. exists ∅. split; [apply lookup_singleton_eq|]. intros x.
    split; [by intros ?%not_elem_of_empty|]. intros [->%elem_of_singleton He]. by apply Hno in He.
Qed.

Lemma one_op_epochs out op :
  cgka_ops g !! r = Some op -> epochs_ok preds (cgka_ops g) out ->
  (forall y, y ∈ (Digest_hash <$> mjoin out) <-> y ∈ ({[r]} : gset OpHash)) -> out = [[op]].
Proof.
  clear Hg Hr Hsub Hne. intros Hop [Hkn Hnon Hnd _ _] Hall.
  assert (Digest_hash <$> mjoin out = [r]) as Hkeys.
  { apply Permutation_singleton_r, NoDup_Permutation; [done|apply NoDup_singleton|].
    intros y. by rewrite Hall, elem_of_singleton, list_elem_of_singleton. }
  assert (mjoin out = [op]) as Hj.
  { destruct (mjoin out) as [|o [|]]; simplify_eq/=. inversion Hkn; congruence. }
  clear Hkeys Hall Hkn Hnd. destruct out as [|[|o e] out]; [done|by inversion Hnon|].
  simpl in Hj. injection Hj as -> Hj. apply app_eq_nil in Hj as [-> Hj].
  destruct out as [|[|o e] out]; [done| |done]. inversion Hnon as [|? ? _ Hn]. by inversion Hn.
Qed.

(** The sort of a rooted graph is a run of the loop over all ancestors. *)
Lemma topsort_run : exists T ts succ out,
  (forall y, y ∈ T <-> ancestor_of preds heads y) /\ popped preds T ∅ ts succ ∅ /\
  epoch_loop (size T) (cgka_ops g) ts succ ∅ [] [] = Ok out /\ topsort_for_heads heads g = Ok out /\
  epochs_ok preds (cgka_ops g) out /\ forall y, y ∈ (Digest_hash <$> mjoin out) <-> y ∈ T.
Proof.
  destruct (linked_dec g heads Hg Hsub) as [Hlink|Hno].
  - destruct (topsort_linked g heads Hg Hsub Hlink) as (T & ts & succ & out & HT & Hrest).
    exists T, ts, succ, out. split; [|done]. intros y. rewrite HT. split; [by intros [? _]|by apply rooted_linked].
  - pose proof (rooted_unlinked Hno) as Hheads. destruct (topsort_unlinked g heads Hg Hsub Hne Hno) as (new & Hout & Hnew).
    rewrite Hheads, elements_singleton in Hnew.
    apply Forall2_cons_inv_l in Hnew as (op & new' & Hop & Hnil & ->). apply Forall2_nil_inv_l in Hnil as ->.
    destruct (gw_acyclic _ Hg) as [rank Hrank].
    assert (forall y, ~ edge preds r y) as Hnoedge.
    { intros y He. assert (ancestor_of preds heads r) as Ha by (exists r; rewrite Hheads; split; [set_solver|apply rtc_refl]).
      apply (Hno r). split; [done|]. exists y. split; [by eapply ancestor_closed|by left]. }
    pose proof (single_popped Hnoedge) as Hpop.
    destruct (epoch_loop_ok preds (cgka_ops g) {[r]} rank (gw_ops _ Hg)) with
      (fuel := size ({[r]} : gset OpHash)) (Q := ∅ : gset OpHash) (ts := mkTopologicalSort {[r := ∅]} ∅ : @TopologicalSort OpHash _ _)
      (succ := {[r := ∅]} : gmap OpHash (gset OpHash)) (heads := ∅ : gset OpHash) (next := [] : CgkaEpoch)
      (epochs := [] : list CgkaEpoch) as (out & Hrun & Hok & Hall); try done.
    + intros y ->%elem_of_singleton. by exists op.
    + intros x y ->%elem_of_singleton He. by apply Hnoedge in He.
    + apply emitted_start.
    + by rewrite difference_empty_L.
    + pose proof (one_op_epochs out op Hop Hok Hall); subst out.
      exists {[r]}, (mkTopologicalSort {[r := ∅]} ∅), {[r := ∅]}, [[op]]. split_and!; try done. intros y. rewrite elem_of_singleton. split.
      * intros ->. exists r. rewrite Hheads. split; [set_solver|apply rtc_refl].
      * rewrite Hheads. intros (x & ->%elem_of_singleton & Hry). apply rtc_inv in Hry as [->|(z & Hz & _)]; [done|].
        by apply Hnoedge in Hz.
Qed.
End Run.

Lemma rtc_rank (p : gmap OpHash (gset OpHash)) (rank : OpHash -> nat) x y :
  (forall x y, edge p x y -> (rank y < rank x)%nat) -> rtc (edge p) x y -> (rank y <= rank x)%nat.
Proof. intros Hrank. induction 1 as [|x z y He _ IH]; [done|]. specialize (Hrank x z He). lia. Qed.

Lemma ancestor_agree (p1 p2 : gmap OpHash (gset OpHash)) (H : gset OpHash) :
  (forall y, ancestor_of p1 H y -> p2 !! y = p1 !! y) ->
  forall y, ancestor_of p2 H y <-> ancestor_of p1 H y.
Proof.
  intros Hag y. split; intros (h & Hh & Hy); exists h; (split; [done|]).
  - assert (ancestor_of p1 H h) as Ha by (exists h; split; [done|apply rtc_refl]). clear Hh.
    induction Hy as [|x z y He _ IH]; [apply rtc_refl|].
    assert (edge p1 x z) as He1 by (destruct He as (s & Hs & Hz); exists s; by rewrite <- Hag).
    eapply rtc_l; [done|]. apply IH. by eapply ancestor_closed.
  - assert (ancestor_of p1 H h) as Ha by (exists h; split; [done|apply rtc_refl]). clear Hh.
    induction Hy as [|x z y He _ IH]; [apply rtc_refl|].
    assert (edge p2 x z) as He2 by (destruct He as (s & Hs & Hz); exists s; by rewrite Hag).
    eapply rtc_l; [done|]. apply IH. by eapply ancestor_closed.
Qed.

Lemma ancestor_single (p : gmap OpHash (gset OpHash)) n H y :
  p !! n = Some H -> ancestor_of p {[n]} y <-> y = n \/ ancestor_of p H y.
Proof.
  intros Hn. split.
  - intros (h & ->%elem_of_singleton & Hy). apply rtc_inv in Hy as [->|(z & (s & Hs & Hz) & Hy)]; [by left|].
    right. exists z. split; [congruence|done].
  - intros [->|(h & Hh & Hy)]; exists n; (split; [by apply elem_of_singleton|]); [apply rtc_refl|].
    eapply rtc_l; [|done]. by exists H.
Qed.

(** The heads of a history follow nothing in it. *)
Definition antichain (p : gmap OpHash (gset OpHash)) (H : gset OpHash) : Prop :=
  forall x y, y ∈ H -> ancestor_of p H x -> ~ edge p x y.

Lemma topsort_extend g1 g2 r (H : gset OpHash) n op :
  graph_wf g1 -> rooted g1 r -> graph_wf g2 -> rooted g2 r ->
  H <> ∅ -> H ⊆ dom (cgka_ops g1) -> antichain (cgka_ops_predecessors g1) H ->
  (forall y, ancestor_of (cgka_ops_predecessors g1) H y ->
    cgka_ops_predecessors g2 !! y = cgka_ops_predecessors g1 !! y /\ cgka_ops g2 !! y = cgka_ops g1 !! y) ->
  cgka_ops_predecessors g2 !! n = Some H -> cgka_ops g2 !! n = Some op ->
  exists out, topsort_for_heads H g1 = Ok out /\ topsort_for_heads {[n]} g2 = Ok (out ++ [[op]]).
Proof.
  intros Hg1 Hr1 Hg2 Hr2 Hne Hsub Hanti Hag Hn Hop.
  destruct (gw_acyclic _ Hg1) as [rank1 Hrank1], (gw_acyclic _ Hg2) as [rank2 Hrank2].
  destruct (topsort_run g1 r H Hg1 Hr1 Hsub Hne) as (T1 & ts1 & s1 & out & HT1 & Hp1 & Hrun1 & Hout & _ & _).
  destruct (topsort_run g2 r {[n]} Hg2 Hr2) as (T2 & ts2 & s2 & out2 & HT2 & Hp2 & Hrun2 & Hout2 & _ & _).
  { intros x ->%elem_of_singleton. apply elem_of_dom. by exists op. }
  { apply non_empty_singleton_L. }
  exists out. split; [done|]. rewrite Hout2.
  pose proof (ancestor_agree _ _ H (fun y Hy => proj1 (Hag y Hy))) as Hanc.
  assert (n ∉ T1) as HnT.
  { intros (h & Hh & Hhn)%HT1%Hanc. apply (rtc_rank _ rank2) in Hhn; [|done].
    assert (edge (cgka_ops_predecessors g2) n h) as He by (by exists H). apply Hrank2 in He. lia. }
  assert (T2 = T1 ∪ {[n]}) as ->.
  { apply set_eq. intros y. rewrite HT2, (ancestor_single _ n H y Hn), Hanc, elem_of_union, elem_of_singleton, HT1. tauto. }
  assert (size (T1 ∪ {[n]}) = Datatypes.S (size T1)) as Hsize.
  { rewrite size_union by (apply disjoint_singleton_r; done). rewrite size_singleton. lia. }
  rewrite Hsize in Hrun2. rewrite <- Hrun2.
  refine (lockstep_loop _ _ (cgka_ops g1) _ T1 H n op rank1 rank2 _ Hrank1 Hrank2 _ _ HnT Hn Hop _ _ _ _ _ _ _ _ _ _ _ _ _ Hp1 Hp2 Hrun1).
  - intros x y Hx%HT1 He. apply HT1. by eapply ancestor_closed.
  - intros x Hx%HT1. by apply Hag.
  - intros x Hx%HT1. by apply Hag.
  - intros y Hy. apply HT1. exists y. split; [done|apply rtc_refl].
  - intros y Hy. split.
    + intros HyH x Hx%HT1. by apply Hanti.
    + intros Hno. apply HT1 in Hy as (h & Hh & [->|(x & Hhx & Hxy)]%rtc_inv_r); [done|].
      exfalso. apply (Hno x); [|done]. apply HT1. by exists h.
Qed.
End Rooted.

(** ** Properties of sorting *)

Section Props.
Context `{P : Primitives} `{S : !Serialize (Signed CgkaOperation)}.

Lemma grown_single_head op ps adds g : has_single_head (grown op ps ∅ adds g) = true.
Proof.
  unfold has_single_head, grown. cbn [cgka_op_heads]. by rewrite union_empty_r_L, size_singleton.
Qed.

Lemma grown_rooted op ps heads adds g r : ps <> ∅ -> rooted g r -> rooted (grown op ps heads adds g) r.
Proof.
  intros Hne Hr x. unfold grown. cbn [cgka_ops_predecessors]. destruct (decide (x = Digest_hash op)) as [->|Hx].
  - rewrite lookup_insert_eq. intros [= ->]. done.
  - rewrite lookup_insert_ne by done. apply Hr.
Qed.

(** In a history with one root everything below the heads is sorted. *)
Lemma topsort_rooted g r :
  graph_wf g -> rooted g r -> is_Some (cgka_ops g !! r) ->
  exists epochs, topsort_graph g = Ok epochs /\ epochs_ok (cgka_ops_predecessors g) (cgka_ops g) epochs /\
    forall y, y ∈ (Digest_hash <$> mjoin epochs) <-> y ∈ dom (cgka_ops g).
Proof.
  intros Hg Hr Hi.
  destruct (topsort_run g r (cgka_op_heads g) Hg Hr (heads_known g Hg) (heads_nonempty g r Hg Hi))
    as (T & ts & succ & out & HT & _ & _ & Hout & Hok & Hall).
  exists out. split_and!; [done..|]. intros y. rewrite Hall, HT. split.
  - intros Hy. rewrite <- (gw_dom _ Hg). apply (ancestor_known _ (cgka_op_heads g)); [apply (gw_closed _ Hg)| |done].
    rewrite (gw_dom _ Hg). by apply heads_known.
  - intros Hy%elem_of_dom. by apply heads_cover.
Qed.

(** Recording an operation keeps the graph well formed.  A new operation
    whose predecessors are known becomes a head in place of those of its
    predecessors that were heads; a local operation, made on top of all heads,
    becomes the only head.  Neither can fail. *)
Theorem graph_add_correct op g :
  graph_wf g -> cgka_ops g !! Digest_hash op = None -> predecessors (payload op) ⊆ dom (cgka_ops g) ->
  (exists g', add_op op (predecessors (payload op)) g = Ok g' /\ graph_wf g' /\
     cgka_ops g' = <[Digest_hash op := op]> (cgka_ops g) /\
     cgka_op_heads g' = {[Digest_hash op]} ∪ (cgka_op_heads g ∖ predecessors (payload op))) /\
  (predecessors (payload op) = cgka_op_heads g ->
   exists g', add_local_op op g = Ok g' /\ graph_wf g' /\
     cgka_ops g' = <[Digest_hash op := op]> (cgka_ops g) /\ has_single_head g' = true).
Proof.
  intros Hg Hnew Hps. split.
  - eexists. rewrite add_op_eq. split_and!; [done| |done..]. apply grown_wf; try done. by apply subseteq_difference_l.
  - intros Hh. eexists. rewrite add_local_op_eq, <- Hh. split_and!; [done| |done|apply grown_single_head].
    apply grown_wf; try done; [by rewrite <- Hh, difference_diag_L|]. destruct (is_add _); [apply empty_subseteq|done].
Qed.

(** C23. Sorting from any known heads terminates without an error.  The result
    has no empty epoch and no operation twice, every operation comes after its
    predecessors, and every operation of an epoch is an ancestor of every
    operation of the later epochs.  The operations listed are those on some edge
    below the heads; when there is no edge, the heads themselves. *)
Theorem topsort_for_heads_correct g heads :
  graph_wf g -> heads ⊆ dom (cgka_ops g) -> heads <> ∅ ->
  exists epochs, topsort_for_heads heads g = Ok epochs /\
    epochs_ok (cgka_ops_predecessors g) (cgka_ops g) epochs /\
    forall y, y ∈ (Digest_hash <$> mjoin epochs) <-> listed (cgka_ops_predecessors g) heads y.
Proof. intros Hg Hsub Hne. by apply topsort_ok. Qed.

(** C22. In a graph with a single root, as every group has, sorting lists each
    recorded operation exactly once. *)
Theorem topsort_graph_complete g r :
  graph_wf g -> rooted g r -> is_Some (cgka_ops g !! r) ->
  exists epochs, topsort_graph g = Ok epochs /\ mjoin epochs ≡ₚ (map_to_list (cgka_ops g)).*2.
Proof.
  intros Hg Hr Hi. destruct (topsort_rooted g r Hg Hr Hi) as (out & Hout & Hok & Hall). exists out. split; [done|].
  pose proof (ep_known _ _ _ Hok) as Hkn. rewrite Forall_forall in Hkn.
  apply NoDup_Permutation.
  - eapply NoDup_fmap_1, (ep_nodup _ _ _ Hok).
  - apply (NoDup_fmap_1 Digest_hash). rewrite <- list_fmap_compose.
    rewrite (list_fmap_ext _ fst); [apply NoDup_fst_map_to_list|].
    intros i [k op] Hl%list_elem_of_lookup_2%elem_of_map_to_list. cbn. symmetry. by apply (gw_ops _ Hg).
  - intros op. split.
    + intros Hop%Hkn. apply list_elem_of_fmap. exists (Digest_hash op, op). split; [done|]. by apply elem_of_map_to_list.
    + intros ([k op'] & -> & Hl%elem_of_map_to_list)%list_elem_of_fmap. cbn.
      assert (k ∈ Digest_hash <$> mjoin out) as (op & -> & Hop)%list_elem_of_fmap
        by (apply Hall, elem_of_dom; by exists op').
      pose proof (Hkn op Hop). by simplify_eq.
Qed.

(** C24. A local operation comes last: sorting after it gives the epochs from
    before followed by an epoch with the operation alone. *)
Theorem topsort_local_op_last g r op :
  collision_free (Signed CgkaOperation) -> graph_wf g -> rooted g r -> is_Some (cgka_ops g !! r) ->
  predecessors (payload op) = cgka_op_heads g ->
  exists g' epochs, add_local_op op g = Ok g' /\ topsort_graph g = Ok epochs /\ topsort_graph g' = Ok (epochs ++ [[op]]).
Proof.
  intros Hcf Hg Hr Hi Hps. pose proof (op_on_heads_new g op r Hcf Hg Hi Hps) as Hnew.
  pose proof (heads_nonempty g r Hg Hi) as Hne. rewrite add_local_op_eq.
  set (adds := if is_add (payload op) then ∅ else add_heads g). set (g' := grown _ _ _ _ _). exists g'.
  assert (graph_wf g') as Hg'.
  { unfold g'. rewrite <- Hps. apply grown_wf; try done; rewrite ?Hps; [by apply heads_known|by rewrite difference_diag_L|].
    unfold adds. destruct (is_add _); [apply empty_subseteq|done]. }
  destruct (topsort_extend g g' r (cgka_op_heads g) (Digest_hash op) op) as (out & Hout & Hout'); try done.
  - by apply grown_rooted.
  - by apply heads_known.
  - intros x y Hy _ He. apply (gw_heads _ Hg) in Hy as [_ Hno]. by apply (Hno x).
  - intros y Hy%ancestor_in_graph; [|done|by apply heads_known]. unfold g'. cbn [cgka_ops cgka_ops_predecessors grown].
    assert (y <> Digest_hash op) by (intros ->; rewrite Hnew in Hy; by destruct Hy). by rewrite !lookup_insert_ne.
  - apply lookup_insert_eq.
  - apply lookup_insert_eq.
  - exists out. split_and!; [done..|]. unfold topsort_graph.
    assert (cgka_op_heads g' = {[Digest_hash op]}) as -> by apply union_empty_r_L. done.
Qed.
End Props.
