(* ===== verification/AppSecret.v ===== *)
(** * Application secrets and encrypted content
    ([keyhive/beekem/src/pcs_key.rs], [encrypted.rs])

    A PCS key (the root secret of a tree) gives one symmetric key per piece of
    content; the ciphertext carries everything a holder of the PCS key needs to
    derive that key again. *)

From Stdlib Require Import String Strings.Byte.
From S2P Require Import Prelude TreeMath Crypto Keys SecretStore Tree PathCrypto Signed OpGraph.

Definition STATIC_CONTEXT : string := "/keyhive/beekem/app_secret/".

(** [Cr] is the type of content references. *)
Record ApplicationSecret (Cr : Type) := mkApplicationSecret {
  as_key : SymmetricKey;
  as_pcs_key_hash : Digest PcsKey;
  as_pcs_update_op_hash : OpHash;
  as_nonce : Siv;
  as_content_ref : Cr;
  as_pred_refs : Digest (list Cr);
}.
Arguments mkApplicationSecret {Cr}.
Arguments as_key {Cr}.
Arguments as_pcs_key_hash {Cr}.
Arguments as_pcs_update_op_hash {Cr}.
Arguments as_nonce {Cr}.
Arguments as_content_ref {Cr}.
Arguments as_pred_refs {Cr}.

Record EncryptedContent (Cr : Type) := mkEncryptedContent {
  ec_nonce : Siv;
  ec_ciphertext : bytes;
  ec_pcs_key_hash : Digest PcsKey;
  ec_pcs_update_op_hash : OpHash;
  ec_content_ref : Cr;
  ec_pred_refs : Digest (list Cr);
}.
Arguments mkEncryptedContent {Cr}.
Arguments ec_nonce {Cr}.
Arguments ec_ciphertext {Cr}.
Arguments ec_pcs_key_hash {Cr}.
Arguments ec_pcs_update_op_hash {Cr}.
Arguments ec_content_ref {Cr}.
Arguments ec_pred_refs {Cr}.

Section Content.
Context `{P : Primitives} {Cr : Type}.
Context `{Ssk : !Serialize ShareSecretKey, Spcs : !Serialize PcsKey, Scr : !Serialize Cr}.

(** [ApplicationSecret::try_encrypt] *)
Definition secret_try_encrypt (s : ApplicationSecret Cr) (plaintext : bytes) : option (EncryptedContent Cr) :=
  match try_encrypt (as_key s) (as_nonce s) plaintext with
  | Some ciphertext =>
      Some (mkEncryptedContent (as_nonce s) ciphertext (as_pcs_key_hash s) (as_pcs_update_op_hash s)
              (as_content_ref s) (as_pred_refs s))
  | None => None
  end.

(** [EncryptedContent::try_decrypt] *)
Definition content_try_decrypt (e : EncryptedContent Cr) (key : SymmetricKey) : option bytes :=
  try_decrypt key (ec_nonce e) (ec_ciphertext e).

(** The text of [format!("epoch:{pcs_hash}/pred:{pred_refs}/content:{display_ref}")]. *)
Definition app_secret_context (pcs_hash : Digest ShareSecretKey) (pred_refs : Digest (list Cr))
    (display_ref : Digest Cr) : bytes :=
  list_byte_of_string "epoch:" ++ Digest_display pcs_hash ++
  list_byte_of_string "/pred:" ++ Digest_display pred_refs ++
  list_byte_of_string "/content:" ++ Digest_display display_ref.

Definition derive_application_secret (k : PcsKey) (nonce : Siv) (content_ref : Cr) (pred_refs : Digest (list Cr))
    (pcs_update_op_hash : OpHash) : ApplicationSecret Cr :=
  let pcs_hash := Digest_hash (pcs_secret k) in
  let display_ref := Digest_hash content_ref in
  let key_material := ShareSecretKey_bytes (pcs_secret k) ++ app_secret_context pcs_hash pred_refs display_ref in
  let app_secret_bytes := blake3_derive_key STATIC_CONTEXT key_material in
  let symmetric_key := mkSymmetricKey (derive_from_bytes app_secret_bytes) in
  mkApplicationSecret symmetric_key (Digest_hash k) pcs_update_op_hash nonce content_ref pred_refs.

(** [From<PcsKey> for SymmetricKey] *)
Definition PcsKey_symmetric (k : PcsKey) : SymmetricKey :=
  mkSymmetricKey (derive_from_bytes (ShareSecretKey_bytes (pcs_secret k))).

(** The key derived again from what travels with the ciphertext. *)
Definition rederive (k : PcsKey) (e : EncryptedContent Cr) : SymmetricKey :=
  as_key (derive_application_secret k (ec_nonce e) (ec_content_ref e) (ec_pred_refs e) (ec_pcs_update_op_hash e)).

Lemma rederived_decrypts {L : PrimitiveLaws P} k nonce cr preds op plaintext e :
  secret_try_encrypt (derive_application_secret k nonce cr preds op) plaintext = Some e ->
  content_try_decrypt e (rederive k e) = Some plaintext /\
  ec_pcs_key_hash e = Digest_hash k /\ ec_pcs_update_op_hash e = op.
Proof.
  unfold secret_try_encrypt. destruct (try_encrypt _ _ _) as [c|] eqn:Hc; [|done]. intros [= <-].
  split; [|done]. unfold content_try_decrypt, rederive. simpl in *. by apply try_decrypt_encrypt.
Qed.
End Content.
