(* ===== verification/Cgka.v ===== *)
(** * Continuous group key agreement ([keyhive/beekem/src/cgka.rs])

    The state of a replica, the local operations on it, and the merging of
    remote ones.  [&mut self] methods are computations over the state (with the
    random number generator where one is passed); what they wrote before an
    error stays written. *)

From S2P Require Import Prelude TreeMath Crypto Keys SecretStore Tree PathCrypto Signed TopSort CaMap OpGraph AppSecret.

Local Open Scope monad_scope.

Record Cgka := mkCgka {
  cgka_doc_id : TreeId;
  owner_id : MemberId;
  owner_sks : ShareKeyMap;
  tree : BeeKem;
  ops_graph : CgkaOperationGraph;
  pending_ops_for_structural_change : bool;
  pcs_keys : CaMap PcsKey;
  pcs_key_ops : gmap (Digest PcsKey) OpHash;
  original_member : MemberId * ShareKey;
  init_add_op : SignedOp;
}.

Definition set_owner (id : MemberId) (sks : ShareKeyMap) (c : Cgka) : Cgka :=
  mkCgka (cgka_doc_id c) id sks (tree c) (ops_graph c) (pending_ops_for_structural_change c)
    (pcs_keys c) (pcs_key_ops c) (original_member c) (init_add_op c).
Definition set_owner_sks (sks : ShareKeyMap) (c : Cgka) : Cgka := set_owner (owner_id c) sks c.
Definition set_tree (t : BeeKem) (c : Cgka) : Cgka :=
  mkCgka (cgka_doc_id c) (owner_id c) (owner_sks c) t (ops_graph c) (pending_ops_for_structural_change c)
    (pcs_keys c) (pcs_key_ops c) (original_member c) (init_add_op c).
Definition set_ops_graph (g : CgkaOperationGraph) (c : Cgka) : Cgka :=
  mkCgka (cgka_doc_id c) (owner_id c) (owner_sks c) (tree c) g (pending_ops_for_structural_change c)
    (pcs_keys c) (pcs_key_ops c) (original_member c) (init_add_op c).
Definition set_pending (b : bool) (c : Cgka) : Cgka :=
  mkCgka (cgka_doc_id c) (owner_id c) (owner_sks c) (tree c) (ops_graph c) b
    (pcs_keys c) (pcs_key_ops c) (original_member c) (init_add_op c).
Definition set_pcs (keys : CaMap PcsKey) (ops : gmap (Digest PcsKey) OpHash) (c : Cgka) : Cgka :=
  mkCgka (cgka_doc_id c) (owner_id c) (owner_sks c) (tree c) (ops_graph c) (pending_ops_for_structural_change c)
    keys ops (original_member c) (init_add_op c).

Abbreviation CgkaM := (M Cgka CgkaError).

(** Running a computation on a local value. *)
Definition run {S E A} (m : M S E A) (s : S) : res E (A * S) :=
  match m s with
  | (Ok a, s') => Ok (a, s')
  | (Err e, _) => Err e
  | (Panic, _) => Panic
  | (Diverge, _) => Diverge
  end.

(** [?] on the result of a signer. *)
Definition lift_signing {A} (r : res Signed.SigningError A) : res CgkaError A :=
  match r with
  | Ok a => Ok a
  | Err _ => Err Keys.SigningError
  | Panic => Panic
  | Diverge => Diverge
  end.

Section Cgka.
Context `{P : Primitives}.
Context `{Sop : !Serialize CgkaOperation, Ssop : !Serialize (Signed CgkaOperation)}.
Context `{Ssk : !Serialize ShareSecretKey, Spcs : !Serialize PcsKey}.

Definition tree_do {A} (m : TreeM A) : CgkaM A := zoom tree set_tree m.
Definition sks_do {A} (m : M ShareKeyMap CgkaError A) : CgkaM A := zoom owner_sks set_owner_sks m.
Definition graph_do (f : CgkaOperationGraph -> res CgkaError CgkaOperationGraph) : CgkaM unit :=
  g <- gets ops_graph ;; g' <- liftR (f g) ;; modify (set_ops_graph g').

(** ** Construction *)

Definition new_from_init_add (doc_id : TreeId) (owner_id : MemberId) (owner_pk : ShareKey) (init_add_op : SignedOp) :
    res CgkaError Cgka :=
  let* tree := BeeKem_new doc_id owner_id owner_pk in
  let cgka := mkCgka doc_id owner_id ∅ tree graph_new false CaMap_new ∅ (owner_id, owner_pk) init_add_op in
  let* g := add_local_op init_add_op (ops_graph cgka) in
  Ok (set_ops_graph g cgka).

Definition Cgka_new (doc_id : TreeId) (owner_id : MemberId) (owner_pk : ShareKey) (signer : AsyncSigner) :
    res CgkaError Cgka :=
  let init_add_op := init_add doc_id owner_id owner_pk in
  let* signed_op := lift_signing (try_sign_async signer init_add_op) in
  new_from_init_add doc_id owner_id owner_pk signed_op.

Definition with_new_owner (my_id : MemberId) (owner_sks : ShareKeyMap) (c : Cgka) : res CgkaError Cgka :=
  Ok (set_pcs (pcs_keys c) (pcs_key_ops c) (set_owner my_id owner_sks c)).

Definition ops_count (c : Cgka) : nat := CaMap_len (cgka_ops (ops_graph c)).
Definition group_size (c : Cgka) : N := member_count (tree c).
Definition cgka_conflict_node_count (c : Cgka) : nat := conflict_node_count (tree c).
Definition cgka_ops_sorted (c : Cgka) : res CgkaError (list CgkaEpoch) := topsort_graph (ops_graph c).
Definition cgka_contains_predecessors (preds : gset OpHash) (c : Cgka) : bool :=
  contains_predecessors preds (ops_graph c).

Definition has_pcs_key (c : Cgka) : res CgkaError bool :=
  let* rk := has_root_key (tree c) in
  Ok (rk && has_single_head (ops_graph c) && (size (add_heads (ops_graph c)) <? 2)%nat).

(** ** Keys *)

Definition insert_pcs_key (k : PcsKey) (op_hash : OpHash) : CgkaM unit :=
  modify (fun c =>
    let digest := Digest_hash k in
    set_pcs (CaMap_insert k (pcs_keys c)).2 (<[digest := op_hash]> (pcs_key_ops c)) c).

Definition pcs_key_from_tree_root : CgkaM PcsKey :=
  c <- get ;;
  key <- sks_do (decrypt_tree_secret (tree c) (owner_id c)) ;;
  ret (mkPcsKey key).

(** ** Applying operations *)

(** The match on the payload in [apply_operation]. *)
Definition apply_payload (op : CgkaOperation) : TreeM unit :=
  match op with
  | Add added_id pk _ _ _ _ => push_leaf added_id (NKShareKey pk) ;; ret tt
  | Remove id _ _ _ _ => remove_id id ;; ret tt
  | Update _ new_path _ _ => apply_path new_path
  end.

Definition apply_operation (op : SignedOp) : CgkaM unit :=
  known <- gets (fun c => contains_op_hash (Digest_hash op) (ops_graph c)) ;;
  if known : bool then ret tt
  else
    tree_do (apply_payload (payload op)) ;;
    graph_do (add_op op (predecessors (payload op))).

(** The ids and leaf positions a batch adds and removes. *)
Definition added_ids_of (epoch : CgkaEpoch) : gset MemberId :=
  list_to_set (omap (fun op => match payload op with Add added_id _ _ _ _ _ => Some added_id | _ => None end) epoch).
Definition removed_ids_of (epoch : CgkaEpoch) : gset (MemberId * N) :=
  list_to_set (omap (fun op => match payload op with Remove id leaf_idx _ _ _ => Some (id, leaf_idx) | _ => None end) epoch).

Definition apply_epoch (epoch : CgkaEpoch) : CgkaM unit :=
  match epoch with
  | [op] => apply_operation op
  | _ =>
      if forallb (fun op => is_update (payload op)) epoch then forM epoch apply_operation
      else
        forM epoch apply_operation ;;
        tree_do (sort_leaves_and_blank_paths_for_concurrent_membership_changes
                   (added_ids_of epoch) (removed_ids_of epoch))
  end.

Definition apply_epochs (epochs : list CgkaEpoch) : CgkaM unit := forM epochs apply_epoch.

(** ** Rebuilding *)

(** [epochs.last()[0]] *)
Definition last_op (epochs : list CgkaEpoch) : res CgkaError SignedOp := expectR (last epochs ≫= head).

(** The common beginning of [rebuild_cgka] and [rebuild_pcs_key]. *)
Definition rebuild_from (epochs : list CgkaEpoch) (c : Cgka) : res CgkaError Cgka :=
  let* fresh := new_from_init_add (cgka_doc_id c) (original_member c).1 (original_member c).2 (init_add_op c) in
  let* rebuilt_cgka := with_new_owner (owner_id c) (owner_sks c) fresh in
  let* done := run (apply_epochs epochs) rebuilt_cgka in
  Ok done.2.

Definition rebuild_cgka (epochs : list CgkaEpoch) (c : Cgka) : res CgkaError Cgka :=
  let* rebuilt_cgka := rebuild_from epochs c in
  let* has := has_pcs_key rebuilt_cgka in
  if has : bool then
    let* root := run pcs_key_from_tree_root rebuilt_cgka in
    let* op := last_op epochs in
    let* done := run (insert_pcs_key root.1 (Digest_hash op)) root.2 in
    Ok done.2
  else Ok rebuilt_cgka.

Definition rebuild_pcs_key (epochs : list CgkaEpoch) : CgkaM PcsKey :=
  rebuilt_cgka <- readM (rebuild_from epochs) ;;
  root <- liftR (run pcs_key_from_tree_root rebuilt_cgka) ;;
  op <- liftR (last_op epochs) ;;
  insert_pcs_key root.1 (Digest_hash op) ;;
  ret root.1.

Definition update_cgka_from (other : Cgka) : CgkaM unit :=
  modify (fun c =>
    set_pending (pending_ops_for_structural_change other)
      (set_pcs (CaMap_extend (pcs_keys c) (map_to_list (pcs_keys other))) (pcs_key_ops other ∪ pcs_key_ops c)
        (set_owner_sks (ShareKeyMap_extend (owner_sks c) (owner_sks other)) (set_tree (tree other) c)))).

Definition replay_ops_graph : CgkaM unit :=
  ordered_ops <- readM (fun c => topsort_graph (ops_graph c)) ;;
  rebuilt_cgka <- readM (rebuild_cgka ordered_ops) ;;
  update_cgka_from rebuilt_cgka ;;
  modify (set_pending false).

Definition should_replay (c : Cgka) : bool :=
  negb (bool_decide (cgka_op_heads (ops_graph c) = ∅)) &&
  (pending_ops_for_structural_change c || negb (has_single_head (ops_graph c))).

(** [if self.should_replay() { self.replay_ops_graph()?; }] *)
Definition maybe_replay : CgkaM unit :=
  replay <- gets should_replay ;; whenM replay replay_ops_graph.

Definition derive_pcs_key_for_op (op_hash : OpHash) : CgkaM PcsKey :=
  known <- gets (fun c => contains_op_hash op_hash (ops_graph c)) ;;
  if negb known then throw UnknownPcsKey
  else
    ops <- readM (fun c => topsort_for_heads {[op_hash]} (ops_graph c)) ;;
    rebuild_pcs_key ops.

Definition pcs_key_from_hashes (pcs_key_hash : Digest PcsKey) (update_op_hash : OpHash) : CgkaM PcsKey :=
  keys <- gets pcs_keys ;;
  match CaMap_get pcs_key_hash keys with
  | Some k => ret k
  | None =>
      has <- readM has_pcs_key ;;
      if has : bool then
        k <- pcs_key_from_tree_root ;;
        if decide (Digest_hash k = pcs_key_hash) then ret k else derive_pcs_key_for_op update_op_hash
      else derive_pcs_key_for_op update_op_hash
  end.

(** ** Local operations *)

Definition sign_op (signer : AsyncSigner) (op : CgkaOperation) : CgkaM SignedOp :=
  liftR (lift_signing (try_sign_async signer op)).

Definition add (id : MemberId) (pk : ShareKey) (signer : AsyncSigner) : CgkaM (option SignedOp) :=
  here <- gets (fun c => contains_id id (tree c)) ;;
  if here : bool then ret None
  else
    maybe_replay ;;
    leaf_index <- tree_do (push_leaf id (NKShareKey pk)) ;;
    c <- get ;;
    let predecessors := elements (cgka_op_heads (ops_graph c)) in
    let add_predecessors := elements (add_heads (ops_graph c)) in
    signed_op <- sign_op signer (Add id pk leaf_index predecessors add_predecessors (cgka_doc_id c)) ;;
    graph_do (add_local_op signed_op) ;;
    ret (Some signed_op).

Fixpoint add_multiple_loop (members : list (MemberId * ShareKey)) (signer : AsyncSigner)
    (ops : list (option SignedOp)) : CgkaM (list (option SignedOp)) :=
  match members with
  | [] => ret ops
  | m :: members' => op <- add m.1 m.2 signer ;; add_multiple_loop members' signer (ops ++ [op])
  end.
Definition add_multiple (members : list (MemberId * ShareKey)) (signer : AsyncSigner) : CgkaM (list SignedOp) :=
  ops <- add_multiple_loop members signer [] ;; ret (omap id ops).

Definition remove (id : MemberId) (signer : AsyncSigner) : CgkaM (option SignedOp) :=
  here <- gets (fun c => contains_id id (tree c)) ;;
  if negb here then ret None
  else
    maybe_replay ;;
    size <- gets group_size ;;
    if (size =? 1)%N then throw RemoveLastMember
    else
      removed <- tree_do (remove_id id) ;;
      c <- get ;;
      let predecessors := elements (cgka_op_heads (ops_graph c)) in
      signed_op <- sign_op signer (Remove id removed.1 removed.2 predecessors (cgka_doc_id c)) ;;
      graph_do (add_local_op signed_op) ;;
      ret (Some signed_op).

(** Computations that also draw randomness. *)
Abbreviation CgkaRngM := (M (Cgka * Rng) CgkaError).
Definition no_rng {A} (m : CgkaM A) : CgkaRngM A := zoom fst (fun c s => (c, s.2)) m.
(** [self.tree] with the generator. *)
Definition tree_rng {A} (m : M (BeeKem * Rng) CgkaError A) : CgkaRngM A :=
  zoom (fun s => (tree s.1, s.2)) (fun tr s => (set_tree tr.1 s.1, tr.2)) m.

Definition update (new_pk : ShareKey) (new_sk : ShareSecretKey) (signer : AsyncSigner) :
    CgkaRngM (PcsKey * SignedOp) :=
  no_rng maybe_replay ;;
  no_rng (modify (fun c => set_owner_sks (<[new_pk := new_sk]> (owner_sks c)) c)) ;;
  s <- get ;;
  maybe_key_and_path <- tree_rng (encrypt_path (owner_id s.1) new_pk (owner_sks s.1)) ;;
  match maybe_key_and_path with
  | Some (pcs_key, new_path) =>
      s <- get ;;
      let predecessors := elements (cgka_op_heads (ops_graph s.1)) in
      signed_op <- no_rng (sign_op signer (Update (owner_id s.1) new_path predecessors (cgka_doc_id s.1))) ;;
      no_rng (graph_do (add_local_op signed_op)) ;;
      no_rng (insert_pcs_key pcs_key (Digest_hash signed_op)) ;;
      ret (pcs_key, signed_op)
  | None => throw IdentifierNotFound
  end.

(** ** Merging *)

Definition merge_concurrent_operation (op : SignedOp) : CgkaM bool :=
  c <- get ;;
  if contains_op_hash (Digest_hash op) (ops_graph c) then ret false
  else
    let preds := predecessors (payload op) in
    if negb (contains_predecessors preds (ops_graph c)) then throw OutOfOrderOperation
    else
      let is_concurrent := negb (heads_contained_in preds (ops_graph c)) in
      (if is_concurrent then
         if pending_ops_for_structural_change c then graph_do (add_op op preds)
         else if negb (is_update (payload op)) then
           modify (set_pending true) ;; graph_do (add_op op preds)
         else apply_operation op
       else maybe_replay ;; apply_operation op) ;;
      ret true.

(** [Merge for Cgka] *)
Definition Cgka_merge (fork : Cgka) : CgkaM unit :=
  modify (fun c =>
    set_pcs (CaMap_merge (pcs_keys c) (pcs_keys fork)) (pcs_key_ops c)
      (set_ops_graph (graph_merge (ops_graph c) (ops_graph fork))
        (set_owner_sks (ShareKeyMap_merge (owner_sks c) (owner_sks fork)) c))) ;;
  fun c => match replay_ops_graph c with
           | (Err _, c') => (Panic, c')
           | r => r
           end.

(** ** Content keys *)

Context {Cr : Type} `{Scr : !Serialize Cr, Slcr : !Serialize (list Cr)}.

Definition new_app_secret_for (content_ref : Cr) (content : bytes) (pred_refs : list Cr) (signer : AsyncSigner) :
    CgkaRngM (ApplicationSecret Cr * option SignedOp) :=
  has <- no_rng (readM has_pcs_key) ;;
  current <-
    (if has : bool then k <- no_rng pcs_key_from_tree_root ;; ret (k, None)
     else
       new_share_secret_key <- zoom snd (fun r s => (s.1, r)) generate ;;
       let new_share_key := share_key new_share_secret_key in
       updated <- update new_share_key new_share_secret_key signer ;;
       no_rng (insert_pcs_key updated.1 (Digest_hash updated.2)) ;;
       ret (updated.1, Some updated.2)) ;;
  let current_pcs_key := current.1 in
  let pcs_key_hash := Digest_hash current_pcs_key in
  s <- get ;;
  let nonce := Siv_new (PcsKey_symmetric current_pcs_key) content (TreeId_bytes (cgka_doc_id s.1)) in
  op_hash <- expect (pcs_key_ops s.1 !! pcs_key_hash) ;;
  ret (derive_application_secret current_pcs_key nonce content_ref (Digest_hash pred_refs) op_hash, current.2).

Definition decryption_key_for (encrypted : EncryptedContent Cr) : CgkaM SymmetricKey :=
  k <- pcs_key_from_hashes (ec_pcs_key_hash encrypted) (ec_pcs_update_op_hash encrypted) ;;
  known <- gets (fun c => CaMap_contains_key (ec_pcs_key_hash encrypted) (pcs_keys c)) ;;
  whenM (negb known) (insert_pcs_key k (ec_pcs_update_op_hash encrypted)) ;;
  ret (as_key (derive_application_secret k (ec_nonce encrypted) (ec_content_ref encrypted) (ec_pred_refs encrypted)
                 (ec_pcs_update_op_hash encrypted))).
End Cgka.
