(* ===== verification/CgkaReplay.v ===== *)
(** * Replicas converge

    The tree of a replica is a function of the operations it has seen: whatever
    the order in which they arrived, once nothing is left to replay the tree is
    the one that replaying the sorted graph builds. *)

From S2P Require Import Prelude TreeMath Crypto Keys SecretStore Tree PathCrypto Signed TopSort CaMap OpGraph OpSearch.
From S2P Require Import OpEpochs OpTopsort OpGraphInv OpExtend AppSecret Cgka.

Local Open Scope monad_scope.

(** ** What an operation touches *)

(** [c] with another tree and graph. *)
Definition with_core (t : BeeKem) (g : CgkaOperationGraph) (c : Cgka) : Cgka := set_ops_graph g (set_tree t c).

Lemma with_core_self c : with_core (tree c) (ops_graph c) c = c.
Proof. by destruct c. Qed.

(** [m] reads and writes nothing but the tree and the graph. *)
Definition framed {A} (m : CgkaM A) : Prop := forall t g c c2,
  exists r t' g', m (with_core t g c) = (r, with_core t' g' c) /\ m (with_core t g c2) = (r, with_core t' g' c2).

Section Framed.
Context `{P : Primitives} `{Ssop : !Serialize (Signed CgkaOperation)}.

Lemma framed_ret {A} (a : A) : framed (ret a).
Proof. intros t g c c2. by exists (Ok a), t, g. Qed.

Lemma framed_bind {A B} (m : CgkaM A) (k : A -> CgkaM B) : framed m -> (forall a, framed (k a)) -> framed (bindM m k).
Proof.
  intros Hm Hk t g c c2. destruct (Hm t g c c2) as (r & t' & g' & H1 & H2). unfold bindM. rewrite H1, H2.
  destruct r as [a|e| |]; [apply Hk|eauto..].
Qed.

Lemma framed_gets {A} (f : Cgka -> A) : (forall t g c c2, f (with_core t g c) = f (with_core t g c2)) -> framed (gets f).
Proof. intros Hf t g c c2. exists (Ok (f (with_core t g c))), t, g. unfold gets. by rewrite (Hf t g c2 c). Qed.

Lemma framed_tree {A} (m : TreeM A) : framed (tree_do m).
Proof.
  intros t g c c2. unfold tree_do, zoom. cbn [tree with_core set_ops_graph set_tree].
  destruct (m t) as [r t']. by exists r, t', g.
Qed.

Lemma framed_graph f : framed (graph_do f).
Proof.
  intros t g c c2. unfold graph_do, bindM, gets, liftR, modify. cbn [ops_graph with_core set_ops_graph set_tree].
  destruct (f g) as [g'|e| |]; [by exists (Ok tt), t, g'|by exists (Err e), t, g|by exists Panic, t, g|by exists Diverge, t, g].
Qed.

Lemma framed_forM {A} (l : list A) (f : A -> CgkaM unit) : (forall x, framed (f x)) -> framed (forM l f).
Proof. intros Hf. induction l as [|x l IH]; cbn [forM]; [apply framed_ret|]. by apply framed_bind. Qed.

Lemma framed_apply_operation op : framed (apply_operation op).
Proof.
  apply framed_bind; [by apply framed_gets|]. intros [|]; [apply framed_ret|].
  apply framed_bind; [apply framed_tree|]. intros _. apply framed_graph.
Qed.

Lemma framed_apply_epoch e : framed (apply_epoch e).
Proof.
  assert (framed (forM e apply_operation)) as Hall by apply framed_forM, framed_apply_operation.
  unfold apply_epoch. destruct e as [|op [|op2 e]]; [|apply framed_apply_operation|].
  all: destruct (forallb _ _); [done|]; apply framed_bind; [done|]; intros _; apply framed_tree.
Qed.

Lemma framed_apply_epochs es : framed (apply_epochs es).
Proof. apply framed_forM, framed_apply_epoch. Qed.
End Framed.

(** ** Rebuilding *)

(** What is fixed when a group is created. *)
Definition group (c : Cgka) : TreeId * (MemberId * ShareKey) * SignedOp :=
  (cgka_doc_id c, original_member c, init_add_op c).

Section Rebuild.
Context `{P : Primitives} `{Ssop : !Serialize (Signed CgkaOperation)}.

Lemma run_ok {S E A} (m : M S E A) s a s' : run m s = Ok (a, s') <-> m s = (Ok a, s').
Proof. unfold run. destruct (m s) as [[] ?]; naive_solver. Qed.

(** The rebuilt tree and graph depend on the group and the epochs only. *)
Lemma rebuild_from_group es c1 c2 c1' :
  group c1 = group c2 -> rebuild_from es c1 = Ok c1' ->
  exists c2', rebuild_from es c2 = Ok c2' /\ tree c2' = tree c1' /\ ops_graph c2' = ops_graph c1'.
Proof.
  unfold group, rebuild_from. intros [= Hd Ho Hi]. rewrite Hd, Ho, Hi.
  destruct (new_from_init_add _ _ _ _) as [f|e| |]; try done. cbn [bindR with_new_owner].
  set (a1 := set_pcs _ _ _). set (a2 := set_pcs _ _ (set_owner (owner_id c2) _ _)). intros Hr.
  destruct (framed_apply_epochs es (tree f) (ops_graph f) a1 a2) as (r & t' & g' & H1 & H2).
  assert (with_core (tree f) (ops_graph f) a1 = a1) as E1 by (apply (with_core_self a1)).
  assert (with_core (tree f) (ops_graph f) a2 = a2) as E2 by (apply (with_core_self a2)).
  rewrite E1 in H1. rewrite E2 in H2. unfold run in *. rewrite H1 in Hr. rewrite H2.
  destruct r as [[]|e| |]; try done. simpl in *. injection Hr as <-. by eexists.
Qed.

(** An applied operation, on every branch. *)
Lemma apply_operation_eq op c :
  apply_operation op c =
    if contains_op_hash (Digest_hash op) (ops_graph c) then (Ok tt, c)
    else
      let ps := predecessors (payload op) in
      let '(r, t') := apply_payload (payload op) (tree c) in
      (r, with_core t' (match r with
                        | Ok _ => grown op ps (cgka_op_heads (ops_graph c) ∖ ps)
                                    (add_heads (ops_graph c) ∖ add_preds (payload op)) (ops_graph c)
                        | _ => ops_graph c
                        end) c).
Proof.
  unfold apply_operation. step_gets. destruct (contains_op_hash _ _); [done|].
  unfold bindM at 1, tree_do, zoom. destruct (apply_payload (payload op) (tree c)) as [[[]|e| |] t']; try by destruct c.
  unfold graph_do, bindM, gets, liftR, modify. cbn [ops_graph set_tree]. by rewrite add_op_eq.
Qed.

(** One more epoch of a single operation. *)
Lemma rebuild_from_snoc es c c' op t' :
  rebuild_from es c = Ok c' -> contains_op_hash (Digest_hash op) (ops_graph c') = false ->
  apply_payload (payload op) (tree c') = (Ok tt, t') ->
  exists c'', rebuild_from (es ++ [[op]]) c = Ok c'' /\ tree c'' = t'.
Proof.
  unfold rebuild_from. destruct (new_from_init_add _ _ _ _) as [f|e| |]; try done. cbn [bindR with_new_owner].
  set (a := set_pcs _ _ _). unfold run, apply_epochs.
  destruct (forM es apply_epoch a) as [[[]|e| |] a'] eqn:Ha; try done. intros [= <-] Hnew Ht.
  cbn [snd] in *. rewrite forM_app. unfold bindM at 1. rewrite Ha. cbn [forM apply_epoch].
  unfold bindM. rewrite apply_operation_eq, Hnew, Ht. by eexists.
Qed.

(** The digests in the graph of a replica. *)
Definition known_ops (c : Cgka) : gset OpHash := dom (cgka_ops (ops_graph c)).

Lemma apply_operation_known op c c' : apply_operation op c = (Ok tt, c') -> known_ops c' = {[Digest_hash op]} ∪ known_ops c.
Proof.
  rewrite apply_operation_eq, contains_op_hash_spec. unfold known_ops. case_bool_decide as Hk.
  - intros [= <-]. apply elem_of_dom in Hk. set_solver.
  - destruct (apply_payload _ _) as [[[]|e| |] t']; try done. intros [= <-]. simpl. by rewrite dom_insert_L.
Qed.

Lemma apply_ops_known l : forall c c', forM l apply_operation c = (Ok tt, c') ->
  known_ops c' = list_to_set (Digest_hash <$> l) ∪ known_ops c.
Proof.
  induction l as [|op l IH]; intros c c'; cbn [forM].
  - intros [= <-]. set_solver.
  - intros ([] & c1 & H1 & H2)%bindM_inv. apply apply_operation_known in H1. apply IH in H2.
    rewrite H2, H1, fmap_cons, list_to_set_cons. by rewrite (assoc_L (∪)), (comm_L (∪) (list_to_set _)).
Qed.

Lemma apply_epoch_known e c c' : apply_epoch e c = (Ok tt, c') ->
  known_ops c' = list_to_set (Digest_hash <$> e) ∪ known_ops c.
Proof.
  assert (forall c' f, bindM (forM e apply_operation) (fun _ => tree_do f) c = (Ok tt, c') ->
    known_ops c' = list_to_set (Digest_hash <$> e) ∪ known_ops c) as Hsort.
  { intros c1 f ([] & c2 & H1 & H2)%bindM_inv. apply apply_ops_known in H1. rewrite <- H1.
    unfold tree_do, zoom in H2. destruct (f (tree c2)) as [? ?]. by injection H2 as _ <-. }
  unfold apply_epoch. destruct e as [|op [|op2 e]].
  - destruct (forallb _ _); [apply (apply_ops_known [])|apply Hsort].
  - intros H1%apply_operation_known. rewrite H1. set_solver.
  - destruct (forallb _ _); [apply apply_ops_known|apply Hsort].
Qed.

Lemma apply_epochs_known es : forall c c', apply_epochs es c = (Ok tt, c') ->
  known_ops c' = list_to_set (Digest_hash <$> mjoin es) ∪ known_ops c.
Proof.
  unfold apply_epochs. induction es as [|e es IH]; intros c c'; cbn [forM].
  - intros [= <-]. set_solver.
  - intros ([] & c1 & H1 & H2)%bindM_inv. apply apply_epoch_known in H1. apply IH in H2.
    cbn [mjoin list_join]. rewrite H2, H1, fmap_app, list_to_set_app_L.
    by rewrite (assoc_L (∪)), (comm_L (∪) (list_to_set (Digest_hash <$> mjoin es))).
Qed.

Lemma rebuild_from_known es c c' : rebuild_from es c = Ok c' ->
  known_ops c' = list_to_set (Digest_hash <$> mjoin es) ∪ {[Digest_hash (init_add_op c)]}.
Proof.
  unfold rebuild_from, new_from_init_add. destruct (BeeKem_new _ _ _) as [t|e| |]; try done. cbn [bindR ops_graph].
  rewrite add_local_op_eq. cbn [bindR with_new_owner]. set (a := set_pcs _ _ _).
  destruct (run (apply_epochs es) a) as [[[] a']|e| |] eqn:Hr; try done. intros [= <-]. cbn [snd].
  apply run_ok, apply_epochs_known in Hr. rewrite Hr. f_equal. unfold known_ops. simpl.
  rewrite dom_insert_L. change (cgka_ops graph_new) with (∅ : CaMap SignedOp).
  clear. set_solver.
Qed.

(** ** Replayed trees *)

(** [t] is the tree that replaying the graph of [c] builds. *)
Definition replays (c : Cgka) (t : BeeKem) : Prop :=
  exists es c', topsort_graph (ops_graph c) = Ok es /\ rebuild_from es c = Ok c' /\ tree c' = t.

(** A replica of a group: its graph is well formed and grew from the group's
    initial operation. *)
Record cgka_wf (c : Cgka) : Prop := {
  cw_graph : graph_wf (ops_graph c);
  cw_rooted : rooted (ops_graph c) (Digest_hash (init_add_op c));
  cw_init : is_Some (cgka_ops (ops_graph c) !! Digest_hash (init_add_op c));
}.

(** A replica with nothing to replay has the tree of its replay. *)
Definition synced (c : Cgka) : Prop := should_replay c = false -> replays c (tree c).
End Rebuild.
