(* ===== verification/CgkaConverge.v ===== *)
(** * Convergence of replicas

    Every operation of a replica keeps [cgka_wf] and [synced]; so replicas that
    have seen the same operations have the same tree. *)

From S2P Require Import Prelude TreeMath Crypto Keys SecretStore Tree TreeInv TreeOps PathCrypto PathSpec PathDecrypt.
From S2P Require Import PathEncrypt Signed TopSort CaMap OpGraph OpSearch OpEpochs OpTopsort OpGraphInv OpExtend.
From S2P Require Import AppSecret Cgka CgkaReplay.

Local Open Scope monad_scope.

Section Converge.
Context `{P : Primitives}.
Context `{Sop : !Serialize CgkaOperation, Ssop : !Serialize (Signed CgkaOperation)}.
Context `{Ssk : !Serialize ShareSecretKey, Spcs : !Serialize PcsKey}.

(** ** Replaying *)

Lemma rebuild_cgka_tree es c c' : rebuild_cgka es c = Ok c' ->
  exists c0, rebuild_from es c = Ok c0 /\ tree c' = tree c0.
Proof.
  unfold rebuild_cgka. destruct (rebuild_from es c) as [c0|e| |]; try done. cbn [bindR].
  destruct (has_pcs_key c0) as [[|]|e| |]; try done; cbn [bindR]; [|intros [= <-]; by exists c0].
  destruct (run pcs_key_from_tree_root c0) as [[k c1]|e| |] eqn:Hk; try done. cbn [bindR].
  destruct (last_op es) as [op|e| |]; try done. intros [= <-]. exists c0. split; [done|].
  apply run_ok in Hk. unfold pcs_key_from_tree_root, bindM, get, sks_do, zoom in Hk.
  destruct (decrypt_tree_secret (tree c0) (owner_id c0) (owner_sks c0)) as [[sk|e| |] sks']; try done.
  by injection Hk as _ <-.
Qed.

(** What a successful replay leaves. *)
Lemma replay_ops_graph_ok c c1 : replay_ops_graph c = (Ok tt, c1) ->
  replays c (tree c1) /\ ops_graph c1 = ops_graph c /\ group c1 = group c /\ owner_id c1 = owner_id c /\
  pending_ops_for_structural_change c1 = false.
Proof.
  unfold replay_ops_graph. intros (es & c2 & H1 & H2)%bindM_inv. unfold readM in H1. injection H1 as Hes <-.
  apply bindM_inv in H2 as (c' & c3 & H1 & H2). unfold readM in H1. injection H1 as Hre <-.
  unfold update_cgka_from, bindM, modify in H2. injection H2 as <-.
  destruct (rebuild_cgka_tree es c c' Hre) as (c0 & H0 & Ht). split_and!; try done. exists es, c0. by rewrite Ht.
Qed.

Lemma replays_cong c1 c2 t :
  group c1 = group c2 -> topsort_graph (ops_graph c1) = topsort_graph (ops_graph c2) -> replays c1 t -> replays c2 t.
Proof.
  intros Hgr Hts (es & c' & Hes & Hre & Ht).
  destruct (rebuild_from_group es c1 c2 c' Hgr Hre) as (c2' & H1 & H2 & _).
  exists es, c2'. split_and!; [congruence|done|congruence].
Qed.

(** After [if self.should_replay() { self.replay_ops_graph()? }] the tree is that
    of the replay. *)
Lemma maybe_replay_ok c c1 : cgka_wf c -> synced c -> maybe_replay c = (Ok tt, c1) ->
  replays c1 (tree c1) /\ ops_graph c1 = ops_graph c /\ group c1 = group c /\ owner_id c1 = owner_id c /\
  pending_ops_for_structural_change c1 = false.
Proof.
  intros Hw Hs. unfold maybe_replay. step_gets. destruct (should_replay c) eqn:Hr; cbn [whenM].
  - intros (H1 & H2 & H3 & H4 & H5)%replay_ops_graph_ok. split_and!; try done.
    eapply replays_cong; [done| |done]. by rewrite H2.
  - intros [= <-]. split_and!; try done; [by apply Hs|]. unfold should_replay in Hr.
    rewrite bool_decide_false in Hr by (apply (heads_nonempty _ _ (cw_graph _ Hw) (cw_init _ Hw))).
    by destruct (pending_ops_for_structural_change c).
Qed.

Lemma replays_det c t1 t2 : replays c t1 -> replays c t2 -> t1 = t2.
Proof. intros (es & c1 & H1 & H2 & H3) (es' & c2 & H4 & H5 & H6). congruence. Qed.

(** ** An operation on top of all heads *)

Lemma rooted_grown g r op ps heads adds : rooted g r -> ps <> ∅ -> rooted (grown op ps heads adds g) r.
Proof.
  intros Hr Hps x. unfold grown. cbn [cgka_ops_predecessors]. destruct (decide (x = Digest_hash op)) as [->|Hne].
  - rewrite lookup_insert_eq. congruence.
  - rewrite lookup_insert_ne by done. apply Hr.
Qed.

Lemma cgka_wf_grown c op heads adds c' :
  let ps := predecessors (payload op) in
  cgka_wf c -> cgka_ops (ops_graph c) !! Digest_hash op = None -> ps ⊆ known_ops c -> ps <> ∅ ->
  heads = cgka_op_heads (ops_graph c) ∖ ps -> adds ⊆ add_heads (ops_graph c) ->
  ops_graph c' = grown op ps heads adds (ops_graph c) -> group c' = group c -> cgka_wf c'.
Proof.
  intros ps [Hg Hr Hi] Hnew Hps Hne Hh Ha Hgr Hgroup. unfold group in Hgroup. injection Hgroup as _ _ Hinit.
  constructor; rewrite Hgr, ?Hinit.
  - by apply grown_wf.
  - by apply rooted_grown.
  - cbn [cgka_ops grown]. apply lookup_insert_is_Some'. by right.
Qed.

Lemma topsort_graph_known g es y :
  graph_wf g -> cgka_op_heads g <> ∅ -> topsort_graph g = Ok es ->
  y ∈ (Digest_hash <$> mjoin es) -> is_Some (cgka_ops g !! y).
Proof.
  intros Hg Hne Hes Hy. destruct (topsort_ok g (cgka_op_heads g) Hg (heads_known g Hg) Hne) as (es' & Hes' & _ & Hall).
  assert (es' = es) as -> by (unfold topsort_graph in Hes; congruence).
  apply Hall in Hy as [[Hy _]|[_ Hy]].
  - eapply ancestor_in_graph; [done|by apply heads_known|done].
  - by apply elem_of_dom, heads_known.
Qed.

(** A rebuilt replica has no operation that its graph did not have. *)
Lemma rebuilt_without c es c0 op :
  cgka_wf c -> topsort_graph (ops_graph c) = Ok es -> rebuild_from es c = Ok c0 ->
  cgka_ops (ops_graph c) !! Digest_hash op = None -> contains_op_hash (Digest_hash op) (ops_graph c0) = false.
Proof.
  intros [Hg _ Hi] Hes Hre Hnew. rewrite contains_op_hash_spec. apply bool_decide_eq_false. intros Hin.
  assert (Digest_hash op ∈ known_ops c0) as Hk by (by apply elem_of_dom). rewrite (rebuild_from_known es c c0 Hre) in Hk.
  assert (is_Some (cgka_ops (ops_graph c) !! Digest_hash op)) as Hk'; [|by rewrite Hnew in Hk'; destruct Hk'].
  apply elem_of_union in Hk as [Hk%elem_of_list_to_set|Hk%elem_of_singleton]; [|by rewrite Hk].
  apply (topsort_graph_known _ es); [done| |done..]. by eapply heads_nonempty.
Qed.

Lemma replays_grown c op adds t t' c' :
  let ps := predecessors (payload op) in
  cgka_wf c -> cgka_ops (ops_graph c) !! Digest_hash op = None -> ps = cgka_op_heads (ops_graph c) ->
  adds ⊆ add_heads (ops_graph c) ->
  ops_graph c' = grown op ps ∅ adds (ops_graph c) -> group c' = group c ->
  replays c t -> apply_payload (payload op) t = (Ok tt, t') -> replays c' t'.
Proof.
  intros ps Hw Hnew Hps Ha Hgr Hgroup (es & c0 & Hes & Hre & Ht) Happ. pose proof Hw as [Hg Hr Hi].
  assert (ps <> ∅) as Hne by (rewrite Hps; by eapply heads_nonempty).
  assert (ps ⊆ dom (cgka_ops (ops_graph c))) as Hsub by (rewrite Hps; by apply heads_known).
  assert (cgka_wf c') as Hw'.
  { eapply (cgka_wf_grown c op ∅ adds); try done. rewrite <- Hps. by rewrite difference_diag_L. }
  destruct (topsort_extend (ops_graph c) (ops_graph c') (Digest_hash (init_add_op c)) ps (Digest_hash op) op)
    as (out & Hout & Hout'); try done.
  { apply Hw'. }
  { destruct Hw' as [_ Hr' _]. unfold group in Hgroup. injection Hgroup as _ _ Hinit. by rewrite <- Hinit. }
  { intros x y Hy _ He. rewrite Hps in Hy. apply (gw_heads _ Hg) in Hy as [_ Hno]. by apply (Hno x). }
  { intros y Hy%ancestor_in_graph; [|done..]. rewrite Hgr. cbn [cgka_ops cgka_ops_predecessors grown].
    assert (y <> Digest_hash op) by (intros ->; rewrite Hnew in Hy; by destruct Hy). by rewrite !lookup_insert_ne. }
  { rewrite Hgr. apply lookup_insert_eq. }
  { rewrite Hgr. apply lookup_insert_eq. }
  assert (out = es) as -> by (unfold topsort_graph in Hes; rewrite <- Hps in Hes; congruence).
  destruct (rebuild_from_snoc es c c0 op t' Hre) as (c'' & Hre' & Ht'').
  { by apply (rebuilt_without c es c0 op). }
  { by rewrite Ht. }
  destruct (rebuild_from_group _ c c' c'' (eq_sym Hgroup) Hre') as (c2 & H1 & H2 & _).
  exists (es ++ [[op]]), c2. split_and!; [|done|congruence]. unfold topsort_graph. rewrite <- Hout'. f_equal.
  rewrite Hgr. cbn [cgka_op_heads grown]. by rewrite (right_id_L ∅ (∪)).
Qed.

(** ** Local operations *)

(** What a local operation does to the graph, once its operation is signed. *)
Lemma local_op_ok c1 op t' c' :
  collision_free (Signed CgkaOperation) -> cgka_wf c1 -> replays c1 (tree c1) ->
  pending_ops_for_structural_change c1 = false ->
  predecessors (payload op) = cgka_op_heads (ops_graph c1) ->
  apply_payload (payload op) (tree c1) = (Ok tt, t') ->
  tree c' = t' -> Ok (ops_graph c') = add_local_op op (ops_graph c1) -> group c' = group c1 ->
  cgka_wf c' /\ synced c'.
Proof.
  intros Hcf Hw Hrep Hpend Hps Happ Ht Hg Hgroup. rewrite add_local_op_eq in Hg. injection Hg as Hg.
  assert (cgka_ops (ops_graph c1) !! Digest_hash op = None) as Hnew
    by (apply (op_on_heads_new _ _ _ Hcf (cw_graph _ Hw) (cw_init _ Hw) Hps)).
  rewrite <- Hps in Hg.
  assert ((if is_add (payload op) then ∅ else add_heads (ops_graph c1)) ⊆ add_heads (ops_graph c1)) as Hadds
    by (destruct (is_add _); [apply empty_subseteq|done]).
  split.
  - eapply (cgka_wf_grown c1 op ∅); try done.
    + rewrite Hps. by apply heads_known, Hw.
    + rewrite Hps. apply (heads_nonempty _ _ (cw_graph _ Hw) (cw_init _ Hw)).
    + by rewrite Hps, difference_diag_L.
  - intros _. rewrite Ht. by eapply (replays_grown c1 op).
Qed.

Lemma sign_op_ok signer op c o c' : sign_op signer op c = (Ok o, c') -> payload o = op /\ c' = c.
Proof.
  unfold sign_op, liftR, lift_signing, try_sign_async. destruct (try_sign_bytes_async _ _) as [s|e| |]; try done.
  by intros [= <- <-].
Qed.

Lemma graph_do_ok f c c' : graph_do f c = (Ok tt, c') -> Ok (ops_graph c') = f (ops_graph c) /\ c' = set_ops_graph (ops_graph c') c.
Proof.
  unfold graph_do, bindM, gets, liftR, modify. destruct (f (ops_graph c)) as [g|e| |]; try done.
  by intros [= <-].
Qed.

Lemma tree_do_ok {A} (m : TreeM A) c a c' : tree_do m c = (Ok a, c') ->
  m (tree c) = (Ok a, tree c') /\ c' = set_tree (tree c') c.
Proof. unfold tree_do, zoom. destruct (m (tree c)) as [r t]. by intros [= -> <-]. Qed.

(** The end of every local operation: sign, and record on top of the heads. *)
Lemma local_end c c1 c2 signer op o c3 c' :
  collision_free (Signed CgkaOperation) -> cgka_wf c -> replays c1 (tree c1) -> ops_graph c1 = ops_graph c ->
  group c1 = group c -> pending_ops_for_structural_change c1 = false ->
  predecessors op = cgka_op_heads (ops_graph c1) -> apply_payload op (tree c1) = (Ok tt, tree c2) ->
  ops_graph c2 = ops_graph c1 -> group c2 = group c1 ->
  sign_op signer op c2 = (Ok o, c3) -> graph_do (add_local_op o) c3 = (Ok tt, c') ->
  cgka_wf c' /\ synced c' /\ group c' = group c.
Proof.
  intros Hcf Hw Hrep Hg Hgr Hpend Hps Happ Hg2 Hgr2 [Ho ->]%sign_op_ok [Hg' Hc']%graph_do_ok.
  assert (cgka_wf c1) as Hw1.
  { destruct Hw as [H1 H2 H3]. unfold group in Hgr. injection Hgr as _ _ Hi. constructor; rewrite Hg, ?Hi; done. }
  assert (group c' = group c1) as Hgr' by (rewrite Hc', <- Hgr2; done).
  destruct (local_op_ok c1 o (tree c2) c') as [Hw' Hs']; try done; try by rewrite Ho.
  - by rewrite Hc'.
  - by rewrite Hg', Hg2.
  - split_and!; [done..|]. by rewrite Hgr', Hgr.
Qed.

Lemma add_keeps id pk signer c o c' :
  collision_free (Signed CgkaOperation) -> cgka_wf c -> synced c ->
  add id pk signer c = (Ok o, c') -> cgka_wf c' /\ synced c' /\ group c' = group c.
Proof.
  intros Hcf Hw Hs. unfold add. step_gets. destruct (contains_id id (tree c)); [by intros [= <- <-]|].
  intros ([] & c1 & H1 & H2)%bindM_inv. destruct (maybe_replay_ok c c1 Hw Hs H1) as (Hrep & Hg & Hgr & _ & Hpend).
  apply bindM_inv in H2 as (n & c2 & H2 & H3). apply tree_do_ok in H2 as [Ht Hc2].
  apply bindM_inv in H3 as (c2' & c2'' & H2 & H3). unfold get in H2. injection H2 as <- <-.
  apply bindM_inv in H3 as (op & c3 & H2 & H3).
  apply bindM_inv in H3 as ([] & c4 & H4 & H3). unfold ret in H3. injection H3 as _ <-.
  eapply (local_end c c1 c2); try done; try by rewrite Hc2.
  - cbn [predecessors]. rewrite Hc2. apply list_to_set_elements_L.
  - cbn [apply_payload]. unfold bindM. by rewrite Ht.
Qed.

Lemma remove_keeps id signer c o c' :
  collision_free (Signed CgkaOperation) -> cgka_wf c -> synced c ->
  remove id signer c = (Ok o, c') -> cgka_wf c' /\ synced c' /\ group c' = group c.
Proof.
  intros Hcf Hw Hs. unfold remove. step_gets. destruct (contains_id id (tree c)); [|by intros [= <- <-]]. cbn [negb].
  intros ([] & c1 & H1 & H2)%bindM_inv. destruct (maybe_replay_ok c c1 Hw Hs H1) as (Hrep & Hg & Hgr & _ & Hpend).
  apply bindM_inv in H2 as (n & c2 & H2 & H3). unfold gets in H2. injection H2 as <- <-.
  destruct (_ =? 1)%N; [done|]. apply bindM_inv in H3 as (removed & c2 & H2 & H3). apply tree_do_ok in H2 as [Ht Hc2].
  apply bindM_inv in H3 as (c2' & c2'' & H2 & H3). unfold get in H2. injection H2 as <- <-.
  apply bindM_inv in H3 as (op & c3 & H2 & H3).
  apply bindM_inv in H3 as ([] & c4 & H4 & H3). unfold ret in H3. injection H3 as _ <-.
  eapply (local_end c c1 c2); try done; try by rewrite Hc2.
  - cbn [predecessors]. rewrite Hc2. apply list_to_set_elements_L.
  - cbn [apply_payload]. unfold bindM. by rewrite Ht.
Qed.

Lemma zoom_ok {S T E A} (proj : T -> S) put (m : M S E A) t a t' :
  zoom proj put m t = (Ok a, t') -> exists s', m (proj t) = (Ok a, s') /\ t' = put s' t.
Proof. unfold zoom. destruct (m (proj t)) as [r s']. intros [= -> <-]. eauto. Qed.

(** [update] is checked in replicas whose replayed tree is well formed and free
    of conflicting leaf keys. *)
Definition updatable (c : Cgka) : Prop := forall t, replays c t -> exists h, wf h t /\ leaves_single t.

(** The steps of a successful update. *)
Lemma update_inv pk sk signer c r k op c' r' :
  update pk sk signer (c, r) = (Ok (k, op), (c', r')) ->
  exists c1 change r1, maybe_replay c = (Ok tt, c1) /\
    encrypt_path (owner_id c1) pk (<[pk := sk]> (owner_sks c1)) (tree c1, r) = (Ok (Some (k, change)), (tree c', r1)) /\
    payload op = Update (owner_id c1) change (elements (cgka_op_heads (ops_graph c1))) (cgka_doc_id c1) /\
    Ok (ops_graph c') = add_local_op op (ops_graph c1) /\ group c' = group c1 /\
    pending_ops_for_structural_change c' = pending_ops_for_structural_change c1.
Proof.
  unfold update. intros ([] & s1 & H1 & H2)%bindM_inv. apply zoom_ok in H1 as (c1 & H1 & ->).
  apply bindM_inv in H2 as ([] & s2 & H2 & H3). apply zoom_ok in H2 as (c2 & H2 & ->). unfold modify in H2. injection H2 as <-.
  apply bindM_inv in H3 as (s2 & s3 & H2 & H3). unfold get in H2. injection H2 as <- <-. cbn [fst snd] in *.
  apply bindM_inv in H3 as (mk & s3 & H2 & H3). apply zoom_ok in H2 as ([t' r1] & H2 & ->). cbn [fst snd] in *.
  destruct mk as [[k0 change]|]; [|done].
  apply bindM_inv in H3 as (s4 & s5 & H4 & H3). unfold get in H4. injection H4 as <- <-. cbn [fst snd] in *.
  apply bindM_inv in H3 as (o & s5 & H4 & H3). apply zoom_ok in H4 as (c4 & H4 & ->). cbn [fst snd] in *.
  apply sign_op_ok in H4 as [Ho ->].
  apply bindM_inv in H3 as ([] & s6 & H5 & H3). apply zoom_ok in H5 as (c5 & H5 & ->). cbn [fst snd] in *.
  apply graph_do_ok in H5 as [Hg Hc5]. unfold bindM, no_rng, zoom, insert_pcs_key, modify, ret in H3. cbn [fst snd] in H3.
  injection H3 as <- <- <- <-. exists c1, change, r1. split_and!; [done| |done|exact Hg|by rewrite Hc5..].
  assert (tree c5 = t') as Ht by (by rewrite Hc5). cbn [tree set_pcs]. rewrite Ht. exact H2.
Qed.

Lemma update_keeps {L : PrimitiveLaws P} sk signer c r o c' r' :
  collision_free (Signed CgkaOperation) -> cgka_wf c -> synced c -> updatable c ->
  update (share_key sk) sk signer (c, r) = (Ok o, (c', r')) -> cgka_wf c' /\ synced c' /\ group c' = group c.
Proof.
  intros Hcf Hw Hs Hup Hrun. destruct o as [k op].
  destruct (update_inv _ _ _ _ _ _ _ _ _ Hrun) as (c1 & change & r1 & H1 & H2 & Ho & Hg' & Hgr' & Hp').
  destruct (maybe_replay_ok c c1 Hw Hs H1) as (Hrep & Hg & Hgr & _ & Hpend).
  destruct (Hup (tree c1)) as (h & Hwf & Hl); [eapply (replays_cong c1); [done|by rewrite Hg|done]|].
  destruct (encrypt_path_inv h (tree c1) r _ sk _ _ _ r1 Hwf Hl (lookup_insert_eq _ _ _) H2) as (pcs & ch & Heq & Happ).
  injection Heq as <- <-. assert (cgka_wf c1) as Hw1.
  { destruct Hw. unfold group in Hgr. injection Hgr as _ _ Hi. constructor; rewrite Hg, ?Hi; done. }
  destruct (local_op_ok c1 op (tree c') c') as [Hw' Hs']; try done; try (by rewrite Ho).
  - rewrite Ho. apply list_to_set_elements_L.
  - split_and!; [done..|]. by rewrite Hgr'.
Qed.

(** ** Remote operations *)

(** An operation made on the heads of some history: it names predecessors, none
    of which precedes another. *)
Definition honest (op : SignedOp) (c : Cgka) : Prop :=
  predecessors (payload op) <> ∅ /\ antichain (cgka_ops_predecessors (ops_graph c)) (predecessors (payload op)).

Lemma heads_contained_in_spec ps g : heads_contained_in ps g = true <-> cgka_op_heads g ⊆ ps.
Proof.
  unfold heads_contained_in. rewrite forallb_forall. split.
  - intros Hall x Hx. apply (bool_decide_eq_true (x ∈ ps)), Hall. by apply list_elem_of_In, elem_of_elements.
  - intros Hsub x Hx%list_elem_of_In%elem_of_elements%Hsub. by apply bool_decide_eq_true.
Qed.

(** After a concurrent operation there is something to replay. *)
Lemma concurrent_should_replay op ps adds c c' h :
  cgka_ops (ops_graph c) !! Digest_hash op = None ->
  h ∈ cgka_op_heads (ops_graph c) -> h ∉ ps -> h ∈ known_ops c ->
  ops_graph c' = grown op ps (cgka_op_heads (ops_graph c) ∖ ps) adds (ops_graph c) -> should_replay c' = true.
Proof.
  intros Hnew Hh Hps Hk Hg. unfold should_replay, has_single_head. rewrite Hg. cbn [cgka_op_heads grown].
  assert (h <> Digest_hash op) as Hne by (intros ->; by apply not_elem_of_dom in Hnew).
  set (H := {[Digest_hash op]} ∪ _). assert (h ∈ H) as H1 by (by apply elem_of_union_r, elem_of_difference).
  assert (Digest_hash op ∈ H) as H2 by (by apply elem_of_union_l, elem_of_singleton).
  rewrite bool_decide_false by (intros He; rewrite He in H1; by apply not_elem_of_empty in H1).
  destruct (Nat.eqb_spec (size H) 1) as [Hs|_]; [|by rewrite orb_true_r].
  destruct Hne. by apply (size_singleton_inv H).
Qed.

(** The graph after [add_op] is that of a replica. *)
Lemma add_op_wf op c c' :
  cgka_wf c -> cgka_ops (ops_graph c) !! Digest_hash op = None ->
  predecessors (payload op) ⊆ known_ops c -> predecessors (payload op) <> ∅ ->
  ops_graph c' = grown op (predecessors (payload op)) (cgka_op_heads (ops_graph c) ∖ predecessors (payload op))
    (add_heads (ops_graph c) ∖ add_preds (payload op)) (ops_graph c) ->
  group c' = group c -> cgka_wf c'.
Proof.
  intros Hw Hnew Hps Hne Hg Hgr. apply (cgka_wf_grown c op _ _ c' Hw Hnew Hps Hne eq_refl) in Hg; [done| |done].
  by apply subseteq_difference_l.
Qed.

(** A concurrent operation that is only recorded. *)
Lemma record_keeps op c c' :
  cgka_wf c -> cgka_ops (ops_graph c) !! Digest_hash op = None ->
  predecessors (payload op) ⊆ known_ops c -> predecessors (payload op) <> ∅ ->
  pending_ops_for_structural_change c = true ->
  graph_do (add_op op (predecessors (payload op))) c = (Ok tt, c') -> cgka_wf c' /\ synced c' /\ group c' = group c.
Proof.
  intros Hw Hnew Hps Hne Hpend [Hg Hc]%graph_do_ok. rewrite add_op_eq in Hg. injection Hg as Hg.
  assert (group c' = group c) as Hgr by (by rewrite Hc). split_and!; [by apply (add_op_wf op c)| |done].
  intros Hr. unfold should_replay in Hr. rewrite Hc in Hr. cbn in Hr. rewrite Hpend, Hg in Hr. cbn in Hr.
  rewrite andb_true_r in Hr. apply negb_false_iff, bool_decide_eq_true in Hr. set_solver.
Qed.

Lemma merge_keeps op c b c' :
  cgka_wf c -> synced c -> honest op c ->
  merge_concurrent_operation op c = (Ok b, c') -> cgka_wf c' /\ synced c' /\ group c' = group c.
Proof.
  intros Hw Hs [Hne Hanti]. unfold merge_concurrent_operation. unfold bindM at 1, get.
  rewrite contains_op_hash_spec. case_bool_decide as Hk; [by intros [= <- <-]|].
  assert (cgka_ops (ops_graph c) !! Digest_hash op = None) as Hnew by (by apply eq_None_not_Some).
  destruct (contains_predecessors _ (ops_graph c)) eqn:Hps; [|done]. cbn [negb].
  apply contains_predecessors_spec in Hps.
  intros ([] & c1 & H1 & H2)%bindM_inv. unfold ret in H2. injection H2 as _ <-.
  destruct (heads_contained_in _ _) eqn:Hc; cbn [negb] in H1.
  - apply heads_contained_in_spec in Hc.
    pose proof (heads_are_preds _ _ (cw_graph _ Hw) Hps Hc Hanti) as Heads.
    apply bindM_inv in H1 as ([] & c2 & H1 & H2).
    destruct (maybe_replay_ok c c2 Hw Hs H1) as (Hrep & Hg & Hgr & _ & Hpend).
    rewrite apply_operation_eq, contains_op_hash_spec, Hg, bool_decide_false in H2 by done.
    destruct (apply_payload (payload op) (tree c2)) as [[[]|e| |] t'] eqn:Happ; try done. injection H2 as <-.
    split_and!; [|intros _|by rewrite <- Hgr].
    + by apply (add_op_wf op c).
    + apply (replays_grown c op (add_heads (ops_graph c) ∖ add_preds (payload op)) (tree c2) t'); try done.
      * by apply subseteq_difference_l.
      * cbn [ops_graph with_core set_ops_graph set_tree tree]. f_equal. rewrite <- Heads. apply difference_diag_L.
      * eapply (replays_cong c2); [done|by rewrite Hg|done].
  - assert (~ cgka_op_heads (ops_graph c) ⊆ predecessors (payload op)) as Hnc
      by (rewrite <- heads_contained_in_spec; by rewrite Hc).
    destruct (pending_ops_for_structural_change c) eqn:Hpend; [by apply (record_keeps op c)|].
    destruct (is_update (payload op)); cbn [negb] in H1.
    + rewrite apply_operation_eq, contains_op_hash_spec, bool_decide_false in H1 by done.
      destruct (apply_payload (payload op) (tree c)) as [[[]|e| |] t'] eqn:Happ; try done. injection H1 as <-.
      split_and!; [by apply (add_op_wf op c)| |done]. intros Hr.
      assert (cgka_op_heads (ops_graph c) ∖ predecessors (payload op) <> ∅) as (h & [Hh Hhps]%elem_of_difference)%set_choose_L.
      { intros ?%empty_difference_subseteq_L. done. }
      match type of Hr with should_replay ?c' = _ =>
        assert (should_replay c' = true) as Htrue end; [|congruence].
      eapply (concurrent_should_replay op _ _ c _ h Hnew Hh Hhps); [by apply heads_known; [apply Hw|]|reflexivity].
    + unfold bindM, modify in H1. by apply (record_keeps op (set_pending true c)) in H1; [|destruct Hw; constructor|..].
Qed.

(** ** Creation and key derivation *)

Lemma graph_new_wf : graph_wf graph_new.
Proof.
  assert (forall x y, ~ edge (cgka_ops_predecessors graph_new) x y) as Hno by (by intros x y (s & Hs & _)).
  constructor.
  - apply map_Forall_empty.
  - done.
  - done.
  - by intros x y ?%Hno.
  - exists (fun _ => 0%nat). by intros x y ?%Hno.
  - intros x. split; [by intros ?%not_elem_of_empty|by intros [[] _]].
  - by intros x ?%not_elem_of_empty.
Qed.

Lemma init_graph_wf init adds :
  predecessors (payload init) = ∅ -> adds ⊆ ∅ ->
  graph_wf (grown init ∅ ∅ adds graph_new) /\ rooted (grown init ∅ ∅ adds graph_new) (Digest_hash init).
Proof.
  intros Hps Hadds. split.
  - rewrite <- Hps at 1. apply grown_wf; try done; [apply graph_new_wf|by rewrite Hps|].
    rewrite Hps. by rewrite difference_empty_L.
  - intros x. cbn [cgka_ops_predecessors grown]. intros [[<- _]|[_ Hx]]%lookup_insert_Some; done.
Qed.

(** A fresh group sorts to its initial operation. *)
Lemma init_topsort g init :
  graph_wf g -> rooted g (Digest_hash init) -> cgka_ops g = {[Digest_hash init := init]} ->
  topsort_graph g = Ok [[init]].
Proof.
  intros Hg Hr Hops. set (h := Digest_hash init) in *.
  assert (cgka_ops g !! h = Some init) as Hop by (rewrite Hops; apply lookup_singleton_eq).
  destruct (topsort_run g h (cgka_op_heads g) Hg Hr (heads_known g Hg)) as (T & ts & succ & out & HT & _ & _ & Hout & Hok & Hall).
  { apply (heads_nonempty g h Hg). by exists init. }
  unfold topsort_graph. rewrite Hout. f_equal. apply (one_op_epochs g h out init Hop Hok).
  intros y. rewrite Hall, HT, elem_of_singleton. split.
  - intros Hy%ancestor_in_graph; [|done|by apply heads_known]. rewrite Hops in Hy. by apply lookup_singleton_is_Some in Hy.
  - intros ->. apply heads_cover; [done|]. by exists init.
Qed.

Lemma new_keeps doc id pk init c :
  predecessors (payload init) = ∅ -> new_from_init_add doc id pk init = Ok c ->
  cgka_wf c /\ synced c /\ group c = (doc, (id, pk), init).
Proof.
  intros Hps Hnew. pose proof Hnew as Hnew0. unfold new_from_init_add in Hnew.
  destruct (BeeKem_new doc id pk) as [t|e| |]; try done. cbn [bindR ops_graph] in Hnew.
  rewrite add_local_op_eq in Hnew. cbn [bindR] in Hnew. injection Hnew as Hc.
  set (adds := if is_add (payload init) then _ else _) in Hc.
  assert (ops_graph c = grown init ∅ ∅ adds graph_new) as Hg by (by rewrite <- Hc).
  destruct (init_graph_wf init adds Hps) as [Hwf Hroot]; [by unfold adds; destruct (is_add _)|].
  assert (cgka_ops (ops_graph c) !! Digest_hash init = Some init) as Hop by (rewrite Hg; apply lookup_insert_eq).
  assert (init_add_op c = init) as Hinit by (by rewrite <- Hc).
  split_and!; [|intros _|by rewrite <- Hc].
  - constructor; rewrite ?Hinit, ?Hg; [done..|]. rewrite <- Hg. by exists init.
  - exists [[init]]. rewrite Hg. rewrite (init_topsort _ init Hwf Hroot) by done.
    unfold rebuild_from. assert (new_from_init_add (cgka_doc_id c) (original_member c).1 (original_member c).2 (init_add_op c) = Ok c)
      as -> by (rewrite <- Hnew0, <- Hc; done).
    cbn [bindR with_new_owner]. unfold run, apply_epochs. cbn [forM apply_epoch]. unfold bindM.
    rewrite apply_operation_eq, contains_op_hash_spec. cbn [ops_graph set_pcs set_owner].
    rewrite bool_decide_true by (by exists init). by eexists.
Qed.
End Converge.
