(* ===== verification/CgkaReplica.v ===== *)
(** * Replicas of a group

    The states a replica reaches by creating a group, by local operations, by
    merging remote operations and by deriving keys; what holds in all of them,
    and that content encrypted by one is decrypted by the others. *)

From S2P Require Import Prelude TreeMath Crypto Keys SecretStore Tree TreeInv TreeOps PathCrypto PathSpec PathDecrypt PathEncrypt Signed TopSort CaMap.
From S2P Require Import OpGraph OpSearch OpEpochs OpTopsort OpGraphInv OpExtend AppSecret Cgka CgkaReplay CgkaConverge.

Local Open Scope monad_scope.

(** ** Deriving keys leaves the group state alone *)

(** [c'] differs from [c] in the owner's keys and the cached PCS keys only. *)
Definition same_core (c c' : Cgka) : Prop :=
  tree c' = tree c /\ ops_graph c' = ops_graph c /\ group c' = group c /\ owner_id c' = owner_id c /\
  pending_ops_for_structural_change c' = pending_ops_for_structural_change c.

#[export] Instance same_core_preorder : PreOrder same_core.
Proof. split; [intros c; by repeat split|]. intros a b c (? & ? & ? & ? & ?) (? & ? & ? & ? & ?). repeat split; congruence. Qed.

Definition keeps_core {A} (m : CgkaM A) : Prop := forall c, same_core c (m c).2.

Create HintDb core_db.

Lemma keeps_ret {A} (a : A) : keeps_core (ret a).
Proof. intros c. reflexivity. Qed.
Lemma keeps_throw {A} e : keeps_core (throw (A := A) e).
Proof. intros c. reflexivity. Qed.
Lemma keeps_gets {A} (f : Cgka -> A) : keeps_core (gets f).
Proof. intros c. reflexivity. Qed.
Lemma keeps_get : keeps_core get.
Proof. intros c. reflexivity. Qed.
Lemma keeps_readM {A} (f : Cgka -> res CgkaError A) : keeps_core (readM f).
Proof. intros c. reflexivity. Qed.
Lemma keeps_liftR {A} (r : res CgkaError A) : keeps_core (liftR r).
Proof. intros c. reflexivity. Qed.
Lemma keeps_bind {A B} (m : CgkaM A) (k : A -> CgkaM B) :
  keeps_core m -> (forall a, keeps_core (k a)) -> keeps_core (bindM m k).
Proof.
  intros Hm Hk c. unfold bindM. specialize (Hm c). destruct (m c) as [[a|e| |] c']; simpl in *; try done.
  etrans; [done|]. apply Hk.
Qed.
Lemma keeps_sks {A} (m : M ShareKeyMap CgkaError A) : keeps_core (sks_do m).
Proof. intros c. unfold sks_do, zoom. destruct (m (owner_sks c)). by repeat split. Qed.
#[export] Hint Resolve keeps_ret keeps_throw keeps_gets keeps_get keeps_readM keeps_liftR keeps_bind keeps_sks : core_db.

Section Keys.
Context `{P : Primitives}.
Context `{Sop : !Serialize CgkaOperation, Ssop : !Serialize (Signed CgkaOperation)}.
Context `{Ssk : !Serialize ShareSecretKey, Spcs : !Serialize PcsKey}.

Lemma keeps_insert_pcs_key k h : keeps_core (insert_pcs_key k h).
Proof. intros c. by repeat split. Qed.
#[local] Hint Resolve keeps_insert_pcs_key : core_db.

Lemma keeps_tree_root : keeps_core pcs_key_from_tree_root.
Proof. unfold pcs_key_from_tree_root. eauto with core_db. Qed.
#[local] Hint Resolve keeps_tree_root : core_db.

Lemma keeps_derive h : keeps_core (derive_pcs_key_for_op h).
Proof.
  unfold derive_pcs_key_for_op, rebuild_pcs_key. apply keeps_bind; [auto with core_db|]. intros [|]; cbn [negb]; eauto 10 with core_db.
Qed.
#[local] Hint Resolve keeps_derive : core_db.

Lemma keeps_from_hashes k h : keeps_core (pcs_key_from_hashes k h).
Proof.
  unfold pcs_key_from_hashes. apply keeps_bind; [auto with core_db|]. intros keys. destruct (CaMap_get k keys); [auto with core_db|].
  apply keeps_bind; [auto with core_db|]. intros [|]; [|auto with core_db]. apply keeps_bind; [auto with core_db|].
  intros a. case_decide; auto with core_db.
Qed.

Lemma keeps_decryption_key {Cr} `{Scr : !Serialize Cr} (e : EncryptedContent Cr) : keeps_core (decryption_key_for e).
Proof.
  unfold decryption_key_for. apply keeps_bind; [apply keeps_from_hashes|]. intros k. apply keeps_bind; [auto with core_db|].
  intros [|]; cbn [negb whenM]; auto with core_db.
Qed.

(** ** Reachable replicas *)

(** The states of the replicas of one group.  Remote operations are [honest];
    updates are made where [updatable] holds. *)
Inductive replica (G : TreeId * (MemberId * ShareKey) * SignedOp) : Cgka -> Prop :=
  | replica_new c :
      payload G.2 = init_add G.1.1 G.1.2.1 G.1.2.2 ->
      new_from_init_add G.1.1 G.1.2.1 G.1.2.2 G.2 = Ok c -> replica G c
  | replica_owner c id sks c' : replica G c -> with_new_owner id sks c = Ok c' -> replica G c'
  | replica_add c id pk signer o c' : replica G c -> add id pk signer c = (Ok o, c') -> replica G c'
  | replica_remove c id signer o c' : replica G c -> remove id signer c = (Ok o, c') -> replica G c'
  | replica_update c r sk signer o c' r' :
      replica G c -> updatable c -> update (share_key sk) sk signer (c, r) = (Ok o, (c', r')) -> replica G c'
  | replica_merge c op b c' : replica G c -> honest op c -> merge_concurrent_operation op c = (Ok b, c') -> replica G c'
  | replica_keys c c' : replica G c -> same_core c c' -> replica G c'.

Lemma same_core_keeps c c' : same_core c c' -> cgka_wf c -> synced c -> cgka_wf c' /\ synced c'.
Proof.
  intros (Ht & Hg & Hgr & _ & Hp) [H1 H2 H3] Hs. pose proof Hgr as Hgr'. unfold group in Hgr'. injection Hgr' as _ _ Hi. split.
  - constructor; rewrite Hg, ?Hi; done.
  - intros Hr. rewrite Ht. eapply (replays_cong c); [done|by rewrite Hg|]. apply Hs.
    unfold should_replay in *. by rewrite Hg, Hp in Hr.
Qed.

Lemma replica_keeps {L : PrimitiveLaws P} G c :
  collision_free (Signed CgkaOperation) -> replica G c -> cgka_wf c /\ synced c /\ group c = G.
Proof.
  intros Hcf. induction 1 as [c Hinit Hnew|c id sks c' _ (Hw & Hs & Hg) Ho|c id pk signer o c' _ (Hw & Hs & Hg) Ha
    |c id signer o c' _ (Hw & Hs & Hg) Ha|c r sk signer o c' r' _ (Hw & Hs & Hg) Hup Ha|c op b c' _ (Hw & Hs & Hg) Hh Ha
    |c c' _ (Hw & Hs & Hg) Hc].
  - destruct G as [[doc [id pk]] init]. cbn [fst snd] in *. apply new_keeps; [|done]. by rewrite Hinit.
  - injection Ho as <-. destruct Hw. split_and!; [by constructor| |done]. intros Hr. by eapply (replays_cong c); [..|apply Hs].
  - apply add_keeps in Ha as (? & ? & ?); try done. by rewrite <- Hg.
  - apply remove_keeps in Ha as (? & ? & ?); try done. by rewrite <- Hg.
  - apply update_keeps in Ha as (? & ? & ?); try done. by rewrite <- Hg.
  - apply merge_keeps in Ha as (? & ? & ?); try done. by rewrite <- Hg.
  - destruct (same_core_keeps c c' Hc Hw Hs). destruct Hc as (_ & _ & Hgr & _). by rewrite Hgr.
Qed.
End Keys.

(** C1. Strong convergence.  Take two replicas of a group that reached their
    states in any way, by creating the group, local operations, merging honest
    remote operations in whatever causal order, and deriving keys.  If they have
    seen the same operations and each has replayed what it had to replay, they
    have the same tree. *)
Theorem replicas_converge `{P : Primitives} {L : PrimitiveLaws P} `{Sop : !Serialize CgkaOperation}
    `{Ssop : !Serialize (Signed CgkaOperation)} `{Ssk : !Serialize ShareSecretKey} `{Spcs : !Serialize PcsKey}
    G c1 c2 c1' c2' :
  collision_free (Signed CgkaOperation) -> replica G c1 -> replica G c2 ->
  cgka_ops (ops_graph c1) = cgka_ops (ops_graph c2) ->
  maybe_replay c1 = (Ok tt, c1') -> maybe_replay c2 = (Ok tt, c2') -> tree c1' = tree c2'.
Proof.
  intros Hcf H1 H2 Hops Hr1 Hr2.
  destruct (replica_keeps G c1 Hcf H1) as (Hw1 & Hs1 & Hg1), (replica_keeps G c2 Hcf H2) as (Hw2 & Hs2 & Hg2).
  destruct (maybe_replay_ok c1 c1' Hw1 Hs1 Hr1) as (Hrep1 & Hgr1 & Hgroup1 & _).
  destruct (maybe_replay_ok c2 c2' Hw2 Hs2 Hr2) as (Hrep2 & Hgr2 & Hgroup2 & _).
  destruct (same_ops_same_graph _ _ (cw_graph _ Hw1) (cw_graph _ Hw2) Hops) as [Hp Hh].
  apply (replays_det c2'); [|done]. eapply (replays_cong c1'); [congruence| |done].
  rewrite Hgr1, Hgr2. unfold topsort_graph, topsort_for_heads. by rewrite Hh, Hp, Hops.
Qed.

(** ** Content *)

Section History.
Context `{P : Primitives}.
Context `{Sop : !Serialize CgkaOperation, Ssop : !Serialize (Signed CgkaOperation)}.
Context `{Ssk : !Serialize ShareSecretKey, Spcs : !Serialize PcsKey}.

Lemma rebuild_from_owner es c c' : rebuild_from es c = Ok c' -> owner_id c' = owner_id c /\ owner_sks c' = owner_sks c.
Proof.
  unfold rebuild_from. destruct (new_from_init_add _ _ _ _) as [f|e| |]; try done. cbn [bindR with_new_owner].
  set (a := set_pcs _ _ _). destruct (framed_apply_epochs es (tree a) (ops_graph a) a a) as (r & t' & g' & H1 & _).
  rewrite with_core_self in H1. unfold run. rewrite H1. destruct r as [[]|e| |]; try done. by intros [= <-].
Qed.

(** Rebuilding at [op] gives the author's tree after [op], however much the
    replica has seen besides. *)
Lemma rebuild_at ca c op t t' :
  cgka_wf ca -> cgka_wf c -> group c = group ca ->
  cgka_ops (ops_graph ca) ⊆ cgka_ops (ops_graph c) ->
  cgka_ops (ops_graph ca) !! Digest_hash op = None -> cgka_ops (ops_graph c) !! Digest_hash op = Some op ->
  predecessors (payload op) = cgka_op_heads (ops_graph ca) ->
  replays ca t -> apply_payload (payload op) t = (Ok tt, t') ->
  exists es c', topsort_for_heads {[Digest_hash op]} (ops_graph c) = Ok es /\ rebuild_from es c = Ok c' /\
    tree c' = t' /\ last_op es = Ok op.
Proof.
  intros Hwa Hw Hgr Hsub Hnew Hop Hps (es & c0 & Hes & Hre & Ht) Happ. pose proof Hwa as [Hga Hra Hia]. pose proof Hw as [Hg Hr _].
  assert (init_add_op c = init_add_op ca) as Hinit by (unfold group in Hgr; by injection Hgr). rewrite Hinit in Hr.
  destruct (topsort_extend (ops_graph ca) (ops_graph c) (Digest_hash (init_add_op ca)) (cgka_op_heads (ops_graph ca)) (Digest_hash op) op)
    as (out & Hout & Hout'); [done..| | | | |by rewrite (gw_preds _ Hg _ _ Hop), Hps|done|].
  { by eapply heads_nonempty. }
  { by apply heads_known. }
  { intros x y [_ Hno]%(gw_heads _ Hga) _. apply Hno. }
  { intros y Hy%ancestor_in_graph; [|done|by apply heads_known]. destruct Hy as [o Ho].
    pose proof (lookup_weaken _ _ _ _ Ho Hsub) as Ho'. by rewrite (gw_preds _ Hg _ _ Ho'), (gw_preds _ Hga _ _ Ho), Ho, Ho'. }
  assert (out = es) as -> by (unfold topsort_graph in Hes; congruence).
  destruct (rebuild_from_snoc es ca c0 op t' Hre) as (c1 & Hre1 & Ht1); [|by rewrite Ht|].
  { by apply (rebuilt_without ca es c0 op). }
  destruct (rebuild_from_group _ ca c c1 (eq_sym Hgr) Hre1) as (c2 & H1 & H2 & _).
  exists (es ++ [[op]]), c2. split_and!; [done..|congruence|]. unfold last_op. by rewrite last_snoc.
Qed.
End History.

Section Derive.
Context `{P : Primitives} {L : PrimitiveLaws P}.
Context `{Sop : !Serialize CgkaOperation, Ssop : !Serialize (Signed CgkaOperation)}.
Context `{Ssk : !Serialize ShareSecretKey, Spcs : !Serialize PcsKey}.

(** The author's side of an update in a sealed tree. *)
Lemma update_in_sealed (secrets : ShareKeyMap) ca ca1 ca' h sk signer r r' k op :
  maybe_replay ca = (Ok tt, ca1) -> sealed_tree secrets h (tree ca1) ->
  (forall j, (j <= h)%nat -> secrets !! share_key (ratchet_n_forward sk j) = Some (ratchet_n_forward sk j)) ->
  update (share_key sk) sk signer (ca, r) = (Ok (k, op), (ca', r')) ->
  predecessors (payload op) = cgka_op_heads (ops_graph ca1) /\ Ok (ops_graph ca') = add_local_op op (ops_graph ca1) /\
  apply_payload (payload op) (tree ca1) = (Ok tt, tree ca') /\ k = mkPcsKey (ratchet_n_forward sk h) /\
  sealed_tree secrets h (tree ca') /\ has_root_key (tree ca') = Ok true /\
  exists e, current_secret_encrypter_leaf_idx (tree ca') = Some (mkLeafNodeIndex e) /\ chain_from secrets h (tree ca') e sk.
Proof.
  intros Hrep Hst Hhon Hup.
  destruct (update_inv _ _ _ _ _ _ _ _ _ Hup) as (c1 & change & r1 & Hrep' & Henc & Ho & Hg' & _ & _).
  assert (c1 = ca1) as -> by congruence.
  destruct (id_to_leaf_idx (tree ca1) !! owner_id ca1) as [[e]|] eqn:Hid; swap 1 2.
  { unfold encrypt_path in Henc. apply bindM_inv in Henc as (l & s1 & H1 & _).
    unfold on_tree, zoom, readM, leaf_index_for_id in H1. cbn [fst snd] in H1. by rewrite Hid in H1. }
  destruct (update_sealed secrets h (tree ca1) r (owner_id ca1) e sk (<[share_key sk := sk]> (owner_sks ca1)) Hst Hid
    (lookup_insert_eq _ _ _) Hhon) as (ch & t' & r2 & Henc' & Happ & Hst' & Hrk & He & Hchain).
  rewrite Henc in Henc'. pose proof (f_equal fst Henc') as Hk. pose proof (f_equal (fun x => x.2.1) Henc') as Ht.
  cbn [fst snd] in Hk, Ht. injection Hk as Hk Hch. subst ch t'. rewrite Ho.
  split_and!; try done; [apply list_to_set_elements_L|by exists e].
Qed.

(** The key of an update, derived by a replica that knows the update. *)
Lemma derive_agrees (secrets : ShareKeyMap) G ca ca1 ca' c h sk signer r r' k op :
  collision_free (Signed CgkaOperation) -> directory secrets -> replica G ca -> replica G c ->
  maybe_replay ca = (Ok tt, ca1) -> sealed_tree secrets h (tree ca1) ->
  (forall j, (j <= h)%nat -> secrets !! share_key (ratchet_n_forward sk j) = Some (ratchet_n_forward sk j)) ->
  update (share_key sk) sk signer (ca, r) = (Ok (k, op), (ca', r')) ->
  cgka_ops (ops_graph ca') ⊆ cgka_ops (ops_graph c) ->
  holds_leaf_key secrets (tree ca') (owner_id c) (owner_sks c) ->
  exists c', derive_pcs_key_for_op (Digest_hash op) c = (Ok k, c').
Proof.
  intros Hcf Hdir Ha Hc Hrep Hst Hhon Hup Hsub Hholds.
  destruct (replica_keeps G ca Hcf Ha) as (Hwa & Hsa & Hga), (replica_keeps G c Hcf Hc) as (Hw & _ & Hg).
  destruct (update_in_sealed _ _ _ _ _ _ _ _ _ _ _ Hrep Hst Hhon Hup) as (Hps & Hg' & Happ & -> & Hst' & Hrk & e & He & Hchain).
  destruct (maybe_replay_ok ca ca1 Hwa Hsa Hrep) as (Hr1 & Hgr1 & Hgroup1 & _ & _). rewrite Hgr1 in Hps, Hg'.
  rewrite add_local_op_eq in Hg'. injection Hg' as Hg'. rewrite Hg' in Hsub. cbn [cgka_ops grown] in Hsub.
  assert (cgka_ops (ops_graph ca) !! Digest_hash op = None) as Hnew
    by (apply (op_on_heads_new _ _ _ Hcf (cw_graph _ Hwa) (cw_init _ Hwa) Hps)).
  assert (cgka_ops (ops_graph c) !! Digest_hash op = Some op) as Hop
    by (eapply lookup_weaken; [apply lookup_insert_eq|done]).
  destruct (rebuild_at ca c op (tree ca1) (tree ca')) as (es & c0 & Hes & Hre & Ht0 & Hlast); try done; [congruence|..].
  { etrans; [by apply (insert_subseteq _ (Digest_hash op) op)|done]. }
  { eapply (replays_cong ca1); [done|by rewrite Hgr1|done]. }
  destruct (rebuild_from_owner es c c0 Hre) as [Howner Hsks].
  destruct (sealed_tree_decrypts secrets h (tree ca') e sk (owner_id c) (owner_sks c)) as (sks' & Hdec & _); try done.
  eexists. unfold derive_pcs_key_for_op. step_gets. rewrite contains_op_hash_spec, bool_decide_true by (by exists op).
  cbn [negb]. unfold rebuild_pcs_key, readM, liftR, bindM. rewrite Hes, Hre. unfold run, pcs_key_from_tree_root, bindM, get, sks_do, zoom.
  by rewrite Ht0, Howner, Hsks, Hdec, Hlast.
Qed.
End Derive.

