(* ===== verification/CgkaErrors.v ===== *)
(** * Refused operations, failed signing, and two defects

    What [merge_concurrent_operation] does on each of its branches, what a
    failed signature leaves behind, when [new_app_secret_for] panics, and what
    merging graphs does to the heads. *)

From S2P Require Import Prelude TreeMath Crypto Keys SecretStore Tree PathCrypto Signed TopSort CaMap OpGraph OpSearch.
From S2P Require Import OpEpochs OpTopsort OpGraphInv OpExtend AppSecret Cgka CgkaReplay CgkaConverge CgkaReplica.

Local Open Scope monad_scope.

Lemma merge_eq `{P : Primitives} `{Ssop : !Serialize (Signed CgkaOperation)} `{Spcs : !Serialize PcsKey} op c :
  let ps := predecessors (payload op) in
  merge_concurrent_operation op c =
    if contains_op_hash (Digest_hash op) (ops_graph c) then (Ok false, c)
    else if negb (contains_predecessors ps (ops_graph c)) then (Err OutOfOrderOperation, c)
    else
      bindM (if negb (heads_contained_in ps (ops_graph c)) then
               if pending_ops_for_structural_change c then graph_do (add_op op ps)
               else if negb (is_update (payload op)) then modify (set_pending true) ;; graph_do (add_op op ps)
               else apply_operation op
             else maybe_replay ;; apply_operation op) (fun _ => ret true) c.
Proof.
  intros ps. unfold merge_concurrent_operation. unfold bindM at 1, get. destruct (contains_op_hash _ _); [done|].
  by destruct (contains_predecessors _ _).
Qed.

Lemma maybe_replay_idle `{P : Primitives} `{Ssop : !Serialize (Signed CgkaOperation)} `{Spcs : !Serialize PcsKey} c :
  should_replay c = false -> maybe_replay c = (Ok tt, c).
Proof. intros Hr. unfold maybe_replay. step_gets. by rewrite Hr. Qed.

(** A merged operation is recorded, on every branch. *)
Lemma merge_records `{P : Primitives} `{Ssop : !Serialize (Signed CgkaOperation)} `{Spcs : !Serialize PcsKey} op c c' :
  merge_concurrent_operation op c = (Ok true, c') ->
  cgka_ops (ops_graph c') = <[Digest_hash op := op]> (cgka_ops (ops_graph c)).
Proof.
  assert (forall c0 c1, contains_op_hash (Digest_hash op) (ops_graph c0) = false -> apply_operation op c0 = (Ok tt, c1) ->
    cgka_ops (ops_graph c1) = <[Digest_hash op := op]> (cgka_ops (ops_graph c0))) as Happ.
  { intros c0 c1 Hk. rewrite apply_operation_eq, Hk. destruct (apply_payload _ _) as [[[]|e| |] ?]; try done. by intros [= <-]. }
  assert (forall c0 c1, graph_do (add_op op (predecessors (payload op))) c0 = (Ok tt, c1) ->
    cgka_ops (ops_graph c1) = <[Digest_hash op := op]> (cgka_ops (ops_graph c0))) as Hadd.
  { intros c0 c1 [Hg _]%graph_do_ok. rewrite add_op_eq in Hg. by injection Hg as ->. }
  rewrite merge_eq. destruct (contains_op_hash _ _) eqn:Hk; [done|].
  destruct (contains_predecessors _ _); [|done]. cbn [negb]. intros ([] & c1 & H1 & H2)%bindM_inv. injection H2 as <-.
  destruct (heads_contained_in _ _); cbn [negb] in H1.
  - apply bindM_inv in H1 as ([] & c2 & H1 & H2).
    assert (ops_graph c2 = ops_graph c) as Hg.
    { unfold maybe_replay in H1. unfold bindM at 1, gets in H1. destruct (should_replay c); [|by injection H1 as <-].
      by apply replay_ops_graph_ok in H1 as (_ & ? & _). }
    rewrite <- Hg in Hk. by rewrite (Happ c2 c1 Hk H2), Hg.
  - destruct (pending_ops_for_structural_change c); [by apply Hadd|]. destruct (is_update _); cbn [negb] in H1; [by apply Happ|].
    by apply (Hadd (set_pending true c)).
Qed.

(** Without pending work, a merge leaves the keys of the replica alone. *)
Lemma merge_idle `{P : Primitives} `{Ssop : !Serialize (Signed CgkaOperation)} `{Spcs : !Serialize PcsKey} op c c' :
  should_replay c = false -> merge_concurrent_operation op c = (Ok true, c') ->
  pcs_key_ops c' = pcs_key_ops c /\ owner_sks c' = owner_sks c.
Proof.
  intros Hr Hm.
  assert (forall c1, apply_operation op c = (Ok tt, c1) -> pcs_key_ops c1 = pcs_key_ops c /\ owner_sks c1 = owner_sks c) as Happ.
  { intros c1. rewrite apply_operation_eq. destruct (contains_op_hash _ _); [by intros [= <-]|].
    destruct (apply_payload _ _) as [? ?]. by intros [= _ <-]. }
  revert Hm. rewrite merge_eq. destruct (contains_op_hash _ _); [done|].
  destruct (contains_predecessors _ _); [|done]. cbn [negb]. intros ([] & c1 & H1 & H2)%bindM_inv. injection H2 as <-.
  unfold maybe_replay in H1. destruct (heads_contained_in _ _); cbn [negb] in H1.
  - rewrite bindM_assoc in H1. unfold bindM at 1, gets in H1. rewrite Hr in H1. by apply Happ.
  - destruct (pending_ops_for_structural_change c), (is_update (payload op)); cbn [negb] in H1;
      try (by apply Happ); unfold bindM, graph_do, gets, liftR, modify in H1; cbn [ops_graph set_pending] in H1;
      unfold bindM in H1; rewrite add_op_eq in H1; by injection H1 as <-.
Qed.

(** C25. Merging a remote operation, branch by branch: a known operation is
    ignored; one with unknown predecessors is refused; a concurrent membership
    change is recorded without touching the tree, and blocks later concurrent
    operations from being applied until the next replay; in the first two cases
    the replica does not change at all. *)
Theorem merge_branches `{P : Primitives} `{Sop : !Serialize CgkaOperation} `{Ssop : !Serialize (Signed CgkaOperation)}
    `{Ssk : !Serialize ShareSecretKey} `{Spcs : !Serialize PcsKey} op c :
  let ps := predecessors (payload op) in
  (contains_op_hash (Digest_hash op) (ops_graph c) = true -> merge_concurrent_operation op c = (Ok false, c)) /\
  (contains_op_hash (Digest_hash op) (ops_graph c) = false -> ~ ps ⊆ known_ops c ->
    merge_concurrent_operation op c = (Err OutOfOrderOperation, c)) /\
  (contains_op_hash (Digest_hash op) (ops_graph c) = false -> ps ⊆ known_ops c -> ~ cgka_op_heads (ops_graph c) ⊆ ps ->
    is_update (payload op) = false \/ pending_ops_for_structural_change c = true ->
    exists c', merge_concurrent_operation op c = (Ok true, c') /\ tree c' = tree c /\ owner_sks c' = owner_sks c /\
      known_ops c' = {[Digest_hash op]} ∪ known_ops c /\ should_replay c' = true).
Proof.
  intros ps. rewrite merge_eq. fold ps. split_and!.
  - by intros ->.
  - intros -> Hps. unfold known_ops in Hps. rewrite <- contains_predecessors_spec in Hps. apply not_true_is_false in Hps. by rewrite Hps.
  - intros -> Hps%contains_predecessors_spec Hheads Hcase. rewrite Hps. cbn [negb].
    rewrite <- heads_contained_in_spec in Hheads. apply not_true_is_false in Hheads. rewrite Hheads. cbn [negb].
    set (b := pending_ops_for_structural_change c) in *.
    assert (exists c0, (if b then graph_do (add_op op ps) else if negb (is_update (payload op)) then
        modify (set_pending true) ;; graph_do (add_op op ps) else apply_operation op) c = graph_do (add_op op ps) c0 /\
      c0 = set_pending true c) as (c0 & Hrun & ->).
    { exists (set_pending true c). split; [|done]. destruct b eqn:Hb.
      - f_equal. destruct c. simpl in *. subst b. simpl in Hb. by subst.
      - destruct Hcase as [-> | ?]; done. }
    unfold bindM at 1. rewrite Hrun. unfold graph_do, bindM, gets, liftR, modify. cbn [ops_graph set_pending]. rewrite add_op_eq.
    eexists. split; [reflexivity|]. split_and!; [done..| |].
    + unfold known_ops. cbn. by rewrite dom_insert_L.
    + unfold should_replay. cbn. rewrite andb_true_r. apply negb_true_iff, bool_decide_eq_false. set_solver.
Qed.

(** A failed signature is not rolled back: when the signer refuses, [add]
    returns the error, but the new member already has its leaf in the tree,
    while the graph has no operation for it. *)
Theorem add_unsigned_changes_tree `{P : Primitives} `{Sop : !Serialize CgkaOperation} `{Ssop : !Serialize (Signed CgkaOperation)}
    `{Ssk : !Serialize ShareSecretKey} `{Spcs : !Serialize PcsKey} id pk signer c n t' :
  contains_id id (tree c) = false -> should_replay c = false ->
  push_leaf id (NKShareKey pk) (tree c) = (Ok n, t') ->
  (forall b, try_sign_bytes_async signer b = Err SigningFailed) ->
  add id pk signer c = (Err Keys.SigningError, set_tree t' c) /\ ops_graph (set_tree t' c) = ops_graph c.
Proof.
  intros Hc Hr Hpush Hsign. split; [|done]. unfold add. step_gets. rewrite Hc. unfold maybe_replay. rewrite bindM_assoc. step_gets.
  rewrite Hr. unfold bindM, whenM, ret, tree_do, zoom. rewrite Hpush. unfold get, sign_op, liftR, lift_signing, try_sign_async.
  by rewrite Hsign.
Qed.

(** [new_app_secret_for] panics after a remote update.  The operation that
    a PCS key came from is looked up in a map that only local updates, replays
    and decryption fill.  When a replica without pending work merges a remote
    operation and then has a root key that is not in that map, asking for an
    application secret aborts, although the key is derivable. *)
Theorem app_secret_panics_after_merge `{P : Primitives} `{Sop : !Serialize CgkaOperation} `{Ssop : !Serialize (Signed CgkaOperation)}
    `{Ssk : !Serialize ShareSecretKey} `{Spcs : !Serialize PcsKey} {Cr} `{Scr : !Serialize Cr, Slcr : !Serialize (list Cr)}
    op c c' sks secret (content_ref : Cr) content pred_refs signer r :
  should_replay c = false -> merge_concurrent_operation op c = (Ok true, c') ->
  has_pcs_key c' = Ok true -> decrypt_tree_secret (tree c') (owner_id c') (owner_sks c') = (Ok secret, sks) ->
  pcs_key_ops c !! Digest_hash (mkPcsKey secret) = None ->
  (new_app_secret_for content_ref content pred_refs signer (c', r)).1 = Panic.
Proof.
  intros Hr Hm Hpcs Hdec Hmiss.
  destruct (merge_idle op c c' Hr Hm) as (Hsame & _).
  assert (pcs_key_from_tree_root c' = (Ok (mkPcsKey secret), set_owner_sks sks c')) as Hroot.
  { unfold pcs_key_from_tree_root, bindM, get, sks_do, zoom. by rewrite Hdec. }
  unfold new_app_secret_for, bindM, no_rng, zoom, readM. cbn [fst snd]. rewrite Hpcs. cbn [fst snd].
  rewrite Hroot. unfold get, ret, expect. cbn [fst snd pcs_key_ops set_owner_sks set_owner]. by rewrite Hsame, Hmiss.
Qed.

(** Merging graphs keeps stale heads: merging a graph with its own
    extension by one operation leaves the old heads as heads next to the new
    operation, so the merged graph is not well formed and has more than one
    head. *)
Theorem graph_merge_keeps_stale_heads `{P : Primitives} `{Ssop : !Serialize (Signed CgkaOperation)} g g' op y :
  collision_free (Signed CgkaOperation) -> graph_wf g -> is_Some (cgka_ops g !! y) ->
  predecessors (payload op) = cgka_op_heads g -> add_local_op op g = Ok g' ->
  graph_wf g' /\ has_single_head g' = true /\
  ~ graph_wf (graph_merge g g') /\ has_single_head (graph_merge g g') = false.
Proof.
  intros Hcf Hg Hy Hps Hadd. pose proof (op_on_heads_new g op y Hcf Hg Hy Hps) as Hnew.
  rewrite add_local_op_eq in Hadd. injection Hadd as <-. rewrite <- Hps.
  destruct (set_choose_L _ (heads_nonempty g y Hg Hy)) as [h Hh].
  assert (h <> Digest_hash op) as Hne by (intros ->; apply heads_known in Hh; [|done]; by apply not_elem_of_dom in Hnew).
  split_and!.
  - apply grown_wf; try done; [rewrite Hps; by apply heads_known|by rewrite Hps, difference_diag_L|].
    destruct (is_add _); [apply empty_subseteq|done].
  - unfold has_single_head. cbn [cgka_op_heads grown]. by rewrite (right_id_L ∅ (∪)), size_singleton.
  - intros Hm. assert (h ∈ cgka_op_heads (graph_merge g (grown op (predecessors (payload op)) ∅
      (if is_add (payload op) then ∅ else add_heads g) g))) as Hin by (by apply elem_of_union_l).
    apply (gw_heads _ Hm) in Hin as [_ Hno]. apply (Hno (Digest_hash op)). exists (predecessors (payload op)).
    split; [|by rewrite Hps]. cbn [cgka_ops_predecessors graph_merge grown]. apply lookup_union_Some_l, lookup_insert_eq.
  - unfold has_single_head. cbn [cgka_op_heads graph_merge grown]. apply Nat.eqb_neq. intros Hs. destruct Hne.
    apply (size_singleton_inv _ _ _ Hs); [by apply elem_of_union_l|].
    by apply elem_of_union_r, elem_of_union_l, elem_of_singleton.
Qed.
