(* ===== verification/ToySerialize.v ===== *)
(** * A model of the serialization

    [bincode] is a parameter of the development ([Serialize]).  The instances
    here show that its idealisation can hold: a prefix-free encoding of the
    operations, under which digests of the toy primitives are collision free. *)

From Stdlib Require Import Strings.Byte.
From S2P Require Import Prelude TreeMath Crypto Keys SecretStore Tree PathCrypto Signed CaMap OpGraph.

Module ToySerialize.

(** An encoding that can be read back from the front of any input. *)
Class Enc (A : Type) := {
  enc : A -> bytes;
  enc_inj a b r r' : enc a ++ r = enc b ++ r' -> a = b /\ r = r';
}.

(** Encoding through an injection. *)
Definition enc_via {A B} `{Enc B} (f : A -> B) (Hf : forall a b, f a = f b -> a = b) : Enc A.
Proof.
  refine {| enc a := enc (f a) |}. intros a b r r' [Heq ->]%enc_inj. auto.
Defined.

#[export] Instance enc_byte : Enc byte.
Proof. refine {| enc b := [b] |}. intros a b r r' [= -> ->]. done. Defined.

#[export] Program Instance enc_prod {A B} `{Enc A, Enc B} : Enc (A * B) := {| enc p := enc p.1 ++ enc p.2 |}.
Next Obligation.
  intros A B ? ? [a b] [a' b'] r r'. cbn [fst snd]. rewrite <- !(assoc_L (++)).
  intros [-> Hr]%enc_inj. apply enc_inj in Hr as [-> ->]. done.
Qed.

Fixpoint enc_list_bytes {A} `{Enc A} (l : list A) : bytes :=
  match l with [] => [x00] | a :: l' => x01 :: enc a ++ enc_list_bytes l' end.

#[export] Instance enc_list {A} `{Enc A} : Enc (list A).
Proof.
  refine {| enc := enc_list_bytes |}.
  induction a as [|a l IH]; intros [|b l'] r r'; cbn [enc_list_bytes app]; try done.
  - by intros [= ->].
  - intros [= Heq]. rewrite <- !(assoc_L (++)) in Heq. apply enc_inj in Heq as [-> Heq].
    apply IH in Heq as [-> ->]. done.
Defined.

#[export] Program Instance enc_sum {A B} `{Enc A, Enc B} : Enc (A + B) :=
  {| enc s := match s with inl a => x00 :: enc a | inr b => x01 :: enc b end |}.
Next Obligation.
  intros A B ? ? [a|b] [a'|b'] r r'; cbn [app]; try done; intros [= [-> ->]%enc_inj]; done.
Qed.

#[export] Instance enc_unit : Enc unit.
Proof. refine {| enc _ := [] |}. intros [] [] r r'. done. Defined.

#[export] Instance enc_positive : Enc positive.
Proof.
  refine {| enc := fix go p := match p with
    | xH => [x00] | xO p' => x01 :: go p' | xI p' => x02 :: go p' end |}.
  induction a as [a IH|a IH|]; intros [b|b|] r r'; cbn [app]; try done; try (intros [= [-> ->]%IH]; done).
  by intros [= ->].
Defined.

#[export] Instance enc_N : Enc N.
Proof.
  refine (enc_via (fun n => match n with N0 => inl tt | Npos p => inr p end) _). by intros [|p] [|q]; intros [= ->] || done.
Defined.

#[export] Instance enc_gmap {K V} `{Countable K, Enc K, Enc V} : Enc (gmap K V).
Proof.
  refine (enc_via (B := list (K * V)) (fun m => map_to_list m) _).
  intros m1 m2 Heq. apply (map_to_list_inj m1 m2). by rewrite Heq.
Defined.

#[export] Instance enc_share_key : Enc ShareKey.
Proof. refine (enc_via ShareKey_bytes _). by intros [] [] [= ->]. Defined.
#[export] Instance enc_secret_key : Enc ShareSecretKey.
Proof. refine (enc_via ShareSecretKey_bytes _). by intros [] [] [= ->]. Defined.
#[export] Instance enc_member_id : Enc MemberId.
Proof. refine (enc_via MemberId_bytes _). by intros [] [] [= ->]. Defined.
#[export] Instance enc_tree_id : Enc TreeId.
Proof. refine (enc_via TreeId_bytes _). by intros [] [] [= ->]. Defined.
#[export] Instance enc_siv : Enc Siv.
Proof. refine (enc_via Siv_bytes _). by intros [] [] [= ->]. Defined.
#[export] Instance enc_digest T : Enc (Digest T).
Proof. refine (enc_via Digest_raw _). by intros [] [] [= ->]. Defined.
#[export] Instance enc_pcs_key : Enc PcsKey.
Proof. refine (enc_via pcs_secret _). by intros [] [] [= ->]. Defined.
#[export] Instance enc_tree_node : Enc TreeNodeIndex.
Proof.
  refine (enc_via (fun x => match x with Leaf l => inl (leaf_u32 l) | Inner i => inr (inner_u32 i) end) _).
  by intros [[]|[]] [[]|[]] [= ->].
Defined.
#[export] Instance enc_encrypted_secret : Enc EncryptedSecret.
Proof.
  refine (enc_via (fun e => (es_nonce e, es_ciphertext e, es_paired_pk e)) _). by intros [] [] [= -> -> ->].
Defined.
#[export] Instance enc_version : Enc SecretStoreVersion.
Proof.
  refine (enc_via (fun v => (v_pk v, v_sk v, v_encrypter_pk v)) _). by intros [] [] [= -> -> ->].
Defined.
#[export] Instance enc_store : Enc SecretStore.
Proof. refine (enc_via versions _). by intros [] [] [= ->]. Defined.
#[export] Instance enc_node_key : Enc NodeKey.
Proof.
  refine (enc_via (fun k => match k with NKShareKey k => inl k
    | NKConflictKeys c => inr (ck_first c, ck_second c, ck_more c) end) _).
  by intros [|[]] [|[]]; intros [= -> -> ->] || intros [= ->] || done.
Defined.
#[export] Instance enc_path_change : Enc PathChange.
Proof.
  refine (enc_via (fun p => (pc_leaf_id p, pc_leaf_idx p, pc_leaf_pk p, pc_path p, pc_removed_keys p)) _).
  by intros [] [] [= -> -> -> -> ->].
Defined.
#[export] Instance enc_operation : Enc CgkaOperation.
Proof.
  refine (enc_via (fun op => match op with
    | Add i pk n ps aps d => inl (i, pk, n, ps, aps, d)
    | Remove i n ks ps d => inr (inl (i, n, ks, ps, d))
    | Update i p ps d => inr (inr (i, p, ps, d)) end) _).
  intros [] []; intros [= ]; by subst.
Defined.
#[export] Instance enc_signed {A} `{Enc A} : Enc (Signed A).
Proof.
  refine (enc_via (fun s => (payload s, VerifyingKey_bytes (issuer s), Signature_bytes (signature s))) _).
  by intros [? [] []] [? [] []] [= -> -> ->].
Defined.
#[export] Instance enc_verifying_key : Enc VerifyingKey.
Proof. refine (enc_via VerifyingKey_bytes _). by intros [] [] [= ->]. Defined.
#[export] Instance enc_option {A} `{Enc A} : Enc (option A).
Proof. refine (enc_via (fun o => match o with Some a => inl a | None => inr tt end) _). by intros [] []; intros [= ->] || done. Defined.

#[export] Instance toy_serialize {A} `{Enc A} : Serialize A := enc.

Lemma toy_collision_free {A} `{Enc A} : collision_free (P := ToyPrimitives.toy) A.
Proof.
  intros a b Hab. assert (enc a = enc b) as Heq by (by injection Hab).
  apply (enc_inj a b [] []). by rewrite Heq.
Qed.
End ToySerialize.
