(* ===== verification/CgkaWitness.v ===== *)
(** * A group over the toy primitives

    Two replicas of a group of two: the first creates the group, adds the
    second and rotates its key; the second merges the update.  The theorems on
    operation graphs and replicas are applied to it. *)

From S2P Require Import Prelude TreeMath Crypto Keys SecretStore Tree TreeInv TreeOps PathCrypto PathSpec PathDecrypt.
From S2P Require Import PathEncrypt TreeHistory Signed TopSort CaMap OpGraph OpSearch OpEpochs OpTopsort OpGraphInv.
From S2P Require Import OpExtend AppSecret Cgka CgkaReplay CgkaConverge CgkaReplica CgkaErrors.
From S2P Require Import ToySerialize.

Import ToyPrimitives ToySerialize.

Definition toy_doc : TreeId := mkTreeId [].
Definition toy_signer : AsyncSigner := mkAsyncSigner (mkVerifyingKey [Byte.x09]) (fun _ => Ok (mkSignature [])).
Definition toy_init : SignedOp :=
  mkSigned (init_add toy_doc (sample_id Byte.x01) (toy_pk Byte.x01)) (mkVerifyingKey [Byte.x09]) (mkSignature []).
Definition toy_group : TreeId * (MemberId * ShareKey) * SignedOp := (toy_doc, (sample_id Byte.x01, toy_pk Byte.x01), toy_init).
Definition toy_blank : Cgka :=
  mkCgka toy_doc (sample_id Byte.x01) ∅ (empty_tree toy_doc) graph_new false ∅ ∅ (sample_id Byte.x01, toy_pk Byte.x01) toy_init.

(** The first replica: created, with a second member, and updated. *)
Definition alice0 : Cgka :=
  match new_from_init_add toy_doc (sample_id Byte.x01) (toy_pk Byte.x01) toy_init with Ok c => c | _ => toy_blank end.
Definition alice1 : Cgka := (add (sample_id Byte.x02) (toy_pk Byte.x02) toy_signer alice0).2.
Definition alice_update := update (toy_pk Byte.x10) (toy_secret Byte.x10) toy_signer (alice1, toy_rng).
Definition alice2 : Cgka := alice_update.2.1.
Definition toy_op : SignedOp := match alice_update.1 with Ok (_, op) => op | _ => toy_init end.
Definition toy_key : PcsKey := match alice_update.1 with Ok (k, _) => k | _ => mkPcsKey (toy_secret Byte.x00) end.

(** The second replica: it takes the group over and merges the update. *)
Definition bob1 : Cgka := set_pcs (pcs_keys alice1) (pcs_key_ops alice1) (set_owner (sample_id Byte.x02) {[ toy_pk Byte.x02 := toy_secret Byte.x02 ]} alice1).
Definition bob2 : Cgka := (merge_concurrent_operation toy_op bob1).2.

(** A computation whose outcome evaluates to [r]. *)
Lemma outcome {S E A} (m : M S E A) s r : (m s).1 = r -> m s = (r, (m s).2).
Proof. intros <-. by destruct (m s). Qed.

Lemma toy_cf : collision_free (P := toy) (Signed CgkaOperation).
Proof. apply toy_collision_free. Qed.

Lemma alice0_replica : replica toy_group alice0.
Proof. apply replica_new; [reflexivity|]. vm_compute. reflexivity. Qed.

Lemma alice1_replica : replica toy_group alice1.
Proof.
  eapply (replica_add _ alice0 (sample_id Byte.x02) (toy_pk Byte.x02) toy_signer); [exact alice0_replica|].
  apply outcome. vm_compute. reflexivity.
Qed.

Lemma toy_t2_reachable : reachable toy_secrets toy_t2.
Proof.
  eapply (reach_add _ toy_t1 (sample_id Byte.x02) (toy_pk Byte.x02) 1); [|vm_compute; reflexivity..].
  eapply (reach_new _ (mkTreeId []) (sample_id Byte.x01) (toy_pk Byte.x01)). vm_compute. reflexivity.
Qed.

Lemma alice1_tree : tree alice1 = toy_t2.
Proof. vm_compute. reflexivity. Qed.

Lemma alice1_replays t : replays alice1 t -> t = toy_t2.
Proof.
  intros Ht. destruct (replica_keeps toy_group alice1 toy_cf alice1_replica) as (_ & Hs & _).
  rewrite <- alice1_tree. apply (replays_det alice1); [done|]. apply Hs. vm_compute. reflexivity.
Qed.

Lemma alice1_updatable : updatable alice1.
Proof.
  intros t ->%alice1_replays. destruct (reachable_sealed toy_secrets toy_t2 toy_t2_reachable) as [h [Hwf Hl _ _]]. eauto.
Qed.

Lemma alice_update_eq : alice_update = (Ok (toy_key, toy_op), (alice2, alice_update.2.2)).
Proof.
  unfold alice2. assert (alice_update.1 = Ok (toy_key, toy_op)) as <- by (vm_compute; reflexivity).
  by destruct alice_update as [? [? ?]].
Qed.

Lemma alice2_replica : replica toy_group alice2.
Proof.
  eapply (replica_update _ alice1 toy_rng (toy_secret Byte.x10) toy_signer); [exact alice1_replica|exact alice1_updatable|].
  exact alice_update_eq.
Qed.

Lemma bob1_replica : replica toy_group bob1.
Proof.
  apply (replica_owner _ alice1 (sample_id Byte.x02) {[ toy_pk Byte.x02 := toy_secret Byte.x02 ]}); [exact alice1_replica|].
  unfold with_new_owner, bob1. reflexivity.
Qed.

Lemma antichain_singleton g y : graph_wf g -> antichain (cgka_ops_predecessors g) {[y]}.
Proof.
  intros Hg x z ->%elem_of_singleton (h & ->%elem_of_singleton & Hx) He. destruct (gw_acyclic _ Hg) as [rank Hrank].
  apply (rtc_rank _ rank) in Hx; [|done]. apply Hrank in He. lia.
Qed.

Lemma bob2_merge : merge_concurrent_operation toy_op bob1 = (Ok true, bob2).
Proof. unfold bob2. apply outcome. vm_compute. reflexivity. Qed.

Lemma bob2_replica : replica toy_group bob2.
Proof.
  eapply (replica_merge _ bob1 toy_op); [exact bob1_replica| |exact bob2_merge].
  destruct (replica_keeps toy_group bob1 toy_cf bob1_replica) as (Hw & _ & _).
  assert (exists h, predecessors (payload toy_op) = {[h]}) as [h Hh].
  { assert (size (predecessors (payload toy_op)) = 1%nat) as Hs by (vm_compute; reflexivity).
    destruct (size_1_elem_of _ Hs) as [h Hh]. exists h. by apply leibniz_equiv. }
  split; rewrite Hh; [apply non_empty_singleton_L|]. apply antichain_singleton, Hw.
Qed.

(** The update of the first replica is recorded on the heads it had. *)
Lemma alice2_graph :
  predecessors (payload toy_op) = cgka_op_heads (ops_graph alice1) /\ add_local_op toy_op (ops_graph alice1) = Ok (ops_graph alice2).
Proof.
  destruct (update_inv _ _ _ _ _ _ _ _ _ alice_update_eq) as (c1 & change & r1 & Hr & _ & Hp & Hg & _).
  rewrite maybe_replay_idle in Hr by (vm_compute; reflexivity).
  apply (f_equal snd) in Hr. cbn [snd] in Hr. subst c1. split; [|symmetry; exact Hg].
  rewrite Hp. unfold predecessors. apply list_to_set_elements_L.
Qed.

Lemma alice2_ops : cgka_ops (ops_graph alice2) = cgka_ops (ops_graph bob2).
Proof.
  rewrite (merge_records _ _ _ bob2_merge). destruct alice2_graph as [_ Hg]. rewrite add_local_op_eq in Hg.
  apply (f_equal (fun r => match r with Ok g => cgka_ops g | _ => empty end)) in Hg. cbn [cgka_ops] in Hg. symmetry. exact Hg.
Qed.

Lemma bob2_sks : owner_sks bob2 = {[ toy_pk Byte.x02 := toy_secret Byte.x02 ]}.
Proof. rewrite (proj2 (merge_idle toy_op bob1 bob2 ltac:(vm_compute; reflexivity) bob2_merge)). reflexivity. Qed.

Lemma bob2_holds : holds_leaf_key toy_secrets (tree alice2) (owner_id bob2) (owner_sks bob2).
Proof.
  rewrite bob2_sks. split; [apply map_singleton_subseteq_l; vm_compute; reflexivity|].
  exists 1%N, (toy_pk Byte.x02). split; [vm_compute; reflexivity|]. split; [vm_compute; reflexivity|].
  exists (toy_secret Byte.x02). apply lookup_singleton_eq.
Qed.

(** Both replicas have the update, and nothing to replay. *)
Lemma replicas_converge_witness : tree alice2 = tree bob2.
Proof.
  apply (replicas_converge toy_group alice2 bob2 alice2 bob2 toy_cf alice2_replica bob2_replica).
  - exact alice2_ops.
  - apply maybe_replay_idle. vm_compute. reflexivity.
  - apply maybe_replay_idle. vm_compute. reflexivity.
Defined.

Definition toy_nonce : Siv := mkSiv (replicate 24 Byte.x05).
Definition toy_app_secret : ApplicationSecret bytes :=
  derive_application_secret toy_key toy_nonce [Byte.x07] (mkDigest []) (Digest_hash toy_op).
Definition toy_content : option (EncryptedContent bytes) := secret_try_encrypt toy_app_secret [Byte.x68; Byte.x69].
Definition toy_ciphertext : EncryptedContent bytes :=
  match toy_content with Some e => e | None => mkEncryptedContent toy_nonce [] (mkDigest []) (mkDigest []) [] (mkDigest []) end.


Lemma add_unsigned_changes_tree_witness :
  let refuses := mkAsyncSigner (mkVerifyingKey []) (fun _ => Err SigningFailed) in
  exists c, add (sample_id Byte.x02) (toy_pk Byte.x02) refuses alice0 = (Err Keys.SigningError, c) /\
    contains_id (sample_id Byte.x02) (tree c) = true /\ ops_graph c = ops_graph alice0.
Proof.
  intros refuses. eexists. split.
  - apply (add_unsigned_changes_tree (sample_id Byte.x02) (toy_pk Byte.x02) refuses alice0 1%N
      (push_leaf (sample_id Byte.x02) (NKShareKey (toy_pk Byte.x02)) (tree alice0)).2).
    + vm_compute. reflexivity.
    + vm_compute. reflexivity.
    + apply outcome. vm_compute. reflexivity.
    + reflexivity.
  - split; vm_compute; reflexivity.
Defined.

(** The second replica cannot encrypt after it merged the update. *)
Lemma app_secret_panics_after_merge_witness :
  (new_app_secret_for (Cr := bytes) [Byte.x07] [Byte.x68] [] toy_signer (bob2, toy_rng)).1 = Panic.
Proof.
  apply (app_secret_panics_after_merge toy_op bob1 bob2 (decrypt_tree_secret (tree bob2) (owner_id bob2) (owner_sks bob2)).2
    (pcs_secret toy_key)).
  - vm_compute. reflexivity.
  - exact bob2_merge.
  - vm_compute. reflexivity.
  - apply outcome. vm_compute. reflexivity.
  - vm_compute. reflexivity.
Defined.

Lemma graph_merge_keeps_stale_heads_witness :
  has_single_head (ops_graph alice1) = true /\ has_single_head (graph_merge (ops_graph alice1) (ops_graph alice2)) = false.
Proof.
  destruct (replica_keeps toy_group alice1 toy_cf alice1_replica) as ([Hg Hr Hi] & _ & _).
  split; [vm_compute; reflexivity|].
  destruct alice2_graph as [Hps Hadd].
  apply (graph_merge_keeps_stale_heads (ops_graph alice1) (ops_graph alice2) toy_op _ toy_cf Hg Hi Hps Hadd).
Defined.

(** ** Witnesses for the operation graph *)

Lemma alice1_wf : cgka_wf alice1.
Proof. apply (replica_keeps toy_group alice1 toy_cf alice1_replica). Qed.

Lemma toy_op_new : cgka_ops (ops_graph alice1) !! Digest_hash toy_op = None.
Proof.
  destruct alice1_wf as [Hg _ Hi]. destruct alice2_graph as [Hps _]. exact (op_on_heads_new _ _ _ toy_cf Hg Hi Hps).
Qed.

Lemma graph_add_correct_witness :
  exists g', add_local_op toy_op (ops_graph alice1) = Ok g' /\ has_single_head g' = true.
Proof.
  destruct alice2_graph as [Hps _]. destruct (graph_add_correct toy_op (ops_graph alice1)) as [_ Hlocal].
  - exact (cw_graph _ alice1_wf).
  - exact toy_op_new.
  - rewrite Hps. exact (heads_known _ (cw_graph _ alice1_wf)).
  - destruct (Hlocal Hps) as (g' & Hadd & _ & _ & Hs). exists g'. split; assumption.
Defined.

Lemma topsort_for_heads_correct_witness :
  exists epochs, topsort_for_heads (cgka_op_heads (ops_graph alice1)) (ops_graph alice1) = Ok epochs /\
    epochs_ok (cgka_ops_predecessors (ops_graph alice1)) (cgka_ops (ops_graph alice1)) epochs.
Proof.
  destruct alice1_wf as [Hg _ Hi].
  destruct (topsort_for_heads_correct (ops_graph alice1) (cgka_op_heads (ops_graph alice1)) Hg (heads_known _ Hg) (heads_nonempty _ _ Hg Hi))
    as (es & Hes & Hok & _).
  exists es. split; assumption.
Defined.

Lemma topsort_graph_complete_witness :
  exists epochs, topsort_graph (ops_graph alice1) = Ok epochs /\ length (mjoin epochs) = 2%nat.
Proof.
  destruct alice1_wf as [Hg Hr Hi]. destruct (topsort_graph_complete (ops_graph alice1) _ Hg Hr Hi) as (es & Hes & Hp).
  exists es. split; [assumption|]. rewrite Hp. vm_compute. reflexivity.
Defined.

Lemma topsort_local_op_last_witness :
  exists g' epochs, add_local_op toy_op (ops_graph alice1) = Ok g' /\ topsort_graph (ops_graph alice1) = Ok epochs /\
    topsort_graph g' = Ok (epochs ++ [[toy_op]]).
Proof.
  destruct alice1_wf as [Hg Hr Hi]. exact (topsort_local_op_last (ops_graph alice1) _ toy_op toy_cf Hg Hr Hi (proj1 alice2_graph)).
Defined.

(** Alice has the operation that adds the third member, and has not replayed it
    because of her own concurrent addition: removing the third member does
    nothing, and once the operations are replayed it is in. *)
Definition bob_adds : Cgka := (add (sample_id Byte.x03) (toy_pk Byte.x03) toy_signer bob1).2.
Definition third_op : SignedOp := match (add (sample_id Byte.x03) (toy_pk Byte.x03) toy_signer bob1).1 with Ok (Some op) => op | _ => toy_init end.
Definition alice_adds : Cgka := (add (sample_id Byte.x04) (toy_pk Byte.x04) toy_signer alice1).2.
Definition alice_behind : Cgka := (merge_concurrent_operation third_op alice_adds).2.
Theorem remove_ignores_pending_add :
  (remove (sample_id Byte.x03) toy_signer alice_behind).1 = Ok None /\
  contains_id (sample_id Byte.x03) (tree (maybe_replay (remove (sample_id Byte.x03) toy_signer alice_behind).2).2) = true.
Proof. split; vm_compute; reflexivity. Qed.
