(* ===== verification/Individual.v ===== *)
(** * Individuals and their prekeys
    ([keyhive/keyhive_core/src/principal/individual.rs], [individual/state.rs],
    [individual/op.rs] with [op/add_key.rs] and [op/rotate_key.rs],
    [contact_card.rs])

    An individual publishes prekeys by signed operations that add a key or
    rotate one away; whoever invites the individual to a document picks one of
    the current prekeys. *)

From S2P Require Import Prelude TreeMath Crypto Signed CaMap.

Local Open Scope monad_scope.

(** ** Operations *)

Record AddKeyOp := mkAddKeyOp { add_share_key : ShareKey }.
Record RotateKeyOp := mkRotateKeyOp { rotate_old : ShareKey; rotate_new : ShareKey }.

Inductive KeyOp :=
  | KeyAdd (add : Signed AddKeyOp)
  | KeyRotate (rot : Signed RotateKeyOp).

Definition new_key (op : KeyOp) : ShareKey :=
  match op with KeyAdd a => add_share_key (payload a) | KeyRotate r => rotate_new (payload r) end.
Definition key_issuer (op : KeyOp) : VerifyingKey := match op with KeyAdd a => issuer a | KeyRotate r => issuer r end.
Definition key_signature (op : KeyOp) : Signature := match op with KeyAdd a => signature a | KeyRotate r => signature r end.

Section Prekeys.
Context `{P : Primitives} `{E : Ed25519}.
Context `{Sadd : !Serialize AddKeyOp, Srot : !Serialize RotateKeyOp, Skop : !Serialize KeyOp}.

Definition key_try_verify (op : KeyOp) : res VerificationError unit :=
  match op with KeyAdd a => try_verify a | KeyRotate r => try_verify r end.

(** [KeyOp::topsort], over the values of the map in the order it gives them
    out; the head of the list is the end of the vector [heads]. *)
Definition rotates (k : ShareKey) (op : KeyOp) : bool :=
  match op with KeyRotate r => bool_decide (rotate_old (payload r) = k) | KeyAdd _ => false end.
Definition is_key_add (op : KeyOp) : bool := match op with KeyAdd _ => true | KeyRotate _ => false end.
Definition rotations_of (key_ops : list KeyOp) (k : ShareKey) : list KeyOp := filter (fun op => rotates k op = true) key_ops.
Definition added_keys (key_ops : list KeyOp) : list KeyOp := filter (fun op => is_key_add op = true) key_ops.

Fixpoint topsort_loop (fuel : nat) (key_ops : list KeyOp) (heads topsorted : list KeyOp) : option (list KeyOp) :=
  match heads with
  | [] => Some topsorted
  | head :: heads' =>
      match fuel with
      | O => None
      | Datatypes.S fuel' =>
          topsort_loop fuel' key_ops (reverse (rotations_of key_ops (new_key head)) ++ heads') (topsorted ++ [head])
      end
  end.
Definition key_topsort (fuel : nat) (key_ops : list KeyOp) : option (list KeyOp) :=
  topsort_loop fuel key_ops (reverse (added_keys key_ops)) [].

(** ** The state of the prekeys *)

Record PrekeyState := mkPrekeyState { prekey_ops : CaMap KeyOp }.

Definition PrekeyState_new (initial_op : KeyOp) : PrekeyState := mkPrekeyState (CaMap_insert initial_op CaMap_new).2.

Definition insert_op (op : KeyOp) (s : PrekeyState) : res VerificationError PrekeyState :=
  let* _ := key_try_verify op in Ok (mkPrekeyState (CaMap_insert op (prekey_ops s)).2).

(** [extend] stops at the first operation that does not verify, and keeps what
    it has inserted so far. *)
Fixpoint extend (ops : list KeyOp) (s : PrekeyState) : res VerificationError unit * PrekeyState :=
  match ops with
  | [] => (Ok tt, s)
  | op :: ops' =>
      match insert_op op s with
      | Ok s' => extend ops' s'
      | Err e => (Err e, s)
      | Panic => (Panic, s)
      | Diverge => (Diverge, s)
      end
  end.

Definition op_values (s : PrekeyState) : list KeyOp := (map_to_list (prekey_ops s)).*2.

Definition all_keys (s : PrekeyState) : gset ShareKey := list_to_set (new_key <$> op_values s).
Definition contains_share_key (k : ShareKey) (s : PrekeyState) : bool :=
  existsb (fun op => bool_decide (new_key op = k)) (op_values s).

(** [build]: collect the new keys and the tombstones, then drop the tombstones. *)
Definition build_step (acc : gset ShareKey * list ShareKey) (op : KeyOp) : gset ShareKey * list ShareKey :=
  match op with
  | KeyAdd a => ({[add_share_key (payload a)]} ∪ acc.1, acc.2)
  | KeyRotate r => ({[rotate_new (payload r)]} ∪ acc.1, acc.2 ++ [rotate_old (payload r)])
  end.
Definition build (s : PrekeyState) : gset ShareKey :=
  let acc := foldl build_step (∅, []) (op_values s) in
  foldl (fun keys tombstone => keys ∖ {[tombstone]}) acc.1 acc.2.

Definition PrekeyState_merge (self fork : PrekeyState) : PrekeyState :=
  mkPrekeyState (CaMap_merge (prekey_ops self) (prekey_ops fork)).

(** [PrekeyState::generate]: [size] fresh keys, each signed; the futures may
    complete in any order, which the map does not show. *)
Fixpoint generate_ops (signer : AsyncSigner) (size : nat) (csprng : Rng) (ops : CaMap KeyOp) : res SigningError (CaMap KeyOp) * Rng :=
  match size with
  | O => (Ok ops, csprng)
  | Datatypes.S size' =>
      let '(sk, csprng) := ShareSecretKey_generate csprng in
      match try_sign_async signer (mkAddKeyOp (share_key sk)) with
      | Ok op => generate_ops signer size' csprng (CaMap_insert (KeyAdd op) ops).2
      | Err e => (Err e, csprng)
      | Panic => (Panic, csprng)
      | Diverge => (Diverge, csprng)
      end
  end.

(** ** Individuals *)

Record Individual := mkIndividual {
  individual_id : VerifyingKey;
  prekeys : gset ShareKey;
  prekey_state : PrekeyState;
}.

Definition Individual_new (initial_op : KeyOp) : Individual :=
  let s := PrekeyState_new initial_op in mkIndividual (key_issuer initial_op) (build s) s.

Inductive ReceivePrekeyOpError := IncorrectSigner | PrekeyVerificationError (e : VerificationError).

Definition receive_prekey_op (op : KeyOp) (i : Individual) : res ReceivePrekeyOpError Individual :=
  if decide (key_issuer op = individual_id i) then
    match insert_op op (prekey_state i) with
    | Ok s => Ok (mkIndividual (individual_id i) (build s) s)
    | Err e => Err (PrekeyVerificationError e)
    | Panic => Panic
    | Diverge => Diverge
    end
  else Err IncorrectSigner.

Definition Individual_rebuild (i : Individual) : Individual :=
  mkIndividual (individual_id i) (build (prekey_state i)) (prekey_state i).
Definition Individual_merge (self fork : Individual) : Individual :=
  Individual_rebuild (mkIndividual (individual_id self) (prekeys self) (PrekeyState_merge (prekey_state self) (prekey_state fork))).

(** ** Picking a prekey *)

(** [u64::from_be_bytes] *)
Definition be_u64 (b : bytes) : N := (foldl (fun acc x => acc * 256 + Byte.to_N x) 0 b mod 2 ^ 64)%N.
(** [u64::checked_shl] *)
Definition checked_shl (x : N) (n : N) : option N := if (n <? 64)%N then Some (N.shiftl x n mod 2 ^ 64)%N else None.
(** [usize::from_be] on a 64-bit little-endian machine: the bytes are swapped. *)
Definition usize_from_be (x : N) : N :=
  foldl (fun acc i => (acc * 256 + (x / 256 ^ i) mod 256)%N) 0%N [0; 1; 2; 3; 4; 5; 6; 7]%N.

Definition clamp (b : bytes) (offset_bits : N) : N := usize_from_be (default 0%N (checked_shl (be_u64 b) offset_bits)).

(** [max.checked_ilog2().unwrap_or(0)] *)
Definition ilog2_or_0 (max : N) : N := N.log2 max.

(** The [n]-th eight bytes of [blake3::Hasher::finalize_xof]. *)
Definition xof_block (seed : bytes) (n : nat) : bytes := drop (8 * n) (blake3_xof seed (8 * (n + 1))).

(** [while idx.is_none() { hash_stream.fill(..) .. }]: it samples until an
    index fits, so it is given the number of samples it may take. *)
Fixpoint sample_index (fuel : nat) (seed : bytes) (block : nat) (max : N) : option N :=
  match fuel with
  | O => None
  | Datatypes.S fuel' =>
      let raw_idx := clamp (xof_block seed block) (64 - ilog2_or_0 max)%N in
      if (raw_idx <=? max)%N then Some raw_idx else sample_index fuel' seed (Datatypes.S block) max
  end.
Definition pseudorandom_in_range (fuel : nat) (seed : bytes) (max : N) : option N := sample_index fuel seed 0 max.

(** [Individual::pick_prekey] over the iteration order of the set. *)
Definition pick_prekey (fuel : nat) (doc_id : VerifyingKey) (i : Individual) : res unit ShareKey :=
  let seed := VerifyingKey_bytes (individual_id i) ++ VerifyingKey_bytes doc_id in
  let* idx := loopR (pseudorandom_in_range fuel seed (N.of_nat (size (prekeys i)))) in
  expectR (elements (prekeys i) !! N.to_nat idx).

(** ** Contact cards *)

(** [ContactCard] is the operation it was made from. *)
Definition ContactCard_id (card : KeyOp) : VerifyingKey := key_issuer card.
Definition individual_of_card (card : KeyOp) : Individual := Individual_new card.
(** [Individual::contact_card]: some operation of the map. *)
Definition contact_card (i : Individual) : res unit KeyOp := expectR (head (op_values (prekey_state i))).

(** ** Lemmas *)

Definition rotated_away (ops : list KeyOp) (k : ShareKey) : Prop := exists op, op ∈ ops /\ rotates k op = true.

Lemma build_fold ops : forall acc,
  (forall k, k ∈ (foldl build_step acc ops).1 <-> k ∈ acc.1 \/ k ∈ new_key <$> ops) /\
  (forall k, k ∈ (foldl build_step acc ops).2 <-> k ∈ acc.2 \/ rotated_away ops k).
Proof.
  induction ops as [|op ops IH]; intros acc; cbn [foldl].
  - split; intros k; [set_solver|]. split; [by left|]. intros [?|(op & ?%not_elem_of_nil & _)]; done.
  - destruct (IH (build_step acc op)) as [H1 H2]. split; intros k; rewrite ?H1, ?H2.
    + destruct op; cbn; set_solver.
    + unfold rotated_away. destruct op as [a|r]; cbn; setoid_rewrite elem_of_cons.
      * split; [intros [?|(op & ? & ?)]; eauto|]. intros [?|(op & [->|?] & ?)]; eauto. done.
      * rewrite elem_of_app, list_elem_of_singleton. split.
        -- intros [[?| ->]|(op & ? & ?)]; eauto. right. exists (KeyRotate r). split; [by left|]. cbn. by apply bool_decide_eq_true.
        -- intros [?|(op & [->|?] & Hr)]; eauto. cbn in Hr. apply bool_decide_eq_true in Hr. eauto.
Qed.

Lemma drop_fold (l : list ShareKey) : forall (keys : gset ShareKey) k,
  k ∈ foldl (fun keys tombstone => keys ∖ {[tombstone]}) keys l <-> k ∈ keys /\ k ∉ l.
Proof.
  induction l as [|x l IH]; intros keys k; cbn [foldl]; [rewrite elem_of_nil; tauto|].
  rewrite IH, elem_of_difference, elem_of_singleton, not_elem_of_cons. tauto.
Qed.

Lemma build_spec s k : k ∈ build s <-> k ∈ new_key <$> op_values s /\ ~ rotated_away (op_values s) k.
Proof.
  unfold build. destruct (build_fold (op_values s) (∅, [])) as [H1 H2]. cbn zeta. rewrite drop_fold, H1, H2. cbn.
  rewrite elem_of_nil, elem_of_empty. tauto.
Qed.

(** The operations received, one after the other. *)
Fixpoint receive_all (ops : list KeyOp) (i : Individual) : res ReceivePrekeyOpError Individual :=
  match ops with [] => Ok i | op :: ops' => let* i' := receive_prekey_op op i in receive_all ops' i' end.

Definition good_op (vk : VerifyingKey) (op : KeyOp) : Prop := key_issuer op = vk /\ key_try_verify op = Ok tt.

Lemma receive_good op i : good_op (individual_id i) op ->
  receive_prekey_op op i =
    Ok (Individual_rebuild (mkIndividual (individual_id i) (prekeys i) (mkPrekeyState (<[Digest_hash op := op]> (prekey_ops (prekey_state i)))))).
Proof. intros [Hi Hv]. unfold receive_prekey_op, insert_op. rewrite decide_True by done. rewrite Hv. done. Qed.

Lemma receive_all_good ops : forall i, Forall (good_op (individual_id i)) ops -> ops <> [] ->
  receive_all ops i =
    Ok (Individual_rebuild (mkIndividual (individual_id i) (prekeys i)
          (mkPrekeyState (foldl (fun m op => <[Digest_hash op := op]> m) (prekey_ops (prekey_state i)) ops)))).
Proof.
  induction ops as [|op ops IH]; intros i Hg Hne; [done|]. apply Forall_cons in Hg as [Ho Hg]. cbn [receive_all].
  rewrite receive_good by done. cbn [bindR]. destruct ops as [|op' ops]; [done|]. rewrite IH by done. done.
Qed.

Lemma inserts_perm ops ops' : forall m : CaMap KeyOp, collision_free KeyOp -> ops ≡ₚ ops' ->
  foldl (fun m op => <[Digest_hash op := op]> m) m ops = foldl (fun m op => <[Digest_hash op := op]> m) m ops'.
Proof.
  intros m Hcf Hp. revert m. induction Hp as [|x l l' _ IH|x y l|l1 l2 l3 _ IH1 _ IH2]; intros m; cbn [foldl]; [done|apply IH| |].
  - f_equal. destruct (decide (Digest_hash x = Digest_hash y)) as [Heq|Hne]; [by rewrite (Hcf x y Heq)|]. by apply insert_insert_ne.
  - by rewrite IH1.
Qed.

(** *** Sampling *)

Lemma swap_top c : (c < 256)%N -> usize_from_be (c * 2 ^ 56) = c.
Proof.
  intros Hc. assert (forallb (fun n => N.eqb (usize_from_be (N.of_nat n * 2 ^ 56)) (N.of_nat n)) (seq 0 256) = true) as Hall
    by (vm_compute; reflexivity).
  rewrite forallb_forall in Hall. specialize (Hall (N.to_nat c)). rewrite N2Nat.id in Hall.
  apply N.eqb_eq, Hall, in_seq. lia.
Qed.

(** For up to eight digits the sample keeps the low bits of the block, moved to
    the high end of a byte. *)
Lemma clamp_low b d : (d <= 8)%N -> clamp b (64 - d) = (be_u64 b mod 2 ^ d * 2 ^ (8 - d))%N.
Proof.
  intros Hd. unfold clamp, checked_shl. destruct (N.ltb_spec (64 - d) 64) as [Hlt|Hge].
  - cbn [from_option id]. rewrite N.shiftl_mul_pow2.
    assert (2 ^ 64 = 2 ^ d * 2 ^ (64 - d))%N as -> by (rewrite <- N.pow_add_r; f_equal; lia).
    rewrite N.Div0.mul_mod_distr_r. set (m := (be_u64 b mod 2 ^ d)%N).
    assert (m < 2 ^ d)%N by (apply N.mod_lt; lia).
    replace (m * 2 ^ (64 - d))%N with (m * 2 ^ (8 - d) * 2 ^ 56)%N
      by (rewrite <- N.mul_assoc, <- N.pow_add_r; do 2 f_equal; lia).
    apply swap_top. assert (2 ^ d * 2 ^ (8 - d) = 256)%N as <- by (rewrite <- N.pow_add_r; replace (d + (8 - d))%N with 8%N by lia; done).
    apply N.mul_lt_mono_pos_r; lia.
  - assert (d = 0)%N as -> by lia. rewrite N.pow_0_r, N.mod_1_r. vm_compute. reflexivity.
Qed.

Lemma sample_index_shape fuel seed max idx : forall block,
  sample_index fuel seed block max = Some idx ->
  (idx <= max)%N /\ exists n, idx = clamp (xof_block seed n) (64 - ilog2_or_0 max).
Proof.
  induction fuel as [|fuel IH]; intros block; cbn [sample_index]; [done|].
  destruct (N.leb_spec (clamp (xof_block seed block) (64 - ilog2_or_0 max)) max) as [Hle|Hgt]; [|apply IH].
  intros [= <-]. split; [done|]. by exists block.
Qed.

Lemma sample_small fuel seed max idx block : (0 < max < 16)%N -> sample_index fuel seed block max = Some idx -> idx = 0%N.
Proof.
  intros Hmax (Hle & n & ->)%sample_index_shape. unfold ilog2_or_0 in *.
  assert (N.log2 max <= 3)%N as Hd by (apply N.lt_succ_r, N.log2_lt_pow2; [lia|]; cbn; lia).
  rewrite clamp_low in * by lia. assert (2 ^ 5 <= 2 ^ (8 - N.log2 max))%N as Hp by (apply N.pow_le_mono_r; lia).
  destruct (N.eq_dec (be_u64 (xof_block seed n) mod 2 ^ N.log2 max)%N 0%N) as [->|Hne]; [done|]. exfalso.
  change (2 ^ 5)%N with 32%N in Hp.
  revert Hne Hp Hle. generalize (be_u64 (xof_block seed n) mod 2 ^ N.log2 max)%N, (2 ^ (8 - N.log2 max))%N.
  intros a b Ha Hb Hle. pose proof (N.mul_le_mono 1 a 32 b ltac:(lia) Hb). lia.
Qed.

(** *** Sorting rotations *)

(** [op] is listed after the operation that introduced the key it rotates. *)
Definition key_ordered (l : list KeyOp) : Prop :=
  forall l1 op l2 k, l = l1 ++ op :: l2 -> rotates k op = true -> exists op', op' ∈ l1 /\ new_key op' = k.

Lemma key_ordered_snoc l op : key_ordered l ->
  (forall k, rotates k op = true -> exists op', op' ∈ l /\ new_key op' = k) -> key_ordered (l ++ [op]).
Proof.
  intros Hl Hop l1 x l2 k Heq Hr. apply app_eq_inv in Heq as [(m & -> & Hm)|(m & -> & Hm)].
  - destruct m as [|y m]; [rewrite app_nil_r in *; injection Hm as <-; by apply Hop|]. injection Hm as -> ->. by eapply Hl.
  - destruct m as [|y m]; injection Hm as <- Hnil; [|by destruct m]. rewrite app_nil_r. by apply Hop.
Qed.

(** The trees of rotations hanging from the stack, by a rank that falls along
    rotations. *)
Definition weight (rank : ShareKey -> nat) (n : nat) (op : KeyOp) : nat := S n ^ rank (new_key op).

Lemma topsort_loop_ok (rank : ShareKey -> nat) key_ops :
  (forall op k, op ∈ key_ops -> rotates k op = true -> (rank (new_key op) < rank k)%nat) ->
  forall fuel heads done_ops,
  (sum_list_with (weight rank (length key_ops)) heads <= fuel)%nat ->
  (forall op, op ∈ heads -> op ∈ key_ops /\ forall k, rotates k op = true -> exists op', op' ∈ done_ops /\ new_key op' = k) ->
  (forall op, op ∈ done_ops -> op ∈ key_ops) -> key_ordered done_ops ->
  exists out, topsort_loop fuel key_ops heads done_ops = Some out /\ key_ordered out /\
    (forall op, op ∈ out -> op ∈ key_ops) /\ (forall op, op ∈ heads \/ op ∈ done_ops -> op ∈ out).
Proof.
  intros Hrank. induction fuel as [|fuel IH]; intros [|op heads] done_ops Hf Hh Hd Ho; cbn [topsort_loop].
  1, 3: exists done_ops; split_and!; [done..|intros x [?%not_elem_of_nil|?]; done].
  { cbn in Hf. unfold weight in Hf. pose proof (Nat.pow_nonzero (S (length key_ops)) (rank (new_key op))). lia. }
  destruct (Hh op) as [Hop Hprev]; [left|]. set (next := rotations_of key_ops (new_key op)).
  assert (forall x, x ∈ next -> x ∈ key_ops /\ rotates (new_key op) x = true) as Hnext by (by intros x [??]%list_elem_of_filter).
  destruct (IH (reverse next ++ heads) (done_ops ++ [op])) as (out & Hout & Hord & Hin & Hall).
  - rewrite sum_list_with_app, sum_list_with_reverse. cbn [sum_list_with] in Hf.
    enough (sum_list_with (weight rank (length key_ops)) next < weight rank (length key_ops) op)%nat by lia.
    assert (length next <= length key_ops)%nat as Hlen by apply length_filter.
    unfold weight at 2. destruct (rank (new_key op)) as [|r] eqn:Hr.
    + destruct next as [|x l]; [cbn; lia|]. destruct (Hnext x) as [Hx Hxr]; [left|]. specialize (Hrank x (new_key op) Hx Hxr). lia.
    + assert (forall l, (forall x, x ∈ l -> x ∈ next) ->
        (sum_list_with (weight rank (length key_ops)) l <= length l * S (length key_ops) ^ r)%nat) as Hsum.
      { induction l as [|x l IHl]; intros Hl; cbn [sum_list_with length]; [lia|]. specialize (IHl ltac:(intros; apply Hl; by right)).
        destruct (Hnext x) as [Hx Hxr]; [apply Hl; left|]. specialize (Hrank x (new_key op) Hx Hxr).
        assert (weight rank (length key_ops) x <= S (length key_ops) ^ r)%nat by (unfold weight; apply Nat.pow_le_mono_r; lia). lia. }
      specialize (Hsum next ltac:(done)). rewrite Nat.pow_succ_r'. pose proof (Nat.pow_nonzero (S (length key_ops)) r). nia.
  - intros x [Hx|Hx]%elem_of_app.
    + rewrite elem_of_reverse in Hx. destruct (Hnext x Hx) as [Hxk Hxr]. split; [done|]. intros k Hk.
      exists op. split; [apply elem_of_app; right; by left|]. destruct x as [a|r]; [done|]. cbn in *. apply bool_decide_eq_true in Hxr, Hk. congruence.
    + destruct (Hh x) as [Hxk Hxp]; [by right|]. split; [done|]. intros k (x' & Hx' & <-)%Hxp. exists x'. split; [|done]. apply elem_of_app. by left.
  - intros x [?| ->%list_elem_of_singleton]%elem_of_app; [by apply Hd|done].
  - by apply key_ordered_snoc.
  - exists out. split_and!; [done..|]. intros x [[->|Hx]%elem_of_cons|Hx]; apply Hall.
    + right. apply elem_of_app. right. left.
    + left. apply elem_of_app. by right.
    + right. apply elem_of_app. by left.
Qed.

(** A stack that always has something to rotate is never emptied. *)
Lemma topsort_loop_stuck key_ops (bad : KeyOp -> Prop) :
  (forall op, bad op -> exists op', bad op' /\ op' ∈ rotations_of key_ops (new_key op)) ->
  forall fuel heads done_ops, (exists op, op ∈ heads /\ bad op) -> topsort_loop fuel key_ops heads done_ops = None.
Proof.
  intros Hbad. induction fuel as [|fuel IH]; intros [|h heads] done_ops (op & Hop & Hb); try (by apply not_elem_of_nil in Hop); cbn [topsort_loop]; [done|].
  apply IH. apply elem_of_cons in Hop as [<-|Hop].
  - destruct (Hbad op Hb) as (op' & Hb' & Hin). exists op'. split; [|done]. apply elem_of_app. left. by rewrite elem_of_reverse.
  - exists op. split; [|done]. apply elem_of_app. by right.
Qed.

(** ** Properties *)

(** C36. The prekeys of an individual are the keys its operations introduced
    and none of them rotated away, and the order in which verified operations
    of the individual arrive does not matter. *)
Theorem prekeys_converge ops ops' i :
  collision_free KeyOp -> ops ≡ₚ ops' -> ops <> [] -> Forall (good_op (individual_id i)) ops ->
  exists i', receive_all ops i = Ok i' /\ receive_all ops' i = Ok i' /\
    forall k, k ∈ prekeys i' <-> k ∈ new_key <$> op_values (prekey_state i') /\ ~ rotated_away (op_values (prekey_state i')) k.
Proof.
  intros Hcf Hp Hne Hg. eexists. split; [by apply receive_all_good|]. split; [|intros k; apply build_spec].
  rewrite receive_all_good; [by rewrite (inserts_perm ops ops') by done|by rewrite <- Hp|].
  intros ->. by apply Hne, Permutation_nil_r.
Qed.

(** Operations that are not the individual's own, or do not verify, are
    refused. *)
Theorem receive_prekey_op_errors op i :
  (key_issuer op <> individual_id i -> receive_prekey_op op i = Err IncorrectSigner) /\
  (key_issuer op = individual_id i -> forall e, key_try_verify op = Err e -> receive_prekey_op op i = Err (PrekeyVerificationError e)).
Proof.
  unfold receive_prekey_op, insert_op. split; [intros Hne; by rewrite decide_False|].
  intros Heq e He. rewrite decide_True by done. by rewrite He.
Qed.

(** Sorting the key operations terminates when the rotations have no
    cycle: every added key is listed, and every listed rotation comes after the
    operation that introduced the key it rotates. *)
Theorem key_topsort_correct key_ops (rank : ShareKey -> nat) :
  (forall op k, op ∈ key_ops -> rotates k op = true -> (rank (new_key op) < rank k)%nat) ->
  exists fuel out, key_topsort fuel key_ops = Some out /\ key_ordered out /\
    (forall op, op ∈ out -> op ∈ key_ops) /\ (forall op, op ∈ key_ops -> is_key_add op = true -> op ∈ out).
Proof.
  intros Hrank. exists (sum_list_with (weight rank (length key_ops)) (reverse (added_keys key_ops))).
  assert (forall op, op ∈ reverse (added_keys key_ops) <-> op ∈ key_ops /\ is_key_add op = true) as Hadds.
  { intros op. rewrite elem_of_reverse. unfold added_keys. rewrite list_elem_of_filter. tauto. }
  destruct (topsort_loop_ok rank key_ops Hrank _ (reverse (added_keys key_ops)) [] ltac:(done)) as (out & Hout & Hord & Hin & Hall).
  - intros op [Hop Hadd]%Hadds. split; [done|]. intros k Hr. by destruct op.
  - by intros op ?%not_elem_of_nil.
  - by intros [|] ? ? ? ?.
  - exists out. split_and!; [done..|]. intros op Hop Hadd. apply Hall. left. by apply Hadds.
Qed.

(** Rotations can form a cycle: an individual that adds a key and signs a
    rotation of it to a second key and one back is left without prekeys, and
    sorting its operations does not terminate. *)
Theorem key_rotation_cycle (a : Signed AddKeyOp) (r1 r2 : Signed RotateKeyOp) i :
  rotate_old (payload r1) = add_share_key (payload a) -> rotate_new (payload r1) = rotate_old (payload r2) ->
  rotate_new (payload r2) = add_share_key (payload a) ->
  op_values (prekey_state i) ≡ₚ [KeyAdd a; KeyRotate r1; KeyRotate r2] ->
  prekeys (Individual_rebuild i) = ∅ /\ forall fuel, key_topsort fuel (op_values (prekey_state i)) = None.
Proof.
  intros H1 H2 H3 Hops. assert (forall op, op ∈ op_values (prekey_state i) <-> op ∈ [KeyAdd a; KeyRotate r1; KeyRotate r2]) as Hin by (by intros; rewrite Hops).
  split.
  - apply set_eq. intros k. cbn. rewrite build_spec, elem_of_empty. split; [|done]. intros [(op & -> & Hop)%list_elem_of_fmap Hno].
    apply Hno. apply Hin in Hop. rewrite !elem_of_cons, elem_of_nil in Hop.
    destruct Hop as [->|[->|[->|[]]]]; [exists (KeyRotate r1)|exists (KeyRotate r2)|exists (KeyRotate r1)];
      (split; [apply Hin; rewrite !elem_of_cons; tauto|cbn; apply bool_decide_eq_true; congruence]).
  - intros fuel. apply (topsort_loop_stuck _ (fun op => op ∈ [KeyAdd a; KeyRotate r1; KeyRotate r2])).
    + intros op Hop. rewrite !elem_of_cons, elem_of_nil in Hop.
      destruct Hop as [->|[->|[->|[]]]]; [exists (KeyRotate r1)|exists (KeyRotate r2)|exists (KeyRotate r1)];
        (split; [rewrite !elem_of_cons; tauto|]; apply list_elem_of_filter; split; [cbn; apply bool_decide_eq_true; congruence|];
         apply Hin; rewrite !elem_of_cons; tauto).
    + exists (KeyAdd a). split; [|left]. rewrite elem_of_reverse. apply list_elem_of_filter. split; [done|]. apply Hin. left.
Qed.

(** With fewer than sixteen prekeys [pick_prekey] never panics, but for
    every document it picks the same one, the first of the set's iteration. *)
Theorem pick_prekey_ignores_document fuel doc_id i :
  (0 < size (prekeys i) < 16)%nat ->
  pick_prekey fuel doc_id i = Diverge \/ exists k, pick_prekey fuel doc_id i = Ok k /\ head (elements (prekeys i)) = Some k /\ k ∈ prekeys i.
Proof.
  intros Hs. unfold pick_prekey, pseudorandom_in_range.
  destruct (sample_index _ _ _ _) as [idx|] eqn:Hidx; [right|by left]. apply sample_small in Hidx as ->; [|lia]. cbn [loopR bindR].
  destruct (elements (prekeys i)) as [|k l] eqn:Hl.
  - change (size (prekeys i)) with (length (elements (prekeys i))) in Hs. rewrite Hl in Hs. cbn in Hs. lia.
  - exists k. split_and!; [done..|]. apply elem_of_elements. rewrite Hl. left.
Qed.

(** With sixteen prekeys the index that is drawn can be sixteen, one past
    the end: [pick_prekey] panics whenever the first block of the hash stream
    ends in a one. *)
Theorem pick_prekey_panics fuel doc_id i :
  size (prekeys i) = 16%nat ->
  (be_u64 (xof_block (VerifyingKey_bytes (individual_id i) ++ VerifyingKey_bytes doc_id) 0) mod 16 = 1)%N ->
  pick_prekey (S fuel) doc_id i = Panic.
Proof.
  intros Hs Hb. unfold pick_prekey, pseudorandom_in_range. rewrite Hs. cbn [sample_index].
  change (64 - ilog2_or_0 (N.of_nat 16))%N with (64 - 4)%N. rewrite clamp_low by lia. change (2 ^ 4)%N with 16%N. rewrite Hb.
  change (1 * 2 ^ (8 - 4) <=? N.of_nat 16)%N with true. cbn [loopR bindR]. change (N.to_nat (1 * 2 ^ (8 - 4))) with 16%nat.
  rewrite lookup_ge_None_2; [done|]. change (size (prekeys i)) with (length (elements (prekeys i))) in Hs. by rewrite Hs.
Qed.
End Prekeys.
