(* ===== verification/IndividualWitness.v ===== *)
(** * An individual over the toy primitives

    The theorems on prekeys applied to individuals with a few operations. *)

From Stdlib Require Import Strings.Byte.
From S2P Require Import Prelude TreeMath Crypto Signed CaMap OpGraph ToySerialize Individual.

Import ToyPrimitives ToySerialize.

#[export] Instance enc_add_key_op : Enc AddKeyOp.
Proof. refine (enc_via add_share_key _). by intros [] [] [= ->]. Defined.
#[export] Instance enc_rotate_key_op : Enc RotateKeyOp.
Proof. refine (enc_via (fun r => (rotate_old r, rotate_new r)) _). by intros [] [] [= -> ->]. Defined.
#[export] Instance enc_key_op : Enc KeyOp.
Proof. refine (enc_via (fun op => match op with KeyAdd a => inl a | KeyRotate r => inr r end) _). by intros [] [] [= ->]. Defined.

#[export] Existing Instance toy_ed.

Definition zed_key : VerifyingKey := mkVerifyingKey [x00; x00; x00; x00; x00; x00; x00; x01].
Definition zed_sign {A} `{Enc A} (a : A) : Signed A := mkSigned a zed_key (mkSignature (VerifyingKey_bytes zed_key ++ enc a)).
Definition zed_add (b : byte) : Signed AddKeyOp := zed_sign (mkAddKeyOp (mkShareKey [b])).
Definition zed_rotate (b c : byte) : Signed RotateKeyOp := zed_sign (mkRotateKeyOp (mkShareKey [b]) (mkShareKey [c])).

Definition zed : Individual := Individual_new (KeyAdd (zed_add x01)).
(** A key, a second one it is rotated to, and the rotation back. *)
Definition cyclic_ops : list KeyOp := [KeyAdd (zed_add x01); KeyRotate (zed_rotate x01 x02); KeyRotate (zed_rotate x02 x01)].
Definition cyclic : Individual := mkIndividual zed_key ∅ (mkPrekeyState (list_to_map ((fun op => (Digest_hash op, op)) <$> cyclic_ops))).
(** An individual with sixteen prekeys. *)
Definition keys16 : gset ShareKey :=
  list_to_set ((fun b => mkShareKey [b]) <$> [x00; x01; x02; x03; x04; x05; x06; x07; x08; x09; x0a; x0b; x0c; x0d; x0e; x0f]).
Definition zed16 : Individual := mkIndividual zed_key keys16 (mkPrekeyState ∅).

Lemma prekeys_converge_witness :
  let ops := [KeyAdd (zed_add x02); KeyRotate (zed_rotate x01 x03)] in
  exists i', receive_all ops zed = Ok i' /\ receive_all (reverse ops) zed = Ok i'.
Proof.
  intros ops. destruct (prekeys_converge ops (reverse ops) zed) as (i' & H1 & H2 & _).
  - apply toy_collision_free.
  - symmetry. apply reverse_Permutation.
  - discriminate.
  - apply Forall_cons. split; [split; vm_compute; reflexivity|]. apply Forall_cons. split; [split; vm_compute; reflexivity|]. apply Forall_nil. exact I.
  - exists i'. split; assumption.
Defined.

Lemma key_topsort_correct_witness :
  exists fuel out, key_topsort fuel [KeyRotate (zed_rotate x01 x02); KeyAdd (zed_add x01)] = Some out /\ KeyAdd (zed_add x01) ∈ out.
Proof.
  destruct (key_topsort_correct [KeyRotate (zed_rotate x01 x02); KeyAdd (zed_add x01)]
    (fun k => if decide (k = mkShareKey [x01]) then 1%nat else 0%nat)) as (fuel & out & Hout & _ & _ & Hadds).
  - intros op k Hop Hr. apply elem_of_cons in Hop as [->|Hop].
    + apply bool_decide_eq_true in Hr. subst k. vm_compute. reflexivity.
    + apply list_elem_of_singleton in Hop as ->. discriminate.
  - exists fuel, out. split; [assumption|]. apply Hadds; [right; left|reflexivity].
Defined.

Lemma key_rotation_cycle_witness :
  prekeys (Individual_rebuild cyclic) = ∅ /\ forall fuel, key_topsort fuel (op_values (prekey_state cyclic)) = None.
Proof.
  apply (key_rotation_cycle (zed_add x01) (zed_rotate x01 x02) (zed_rotate x02 x01) cyclic).
  - reflexivity.
  - reflexivity.
  - reflexivity.
  - unfold op_values. cbn [prekey_state prekey_ops cyclic]. rewrite map_to_list_to_map; [reflexivity|].
    apply (bool_decide_unpack _). vm_compute. exact I.
Defined.

Lemma pick_prekey_ignores_document_witness :
  pick_prekey 1 zed_key zed = Diverge \/
  exists k, pick_prekey 1 zed_key zed = Ok k /\ head (elements (prekeys zed)) = Some k /\ k ∈ prekeys zed.
Proof. apply (pick_prekey_ignores_document 1 zed_key zed). vm_compute. lia. Defined.

Lemma pick_prekey_panics_witness : pick_prekey 1 zed_key zed16 = Panic.
Proof. apply (pick_prekey_panics 0 zed_key zed16); vm_compute; reflexivity. Defined.
