(* ===== verification/Membership.v ===== *)
(** * Delegations and revocations
    ([keyhive/keyhive_core/src/access.rs], [principal/agent.rs],
    [principal/group/{delegation,revocation,dependencies,membership_operation}.rs],
    [crypto/signed_ext.rs])

    The capabilities of a group: signed delegations with their chains of proofs,
    signed revocations, and the operations that a membership history is made of.
    Operations hold their predecessors (behind an [Arc] in the code), so they
    are finite trees that share subtrees. *)

From S2P Require Import Prelude TreeMath Crypto Signed.

(** ** Access levels *)

Inductive Access := Relay | Read | Edit | Admin.

#[export] Instance Access_eq_dec : EqDecision Access.
Proof. solve_decision. Defined.

(** The derived order: by position in the declaration. *)
Definition Access_level (a : Access) : nat := match a with Relay => 0 | Read => 1 | Edit => 2 | Admin => 3 end.
Definition Access_leb (a b : Access) : bool := (Access_level a <=? Access_level b)%nat.
Definition Access_ltb (a b : Access) : bool := (Access_level a <? Access_level b)%nat.
Definition Access_min (a b : Access) : Access := if Access_leb a b then a else b.
Definition Access_max (a b : Access) : Access := if Access_leb a b then b else a.

Definition is_reader (a : Access) : bool := Access_leb Read a.
Definition is_editor (a : Access) : bool := Access_leb Edit a.

(** ** Agents *)

(** [Identifier], [IndividualId], [GroupId] and [DocumentId] wrap a verifying key. *)
Abbreviation Identifier := VerifyingKey.

(** What [Agent] points to (the active agent, an individual, a group or a
    document behind a mutex) is kept with its owner; the agent is the tagged id. *)
Inductive Agent :=
  | AgentActive (id : Identifier)
  | AgentIndividual (id : Identifier)
  | AgentGroup (id : Identifier)
  | AgentDocument (id : Identifier).

#[export] Instance Agent_eq_dec : EqDecision Agent.
Proof. solve_decision. Defined.

Inductive AgentId :=
  | ActiveId (id : Identifier)
  | IndividualId (id : Identifier)
  | GroupId (id : Identifier)
  | DocumentId (id : Identifier).

#[export] Instance AgentId_eq_dec : EqDecision AgentId.
Proof. solve_decision. Defined.
#[export] Instance AgentId_countable : Countable AgentId.
Proof.
  refine (inj_countable'
    (fun a => match a with ActiveId i => (0%nat, i) | IndividualId i => (1%nat, i) | GroupId i => (2%nat, i) | DocumentId i => (3%nat, i) end)
    (fun p => match p.1 with O => ActiveId p.2 | 1%nat => IndividualId p.2 | 2%nat => GroupId p.2 | _ => DocumentId p.2 end) _).
  by intros [].
Defined.

Definition agent_identifier (a : Agent) : Identifier :=
  match a with AgentActive i | AgentIndividual i | AgentGroup i | AgentDocument i => i end.

(** The active agent's id converts like any individual's. *)
Definition agent_id (a : Agent) : AgentId :=
  match a with
  | AgentActive i => IndividualId i
  | AgentIndividual i => IndividualId i
  | AgentGroup i => GroupId i
  | AgentDocument i => DocumentId i
  end.

(** ** Delegations and revocations *)

(** [T] is the type of content references, [BTreeMap<DocumentId, Vec<T>>] the
    content an operation comes after. *)
Abbreviation ContentHeads T := (gmap VerifyingKey (list T)).

Inductive Delegation (T : Type) :=
  | mkDelegation
      (delegate : Agent) (can : Access)
      (proof : option (Signed (Delegation T))) (after_revocations : list (Signed (Revocation T)))
      (after_content : ContentHeads T)
with Revocation (T : Type) :=
  | mkRevocation
      (revoke : Signed (Delegation T)) (rev_proof : option (Signed (Delegation T)))
      (rev_after_content : ContentHeads T).
Arguments mkDelegation {T}.
Arguments mkRevocation {T}.

Abbreviation SignedDelegation T := (Signed (Delegation T)).
Abbreviation SignedRevocation T := (Signed (Revocation T)).

Section Fields.
Context {T : Type}.

Definition delegate (d : Delegation T) : Agent := let 'mkDelegation a _ _ _ _ := d in a.
Definition can (d : Delegation T) : Access := let 'mkDelegation _ c _ _ _ := d in c.
Definition proof (d : Delegation T) : option (SignedDelegation T) := let 'mkDelegation _ _ p _ _ := d in p.
Definition after_revocations (d : Delegation T) : list (SignedRevocation T) := let 'mkDelegation _ _ _ r _ := d in r.
Definition after_content (d : Delegation T) : ContentHeads T := let 'mkDelegation _ _ _ _ c := d in c.

Definition revoke (r : Revocation T) : SignedDelegation T := let 'mkRevocation d _ _ := r in d.
Definition rev_proof (r : Revocation T) : option (SignedDelegation T) := let 'mkRevocation _ p _ := r in p.
Definition rev_after_content (r : Revocation T) : ContentHeads T := let 'mkRevocation _ _ c := r in c.

Definition dlg_is_root (d : Delegation T) : bool := match proof d with None => true | Some _ => false end.

(** [while let Some(proof) = &head.proof { lineage.push(proof); head = proof }] *)
Fixpoint proof_lineage (d : Delegation T) : list (SignedDelegation T) :=
  match d with
  | mkDelegation _ _ (Some p) _ _ => p :: proof_lineage (payload p)
  | mkDelegation _ _ None _ _ => []
  end.

(** [SignedSubjectId for Signed<Delegation>]: the issuer at the root. *)
Definition dlg_subject_id (d : SignedDelegation T) : Identifier := issuer (List.last (proof_lineage (payload d)) d).
(** [Delegation::subject_id] *)
Definition payload_subject_id (d : Delegation T) (issuer_id : AgentId) : Identifier :=
  match proof d with
  | Some p => dlg_subject_id p
  | None => match issuer_id with ActiveId i | IndividualId i | GroupId i | DocumentId i => i end
  end.
Definition rev_subject_id (r : SignedRevocation T) : Identifier := dlg_subject_id (revoke (payload r)).
Definition revoked_id (r : Revocation T) : AgentId := agent_id (delegate (payload (revoke r))).
End Fields.

(** [derive(PartialEq) for Delegation]: the operations a delegation holds are
    compared as [Signed] values, by issuer and signature. *)
Definition Delegation_eq {T} `{EqDecision T} (a b : Delegation T) : bool :=
  bool_decide (delegate a = delegate b) && bool_decide (can a = can b) &&
  match proof a, proof b with
  | Some p, Some q => Signed_eq p q
  | None, None => true
  | _, _ => false
  end &&
  (fix all2 (l m : list (SignedRevocation T)) : bool :=
     match l, m with
     | [], [] => true
     | x :: l', y :: m' => Signed_eq x y && all2 l' m'
     | _, _ => false
     end) (after_revocations a) (after_revocations b) &&
  bool_decide (after_content a = after_content b).

(** [maybe_ancestor] among the proofs of [d], as a signed value. *)
Definition is_descendant_of {T} (d : Delegation T) (maybe_ancestor : SignedDelegation T) : bool :=
  existsb (fun p => Signed_eq p maybe_ancestor) (proof_lineage d).
(** [d] among the payloads of the proofs of [maybe_descendant]. *)
Definition is_ancestor_of {T} `{EqDecision T} (d : Delegation T) (maybe_descendant : SignedDelegation T) : bool :=
  existsb (fun p => Delegation_eq (payload p) d) (proof_lineage (payload maybe_descendant)).

(** ** Static forms

    What is serialized and sent: operations named by digest, agents by id.  The
    phantom tag of a digest is [coerce]d freely in the code; here a digest of an
    operation is always tagged with the type of the operation. *)
Record StaticDelegation (T : Type) := mkStaticDelegation {
  sd_can : Access;
  sd_proof : option (Digest (SignedDelegation T));
  sd_delegate : Identifier;
  sd_after_revocations : list (Digest (SignedRevocation T));
  sd_after_content : ContentHeads T;
}.
Arguments mkStaticDelegation {T}.
Arguments sd_can {T}.
Arguments sd_proof {T}.
Arguments sd_delegate {T}.
Arguments sd_after_revocations {T}.
Arguments sd_after_content {T}.

Record StaticRevocation (T : Type) := mkStaticRevocation {
  sr_revoke : Digest (SignedDelegation T);
  sr_proof : option (Digest (SignedDelegation T));
  sr_after_content : ContentHeads T;
}.
Arguments mkStaticRevocation {T}.
Arguments sr_revoke {T}.
Arguments sr_proof {T}.
Arguments sr_after_content {T}.

Section Digests.
Context `{P : Primitives} {T : Type}.
Context `{Ssd : !Serialize (Signed (StaticDelegation T)), Ssr : !Serialize (Signed (StaticRevocation T))}.

Definition coerce {A B} (d : Digest A) : Digest B := mkDigest (Digest_raw d).

(** [From<Delegation> for StaticDelegation] and [From<Revocation> for
    StaticRevocation]; a signed operation is hashed in its static form, since
    [Serialize for Delegation] and [Serialize for Revocation] go through it. *)
Fixpoint dlg_static (d : Delegation T) : StaticDelegation T :=
  match d with
  | mkDelegation a c p revs content =>
      mkStaticDelegation c
        (match p with
         | Some s => Some (coerce (Digest_hash (mkSigned (dlg_static (payload s)) (issuer s) (signature s))))
         | None => None
         end)
        (agent_identifier a)
        (List.map (fun r => coerce (Digest_hash (mkSigned (rev_static (payload r)) (issuer r) (signature r)))) revs)
        content
  end
with rev_static (r : Revocation T) : StaticRevocation T :=
  match r with
  | mkRevocation v p content =>
      mkStaticRevocation
        (coerce (Digest_hash (mkSigned (dlg_static (payload v)) (issuer v) (signature v))))
        (match p with
         | Some s => Some (coerce (Digest_hash (mkSigned (dlg_static (payload s)) (issuer s) (signature s))))
         | None => None
         end)
        content
  end.

#[export] Instance SignedDelegation_serialize : Serialize (SignedDelegation T) := fun d => serialize (Signed_map dlg_static d).
#[export] Instance SignedRevocation_serialize : Serialize (SignedRevocation T) := fun r => serialize (Signed_map rev_static r).
End Digests.

(** ** Membership operations *)

Inductive MembershipOperation (T : Type) :=
  | OpDelegation (d : SignedDelegation T)
  | OpRevocation (r : SignedRevocation T).
Arguments OpDelegation {T}.
Arguments OpRevocation {T}.

Abbreviation MemDigest T := (Digest (MembershipOperation T)).

Section Operations.
Context {T : Type}.

Definition op_subject_id (op : MembershipOperation T) : Identifier :=
  match op with OpDelegation d => dlg_subject_id d | OpRevocation r => rev_subject_id r end.
Definition is_delegation (op : MembershipOperation T) : bool :=
  match op with OpDelegation _ => true | OpRevocation _ => false end.
Definition is_revocation (op : MembershipOperation T) : bool := negb (is_delegation op).
Definition op_signature (op : MembershipOperation T) : Signature :=
  match op with OpDelegation d => signature d | OpRevocation r => signature r end.
Definition op_issuer (op : MembershipOperation T) : VerifyingKey :=
  match op with OpDelegation d => issuer d | OpRevocation r => issuer r end.
Definition op_is_root (op : MembershipOperation T) : bool :=
  match op with OpDelegation d => dlg_is_root (payload d) | OpRevocation _ => false end.

(** [Dependencies]: the delegations and revocations an operation comes after. *)
Record Dependencies := mkDependencies {
  dep_delegations : list (SignedDelegation T);
  dep_revocations : list (SignedRevocation T);
  dep_content : ContentHeads T;
}.
Definition dlg_after (d : Delegation T) : Dependencies :=
  mkDependencies (option_list (proof d)) (after_revocations d) (after_content d).
Definition rev_after (r : Revocation T) : Dependencies :=
  mkDependencies (revoke r :: option_list (rev_proof r)) [] (rev_after_content r).
Definition op_after (op : MembershipOperation T) : Dependencies :=
  match op with OpDelegation d => dlg_after (payload d) | OpRevocation r => rev_after (payload r) end.
Definition after_auth (op : MembershipOperation T) : list (MembershipOperation T) :=
  (OpDelegation <$> dep_delegations (op_after op)) ++ (OpRevocation <$> dep_revocations (op_after op)).

Context `{P : Primitives} `{Ssd : !Serialize (Signed (StaticDelegation T)), Ssr : !Serialize (Signed (StaticRevocation T))}.
Definition op_digest (op : MembershipOperation T) : MemDigest T :=
  match op with OpDelegation d => coerce (Digest_hash d) | OpRevocation r => coerce (Digest_hash r) end.
End Operations.
Arguments Dependencies T : clear implicits.

(** ** Sizes

    The number of nodes of an operation seen as a tree. *)
Section Sizes.
Context {T : Type}.

Fixpoint dlg_size (d : Delegation T) : nat :=
  match d with
  | mkDelegation _ _ p revs _ =>
      S (match p with Some s => dlg_size (payload s) | None => 0 end +
         List.fold_right (fun r n => rev_size (payload r) + n) 0 revs)
  end
with rev_size (r : Revocation T) : nat :=
  match r with
  | mkRevocation v p _ => S (dlg_size (payload v) + match p with Some s => dlg_size (payload s) | None => 0 end)
  end.
Definition op_size (op : MembershipOperation T) : nat :=
  match op with OpDelegation d => dlg_size (payload d) | OpRevocation r => rev_size (payload r) end.

Lemma op_size_eq op : op_size op = S (sum_list_with op_size (after_auth op)).
Proof.
  assert (forall revs : list (SignedRevocation T),
    List.fold_right (fun r n => rev_size (payload r) + n)%nat 0%nat revs = sum_list_with op_size (OpRevocation <$> revs)) as Hrevs.
  { induction revs as [|r revs IH]; [done|]. cbn. by rewrite IH. }
  destruct op as [[[a c p revs content] ? ?]|[[v p content] ? ?]]; unfold after_auth; cbn.
  - rewrite sum_list_with_app, Hrevs. destruct p as [s|]; cbn; lia.
  - rewrite sum_list_with_app. destruct p as [s|]; cbn; lia.
Qed.

Lemma after_auth_proof (d : SignedDelegation T) p :
  proof (payload d) = Some p -> OpDelegation p ∈ after_auth (OpDelegation d).
Proof. intros Hp. unfold after_auth. cbn. rewrite Hp. left. Qed.

Lemma after_auth_revoke (r : SignedRevocation T) : OpDelegation (revoke (payload r)) ∈ after_auth (OpRevocation r).
Proof. left. Qed.

Lemma after_auth_rev_proof (r : SignedRevocation T) p :
  rev_proof (payload r) = Some p -> OpDelegation p ∈ after_auth (OpRevocation r).
Proof. intros Hp. unfold after_auth. cbn. rewrite Hp. right. left. Qed.

Lemma sum_list_with_elem {A} (f : A -> nat) (l : list A) x : x ∈ l -> (f x <= sum_list_with f l)%nat.
Proof. induction 1 as [x l|x y l _ IH]; cbn; lia. Qed.

Lemma after_auth_smaller op p : p ∈ after_auth op -> (op_size p < op_size op)%nat.
Proof. intros Hp. rewrite (op_size_eq op). apply (sum_list_with_elem op_size) in Hp. lia. Qed.

Lemma lineage_smaller (d : Delegation T) p : p ∈ proof_lineage d -> (dlg_size (payload p) < dlg_size d)%nat.
Proof.
  remember (dlg_size d) as n eqn:Hn. revert d Hn. induction n as [n IH] using lt_wf_ind. intros [a c [s|] revs content] -> Hp; [|by apply not_elem_of_nil in Hp].
  cbn in *. apply elem_of_cons in Hp as [->|Hp]; [lia|].
  assert (dlg_size (payload p) < dlg_size (payload s))%nat; [|lia]. eapply IH; [|done|done]. lia.
Qed.

(** The longest chain of operations below an operation, itself included. *)
Fixpoint dlg_depth (d : Delegation T) : nat :=
  match d with
  | mkDelegation _ _ p revs _ =>
      S (Nat.max (match p with Some s => dlg_depth (payload s) | None => 0 end)
           (List.fold_right (fun r n => Nat.max (rev_depth (payload r)) n) 0 revs))
  end
with rev_depth (r : Revocation T) : nat :=
  match r with
  | mkRevocation v p _ => S (Nat.max (dlg_depth (payload v)) (match p with Some s => dlg_depth (payload s) | None => 0 end))
  end.
Definition op_depth (op : MembershipOperation T) : nat :=
  match op with OpDelegation d => dlg_depth (payload d) | OpRevocation r => rev_depth (payload r) end.

Lemma op_depth_eq op : op_depth op = S (foldr (fun p n => Nat.max (op_depth p) n) 0%nat (after_auth op)).
Proof.
  assert (forall revs : list (SignedRevocation T),
    List.fold_right (fun r n => Nat.max (rev_depth (payload r)) n) 0%nat revs =
    foldr (fun p n => Nat.max (op_depth p) n) 0%nat (OpRevocation <$> revs)) as Hrevs.
  { induction revs as [|r revs IH]; [done|]. cbn in *. by rewrite IH. }
  destruct op as [[[a c p revs content] ? ?]|[[v p content] ? ?]]; unfold after_auth; cbn -[Nat.max].
  - rewrite Hrevs. destruct p as [s|]; cbn -[Nat.max]; [done|]. by rewrite Nat.max_0_l.
  - destruct p as [s|]; cbn -[Nat.max]; [|lia]. lia.
Qed.
End Sizes.
