(* ===== verification/MemberSort.v ===== *)
(** * Sorting a membership history
    ([keyhive/keyhive_core/src/util/topsort.rs] and
    [MembershipOperation::reverse_topsort] in
    [principal/group/membership_operation.rs])

    The operations reachable from the heads of a group, children before
    parents, concurrent revocations one at a time. *)

From S2P Require Import Prelude TreeMath Crypto Signed TopSort Membership.

(** ** The sorter

    [Topsort] keeps for every node the nodes that come before it and, in
    reverse, the nodes that come after. *)
Section Sorter.
Context {T : Type} `{Countable T} (le : relation T) `{!RelDecision le}.

Definition Topsort_new : @TopologicalSort T _ _ := mkTopologicalSort ∅ ∅.

Definition Topsort_add_dependency (before after : T) (ts : @TopologicalSort T _ _) : @TopologicalSort T _ _ :=
  mkTopologicalSort
    (entry_insert after before (or_default before (deps ts)))
    (entry_insert before after (or_default after (rdeps ts))).

Definition Topsort_add_node (node : T) (ts : @TopologicalSort T _ _) : @TopologicalSort T _ _ :=
  mkTopologicalSort (or_default node (deps ts)) (or_default node (rdeps ts)).

Definition Topsort_is_empty (ts : @TopologicalSort T _ _) : bool := bool_decide (deps ts = ∅).

Definition pop_frontier (ts : @TopologicalSort T _ _) : list T * @TopologicalSort T _ _ :=
  let ready := merge_sort le (filter (fun nd : T * gset T => nd.2 = ∅) (map_to_list (deps ts))).*1 in
  (ready, foldl remove_node ts ready).
End Sorter.

(** ** Collecting the operations *)
Section Sort.
Context `{P : Primitives} {T : Type}.
Context `{Ssd : !Serialize (Signed (StaticDelegation T)), Ssr : !Serialize (Signed (StaticRevocation T))}.

Abbreviation OpMap := (gmap (MemDigest T) (MembershipOperation T * list (MemDigest T))).

Record explored := mkExplored {
  all_ops : OpMap;
  (** the signature of a revoked delegation -> the revocation *)
  revoked_dependencies : gmap Signature (MemDigest T);
}.

(** [while let Some(op) = explore.pop()]; the head of the list is the end of the
    vector. *)
Fixpoint explore_loop (fuel : nat) (explore : list (MembershipOperation T)) (e : explored) : option explored :=
  match explore with
  | [] => Some e
  | op :: rest =>
      match fuel with
      | O => None
      | Datatypes.S fuel' =>
          let digest := op_digest op in
          if bool_decide (is_Some (all_ops e !! digest)) then explore_loop fuel' rest e
          else
            let parents := after_auth op in
            let parent_digests := op_digest <$> parents in
            let revoked := match op with
                           | OpRevocation r => <[signature (revoke (payload r)) := digest]> (revoked_dependencies e)
                           | OpDelegation _ => revoked_dependencies e
                           end in
            explore_loop fuel' (reverse parents ++ rest) (mkExplored (<[digest := (op, parent_digests)]> (all_ops e)) revoked)
      end
  end.

(** Every round takes one node off the trees on the stack. *)
Definition explore_heads (heads : list (MembershipOperation T)) : option explored :=
  explore_loop (sum_list_with op_size heads) (reverse heads) (mkExplored ∅ ∅).

(** ** Distance to the root *)

(** [compute_distance], with its memo; the recursion goes up the parents, so
    the size of the operation bounds its depth. *)
Fixpoint compute_distance (fuel : nat) (ops : OpMap) (digest : MemDigest T) (memo : gmap (MemDigest T) nat) :
    option (nat * gmap (MemDigest T) nat) :=
  match memo !! digest with
  | Some dist => Some (dist, memo)
  | None =>
      match ops !! digest with
      | None => Some (1%nat, <[digest := 1%nat]> memo)
      | Some (_, parents) =>
          match fuel with
          | O => None
          | Datatypes.S fuel' =>
              let step := fix go (l : list (MemDigest T)) (best : nat) (memo : gmap (MemDigest T) nat) :=
                match l with
                | [] => Some (best, memo)
                | pd :: l' =>
                    if bool_decide (is_Some (ops !! pd)) then
                      match compute_distance fuel' ops pd memo with
                      | Some (dist, memo') => go l' (Nat.max best dist) memo'
                      | None => None
                      end
                    else go l' best memo
                end in
              match step parents 0%nat memo with
              | Some (best, memo') => Some ((best + 1)%nat, <[digest := (best + 1)%nat]> memo')
              | None => None
              end
          end
      end
  end.

(** [BTreeMap::keys]: in the order of the digests. *)
Definition sorted_keys (ops : OpMap) : list (MemDigest T) := merge_sort Digest_le (map_to_list ops).*1.

Definition distance_step (ops : OpMap) (memo : option (gmap (MemDigest T) nat)) (digest : MemDigest T) :
    option (gmap (MemDigest T) nat) :=
  memo ≫= fun m =>
    let fuel := match ops !! digest with Some (op, _) => op_size op | None => 0%nat end in
    snd <$> compute_distance fuel ops digest m.
Definition distance_to_root (ops : OpMap) : option (gmap (MemDigest T) nat) :=
  foldl (distance_step ops) (Some ∅) (sorted_keys ops).

(** ** Building the graph

    A node of the sorter is a digest together with the operation [all_ops] has
    for it. *)
Record adjacency := mkAdjacency {
  adjacencies : @TopologicalSort (MemDigest T) _ _;
  successors_of : gmap (MemDigest T) (list (MemDigest T));
}.

Definition link (digest after : MemDigest T) (a : adjacency) : adjacency :=
  mkAdjacency (Topsort_add_dependency digest after (adjacencies a))
    (<[digest := default [] (successors_of a !! digest) ++ [after]]> (successors_of a)).

Definition link_known (ops : OpMap) (digest : MemDigest T) (a : adjacency) (after : MemDigest T) : adjacency :=
  if bool_decide (is_Some (ops !! after)) then link digest after a else a.

Definition add_op_edges (e : explored) (a : adjacency) (digest : MemDigest T) : adjacency :=
  match all_ops e !! digest with
  | None => a
  | Some (op, parent_digests) =>
      let a := mkAdjacency (Topsort_add_node digest (adjacencies a)) (successors_of a) in
      let a := foldl (link_known (all_ops e) digest) a parent_digests in
      match op with
      | OpDelegation d =>
          match proof (payload d) ≫= fun p => revoked_dependencies e !! signature p with
          | Some revoked_digest => link_known (all_ops e) digest a revoked_digest
          | None => a
          end
      | OpRevocation _ => a
      end
  end.

Definition build_adjacency (e : explored) : adjacency :=
  foldl (add_op_edges e) (mkAdjacency Topsort_new ∅) (sorted_keys (all_ops e)).

(** ** Draining it frontier by frontier *)

Definition node_is_revocation (ops : OpMap) (digest : MemDigest T) : bool :=
  match ops !! digest with Some (op, _) => is_revocation op | None => false end.

Definition distance_of (dist : gmap (MemDigest T) nat) (d : MemDigest T) : nat := default 1%nat (dist !! d).
(** [dist1.cmp(&dist2).then_with(|| d1.cmp(d2))] *)
Definition seniority (dist : gmap (MemDigest T) nat) (d1 d2 : MemDigest T) : Prop :=
  (distance_of dist d1 < distance_of dist d2)%nat \/ (distance_of dist d1 = distance_of dist d2 /\ Digest_le d1 d2).
#[export] Instance seniority_dec dist : RelDecision (seniority dist).
Proof. intros d1 d2. unfold seniority. apply _. Defined.

(** [remaining.windows(2)] *)
Definition windows2 {A} (l : list A) : list (A * A) := zip l (tail l).

(** The revocations that have to wait are put back, each after the next one,
    and before what they come before. *)
Definition put_back (ops : OpMap) (succs : gmap (MemDigest T) (list (MemDigest T))) (remaining : list (MemDigest T))
    (ts : @TopologicalSort (MemDigest T) _ _) : @TopologicalSort (MemDigest T) _ _ :=
  let ts := foldl (fun ts w => Topsort_add_dependency w.2 w.1 ts) ts (windows2 remaining) in
  let ts := match remaining with [r] => Topsort_add_node r ts | _ => ts end in
  foldl (fun ts rev_digest =>
    foldl (fun ts succ_digest =>
      if bool_decide (is_Some (ops !! succ_digest)) then Topsort_add_dependency rev_digest succ_digest ts else ts)
      ts (default [] (succs !! rev_digest)))
    ts remaining.

Fixpoint drain (fuel : nat) (ops : OpMap) (dist : gmap (MemDigest T) nat) (succs : gmap (MemDigest T) (list (MemDigest T)))
    (ts : @TopologicalSort (MemDigest T) _ _) (dependencies : list (MemDigest T)) : option (list (MemDigest T)) :=
  if Topsort_is_empty ts then Some dependencies
  else
    match fuel with
    | O => None
    | Datatypes.S fuel' =>
        let '(batch, ts) := pop_frontier Digest_le ts in
        match batch with
        | [] => Some dependencies (* cycle guard *)
        | _ =>
            let revocations := filter (fun d => node_is_revocation ops d = true) batch in
            let others := merge_sort Digest_le (filter (fun d => node_is_revocation ops d = false) batch) in
            let dependencies := dependencies ++ others in
            if (length revocations <=? 1)%nat then drain fuel' ops dist succs ts (dependencies ++ revocations)
            else
              match merge_sort (seniority dist) revocations with
              | [] => None
              | first :: remaining =>
                  drain fuel' ops dist succs (put_back ops succs remaining ts) (dependencies ++ [first])
              end
        end
    end.

(** [MembershipOperation::reverse_topsort] on the values of the two stores of
    heads, in the order the stores give them out. *)
Definition reverse_topsort (delegation_heads : list (SignedDelegation T)) (revocation_heads : list (SignedRevocation T)) :
    option (list (MemDigest T * MembershipOperation T)) :=
  e ← explore_heads ((OpDelegation <$> delegation_heads) ++ (OpRevocation <$> revocation_heads));
  dist ← distance_to_root (all_ops e);
  let a := build_adjacency e in
  out ← drain (size (all_ops e)) (all_ops e) dist (successors_of a) (adjacencies a) [];
  mapM (fun d => (fun op => (d, op.1)) <$> all_ops e !! d) out.
End Sort.
