(* ===== verification/MemberExplore.v ===== *)
(** * Collecting a membership history

    [explore_heads] finds exactly the operations reachable from the heads, in
    whatever order the heads come; the distances are the depths of the
    operations. *)

From S2P Require Import Prelude TreeMath Crypto Signed TopSort Membership MemberSort.

Section Explore.
Context `{P : Primitives} {T : Type}.
Context `{Ssd : !Serialize (Signed (StaticDelegation T)), Ssr : !Serialize (Signed (StaticRevocation T))}.
Implicit Types op p : MembershipOperation T.

(** The history below a list of operations. *)
Inductive reaches (heads : list (MembershipOperation T)) : MembershipOperation T -> Prop :=
  | reaches_head op : op ∈ heads -> reaches heads op
  | reaches_after op p : reaches heads op -> p ∈ after_auth op -> reaches heads p.

(** Digests tell the operations of a history apart, and signatures tell its
    delegations apart.  Digests are collision free, but hash only the id of an
    agent and not its kind. *)
Definition distinct_digests (heads : list (MembershipOperation T)) : Prop :=
  forall a b, reaches heads a -> reaches heads b -> op_digest a = op_digest b -> a = b.

Lemma reaches_sub l l' op : (forall x, x ∈ l -> reaches l' x) -> reaches l op -> reaches l' op.
Proof. intros Hsub. induction 1 as [op Hop|op p _ IH Hp]; [by apply Hsub|by apply (reaches_after _ op)]. Qed.

Lemma reaches_perm l l' op : l ≡ₚ l' -> reaches l op <-> reaches l' op.
Proof. intros Hp. split; apply reaches_sub; intros x Hx; constructor; [by rewrite <- Hp|by rewrite Hp]. Qed.

(** The operations collected so far, with what remains on the stack. *)
Record collecting (heads stack : list (MembershipOperation T)) (e : explored) : Prop := {
  col_known k op ps : all_ops e !! k = Some (op, ps) -> reaches heads op /\ k = op_digest op /\ ps = op_digest <$> after_auth op;
  col_stack op : op ∈ stack -> reaches heads op;
  col_heads op : op ∈ heads -> is_Some (all_ops e !! op_digest op) \/ op ∈ stack;
  col_closed k op ps p : all_ops e !! k = Some (op, ps) -> p ∈ after_auth op -> is_Some (all_ops e !! op_digest p) \/ p ∈ stack;
  col_revoked s k : revoked_dependencies e !! s = Some k ->
    exists r ps, all_ops e !! k = Some (OpRevocation r, ps) /\ s = signature (revoke (payload r));
  col_revocations k r ps : all_ops e !! k = Some (OpRevocation r, ps) ->
    is_Some (revoked_dependencies e !! signature (revoke (payload r)));
}.

Lemma collecting_skip heads op rest e :
  is_Some (all_ops e !! op_digest op) -> collecting heads (op :: rest) e -> collecting heads rest e.
Proof.
  intros Hk [Hkn Hst Hh Hcl Hr Hrs]. constructor; [done| | | |done|done].
  - intros x Hx. apply Hst. by right.
  - intros x [?|[->|?]%elem_of_cons]%Hh; auto.
  - intros k x ps p Hx [?|[->|?]%elem_of_cons]%(Hcl k x ps); auto.
Qed.

Lemma collecting_visit heads op rest e :
  let digest := op_digest op in
  all_ops e !! digest = None -> collecting heads (op :: rest) e ->
  collecting heads (reverse (after_auth op) ++ rest)
    (mkExplored (<[digest := (op, op_digest <$> after_auth op)]> (all_ops e))
       (match op with
        | OpRevocation r => <[signature (revoke (payload r)) := digest]> (revoked_dependencies e)
        | OpDelegation _ => revoked_dependencies e
        end)).
Proof.
  intros digest Hnew [Hkn Hst Hh Hcl Hr Hrs]. assert (reaches heads op) as Hop by (apply Hst; left).
  assert (forall k, is_Some (all_ops e !! k) -> is_Some (<[digest := (op, op_digest <$> after_auth op)]> (all_ops e) !! k)) as Hmono.
  { intros k Hk. rewrite lookup_insert_is_Some'. by right. }
  constructor; cbn [all_ops revoked_dependencies].
  - intros k x ps. rewrite lookup_insert_Some. intros [[<- [= <- <-]]|[_ Hk]]; [by split_and!|by apply Hkn].
  - intros x [Hx|Hx]%elem_of_app; [rewrite elem_of_reverse in Hx; by apply (reaches_after _ op)|]. apply Hst. by right.
  - intros x [Hx|[->|Hx]%elem_of_cons]%Hh; [left; by apply Hmono|left; apply lookup_insert_is_Some'; by left|].
    right. apply elem_of_app. by right.
  - intros k x ps p. rewrite lookup_insert_Some. intros [[<- [= <- <-]]|[_ Hk]] Hp.
    + right. apply elem_of_app. left. by apply elem_of_reverse.
    + destruct (Hcl k x ps p Hk Hp) as [?|[->|?]%elem_of_cons]; [left; by apply Hmono|left; apply lookup_insert_is_Some'; by left|].
      right. apply elem_of_app. by right.
  - assert (forall s k, revoked_dependencies e !! s = Some k -> exists r ps,
      <[digest := (op, op_digest <$> after_auth op)]> (all_ops e) !! k = Some (OpRevocation r, ps) /\ s = signature (revoke (payload r))) as Hold.
    { intros s k (r & ps & Hk & ->)%Hr. exists r, ps. split; [|done]. rewrite lookup_insert_ne; [done|]. intros ->. congruence. }
    intros s k. destruct op as [d|r]; [apply Hold|]. rewrite lookup_insert_Some. intros [[<- <-]|[_ Hs]]; [|by apply Hold].
    exists r. eexists. split; [apply lookup_insert_eq|done].
  - intros k r ps. rewrite lookup_insert_Some. intros [[<- [= -> _]]|[_ Hk]].
    + rewrite lookup_insert_eq. by eexists.
    + apply Hrs in Hk. destruct op as [d|r']; [done|]. rewrite lookup_insert_is_Some'. by right.
Qed.

Lemma explore_loop_ok heads fuel : forall stack e,
  (sum_list_with op_size stack <= fuel)%nat -> collecting heads stack e ->
  exists e', explore_loop fuel stack e = Some e' /\ collecting heads [] e'.
Proof.
  induction fuel as [|fuel IH]; intros [|op rest] e Hf Hc; try (by eexists).
  - cbn in Hf. rewrite op_size_eq in Hf. lia.
  - cbn [explore_loop]. cbn [sum_list_with] in Hf. pose proof (op_size_eq op). case_bool_decide as Hk.
    + apply IH; [lia|]. by apply (collecting_skip _ op).
    + apply IH; [|apply collecting_visit; [by apply eq_None_not_Some|done]].
      rewrite sum_list_with_app, sum_list_with_reverse. lia.
Qed.

(** What exploring finds. *)
Record collected (heads : list (MembershipOperation T)) (e : explored) : Prop := {
  cd_ops k op ps : all_ops e !! k = Some (op, ps) <-> reaches heads op /\ k = op_digest op /\ ps = op_digest <$> after_auth op;
  cd_revoked s k : revoked_dependencies e !! s = Some k ->
    exists r, reaches heads (OpRevocation r) /\ k = op_digest (OpRevocation r) /\ s = signature (revoke (payload r));
  cd_revocations r : reaches heads (OpRevocation r) -> is_Some (revoked_dependencies e !! signature (revoke (payload r)));
}.

Lemma collecting_done heads e : distinct_digests heads -> collecting heads [] e -> collected heads e.
Proof.
  intros Hd [Hkn _ Hh Hcl Hr Hrs].
  assert (forall op, reaches heads op -> all_ops e !! op_digest op = Some (op, op_digest <$> after_auth op)) as Hall.
  { assert (forall op, reaches heads op -> is_Some (all_ops e !! op_digest op) ->
      all_ops e !! op_digest op = Some (op, op_digest <$> after_auth op)) as Hval.
    { intros op Hop [[x ps] Hx]. destruct (Hkn _ _ _ Hx) as (Hreach & Hdig & ->).
      rewrite Hx. f_equal. by rewrite (Hd op x Hop Hreach Hdig). }
    induction 1 as [op Hop|op p Hop IH Hp].
    - apply Hval; [by constructor|]. destruct (Hh op Hop) as [?|[]%not_elem_of_nil]; done.
    - apply Hval; [by apply (reaches_after _ op)|]. destruct (Hcl _ _ _ p IH Hp) as [?|[]%not_elem_of_nil]; done. }
  constructor.
  - intros k op ps. split; [apply Hkn|]. intros (Hop & -> & ->). by apply Hall.
  - intros s k (r & ps & (? & -> & _)%Hkn & ->)%Hr. by exists r.
  - intros r Hreach%Hall. by eapply Hrs.
Qed.

Lemma explore_heads_ok heads : distinct_digests heads -> exists e, explore_heads heads = Some e /\ collected heads e.
Proof.
  intros Hd. destruct (explore_loop_ok heads (sum_list_with op_size heads) (reverse heads) (mkExplored ∅ ∅)) as (e & He & Hc).
  - rewrite sum_list_with_reverse. lia.
  - constructor; try done.
    + intros op Hop. constructor. by rewrite elem_of_reverse in Hop.
    + intros op Hop. right. by apply elem_of_reverse.
  - exists e. split; [done|]. by apply collecting_done.
Qed.

(** ** Distances *)
Section Distance.
Context (heads : list (MembershipOperation T)) (e : @explored T).
Hypothesis Hc : collected heads e.

Definition memo_ok (memo : gmap (MemDigest T) nat) : Prop :=
  forall op, reaches heads op -> forall n, memo !! op_digest op = Some n -> n = op_depth op.

Lemma known_reached op : reaches heads op -> all_ops e !! op_digest op = Some (op, op_digest <$> after_auth op).
Proof. intros Hop. by apply (cd_ops _ _ Hc). Qed.

Lemma compute_distance_ok fuel : forall op memo, distinct_digests heads ->
  reaches heads op -> memo_ok memo -> (op_size op <= fuel)%nat ->
  exists memo', compute_distance fuel (all_ops e) (op_digest op) memo = Some (op_depth op, memo') /\
    memo_ok memo' /\ memo' !! op_digest op = Some (op_depth op) /\ memo ⊆ memo'.
Proof.
  induction fuel as [|fuel IH]; intros op memo Hd Hop Hm Hf; [rewrite op_size_eq in Hf; lia|].
  cbn [compute_distance]. destruct (memo !! op_digest op) as [n|] eqn:Hn.
  { exists memo. by rewrite <- (Hm op Hop n Hn). }
  rewrite (known_reached op Hop).
  set (go := fix go (l : list (MemDigest T)) (best : nat) (memo : gmap (MemDigest T) nat) := _).
  assert (forall ps best memo, (forall p, p ∈ ps -> p ∈ after_auth op) -> memo_ok memo ->
    exists memo', go (op_digest <$> ps) best memo = Some (Nat.max best (foldr (fun p n => Nat.max (op_depth p) n) 0%nat ps), memo') /\
      memo_ok memo' /\ memo ⊆ memo') as Hgo.
  { induction ps as [|p ps IHps]; intros best memo1 Hsub Hm1; [exists memo1; by rewrite Nat.max_0_r|].
    assert (p ∈ after_auth op) as Hp by (apply Hsub; left).
    assert (reaches heads p) as Hrp by (by apply (reaches_after _ op)).
    cbn [fmap list_fmap go]. rewrite bool_decide_eq_true_2 by (rewrite known_reached by done; by eexists).
    destruct (IH p memo1 Hd Hrp Hm1) as (memo2 & -> & Hm2 & _ & Hsub2); [apply after_auth_smaller in Hp; lia|].
    destruct (IHps (Nat.max best (op_depth p)) memo2) as (memo3 & Heq & Hm3 & Hsub3); [intros x Hx; apply Hsub; by right|done|].
    exists memo3. split_and!; [|done|by etrans].
    transitivity (go (op_digest <$> ps) (Nat.max best (op_depth p)) memo2); [reflexivity|]. rewrite Heq. f_equal. f_equal. cbn [foldr]. lia. }
  destruct (Hgo (after_auth op) 0%nat memo) as (memo' & Heq & Hm' & Hsub); [done|done|]. rewrite Heq, Nat.max_0_l, Nat.add_1_r, <- op_depth_eq.
  eexists. split_and!; [done| |apply lookup_insert_eq|].
  - intros x Hx n. rewrite lookup_insert_Some. intros [[Hk <-]|[_ Hk]]; [|by apply Hm']. by rewrite (Hd op x Hop Hx Hk).
  - destruct (memo' !! op_digest op) as [n|] eqn:Hn'.
    + rewrite insert_id; [done|]. by rewrite <- (Hm' op Hop n Hn').
    + etrans; [exact Hsub|]. by apply insert_subseteq.
Qed.

Lemma distance_to_root_ok : distinct_digests heads ->
  exists dist, distance_to_root (all_ops e) = Some dist /\
    forall op, reaches heads op -> distance_of dist (op_digest op) = op_depth op.
Proof.
  intros Hd. unfold distance_to_root.
  assert (forall l memo, (forall k, k ∈ l -> exists op, reaches heads op /\ k = op_digest op) -> memo_ok memo ->
    exists memo', foldl (distance_step (all_ops e)) (Some memo) l = Some memo' /\ memo_ok memo' /\ memo ⊆ memo' /\
      forall k, k ∈ l -> is_Some (memo' !! k)) as Hl.
  { induction l as [|k l IH]; intros memo Hk Hm; [exists memo; split_and!; try done; by intros k ?%not_elem_of_nil|].
    destruct (Hk k) as (op & Hop & ->); [left|]. cbn [foldl]. unfold distance_step at 2. cbn [mbind option_bind].
    rewrite (known_reached op Hop). destruct (compute_distance_ok (op_size op) op memo Hd Hop Hm) as (m1 & -> & Hm1 & Hin & Hsub); [lia|].
    destruct (IH m1) as (m2 & Heq & Hm2 & Hsub2 & Hall); [intros x Hx; apply Hk; by right|done|].
    exists m2. split_and!; [done|done|by etrans|]. intros x [->|Hx]%elem_of_cons; [|by apply Hall]. eexists. by eapply lookup_weaken. }
  assert (forall k, k ∈ sorted_keys (all_ops e) <-> exists op, reaches heads op /\ k = op_digest op) as Hkeys.
  { intros k. unfold sorted_keys. rewrite merge_sort_Permutation, list_elem_of_fmap. split.
    - intros ([k' [op ps]] & -> & Hin%elem_of_map_to_list). apply (cd_ops _ _ Hc) in Hin as (? & -> & _). by exists op.
    - intros (op & Hop & ->). eexists (_, (op, _)). split; [done|]. by apply elem_of_map_to_list, known_reached. }
  destruct (Hl (sorted_keys (all_ops e)) ∅) as (dist & Heq & Hm & _ & Hall); [by intros k ?%Hkeys|by intros op _ n Hn|].
  exists dist. split; [done|]. intros op Hop. unfold distance_of.
  destruct (Hall (op_digest op)) as [n Hn]; [apply Hkeys; by exists op|]. rewrite Hn. by apply Hm.
Qed.
End Distance.
End Explore.
