(* ===== verification/MemberDrain.v ===== *)
(** * Draining the graph of a membership history

    As long as the graph has no cycle, draining it returns every node once,
    each after the nodes that have to come before it; the revocations that are
    put back to be returned one at a time do not change that. *)

From S2P Require Import Prelude TreeMath Crypto Signed TopSort Membership MemberSort.

(** ** The sorter *)
Section Sorter.
Context {K : Type} `{Countable K}.
Implicit Types ts : @TopologicalSort K _ _.

(** [x] comes before [y]. *)
Definition dep ts (x y : K) : Prop := exists s, deps ts !! y = Some s /\ x ∈ s.

Lemma pop_frontier_spec (le : relation K) `{!RelDecision le} ts ready ts' :
  mirrored ts -> pop_frontier le ts = (ready, ts') ->
  NoDup ready /\ (forall y, y ∈ ready <-> deps ts !! y = Some ∅) /\ mirrored ts' /\
  (forall y, y ∈ dom (deps ts') <-> y ∈ dom (deps ts) /\ y ∉ ready) /\
  forall x y, dep ts' x y <-> dep ts x y /\ y ∉ ready /\ x ∉ ready.
Proof.
  intros Hm. unfold pop_frontier. destruct (pop_all_spec ts (pop_all ts).1 (pop_all ts).2 Hm) as (Hnd & Hr & _ & _); [by destruct pop_all|].
  cbn [pop_all fst] in Hnd, Hr. set (l := (filter _ _).*1) in *. intros [= <- <-].
  destruct (remove_nodes_deps (merge_sort le l) ts Hm) as [Hm' Hd]. pose proof (merge_sort_Permutation le l) as Hp.
  split_and!; [by rewrite Hp|intros y; by rewrite Hp|done| |].
  - intros y. rewrite !elem_of_dom, Hd. case_decide as Hy; [by split; [intros [??]|intros [_ ?]]|].
    rewrite fmap_is_Some. by intuition.
  - intros x y. unfold dep. setoid_rewrite Hd. case_decide as Hy; [by split; [intros (? & ? & _)|intros (_ & ? & _)]|]. split.
    + intros (s & (s0 & -> & Hs0)%fmap_Some & Hx). subst s. apply elem_of_difference in Hx as [Hx Hn]. rewrite elem_of_list_to_set in Hn. eauto.
    + intros ((s & Hs & Hx) & _ & Hn). exists (s ∖ list_to_set (merge_sort le l)). rewrite Hs. split; [done|].
      apply elem_of_difference. by rewrite elem_of_list_to_set.
Qed.

Lemma add_dependency_dep a b ts x y : dep (Topsort_add_dependency a b ts) x y <-> dep ts x y \/ (x = a /\ y = b).
Proof.
  unfold dep. change (Topsort_add_dependency a b ts) with (add_dependency a b ts). setoid_rewrite add_dependency_deps.
  destruct (decide (y = b)) as [->|Hyb]; [|destruct (decide (y = a)) as [->|Hya]].
  - split.
    + intros (s & [= <-] & [Hx|Hx%elem_of_singleton]%elem_of_union); [|by right].
      destruct (deps ts !! b) as [s|]; [left; by exists s|by apply not_elem_of_empty in Hx].
    + intros [(s & Hs & Hx)|[-> _]]; (eexists; split; [done|]); apply elem_of_union; [left; by rewrite Hs|right; by apply elem_of_singleton].
  - split; [|intros [(s & -> & Hx)|[_ ?]]; [by exists s|done]].
    intros (s & [= <-] & Hx). destruct (deps ts !! a) as [s|]; [left; by exists s|by apply not_elem_of_empty in Hx].
  - split; [by left|]. intros [?|[_ ?]]; done.
Qed.

Lemma add_dependency_dom a b ts y : y ∈ dom (deps (Topsort_add_dependency a b ts)) <-> y ∈ dom (deps ts) \/ y = a \/ y = b.
Proof.
  change (Topsort_add_dependency a b ts) with (add_dependency a b ts). rewrite !elem_of_dom, add_dependency_deps.
  repeat case_decide; subst; naive_solver.
Qed.

Lemma add_node_dep a ts x y : dep (Topsort_add_node a ts) x y <-> dep ts x y.
Proof.
  unfold dep. cbn. setoid_rewrite or_default_lookup. case_decide as Hy; [subst y|done]. split.
  - intros (s & [= <-] & Hx). destruct (deps ts !! a) as [s|]; [by exists s|by apply not_elem_of_empty in Hx].
  - intros (s & Hs & Hx). exists s. by rewrite Hs.
Qed.

Lemma add_node_dom a ts y : y ∈ dom (deps (Topsort_add_node a ts)) <-> y ∈ dom (deps ts) \/ y = a.
Proof. rewrite !elem_of_dom. cbn. rewrite or_default_lookup. case_decide; naive_solver. Qed.

Lemma add_node_mirrored a ts : mirrored ts -> mirrored (Topsort_add_node a ts).
Proof.
  intros Hm x y s Hs Hx.
  assert (dep ts x y) as (s0 & Hs0 & Hx0) by (apply (add_node_dep a); by exists s).
  destruct (Hm x y s0 Hs0 Hx0) as (r & Hr & Hy). cbn. rewrite or_default_lookup. case_decide; [subst; rewrite Hr|]; by eexists.
Qed.

(** Adding a list of edges. *)
Lemma add_edges l : forall ts,
  let ts' := foldl (fun ts w => Topsort_add_dependency w.1 w.2 ts) ts l in
  mirrored ts ->
  mirrored ts' /\ (forall x y, dep ts' x y <-> dep ts x y \/ (x, y) ∈ l) /\
  forall y, y ∈ dom (deps ts') <-> y ∈ dom (deps ts) \/ y ∈ l.*1 \/ y ∈ l.*2.
Proof.
  induction l as [|[a b] l IH]; intros ts ts' Hm; cbn [foldl] in ts'.
  { split_and!; [done| |]; intros; rewrite ?elem_of_nil; naive_solver. }
  destruct (IH (Topsort_add_dependency a b ts) (add_dependency_mirrored a b ts Hm)) as (Hm' & Hd & Hdom). cbn [fst snd] in *.
  split_and!; [done| |].
  - intros x y. unfold ts'. rewrite Hd, add_dependency_dep, elem_of_cons. naive_solver.
  - intros y. unfold ts'. rewrite Hdom, add_dependency_dom, !fmap_cons, !elem_of_cons. cbn. naive_solver.
Qed.

(** A rank that counts down a list. *)
Lemma list_rank (l : list K) : NoDup l -> exists f : K -> nat, forall i x, l !! i = Some x -> f x = i.
Proof.
  induction l as [|x l IH]; intros Hnd; [by exists (fun _ => 0%nat)|].
  apply NoDup_cons in Hnd as [Hx Hnd]. destruct (IH Hnd) as [f Hf].
  exists (fun y => if decide (y = x) then 0%nat else S (f y)). intros [|i] y; cbn.
  - intros [= ->]. by rewrite decide_True.
  - intros Hy. rewrite decide_False; [by rewrite (Hf i y)|]. intros ->. apply Hx. by apply list_elem_of_lookup_2 in Hy.
Qed.

Lemma rank_max (X : gset K) (f : K -> nat) : X <> ∅ -> exists x, x ∈ X /\ forall y, y ∈ X -> (f y <= f x)%nat.
Proof.
  induction X as [|x X Hx IH] using set_ind_L; [done|]. intros _.
  destruct (decide (X = ∅)) as [->|Hne].
  - exists x. split; [set_solver|]. intros y [->%elem_of_singleton|?%not_elem_of_empty]%elem_of_union; [done|done].
  - destruct (IH Hne) as (z & Hz & Hmax). destruct (decide (f z <= f x)%nat) as [Hle|Hgt].
    + exists x. split; [set_solver|]. intros y [->%elem_of_singleton|Hy]%elem_of_union; [done|]. specialize (Hmax y Hy). lia.
    + exists z. split; [set_solver|]. intros y [->%elem_of_singleton|Hy]%elem_of_union; [lia|]. by apply Hmax.
Qed.
End Sorter.

(** ** The loop *)
Section Drain.
Context `{P : Primitives} {T : Type}.
Context (ops : gmap (MemDigest T) (MembershipOperation T * list (MemDigest T))).
Context (dist : gmap (MemDigest T) nat) (succs : gmap (MemDigest T) (list (MemDigest T))).
(** [E x y]: [x] has to come before [y]. *)
Context (E : MemDigest T -> MemDigest T -> Prop).
Hypothesis E_dom : forall x y, E x y -> x ∈ dom ops /\ y ∈ dom ops.
Hypothesis E_succs : forall x y, node_is_revocation ops x = true -> E x y <-> y ∈ default [] (succs !! x) /\ y ∈ dom ops.
Implicit Types ts : @TopologicalSort (MemDigest T) _ _.

(** The sorter still has the nodes [R]. *)
Record pending (R : gset (MemDigest T)) ts : Prop := {
  pd_dom : dom (deps ts) = R;
  pd_ops : R ⊆ dom ops;
  pd_mirrored : mirrored ts;
  pd_in x y : dep ts x y -> x ∈ R;
  pd_rank : exists rank : MemDigest T -> nat, forall x y, dep ts x y -> (rank y < rank x)%nat;
  pd_E x y : E x y -> x ∈ R -> dep ts x y;
}.

(** What has been returned when [R] is left. *)
Record drained (R : gset (MemDigest T)) (out : list (MemDigest T)) : Prop := {
  dr_nodup : NoDup out;
  dr_all k : k ∈ out <-> k ∈ dom ops /\ k ∉ R;
  dr_order l1 y l2 : out = l1 ++ y :: l2 -> forall x, E x y -> x ∈ l1;
}.

Lemma dep_in_dom ts x y : dep ts x y -> y ∈ dom (deps ts).
Proof. intros (s & Hs & _). apply elem_of_dom. by exists s. Qed.

Lemma pending_pop R ts ready ts' :
  pending R ts -> pop_frontier Digest_le ts = (ready, ts') ->
  NoDup ready /\ (forall y, y ∈ ready <-> y ∈ R /\ forall x, ~ dep ts x y) /\
  pending (R ∖ list_to_set ready) ts' /\ (R <> ∅ -> ready <> []).
Proof.
  intros [Hdom Hops Hm Hin [rank Hrank] HE] Hpop.
  destruct (pop_frontier_spec Digest_le ts ready ts' Hm Hpop) as (Hnd & Hready & Hm' & Hdom' & Hdep').
  assert (forall y, y ∈ ready <-> y ∈ R /\ forall x, ~ dep ts x y) as Hr.
  { intros y. rewrite Hready, <- Hdom, elem_of_dom. split.
    - intros Hy. split; [by eexists|]. intros x (s & Hs & Hx). rewrite Hs in Hy. injection Hy as ->. by apply not_elem_of_empty in Hx.
    - intros [[s Hs] Hno]. rewrite Hs. f_equal. apply set_eq. intros x. split; [|by intros ?%not_elem_of_empty].
      intros Hx. destruct (Hno x). by exists s. }
  split_and!; [done|done| |].
  - constructor; [|set_solver|done| |by exists rank; intros x y [? _]%Hdep'; apply Hrank|].
    + apply set_eq. intros y. by rewrite Hdom', Hdom, elem_of_difference, elem_of_list_to_set.
    + intros x y (Hd & _ & Hx)%Hdep'. rewrite elem_of_difference, elem_of_list_to_set. split; [by eapply Hin|done].
    + intros x y Hxy [Hx Hnx]%elem_of_difference. rewrite elem_of_list_to_set in Hnx. apply Hdep'.
      pose proof (HE x y Hxy Hx) as Hd. split_and!; [done| |done]. intros [_ Hno]%Hr. by apply (Hno x).
  - intros Hne Hnil. destruct (rank_max R rank Hne) as (x & Hx & Hmax).
    assert (x ∈ ready) as Hin'; [|rewrite Hnil in Hin'; by apply not_elem_of_nil in Hin'].
    apply Hr. split; [done|]. intros y Hd. specialize (Hmax y (Hin y x Hd)). apply Hrank in Hd. lia.
Qed.

(** What [put_back] adds: a chain through the revocations, and their edges. *)
Definition chain_edges (remaining : list (MemDigest T)) : list (MemDigest T * MemDigest T) :=
  (fun w => (w.2, w.1)) <$> windows2 remaining.
Definition succ_edges (remaining : list (MemDigest T)) : list (MemDigest T * MemDigest T) :=
  remaining ≫= fun r => (fun y => (r, y)) <$> filter (fun y => is_Some (ops !! y)) (default [] (succs !! r)).

Lemma put_back_eq remaining ts :
  put_back ops succs remaining ts =
  foldl (fun ts w => Topsort_add_dependency w.1 w.2 ts)
    (match remaining with
     | [r] => Topsort_add_node r (foldl (fun ts w => Topsort_add_dependency w.1 w.2 ts) ts (chain_edges remaining))
     | _ => foldl (fun ts w => Topsort_add_dependency w.1 w.2 ts) ts (chain_edges remaining)
     end) (succ_edges remaining).
Proof.
  unfold put_back, chain_edges.
  assert (forall l ts, foldl (fun ts w => Topsort_add_dependency w.2 w.1 ts) ts l =
    foldl (fun ts w => Topsort_add_dependency w.1 w.2 ts) ts ((fun w : MemDigest T * MemDigest T => (w.2, w.1)) <$> l)) as ->.
  { induction l as [|w l IH]; intros; [done|]. cbn. by rewrite IH. }
  generalize (match remaining with [r] => Topsort_add_node r (foldl (fun ts w => Topsort_add_dependency w.1 w.2 ts) ts ((λ w, (w.2, w.1)) <$> windows2 remaining)) | _ => foldl (fun ts w => Topsort_add_dependency w.1 w.2 ts) ts ((λ w, (w.2, w.1)) <$> windows2 remaining) end) as t0.
  unfold succ_edges. induction remaining as [|r remaining IH]; intros t0; [done|]. cbn [foldl]. rewrite IH.
  rewrite bind_cons, foldl_app. f_equal. generalize (default [] (succs !! r)) as l. intros l. revert t0.
  induction l as [|y l IHl]; intros t0; [done|]. cbn [foldl]. rewrite IHl. case_bool_decide as Hy.
  - by rewrite filter_cons_True by done.
  - by rewrite filter_cons_False by done.
Qed.

Lemma chain_lookup remaining x y :
  (x, y) ∈ chain_edges remaining <-> exists i, remaining !! i = Some y /\ remaining !! S i = Some x.
Proof.
  unfold chain_edges, windows2. rewrite list_elem_of_fmap. split.
  - intros ([a b] & [= -> ->] & [i Hi]%list_elem_of_lookup). apply lookup_zip_Some in Hi as [Ha Hb]. exists i. by rewrite lookup_tail in Hb.
  - intros (i & Hy & Hx). exists (y, x). split; [done|]. apply list_elem_of_lookup. exists i. apply lookup_zip_Some. by rewrite lookup_tail.
Qed.

Lemma succ_edges_spec remaining x y :
  (forall x, x ∈ remaining -> node_is_revocation ops x = true) -> (x, y) ∈ succ_edges remaining <-> x ∈ remaining /\ E x y.
Proof.
  intros Hrem. unfold succ_edges. rewrite list_elem_of_bind. split.
  - intros (r & Hin & Hr). apply list_elem_of_fmap in Hin as (z & Heq & [Hz Hl]%list_elem_of_filter). injection Heq as -> ->.
    split; [done|]. apply E_succs; [by apply Hrem|]. by rewrite elem_of_dom.
  - intros [Hx Hxy]. exists x. split; [|done]. apply list_elem_of_fmap. exists y. split; [done|].
    apply E_succs in Hxy as [Hy Hk]; [|by apply Hrem]. apply list_elem_of_filter. by rewrite <- elem_of_dom.
Qed.

(** The chain brings back all of the revocations. *)
Lemma chain_dom remaining ts : remaining <> [] -> mirrored ts ->
  let ts1 := foldl (fun ts w => Topsort_add_dependency w.1 w.2 ts) ts (chain_edges remaining) in
  let ts2 := match remaining with [r] => Topsort_add_node r ts1 | _ => ts1 end in
  mirrored ts2 /\ (forall x y, dep ts2 x y <-> dep ts x y \/ (x, y) ∈ chain_edges remaining) /\
  forall y, y ∈ dom (deps ts2) <-> y ∈ dom (deps ts) \/ y ∈ remaining.
Proof.
  intros Hne Hm ts1 ts2. destruct (add_edges (chain_edges remaining) ts Hm) as (Hm1 & Hd1 & Hdom1). fold ts1 in Hm1, Hd1, Hdom1.
  assert (forall y, y ∈ (chain_edges remaining).*1 \/ y ∈ (chain_edges remaining).*2 -> y ∈ remaining) as Hsub.
  { intros y [([a b] & -> & (i & Hb & Ha)%chain_lookup)%list_elem_of_fmap|([a b] & -> & (i & Hb & Ha)%chain_lookup)%list_elem_of_fmap];
      by eapply list_elem_of_lookup_2. }
  destruct remaining as [|r [|r' rest]]; [done| |]; unfold ts2.
  - split_and!; [by apply add_node_mirrored|by intros; rewrite add_node_dep|].
    intros y. rewrite add_node_dom, Hdom1, list_elem_of_singleton. cbn. rewrite !elem_of_nil. naive_solver.
  - split_and!; [done|done|]. intros y. rewrite Hdom1. split; [intros [?|?]; [by left|right; by apply Hsub]|].
    intros [?|Hy]; [by left|right]. apply list_elem_of_lookup in Hy as [[|i] Hy].
    + right. apply list_elem_of_fmap. exists (r', y). split; [done|]. apply chain_lookup. by exists 0%nat.
    + left. destruct (lookup_lt_is_Some_2 (r :: r' :: rest) i) as [z Hz]; [apply lookup_lt_Some in Hy; cbn in *; lia|].
      apply list_elem_of_fmap. exists (y, z). split; [done|]. apply chain_lookup. by exists i.
Qed.

Lemma put_back_pending R ts remaining :
  pending R ts -> NoDup remaining -> remaining <> [] ->
  (forall x, x ∈ remaining -> x ∈ dom ops /\ x ∉ R /\ node_is_revocation ops x = true) ->
  (forall x y, x ∈ remaining -> E x y -> y ∈ R) ->
  pending (R ∪ list_to_set remaining) (put_back ops succs remaining ts).
Proof.
  intros [Hdom Hops Hm Hin [rank Hrank] HE] Hnd Hne Hrem Hsucc. rewrite put_back_eq.
  destruct (chain_dom remaining ts Hne Hm) as (Hm2 & Hd2 & Hdom2). cbn zeta in *. set (ts2 := match remaining with [r] => _ | _ => _ end) in *.
  destruct (add_edges (succ_edges remaining) ts2 Hm2) as (Hm3 & Hd3 & Hdom3). set (ts3 := foldl _ ts2 _) in *.
  pose proof (fun x y => succ_edges_spec remaining x y (fun z Hz => proj2 (proj2 (Hrem z Hz)))) as Hse.
  assert (forall x y, dep ts3 x y <-> dep ts x y \/ (x, y) ∈ chain_edges remaining \/ (x ∈ remaining /\ E x y)) as Hdep.
  { intros x y. rewrite Hd3, Hd2, Hse. tauto. }
  constructor; [| |done| | |].
  - apply set_eq. intros y. rewrite Hdom3, Hdom2, Hdom, elem_of_union, elem_of_list_to_set. split; [|naive_solver].
    intros [?|[([a b] & -> & [Ha _]%Hse)%list_elem_of_fmap|([a b] & -> & [Ha Hb]%Hse)%list_elem_of_fmap]]; [done|by right|].
    left. by apply (Hsucc a).
  - intros x [Hx|Hx%elem_of_list_to_set]%elem_of_union; [by apply Hops|by apply Hrem].
  - intros x y [Hd|[(i & _ & Hx)%chain_lookup|[Hx _]]]%Hdep; apply elem_of_union; rewrite elem_of_list_to_set;
      [left; by eapply Hin|right; by eapply list_elem_of_lookup_2|by right].
  - destruct (list_rank remaining Hnd) as [f Hf]. set (m := max_list (rank <$> elements R)).
    assert (forall x, x ∈ R -> (rank x <= m)%nat) as Hm'.
    { intros x Hx. apply max_list_elem_of_le, list_elem_of_fmap. exists x. split; [done|]. by apply elem_of_elements. }
    exists (fun x => if decide (x ∈ remaining) then S (m + f x) else rank x). intros x y [Hd|[(i & Hy & Hx)%chain_lookup|[Hx Hxy]]]%Hdep.
    + pose proof (Hin x y Hd) as HxR. assert (y ∈ R) as HyR by (rewrite <- Hdom; by eapply dep_in_dom).
      rewrite !decide_False by (intros Hbad%Hrem; naive_solver). by apply Hrank.
    + rewrite !decide_True by (by eapply list_elem_of_lookup_2). rewrite (Hf _ _ Hx), (Hf _ _ Hy). lia.
    + pose proof (Hsucc x y Hx Hxy) as HyR. rewrite (decide_True (P := x ∈ remaining)) by done.
      rewrite (decide_False (P := y ∈ remaining)) by (intros Hbad%Hrem; naive_solver).
      specialize (Hm' y HyR). lia.
  - intros x y Hxy [Hx|Hx%elem_of_list_to_set]%elem_of_union; apply Hdep; [left; by apply HE|by auto].
Qed.

Lemma drained_extend R out new :
  drained R out -> R ⊆ dom ops -> NoDup new -> (forall y, y ∈ new -> y ∈ R /\ forall x, E x y -> x ∉ R) ->
  drained (R ∖ list_to_set new) (out ++ new).
Proof.
  intros [Hnd Hall Hord] HR Hnew Hn. constructor.
  - apply NoDup_app. split_and!; [done| |done]. intros k [_ Hk]%Hall Hk'. by apply Hk, Hn.
  - intros k. rewrite elem_of_app, Hall, not_elem_of_difference, elem_of_list_to_set. split.
    + intros [[? ?]|Hk]; [split; [done|by left]|]. split; [by apply HR, Hn|by right].
    + intros [Hk [?|?]]; [left; by split|by right].
  - intros l1 y l2 Heq x Hxy. pose proof (E_dom _ _ Hxy) as [Hx _].
    apply app_eq_inv in Heq as [(k & -> & Hk)|(k & -> & Hk)].
    + destruct k as [|z k].
      * rewrite app_nil_r in *. apply Hall. split; [done|]. apply (Hn y); [|done]. cbn in Hk. subst new. by left.
      * injection Hk as -> ->. by eapply Hord.
    + apply elem_of_app. left. apply Hall. split; [done|]. apply (Hn y); [|done]. subst new. apply elem_of_app. right. by left.
Qed.

(** One round of the loop. *)
Lemma partition_nodup (batch : list (MemDigest T)) : NoDup batch ->
  filter (fun d => node_is_revocation ops d = false) batch ++ filter (fun d => node_is_revocation ops d = true) batch ≡ₚ batch.
Proof.
  intros Hnd. apply NoDup_Permutation; [|done|].
  - apply NoDup_app. split_and!; [by apply NoDup_filter| |by apply NoDup_filter].
    intros x [Hf _]%list_elem_of_filter [Ht _]%list_elem_of_filter. congruence.
  - intros x. rewrite elem_of_app, !list_elem_of_filter. destruct (node_is_revocation ops x); naive_solver.
Qed.

Lemma removed_smaller (R X : gset (MemDigest T)) y : y ∈ R -> y ∈ X -> (size (R ∖ X) < size R)%nat.
Proof. intros HR HX. apply subset_size. split; [set_solver|]. intros Hsub. apply Hsub in HR. set_solver. Qed.

(** A round that puts all of its frontier but [new] back. *)
Lemma put_back_round R ts batch new remaining :
  pending (R ∖ list_to_set batch) ts -> NoDup batch -> new ++ remaining ≡ₚ batch -> remaining <> [] ->
  (forall x, x ∈ remaining -> node_is_revocation ops x = true) -> (forall y, y ∈ batch -> y ∈ R) -> R ⊆ dom ops ->
  (forall x y, x ∈ batch -> E x y -> y ∈ R ∖ list_to_set batch) ->
  pending (R ∖ list_to_set new) (put_back ops succs remaining ts).
Proof.
  intros Hp Hnd Hperm Hne Hrev Hin HR Hafter. rewrite <- Hperm in Hnd. apply NoDup_app in Hnd as (Hnd1 & Hdisj & Hnd2).
  assert (forall x, x ∈ remaining -> x ∈ batch) as Hsub by (intros x Hx; rewrite <- Hperm; apply elem_of_app; by right).
  assert (R ∖ list_to_set batch ∪ list_to_set remaining = R ∖ list_to_set new) as <-.
  { apply set_eq. intros x. rewrite elem_of_union, !elem_of_difference, !elem_of_list_to_set, <- Hperm, elem_of_app.
    specialize (Hdisj x). specialize (Hsub x). specialize (Hin x). destruct (decide (x ∈ remaining)); tauto. }
  apply put_back_pending; [done|done|done| |].
  - intros x Hx. split_and!; [by apply HR, Hin, Hsub| |by apply Hrev]. rewrite elem_of_difference, elem_of_list_to_set.
    intros [_ Hnb]. by apply Hnb, Hsub.
  - intros x y Hx Hxy. by apply (Hafter x), Hxy; apply Hsub.
Qed.

Lemma drain_ok fuel : forall R ts out,
  pending R ts -> drained R out -> (size R <= fuel)%nat ->
  exists out', drain fuel ops dist succs ts out = Some out' /\ drained ∅ out'.
Proof.
  induction fuel as [|fuel IH]; intros R ts out Hp Hd Hf; cbn [drain]; unfold Topsort_is_empty; case_bool_decide as He.
  1, 3: exists out; split; [done|]; assert (R = ∅) as -> by (by rewrite <- (pd_dom _ _ Hp), He, dom_empty_L); done.
  { destruct He. apply dom_empty_inv_L. rewrite (pd_dom _ _ Hp). apply leibniz_equiv, size_empty_inv. lia. }
  assert (R <> ∅) as Hne by (intros ->; apply He, dom_empty_inv_L, (pd_dom _ _ Hp)).
  destruct (pop_frontier Digest_le ts) as [batch ts'] eqn:Hpop.
  destruct (pending_pop R ts batch ts' Hp Hpop) as (Hnd & Hready & Hp' & Hbatch). specialize (Hbatch Hne).
  assert (exists y, y ∈ batch) as [y0 Hy0] by (destruct batch as [|y l]; [done|exists y; by left]).
  destruct batch as [|b0 bs] eqn:Hb; [done|]. rewrite <- Hb in *. clear Hb b0 bs.
  set (revs := filter (fun d => node_is_revocation ops d = true) batch). set (oth := merge_sort Digest_le _).
  assert (oth ++ revs ≡ₚ batch) as Hperm by (unfold oth; rewrite merge_sort_Permutation; by apply partition_nodup).
  assert (forall y, y ∈ batch -> y ∈ R /\ forall x, E x y -> x ∉ R) as Hfree.
  { intros y [Hy Hno]%Hready. split; [done|]. intros x Hxy Hx. by apply (Hno x), (pd_E _ _ Hp). }
  assert (forall new, new ⊆ batch -> NoDup new -> drained (R ∖ list_to_set new) (out ++ new)) as Hext.
  { intros new Hsub Hn. apply drained_extend; [done|apply (pd_ops _ _ Hp)|done|]. intros y Hy. by apply Hfree, Hsub. }
  assert (forall new y, new ⊆ batch -> y ∈ new -> (size (R ∖ list_to_set new) <= fuel)%nat) as Hsize.
  { intros new y Hsub Hy. enough (size (R ∖ list_to_set new) < size R)%nat by lia.
    apply (removed_smaller _ _ y); [by apply Hfree, Hsub|by apply elem_of_list_to_set]. }
  destruct (Nat.leb_spec (length revs) 1) as [Hle|Hgt].
  - rewrite <- (app_assoc out). assert (list_to_set batch = (list_to_set (oth ++ revs) : gset (MemDigest T))) as Hset by (apply list_to_set_perm_L; by symmetry).
    rewrite Hset in Hp'. apply (IH (R ∖ list_to_set (oth ++ revs))); [done|apply Hext|apply (Hsize _ y0)]; by rewrite ?Hperm.
  - pose proof (merge_sort_Permutation (seniority dist) revs) as Hrevs. destruct (merge_sort (seniority dist) revs) as [|first remaining].
    { apply Permutation_nil_l in Hrevs. rewrite <- Hrevs in Hgt. cbn in Hgt. lia. }
    rewrite <- (app_assoc out). assert ((oth ++ [first]) ++ remaining ≡ₚ batch) as Hperm' by (by rewrite <- app_assoc, <- Hperm, <- Hrevs).
    assert (oth ++ [first] ⊆ batch) as Hsub by (intros x Hx; rewrite <- Hperm'; apply elem_of_app; by left).
    apply (IH (R ∖ list_to_set (oth ++ [first])));
      [|apply Hext; [done|]; rewrite <- Hperm' in Hnd; by apply NoDup_app in Hnd as [? _]|
        apply (Hsize _ first); [done|apply elem_of_app; right; by left]].
    apply (put_back_round R ts' batch); [done|done|done| | |by intros y [? _]%Hfree|apply (pd_ops _ _ Hp)|].
    + intros ->. apply Permutation_length in Hrevs. cbn in Hrevs. lia.
    + intros x Hx. assert (x ∈ revs) as [Hr _]%list_elem_of_filter by (rewrite <- Hrevs; by right). done.
    + intros x y Hx Hxy. pose proof (pd_E _ _ Hp x y Hxy (proj1 (Hfree x Hx))) as Hdep.
      rewrite elem_of_difference, elem_of_list_to_set. split; [rewrite <- (pd_dom _ _ Hp); by eapply dep_in_dom|].
      intros [_ Hno]%Hready. by apply (Hno x).
Qed.
End Drain.
