(* ===== verification/MemberOrder.v ===== *)
(** * The order of a membership history

    [reverse_topsort] returns every operation of the history once, children
    before the operations they come after, and every delegation before a
    revocation of its proof.  The result does not depend on the order of the
    heads, as long as no delegation is revoked twice. *)

From S2P Require Import Prelude TreeMath Crypto Signed TopSort Membership MemberSort MemberExplore MemberDrain.

(** The heads of a history: those of delegations, then those of revocations. *)
Abbreviation heads_of dlgs revs := ((OpDelegation <$> dlgs) ++ (OpRevocation <$> revs)).

Section Order.
Context `{P : Primitives} {T : Type}.
Context `{Ssd : !Serialize (Signed (StaticDelegation T)), Ssr : !Serialize (Signed (StaticRevocation T))}.

(** ** The edges *)

(** What the code links a node to. *)
Definition edges_of (e : @explored T) (k : MemDigest T) : list (MemDigest T) :=
  match all_ops e !! k with
  | None => []
  | Some (op, ps) =>
      filter (fun y => is_Some (all_ops e !! y))
        (ps ++ match op with
               | OpDelegation d => option_list (proof (payload d) ≫= fun p => revoked_dependencies e !! signature p)
               | OpRevocation _ => []
               end)
  end.

(** [x] is returned before [y]. *)
Definition returned_before (e : @explored T) (x y : MemDigest T) : Prop := y ∈ edges_of e x.

Lemma link_edges (e : @explored T) (k : MemDigest T) (l : list (MemDigest T)) : forall a : @adjacency T,
  foldl (link_known (all_ops e) k) a l =
    mkAdjacency (foldl (fun ts w => Topsort_add_dependency w.1 w.2 ts) (adjacencies a)
                   ((fun y => (k, y)) <$> filter (fun y => is_Some (all_ops e !! y)) l))
      (match filter (fun y => is_Some (all_ops e !! y)) l with
       | [] => successors_of a
       | ys => <[k := default [] (successors_of a !! k) ++ ys]> (successors_of a)
       end).
Proof.
  induction l as [|y l IH]; intros a; [by destruct a|]. cbn [foldl]. unfold link_known at 2. case_bool_decide as Hy.
  - rewrite filter_cons_True by done. rewrite IH. unfold link at 1. cbn [adjacencies successors_of fmap list_fmap foldl fst snd]. f_equal.
    destruct (filter _ l) as [|z zs]; cbn [successors_of link]; [done|].
    rewrite insert_insert_eq, lookup_insert_eq. cbn [from_option id]. by rewrite <- app_assoc.
  - rewrite filter_cons_False by done. apply IH.
Qed.

Lemma add_op_edges_eq (e : @explored T) (a : @adjacency T) k op ps :
  all_ops e !! k = Some (op, ps) ->
  add_op_edges e a k =
    mkAdjacency (foldl (fun ts w => Topsort_add_dependency w.1 w.2 ts) (Topsort_add_node k (adjacencies a))
                   ((fun y => (k, y)) <$> edges_of e k))
      (match edges_of e k with [] => successors_of a | ys => <[k := default [] (successors_of a !! k) ++ ys]> (successors_of a) end).
Proof.
  intros Hk. unfold add_op_edges, edges_of. rewrite Hk.
  set (a0 := mkAdjacency (Topsort_add_node k (adjacencies a)) (successors_of a)).
  transitivity (foldl (link_known (all_ops e) k) a0
    (ps ++ match op with
           | OpDelegation d => option_list (proof (payload d) ≫= fun p => revoked_dependencies e !! signature p)
           | OpRevocation _ => []
           end)); [|by rewrite link_edges].
  rewrite foldl_app. destruct op as [d|r]; [|done]. by destruct (proof (payload d) ≫= _).
Qed.

(** The graph after the nodes [l]. *)
Record built (e : @explored T) (l : list (MemDigest T)) (a : @adjacency T) : Prop := {
  bt_mirrored : mirrored (adjacencies a);
  bt_dep x y : dep (adjacencies a) x y <-> x ∈ l /\ returned_before e x y;
  bt_dom y : y ∈ dom (deps (adjacencies a)) <-> y ∈ l \/ exists x, x ∈ l /\ returned_before e x y;
  bt_succs x : default [] (successors_of a !! x) = if decide (x ∈ l) then edges_of e x else [];
}.

Lemma built_step (e : @explored T) l a k :
  built e l a -> k ∉ l -> is_Some (all_ops e !! k) -> built e (l ++ [k]) (add_op_edges e a k).
Proof.
  intros [Hm Hdep Hdom Hsucc] Hk [[op ps] Hop]. rewrite (add_op_edges_eq e a k op ps Hop).
  destruct (add_edges ((fun y => (k, y)) <$> edges_of e k) (Topsort_add_node k (adjacencies a)) (add_node_mirrored _ _ Hm))
    as (Hm' & Hdep' & Hdom'). cbn zeta in *.
  assert (forall x y, (x, y) ∈ (fun y => (k, y)) <$> edges_of e k <-> x = k /\ returned_before e k y) as Hpair.
  { intros x y. rewrite list_elem_of_fmap. unfold returned_before. split; [intros (z & [= -> ->] & ?); done|intros [-> ?]; by exists y]. }
  constructor; cbn [adjacencies successors_of].
  - done.
  - intros x y. rewrite Hdep', add_node_dep, Hdep, Hpair, elem_of_app, list_elem_of_singleton. naive_solver.
  - intros y. rewrite Hdom', add_node_dom, Hdom. setoid_rewrite elem_of_app. setoid_rewrite list_elem_of_singleton. split.
    + intros [[[?|(x & ? & ?)]|?]|[([x z] & -> & [-> Hz]%Hpair)%list_elem_of_fmap|([x z] & -> & [-> Hz]%Hpair)%list_elem_of_fmap]];
        cbn; eauto 6.
    + intros [[?|?]|(x & [?| ->] & Hy)]; eauto 6. right. right. apply list_elem_of_fmap. exists (k, y). by rewrite Hpair.
  - intros x. destruct (decide (x = k)) as [->|Hne].
    + rewrite decide_True by (apply elem_of_app; right; by left). specialize (Hsucc k). rewrite decide_False in Hsucc by done.
      destruct (edges_of e k) as [|y ys] eqn:He; [done|]. by rewrite lookup_insert_eq, Hsucc.
    + transitivity (default [] (successors_of a !! x)); [by destruct (edges_of e k); rewrite ?lookup_insert_ne|].
      rewrite Hsucc. by destruct (decide (x ∈ l)), (decide (x ∈ l ++ [k])); set_solver.
Qed.

Lemma build_adjacency_ok (e : @explored T) : built e (sorted_keys (all_ops e)) (build_adjacency e).
Proof.
  assert (forall k, k ∈ sorted_keys (all_ops e) -> is_Some (all_ops e !! k)) as Hin.
  { intros k. unfold sorted_keys. rewrite merge_sort_Permutation. intros ([k' v] & -> & Hk%elem_of_map_to_list)%list_elem_of_fmap. by exists v. }
  assert (NoDup (sorted_keys (all_ops e))) as Hnd.
  { unfold sorted_keys. rewrite merge_sort_Permutation. apply NoDup_fst_map_to_list. }
  unfold build_adjacency. induction (sorted_keys (all_ops e)) as [|k l IH] using rev_ind.
  - constructor; cbn.
    + by intros x y s Hs.
    + intros x y. split; [by intros (s & Hs & _)|by intros [?%not_elem_of_nil _]].
    + intros y. rewrite dom_empty_L, elem_of_nil. split; [by intros ?%not_elem_of_empty|by intros [?|(x & ?%not_elem_of_nil & _)]].
    + intros x. by rewrite decide_False by apply not_elem_of_nil.
  - rewrite foldl_snoc. apply NoDup_app in Hnd as (Hnd & Hdisj & _). apply built_step.
    + apply IH; [|done]. intros x Hx. apply Hin, elem_of_app. by left.
    + intros Hk. apply (Hdisj k Hk). by left.
    + apply Hin, elem_of_app. right. by left.
Qed.

(** ** Histories *)

(** What the theorems ask of a history: digests and signatures identify its
    operations, and every revocation was accepted with a proof that is the
    revoked delegation or one of its ancestors. *)
Record sound_history (heads : list (MembershipOperation T)) : Prop := {
  sh_digests : distinct_digests heads;
  sh_signatures (d d' : SignedDelegation T) :
    reaches heads (OpDelegation d) -> reaches heads (OpDelegation d') -> signature d = signature d' -> d = d';
  sh_proofs (r : SignedRevocation T) p : reaches heads (OpRevocation r) -> rev_proof (payload r) = Some p ->
    p = revoke (payload r) \/ p ∈ proof_lineage (payload (revoke (payload r)));
}.

Definition revoked_once (heads : list (MembershipOperation T)) : Prop :=
  forall r r' : SignedRevocation T, reaches heads (OpRevocation r) -> reaches heads (OpRevocation r') ->
    signature (revoke (payload r)) = signature (revoke (payload r')) -> r = r'.

Lemma sound_history_perm l l' : l ≡ₚ l' -> sound_history l -> sound_history l'.
Proof.
  intros Hp [Hd Hs Hr]. assert (forall op, reaches l' op -> reaches l op) as Hsub by (intros op; by apply reaches_perm).
  constructor; [intros a b ??; apply Hd; auto|intros d d' ??; apply Hs; auto|intros r p ?; apply Hr; auto].
Qed.

(** Delegations by size, a revocation right after what it revokes. *)
Definition op_rank (op : MembershipOperation T) : nat :=
  match op with
  | OpDelegation d => 2 * dlg_size (payload d)
  | OpRevocation r => 2 * dlg_size (payload (revoke (payload r))) + 1
  end.

Lemma reaches_revoked heads (r : SignedRevocation T) :
  reaches heads (OpRevocation r) -> reaches heads (OpDelegation (revoke (payload r))).
Proof. intros Hr. apply (reaches_after _ _ _ Hr), after_auth_revoke. Qed.

Lemma reaches_proof heads (d : SignedDelegation T) p :
  reaches heads (OpDelegation d) -> proof (payload d) = Some p -> reaches heads (OpDelegation p).
Proof. intros Hd Hp. by apply (reaches_after _ _ _ Hd), after_auth_proof. Qed.

Lemma after_auth_rank heads op p : sound_history heads -> reaches heads op -> p ∈ after_auth op -> (op_rank p < op_rank op)%nat.
Proof.
  intros Hs Hop Hp. pose proof (after_auth_smaller op p Hp) as Hsize.
  unfold after_auth in Hp. apply elem_of_app in Hp as [(d & -> & Hd)%list_elem_of_fmap|(r & -> & Hr)%list_elem_of_fmap].
  - destruct op as [d0|r0]; cbn in *; [lia|]. apply elem_of_cons in Hd as [->|Hd]; [lia|].
    assert (rev_proof (payload r0) = Some d) as Hp0 by (by destruct (rev_proof (payload r0)); cbn in Hd; [apply list_elem_of_singleton in Hd as ->|apply not_elem_of_nil in Hd]).
    destruct (sh_proofs _ Hs r0 d Hop Hp0) as [->|Hin%lineage_smaller]; lia.
  - pose proof (after_auth_smaller _ _ (after_auth_revoke r)) as Hrev.
    destruct op as [d0|r0]; cbn in *; [lia|by apply not_elem_of_nil in Hr].
Qed.

Lemma edges_spec heads e x y : collected heads e ->
  returned_before e x y <-> exists op, reaches heads op /\ x = op_digest op /\
    ((exists p, p ∈ after_auth op /\ y = op_digest p) \/
     exists d p, op = OpDelegation d /\ proof (payload d) = Some p /\ revoked_dependencies e !! signature p = Some y).
Proof.
  intros Hc. unfold returned_before, edges_of. split.
  - destruct (all_ops e !! x) as [[op ps]|] eqn:Hx; [|by intros ?%not_elem_of_nil].
    apply (cd_ops _ _ Hc) in Hx as (Hop & -> & ->). intros [_ [(p & -> & Hp)%list_elem_of_fmap|Hy]%elem_of_app]%list_elem_of_filter; exists op.
    + split_and!; [done|done|]. left. by exists p.
    + split_and!; [done|done|]. right. destruct op as [d|r]; [|by apply not_elem_of_nil in Hy].
      destruct (proof (payload d)) as [p|] eqn:Hp; [|by apply not_elem_of_nil in Hy]. cbn in Hy.
      destruct (revoked_dependencies e !! signature p) as [k|] eqn:Hk; [|by apply not_elem_of_nil in Hy].
      apply list_elem_of_singleton in Hy as ->. by exists d, p.
  - intros (op & Hop & -> & Hy). rewrite (known_reached heads e Hc op Hop). apply list_elem_of_filter. destruct Hy as [(p & Hp & ->)|(d & p & -> & Hp & Hy)].
    + split; [rewrite (known_reached heads e Hc p); [by eexists|by apply (reaches_after _ op)]|].
      apply elem_of_app. left. apply list_elem_of_fmap. by exists p.
    + destruct (cd_revoked _ _ Hc _ _ Hy) as (r & Hr & -> & _). split; [rewrite (known_reached heads e Hc _ Hr); by eexists|].
      apply elem_of_app. right. rewrite Hp. cbn. rewrite Hy. left.
Qed.

Lemma returned_before_rank heads e : sound_history heads -> collected heads e ->
  exists rank : MemDigest T -> nat, forall x y, returned_before e x y -> (rank y < rank x)%nat.
Proof.
  intros Hs Hc. exists (fun k => match all_ops e !! k with Some (op, _) => op_rank op | None => 0%nat end).
  intros x y (op & Hop & -> & Hy)%(edges_spec heads); [|done]. rewrite (known_reached heads e Hc op Hop).
  destruct Hy as [(p & Hp & ->)|(d & p & -> & Hp & Hy)].
  - rewrite (known_reached heads e Hc p) by (by apply (reaches_after _ op)). by apply (after_auth_rank heads).
  - destruct (cd_revoked _ _ Hc _ _ Hy) as (r & Hr & -> & Hsig). rewrite (known_reached heads e Hc _ Hr).
    assert (revoke (payload r) = p) as Heq
      by (apply (sh_signatures _ Hs); [by apply reaches_revoked|by apply (reaches_proof _ d)|done]).
    cbn. rewrite Heq. enough (dlg_size (payload p) < dlg_size (payload d))%nat by lia.
    by apply (after_auth_smaller (OpDelegation d) (OpDelegation p)), after_auth_proof.
Qed.

(** ** The result *)


(** [l] lists the history: every operation once, after every operation that
    comes after it, and a revoked delegation has a revocation after all
    delegations it proves. *)
Record sorted_history (heads l : list (MembershipOperation T)) : Prop := {
  so_nodup : NoDup l;
  so_all op : op ∈ l <-> reaches heads op;
  so_after l1 op l2 child : l = l1 ++ op :: l2 -> reaches heads child -> op ∈ after_auth child -> child ∈ l1;
  so_revoked (r : SignedRevocation T) : reaches heads (OpRevocation r) -> exists r', reaches heads (OpRevocation r') /\
    signature (revoke (payload r')) = signature (revoke (payload r)) /\
    forall l1 l2 d p, l = l1 ++ OpRevocation r' :: l2 -> reaches heads (OpDelegation d) -> proof (payload d) = Some p ->
      signature p = signature (revoke (payload r)) -> OpDelegation d ∈ l1;
}.

Lemma built_pending heads e : sound_history heads -> collected heads e ->
  pending (all_ops e) (returned_before e) (dom (all_ops e)) (adjacencies (build_adjacency e)) /\
  (forall x, default [] (successors_of (build_adjacency e) !! x) = edges_of e x).
Proof.
  intros Hs Hc. destruct (build_adjacency_ok e) as [Hm Hdep Hdom Hsucc].
  assert (forall k, k ∈ sorted_keys (all_ops e) <-> k ∈ dom (all_ops e)) as Hkeys.
  { intros k. unfold sorted_keys. rewrite merge_sort_Permutation, elem_of_dom, list_elem_of_fmap. split.
    - intros ([k' v] & -> & Hk%elem_of_map_to_list). by exists v.
    - intros [v Hv]. exists (k, v). split; [done|]. by apply elem_of_map_to_list. }
  assert (forall x y, returned_before e x y -> y ∈ dom (all_ops e)) as Hy.
  { intros x y. unfold returned_before, edges_of. destruct (all_ops e !! x) as [[op ps]|]; [|by intros ?%not_elem_of_nil].
    intros [Hy _]%list_elem_of_filter. by apply elem_of_dom. }
  split.
  - constructor; [|done|done| |destruct (returned_before_rank heads e Hs Hc) as [rank Hr]; exists rank; by intros x y [_ ?]%Hdep; auto|].
    + apply set_eq. intros y. rewrite Hdom, Hkeys. split; [intros [?|(x & _ & ?)]; [done|by eapply Hy]|by left].
    + intros x y [Hx _]%Hdep. by apply Hkeys.
    + intros x y Hxy Hx. apply Hdep. by rewrite Hkeys.
  - intros x. rewrite Hsucc. case_decide as Hx; [done|]. unfold edges_of. rewrite Hkeys in Hx. by rewrite (not_elem_of_dom_1 _ _ Hx).
Qed.

Lemma mapM_known heads e out : collected heads e -> (forall k, k ∈ out -> k ∈ dom (all_ops e)) ->
  exists l, mapM (fun d => (fun op => (d, op.1)) <$> all_ops e !! d) out = Some ((fun op => (op_digest op, op)) <$> l) /\
    out = op_digest <$> l /\ forall op, op ∈ l -> reaches heads op.
Proof.
  intros Hc. induction out as [|k out IH]; intros Hin; [by exists []; split_and!; [done..|intros ? ?%not_elem_of_nil]|].
  destruct IH as (l & Hl & -> & Hr); [intros x Hx; apply Hin; by right|].
  assert (k ∈ dom (all_ops e)) as [[op ps] Hk]%elem_of_dom by (apply Hin; left).
  pose proof (proj1 (cd_ops _ _ Hc _ _ _) Hk) as (Hop & -> & _). exists (op :: l). cbn [mapM]. rewrite Hk. cbn. rewrite Hl. cbn.
  split_and!; [done..|]. intros x [->|Hx]%elem_of_cons; [done|by apply Hr].
Qed.

Lemma reverse_topsort_ok dlgs revs : sound_history (heads_of dlgs revs) ->
  exists l, reverse_topsort dlgs revs = Some ((fun op => (op_digest op, op)) <$> l) /\ sorted_history (heads_of dlgs revs) l.
Proof.
  intros Hs. set (heads := heads_of dlgs revs) in *. pose proof (sh_digests _ Hs) as Hd.
  destruct (explore_heads_ok heads Hd) as (e & He & Hc). destruct (distance_to_root_ok heads e Hc Hd) as (dist & Hdist & _).
  destruct (built_pending heads e Hs Hc) as [Hpend Hsucc].
  assert (forall x y, returned_before e x y -> x ∈ dom (all_ops e) /\ y ∈ dom (all_ops e)) as Hdom.
  { intros x y Hxy. split; [|rewrite <- (pd_dom _ _ _ _ Hpend); eapply dep_in_dom, (pd_E _ _ _ _ Hpend); [done|]];
      unfold returned_before, edges_of in Hxy; apply elem_of_dom; (destruct (all_ops e !! x) as [[op ps]|]; [by eexists|by apply not_elem_of_nil in Hxy]). }
  destruct (drain_ok (all_ops e) dist (successors_of (build_adjacency e)) (returned_before e) Hdom) with (fuel := size (all_ops e))
    (R := dom (all_ops e)) (ts := adjacencies (build_adjacency e)) (out := @nil (MemDigest T)) as (out & Hout & [Hnd Hall Hord]).
  { intros x y _. rewrite Hsucc. split; [intros Hxy; split; [done|by apply (Hdom x y)]|by intros [? _]]. }
  { done. }
  { constructor; [constructor| |by intros [|] ? ? ?]. intros k. rewrite elem_of_nil. naive_solver. }
  { by rewrite size_dom. }
  destruct (mapM_known heads e out Hc) as (l & Hl & -> & Hr); [intros k Hk; by apply Hall in Hk as [? _]|].
  assert (forall x, reaches heads x -> op_digest x ∈ op_digest <$> l -> x ∈ l) as Hin.
  { intros x Hx (z & Hz & Hzl)%list_elem_of_fmap. by rewrite (Hd x z Hx (Hr z Hzl) Hz). }
  assert (forall x y l1 l2, l = l1 ++ y :: l2 -> reaches heads x -> returned_before e (op_digest x) (op_digest y) -> x ∈ l1) as Hbefore.
  { intros x y l1 l2 -> Hx Hxy. rewrite fmap_app, fmap_cons in Hord. specialize (Hord _ _ _ eq_refl _ Hxy) as (z & Hz & Hzl)%list_elem_of_fmap.
    rewrite (Hd x z Hx); [done| |done]. apply Hr, elem_of_app. by left. }
  exists l. split.
  { unfold reverse_topsort. fold heads. rewrite He. cbn. rewrite Hdist. cbn. rewrite Hout. cbn. exact Hl. }
  constructor.
  - by apply (NoDup_fmap_1 op_digest).
  - intros op. split; [apply Hr|]. intros Hop. apply Hin; [done|]. apply Hall. split; [|apply not_elem_of_empty].
    apply elem_of_dom. rewrite (known_reached heads e Hc op Hop). by eexists.
  - intros l1 op l2 child Heq Hchild Hop. apply (Hbefore child op l1 l2 Heq Hchild). apply (edges_spec heads); [done|].
    exists child. split_and!; [done..|]. left. by exists op.
  - intros r Hrr. destruct (cd_revocations _ _ Hc r Hrr) as [k Hk]. destruct (cd_revoked _ _ Hc _ _ Hk) as (r' & Hr' & -> & Hsig).
    exists r'. split_and!; [done..|]. intros l1 l2 d p Heq Hdr Hp Hsp. apply (Hbefore _ _ l1 l2 Heq Hdr). apply (edges_spec heads); [done|].
    exists (OpDelegation d). split_and!; [done..|]. right. exists d, p. by rewrite Hsp.
Qed.

(** Exploring permuted heads gives the same maps. *)
Lemma collected_unique heads heads' e e' :
  heads ≡ₚ heads' -> revoked_once heads -> collected heads e -> collected heads' e' -> e = e'.
Proof.
  intros Hp Honce Hc Hc'. destruct e as [ops rd], e' as [ops' rd']. f_equal.
  - apply map_eq. intros k. apply option_eq. intros [op ps].
    pose proof (cd_ops _ _ Hc k op ps) as H1. pose proof (cd_ops _ _ Hc' k op ps) as H2. cbn in H1, H2. rewrite H1, H2, (reaches_perm heads heads' op Hp). reflexivity.
  - assert (forall r, reaches heads' (OpRevocation r) <-> reaches heads (OpRevocation r)) as Hr by (intros r; by rewrite (reaches_perm heads heads' _ Hp)).
    apply map_eq. intros s. apply option_eq. intros k. split; intros Hk.
    + destruct (cd_revoked _ _ Hc s k Hk) as (r & Hrr & -> & ->). destruct (cd_revocations _ _ Hc' r) as [k' Hk']; [by apply Hr|].
      destruct (cd_revoked _ _ Hc' _ _ Hk') as (r' & Hrr' & -> & Hsig). cbn in *. by rewrite <- (Honce r r' Hrr (proj1 (Hr r') Hrr') Hsig) in Hk'.
    + destruct (cd_revoked _ _ Hc' s k Hk) as (r & Hrr & -> & ->). destruct (cd_revocations _ _ Hc r) as [k' Hk']; [by apply Hr|].
      destruct (cd_revoked _ _ Hc _ _ Hk') as (r' & Hrr' & -> & Hsig). cbn in *. by rewrite <- (Honce r r' (proj1 (Hr r) Hrr) Hrr' Hsig) in Hk'.
Qed.

Lemma reverse_topsort_perm dlgs revs dlgs' revs' :
  dlgs ≡ₚ dlgs' -> revs ≡ₚ revs' -> sound_history (heads_of dlgs revs) -> revoked_once (heads_of dlgs revs) ->
  reverse_topsort dlgs revs = reverse_topsort dlgs' revs'.
Proof.
  intros Hpd Hpr Hs Honce. assert (heads_of dlgs revs ≡ₚ heads_of dlgs' revs') as Hp by (by rewrite Hpd, Hpr).
  pose proof (sound_history_perm _ _ Hp Hs) as Hs'.
  destruct (explore_heads_ok _ (sh_digests _ Hs)) as (e & He & Hc). destruct (explore_heads_ok _ (sh_digests _ Hs')) as (e' & He' & Hc').
  unfold reverse_topsort. rewrite He, He'. by rewrite (collected_unique _ _ e e' Hp Honce Hc Hc').
Qed.
End Order.


(** The order does not depend on the order in which the stores give out
    their heads, as long as no delegation is revoked twice. *)
Theorem reverse_topsort_stable `{P : Primitives} {T : Type}
    `{Ssd : !Serialize (Signed (StaticDelegation T)), Ssr : !Serialize (Signed (StaticRevocation T))}
    (dlgs dlgs' : list (SignedDelegation T)) revs revs' :
  dlgs ≡ₚ dlgs' -> revs ≡ₚ revs' -> sound_history (heads_of dlgs revs) -> revoked_once (heads_of dlgs revs) ->
  reverse_topsort dlgs revs = reverse_topsort dlgs' revs'.
Proof. apply reverse_topsort_perm. Qed.
