(* ===== verification/GroupState.v ===== *)
(** * The causal state of a group
    ([keyhive/keyhive_core/src/principal/group/state.rs], [group/error.rs],
    [store/delegation.rs], [store/revocation.rs])

    The heads of a group's history, and the stores of delegations and
    revocations, which all groups of a keyhive share. *)

From S2P Require Import Prelude TreeMath Crypto Signed CaMap Membership.

Local Open Scope monad_scope.

Section State.
Context `{P : Primitives} {T : Type} `{EqDecision T}.
Context `{Ssd : !Serialize (Signed (StaticDelegation T)), Ssr : !Serialize (Signed (StaticRevocation T))}.

(** ** Stores *)

Abbreviation DelegationStore := (CaMap (SignedDelegation T)).
Definition dlg_insert (d : SignedDelegation T) (s : DelegationStore) : DelegationStore := (CaMap_insert d s).2.
Definition dlg_remove_by_hash (h : Digest (SignedDelegation T)) (s : DelegationStore) : DelegationStore := (CaMap_remove_by_hash h s).2.
Definition dlg_contains_value (d : SignedDelegation T) (s : DelegationStore) : bool := CaMap_contains_value d s.
Definition dlg_values (s : DelegationStore) : list (SignedDelegation T) := (map_to_list s).*2.
Definition dlg_from_iter (l : list (SignedDelegation T)) : DelegationStore := foldl (fun s d => dlg_insert d s) ∅ l.

(** [HashSet<Arc<Signed<Revocation>>>]: signed values are hashed and compared by
    issuer and signature. *)
Abbreviation RevocationSet := (gmap (VerifyingKey * Signature) (SignedRevocation T)).
Definition rev_key (r : SignedRevocation T) : VerifyingKey * Signature := (issuer r, signature r).

Record RevocationStore := mkRevocationStore {
  rs_revocations : CaMap (SignedRevocation T);
  agent_to_revocations : gmap AgentId RevocationSet;
}.
Definition rev_store_new : RevocationStore := mkRevocationStore ∅ ∅.

(** [HashSet::insert] keeps an equal value that is there already. *)
Definition rev_store_insert (r : SignedRevocation T) (s : RevocationStore) : RevocationStore :=
  let id := revoked_id (payload r) in
  let set := default ∅ (agent_to_revocations s !! id) in
  let set := match set !! rev_key r with Some _ => set | None => <[rev_key r := r]> set end in
  mkRevocationStore (CaMap_insert r (rs_revocations s)).2 (<[id := set]> (agent_to_revocations s)).

Definition rev_remove_by_hash (h : Digest (SignedRevocation T)) (s : RevocationStore) : RevocationStore :=
  match rs_revocations s !! h with
  | None => mkRevocationStore (delete h (rs_revocations s)) (agent_to_revocations s)
  | Some r =>
      let id := revoked_id (payload r) in
      mkRevocationStore (delete h (rs_revocations s))
        (match agent_to_revocations s !! id with
         | None => agent_to_revocations s
         | Some set =>
             let set := delete (rev_key r) set in
             if decide (set = ∅) then delete id (agent_to_revocations s) else <[id := set]> (agent_to_revocations s)
         end)
  end.
Definition get_revocations_for_agent (id : AgentId) (s : RevocationStore) : option RevocationSet := agent_to_revocations s !! id.
Definition rev_values (s : RevocationStore) : list (SignedRevocation T) := (map_to_list (rs_revocations s)).*2.
Definition rev_from_iter (l : list (SignedRevocation T)) : RevocationStore := foldl (fun s r => rev_store_insert r s) rev_store_new l.

(** ** Group states *)

Record GroupState := mkGroupState {
  gs_id : Identifier;
  gs_delegations : DelegationStore;
  delegation_heads : DelegationStore;
  gs_revocations : RevocationStore;
  revocation_heads : RevocationStore;
}.
Definition set_delegations (s : DelegationStore) (g : GroupState) : GroupState :=
  mkGroupState (gs_id g) s (delegation_heads g) (gs_revocations g) (revocation_heads g).
Definition set_delegation_heads (s : DelegationStore) (g : GroupState) : GroupState :=
  mkGroupState (gs_id g) (gs_delegations g) s (gs_revocations g) (revocation_heads g).
Definition set_revocations (s : RevocationStore) (g : GroupState) : GroupState :=
  mkGroupState (gs_id g) (gs_delegations g) (delegation_heads g) s (revocation_heads g).
Definition set_revocation_heads (s : RevocationStore) (g : GroupState) : GroupState :=
  mkGroupState (gs_id g) (gs_delegations g) (delegation_heads g) (gs_revocations g) s.

(** *** Creating *)

(** The body of the loops over the lineage of a head: the stores, and the
    proofs of revocations to look at next (the head of the list is the end of
    the vector). *)
Definition record_revocation (st : RevocationStore * list (SignedDelegation T)) (r : SignedRevocation T) :
    RevocationStore * list (SignedDelegation T) :=
  (rev_store_insert r st.1, match rev_proof (payload r) with Some p => p :: st.2 | None => st.2 end).
Definition record_lineage (st : DelegationStore * (RevocationStore * list (SignedDelegation T))) (d : SignedDelegation T) :
    DelegationStore * (RevocationStore * list (SignedDelegation T)) :=
  (dlg_insert d st.1, foldl record_revocation st.2 (after_revocations (payload d))).

(** [while let Some(head) = heads.pop()] *)
Fixpoint record_heads (fuel : nat) (heads : list (SignedDelegation T)) (ds : DelegationStore) (rs : RevocationStore) :
    option (DelegationStore * RevocationStore) :=
  match heads with
  | [] => Some (ds, rs)
  | h :: heads' =>
      match fuel with
      | O => None
      | Datatypes.S fuel' =>
          if dlg_contains_value h ds then record_heads fuel' heads' ds rs
          else
            let '(ds, (rs, heads')) := foldl record_lineage (dlg_insert h ds, (rs, heads')) (proof_lineage (payload h)) in
            record_heads fuel' heads' ds rs
      end
  end.

(** [GroupState::new]; a head is taken off the stack with everything below it,
    so its size bounds the number of rounds. *)
Definition GroupState_new (delegation_head : SignedDelegation T) (ds : DelegationStore) (rs : RevocationStore) : option GroupState :=
  '(ds, rs) ← record_heads (dlg_size (payload delegation_head)) [delegation_head] ds rs;
  Some (mkGroupState (issuer delegation_head) ds (dlg_insert delegation_head ∅) rs rev_store_new).

(** [GroupState::generate]: a root delegation to each parent. *)
Definition root_delegation (parent : Agent) (content : ContentHeads T) : Delegation T := mkDelegation parent Admin None [] content.
Fixpoint generate_heads `{E : Ed25519} `{Sd : !Serialize (Delegation T)} (signer : SigningKey) (parents : list Agent)
    (heads : DelegationStore) : res SigningError DelegationStore :=
  match parents with
  | [] => Ok heads
  | parent :: parents' =>
      let* dlg := try_sign_sync signer (root_delegation parent ∅) in
      generate_heads signer parents' (dlg_insert dlg heads)
  end.
Definition GroupState_generate `{E : Ed25519} `{Sd : !Serialize (Delegation T)} (signer : SigningKey) (parents : list Agent)
    (ds : DelegationStore) (rs : RevocationStore) : res SigningError GroupState :=
  let* heads := generate_heads signer parents ∅ in
  Ok (mkGroupState (ed_verifying_key signer) ds heads rs rev_store_new).

(** *** Adding *)

Inductive AddError :=
  | InvalidSubject (id : Identifier)
  | Escelation (claimed proof : Access)
  | InvalidProofChain.

Abbreviation StateM := (M GroupState AddError).

(** The [try_fold] over the proofs of a delegation: the access it claims is
    compared with each of them, and each link with the next. *)
Fixpoint check_delegation_chain (claimed : Access) (head : SignedDelegation T) (lineage : list (SignedDelegation T)) :
    res AddError unit :=
  match lineage with
  | [] => Ok tt
  | p :: lineage' =>
      if Access_ltb (can (payload p)) claimed then Err (Escelation claimed (can (payload p)))
      else if decide (issuer head = agent_identifier (delegate (payload p))) then check_delegation_chain claimed p lineage'
      else Err InvalidProofChain
  end.

(** One head of the group against the new delegation. *)
Definition update_head (delegation : SignedDelegation T) (heads : DelegationStore) (head : Digest (SignedDelegation T) * SignedDelegation T) :
    DelegationStore :=
  let heads := if negb (is_ancestor_of (payload delegation) head.2) then dlg_insert delegation heads else heads in
  if is_ancestor_of (payload head.2) delegation then dlg_remove_by_hash head.1 heads else heads.

Definition drop_revocation_head (delegation : SignedDelegation T) (heads : RevocationStore)
    (head : Digest (SignedRevocation T) * SignedRevocation T) : RevocationStore :=
  if existsb (fun r => Signed_eq r head.2) (after_revocations (payload delegation)) then rev_remove_by_hash head.1 heads else heads.

Definition add_delegation (delegation : SignedDelegation T) : StateM (Digest (SignedDelegation T)) :=
  g <- get ;;
  if negb (bool_decide (dlg_subject_id delegation = gs_id g)) then throw (InvalidSubject (dlg_subject_id delegation))
  else if dlg_is_root (payload delegation) && negb (bool_decide (issuer delegation = gs_id g)) then throw InvalidProofChain
  else
    liftR (check_delegation_chain (can (payload delegation)) delegation (proof_lineage (payload delegation))) ;;
    modify (fun g => set_delegation_heads (foldl (update_head delegation) (delegation_heads g) (map_to_list (delegation_heads g))) g) ;;
    modify (fun g => set_revocation_heads (foldl (drop_revocation_head delegation) (revocation_heads g)
                                             (map_to_list (rs_revocations (revocation_heads g)))) g) ;;
    modify (fun g => set_delegations (dlg_insert delegation (gs_delegations g)) g) ;;
    ret (Digest_hash delegation).

(** The [try_fold] over the proofs of a revocation's proof: it hands the proof
    itself on, not the link it has just checked. *)
Fixpoint check_revocation_chain (proof : SignedDelegation T) (head : SignedDelegation T) (lineage : list (SignedDelegation T)) :
    res AddError unit :=
  match lineage with
  | [] => Ok tt
  | next_proof :: lineage' =>
      if Access_ltb (can (payload next_proof)) (can (payload proof)) then Err (Escelation (can (payload proof)) (can (payload next_proof)))
      else if decide (issuer head = agent_identifier (delegate (payload next_proof))) then check_revocation_chain proof proof lineage'
      else Err InvalidProofChain
  end.

Definition check_revocation (vk : VerifyingKey) (revocation : SignedRevocation T) : res AddError unit :=
  match rev_proof (payload revocation) with
  | Some p =>
      if negb (Signed_eq (revoke (payload revocation)) p) && negb (is_descendant_of (payload (revoke (payload revocation))) p)
      then Err InvalidProofChain
      else check_revocation_chain p p (proof_lineage (payload p))
  | None => if decide (issuer revocation = vk) then Ok tt else Err InvalidProofChain
  end.

Definition add_revocation (revocation : SignedRevocation T) : StateM (Digest (SignedRevocation T)) :=
  g <- get ;;
  if negb (bool_decide (rev_subject_id revocation = gs_id g)) then throw (InvalidSubject (rev_subject_id revocation))
  else
    liftR (check_revocation (gs_id g) revocation) ;;
    modify (fun g => set_revocation_heads (rev_store_insert revocation (revocation_heads g)) g) ;;
    modify (fun g => set_revocations (rev_store_insert revocation (gs_revocations g)) g) ;;
    ret (Digest_hash revocation).

Definition delegations_for (agent : Agent) (g : GroupState) : list (SignedDelegation T) :=
  filter (fun d => agent = delegate (payload d)) (dlg_values (gs_delegations g)).
End State.
Arguments RevocationStore T : clear implicits.
Arguments GroupState T : clear implicits.
