(* ===== verification/Group.v ===== *)
(** * Groups
    ([keyhive/keyhive_core/src/principal/group.rs])

    A group's view of its members and active revocations is rebuilt from its
    causal state after each change.  The listener is represented by what it has
    been notified of. *)

From S2P Require Import Prelude TreeMath Crypto Keys Signed CaMap Individual Membership MemberSort GroupState OpGraph.

Local Open Scope monad_scope.

Section Groups.
Context `{P : Primitives} `{E : Ed25519} {T : Type} `{EqDecision T}.
Context `{Ssd : !Serialize (Signed (StaticDelegation T)), Ssr : !Serialize (Signed (StaticRevocation T))}.

Abbreviation Members := (gmap Identifier (list (SignedDelegation T))).
Abbreviation Revocations := (gmap Signature (SignedRevocation T)).

(** ** Rebuilding *)

Record Rebuild := mkRebuild {
  rb_members : Members;
  rb_active_revocations : Revocations;
  dlgs_in_play : gmap Signature (SignedDelegation T);
  revoked_dlgs : gset Signature;
  reverse_dlg_dep_map : gmap Signature (gset Signature);
}.
Definition rebuild_init : Rebuild := mkRebuild ∅ ∅ ∅ ∅ ∅.

(** Whether the delegation a signature belongs to was revoked or is not in play. *)
Definition out_of_play (st : Rebuild) (d : SignedDelegation T) : bool :=
  bool_decide (signature d ∈ revoked_dlgs st) || negb (bool_decide (is_Some (dlgs_in_play st !! signature d))).

(** Whether [d] is dropped on account of its proof. *)
Definition delegation_unproven (vk : VerifyingKey) (st : Rebuild) (d : SignedDelegation T) : bool :=
  match proof (payload d) with
  | Some found_proof =>
      if out_of_play st found_proof then
        match rb_members st !! issuer found_proof with
        | Some alt_proofs =>
            forallb (fun alt_proof => Signed_eq alt_proof found_proof || Access_ltb (can (payload alt_proof)) (can (payload found_proof))) alt_proofs
        | None => negb (bool_decide (issuer found_proof = vk))
        end
      else false
  | None => negb (bool_decide (issuer d = vk))
  end.

Definition note_dependency (d : SignedDelegation T) (st : Rebuild) : Rebuild :=
  match proof (payload d) with
  | Some p =>
      mkRebuild (rb_members st) (rb_active_revocations st) (dlgs_in_play st) (revoked_dlgs st)
        (<[signature p := {[signature d]} ∪ default ∅ (reverse_dlg_dep_map st !! signature p)]> (reverse_dlg_dep_map st))
  | None => st
  end.

Definition accept_delegation (d : SignedDelegation T) (st : Rebuild) : Rebuild :=
  let id := agent_identifier (delegate (payload d)) in
  mkRebuild (<[id := default [] (rb_members st !! id) ++ [d]]> (rb_members st)) (rb_active_revocations st)
    (<[signature d := d]> (dlgs_in_play st)) (revoked_dlgs st) (reverse_dlg_dep_map st).

Definition rebuild_delegation (vk : VerifyingKey) (d : SignedDelegation T) (st : Rebuild) : Rebuild :=
  let st := note_dependency d st in
  if delegation_unproven vk st d then st
  else if bool_decide (signature d ∈ revoked_dlgs st) then st
  else accept_delegation d st.

(** Whether [r] is ignored on account of its proof. *)
Definition revocation_unproven (vk : VerifyingKey) (st : Rebuild) (r : SignedRevocation T) : bool :=
  match rev_proof (payload r) with
  | Some found_proof =>
      if out_of_play st found_proof then
        match rb_members st !! issuer found_proof with
        | Some alt_proofs => negb (existsb (fun p => Access_leb (can (payload found_proof)) (can (payload p))) alt_proofs)
        | None => false
        end
      else false
  | None => negb (bool_decide (issuer r = vk))
  end.

(** The variables of the [while let Some(sig_to_revoke) = next_to_revoke.pop()]
    loop; the head of [next_to_revoke] is the end of the vector. *)
Record Cascade := mkCascade {
  next_to_revoke : list Signature;
  c_in_play : gmap Signature (SignedDelegation T);
  c_revoked : gset Signature;
  to_drop : list (Identifier * Signature);
}.

Definition cascade_dependent (c : Cascade) (dlg_sig : Signature) : Cascade :=
  match c_in_play c !! dlg_sig with
  | Some dep_dlg => mkCascade (signature dep_dlg :: next_to_revoke c) (delete dlg_sig (c_in_play c)) ({[dlg_sig]} ∪ c_revoked c) (to_drop c)
  | None => mkCascade (next_to_revoke c) (c_in_play c) ({[dlg_sig]} ∪ c_revoked c) (to_drop c)
  end.

Fixpoint cascade (fuel : nat) (deps : gmap Signature (gset Signature)) (c : Cascade) : option Cascade :=
  match next_to_revoke c with
  | [] => Some c
  | sig_to_revoke :: rest =>
      match fuel with
      | O => None
      | Datatypes.S fuel' =>
          let drop := match c_in_play c !! sig_to_revoke with
                      | Some dlg => to_drop c ++ [(agent_identifier (delegate (payload dlg)), sig_to_revoke)]
                      | None => to_drop c
                      end in
          let c := mkCascade rest (delete sig_to_revoke (c_in_play c)) ({[sig_to_revoke]} ∪ c_revoked c) drop in
          cascade fuel' deps (foldl cascade_dependent c (elements (default ∅ (deps !! sig_to_revoke))))
      end
  end.

Definition drop_member (members : Members) (x : Identifier * Signature) : Members :=
  match filter (fun dlg => signature dlg ≠ x.2) (default [] (members !! x.1)) with
  | [] => delete x.1 members
  | remaining => <[x.1 := remaining]> members
  end.

(** A signature pushed onto the stack was taken out of play before, so there is
    at most one round more than there are delegations in play. *)
Definition rebuild_revocation (vk : VerifyingKey) (r : SignedRevocation T) (st : Rebuild) : option Rebuild :=
  if revocation_unproven vk st r then Some st
  else
    c ← cascade (Datatypes.S (size (dlgs_in_play st))) (reverse_dlg_dep_map st)
          (mkCascade [signature (revoke (payload r))] (dlgs_in_play st) (revoked_dlgs st) []);
    Some (mkRebuild (foldl drop_member (rb_members st) (to_drop c)) (<[signature r := r]> (rb_active_revocations st))
            (c_in_play c) (c_revoked c) (reverse_dlg_dep_map st)).

Definition rebuild_op (vk : VerifyingKey) (op : MembershipOperation T) (st : Rebuild) : option Rebuild :=
  match op with
  | OpDelegation d => Some (rebuild_delegation vk d st)
  | OpRevocation r => rebuild_revocation vk r st
  end.

(** The loop over the sorted operations, taken from the end. *)
Definition rebuild_ops (vk : VerifyingKey) (ops : list (MembershipOperation T)) : option Rebuild :=
  foldr (fun op st => st ≫= rebuild_op vk op) (Some rebuild_init) ops.

(** The view that the values of the stores of heads give, in the order the
    stores give them out. *)
Definition rebuild_heads (vk : VerifyingKey) (delegation_heads : list (SignedDelegation T)) (revocation_heads : list (SignedRevocation T)) :
    option Rebuild :=
  ops ← reverse_topsort delegation_heads revocation_heads;
  rebuild_ops vk (snd <$> ops).

(** ** Groups *)

Inductive IdOrIndividual :=
  | IdOrGroup (id : Identifier)
  | OrIndividual (individual : Individual).

Record Group := mkGroup {
  id_or_indie : IdOrIndividual;
  members : Members;
  active_revocations : Revocations;
  g_state : GroupState T;
  notified : list (MembershipOperation T);
}.
Definition set_view (m : Members) (r : Revocations) (g : Group) : Group := mkGroup (id_or_indie g) m r (g_state g) (notified g).
Definition set_members (m : Members) (g : Group) : Group := set_view m (active_revocations g) g.
Definition set_state (s : GroupState T) (g : Group) : Group := mkGroup (id_or_indie g) (members g) (active_revocations g) s (notified g).
Definition notify (op : MembershipOperation T) (g : Group) : Group :=
  mkGroup (id_or_indie g) (members g) (active_revocations g) (g_state g) (notified g ++ [op]).
Definition group_id (g : Group) : Identifier := gs_id (g_state g).

Definition rebuild {Er} : M Group Er unit :=
  g <- get ;;
  st <- loop_result (rebuild_heads (group_id g) (dlg_values (delegation_heads (g_state g))) (rev_values (revocation_heads (g_state g)))) ;;
  modify (set_view (rb_members st) (rb_active_revocations st)).

(** [Group::new], [Group::from_individual]; [notified] is what the listener was
    told before. *)
Definition Group_create (id : IdOrIndividual) (head : SignedDelegation T) (ds : CaMap (SignedDelegation T)) (rs : RevocationStore T)
    (log : list (MembershipOperation T)) : res Empty_set Group :=
  let* s := loopR (GroupState_new head ds rs) in
  let '(r, g) := rebuild (mkGroup id ∅ ∅ s (log ++ [OpDelegation head])) in
  let* _ := r in Ok g.
Definition Group_new (id : Identifier) := Group_create (IdOrGroup id).
Definition from_individual (individual : Individual) := Group_create (OrIndividual individual).

(** The loop of [generate_after_content] over the parents; the shared store
    keeps what was signed before a failure. *)
Fixpoint sign_parents `{Sd : !Serialize (Delegation T)} (signer : bytes -> res SigningError Signature) (verifier : VerifyingKey)
    (parents : list Agent) (after_content : ContentHeads T) (heads : CaMap (SignedDelegation T)) (log : list (MembershipOperation T)) :
    M (CaMap (SignedDelegation T)) SigningError (CaMap (SignedDelegation T) * list (MembershipOperation T)) :=
  match parents with
  | [] => ret (heads, log)
  | parent :: parents' =>
      dlg <- liftR (try_sign_basic signer verifier (root_delegation parent after_content)) ;;
      modify (dlg_insert dlg) ;;
      sign_parents signer verifier parents' after_content (dlg_insert dlg heads) (log ++ [OpDelegation dlg])
  end.

Definition generate_after_content `{Sd : !Serialize (Delegation T)} (signer : bytes -> res SigningError Signature) (verifier : VerifyingKey)
    (parents : list Agent) (after_content : ContentHeads T) (rs : RevocationStore T) (log : list (MembershipOperation T)) :
    M (CaMap (SignedDelegation T)) SigningError Group :=
  heads <- sign_parents signer verifier parents after_content ∅ log ;;
  ds <- get ;;
  let '(r, g) := rebuild (mkGroup (IdOrGroup verifier) ∅ ∅ (mkGroupState verifier ds heads.1 rs rev_store_new) heads.2) in
  liftR r ;;
  ret g.

(** [EphemeralSigner::with_signer], on the key it generates. *)
Definition with_signer {A} (sk : SigningKey) (f : VerifyingKey -> (bytes -> res SigningError Signature) -> A) : A * VerifyingKey :=
  (f (ed_verifying_key sk) (try_sign_bytes_sync sk), ed_verifying_key sk).
(** [Group::generate] *)
Definition Group_generate `{Sd : !Serialize (Delegation T)} (sk : SigningKey) (parents : list Agent) (rs : RevocationStore T)
    (log : list (MembershipOperation T)) : M (CaMap (SignedDelegation T)) SigningError Group :=
  (with_signer sk (fun verifier signer => generate_after_content signer verifier parents ∅ rs log)).1.

(** *** Reading *)

(** [Iterator::max_by]: the last of the maximal elements. *)
Definition max_by_can (l : list (SignedDelegation T)) : option (SignedDelegation T) :=
  foldl (fun best d => match best with
                       | Some b => if Access_leb (can (payload b)) (can (payload d)) then Some d else best
                       | None => Some d
                       end) None l.
Definition get_capability (member_id : Identifier) (g : Group) : option (SignedDelegation T) :=
  members g !! member_id ≫= max_by_can.

Definition get_agent_revocations (agent : Agent) (g : Group) : list (SignedRevocation T) :=
  match get_revocations_for_agent (agent_id agent) (gs_revocations (g_state g)) with
  | Some set => (map_to_list set).*2
  | None => []
  end.

Definition revoked_member (g : Group) (acc : gmap Identifier (Agent * Access)) (r : SignedRevocation T) :
    gmap Identifier (Agent * Access) :=
  let dlg := payload (revoke (payload r)) in
  let id := agent_identifier (delegate dlg) in
  if bool_decide (is_Some (members g !! id)) then acc
  else
    match acc !! id with
    | Some (agent, existing) => if Access_ltb existing (can dlg) then <[id := (agent, can dlg)]> acc else acc
    | None => <[id := (delegate dlg, can dlg)]> acc
    end.
Definition revoked_members (g : Group) : gmap Identifier (Agent * Access) :=
  foldl (revoked_member g) ∅ (map_to_list (active_revocations g)).*2.

(** *** Receiving *)

Definition receive_delegation (delegation : SignedDelegation T) : M Group AddError (Digest (SignedDelegation T)) :=
  digest <- zoom g_state set_state (add_delegation delegation) ;;
  rebuild ;;
  ret digest.

Definition receive_revocation (revocation : SignedRevocation T) : M Group AddError (Digest (SignedRevocation T)) :=
  modify (notify (OpRevocation revocation)) ;;
  digest <- zoom g_state set_state (add_revocation revocation) ;;
  rebuild ;;
  ret digest.

(** *** Adding members *)

Inductive AddGroupMemberError :=
  | AddMemberSigningError (e : SigningError)
  | AddMemberNoProof
  | AccessEscalation (wanted have : Access)
  | AddMemberAddError (e : AddError)
  | AddMemberCgkaError (e : CgkaError).

Record AddMemberUpdate := mkAddMemberUpdate {
  am_cgka_ops : list (Signed CgkaOperation);
  am_delegation : SignedDelegation T;
}.
Record RevokeMemberUpdate := mkRevokeMemberUpdate {
  rm_cgka_ops : list (Signed CgkaOperation);
  rm_revocations : list (SignedRevocation T);
  rm_redelegations : list (SignedDelegation T);
}.

Context `{Sd : !Serialize (Delegation T), Sr : !Serialize (Revocation T)}.

(** The proof the signer adds a member with. *)
Definition add_member_proof (signer_key : VerifyingKey) (wanted : Access) (g : Group) :
    res AddGroupMemberError (option (SignedDelegation T)) :=
  if decide (group_id g = signer_key) then Ok None
  else
    let* p := ok_orR (get_capability signer_key g) AddMemberNoProof in
    if Access_ltb (can (payload p)) wanted then Err (AccessEscalation wanted (can (payload p)))
    else Ok (Some p).

Definition add_member_with_manual_content (member_to_add : Agent) (access : Access) (signer : AsyncSigner)
    (content : ContentHeads T) : M Group AddGroupMemberError AddMemberUpdate :=
  proof <- readM (add_member_proof (signer_verifying_key signer) access) ;;
  g <- get ;;
  delegation <- liftR (res_map_err AddMemberSigningError
    (try_sign_async signer (mkDelegation member_to_add access proof (rev_values (revocation_heads (g_state g))) content))) ;;
  map_err AddMemberAddError (receive_delegation delegation) ;;
  modify (notify (OpDelegation delegation)) ;;
  ret (mkAddMemberUpdate [] delegation).

(** The content heads of the relevant documents, by document id. *)
Definition content_of (relevant_docs : list (Identifier * list T)) : ContentHeads T :=
  foldl (fun m d => <[d.1 := d.2]> m) ∅ relevant_docs.
Definition add_member (member_to_add : Agent) (access : Access) (signer : AsyncSigner) (relevant_docs : list (Identifier * list T)) :
    M Group AddGroupMemberError AddMemberUpdate :=
  add_member_with_manual_content member_to_add access signer (content_of relevant_docs).

(** *** Revoking members *)

Inductive RevokeMemberError :=
  | RevokeAddError (e : AddError)
  | RevokeNoProof
  | RevokeSigningError (e : SigningError)
  | RevokeCgkaError (e : CgkaError)
  | RedelegationError (e : AddGroupMemberError).

Abbreviation RevokeM := (M Group RevokeMemberError).

Definition build_revocation (signer : AsyncSigner) (revoked : SignedDelegation T) (proof : option (SignedDelegation T))
    (content : ContentHeads T) : RevokeM (SignedRevocation T) :=
  liftR (res_map_err RevokeSigningError (try_sign_async signer (mkRevocation revoked proof content))).

Definition issue_revocation (signer : AsyncSigner) (revoked : SignedDelegation T) (proof : option (SignedDelegation T))
    (content : ContentHeads T) (acc : list (SignedRevocation T)) : RevokeM (list (SignedRevocation T)) :=
  r <- build_revocation signer revoked proof content ;;
  map_err RevokeAddError (receive_revocation r) ;;
  ret (acc ++ [r]).

(** The signer's own delegations that the loop revokes with. *)
Definition admin_proofs (vk : VerifyingKey) (member_to_remove : Identifier) (g : Group) : list (SignedDelegation T) :=
  filter (fun mem_dlg => agent_identifier (delegate (payload mem_dlg)) = member_to_remove /\ can (payload mem_dlg) = Admin)
    (default [] (members g !! vk)).

(** The proof found in the delegation's own chain. *)
Definition chain_proof (vk : VerifyingKey) (to_revoke : SignedDelegation T) : option (SignedDelegation T) :=
  if decide (issuer to_revoke = vk) then Some to_revoke
  else snd <$> list_find (fun ancestor => issuer ancestor = vk) (proof_lineage (payload to_revoke)).

(** A round of the loop over the delegations to revoke. *)
Definition revoke_one (signer : AsyncSigner) (member_to_remove : Identifier) (content : ContentHeads T)
    (acc : list (SignedRevocation T)) (to_revoke : SignedDelegation T) : RevokeM (list (SignedRevocation T)) :=
  let vk := signer_verifying_key signer in
  g <- get ;;
  let admins := admin_proofs vk member_to_remove g in
  acc <- foldM (fun acc mem_dlg => issue_revocation signer to_revoke (Some mem_dlg) content acc) admins acc ;;
  match chain_proof vk to_revoke with
  | Some p => issue_revocation signer to_revoke (Some p) content acc
  | None => match admins with [] => throw RevokeNoProof | _ => ret acc end
  end.

(** Whether the delegation hung on the removed member, and goes to another. *)
Definition retained (member_to_remove : Identifier) (dlg : SignedDelegation T) : bool :=
  negb (bool_decide (agent_identifier (delegate (payload dlg)) = member_to_remove)) &&
  match proof (payload dlg) with
  | Some p => bool_decide (agent_identifier (delegate (payload p)) = member_to_remove)
  | None => false
  end.

Definition redelegate (signer : AsyncSigner) (content : ContentHeads T) (acc : list (Signed CgkaOperation) * list (SignedDelegation T))
    (dlg : SignedDelegation T) : RevokeM (list (Signed CgkaOperation) * list (SignedDelegation T)) :=
  update <- map_err RedelegationError (add_member_with_manual_content (delegate (payload dlg)) (can (payload dlg)) signer content) ;;
  ret (acc.1 ++ am_cgka_ops update, acc.2 ++ [am_delegation update]).

Definition revoke_member (member_to_remove : Identifier) (retain_all_other_members : bool) (signer : AsyncSigner) (content : ContentHeads T) :
    RevokeM RevokeMemberUpdate :=
  let vk := signer_verifying_key signer in
  og_dlgs <- gets (fun g => mjoin (map_to_list (members g)).*2) ;;
  all_to_revoke <- gets (fun g => default [] (members g !! member_to_remove)) ;;
  g <- get ;;
  match all_to_revoke with
  | [] => modify (fun g => set_members (delete member_to_remove (members g)) g) ;; ret (mkRevokeMemberUpdate [] [] [])
  | _ =>
      revocations <- (if decide (vk = group_id g)
                      then foldM (fun acc to_revoke => issue_revocation signer to_revoke None content acc) all_to_revoke []
                      else foldM (revoke_one signer member_to_remove content) all_to_revoke []) ;;
      forM revocations (fun r => modify (notify (OpRevocation r))) ;;
      redelegations <- foldM (redelegate signer content)
                         (if retain_all_other_members then filter (fun d => retained member_to_remove d = true) og_dlgs else []) ([], []) ;;
      ret (mkRevokeMemberUpdate redelegations.1 revocations redelegations.2)
  end.
End Groups.
