(* ===== verification/GroupView.v ===== *)
(** * The view a group rebuilds from its history
    ([keyhive/keyhive_core/src/principal/group.rs], [Group::rebuild])

    What the members and active revocations of a group are, for a history in
    which no delegation is revoked twice. *)

From S2P Require Import Prelude TreeMath Crypto Signed CaMap Membership MemberSort MemberExplore MemberOrder GroupState Group.

Section View.
Context `{P : Primitives} {T : Type} `{EqDecision T}.
Context `{Ssd : !Serialize (Signed (StaticDelegation T)), Ssr : !Serialize (Signed (StaticRevocation T))}.

Abbreviation delegate_id d := (agent_identifier (delegate (payload d))).

(** A history that can be sorted, in which signatures tell revocations apart
    too and no delegation is revoked twice. *)
Record sound_group (heads : list (MembershipOperation T)) : Prop := {
  sg_history : sound_history heads;
  sg_once : revoked_once heads;
  sg_signatures (r r' : SignedRevocation T) :
    reaches heads (OpRevocation r) -> reaches heads (OpRevocation r') -> signature r = signature r' -> r = r';
}.

Definition is_member (st : @Rebuild T) (d : SignedDelegation T) : Prop := d ∈ default [] (rb_members st !! delegate_id d).
Definition is_active (st : @Rebuild T) (r : SignedRevocation T) : Prop := rb_active_revocations st !! signature r = Some r.

(** What a delegation may rest on: the group's key, a proof that is a member's,
    or, when the proof is not, its issuer having had as much access. *)
Definition grounded (vk : VerifyingKey) (heads : list (MembershipOperation T)) (st : @Rebuild T) (d : SignedDelegation T) : Prop :=
  match proof (payload d) with
  | None => issuer d = vk
  | Some p => is_member st p \/ issuer p = vk \/
      exists alt, reaches heads (OpDelegation alt) /\ delegate_id alt = issuer p /\ alt <> p /\
        (Access_level (can (payload p)) <= Access_level (can (payload alt)))%nat
  end.

(** The properties of the rebuilt view. *)
Record view_of (vk : VerifyingKey) (heads : list (MembershipOperation T)) (st : @Rebuild T) : Prop := {
  vw_listed id ds : rb_members st !! id = Some ds -> ds <> [] /\ NoDup ds /\ forall d, d ∈ ds -> delegate_id d = id;
  vw_reached d : is_member st d -> reaches heads (OpDelegation d);
  vw_grounded d : is_member st d -> grounded vk heads st d;
  vw_active r : is_active st r -> reaches heads (OpRevocation r);
  vw_unrevoked d r : is_member st d -> is_active st r -> signature (revoke (payload r)) <> signature d;
  vw_complete d : reaches heads (OpDelegation d) ->
    match proof (payload d) with None => issuer d = vk | Some p => is_member st p end ->
    (forall r, is_active st r -> signature (revoke (payload r)) <> signature d) -> is_member st d;
  vw_revoked r : reaches heads (OpRevocation r) ->
    match rev_proof (payload r) with None => issuer r = vk | Some p => p = revoke (payload r) \/ is_member st p end ->
    ~ is_member st (revoke (payload r));
}.

(** ** The invariant of the loop

    [done_ops] are the operations processed, the last one first. *)
Definition in_play (st : @Rebuild T) (d : SignedDelegation T) : Prop := dlgs_in_play st !! signature d = Some d.

Record rebuilding (vk : VerifyingKey) (heads done_ops : list (MembershipOperation T)) (st : @Rebuild T) : Prop := {
  ri_members d : is_member st d <-> in_play st d;
  ri_listed id ds : rb_members st !! id = Some ds -> ds <> [] /\ NoDup ds /\ forall d, d ∈ ds -> delegate_id d = id;
  ri_play s d : dlgs_in_play st !! s = Some d -> signature d = s /\ OpDelegation d ∈ done_ops;
  ri_active s r : rb_active_revocations st !! s = Some r -> signature r = s /\ OpRevocation r ∈ done_ops;
  ri_revoked s : s ∈ revoked_dlgs st <-> exists r, is_active st r /\ signature (revoke (payload r)) = s;
  ri_out s : s ∈ revoked_dlgs st -> dlgs_in_play st !! s = None;
  ri_deps s t : t ∈ default ∅ (reverse_dlg_dep_map st !! s) ->
    exists d p, OpDelegation d ∈ done_ops /\ proof (payload d) = Some p /\ signature p = s;
  ri_complete d : OpDelegation d ∈ done_ops ->
    match proof (payload d) with None => issuer d = vk | Some p => in_play st p end ->
    signature d ∉ revoked_dlgs st -> in_play st d;
  ri_effect r : OpRevocation r ∈ done_ops ->
    match rev_proof (payload r) with None => issuer r = vk | Some p => p = revoke (payload r) \/ in_play st p end ->
    ~ in_play st (revoke (payload r));
  ri_grounded d : in_play st d -> grounded vk heads st d;
}.

Lemma rebuilding_init vk heads : rebuilding vk heads [] rebuild_init.
Proof.
  constructor; unfold is_member, in_play, is_active; cbn.
  - intros d. rewrite !lookup_empty. cbn. split; [by intros ?%not_elem_of_nil|done].
  - intros id ds. by rewrite lookup_empty.
  - intros s d. by rewrite lookup_empty.
  - intros s r. by rewrite lookup_empty.
  - intros s. split; [by intros ?%not_elem_of_empty|intros (r & Hr & _); by rewrite lookup_empty in Hr].
  - by intros s ?%not_elem_of_empty.
  - intros s t. rewrite lookup_empty. by intros ?%not_elem_of_empty.
  - by intros d ?%not_elem_of_nil.
  - by intros r ?%not_elem_of_nil.
  - intros d. by rewrite lookup_empty.
Qed.

(** ** Delegations *)

Lemma note_dependency_view d (st : @Rebuild T) :
  rb_members (note_dependency d st) = rb_members st /\ rb_active_revocations (note_dependency d st) = rb_active_revocations st /\
  dlgs_in_play (note_dependency d st) = dlgs_in_play st /\ revoked_dlgs (note_dependency d st) = revoked_dlgs st.
Proof. unfold note_dependency. by destruct (proof (payload d)). Qed.

Lemma note_dependency_deps d (st : @Rebuild T) s t :
  t ∈ default ∅ (reverse_dlg_dep_map (note_dependency d st) !! s) ->
  t ∈ default ∅ (reverse_dlg_dep_map st !! s) \/ exists p, proof (payload d) = Some p /\ signature p = s.
Proof.
  unfold note_dependency. destruct (proof (payload d)) as [p|]; [|by left]. cbn. destruct (decide (signature p = s)) as [<-|Hne].
  - intros _. right. by exists p.
  - rewrite lookup_insert_ne by done. by left.
Qed.

Lemma out_of_play_false (st : @Rebuild T) d : out_of_play st d = false <-> signature d ∉ revoked_dlgs st /\ is_Some (dlgs_in_play st !! signature d).
Proof. unfold out_of_play. rewrite orb_false_iff, negb_false_iff, bool_decide_eq_false, bool_decide_eq_true. reflexivity. Qed.

Lemma note_dependency_unproven vk d (st : @Rebuild T) x :
  delegation_unproven vk (note_dependency d st) x = delegation_unproven vk st x.
Proof. unfold delegation_unproven, out_of_play. by destruct (note_dependency_view d st) as (-> & _ & -> & ->). Qed.

Lemma member_lookup (st : @Rebuild T) id ds d : rb_members st !! id = Some ds -> d ∈ ds -> delegate_id d = id -> is_member st d.
Proof. intros Hds Hd <-. unfold is_member. by rewrite Hds. Qed.

Lemma accept_members d (st : @Rebuild T) x : is_member (accept_delegation d st) x <-> is_member st x \/ x = d.
Proof.
  unfold is_member. cbn. destruct (decide (delegate_id d = delegate_id x)) as [Heq|Hne].
  - rewrite Heq, lookup_insert_eq. cbn. rewrite elem_of_app, list_elem_of_singleton. reflexivity.
  - rewrite lookup_insert_ne by done. split; [by left|]. intros [?| ->]; done.
Qed.

Section Step.
Context (vk : VerifyingKey) (heads l l1 l2 : list (MembershipOperation T)).
Context (Hg : sound_group heads) (Hl : sorted_history heads l).

Lemma processed_reached op0 op : l = l1 ++ op0 :: l2 -> op ∈ op0 :: l2 -> reaches heads op.
Proof. intros -> Hop. apply (so_all _ _ Hl). apply elem_of_app. by right. Qed.

(** What an operation comes after is processed before it. *)
Lemma processed_after op0 child : l = l1 ++ op0 :: l2 -> child ∈ op0 :: l2 -> op0 ∈ after_auth child -> False.
Proof.
  intros Heq Hc Ha. pose proof (processed_reached op0 child Heq Hc) as Hr. pose proof (so_after _ _ Hl _ _ _ _ Heq Hr Ha) as H1.
  pose proof (so_nodup _ _ Hl) as Hnd. rewrite Heq in Hnd. apply NoDup_app in Hnd as (_ & Hnd & _). by apply (Hnd child).
Qed.

(** A delegation whose proof is revoked is processed after the revocation. *)
Lemma processed_revoked (r : SignedRevocation T) d p :
  l = l1 ++ OpRevocation r :: l2 -> OpDelegation d ∈ l2 -> proof (payload d) = Some p -> signature p <> signature (revoke (payload r)).
Proof.
  intros Heq Hd Hp Hsig. assert (reaches heads (OpRevocation r)) as Hr by (apply (processed_reached _ _ Heq); left).
  assert (reaches heads (OpDelegation d)) as Hdr by (apply (processed_reached _ _ Heq); by right).
  destruct (so_revoked _ _ Hl r Hr) as (r' & Hr' & Hs' & Hall). rewrite (sg_once _ Hg r' r Hr' Hr Hs') in Hall.
  pose proof (Hall _ _ d p Heq Hdr Hp Hsig) as H1.
  pose proof (so_nodup _ _ Hl) as Hnd. rewrite Heq in Hnd. apply NoDup_app in Hnd as (_ & Hnd & _). apply (Hnd _ H1). by right.
Qed.

Lemma same_delegation op0 d d' : l = l1 ++ op0 :: l2 -> OpDelegation d ∈ op0 :: l2 -> OpDelegation d' ∈ op0 :: l2 ->
  signature d = signature d' -> d = d'.
Proof. intros Heq Hd Hd'. apply (sh_signatures _ (sg_history _ Hg)); by apply (processed_reached _ _ Heq). Qed.

Lemma grounded_mono st st' d : (forall x, is_member st x -> is_member st' x) -> grounded vk heads st d -> grounded vk heads st' d.
Proof. intros Hm. unfold grounded. destruct (proof (payload d)) as [p|]; [|done]. intros [?|[?|?]]; [left; by apply Hm|right; by left|by do 2 right]. Qed.

Lemma rebuilding_note d ops st : rebuilding vk heads ops st -> OpDelegation d ∈ ops -> rebuilding vk heads ops (note_dependency d st).
Proof.
  intros [Hm Hls Hp Ha Hr Ho Hd Hc He Hgr] Hin. unfold is_member, in_play, is_active, grounded in *.
  pose proof (note_dependency_deps d st) as Hdeps. destruct (note_dependency_view d st) as (E1 & E2 & E3 & E4).
  constructor; unfold is_member, in_play, is_active, grounded; rewrite ?E1, ?E2, ?E3, ?E4; try done.
  - intros s t [Ht|(p & Hpf & Hs)]%Hdeps; [by apply (Hd s t)|by exists d, p].
  - intros x Hx. unfold is_member. rewrite E1. exact (Hgr x Hx).
Qed.

(** Not taking a delegation in. *)
Lemma rebuilding_skip d st : rebuilding vk heads l2 st ->
  (match proof (payload d) with None => issuer d = vk | Some p => in_play st p end -> signature d ∈ revoked_dlgs st) ->
  rebuilding vk heads (OpDelegation d :: l2) st.
Proof.
  intros [Hm Hls Hp Ha Hr Ho Hd Hc He Hgr] Hskip. constructor; try done.
  - intros s x Hx. destruct (Hp s x Hx). split; [done|by right].
  - intros s x Hx. destruct (Ha s x Hx). split; [done|by right].
  - intros s t Ht. destruct (Hd s t Ht) as (x & p & ? & ? & ?). exists x, p. split_and!; [by right|done..].
  - intros x [[= ->]|Hx]%elem_of_cons; [|by apply Hc]. intros H1 H2. by destruct H2; apply Hskip.
  - intros r [?|Hx]%elem_of_cons; [done|]. by apply He.
Qed.

(** Taking one in. *)
Lemma rebuilding_accept d st : l = l1 ++ OpDelegation d :: l2 -> rebuilding vk heads l2 st ->
  grounded vk heads st d -> signature d ∉ revoked_dlgs st ->
  rebuilding vk heads (OpDelegation d :: l2) (accept_delegation d st).
Proof.
  intros Heq Hi Hgd Hun. destruct Hi as [Hm Hls Hp Ha Hr Ho Hd Hc He Hgr].
  assert (forall x, in_play (accept_delegation d st) x <-> in_play st x \/ x = d) as Hplay.
  { intros x. rewrite <- Hm. unfold in_play. cbn. destruct (decide (signature d = signature x)) as [Hs|Hs].
    - rewrite Hs, lookup_insert_eq. split; [intros [= ->]; by right|]. intros [Hx| ->]; [|done]. f_equal.
      apply Hm, Hp in Hx as [_ Hx]. apply (same_delegation _ d x Heq); [left|by right|done].
    - rewrite lookup_insert_ne by done. rewrite Hm. split; [by left|]. intros [?| ->]; done. }
  assert (OpDelegation d ∉ l2) as Hnot.
  { pose proof (so_nodup _ _ Hl) as Hnd. rewrite Heq in Hnd. apply NoDup_app in Hnd as (_ & _ & [? _]%NoDup_cons). done. }
  constructor.
  - intros x. by rewrite accept_members, Hplay, Hm.
  - intros id ds. cbn. destruct (decide (delegate_id d = id)) as [<-|Hne]; [rewrite lookup_insert_eq|rewrite lookup_insert_ne by done; by apply Hls].
    intros [= <-]. split; [by intros [_ [=]]%app_eq_nil|]. destruct (rb_members st !! delegate_id d) as [ds|] eqn:Hds; cbn.
    + destruct (Hls _ _ Hds) as (_ & Hnd & Hid). split.
      * apply NoDup_app. split_and!; [done| |apply NoDup_singleton]. intros x Hx ->%list_elem_of_singleton.
        apply Hnot. apply (Hp (signature d)). apply Hm. unfold is_member. by rewrite Hds.
      * intros x [Hx|<-%list_elem_of_singleton]%elem_of_app; [by apply Hid|done].
    + split; [apply NoDup_singleton|by intros x ->%list_elem_of_singleton].
  - intros s x. cbn. intros [[<- <-]|[_ Hx]]%lookup_insert_Some; [split; [done|left]|]. destruct (Hp s x Hx). split; [done|by right].
  - intros s x Hx. destruct (Ha s x Hx). split; [done|by right].
  - done.
  - intros s Hs. cbn. rewrite lookup_insert_ne; [by apply Ho|]. intros <-. done.
  - intros s t Ht. destruct (Hd s t Ht) as (x & p & ? & ? & ?). exists x, p. split_and!; [by right|done..].
  - intros x [[= ->]|Hx]%elem_of_cons Hpf Hux; [apply Hplay; by right|]. apply Hplay. left. apply Hc; [done| |done].
    destruct (proof (payload x)) as [p|] eqn:Hpx; [|done]. apply Hplay in Hpf as [?| ->]; [done|].
    destruct (processed_after _ _ Heq (proj2 (elem_of_cons _ _ _) (or_intror Hx)) (after_auth_proof _ _ Hpx)).
  - intros r [?|Hr0]%elem_of_cons Hpf; [done|]. pose proof (proj2 (elem_of_cons l2 _ (OpDelegation d)) (or_intror Hr0)) as Hr1.
    rewrite Hplay. intros [Hx|Hx]; [|eapply (processed_after _ _ Heq Hr1); rewrite <- Hx; apply after_auth_revoke].
    revert Hx. apply He; [done|]. destruct (rev_proof (payload r)) as [p|] eqn:Hpr; [|done].
    destruct Hpf as [?|[?| ->]%Hplay]; [by left|by right|]. destruct (processed_after _ _ Heq Hr1). by apply after_auth_rev_proof.
  - intros x [Hx| ->]%Hplay; apply (grounded_mono st); auto; intros y Hy; apply accept_members; by left.
Qed.

Lemma unproven_grounded d st : l = l1 ++ OpDelegation d :: l2 -> rebuilding vk heads l2 st ->
  delegation_unproven vk st d = false -> grounded vk heads st d.
Proof.
  intros Heq Hi. unfold delegation_unproven, grounded. destruct (proof (payload d)) as [p|] eqn:Hp;
    [|rewrite negb_false_iff; by intros ?%bool_decide_eq_true].
  destruct (out_of_play st p) eqn:Hout.
  - intros Halt. right. destruct (rb_members st !! issuer p) as [alts|] eqn:Hm; [right|left; by apply negb_false_iff, bool_decide_eq_true in Halt].
    apply forallb_false in Halt as (alt & Hin & Halt). apply orb_false_iff in Halt as [Hne Hcan].
    destruct (ri_listed _ _ _ _ Hi _ _ Hm) as (_ & _ & Hid). pose proof (Hid alt Hin) as Hdel. exists alt. split_and!; [|done| |].
    + pose proof (member_lookup _ _ _ _ Hm Hin Hdel) as Hmem. apply (ri_members _ _ _ _ Hi), (ri_play _ _ _ _ Hi) in Hmem as [_ Hmem].
      apply (processed_reached _ _ Heq). by right.
    + intros ->. by rewrite Signed_eq_refl in Hne.
    + unfold Access_ltb in Hcan. apply Nat.ltb_ge in Hcan. done.
  - intros _. left. apply out_of_play_false in Hout as [_ [x Hx]]. apply (ri_members _ _ _ _ Hi). unfold in_play. rewrite Hx. f_equal.
    destruct (ri_play _ _ _ _ Hi _ _ Hx) as [Hs Hxin]. apply (sh_signatures _ (sg_history _ Hg)); [| |done].
    + apply (processed_reached _ _ Heq). by right.
    + apply (reaches_proof _ d); [|done]. apply (processed_reached _ _ Heq). left.
Qed.

Lemma rebuild_delegation_ok d st : l = l1 ++ OpDelegation d :: l2 -> rebuilding vk heads l2 st ->
  rebuilding vk heads (OpDelegation d :: l2) (rebuild_delegation vk d st).
Proof.
  intros Heq Hi. unfold rebuild_delegation. rewrite note_dependency_unproven.
  destruct (note_dependency_view d st) as (_ & _ & _ & ->).
  destruct (delegation_unproven vk st d) eqn:Hu; [|case_bool_decide as Hr].
  - apply rebuilding_note; [|left]. apply rebuilding_skip; [done|]. intros Hpf. exfalso. unfold delegation_unproven in Hu.
    destruct (proof (payload d)) as [p|]; [|by rewrite bool_decide_eq_true_2 in Hu].
    rewrite (proj2 (out_of_play_false st p)) in Hu; [done|]. split; [|by exists p]. intros Hp%(ri_out _ _ _ _ Hi). unfold in_play in Hpf. congruence.
  - apply rebuilding_note; [|left]. by apply rebuilding_skip.
  - replace (accept_delegation d (note_dependency d st)) with (note_dependency d (accept_delegation d st))
      by (unfold note_dependency; by destruct (proof (payload d))).
    apply rebuilding_note; [|left]. apply rebuilding_accept; [done..| |done]. by apply (unproven_grounded _ _ Heq).
Qed.

(** A revocation that is ignored. *)
Lemma rebuilding_ignore r st : rebuilding vk heads l2 st -> revocation_unproven vk st r = true ->
  rebuilding vk heads (OpRevocation r :: l2) st.
Proof.
  intros [Hm Hls Hp Ha Hr Ho Hd Hc He Hgr] Hu. constructor; try done.
  - intros s x Hx. destruct (Hp s x Hx). split; [done|by right].
  - intros s x Hx. destruct (Ha s x Hx). split; [done|by right].
  - intros s t Ht. destruct (Hd s t Ht) as (x & p & ? & ? & ?). exists x, p. split_and!; [by right|done..].
  - intros x [?|Hx]%elem_of_cons; [done|]. by apply Hc.
  - intros x [[= ->]|Hx]%elem_of_cons; [|by apply He]. unfold revocation_unproven in Hu.
    destruct (rev_proof (payload r)) as [p|]; [|intros <-; by rewrite bool_decide_eq_true_2 in Hu].
    destruct (out_of_play st p) eqn:Hout; [|done].
    assert (~ in_play st p) as Hnp.
    { intros Hip. rewrite (proj2 (out_of_play_false st p)) in Hout; [done|]. split; [|by exists p]. intros Hrev%Ho. unfold in_play in Hip. congruence. }
    intros [->|?]; done.
Qed.

(** With nothing in play that depends on it, only the revoked delegation goes. *)
Lemma cascade_alone n (deps : gmap Signature (gset Signature)) s (pl : gmap Signature (SignedDelegation T)) rv :
  default ∅ (deps !! s) = ∅ ->
  cascade (Datatypes.S n) deps (mkCascade [s] pl rv []) =
    Some (mkCascade [] (delete s pl) ({[s]} ∪ rv) (match pl !! s with Some d => [(delegate_id d, s)] | None => [] end)).
Proof. intros Hdeps. cbn [cascade next_to_revoke c_in_play c_revoked to_drop]. rewrite Hdeps, elements_empty. cbn [foldl]. by destruct n, (pl !! s). Qed.

Lemma drop_member_elem (ms : gmap Identifier (list (SignedDelegation T))) id s x :
  x ∈ default [] (drop_member ms (id, s) !! delegate_id x) <->
  x ∈ default [] (ms !! delegate_id x) /\ (delegate_id x = id -> signature x <> s).
Proof.
  unfold drop_member. cbn [fst snd]. destruct (decide (delegate_id x = id)) as [<-|Hne].
  - pose proof (list_elem_of_filter (fun dlg : SignedDelegation T => signature dlg ≠ s) (default [] (ms !! delegate_id x)) x) as Hf.
    destruct (filter _ _) as [|y ys].
    + rewrite lookup_delete_eq. cbn. split; [by intros ?%not_elem_of_nil|]. intros [? Hs]. exfalso. eapply not_elem_of_nil, Hf. split; [by apply Hs|done].
    + rewrite lookup_insert_eq. cbn [default]. rewrite Hf. split; [intros [? ?]; by split|intros [? Hs]; split; [by apply Hs|done]].
  - destruct (filter _ _); [rewrite lookup_delete_ne by done|rewrite lookup_insert_ne by done]; split; [by split|by intros [? _]|by split|by intros [? _]].
Qed.

Lemma drop_member_listed (ms : gmap Identifier (list (SignedDelegation T))) x :
  (forall id ds, ms !! id = Some ds -> ds <> [] /\ NoDup ds /\ forall d, d ∈ ds -> delegate_id d = id) ->
  forall id ds, drop_member ms x !! id = Some ds -> ds <> [] /\ NoDup ds /\ forall d, d ∈ ds -> delegate_id d = id.
Proof.
  intros Hls id ds. unfold drop_member. destruct (filter _ _) as [|y ys] eqn:Hf; [intros [_ H]%lookup_delete_Some; by apply Hls|].
  intros [[<- <-]|[_ H]]%lookup_insert_Some; [|by apply Hls]. rewrite <- Hf. split; [by rewrite Hf|].
  destruct (ms !! x.1) as [zs|] eqn:Hz; [|done]. destruct (Hls _ _ Hz) as (_ & Hnd & Hid). cbn.
  split; [by apply NoDup_filter|]. intros d [_ Hd]%list_elem_of_filter. by apply Hid.
Qed.

Definition drops (st : @Rebuild T) (s : Signature) : list (Identifier * Signature) :=
  match dlgs_in_play st !! s with Some d => [(delegate_id d, s)] | None => [] end.

Lemma drops_members r st x : l = l1 ++ OpRevocation r :: l2 -> rebuilding vk heads l2 st ->
  x ∈ default [] (foldl drop_member (rb_members st) (drops st (signature (revoke (payload r)))) !! delegate_id x) <->
  is_member st x /\ signature x <> signature (revoke (payload r)).
Proof.
  intros Heq Hi. set (s := signature (revoke (payload r))). unfold drops.
  assert (is_member st x -> signature x = s -> dlgs_in_play st !! s = Some x) as Hx.
  { intros Hm <-. by apply (ri_members _ _ _ _ Hi). }
  destruct (dlgs_in_play st !! s) as [d|] eqn:Hs; cbn [foldl].
  - rewrite drop_member_elem. split; intros [Hm Hne]; (split; [done|]); [|by intros _].
    intros Heqs. pose proof (Hx Hm Heqs) as [= ->]. by apply Hne.
  - split; [|by intros [? _]]. intros Hm. split; [done|]. intros Heqs. by discriminate (Hx Hm Heqs).
Qed.

Lemma revocation_alone r st : l = l1 ++ OpRevocation r :: l2 -> rebuilding vk heads l2 st ->
  default ∅ (reverse_dlg_dep_map st !! signature (revoke (payload r))) = ∅.
Proof.
  intros Heq Hi. apply elem_of_equiv_empty_L. intros t Ht. destruct (ri_deps _ _ _ _ Hi _ _ Ht) as (d & p & Hd & Hp & Hs).
  by apply (processed_revoked r d p Heq Hd Hp).
Qed.

(** The state after a revocation that takes effect. *)
Definition revoking (r : SignedRevocation T) (st : @Rebuild T) : @Rebuild T :=
  let s := signature (revoke (payload r)) in
  mkRebuild (foldl drop_member (rb_members st) (drops st s)) (<[signature r := r]> (rb_active_revocations st))
    (delete s (dlgs_in_play st)) ({[s]} ∪ revoked_dlgs st) (reverse_dlg_dep_map st).

Lemma revoking_play r st x : in_play (revoking r st) x <-> in_play st x /\ signature x <> signature (revoke (payload r)).
Proof. unfold in_play. cbn. rewrite lookup_delete_Some. naive_solver. Qed.

Lemma revoking_active r st x : l = l1 ++ OpRevocation r :: l2 -> rebuilding vk heads l2 st ->
  is_active (revoking r st) x <-> is_active st x \/ x = r.
Proof.
  intros Heq Hi. unfold is_active. cbn. split.
  - intros [[_ <-]|[_ ?]]%lookup_insert_Some; [by right|by left].
  - intros [Hx| ->]; [|apply lookup_insert_eq]. destruct (decide (signature r = signature x)) as [Hs|Hs]; [|by rewrite lookup_insert_ne].
    rewrite Hs, lookup_insert_eq. f_equal. destruct (ri_active _ _ _ _ Hi _ _ Hx) as [_ Hxin].
    apply (sg_signatures _ Hg); [apply (processed_reached _ _ Heq); left|apply (processed_reached _ _ Heq); by right|done].
Qed.

Lemma rebuilding_revoke r st : l = l1 ++ OpRevocation r :: l2 -> rebuilding vk heads l2 st ->
  rebuilding vk heads (OpRevocation r :: l2) (revoking r st).
Proof.
  intros Heq Hi. pose proof (revoking_play r st) as Hplay. pose proof (fun x => revoking_active r st x Heq Hi) as Hact.
  pose proof (fun x => drops_members r st x Heq Hi) as Hdrop. destruct Hi as [Hm Hls Hp Ha Hr Ho Hd Hc He Hgr].
  assert (forall x, is_member (revoking r st) x <-> is_member st x /\ signature x <> signature (revoke (payload r))) as Hmem by exact Hdrop.
  constructor.
  - intros x. by rewrite Hmem, Hplay, Hm.
  - intros id ds. cbn. unfold drops. destruct (dlgs_in_play st !! _); [by apply drop_member_listed|by apply Hls].
  - intros s x. cbn. intros [_ Hx]%lookup_delete_Some. destruct (Hp s x Hx). split; [done|by right].
  - intros s x. cbn. intros [[<- <-]|[_ Hx]]%lookup_insert_Some; [split; [done|left]|]. destruct (Ha s x Hx). split; [done|by right].
  - intros s. cbn. rewrite elem_of_union, elem_of_singleton, Hr. split.
    + intros [->|(x & Hx & Hs)]; [exists r; split; [apply Hact; by right|done]|exists x; split; [apply Hact; by left|done]].
    + intros (x & [Hx| ->]%Hact & Hs); [right; by exists x|by left].
  - intros s. cbn. rewrite elem_of_union, elem_of_singleton, lookup_delete_None. intros [->|Hs]; [by left|right; by apply Ho].
  - intros s t Ht. destruct (Hd s t Ht) as (x & p & ? & ? & ?). exists x, p. split_and!; [by right|done..].
  - intros x [?|Hx]%elem_of_cons Hpf Hun; [done|]. cbn in Hun. rewrite elem_of_union, elem_of_singleton in Hun.
    apply Hplay. split; [|intros ?; apply Hun; by left]. apply Hc; [done| |intros ?; apply Hun; by right].
    destruct (proof (payload x)) as [p|]; [|done]. by apply Hplay in Hpf as [? _].
  - intros x [[= ->]|Hx]%elem_of_cons Hpf; [by intros [_ ?]%Hplay|]. intros [Hxp _]%Hplay. revert Hxp. apply He; [done|].
    destruct (rev_proof (payload x)) as [p|]; [|done]. destruct Hpf as [?|[? _]%Hplay]; [by left|by right].
  - intros x [Hx _]%Hplay. pose proof (Hgr x Hx) as Hgx. apply Hp in Hx as [_ Hx]. unfold grounded in *.
    destruct (proof (payload x)) as [p|] eqn:Hpx; [|done]. destruct Hgx as [Hgx|Hgx]; [left|by right].
    apply Hmem. split; [done|]. by apply (processed_revoked r x p Heq Hx Hpx).
Qed.

Lemma rebuild_op_ok op st : l = l1 ++ op :: l2 -> rebuilding vk heads l2 st ->
  exists st', rebuild_op vk op st = Some st' /\ rebuilding vk heads (op :: l2) st'.
Proof.
  intros Heq Hi. destruct op as [d|r]; cbn [rebuild_op]; [eexists; split; [done|by apply rebuild_delegation_ok]|].
  unfold rebuild_revocation. destruct (revocation_unproven vk st r) eqn:Hu; [exists st; split; [done|by apply rebuilding_ignore]|].
  exists (revoking r st). split; [|by apply rebuilding_revoke]. rewrite cascade_alone by (by apply revocation_alone). reflexivity.
Qed.
End Step.

Lemma rebuild_ops_ok vk heads l : sound_group heads -> sorted_history heads l ->
  forall l1 l2, l = l1 ++ l2 -> exists st, rebuild_ops vk l2 = Some st /\ rebuilding vk heads l2 st.
Proof.
  intros Hg Hl l1 l2. revert l1. induction l2 as [|op l2 IH]; intros l1 Heq; [exists rebuild_init; split; [done|apply rebuilding_init]|].
  destruct (IH (l1 ++ [op])) as (st & Hst & Hi); [by rewrite <- app_assoc|].
  destruct (rebuild_op_ok vk heads l l1 l2 Hg Hl op st Heq Hi) as (st' & Hst' & Hi'). exists st'. split; [|done].
  unfold rebuild_ops in *. cbn [foldr]. by rewrite Hst.
Qed.

Lemma rebuilding_view vk heads l st : sorted_history heads l -> rebuilding vk heads l st -> view_of vk heads st.
Proof.
  intros Hl [Hm Hls Hp Ha Hr Ho Hd Hc He Hgr]. constructor.
  - done.
  - intros d [_ Hin]%Hm%Hp. by apply (so_all _ _ Hl).
  - intros d Hd'%Hm. by apply Hgr.
  - intros r [_ Hin]%Ha. by apply (so_all _ _ Hl).
  - intros d r Hx%Hm Hrx Heq. assert (signature d ∈ revoked_dlgs st) as Hout%Ho by (apply Hr; by exists r). unfold in_play in Hx. congruence.
  - intros d Hd' Hpf Hun. apply Hm, Hc; [by apply (so_all _ _ Hl)| |intros (r & Hra & Hrs)%Hr; by apply (Hun r)].
    destruct (proof (payload d)) as [p|]; [by apply Hm|done].
  - intros r Hr' Hpf Hx%Hm. revert Hx. apply He; [by apply (so_all _ _ Hl)|].
    destruct (rev_proof (payload r)) as [p|]; [|done]. destruct Hpf as [?|?%Hm]; [by left|by right].
Qed.

Lemma rebuild_heads_ok vk dlgs revs : sound_group (heads_of dlgs revs) ->
  exists st, rebuild_heads vk dlgs revs = Some st /\ view_of vk (heads_of dlgs revs) st.
Proof.
  intros Hg. destruct (reverse_topsort_ok dlgs revs (sg_history _ Hg)) as (l & Hl & Hs).
  destruct (rebuild_ops_ok vk _ l Hg Hs [] l eq_refl) as (st & Hst & Hi). exists st.
  split; [|by apply (rebuilding_view _ _ l)]. unfold rebuild_heads. rewrite Hl. cbn. rewrite <- list_fmap_compose.
  rewrite (list_fmap_ext _ id) by done. by rewrite list_fmap_id.
Qed.
End View.

