(* ===== verification/GroupProps.v ===== *)
(** * What a group guarantees
    ([keyhive/keyhive_core/src/principal/group.rs], [principal/group/state.rs])

    The order of a history, the view rebuilt from it, and the authority of the
    operations a group accepts. *)

From S2P Require Import Prelude TreeMath Crypto Signed CaMap Membership MemberSort MemberExplore MemberOrder GroupState Group GroupView.

Local Open Scope monad_scope.

Section Authority.
Context `{P : Primitives} {T : Type} `{EqDecision T}.
Context `{Ssd : !Serialize (Signed (StaticDelegation T)), Ssr : !Serialize (Signed (StaticRevocation T))}.

Abbreviation delegate_id d := (agent_identifier (delegate (payload d))).

(** Each delegation is issued by the delegate of the next. *)
Fixpoint linked (d : SignedDelegation T) (lineage : list (SignedDelegation T)) : Prop :=
  match lineage with
  | [] => True
  | p :: lineage' => issuer d = delegate_id p /\ linked p lineage'
  end.

(** The chain of proofs leads to the group's own key, link by link, and the
    access is at most that of every proof. *)
Record authorised (id : Identifier) (d : SignedDelegation T) : Prop := {
  au_subject : dlg_subject_id d = id;
  au_links : linked d (proof_lineage (payload d));
  au_access p : p ∈ proof_lineage (payload d) -> (Access_level (can (payload d)) <= Access_level (can (payload p)))%nat;
}.

Lemma check_delegation_chain_spec claimed d lineage :
  match check_delegation_chain claimed d lineage with
  | Ok _ => linked d lineage /\ forall p, p ∈ lineage -> (Access_level claimed <= Access_level (can (payload p)))%nat
  | Err _ => ~ (linked d lineage /\ forall p, p ∈ lineage -> (Access_level claimed <= Access_level (can (payload p)))%nat)
  | _ => False
  end.
Proof.
  revert d. induction lineage as [|p lineage IH]; intros d; cbn [check_delegation_chain linked].
  { split; [done|by intros ? ?%not_elem_of_nil]. }
  unfold Access_ltb. destruct (Nat.ltb_spec (Access_level (can (payload p))) (Access_level claimed)) as [Hlt|Hle].
  { intros [_ H]. specialize (H p (list_elem_of_here _ _)). lia. }
  destruct (decide (issuer d = delegate_id p)) as [Hd|Hd]; [|by intros [[? _] _]].
  specialize (IH p). destruct (check_delegation_chain claimed p lineage); try done.
  - destruct IH as [Hl Ha]. split; [done|]. intros q [->|Hq]%elem_of_cons; [done|by apply Ha].
  - intros [[_ Hl] Ha]. apply IH. split; [done|]. intros q Hq. apply Ha. by right.
Qed.

Lemma root_subject (d : SignedDelegation T) : proof (payload d) = None -> dlg_subject_id d = issuer d.
Proof. unfold dlg_subject_id. destruct d as [[a c p rs ct] i s]. cbn. by intros ->. Qed.

(** ** Heads *)

Lemma update_head_other d (heads : CaMap (SignedDelegation T)) hs k : k <> Digest_hash d ->
  foldl (update_head d) heads hs !! k =
    if existsb (fun h => bool_decide (h.1 = k) && is_ancestor_of (payload h.2) d) hs then None else heads !! k.
Proof.
  intros Hk. revert heads. induction hs as [|[k' h] hs IH]; intros heads; cbn [foldl existsb]; [done|]. rewrite IH.
  destruct (existsb _ hs); [by rewrite orb_true_r|]. rewrite orb_false_r. unfold update_head. cbn [fst snd].
  assert (forall b : bool, (if b then dlg_insert d heads else heads) !! k = heads !! k) as Hins.
  { intros []; [|done]. unfold dlg_insert, CaMap_insert. cbn. by rewrite lookup_insert_ne. }
  destruct (is_ancestor_of (payload h) d); [|by rewrite andb_false_r, Hins]. rewrite andb_true_r. unfold dlg_remove_by_hash. cbn.
  case_bool_decide as Hkk; [subst; by rewrite lookup_delete_eq|]. by rewrite lookup_delete_ne, Hins.
Qed.

Lemma update_head_self d (heads : CaMap (SignedDelegation T)) hs :
  (forall h, h ∈ hs -> h.1 <> Digest_hash d) ->
  foldl (update_head d) heads hs !! Digest_hash d =
    if existsb (fun h => negb (is_ancestor_of (payload d) h.2)) hs then Some d else heads !! Digest_hash d.
Proof.
  revert heads. induction hs as [|[k' h] hs IH]; intros heads Hne; cbn [foldl existsb]; [done|]. rewrite IH by (intros x Hx; apply Hne; by right).
  assert (k' <> Digest_hash d) as Hk' by (apply (Hne (k', h)); left).
  destruct (existsb _ hs); [by rewrite orb_true_r|]. rewrite orb_false_r. unfold update_head, dlg_remove_by_hash, dlg_insert, CaMap_insert. cbn.
  by destruct (is_ancestor_of (payload d) h), (is_ancestor_of (payload h) d); cbn; rewrite ?lookup_delete_ne, ?lookup_insert_eq by done.
Qed.

Lemma drop_revocation_head_sub d (hs : RevocationStore T) l k r :
  rs_revocations (foldl (drop_revocation_head d) hs l) !! k = Some r -> rs_revocations hs !! k = Some r.
Proof.
  revert hs. induction l as [|[k' h] l IH]; intros hs; cbn [foldl]; [done|]. intros H%IH. revert H.
  unfold drop_revocation_head. destruct (existsb _ _); [|done]. unfold rev_remove_by_hash. cbn.
  destruct (rs_revocations hs !! k'); cbn; by intros [_ ?]%lookup_delete_Some.
Qed.

(** The heads after a delegation: those it does not descend from, and itself
    unless every head descends from it. *)
Definition heads_after (d : SignedDelegation T) (g : GroupState T) : CaMap (SignedDelegation T) :=
  foldl (update_head d) (delegation_heads g) (map_to_list (delegation_heads g)).

Lemma heads_after_spec d g : delegation_heads g !! Digest_hash d = None ->
  (forall k h, k <> Digest_hash d ->
     heads_after d g !! k = Some h <-> delegation_heads g !! k = Some h /\ is_ancestor_of (payload h) d = false) /\
  (heads_after d g !! Digest_hash d = Some d <-> exists k h, delegation_heads g !! k = Some h /\ is_ancestor_of (payload d) h = false) /\
  (forall h, heads_after d g !! Digest_hash d = Some h -> h = d).
Proof.
  intros Hnew. unfold heads_after. split.
  - intros k h Hk. rewrite update_head_other by done. destruct (existsb _ _) eqn:Hex.
    + apply existsb_exists in Hex as ([k' h'] & Hin%list_elem_of_In & Hb). cbn in Hb. apply andb_true_iff in Hb as [Hkk Ha].
      apply bool_decide_eq_true in Hkk as ->. apply elem_of_map_to_list in Hin. split; [done|]. intros [Hh Hf]. congruence.
    + split; [|by intros [? _]]. intros Hh. split; [done|]. destruct (is_ancestor_of (payload h) d) eqn:Ha; [|done]. exfalso.
      apply not_true_iff_false in Hex. apply Hex, existsb_exists. exists (k, h).
      split; [by apply list_elem_of_In, elem_of_map_to_list|]. cbn. by rewrite Ha, bool_decide_eq_true_2.
  - rewrite update_head_self by (intros [k h] Hh%elem_of_map_to_list Hk; cbn in Hk; congruence). rewrite Hnew. destruct (existsb _ _) eqn:Hex.
    + apply existsb_exists in Hex as ([k h] & Hin%list_elem_of_In & Hb%negb_true_iff). apply elem_of_map_to_list in Hin.
      split; [split; [intros _; by exists k, h|done]|by intros ? [= ->]].
    + split; [|done]. split; [done|]. intros (k & h & Hh & Ha). apply not_true_iff_false in Hex. destruct Hex. apply existsb_exists.
      exists (k, h). split; [by apply list_elem_of_In, elem_of_map_to_list|]. cbn. by rewrite Ha.
Qed.

(** ** Adding to the state *)

Definition state_after (d : SignedDelegation T) (g : GroupState T) : GroupState T :=
  mkGroupState (gs_id g) (dlg_insert d (gs_delegations g)) (heads_after d g) (gs_revocations g)
    (foldl (drop_revocation_head d) (revocation_heads g) (map_to_list (rs_revocations (revocation_heads g)))).

Lemma add_delegation_spec d (g : GroupState T) :
  match add_delegation d g with
  | (Ok h, g') => authorised (gs_id g) d /\ h = Digest_hash d /\ g' = state_after d g
  | (Err _, g') => ~ authorised (gs_id g) d /\ g' = g
  | _ => False
  end.
Proof.
  unfold add_delegation, bindM at 1, get. case_bool_decide as Hsub; cbn [negb]; [|split; [by intros []|done]].
  destruct (dlg_is_root (payload d) && negb (bool_decide (issuer d = gs_id g))) eqn:Hroot.
  { apply andb_true_iff in Hroot as [Hr Hn]. apply negb_true_iff, bool_decide_eq_false in Hn. split; [|done]. intros [Hs _ _].
    unfold dlg_is_root in Hr. rewrite root_subject in Hs by (by destruct (proof (payload d))). done. }
  unfold bindM at 1, liftR. pose proof (check_delegation_chain_spec (can (payload d)) d (proof_lineage (payload d))) as Hc.
  destruct (check_delegation_chain _ _ _) as [[]|e| |]; try done.
  - split; [|done]. by destruct Hc as [Hl Ha].
  - split; [|done]. intros [_ Hl Ha]. by apply Hc.
Qed.

(** What a revocation needs: a proof that is the delegation or one of its
    ancestors, with at most the access of each of its own ancestors, all of
    which are delegated to its issuer; or to come from the group's key. *)
Definition revocation_accepted (id : Identifier) (r : SignedRevocation T) : Prop :=
  rev_subject_id r = id /\
  match rev_proof (payload r) with
  | None => issuer r = id
  | Some p =>
      (Signed_eq (revoke (payload r)) p = true \/ is_descendant_of (payload (revoke (payload r))) p = true) /\
      forall q, q ∈ proof_lineage (payload p) ->
        (Access_level (can (payload p)) <= Access_level (can (payload q)))%nat /\ issuer p = delegate_id q
  end.

Lemma check_revocation_chain_spec (p : SignedDelegation T) lineage :
  let ok := forall q, q ∈ lineage -> (Access_level (can (payload p)) <= Access_level (can (payload q)))%nat /\ issuer p = delegate_id q in
  match check_revocation_chain p p lineage with Ok _ => ok | Err _ => ~ ok | _ => False end.
Proof.
  cbn zeta. induction lineage as [|q lineage IH]; cbn [check_revocation_chain]; [by intros ? ?%not_elem_of_nil|].
  unfold Access_ltb. destruct (Nat.ltb_spec (Access_level (can (payload q))) (Access_level (can (payload p)))) as [Hlt|Hle].
  { intros H. destruct (H q (list_elem_of_here _ _)). lia. }
  destruct (decide (issuer p = delegate_id q)) as [Hd|Hd]; [|intros H; by destruct (H q (list_elem_of_here _ _))].
  destruct (check_revocation_chain p p lineage); try done.
  - intros x [->|Hx]%elem_of_cons; [done|by apply IH].
  - intros H. apply IH. intros x Hx. apply H. by right.
Qed.

Lemma add_revocation_spec r (g : GroupState T) :
  match add_revocation r g with
  | (Ok h, g') => revocation_accepted (gs_id g) r /\ h = Digest_hash r /\
      g' = mkGroupState (gs_id g) (gs_delegations g) (delegation_heads g)
             (rev_store_insert r (gs_revocations g)) (rev_store_insert r (revocation_heads g))
  | (Err _, g') => ~ revocation_accepted (gs_id g) r /\ g' = g
  | _ => False
  end.
Proof.
  unfold add_revocation, bindM at 1, get. unfold revocation_accepted.
  case_bool_decide as Hsub; cbn [negb]; [|split; [by intros []|done]].
  unfold bindM at 1, liftR, check_revocation. destruct (rev_proof (payload r)) as [p|].
  - destruct (negb _ && negb _) eqn:Hn.
    { apply andb_true_iff in Hn as [H1%negb_true_iff H2%negb_true_iff]. split; [|done]. intros [_ [[?|?] _]]; congruence. }
    pose proof (check_revocation_chain_spec p (proof_lineage (payload p))) as Hc. cbn zeta in Hc.
    destruct (check_revocation_chain p p _) as [[]|e| |]; try done.
    + split; [|done]. split; [done|]. split; [|done]. apply andb_false_iff in Hn as [?%negb_false_iff|?%negb_false_iff]; auto.
    + split; [|done]. by intros [_ [_ ?]].
  - destruct (decide (issuer r = gs_id g)); split; try done; by intros [].
Qed.

(** ** Creating a state *)

Abbreviation heads_size l := (sum_list_with (fun d : SignedDelegation T => dlg_size (payload d)) l).
Abbreviation revs_size l := (sum_list_with (fun r : SignedRevocation T => rev_size (payload r)) l).

Lemma dlg_size_eq (d : Delegation T) :
  dlg_size d = Datatypes.S (match proof d with Some p => dlg_size (payload p) | None => 0 end + revs_size (after_revocations d)).
Proof. by destruct d. Qed.

Lemma lineage_revs_size (d : Delegation T) :
  (revs_size (after_revocations d) + sum_list_with (fun p => revs_size (after_revocations (payload p))) (proof_lineage d) < dlg_size d)%nat.
Proof.
  remember (dlg_size d) as n eqn:Hn. revert d Hn. induction n as [n IH] using lt_wf_ind. intros d ->.
  pose proof (dlg_size_eq d) as Heq. destruct d as [a c [p|] revs content]; cbn [proof proof_lineage sum_list_with after_revocations] in *; [|lia].
  specialize (IH (dlg_size (payload p)) ltac:(lia) (payload p) eq_refl). lia.
Qed.

Lemma record_revocations_size st (revs : list (SignedRevocation T)) :
  (heads_size (foldl record_revocation st revs).2 <= heads_size st.2 + revs_size revs)%nat.
Proof.
  revert st. induction revs as [|r revs IH]; intros [rs hs]; cbn [foldl sum_list_with]; [cbn; lia|]. etrans; [apply IH|].
  unfold record_revocation. cbn [fst snd]. pose proof (after_auth_rev_proof r) as Hp.
  destruct (rev_proof (payload r)) as [p|]; cbn [sum_list_with]; [|lia].
  specialize (Hp p eq_refl). apply after_auth_smaller in Hp. cbn in Hp. lia.
Qed.

Lemma record_lineage_size st (lineage : list (SignedDelegation T)) :
  (heads_size (foldl record_lineage st lineage).2.2 <=
   heads_size st.2.2 + sum_list_with (fun p => revs_size (after_revocations (payload p))) lineage)%nat.
Proof.
  revert st. induction lineage as [|p lineage IH]; intros [ds st]; cbn [foldl sum_list_with]; [cbn; lia|]. etrans; [apply IH|].
  unfold record_lineage. cbn [fst snd]. pose proof (record_revocations_size st (after_revocations (payload p))). lia.
Qed.

Lemma record_heads_total fuel : forall heads (ds : CaMap (SignedDelegation T)) rs, (heads_size heads <= fuel)%nat ->
  exists ds' rs', record_heads fuel heads ds rs = Some (ds', rs') /\ forall k, is_Some (ds !! k) -> is_Some (ds' !! k).
Proof.
  induction fuel as [|fuel IH]; intros [|h heads] ds rs Hf; cbn [record_heads]; [by exists ds, rs| |by exists ds, rs|].
  { exfalso. cbn in Hf. pose proof (dlg_size_eq (payload h)). lia. }
  cbn [sum_list_with] in Hf. pose proof (lineage_revs_size (payload h)) as Hl.
  destruct (dlg_contains_value h ds); [apply IH; lia|].
  pose proof (record_lineage_size (dlg_insert h ds, (rs, heads)) (proof_lineage (payload h))) as Hs. cbn [snd] in Hs.
  assert (forall k, is_Some (ds !! k) -> is_Some ((foldl record_lineage (dlg_insert h ds, (rs, heads)) (proof_lineage (payload h))).1 !! k)) as Hk.
  { clear. intros k Hk. assert (is_Some ((dlg_insert h ds, (rs, heads)).1 !! k)) as H0 by (cbn; apply lookup_insert_is_Some'; auto).
    revert H0. generalize (dlg_insert h ds, (rs, heads)). induction (proof_lineage (payload h)) as [|p l IH]; intros st H0; cbn [foldl]; [done|].
    apply IH. cbn. apply lookup_insert_is_Some'. auto. }
  destruct (foldl record_lineage _ _) as [ds1 [rs1 heads1]]. cbn [fst snd] in *.
  destruct (IH heads1 ds1 rs1) as (ds' & rs' & Hr & Hd); [lia|]. exists ds', rs'. auto.
Qed.

(** ** Members come from the history *)

Lemma explore_loop_known heads fuel stack e e' :
  explore_loop fuel stack e = Some e' -> (forall op, op ∈ stack -> reaches heads op) ->
  (forall k v, all_ops e !! k = Some v -> reaches heads v.1) -> forall k v, all_ops e' !! k = Some v -> reaches heads v.1.
Proof.
  revert stack e. induction fuel as [|fuel IH]; intros [|op stack] e He Hst Hk; cbn in He; [by simplify_eq|done|by simplify_eq|].
  destruct (bool_decide _) eqn:Hb; intros k v; apply (IH _ _ He); try done.
  - intros x Hx. apply Hst. by right.
  - intros x [Hx|Hx]%elem_of_app; [|apply Hst; by right]. rewrite elem_of_reverse in Hx. apply (reaches_after _ op); [apply Hst; left|done].
  - intros k0 v0. cbn. intros [[_ <-]|[_ ?]]%lookup_insert_Some; [apply Hst; left|by apply (Hk k0)].
Qed.

Lemma reverse_topsort_reached dlgs revs ops op :
  reverse_topsort dlgs revs = Some ops -> op ∈ snd <$> ops -> reaches (heads_of dlgs revs) op.
Proof.
  unfold reverse_topsort. destruct (explore_heads _) as [e|] eqn:He; [|done]. cbn. destruct (distance_to_root _) as [dist|]; [|done]. cbn.
  destruct (drain _ _ _ _ _ _) as [out|]; [|done]. cbn. intros Hm ([k op'] & -> & Hin)%list_elem_of_fmap.
  apply mapM_Some_1, Forall2_flip in Hm. apply list_elem_of_lookup in Hin as [i Hi].
  destruct (Forall2_lookup_l _ _ _ _ _ Hm Hi) as (d & _ & Hd). cbn in Hd. apply fmap_Some in Hd as ([op0 ps] & Hop & [= -> ->]).
  unfold explore_heads in He. apply (explore_loop_known (heads_of dlgs revs) _ _ _ _ He) with (v := (op0, ps)) (k := d); [| |done]; [|intros ?? H; cbn in H; by rewrite lookup_empty in H].
  intros x Hx. rewrite elem_of_reverse in Hx. by apply reaches_head.
Qed.

Lemma drop_members_sub (ms : gmap Identifier (list (SignedDelegation T))) xs id d :
  d ∈ default [] (foldl drop_member ms xs !! id) -> d ∈ default [] (ms !! id).
Proof.
  revert ms. induction xs as [|x xs IH]; intros ms; cbn [foldl]; [done|]. intros H%IH. revert H. unfold drop_member.
  destruct (filter _ _) as [|y ys] eqn:Hf; destruct (decide (x.1 = id)) as [<-|Hne].
  - rewrite lookup_delete_eq. by intros ?%not_elem_of_nil.
  - by rewrite lookup_delete_ne.
  - rewrite lookup_insert_eq. cbn [default]. rewrite <- Hf. by intros [_ ?]%list_elem_of_filter.
  - by rewrite lookup_insert_ne.
Qed.

Lemma rebuild_ops_members vk (ops : list (MembershipOperation T)) st id d :
  rebuild_ops vk ops = Some st -> d ∈ default [] (rb_members st !! id) -> OpDelegation d ∈ ops.
Proof.
  revert st. induction ops as [|op ops IH]; intros st; cbn; [intros [= <-]; cbn; rewrite lookup_empty; by intros ?%not_elem_of_nil|].
  destruct (foldr _ _ ops) as [st0|] eqn:H0; [|done]. cbn. destruct op as [d0|r]; cbn [rebuild_op].
  - intros [= <-]. unfold rebuild_delegation. destruct (note_dependency_view d0 st0) as (E & _).
    destruct (delegation_unproven _ _ _); [rewrite E; right; by apply (IH st0)|].
    case_bool_decide; [rewrite E; right; by apply (IH st0)|]. cbn. rewrite E.
    destruct (decide (delegate_id d0 = id)) as [<-|Hne]; [rewrite lookup_insert_eq|rewrite lookup_insert_ne by done; right; by apply (IH st0)].
    cbn [default]. intros [Hd| ->%list_elem_of_singleton]%elem_of_app; [right; by apply (IH st0)|left].
  - unfold rebuild_revocation. destruct (revocation_unproven _ _ _); [intros [= <-] Hd; right; by apply (IH st0)|].
    destruct (cascade _ _ _) as [c|]; [|done]. cbn. intros [= <-] Hd%drop_members_sub. right. by apply (IH st0).
Qed.

(** ** Deliveries *)

Definition group_heads (g : @Group T) : list (MembershipOperation T) :=
  heads_of (dlg_values (delegation_heads (g_state g))) (rev_values (revocation_heads (g_state g))).
Definition reached (g : @Group T) (op : MembershipOperation T) : Prop := reaches (group_heads g) op.

(** An operation is delivered after those it comes after. *)
Inductive delivery : @Group T -> @Group T -> Prop :=
  | deliver_delegation g d h g' : (forall op, op ∈ after_auth (OpDelegation d) -> reached g op) ->
      receive_delegation d g = (Ok h, g') -> delivery g g'
  | deliver_revocation g r h g' : (forall op, op ∈ after_auth (OpRevocation r) -> reached g op) ->
      receive_revocation r g = (Ok h, g') -> delivery g g'.

(** Every delegation of the history is authorised, and the members are from it. *)
Record entitled (g : @Group T) : Prop := {
  en_authorised d : reached g (OpDelegation d) -> authorised (group_id g) d;
  en_members id d : d ∈ default [] (members g !! id) -> reached g (OpDelegation d);
}.

Lemma rebuild_entitled {Er} (g g' : @Group T) u :
  @rebuild _ _ _ _ Er g = (Ok u, g') -> (forall d, reached g (OpDelegation d) -> authorised (group_id g) d) ->
  entitled g' /\ group_id g' = group_id g.
Proof.
  unfold rebuild, bindM, get, loop_result, modify. destruct (rebuild_heads _ _ _) as [st|] eqn:Hst; [|done]. intros [= _ <-] Ha.
  split; [|done]. constructor; [done|]. intros id d Hd. cbn in Hd. unfold rebuild_heads in Hst.
  destruct (reverse_topsort _ _) as [ops|] eqn:Ht; [|done]. apply (reverse_topsort_reached _ _ _ _ Ht). by apply (rebuild_ops_members _ _ _ _ _ Hst Hd).
Qed.

(** Heads of the new state that are not the new operation were heads before. *)
Lemma heads_after_known d g op :
  op ∈ group_heads (set_state (state_after d (g_state g)) g) -> op = OpDelegation d \/ op ∈ group_heads g.
Proof.
  unfold group_heads. cbn. intros [(x & -> & ([k x'] & -> & Hx%elem_of_map_to_list)%list_elem_of_fmap)%list_elem_of_fmap|
    (x & -> & ([k x'] & -> & Hx%elem_of_map_to_list)%list_elem_of_fmap)%list_elem_of_fmap]%elem_of_app; cbn.
  - unfold heads_after in Hx. assert (x' = d \/ delegation_heads (g_state g) !! k = Some x') as [->|Hk]; [|by left|right].
    + revert Hx. generalize (map_to_list (delegation_heads (g_state g))). intros hs.
      generalize (delegation_heads (g_state g)). induction hs as [|[k' h] hs IH]; intros m; cbn [foldl]; [by right|].
      intros [?|Hm]%IH; [by left|]. revert Hm. unfold update_head, dlg_remove_by_hash, dlg_insert, CaMap_insert. cbn.
      destruct (is_ancestor_of (payload d) h), (is_ancestor_of (payload h) d); cbn.
      * intros [_ ?]%lookup_delete_Some. by right.
      * by right.
      * intros [_ [[_ ?]|[_ ?]]%lookup_insert_Some]%lookup_delete_Some; [by left|by right].
      * intros [[_ ?]|[_ ?]]%lookup_insert_Some; [by left|by right].
    + apply elem_of_app. left. apply list_elem_of_fmap. exists x'. split; [done|]. apply list_elem_of_fmap. exists (k, x'). by rewrite elem_of_map_to_list.
  - right. apply elem_of_app. right. apply list_elem_of_fmap. exists x'. split; [done|]. apply list_elem_of_fmap. exists (k, x').
    rewrite elem_of_map_to_list. split; [done|]. by apply drop_revocation_head_sub in Hx.
Qed.

Lemma heads_of_elem (dlgs : CaMap (SignedDelegation T)) (revs : RevocationStore T) op :
  op ∈ heads_of (dlg_values dlgs) (rev_values revs) <->
  (exists k d, dlgs !! k = Some d /\ op = OpDelegation d) \/ (exists k r, rs_revocations revs !! k = Some r /\ op = OpRevocation r).
Proof.
  unfold dlg_values, rev_values. rewrite elem_of_app, !list_elem_of_fmap. split.
  - intros [(x & -> & ([k y] & -> & Hy%elem_of_map_to_list)%list_elem_of_fmap)|(x & -> & ([k y] & -> & Hy%elem_of_map_to_list)%list_elem_of_fmap)];
      [left|right]; by exists k, y.
  - intros [(k & x & Hx & ->)|(k & x & Hx & ->)]; [left|right]; exists x; (split; [done|]); apply list_elem_of_fmap; exists (k, x);
      by rewrite elem_of_map_to_list.
Qed.

Lemma delivered_authorised (g : @Group T) heads op0 :
  entitled g -> (forall op, op ∈ heads -> op = op0 \/ op ∈ group_heads g) -> (forall op, op ∈ after_auth op0 -> reached g op) ->
  (forall d, op0 = OpDelegation d -> authorised (group_id g) d) -> forall d, reaches heads (OpDelegation d) -> authorised (group_id g) d.
Proof.
  intros [Ha _] Hh Hafter Hop0 d Hd.
  assert (OpDelegation d = op0 \/ reached g (OpDelegation d)) as [Heq|Hr]; [|by apply Hop0|by apply Ha].
  remember (OpDelegation d) as op eqn:Hop. clear Hop. induction Hd as [op [->|Hin]%Hh|op p _ [->|IH] Hp]; [by left|right; by apply reaches_head|right..].
  - by apply Hafter.
  - by apply (reaches_after _ op).
Qed.

Lemma delivery_entitled (g g' : @Group T) : delivery g g' -> entitled g -> entitled g' /\ group_id g' = group_id g.
Proof.
  intros [g0 d h g1 Hafter Hr|g0 r h g1 Hafter Hr] He.
  - unfold receive_delegation, bindM at 1, zoom in Hr. pose proof (add_delegation_spec d (g_state g0)) as Hs.
    destruct (add_delegation d (g_state g0)) as [[h'|e| |] s']; try done. destruct Hs as (Hau & -> & ->).
    apply bindM_inv in Hr as (u & g2 & Hreb & [= _ <-]).
    apply rebuild_entitled in Hreb as [? Hid]; [by split|]. intros x Hx.
    apply (delivered_authorised g0 _ (OpDelegation d) He) in Hx; [done|intros op; apply heads_after_known|done|by intros ? [= <-]].
  - unfold receive_revocation in Hr. unfold bindM at 1, modify in Hr. unfold bindM at 1, zoom in Hr. cbn [notify g_state] in Hr.
    pose proof (add_revocation_spec r (g_state g0)) as Hs.
    destruct (add_revocation r (g_state g0)) as [[h'|e| |] s']; try done. destruct Hs as (Hau & -> & ->).
    apply bindM_inv in Hr as (u & g2 & Hreb & [= _ <-]).
    apply rebuild_entitled in Hreb as [? Hid]; [by split|]. intros x Hx.
    apply (delivered_authorised g0 _ (OpRevocation r) He) in Hx; [done| |done|done].
    intros op. unfold group_heads. cbn. rewrite !heads_of_elem. cbn. intros [?|(k & y & [[_ <-]|[_ Hy]]%lookup_insert_Some & ->)]; [right; by left|by left|].
    right. right. by exists k, y.
Qed.

Lemma root_authorised vk parent content s : authorised vk (mkSigned (@root_delegation T parent content) vk s).
Proof. constructor; [done|done|by intros ? ?%not_elem_of_nil]. Qed.

Lemma sign_parents_heads `{Sd : !Serialize (Delegation T)} signer vk parents content heads log ds res ds' :
  sign_parents signer vk parents content heads log ds = (Ok res, ds') ->
  map_Forall (fun _ d => exists parent s, d = mkSigned (root_delegation parent content) vk s) heads ->
  map_Forall (fun _ d => exists parent s, d = mkSigned (root_delegation parent content) vk s) res.1.
Proof.
  revert heads log ds. induction parents as [|a parents IH]; intros heads log ds; cbn [sign_parents]; [by intros [= <- <-]|].
  unfold bindM at 1, liftR, try_sign_basic, bindR. destruct (signer _) as [s| | |]; try done. unfold bindM at 1, modify.
  intros Hs Hh. apply (IH _ _ _ Hs). apply map_Forall_insert_2; [by exists a, s|done].
Qed.

Lemma roots_reached (heads : CaMap (SignedDelegation T)) vk content op :
  map_Forall (fun _ d => exists parent s, d = mkSigned (root_delegation parent content) vk s) heads ->
  reaches (heads_of (dlg_values heads) (rev_values rev_store_new)) op -> exists a s, op = OpDelegation (mkSigned (root_delegation a content) vk s).
Proof.
  intros Hs. induction 1 as [x Hx|x p _ (a & s & ->) Hp]; [|by apply not_elem_of_nil in Hp].
  apply heads_of_elem in Hx as [(k & d & Hd0 & ->)|(k & r & Hr0 & ->)]; [|cbn in Hr0; by rewrite lookup_empty in Hr0].
  destruct (Hs k d Hd0) as (a & s & ->). by exists a, s.
Qed.

Lemma generated_entitled `{Sd : !Serialize (Delegation T)} signer vk parents content rs log ds g ds' :
  generate_after_content signer vk parents content rs log ds = (Ok g, ds') -> entitled g /\ group_id g = vk.
Proof.
  unfold generate_after_content. intros ([heads log'] & ds1 & Hs & Hgen)%bindM_inv. unfold bindM at 1, get in Hgen.
  destruct (rebuild _) as [r g0] eqn:Hr. apply bindM_inv in Hgen as (u & ds2 & Hu & Hgen).
  unfold liftR in Hu. injection Hu as -> ->. injection Hgen as -> ->.
  apply sign_parents_heads in Hs; [|apply map_Forall_empty]. apply rebuild_entitled in Hr; [done|].
  intros d Hd. destruct (roots_reached _ _ _ _ Hs Hd) as (a & s & [= ->]). apply root_authorised.
Qed.
End Authority.


(** A group's state takes a revocation in exactly when it comes from the
    group's key, or its proof is the revoked delegation or an ancestor of it,
    has at most the access of each of its own ancestors, and each of these is
    delegated to the proof's issuer.  Otherwise the state is unchanged. *)
Theorem add_revocation_correct `{P : Primitives} {T : Type} `{EqDecision T}
    `{Ssd : !Serialize (Signed (StaticDelegation T)), Ssr : !Serialize (Signed (StaticRevocation T))} r (g : GroupState T) :
  match add_revocation r g with
  | (Ok h, g') => revocation_accepted (gs_id g) r /\ h = Digest_hash r /\
      g' = mkGroupState (gs_id g) (gs_delegations g) (delegation_heads g)
             (rev_store_insert r (gs_revocations g)) (rev_store_insert r (revocation_heads g))
  | (Err _, g') => ~ revocation_accepted (gs_id g) r /\ g' = g
  | _ => False
  end.
Proof. apply add_revocation_spec. Qed.

(** C7. No escalation: after generating a group and receiving operations, each
    after those it comes after, every delegation of a member has a chain of
    proofs that leads link by link to the group's key, and at most the access of
    every delegation of the chain. *)
Theorem group_no_escalation `{P : Primitives} {T : Type} `{EqDecision T}
    `{Ssd : !Serialize (Signed (StaticDelegation T)), Ssr : !Serialize (Signed (StaticRevocation T)), Sd : !Serialize (Delegation T)}
    signer vk parents content rs log ds g ds' g' :
  generate_after_content signer vk parents content rs log ds = (Ok g, ds') -> rtc delivery g g' ->
  forall id d, d ∈ default [] (members g' !! id) -> authorised vk d.
Proof.
  intros Hgen Hdel. destruct (generated_entitled _ _ _ _ _ _ _ _ _ Hgen) as [Hg Hid].
  assert (entitled g' /\ group_id g' = vk) as [[Ha Hm] Hid'].
  { clear Hgen. induction Hdel as [g|g1 g2 g3 H12 _ IH]; [done|]. destruct (delivery_entitled _ _ H12 Hg) as [Hg2 Hid2]. apply IH; congruence. }
  intros id d Hd. rewrite <- Hid'. by apply Ha, (Hm id).
Qed.

(** Creating the state of a group from a head always returns: the loop over
    the heads of the history it stores runs at most once per operation below the
    head. *)
Theorem group_state_new_total `{P : Primitives} {T : Type}
    `{Ssd : !Serialize (Signed (StaticDelegation T)), Ssr : !Serialize (Signed (StaticRevocation T))}
    (head : SignedDelegation T) (ds : CaMap (SignedDelegation T)) (rs : RevocationStore T) :
  exists g, GroupState_new head ds rs = Some g /\ gs_id g = issuer head /\
    delegation_heads g = {[Digest_hash head := head]} /\ revocation_heads g = rev_store_new /\
    forall k, is_Some (ds !! k) -> is_Some (gs_delegations g !! k).
Proof.
  unfold GroupState_new. destruct (record_heads_total (dlg_size (payload head)) [head] ds rs) as (ds' & rs' & -> & Hd); [cbn; lia|].
  eexists. by split_and!.
Qed.
