(* ===== verification/GroupChange.v ===== *)
(** * Adding and revoking members
    ([keyhive/keyhive_core/src/principal/group.rs], [add_member] and
    [revoke_member]) *)

From S2P Require Import Prelude TreeMath Crypto Signed CaMap Membership MemberSort MemberExplore MemberOrder GroupState Group GroupView GroupProps.

Local Open Scope monad_scope.

Section Changes.
Context `{P : Primitives} {T : Type} `{EqDecision T}.
Context `{Ssd : !Serialize (Signed (StaticDelegation T)), Ssr : !Serialize (Signed (StaticRevocation T))}.
Context `{Sd : !Serialize (Delegation T), Sr : !Serialize (Revocation T)}.

Abbreviation delegate_id d := (agent_identifier (delegate (payload d))).

(** ** The capability of a member *)

Lemma max_by_can_spec (l : list (SignedDelegation T)) :
  match max_by_can l with
  | Some p => p ∈ l /\ forall q, q ∈ l -> (Access_level (can (payload q)) <= Access_level (can (payload p)))%nat
  | None => l = []
  end.
Proof.
  unfold max_by_can. induction l as [|d l IH] using rev_ind; [done|]. rewrite foldl_app. cbn [foldl].
  destruct (foldl _ None l) as [b|]; [|subst l; split; [left|intros q ->%list_elem_of_singleton; done]].
  destruct IH as [Hb Hmax]. unfold Access_leb. destruct (Nat.leb_spec (Access_level (can (payload b))) (Access_level (can (payload d)))) as [Hle|Hlt].
  - split; [apply elem_of_app; right; left|]. intros q [Hq| ->%list_elem_of_singleton]%elem_of_app; [|done]. specialize (Hmax q Hq). lia.
  - split; [apply elem_of_app; by left|]. intros q [Hq| ->%list_elem_of_singleton]%elem_of_app; [by apply Hmax|lia].
Qed.

(** The best delegation the group has for a member. *)
Definition capability_of (id : Identifier) (g : @Group T) (p : SignedDelegation T) : Prop :=
  p ∈ default [] (members g !! id) /\
  forall q, q ∈ default [] (members g !! id) -> (Access_level (can (payload q)) <= Access_level (can (payload p)))%nat.

Lemma get_capability_spec id (g : @Group T) :
  match get_capability id g with Some p => capability_of id g p | None => default [] (members g !! id) = [] end.
Proof.
  unfold get_capability, capability_of. destruct (members g !! id) as [ds|]; cbn; [|done]. apply max_by_can_spec.
Qed.

(** What a delegation made by [signer_key] rests on. *)
Definition proven_by (signer_key : VerifyingKey) (wanted : Access) (g : @Group T) (pf : option (SignedDelegation T)) : Prop :=
  match pf with
  | None => group_id g = signer_key
  | Some p => group_id g <> signer_key /\ capability_of signer_key g p /\ (Access_level wanted <= Access_level (can (payload p)))%nat
  end.

Lemma add_member_proof_spec vk wanted (g : @Group T) :
  match add_member_proof vk wanted g with
  | Ok pf => proven_by vk wanted g pf
  | Err e => group_id g <> vk /\
      (e = AddMemberNoProof /\ default [] (members g !! vk) = [] \/
       exists p, capability_of vk g p /\ (Access_level (can (payload p)) < Access_level wanted)%nat /\ e = AccessEscalation wanted (can (payload p)))
  | _ => False
  end.
Proof.
  unfold add_member_proof. destruct (decide (group_id g = vk)) as [Heq|Hne]; [done|]. pose proof (get_capability_spec vk g) as Hc.
  destruct (get_capability vk g) as [p|]; cbn [ok_orR bindR]; [|split; [done|by left]]. unfold Access_ltb.
  destruct (Nat.ltb_spec (Access_level (can (payload p))) (Access_level wanted)) as [Hlt|Hle]; cbn [proven_by]; [|by split_and!]. split; [done|]. right. by exists p.
Qed.

Lemma receive_delegation_fails d (g g' : @Group T) e : receive_delegation d g = (Err e, g') -> g' = g /\ ~ authorised (group_id g) d.
Proof.
  unfold receive_delegation, bindM, zoom. pose proof (add_delegation_spec d (g_state g)) as Hs.
  destruct (add_delegation d (g_state g)) as [[h|e'| |] s]; try done.
  - unfold rebuild, bindM, get, loop_result, modify. by destruct (rebuild_heads _ _ _).
  - destruct Hs as [Hn ->]. intros [= -> <-]. split; [by destruct g|done].
Qed.

Lemma receive_delegation_accepts d (g g' : @Group T) h : receive_delegation d g = (Ok h, g') ->
  authorised (group_id g) d /\ g_state g' = state_after d (g_state g) /\ notified g' = notified g /\ h = Digest_hash d.
Proof.
  unfold receive_delegation, bindM, zoom. pose proof (add_delegation_spec d (g_state g)) as Hs.
  destruct (add_delegation d (g_state g)) as [[h'|e'| |] s]; try done. destruct Hs as (Ha & -> & ->).
  unfold rebuild, bindM, get, loop_result, modify. destruct (rebuild_heads _ _ _); [|done]. by intros [= <- <-].
Qed.

(** ** Adding *)

Lemma add_member_spec member access signer content (g : @Group T) :
  match add_member_with_manual_content member access signer content g with
  | (Ok u, g') => exists pf s, let d := mkSigned (mkDelegation member access pf (rev_values (revocation_heads (g_state g))) content)
                                         (signer_verifying_key signer) s in
      am_delegation u = d /\ am_cgka_ops u = [] /\ proven_by (signer_verifying_key signer) access g pf /\ authorised (group_id g) d /\
      g_state g' = state_after d (g_state g) /\ notified g' = notified g ++ [OpDelegation d]
  | (Err e, g') => g' = g /\
      match e with
      | AddMemberNoProof => group_id g <> signer_verifying_key signer /\ default [] (members g !! signer_verifying_key signer) = []
      | AccessEscalation wanted have => wanted = access /\ group_id g <> signer_verifying_key signer /\
          exists p, capability_of (signer_verifying_key signer) g p /\ have = can (payload p) /\ (Access_level have < Access_level wanted)%nat
      | AddMemberSigningError _ | AddMemberAddError _ => True
      | AddMemberCgkaError _ => False
      end
  | _ => True
  end.
Proof.
  unfold add_member_with_manual_content. unfold bindM at 1, readM. pose proof (add_member_proof_spec (signer_verifying_key signer) access g) as Hp.
  destruct (add_member_proof _ access g) as [pf|e| |]; [|destruct Hp as [Hne [[-> Hnone]|(p & Hcap & Hlt & ->)]]; split; eauto 8|done..].
  unfold bindM at 1, get. unfold bindM at 1, liftR, try_sign_async, bindR.
  destruct (try_sign_bytes_async signer _) as [s|e| |]; cbn [res_map_err]; [|done..].
  unfold bindM at 1, map_err. destruct (receive_delegation _ g) as [[h|e| |] g'] eqn:Hr; cbn [res_map_err]; [| |done..].
  - unfold bindM, modify, ret. apply receive_delegation_accepts in Hr as (Ha & Hs & Hn & _). exists pf, s. cbn. rewrite Hs, Hn. by split_and!.
  - apply receive_delegation_fails in Hr as [-> _]. done.
Qed.

(** ** Revoking *)

Definition rev_heads_of (g : @Group T) : CaMap (SignedRevocation T) := rs_revocations (revocation_heads (g_state g)).

(** From [g] to [g'] the revocations [new] were issued by [vk], each with the
    proof [ok] allows, and all are heads now. *)
Record revoked_more (vk : VerifyingKey) (ok : SignedDelegation T -> option (SignedDelegation T) -> Prop) (g g' : @Group T)
    (new : list (SignedRevocation T)) : Prop := {
  rm_issued r : r ∈ new -> issuer r = vk /\ ok (revoke (payload r)) (rev_proof (payload r)) /\ is_Some (rev_heads_of g' !! Digest_hash r);
  rm_heads k : is_Some (rev_heads_of g !! k) -> is_Some (rev_heads_of g' !! k);
  rm_group : group_id g' = group_id g;
}.

Lemma revoked_more_nil vk ok (g : @Group T) : revoked_more vk ok g g [].
Proof. constructor; [by intros ? ?%not_elem_of_nil|done|done]. Qed.

Lemma revoked_more_app vk ok (g1 g2 g3 : @Group T) new new' :
  revoked_more vk ok g1 g2 new -> revoked_more vk ok g2 g3 new' -> revoked_more vk ok g1 g3 (new ++ new').
Proof.
  intros [Hi Hh Hg] [Hi' Hh' Hg']. constructor; [|auto|congruence].
  intros r [Hr|Hr]%elem_of_app; [|by apply Hi']. destruct (Hi r Hr) as (? & ? & ?). auto.
Qed.

Lemma receive_revocation_accepts r (g g' : @Group T) h : receive_revocation r g = (Ok h, g') ->
  revocation_accepted (group_id g) r /\ rev_heads_of g' = <[Digest_hash r := r]> (rev_heads_of g) /\ group_id g' = group_id g.
Proof.
  unfold receive_revocation. unfold bindM at 1, modify. unfold bindM at 1, zoom. cbn [notify g_state].
  pose proof (add_revocation_spec r (g_state g)) as Hs. destruct (add_revocation r (g_state g)) as [[h'|e'| |] s]; try done.
  destruct Hs as (Ha & -> & ->). unfold rebuild, bindM, get, loop_result, modify. destruct (rebuild_heads _ _ _); [|done]. by intros [= <- <-].
Qed.

Lemma issue_revocation_spec signer d pf content acc (g g' : @Group T) acc' (ok : _ -> _ -> Prop) : ok d pf ->
  issue_revocation signer d pf content acc g = (Ok acc', g') ->
  exists r, acc' = acc ++ [r] /\ revoke (payload r) = d /\ revoked_more (signer_verifying_key signer) ok g g' [r].
Proof.
  intros Hok. unfold issue_revocation, build_revocation. unfold bindM at 1, liftR, try_sign_async, bindR.
  destruct (try_sign_bytes_async signer _) as [s| | |]; cbn [res_map_err]; [|done..].
  unfold bindM, map_err. destruct (receive_revocation _ g) as [[h|e| |] g2] eqn:Hr; cbn [res_map_err]; [|done..]. intros [= <- <-].
  apply receive_revocation_accepts in Hr as (_ & Hh & Hg). eexists. split_and!; [done|done|]. constructor; [|by rewrite Hh; intros k; rewrite lookup_insert_is_Some'; auto|done].
  intros r ->%list_elem_of_singleton. split_and!; [done|done|]. rewrite Hh, lookup_insert_eq. done.
Qed.

Lemma foldM_issued {A} vk ok (f : list (SignedRevocation T) -> A -> M (@Group T) RevokeMemberError (list (SignedRevocation T)))
    (covers : A -> SignedRevocation T -> Prop) (l : list A) :
  (forall acc x g acc' g', x ∈ l -> f acc x g = (Ok acc', g') ->
     exists new, acc' = acc ++ new /\ revoked_more vk ok g g' new /\ exists r, r ∈ new /\ covers x r) ->
  forall acc g acc' g', foldM f l acc g = (Ok acc', g') ->
    exists new, acc' = acc ++ new /\ revoked_more vk ok g g' new /\ forall x, x ∈ l -> exists r, r ∈ new /\ covers x r.
Proof.
  induction l as [|x l IH]; intros Hf acc g acc' g'; cbn [foldM].
  { intros [= <- <-]. exists []. rewrite app_nil_r. split_and!; [done|apply revoked_more_nil|by intros ? ?%not_elem_of_nil]. }
  intros (acc1 & g1 & H1 & H2)%bindM_inv. destruct (Hf _ _ _ _ _ (list_elem_of_here _ _) H1) as (new1 & -> & Hm1 & r & Hr & Hc).
  destruct (IH (fun acc y g acc' g' Hy => Hf acc y g acc' g' (list_elem_of_further _ _ _ Hy)) _ _ _ _ H2) as (new2 & -> & Hm2 & Hc2).
  exists (new1 ++ new2). rewrite app_assoc. split_and!; [done|by apply (revoked_more_app _ _ _ g1)|].
  intros y [->|Hy]%elem_of_cons; [exists r|destruct (Hc2 y Hy) as (r2 & ? & ?); exists r2]; rewrite elem_of_app; auto.
Qed.

(** What [vk] may revoke a delegation of [m] with: being the group's key, having
    issued it or one of its proofs, or, for a delegation of its own, an admin
    delegation. *)
Definition revocation_grounds (vk : VerifyingKey) (m gid : Identifier) (d : SignedDelegation T) (pf : option (SignedDelegation T)) : Prop :=
  match pf with
  | None => vk = gid
  | Some p => (issuer p = vk /\ (p = d \/ p ∈ proof_lineage (payload d))) \/ (delegate_id p = m /\ can (payload p) = Admin)
  end.

Lemma chain_proof_spec vk (d : SignedDelegation T) :
  match chain_proof vk d with
  | Some p => issuer p = vk /\ (p = d \/ p ∈ proof_lineage (payload d))
  | None => issuer d <> vk /\ forall p, p ∈ proof_lineage (payload d) -> issuer p <> vk
  end.
Proof.
  unfold chain_proof. destruct (decide (issuer d = vk)) as [?|Hne]; [split; [done|by left]|].
  destruct (list_find _ _) as [[i p]|] eqn:Hf; cbn.
  - apply list_find_Some in Hf as (Hi & Hp & _). split; [done|]. right. by apply list_elem_of_lookup_2 in Hi.
  - apply list_find_None in Hf. split; [done|]. by apply Forall_forall.
Qed.

Lemma revoke_one_spec signer m content acc d (g g' : @Group T) acc' gid :
  revoke_one signer m content acc d g = (Ok acc', g') ->
  exists new, acc' = acc ++ new /\
    revoked_more (signer_verifying_key signer) (revocation_grounds (signer_verifying_key signer) m gid) g g' new /\
    exists r, r ∈ new /\ revoke (payload r) = d.
Proof.
  unfold revoke_one. unfold bindM at 1, get. set (vk := signer_verifying_key signer). intros (acc1 & g1 & H1 & H2)%bindM_inv.
  apply (foldM_issued vk (revocation_grounds vk m gid) _ (fun _ r => revoke (payload r) = d)) in H1 as (new1 & -> & Hm1 & Hc1).
  2: { intros acc2 x g2 acc3 g3 [[Hx1 Hx2] _]%list_elem_of_filter Hi.
       apply (issue_revocation_spec _ _ _ _ _ _ _ _ (revocation_grounds vk m gid)) in Hi as (r & -> & Hr & Hm); [|by right].
       exists [r]. split_and!; [done|done|]. exists r. split; [left|done]. }
  pose proof (chain_proof_spec vk d) as Hp. destruct (chain_proof vk d) as [p|].
  - apply (issue_revocation_spec _ _ _ _ _ _ _ _ (revocation_grounds vk m gid)) in H2 as (r & -> & Hr & Hm); [|by left].
    exists (new1 ++ [r]). rewrite app_assoc. split_and!; [done|by apply (revoked_more_app _ _ _ g1)|]. exists r. rewrite elem_of_app, list_elem_of_singleton. auto.
  - destruct (admin_proofs vk m g) as [|x xs]; [done|]. injection H2 as <- <-. exists new1. split_and!; [done|done|]. apply (Hc1 x). left.
Qed.

Lemma revoke_member_revokes m signer content (g g' : @Group T) u :
  revoke_member m false signer content g = (Ok u, g') -> default [] (members g !! m) <> [] ->
  rm_redelegations u = [] /\ rm_cgka_ops u = [] /\
  revoked_more (signer_verifying_key signer) (revocation_grounds (signer_verifying_key signer) m (group_id g)) g g' (rm_revocations u) /\
  forall d, d ∈ default [] (members g !! m) -> exists r, r ∈ rm_revocations u /\ revoke (payload r) = d.
Proof.
  unfold revoke_member, bindM at 1 2 3, gets, get. set (vk := signer_verifying_key signer).
  destruct (default [] (members g !! m)) as [|d0 ds] eqn:Hds; [done|]. intros (revs & g1 & H1 & H2)%bindM_inv _.
  assert (exists new, revs = [] ++ new /\ revoked_more vk (revocation_grounds vk m (group_id g)) g g1 new /\
    forall d, d ∈ d0 :: ds -> exists r, r ∈ new /\ revoke (payload r) = d) as (new & -> & Hm & Hc).
  { destruct (decide (vk = group_id g)); eapply foldM_issued in H1; try exact H1.
    - intros acc x g2 acc3 g3 _ Hi. apply (issue_revocation_spec _ _ _ _ _ _ _ _ (revocation_grounds vk m (group_id g))) in Hi as (r & -> & Hr & Hm); [|done].
      exists [r]. split_and!; [done|done|]. exists r. split; [left|done].
    - intros acc x g2 acc3 g3 _ Hi. by apply (revoke_one_spec signer m content acc x g2 g3 acc3 (group_id g)). }
  assert (exists g2, forM (E := RevokeMemberError) ([] ++ new) (fun r => modify (notify (OpRevocation r))) g1 = (Ok tt, g2) /\ (g_state g2 = g_state g1 :> GroupState T)) as (g2 & Hn & Hst).
  { apply (forM_ok (fun g2 => g_state g2 = g_state g1)); [|done]. intros r g2 _ Hg2. by eexists. }
  unfold bindM at 1 in H2. rewrite Hn in H2. cbn in H2. injection H2 as <- <-. cbn.
  split_and!; [done|done| |done]. destruct Hm as [Hi Hh Hg]. unfold rev_heads_of, group_id in *.
  constructor; unfold rev_heads_of, group_id; rewrite Hst; auto.
Qed.

(** Without a proof in the delegation's own chain there is nothing to revoke it with. *)
Lemma revoke_member_refused m retain signer content (g : @Group T) d ds :
  signer_verifying_key signer <> group_id g -> signer_verifying_key signer <> m ->
  (forall x, x ∈ default [] (members g !! signer_verifying_key signer) -> delegate_id x = signer_verifying_key signer) ->
  members g !! m = Some (d :: ds) -> issuer d <> signer_verifying_key signer ->
  (forall p, p ∈ proof_lineage (payload d) -> issuer p <> signer_verifying_key signer) ->
  revoke_member m retain signer content g = (Err RevokeNoProof, g).
Proof.
  set (vk := signer_verifying_key signer). intros Hg Hm Hid Hds Hd Hl. unfold revoke_member, bindM at 1 2 3, gets, get. fold vk. rewrite Hds. cbn [default from_option id].
  rewrite decide_False by done. cbn [foldM].
  assert (admin_proofs vk m g = []) as Had.
  { unfold admin_proofs. destruct (filter _ _) as [|x xs] eqn:Hf; [done|]. assert (x ∈ x :: xs) as Hx by left. rewrite <- Hf in Hx.
    apply list_elem_of_filter in Hx as [[Hx _] Hin]. apply Hid in Hin. congruence. }
  assert (chain_proof vk d = None) as Hc.
  { pose proof (chain_proof_spec vk d) as Hc. destruct (chain_proof vk d) as [p|]; [|done]. destruct Hc as [Hp [->|Hin]]; [done|]. by apply Hl in Hin. }
  unfold revoke_one, bindM, get. fold vk. cbn beta zeta. by rewrite Had, Hc.
Qed.
End Changes.

(** C34. Adding a member signs a delegation with the signer's best delegation in
    the group as its proof, or none for the group's own key; it is refused when
    the signer has no delegation or less access than it hands out, and a refusal
    leaves the group as it was. *)
Theorem add_member_correct `{P : Primitives} {T : Type} `{EqDecision T}
    `{Ssd : !Serialize (Signed (StaticDelegation T)), Ssr : !Serialize (Signed (StaticRevocation T)), Sd : !Serialize (Delegation T)}
    member access signer content (g : @Group T) :
  match add_member_with_manual_content member access signer content g with
  | (Ok u, g') => exists pf s, let d := mkSigned (mkDelegation member access pf (rev_values (revocation_heads (g_state g))) content)
                                         (signer_verifying_key signer) s in
      am_delegation u = d /\ am_cgka_ops u = [] /\ proven_by (signer_verifying_key signer) access g pf /\ authorised (group_id g) d /\
      g_state g' = state_after d (g_state g) /\ notified g' = notified g ++ [OpDelegation d]
  | (Err e, g') => g' = g /\
      match e with
      | AddMemberNoProof => group_id g <> signer_verifying_key signer /\ default [] (members g !! signer_verifying_key signer) = []
      | AccessEscalation wanted have => wanted = access /\ group_id g <> signer_verifying_key signer /\
          exists p, capability_of (signer_verifying_key signer) g p /\ have = can (payload p) /\ (Access_level have < Access_level wanted)%nat
      | AddMemberSigningError _ | AddMemberAddError _ => True
      | AddMemberCgkaError _ => False
      end
  | _ => True
  end.
Proof. apply add_member_spec. Qed.


(** A signer other than the group's key cannot revoke another member unless
    it issued the first of that member's delegations or one of its proofs,
    whatever access the signer has: the call fails with [NoProof] and changes
    nothing. *)
Theorem revoke_member_needs_issuer `{P : Primitives} {T : Type} `{EqDecision T}
    `{Ssd : !Serialize (Signed (StaticDelegation T)), Ssr : !Serialize (Signed (StaticRevocation T)),
      Sd : !Serialize (Delegation T), Sr : !Serialize (Revocation T)}
    m retain signer content (g : @Group T) d ds :
  signer_verifying_key signer <> group_id g -> signer_verifying_key signer <> m ->
  (forall x, x ∈ default [] (members g !! signer_verifying_key signer) ->
     agent_identifier (delegate (payload x)) = signer_verifying_key signer) ->
  members g !! m = Some (d :: ds) -> issuer d <> signer_verifying_key signer ->
  (forall p, p ∈ proof_lineage (payload d) -> issuer p <> signer_verifying_key signer) ->
  revoke_member m retain signer content g = (Err RevokeNoProof, g).
Proof. apply revoke_member_refused. Qed.
