(* ===== verification/Reach.v ===== *)
(** * Who a group reaches
    ([keyhive/keyhive_core/src/principal/agent.rs], [principal/group.rs])

    Walks over the agents that groups and documents lead to.  Groups and
    documents sit behind pointers in the code; here [world] gives their members
    by id. *)

From S2P Require Import Prelude TreeMath Crypto Signed CaMap Individual Membership MemberSort GroupState Group.

Local Open Scope monad_scope.

#[export] Instance Access_countable : Countable Access.
Proof.
  refine (inj_countable' Access_level (fun n => match n with O => Relay | 1%nat => Read | 2%nat => Edit | _ => Admin end) _).
  by intros [].
Defined.

Section Walks.
Context `{P : Primitives} `{E : Ed25519} {T : Type}.

Abbreviation Members := (gmap Identifier (list (SignedDelegation T))).
Abbreviation World := (gmap Identifier Members).

(** The members of a group or document; nothing for an individual. *)
Definition membered (world : World) (a : Agent) : option Members :=
  match a with
  | AgentGroup i | AgentDocument i => Some (default ∅ (world !! i))
  | AgentActive _ | AgentIndividual _ => None
  end.

(** [for ms in members.values() { for m in ms { .. } }] *)
Definition all_delegates (ms : Members) : list Agent := (fun d => delegate (payload d)) <$> mjoin (map_to_list ms).*2.
Definition member_count (ms : Members) : nat := length (mjoin (map_to_list ms).*2).
Definition world_count (world : World) : nat := sum_list_with (fun x => member_count x.2) (map_to_list world).

(** ** [Agent::individual_ids] *)

(** [while let Some(node) = stack.pop()]; the head of the list is the end of the
    vector, [visit] what is done at an individual. *)
Fixpoint walk {A} (visit : Identifier -> A -> A) (world : World) (fuel : nat) (stack : list Agent) (seen : gset Identifier) (acc : A) : option A :=
  match stack with
  | [] => Some acc
  | node :: rest =>
      match fuel with
      | O => None
      | Datatypes.S fuel' =>
          if bool_decide (agent_identifier node ∈ seen) then walk visit world fuel' rest seen acc
          else
            let seen := {[agent_identifier node]} ∪ seen in
            match membered world node with
            | None => walk visit world fuel' rest seen (visit (agent_identifier node) acc)
            | Some ms => walk visit world fuel' (reverse (all_delegates ms) ++ rest) seen acc
            end
      end
  end.

(** A group's or document's members are pushed once. *)
Definition individual_ids (world : World) (a : Agent) : option (gset Identifier) :=
  walk (fun i ids => {[i]} ∪ ids) world (Datatypes.S (world_count world)) [a] ∅ ∅.

(** [Agent::pick_individual_prekeys]: [pick] is the prekey each individual picks. *)
Definition agent_pick_prekeys (pick : Identifier -> ShareKey) (world : World) (a : Agent) : option (gmap Identifier ShareKey) :=
  walk (fun i keys => <[i := pick i]> keys) world (Datatypes.S (world_count world)) [a] ∅ ∅.

(** [Group::individual_ids]: of the first delegation of each member. *)
Definition group_individual_ids (world : World) (g : @Group T) : option (gset Identifier) :=
  foldl (fun acc ds =>
    ids ← acc;
    match ds with
    | d :: _ => more ← individual_ids world (delegate (payload d)); Some (ids ∪ more)
    | [] => None
    end) (Some ∅) (map_to_list (members g)).*2.

(** ** [Group::transitive_members] *)

Record GroupAccess := mkGroupAccess { ga_agent : Agent; agent_access : Access; parent_access : Access }.
Abbreviation Caps := (gmap Identifier (Agent * Access)).
Record Explore := mkExplore {
  ex_stack : list GroupAccess;
  ex_seen : gset (Signature * Access);
  ex_caps : Caps;
}.

(** The ['inner] loop over the delegations of a member of an inner group. *)
Definition explore_sub (cap best_access : Access) (x : Explore) (sub_dlg : SignedDelegation T) : Explore :=
  let key := (signature sub_dlg, cap) in
  if bool_decide (key ∈ ex_seen x) then x
  else mkExplore (mkGroupAccess (delegate (payload sub_dlg)) (can (payload sub_dlg)) best_access :: ex_stack x)
         ({[key]} ∪ ex_seen x) (ex_caps x).

(** [get_capability] panics through [expect] for a member without delegations. *)
Definition explore_member (best_access : Access) (x : Explore) (m : Identifier * list (SignedDelegation T)) : res Empty_set Explore :=
  let* dlg := expectR (max_by_can m.2) in
  Ok (foldl (explore_sub (can (payload dlg)) best_access)
        (mkExplore (ex_stack x) (ex_seen x) (<[m.1 := (delegate (payload dlg), best_access)]> (ex_caps x))) m.2).

Definition explore_agent (world : World) (a : GroupAccess) (x : Explore) : res Empty_set Explore :=
  let id := agent_identifier (ga_agent a) in
  let best_access := match ex_caps x !! id with
                     | Some (_, existing_access) => Access_max existing_access (agent_access a)
                     | None => agent_access a
                     end in
  let current_path_access := Access_min (agent_access a) (parent_access a) in
  let x := mkExplore (ex_stack x) (ex_seen x) (<[id := (ga_agent a, current_path_access)]> (ex_caps x)) in
  match membered world (ga_agent a) with
  | None => Ok x
  | Some ms => foldR (explore_member best_access) (map_to_list ms) x
  end.

Fixpoint transitive_loop (world : World) (self_id : Identifier) (fuel : nat) (x : Explore) : res Empty_set Caps :=
  match ex_stack x with
  | [] => Ok (ex_caps x)
  | a :: rest =>
      match fuel with
      | O => Diverge
      | Datatypes.S fuel' =>
          let x := mkExplore rest (ex_seen x) (ex_caps x) in
          if decide (agent_identifier (ga_agent a) = self_id) then transitive_loop world self_id fuel' x
          else let* x := explore_agent world a x in transitive_loop world self_id fuel' x
      end
  end.

Definition explore_start (x : Explore) (m : Identifier * list (SignedDelegation T)) : res Empty_set Explore :=
  let* dlg := expectR (max_by_can m.2) in
  Ok (mkExplore (mkGroupAccess (delegate (payload dlg)) (can (payload dlg)) Admin :: ex_stack x)
        ({[(signature dlg, Admin)]} ∪ ex_seen x) (ex_caps x)).

(** Every agent pushed later comes with a new pair of a delegation of some group
    and one of the four access levels. *)
Definition transitive_members (world : World) (g : @Group T) : res Empty_set Caps :=
  let* x := foldR explore_start (map_to_list (members g)) (mkExplore [] ∅ ∅) in
  transitive_loop world (group_id g) (size (members g) + 4 * world_count world) x.

(** [Group::pick_individual_prekeys] *)
Definition group_pick_prekeys (pick : Identifier -> ShareKey) (world : World) (g : @Group T) : res Empty_set (gmap Identifier ShareKey) :=
  let* caps := transitive_members world g in
  foldR (fun prekeys x => let* more := loopR (agent_pick_prekeys pick world x.2.1) in Ok (more ∪ prekeys)) (map_to_list caps) ∅.
End Walks.
