(* ===== verification/ReachProps.v ===== *)
(** * The walks over groups end and find every agent
    ([keyhive/keyhive_core/src/principal/agent.rs], [principal/group.rs]) *)

From S2P Require Import Prelude TreeMath Crypto Signed CaMap Individual Membership MemberSort GroupState Group GroupChange Reach.

Local Open Scope monad_scope.

Section WalkProps.
Context {T : Type} (world : gmap Identifier (gmap Identifier (list (SignedDelegation T)))).

(** The delegations of groups not seen yet. *)
Definition unseen (seen : gset Identifier) : nat :=
  sum_list_with (fun x => if bool_decide (x.1 ∈ seen) then 0%nat else member_count x.2) (map_to_list world).

Lemma unseen_empty : unseen ∅ = world_count world.
Proof.
  unfold unseen, world_count. induction (map_to_list world) as [|x l IH]; cbn; [done|]. by rewrite IH, bool_decide_eq_false_2 by set_solver.
Qed.

Lemma unseen_mono seen i : (unseen ({[i]} ∪ seen) <= unseen seen)%nat.
Proof.
  unfold unseen. induction (map_to_list world) as [|x l IH]; cbn; [done|]. do 2 case_bool_decide; try lia. set_solver.
Qed.

Lemma unseen_group seen i ms : i ∉ seen -> world !! i = Some ms -> (unseen ({[i]} ∪ seen) + member_count ms <= unseen seen)%nat.
Proof.
  intros Hi Hw. unfold unseen. rewrite <- (insert_delete_id world i ms Hw).
  rewrite map_to_list_insert by apply lookup_delete_eq. cbn. rewrite bool_decide_eq_true_2 by set_solver. rewrite bool_decide_eq_false_2 by done.
  enough (sum_list_with (fun x => if bool_decide (x.1 ∈ {[i]} ∪ seen) then 0%nat else member_count x.2) (map_to_list (delete i world)) <=
    sum_list_with (fun x => if bool_decide (x.1 ∈ seen) then 0%nat else member_count x.2) (map_to_list (delete i world)))%nat by lia.
  induction (map_to_list (delete i world)) as [|x l IH]; cbn; [done|]. do 2 case_bool_decide; try lia. set_solver.
Qed.

(** The agents [a] leads to through groups and documents. *)
Inductive leads (a : Agent) : Agent -> Prop :=
  | leads_self : leads a a
  | leads_member b ms c : leads a b -> membered world b = Some ms -> c ∈ all_delegates ms -> leads a c.

Definition leads_individual (a : Agent) (i : Identifier) : Prop :=
  exists b, leads a b /\ membered world b = None /\ agent_identifier b = i.

Record walking (a : Agent) (stack : list Agent) (seen : gset Identifier) (visited : list Identifier) : Prop := {
  wk_stack x : x ∈ stack -> leads a x;
  wk_start : a ∈ stack \/ agent_identifier a ∈ seen;
  wk_closed b ms c : leads a b -> agent_identifier b ∈ seen -> membered world b = Some ms -> c ∈ all_delegates ms ->
    c ∈ stack \/ agent_identifier c ∈ seen;
  wk_visited i : i ∈ visited <-> i ∈ seen /\ leads_individual a i;
}.

Section Walking.
Context (a : Agent) (Hids : forall b c, leads a b -> leads a c -> agent_identifier b = agent_identifier c -> b = c).

Lemma walking_done seen visited : walking a [] seen visited -> forall i, i ∈ visited <-> leads_individual a i.
Proof.
  intros [_ Hs Hc Hv] i. assert (forall b, leads a b -> agent_identifier b ∈ seen) as Hall.
  { induction 1 as [|b ms c Hb IHb Hms Hcm]; [by destruct Hs as [?%not_elem_of_nil|?]|].
    by destruct (Hc _ _ _ Hb IHb Hms Hcm) as [?%not_elem_of_nil|?]. }
  rewrite Hv. split; [by intros [_ ?]|]. intros Hi. split; [|done]. destruct Hi as (b & Hb & _ & <-). by apply Hall.
Qed.

Lemma walking_skip node stack seen visited :
  agent_identifier node ∈ seen -> walking a (node :: stack) seen visited -> walking a stack seen visited.
Proof.
  intros Hin [Hst Hs Hc Hv]. constructor; [|destruct Hs as [[->|?]%elem_of_cons|?]; auto| |done].
  - intros x Hx. apply Hst. by right.
  - intros b ms c Hb Hbs Hms Hcm. destruct (Hc b ms c Hb Hbs Hms Hcm) as [[->|?]%elem_of_cons|?]; auto.
Qed.

(** Taking a node with what it pushes. *)
Lemma walking_take node stack seen visited pushed :
  walking a (node :: stack) seen visited ->
  (forall ms, membered world node = Some ms -> pushed = reverse (all_delegates ms)) -> (membered world node = None -> pushed = []) ->
  walking a (pushed ++ stack) ({[agent_identifier node]} ∪ seen)
    (visited ++ match membered world node with None => [agent_identifier node] | Some _ => [] end).
Proof.
  intros [Hst Hs Hc Hv] Hgroup Hindiv. assert (leads a node) as Hn by (apply Hst; left). constructor.
  - intros x [Hx|Hx]%elem_of_app; [|apply Hst; by right]. destruct (membered world node) as [ms|] eqn:Hm.
    + rewrite (Hgroup ms eq_refl), elem_of_reverse in Hx. by apply (leads_member a node ms).
    + rewrite Hindiv in Hx by done. by apply not_elem_of_nil in Hx.
  - destruct Hs as [[->|?]%elem_of_cons|?]; [right|left|right]; set_solver.
  - intros b ms c Hb Hbs Hms Hcm. destruct (decide (agent_identifier b = agent_identifier node)) as [Heq|Hne].
    + rewrite (Hids b node Hb Hn Heq) in Hms. left. apply elem_of_app. left. rewrite (Hgroup ms Hms). by rewrite elem_of_reverse.
    + destruct (Hc b ms c Hb) as [[->|?]%elem_of_cons|?]; [set_solver|done|done|right; set_solver|left; apply elem_of_app; by right|right; set_solver].
  - intros i. rewrite elem_of_app, Hv, elem_of_union, elem_of_singleton. split.
    + intros [[? ?]|Hi]; [auto|]. destruct (membered world node) eqn:Hm; [by apply not_elem_of_nil in Hi|].
      apply list_elem_of_singleton in Hi as ->. split; [by left|]. by exists node.
    + intros [[->|?] Hi]; [|auto]. right. destruct Hi as (b & Hb & Hbm & Hbi). rewrite (Hids b node Hb Hn Hbi) in Hbm. rewrite Hbm. by left.
Qed.

Lemma walk_ok {A} (visit : Identifier -> A -> A) fuel :
  forall stack seen acc visited, (length stack + unseen seen <= fuel)%nat -> walking a stack seen visited ->
  exists more, walk visit world fuel stack seen acc = Some (foldl (fun r i => visit i r) acc more) /\
    forall i, i ∈ visited ++ more <-> leads_individual a i.
Proof.
  induction fuel as [|fuel IH]; intros [|node stack] seen acc visited Hf Hw; [|cbn in Hf; lia| |].
  1, 2: exists []; rewrite app_nil_r; split; [done|by apply (walking_done seen)].
  cbn [walk]. cbn [length] in Hf. case_bool_decide as Hin; [apply IH; [lia|by apply walking_skip in Hw]|].
  pose proof (unseen_mono seen (agent_identifier node)) as Hmono. destruct (membered world node) as [ms|] eqn:Hm.
  - pose proof (walking_take node stack seen visited (reverse (all_delegates ms)) Hw) as Hw'. rewrite Hm, app_nil_r in Hw'.
    apply IH; [|apply Hw'; [by intros ? [= ->]|done]].
    rewrite length_app, length_reverse. unfold all_delegates. rewrite length_fmap.
    assert (ms = default ∅ (world !! agent_identifier node)) as Hms by (destruct node; cbn in Hm |- *; congruence).
    destruct (world !! agent_identifier node) as [ms'|] eqn:Hw0; cbn in Hms; subst ms; [|rewrite map_to_list_empty; cbn; lia].
    pose proof (unseen_group seen _ _ Hin Hw0). unfold member_count in *. lia.
  - pose proof (walking_take node stack seen visited [] Hw) as Hw'. rewrite Hm in Hw'.
    destruct (IH stack ({[agent_identifier node]} ∪ seen) (visit (agent_identifier node) acc) (visited ++ [agent_identifier node]))
      as (more & Hmore & Hi); [lia|by apply Hw'|].
    exists (agent_identifier node :: more). split; [done|]. intros i. rewrite <- Hi, <- app_assoc. done.
Qed.

Lemma walk_from {A} (visit : Identifier -> A -> A) acc :
  exists more, walk visit world (S (world_count world)) [a] ∅ acc = Some (foldl (fun r i => visit i r) acc more) /\
    forall i, i ∈ more <-> leads_individual a i.
Proof.
  apply (walk_ok visit _ [a] ∅ acc []); [cbn [length]; rewrite unseen_empty; lia|]. constructor.
  - intros x ->%list_elem_of_singleton. constructor.
  - left. left.
  - intros b ms c _ Hb. set_solver.
  - intros i. split; [by intros ?%not_elem_of_nil|set_solver].
Qed.
End Walking.
End WalkProps.

(** Every agent that [a] leads to has an id of its own. *)
Definition unique_ids {T} (world : gmap Identifier (gmap Identifier (list (SignedDelegation T)))) (a : Agent) : Prop :=
  forall b c, leads world a b -> leads world a c -> agent_identifier b = agent_identifier c -> b = c.

Lemma individual_ids_spec {T : Type} (world : gmap Identifier (gmap Identifier (list (SignedDelegation T)))) (a : Agent) :
  (forall b c, leads world a b -> leads world a c -> agent_identifier b = agent_identifier c -> b = c) ->
  exists ids, individual_ids world a = Some ids /\ forall i, i ∈ ids <-> leads_individual world a i.
Proof.
  intros Hids. destruct (walk_from world a Hids (fun i ids => {[i]} ∪ ids) (∅ : gset Identifier)) as (more & Hm & Hi). eexists. split; [exact Hm|].
  intros i. rewrite <- Hi. generalize (∅ : gset Identifier) as s, (not_elem_of_empty (C := gset Identifier) i) as Hs.
  clear. intros s Hs. assert (i ∈ foldl (fun r j => {[j]} ∪ r) s more <-> i ∈ s \/ i ∈ more) as ->; [|naive_solver].
  clear Hs. revert s. induction more as [|j more IH]; intros s; cbn [foldl]; [set_solver|]. rewrite IH. set_solver.
Qed.

(** The individuals an agent stands for: the walk ends, also through groups
    that are members of each other, and finds exactly the individuals that
    chains of groups and documents lead to, provided an id belongs to one
    agent. *)
Theorem individual_ids_correct {T : Type} (world : gmap Identifier (gmap Identifier (list (SignedDelegation T)))) (a : Agent) :
  (forall b c, leads world a b -> leads world a c -> agent_identifier b = agent_identifier c -> b = c) ->
  exists ids, individual_ids world a = Some ids /\ forall i, i ∈ ids <-> leads_individual world a i.
Proof. apply individual_ids_spec. Qed.

(** The prekeys picked for an agent: one for each individual it leads to,
    the one that individual picks, and none for others. *)
Theorem agent_pick_prekeys_correct {T : Type} (world : gmap Identifier (gmap Identifier (list (SignedDelegation T)))) pick (a : Agent) :
  (forall b c, leads world a b -> leads world a c -> agent_identifier b = agent_identifier c -> b = c) ->
  exists keys, agent_pick_prekeys pick world a = Some keys /\
    forall i k, keys !! i = Some k <-> leads_individual world a i /\ k = pick i.
Proof.
  intros Hids. destruct (walk_from world a Hids (fun i keys => <[i := pick i]> keys) (∅ : gmap Identifier ShareKey)) as (more & Hm & Hi).
  eexists. split; [exact Hm|]. intros i k. rewrite <- Hi.
  assert (forall m : gmap Identifier ShareKey, foldl (fun r j => <[j := pick j]> r) m more !! i = if decide (i ∈ more) then Some (pick i) else m !! i) as ->.
  { clear. induction more as [|j more IH]; intros m; cbn [foldl]; [by rewrite decide_False by apply not_elem_of_nil|]. rewrite IH.
    destruct (decide (i = j)) as [->|Hne]; [rewrite lookup_insert_eq, (decide_True (P := j ∈ j :: more)) by left; by destruct (decide _)|].
    rewrite lookup_insert_ne by done. do 2 destruct (decide _); set_solver. }
  rewrite lookup_empty. destruct (decide (i ∈ more)); naive_solver.
Qed.
