(* ===== verification/ReachMembers.v ===== *)
(** * The transitive members of a group
    ([keyhive/keyhive_core/src/principal/group.rs], [Group::transitive_members]) *)

From S2P Require Import Prelude TreeMath Crypto Signed CaMap Individual Membership MemberSort GroupState Group GroupChange Reach.

Local Open Scope monad_scope.

Section Transitive.
Context {T : Type} (world : gmap Identifier (gmap Identifier (list (SignedDelegation T)))) (g : @Group T).

Abbreviation Members := (gmap Identifier (list (SignedDelegation T))).
Abbreviation delegate_id d := (agent_identifier (delegate (payload d))).

(** [d] is a delegation of a member in [ms]. *)
Definition listed (ms : Members) (d : SignedDelegation T) : Prop := exists id ds, ms !! id = Some ds /\ d ∈ ds.
Definition well_listed (ms : Members) : Prop :=
  forall id ds, ms !! id = Some ds -> ds <> [] /\ forall d, d ∈ ds -> delegate_id d = id.
Definition known (d : SignedDelegation T) : Prop := listed (members g) d \/ exists i ms, world !! i = Some ms /\ listed ms d.

(** Member lists are not empty and under the right id, and signatures tell
    delegations apart. *)
Record sound_world : Prop := {
  sw_group : well_listed (members g);
  sw_world i ms : world !! i = Some ms -> well_listed ms;
  sw_signatures d d' : known d -> known d' -> signature d = signature d' -> d = d';
}.

(** The agents the group gives access to: those of its best delegations, and
    those of all delegations of the groups and documents among them. *)
Inductive carries : Agent -> Prop :=
  | carries_member id ds p : members g !! id = Some ds -> max_by_can ds = Some p -> carries (delegate (payload p))
  | carries_inner a ms d : carries a -> agent_identifier a <> group_id g -> membered world a = Some ms -> listed ms d ->
      carries (delegate (payload d)).

(** The pairs the walk may still see. *)
Definition universe : gset (Signature * Access) :=
  list_to_set (x ← map_to_list world; ds ← (map_to_list x.2).*2; d ← ds; (fun c => (signature d, c)) <$> [Relay; Read; Edit; Admin]).
Definition potential (x : Explore) : nat := length (ex_stack x) + size (universe ∖ ex_seen x).

Lemma universe_elem i ms d c : world !! i = Some ms -> listed ms d -> (signature d, c) ∈ universe.
Proof.
  intros Hi (id & ds & Hds & Hd). unfold universe. apply elem_of_list_to_set. apply list_elem_of_bind. exists (i, ms).
  split; [|by apply elem_of_map_to_list]. apply list_elem_of_bind. exists ds. split.
  - apply list_elem_of_bind. exists d. split; [|done]. apply list_elem_of_fmap. exists c. split; [done|]. destruct c; set_solver.
  - apply list_elem_of_fmap. exists (id, ds). split; [done|]. by apply elem_of_map_to_list.
Qed.

Lemma list_to_set_size (l : list (Signature * Access)) : (size (list_to_set l : gset (Signature * Access)) <= length l)%nat.
Proof.
  induction l as [|x l IH]; [done|]. cbn [list_to_set length]. rewrite size_union_alt, size_singleton.
  assert (size ((list_to_set l : gset (Signature * Access)) ∖ {[x]}) <= size (list_to_set l : gset (Signature * Access)))%nat; [|lia].
  apply subseteq_size. set_solver.
Qed.

Lemma universe_size : (size universe <= 4 * world_count world)%nat.
Proof.
  unfold universe. etrans; [apply list_to_set_size|]. unfold world_count, member_count.
  induction (map_to_list world) as [|[i ms] l IH]; [done|]. cbn [mbind list_bind sum_list_with]. rewrite length_app. cbn [snd].
  enough (length (ds ← (map_to_list ms).*2; d ← ds; (fun c => (signature d, c)) <$> [Relay; Read; Edit; Admin]) =
    4 * length (mjoin (map_to_list ms).*2))%nat by lia.
  clear. induction (map_to_list ms).*2 as [|ds dss IH]; [done|]. cbn [mbind list_bind mjoin]. rewrite length_app, IH.
  cbn [list_join]. rewrite length_app. enough (length (d ← ds; (fun c => (signature d, c)) <$> [Relay; Read; Edit; Admin]) = 4 * length ds)%nat by lia.
  induction ds as [|d ds IHd]; [done|]. cbn [mbind list_bind length]. rewrite length_app, IHd. cbn. lia.
Qed.

(** ** One step extends the walk *)

Record extends (src : SignedDelegation T -> Prop) (x x' : Explore) : Prop := {
  xt_stack : exists pushed, ex_stack x' = pushed ++ ex_stack x /\ forall a, a ∈ pushed -> exists d, src d /\ ga_agent a = delegate (payload d);
  xt_seen : ex_seen x ⊆ ex_seen x';
  xt_new k : k ∈ ex_seen x' -> k ∈ ex_seen x \/ exists d, src d /\ k.1 = signature d /\ delegate (payload d) ∈ ga_agent <$> ex_stack x';
  xt_caps i : is_Some (ex_caps x !! i) -> is_Some (ex_caps x' !! i);
  xt_new_caps i v : ex_caps x' !! i = Some v -> ex_caps x !! i = Some v \/ exists d, src d /\ delegate_id d = i /\ v.1 = delegate (payload d);
  xt_potential : (potential x' <= potential x)%nat;
}.

Lemma extends_refl src x : extends src x x.
Proof. constructor; auto. exists []. split; [done|]. by intros ? ?%not_elem_of_nil. Qed.

Lemma extends_trans src x y z : extends src x y -> extends src y z -> extends src x z.
Proof.
  intros [(p & Hp & Hpa) Hs Hn Hc Hnc Hpot] [(q & Hq & Hqa) Hs' Hn' Hc' Hnc' Hpot']. constructor; [|set_solver| |auto| |lia].
  - exists (q ++ p). rewrite Hq, Hp. split; [by rewrite app_assoc|]. intros a [?|?]%elem_of_app; auto.
  - intros k [Hk|?]%Hn'; [|by right]. apply Hn in Hk as [?|(d & ? & ? & Hd)]; [by left|]. right. exists d. split_and!; [done..|].
    rewrite Hq, fmap_app, elem_of_app. by right.
  - intros i v [Hi|?]%Hnc'; [|by right]. by apply Hnc.
Qed.

Lemma size_difference_insert (U s : gset (Signature * Access)) k : k ∈ U -> k ∉ s -> size (U ∖ s) = S (size (U ∖ ({[k]} ∪ s))).
Proof.
  intros HU Hs. replace (U ∖ s) with ({[k]} ∪ (U ∖ ({[k]} ∪ s))); [rewrite size_union, size_singleton by set_solver; done|].
  apply set_eq. intros x. destruct (decide (x = k)) as [->|Hne]; set_solver.
Qed.

Lemma explore_sub_extends (src : SignedDelegation T -> Prop) cap best x d :
  src d -> (forall c, (signature d, c) ∈ universe) ->
  extends src x (explore_sub cap best x d) /\ (signature d, cap) ∈ ex_seen (explore_sub cap best x d).
Proof.
  intros Hd Hu. unfold explore_sub. case_bool_decide as Hin; [split; [apply extends_refl|done]|]. cbn. split; [|set_solver]. constructor; cbn.
  - eexists [_]. split; [done|]. intros a ->%list_elem_of_singleton. by exists d.
  - set_solver.
  - intros k [->%elem_of_singleton|?]%elem_of_union; [|by left]. right. exists d. split_and!; [done..|left].
  - done.
  - by left.
  - unfold potential. cbn. specialize (Hu cap).
    rewrite (size_difference_insert universe (ex_seen x) _ Hu Hin). lia.
Qed.

Lemma explore_subs_extends (src : SignedDelegation T -> Prop) cap best ds x :
  (forall d, d ∈ ds -> src d /\ forall c, (signature d, c) ∈ universe) ->
  extends src x (foldl (explore_sub cap best) x ds) /\ forall d, d ∈ ds -> (signature d, cap) ∈ ex_seen (foldl (explore_sub cap best) x ds).
Proof.
  revert x. induction ds as [|d ds IH]; intros x Hds; cbn [foldl]; [split; [apply extends_refl|by intros ? ?%not_elem_of_nil]|].
  destruct (Hds d (list_elem_of_here _ _)) as [Hd Hu]. destruct (explore_sub_extends src cap best x d Hd Hu) as [He Hin].
  destruct (IH (explore_sub cap best x d)) as [He' Hin']; [intros y Hy; apply Hds; by right|].
  split; [by apply (extends_trans _ _ _ _ He)|]. intros y [->|Hy]%elem_of_cons; [by apply (xt_seen _ _ _ He')|by apply Hin'].
Qed.

Lemma set_cap_extends (src : SignedDelegation T -> Prop) x d v :
  src d -> v.1 = delegate (payload d) -> extends src x (mkExplore (ex_stack x) (ex_seen x) (<[delegate_id d := v]> (ex_caps x))).
Proof.
  intros Hd Hv. constructor; cbn; [exists []; split; [done|by intros ? ?%not_elem_of_nil]|done|by left| | |done].
  - intros i Hi. apply lookup_insert_is_Some'. by right.
  - intros i u [[<- <-]|[_ ?]]%lookup_insert_Some; [right; by exists d|by left].
Qed.

(** The members of an inner group: none panics, all their delegations are seen. *)
Lemma explore_members_extends (src : SignedDelegation T -> Prop) best l x :
  (forall id ds, (id, ds) ∈ l -> ds <> [] /\ forall d, d ∈ ds -> delegate_id d = id /\ src d /\ forall c, (signature d, c) ∈ universe) ->
  exists x', foldR (explore_member best) l x = Ok x' /\ extends src x x' /\
    forall id ds d, (id, ds) ∈ l -> d ∈ ds -> exists c, (signature d, c) ∈ ex_seen x'.
Proof.
  revert x. induction l as [|[id ds] l IH]; intros x Hl; cbn [foldR].
  { exists x. split_and!; [done|apply extends_refl|by intros ??? ?%not_elem_of_nil]. }
  destruct (Hl id ds (list_elem_of_here _ _)) as [Hne Hds]. unfold explore_member at 1. cbn [fst snd].
  pose proof (max_by_can_spec ds) as Hmax. destruct (max_by_can ds) as [p|]; [|done]. destruct Hmax as [Hp _]. cbn [expectR bindR].
  destruct (Hds p Hp) as (<- & Hpsrc & _). pose proof (set_cap_extends src x p (delegate (payload p), best) Hpsrc eq_refl) as He1.
  set (x1 := mkExplore _ _ _) in *.
  destruct (explore_subs_extends src (can (payload p)) best ds x1) as [He2 Hin]; [intros d Hd; by destruct (Hds d Hd)|].
  destruct (IH (foldl (explore_sub (can (payload p)) best) x1 ds)) as (x' & Hx' & He3 & Hin'); [intros i es Hi; apply Hl; by right|].
  exists x'. split_and!; [done|by apply (extends_trans _ _ _ _ (extends_trans _ _ _ _ He1 He2))|].
  intros i es d [[= -> ->]|Hi]%elem_of_cons Hd; [|by apply (Hin' i es)]. exists (can (payload p)). by apply (xt_seen _ _ _ He3), Hin.
Qed.

(** ** The walk *)

Definition pending (finished : list Agent) (x : Explore) (a : Agent) : Prop := a ∈ ga_agent <$> ex_stack x \/ a ∈ finished.

Record exploring (finished : list Agent) (x : Explore) : Prop := {
  xp_stack a : a ∈ ga_agent <$> ex_stack x -> carries a;
  xp_start id ds p : members g !! id = Some ds -> max_by_can ds = Some p -> pending finished x (delegate (payload p));
  xp_finished a : a ∈ finished -> agent_identifier a <> group_id g -> is_Some (ex_caps x !! agent_identifier a) /\
    forall ms d, membered world a = Some ms -> listed ms d -> pending finished x (delegate (payload d));
  xp_seen k : k ∈ ex_seen x -> exists d, known d /\ k.1 = signature d /\ pending finished x (delegate (payload d));
  xp_caps i v : ex_caps x !! i = Some v -> carries v.1 /\ agent_identifier v.1 = i;
}.

(** The agents found are under their ids, and all are found but the group itself. *)
Definition found (caps : gmap Identifier (Agent * Access)) : Prop :=
  (forall i v, caps !! i = Some v -> carries v.1 /\ agent_identifier v.1 = i) /\
  forall i, i <> group_id g -> is_Some (caps !! i) <-> exists a, carries a /\ agent_identifier a = i.

Lemma exploring_done finished x : exploring finished x -> ex_stack x = [] -> found (ex_caps x).
Proof.
  intros [_ Hs Hf _ Hc] Hnil. split; [done|]. intros i Hi. split; [intros [v [??]%Hc]; by exists v.1|]. intros (a & Ha & <-).
  assert (forall b, pending finished x b -> b ∈ finished) as Hp by (intros b [Hb|?]; [rewrite Hnil in Hb; by apply not_elem_of_nil in Hb|done]).
  assert (forall b, carries b -> b ∈ finished) as Hall.
  { induction 1 as [id ds p Hm Hmax|b ms d _ IH Hb Hms Hl]; [by apply Hp, (Hs id ds)|]. apply Hp. by apply (Hf b IH Hb) with ms. }
  by apply (Hf a (Hall a Ha) Hi).
Qed.

Lemma pending_extends src finished x x' a : extends src x x' -> pending finished x a -> pending finished x' a.
Proof. intros [(p & Hp & _) _ _ _ _ _] [?|?]; [left; rewrite Hp, fmap_app, elem_of_app; by right|by right]. Qed.

Lemma explore_pop finished x a rest caps b : ex_stack x = a :: rest ->
  pending finished x b -> pending (ga_agent a :: finished) (mkExplore rest (ex_seen x) caps) b.
Proof.
  intros Hst [Hb|?]; [|right; by right]. rewrite Hst in Hb. cbn in Hb. apply elem_of_cons in Hb as [->|?]; [right; left|by left].
Qed.

(** Finishing an agent: what its exploration added keeps the invariant. *)
Lemma exploring_finish finished x a rest x' (Hw : sound_world) :
  let x0 := mkExplore rest (ex_seen x) (<[agent_identifier (ga_agent a) := (ga_agent a, Access_min (agent_access a) (parent_access a))]> (ex_caps x)) in
  let src := fun d => exists ms, membered world (ga_agent a) = Some ms /\ listed ms d in
  exploring finished x -> ex_stack x = a :: rest -> agent_identifier (ga_agent a) <> group_id g ->
  extends src x0 x' -> (forall d, src d -> known d /\ exists c, (signature d, c) ∈ ex_seen x') ->
  exploring (ga_agent a :: finished) x'.
Proof.
  intros x0 src [Hst Hs Hf Hsn Hc] Hx Hid He Hcov.
  assert (carries (ga_agent a)) as Ha by (apply Hst; rewrite Hx; left).
  assert (forall d, src d -> carries (delegate (payload d))) as Hsrc by (intros d (ms & Hms & Hd); by apply (carries_inner (ga_agent a) ms)).
  assert (forall b, pending finished x b -> pending (ga_agent a :: finished) x' b) as Hpend.
  { intros b Hb. apply (pending_extends src _ x0); [done|]. by apply (explore_pop _ x). }
  assert (forall k, k ∈ ex_seen x' -> exists d, known d /\ k.1 = signature d /\ pending (ga_agent a :: finished) x' (delegate (payload d))) as Hseen.
  { intros k [Hk|(d & Hd & Hkd & Hp)]%(xt_new _ _ _ He).
    - destruct (Hsn k Hk) as (d & ? & ? & ?). exists d. auto.
    - exists d. split_and!; [by apply Hcov|done|by left]. }
  constructor; [| | |done|].
  - intros b Hb. destruct (xt_stack _ _ _ He) as (pushed & Hp & Hpa). rewrite Hp, fmap_app, elem_of_app in Hb. destruct Hb as [Hb|Hb].
    + apply list_elem_of_fmap in Hb as (ga & -> & Hga). destruct (Hpa ga Hga) as (d & Hd & ->). by apply Hsrc.
    + apply Hst. rewrite Hx. by right.
  - intros id ds p Hm Hmax. apply Hpend. by apply (Hs id ds).
  - intros b [->|Hb]%elem_of_cons Hbid.
    + split; [apply (xt_caps _ _ _ He); cbn; by rewrite lookup_insert_eq|]. intros ms d Hms Hd.
      destruct (Hcov d) as [Hkd [c Hin]]; [by exists ms|]. destruct (Hseen _ Hin) as (d' & Hkd' & Heq & Hp). cbn in Heq.
      by rewrite (sw_signatures Hw d d' Hkd Hkd' Heq).
    + destruct (Hf b Hb Hbid) as [Hcb Hmb]. split; [|intros ms d Hms Hd; by apply Hpend, (Hmb ms)].
      apply (xt_caps _ _ _ He). cbn. apply lookup_insert_is_Some'. by right.
  - intros i v [Hi|(d & Hd & <- & ->)]%(xt_new_caps _ _ _ He); [|split; [by apply Hsrc|done]].
    cbn in Hi. apply lookup_insert_Some in Hi as [[<- <-]|[_ Hi]]; [done|by apply Hc].
Qed.

Lemma membered_world a ms id ds : membered world a = Some ms -> ms !! id = Some ds -> exists i, world !! i = Some ms.
Proof.
  intros Hm Hds. destruct a as [i|i|i|i]; cbn in Hm; try done; injection Hm as <-;
    (destruct (world !! i) as [ms|] eqn:Hwi; [by exists i|cbn in Hds; by rewrite lookup_empty in Hds]).
Qed.

Lemma explore_agent_ok finished x a rest (Hw : sound_world) :
  exploring finished x -> ex_stack x = a :: rest -> agent_identifier (ga_agent a) <> group_id g ->
  exists x', explore_agent world a (mkExplore rest (ex_seen x) (ex_caps x)) = Ok x' /\
    exploring (ga_agent a :: finished) x' /\ (potential x' < potential x)%nat.
Proof.
  intros He Hx Hid. unfold explore_agent. cbn [ex_caps ex_stack ex_seen].
  set (best := match ex_caps x !! _ with Some _ => _ | None => _ end). set (x0 := mkExplore rest _ _).
  set (src := fun d => exists ms, membered world (ga_agent a) = Some ms /\ listed ms d).
  assert (potential x = S (potential x0)) as Hpot by (unfold potential; rewrite Hx; done).
  assert (exists x', (match membered world (ga_agent a) with None => Ok x0 | Some ms => foldR (explore_member best) (map_to_list ms) x0 end) = Ok x' /\
    extends src x0 x' /\ forall d, src d -> known d /\ exists c, (signature d, c) ∈ ex_seen x') as (x' & Hx' & Hext & Hcov).
  { destruct (membered world (ga_agent a)) as [ms|] eqn:Hm; [|exists x0; split_and!; [done|apply extends_refl|by intros d (ms & [=] & _)]].
    destruct (explore_members_extends src best (map_to_list ms) x0) as (x' & Hx' & Hext & Hin).
    - intros id ds Hds%elem_of_map_to_list. destruct (membered_world _ _ _ _ Hm Hds) as [i Hi].
      split; [by apply (sw_world Hw i ms Hi id ds)|]. intros d Hd.
      split_and!; [by apply (sw_world Hw i ms Hi id ds)|exists ms; split; [done|by exists id, ds]|].
      intros c. apply (universe_elem i ms); [done|by exists id, ds].
    - exists x'. split_and!; [done|done|]. intros d (ms' & [= <-] & id & ds & Hds & Hd). split.
      + right. destruct (membered_world _ _ _ _ Hm Hds) as [i Hi]. exists i, ms. split; [done|]. by exists id, ds.
      + apply (Hin id ds); [by apply elem_of_map_to_list|done]. }
  exists x'. split_and!; [exact Hx'|by apply (exploring_finish finished x a rest)|].
  pose proof (xt_potential _ _ _ Hext). lia.
Qed.

Lemma exploring_self finished x a rest : exploring finished x -> ex_stack x = a :: rest -> agent_identifier (ga_agent a) = group_id g ->
  exploring (ga_agent a :: finished) (mkExplore rest (ex_seen x) (ex_caps x)).
Proof.
  intros [Hst Hs Hf Hsn Hc] Hx Hid. pose proof (fun b => explore_pop finished x a rest (ex_caps x) b Hx) as Hp. constructor; [| | | |done].
  - intros b Hb. apply Hst. rewrite Hx. by right.
  - intros id ds p Hm Hmax. by apply Hp, (Hs id ds).
  - intros b [->|Hb]%elem_of_cons Hbid; [done|]. destruct (Hf b Hb Hbid) as [? Hd]. split; [done|]. intros ms d ??. by apply Hp, (Hd ms).
  - intros k (d & ? & ? & ?)%Hsn. exists d. auto.
Qed.

Lemma transitive_loop_ok (Hw : sound_world) fuel : forall finished x, (potential x <= fuel)%nat -> exploring finished x ->
  exists caps, transitive_loop world (group_id g) fuel x = Ok caps /\ found caps.
Proof.
  induction fuel as [|fuel IH]; intros finished x Hp He.
  { assert (ex_stack x = []) as Hnil by (unfold potential in Hp; destruct (ex_stack x); cbn in Hp; [done|lia]).
    exists (ex_caps x). cbn. rewrite Hnil. split; [done|by apply (exploring_done finished)]. }
  cbn [transitive_loop]. destruct (ex_stack x) as [|a rest] eqn:Hx; [exists (ex_caps x); split; [done|by apply (exploring_done finished)]|].
  destruct (decide (agent_identifier (ga_agent a) = group_id g)) as [Hid|Hid].
  - apply (IH (ga_agent a :: finished)); [|by apply exploring_self]. unfold potential in *. rewrite Hx in Hp. cbn in *. lia.
  - destruct (explore_agent_ok finished x a rest Hw He Hx Hid) as (x' & -> & He' & Hlt). cbn [bindR]. apply (IH (ga_agent a :: finished)); [lia|done].
Qed.

(** Members pushed so far, the others still to come. *)
Lemma explore_start_ok (Hw : sound_world) (todo : list (Identifier * list (SignedDelegation T))) :
  forall x, (forall id ds, (id, ds) ∈ todo -> members g !! id = Some ds) ->
    (forall a, a ∈ ga_agent <$> ex_stack x -> carries a) ->
    (forall id ds p, members g !! id = Some ds -> max_by_can ds = Some p -> delegate (payload p) ∈ ga_agent <$> ex_stack x \/ (id, ds) ∈ todo) ->
    (forall k, k ∈ ex_seen x -> exists d, known d /\ k.1 = signature d /\ delegate (payload d) ∈ ga_agent <$> ex_stack x) -> ex_caps x = ∅ ->
  exists x', foldR explore_start todo x = Ok x' /\ exploring [] x' /\ length (ex_stack x') = (length todo + length (ex_stack x))%nat.
Proof.
  induction todo as [|[id ds] todo IH]; intros x Htodo Hst Hs Hsn Hc; cbn [foldR].
  { exists x. split_and!; [done| |done]. constructor; [done| |by intros ? ?%not_elem_of_nil| |intros i v; rewrite Hc, lookup_empty; by intros [=]].
    - intros id ds p Hm Hmax. left. by destruct (Hs id ds p Hm Hmax) as [?|?%not_elem_of_nil].
    - intros k (d & ? & ? & ?)%Hsn. exists d. split_and!; [done..|by left]. }
  pose proof (Htodo id ds (list_elem_of_here _ _)) as Hds. destruct (sw_group Hw id ds Hds) as [Hne Hid].
  unfold explore_start at 1. cbn [snd]. pose proof (max_by_can_spec ds) as Hmax. destruct (max_by_can ds) as [p|] eqn:Hp; [|done].
  destruct Hmax as [Hpin _]. cbn [expectR bindR]. edestruct IH as (x' & Hx' & He & Hlen); [| | | | |exists x'; split_and!; [exact Hx'|done|]]; cbn.
  - intros i es Hi. apply Htodo. by right.
  - intros a [->|Ha]%elem_of_cons; [by apply (carries_member id ds)|by apply Hst].
  - intros i es q Hm Hq. destruct (Hs i es q Hm Hq) as [?|[[= -> ->]|?]%elem_of_cons]; [left; by right| |by right].
    rewrite Hp in Hq. injection Hq as ->. left. left.
  - intros k [->%elem_of_singleton|Hk]%elem_of_union; [exists p; split_and!; [|done|left]; left; by exists id, ds|].
    destruct (Hsn k Hk) as (d & ? & ? & ?). exists d. split_and!; [done..|by right].
  - done.
  - rewrite Hlen. cbn. lia.
Qed.

Lemma transitive_members_ok (Hw : sound_world) : exists caps, transitive_members world g = Ok caps /\ found caps.
Proof.
  unfold transitive_members. destruct (explore_start_ok Hw (map_to_list (members g)) (mkExplore [] ∅ ∅)) as (x & -> & He & Hlen); cbn [ex_stack ex_seen ex_caps].
  - intros id ds. by rewrite elem_of_map_to_list.
  - by intros a ?%not_elem_of_nil.
  - intros id ds p Hm _. right. by apply elem_of_map_to_list.
  - set_solver.
  - done.
  - cbn [bindR]. apply (transitive_loop_ok Hw _ []); [|done]. unfold potential. cbn [length ex_stack] in Hlen. rewrite Hlen.
    pose proof universe_size. assert (size (universe ∖ ex_seen x) <= size universe)%nat by (apply subseteq_size; set_solver).
    rewrite length_map_to_list. lia.
Qed.
End Transitive.

(** C30. The transitive members of a group: the walk ends, also through groups
    that are members of each other, without a panic, and the ids it returns
    other than the group's own are exactly those of the agents that the group's
    best delegations, and all delegations of the groups and documents among
    them, lead to. *)
Theorem transitive_members_correct {T : Type} (world : gmap Identifier (gmap Identifier (list (SignedDelegation T)))) (g : @Group T) :
  sound_world world g ->
  exists caps, transitive_members world g = Ok caps /\
    forall i, i <> group_id g -> is_Some (caps !! i) <-> exists a, carries world g a /\ agent_identifier a = i.
Proof. intros Hw. destruct (transitive_members_ok _ _ Hw) as (caps & ? & _ & ?). by exists caps. Qed.
