(* ===== verification/GroupWitness.v ===== *)
(** * Small groups over the toy primitives

    The theorems on groups applied to histories with a handful of operations,
    and runs of the model on groups the code treats unexpectedly. *)

From Stdlib Require Import Strings.Byte.
From S2P Require Import Prelude TreeMath Crypto Signed CaMap OpGraph ToySerialize Individual.
From S2P Require Import Membership MemberSort MemberExplore MemberOrder GroupState Group GroupView GroupProps GroupChange Reach ReachProps ReachMembers.

Import ToyPrimitives ToySerialize.

#[export] Instance enc_access : Enc Access.
Proof.
  refine (enc_via (fun a => match a with Relay => x00 | Read => x01 | Edit => x02 | Admin => x03 end) _). by intros [] [].
Defined.
#[export] Instance enc_static_delegation : Enc (StaticDelegation N).
Proof.
  refine (enc_via (fun d => (sd_can d, sd_proof d, sd_delegate d, sd_after_revocations d, sd_after_content d)) _).
  by intros [] [] [= -> -> -> -> ->].
Defined.
#[export] Instance enc_static_revocation : Enc (StaticRevocation N).
Proof. refine (enc_via (fun r => (sr_revoke r, sr_proof r, sr_after_content r)) _). by intros [] [] [= -> -> ->]. Defined.
#[export] Instance serialize_delegation : Serialize (Delegation N) := fun d => enc (dlg_static d).
#[export] Instance serialize_revocation : Serialize (Revocation N) := fun r => enc (rev_static r).

Abbreviation Dlg := (SignedDelegation N).
Abbreviation Rev := (SignedRevocation N).

(** ** People and their delegations *)

Definition key (b : byte) : Identifier := mkVerifyingKey [b].
Definition club : Identifier := key x00.
Definition alice : Identifier := key x01.
Definition bob : Identifier := key x02.
Definition carol : Identifier := key x03.
Definition mallory : Identifier := key x04.

Definition grant (by_ : Identifier) (a : Identifier) (c : Access) (p : option Dlg) (revs : list Rev) (sig : byte) : Dlg :=
  mkSigned (mkDelegation (AgentIndividual a) c p revs ∅) by_ (mkSignature [sig]).
Definition ungrant (by_ : Identifier) (d : Dlg) (p : option Dlg) (sig : byte) : Rev :=
  mkSigned (mkRevocation d p ∅) by_ (mkSignature [sig]).

Definition to_alice : Dlg := grant club alice Admin None [] x10.
Definition to_bob : Dlg := grant alice bob Edit (Some to_alice) [] x11.
Definition to_carol : Dlg := grant bob carol Read (Some to_bob) [] x12.
Definition from_bob : Rev := ungrant alice to_bob (Some to_bob) x20.

Definition club_state (heads : list Dlg) (revs : list Rev) : GroupState N :=
  mkGroupState club (dlg_from_iter heads) (dlg_from_iter heads) (rev_from_iter revs) (rev_from_iter revs).
Definition club_of (heads : list Dlg) (revs : list Rev) : @Group N :=
  (rebuild (Er := Empty_set) (mkGroup (IdOrGroup club) ∅ ∅ (club_state heads revs) [])).2.

(** ** Histories *)

Lemma reaches_closed (heads l : list (MembershipOperation N)) op :
  (forall x, x ∈ heads -> x ∈ l) -> (forall x p, x ∈ l -> p ∈ after_auth x -> p ∈ l) -> reaches heads op -> op ∈ l.
Proof. intros Hh Hc. induction 1 as [x Hx|x p _ IH Hp]; [by apply Hh|by apply (Hc x)]. Qed.

(** Splits membership of a concrete list into its cases. *)
Ltac in_cases H :=
  repeat match type of H with
  | _ ∈ [] => by apply not_elem_of_nil in H
  | _ ∈ _ :: _ => apply elem_of_cons in H as [H|H]
  | _ ∈ after_auth _ => cbn in H
  | list_elem_of ?x ?l => change (x ∈ l) in H
  end; try discriminate H; subst.
Ltac listed := repeat first [by left | right].

Definition bob_out : list (MembershipOperation N) := heads_of [to_alice; to_bob] [from_bob].
Definition bob_out_ops : list (MembershipOperation N) := [OpDelegation to_alice; OpDelegation to_bob; OpRevocation from_bob].

Lemma bob_out_reaches op : reaches bob_out op -> op ∈ bob_out_ops.
Proof.
  apply reaches_closed.
  - intros x Hx. unfold bob_out in Hx. cbn in Hx. unfold bob_out_ops. in_cases Hx; listed.
  - intros x p Hx Hp. unfold bob_out_ops in *. in_cases Hx; in_cases Hp; listed.
Qed.

Lemma bob_out_revocation r : reaches bob_out (OpRevocation r) -> r = from_bob.
Proof. intros Hr%bob_out_reaches. unfold bob_out_ops in Hr. in_cases Hr. by simplify_eq. Qed.

Lemma bob_out_sound : sound_group bob_out.
Proof.
  constructor; [constructor| |].
  - intros a b Ha%bob_out_reaches Hb%bob_out_reaches. unfold bob_out_ops in *. in_cases Ha; in_cases Hb; try done; intros H; exfalso; vm_compute in H; discriminate H.
  - intros d d' Ha%bob_out_reaches Hb%bob_out_reaches. unfold bob_out_ops in *. in_cases Ha; in_cases Hb; simplify_eq; try done; intros H; exfalso; vm_compute in H; discriminate H.
  - intros r p Ha%bob_out_reaches. unfold bob_out_ops in *. in_cases Ha; simplify_eq. intros [= <-]. by left.
  - intros r r' Ha%bob_out_reaches Hb%bob_out_reaches _. unfold bob_out_ops in *. in_cases Ha; in_cases Hb; by simplify_eq.
  - intros r r' Ha%bob_out_reaches Hb%bob_out_reaches _. unfold bob_out_ops in *. in_cases Ha; in_cases Hb; by simplify_eq.
Qed.


Lemma reverse_topsort_stable_witness : reverse_topsort [to_alice; to_bob] [from_bob] = reverse_topsort [to_bob; to_alice] [from_bob].
Proof.
  apply (reverse_topsort_stable [to_alice; to_bob] [to_bob; to_alice] [from_bob] [from_bob]);
    [apply perm_swap|done|apply bob_out_sound|apply (sg_once _ bob_out_sound)].
Defined.


(** Whether a call succeeds: a small value to compute. *)
Definition is_ok {Er A} (r : res Er A) : bool := match r with Ok _ => true | _ => false end.


(** The group generated for Alice, then Bob's delegation. *)
Definition generation : res SigningError (@Group N) * CaMap Dlg :=
  generate_after_content (fun _ => Ok (mkSignature [x10])) club [AgentIndividual alice] ∅ rev_store_new [] ∅.
Definition generated : @Group N := match generation.1 with Ok g => g | _ => club_of [] [] end.
Definition with_bob : @Group N := (receive_delegation to_bob generated).2.

Lemma generation_ok : generation = (Ok generated, generation.2).
Proof.
  assert (is_ok generation.1 = true) as Hok by (vm_compute; reflexivity). unfold generated. by destruct generation as [[g| | |] ds].
Qed.
Lemma with_bob_ok : exists h, receive_delegation to_bob generated = (Ok h, with_bob).
Proof.
  assert (is_ok (receive_delegation to_bob generated).1 = true) as Hok by (vm_compute; reflexivity). unfold with_bob.
  destruct (receive_delegation to_bob generated) as [[h| | |] g]; [by exists h|done..].
Qed.
Lemma generated_alice op : op ∈ after_auth (OpDelegation to_bob) -> reached generated op.
Proof. intros Hop. cbn in Hop. apply list_elem_of_singleton in Hop as ->. apply reaches_head. vm_compute. left. Qed.

Lemma group_no_escalation_witness : authorised club to_bob.
Proof.
  destruct with_bob_ok as [h Hh].
  apply (group_no_escalation (fun _ => Ok (mkSignature [x10])) club [AgentIndividual alice] ∅ rev_store_new [] ∅ generated generation.2 with_bob)
    with (id := bob); [exact generation_ok|apply rtc_once, (deliver_delegation _ to_bob h); [exact generated_alice|exact Hh]|].
  vm_compute. left.
Defined.

(** ** Changes *)

(** A signer whose signature is the message. *)
Definition signer_of (id : Identifier) : AsyncSigner := mkAsyncSigner id (fun msg => Ok (mkSignature (VerifyingKey_bytes id ++ msg))).


(** Carol is an admin, and cannot remove Bob. *)
Definition carol_admin : Dlg := grant alice carol Admin (Some to_alice) [] x13.
Lemma revoke_member_needs_issuer_witness :
  can (payload carol_admin) = Admin /\
  revoke_member bob false (signer_of carol) ∅ (club_of [to_bob; carol_admin] []) = (Err RevokeNoProof, club_of [to_bob; carol_admin] []).
Proof.
  split; [reflexivity|]. apply (revoke_member_needs_issuer bob false (signer_of carol) ∅ (club_of [to_bob; carol_admin] []) to_bob []).
  - assert (group_id (club_of [to_bob; carol_admin] []) = club) as -> by (vm_compute; reflexivity). discriminate.
  - discriminate.
  - assert (default [] (members (club_of [to_bob; carol_admin] []) !! carol) = [carol_admin]) as Hm by (vm_compute; reflexivity).
    intros x Hx. cbn [signer_of signer_verifying_key] in *. rewrite Hm in Hx. by apply list_elem_of_singleton in Hx as ->.
  - vm_compute. reflexivity.
  - discriminate.
  - intros p Hp. cbn in Hp. apply list_elem_of_singleton in Hp as ->. discriminate.
Defined.

(** ** Walks *)

(** Two groups that are members of each other; one also has Bob. *)
Definition ring1 : Identifier := key x41.
Definition ring2 : Identifier := key x42.
Definition grant_to (by_ : Identifier) (a : Agent) (c : Access) (sig : byte) : Dlg :=
  mkSigned (mkDelegation a c None [] ∅) by_ (mkSignature [sig]).
Definition ring_world : gmap Identifier (gmap Identifier (list Dlg)) :=
  {[ring1 := {[ring2 := [grant_to ring1 (AgentGroup ring2) Admin x50]]};
    ring2 := {[ring1 := [grant_to ring2 (AgentGroup ring1) Admin x51]; bob := [grant_to ring2 (AgentIndividual bob) Read x52]]}]}.

Lemma ring_leads b : leads ring_world (AgentGroup ring1) b -> b ∈ [AgentGroup ring1; AgentGroup ring2; AgentIndividual bob].
Proof.
  induction 1 as [|b ms c _ IH Hms Hc]; [left|]. in_cases IH; cbn in Hms; try discriminate Hms; injection Hms as <-; vm_compute in Hc; in_cases Hc; listed.
Qed.
Lemma ring_ids b c : leads ring_world (AgentGroup ring1) b -> leads ring_world (AgentGroup ring1) c ->
  agent_identifier b = agent_identifier c -> b = c.
Proof. intros Hb%ring_leads Hc%ring_leads. in_cases Hb; in_cases Hc; (reflexivity || discriminate). Qed.

Lemma individual_ids_correct_witness :
  exists ids, individual_ids ring_world (AgentGroup ring1) = Some ids /\ forall i, i ∈ ids <-> leads_individual ring_world (AgentGroup ring1) i.
Proof. apply (individual_ids_correct ring_world (AgentGroup ring1)), ring_ids. Defined.

Lemma agent_pick_prekeys_correct_witness :
  exists keys, agent_pick_prekeys (fun i => mkShareKey (VerifyingKey_bytes i)) ring_world (AgentGroup ring1) = Some keys /\
    forall i k, keys !! i = Some k <-> leads_individual ring_world (AgentGroup ring1) i /\ k = mkShareKey (VerifyingKey_bytes i).
Proof. apply (agent_pick_prekeys_correct ring_world (fun i => mkShareKey (VerifyingKey_bytes i)) (AgentGroup ring1)), ring_ids. Defined.

Definition of_members (ms : gmap Identifier (list Dlg)) : @Group N := mkGroup (IdOrGroup club) ms ∅ (club_state [] []) [].
Definition ring_group : @Group N := of_members {[ring1 := [grant_to club (AgentGroup ring1) Edit x53]]}.

Definition ring_dlgs : list Dlg :=
  [grant_to club (AgentGroup ring1) Edit x53; grant_to ring1 (AgentGroup ring2) Admin x50;
   grant_to ring2 (AgentGroup ring1) Admin x51; grant_to ring2 (AgentIndividual bob) Read x52].

(** The members of the groups of the ring. *)
Lemma ring_lookup i ms id ds : ring_world !! i = Some ms -> ms !! id = Some ds ->
  exists d, ds = [d] /\ d ∈ ring_dlgs /\ agent_identifier (delegate (payload d)) = id.
Proof.
  unfold ring_world. intros [[_ <-]|[_ [_ <-]%lookup_singleton_Some]]%lookup_insert_Some.
  - intros [<- <-]%lookup_singleton_Some. eexists. split_and!; [done|unfold ring_dlgs; listed|done].
  - intros [[<- <-]|[_ [<- <-]%lookup_singleton_Some]]%lookup_insert_Some; eexists; (split_and!; [done|unfold ring_dlgs; listed|done]).
Qed.
Lemma ring_members_lookup id ds : members ring_group !! id = Some ds ->
  exists d, ds = [d] /\ d ∈ ring_dlgs /\ agent_identifier (delegate (payload d)) = id.
Proof. unfold ring_group, of_members. cbn [members]. intros [<- <-]%lookup_singleton_Some. eexists. split_and!; [done|unfold ring_dlgs; listed|done]. Qed.

Lemma ring_sound : sound_world ring_world ring_group.
Proof.
  assert (forall d, known ring_world ring_group d -> d ∈ ring_dlgs) as Hall.
  { intros d [(id & ds & Hds & Hd)|(i & ms & Hms & id & ds & Hds & Hd)].
    - destruct (ring_members_lookup _ _ Hds) as (d' & -> & ? & _). by apply list_elem_of_singleton in Hd as ->.
    - destruct (ring_lookup _ _ _ _ Hms Hds) as (d' & -> & ? & _). by apply list_elem_of_singleton in Hd as ->. }
  constructor.
  - intros id ds (d & -> & _ & Hid)%ring_members_lookup. split; [done|]. by intros x ->%list_elem_of_singleton.
  - intros i ms Hms id ds (d & -> & _ & Hid)%(ring_lookup _ _ _ _ Hms). split; [done|]. by intros x ->%list_elem_of_singleton.
  - intros d d' Hd%Hall Hd'%Hall. unfold ring_dlgs in *. in_cases Hd; in_cases Hd'; (reflexivity || discriminate).
Qed.

Lemma transitive_members_correct_witness :
  exists caps, transitive_members ring_world ring_group = Ok caps /\
    forall i, i <> group_id ring_group -> is_Some (caps !! i) <-> exists a, carries ring_world ring_group a /\ agent_identifier a = i.
Proof. apply (transitive_members_correct ring_world ring_group), ring_sound. Defined.

(** ** What the code does with some groups *)

(** Alice's delegation, which proves Bob's, is revoked twice: the order of the
    history, and with it which revocation comes first, depends on the order in
    which the store of heads gives out the two revocations. *)
Definition club_revokes_alice : Rev := ungrant club to_alice None x21.
Definition alice_leaves : Rev := ungrant alice to_alice (Some to_alice) x22.
Definition order_of (revs : list Rev) : option (list Signature) :=
  option_map (List.map (fun x => op_signature (snd x))) (reverse_topsort [to_bob] revs).
Theorem revoked_twice_depends_on_order :
  order_of [club_revokes_alice; alice_leaves] <> order_of [alice_leaves; club_revokes_alice].
Proof. vm_compute. discriminate. Qed.

(** A delegation made by a member whose own delegation is revoked stays: Bob is
    out, Carol, whom Bob added, is still a member, because Alice, who added Bob,
    has as much access. *)
Theorem revoked_delegate_survives :
  let g := club_of [to_carol] [from_bob] in
  default [] (members g !! bob) = [] /\ default [] (members g !! carol) = [to_carol].
Proof. vm_compute. split; reflexivity. Qed.

(** Only the access of the delegation received is compared with its proofs, not
    that of the proofs among themselves: receiving Bob's delegation makes
    Mallory, who was added by an editor, an admin. *)
Definition to_alice_edit : Dlg := grant club alice Edit None [] x10.
Definition to_mallory : Dlg := grant alice mallory Admin (Some to_alice_edit) [] x14.
Definition to_bob_read : Dlg := grant mallory bob Read (Some to_mallory) [] x15.
Theorem ancestor_escalation :
  let g := club_of [to_alice_edit] [] in
  is_ok (receive_delegation to_mallory g).1 = false /\
  is_ok (receive_delegation to_bob_read g).1 = true /\
  default [] (members (receive_delegation to_bob_read g).2 !! mallory) = [to_mallory] /\ can (payload to_mallory) = Admin.
Proof. vm_compute. repeat split; reflexivity. Qed.

(** Bob, two delegations away from the group's key, cannot revoke Carol, whom
    Bob added: every ancestor of the proof is compared with the proof's issuer. *)
Definition from_carol : Rev := ungrant bob to_carol (Some to_carol) x23.
Theorem deep_revocation_refused :
  linked to_carol (proof_lineage (payload to_carol)) /\
  (receive_revocation from_carol (club_of [to_carol] [])).1 = Err InvalidProofChain.
Proof. split; [by vm_compute|vm_compute; reflexivity]. Qed.

(** An editor group reached twice: its reader Bob is reported as an editor. *)
Definition team : Identifier := key x43.
Definition wing : Identifier := key x44.
Definition team_world : gmap Identifier (gmap Identifier (list Dlg)) :=
  {[team := {[bob := [grant_to team (AgentIndividual bob) Read x60]]}; wing := {[team := [grant_to wing (AgentGroup team) Edit x61]]}]}.
Definition team_group : @Group N :=
  of_members {[team := [grant_to club (AgentGroup team) Edit x62]; wing := [grant_to club (AgentGroup wing) Edit x63]]}.
Theorem transitive_members_overreports :
  match transitive_members team_world team_group with Ok caps => caps !! bob = Some (AgentIndividual bob, Edit) | _ => False end.
Proof. vm_compute. reflexivity. Qed.
