(* ===== verification/Ciphertext.v ===== *)
(** * Ciphertext stores and causal decryption
    ([keyhive/keyhive_core/src/store/ciphertext.rs], [store/ciphertext/memory.rs],
    [crypto/envelope.rs])

    Content is encrypted together with the keys of its causal predecessors, so
    that one key opens the history below it. *)

From S2P Require Import Prelude TreeMath Crypto Keys SecretStore Tree PathCrypto Signed CaMap OpGraph AppSecret.

Local Open Scope monad_scope.

(** What is encrypted: a plaintext and the keys of its ancestors. *)
Record Envelope (Cr A : Type) `{Countable Cr} := mkEnvelope {
  env_plaintext : A;
  ancestors : gmap Cr SymmetricKey;
}.
Arguments mkEnvelope {Cr A _ _}.
Arguments env_plaintext {Cr A _ _}.
Arguments ancestors {Cr A _ _}.

Record ReadCap (Cr : Type) := mkReadCap { cap_id : Cr; cap_key : SymmetricKey }.
Arguments mkReadCap {Cr}.
Definition ancestor_read_caps {Cr A} `{Countable Cr} (e : Envelope Cr A) : list (ReadCap Cr) :=
  (fun x => mkReadCap x.1 x.2) <$> map_to_list (ancestors e).

(** [bincode::deserialize] *)
Class Deserialize (A : Type) := deserialize : bytes -> option A.

(** ** Stores *)

(** [CiphertextStore]: fetching a ciphertext, and noting that it is decrypted. *)
Class CiphertextStore (Cr S Ge Me : Type) := {
  get_ciphertext : Cr -> S -> res Ge (option (EncryptedContent Cr));
  mark_decrypted : Cr -> M S Me unit;
}.

Section Memory.
Context `{P : Primitives} {Cr : Type} `{Countable Cr} `{Sec : !Serialize (EncryptedContent Cr)}.

Abbreviation EcDigest := (Digest (EncryptedContent Cr)).

Record MemoryCiphertextStore := mkMemoryStore {
  ops_to_refs : gmap OpHash (gset Cr);
  refs_to_digests : gmap Cr (gset EcDigest);
  ct_store : gmap EcDigest (nat * EncryptedContent Cr);
}.
Definition memory_new : MemoryCiphertextStore := mkMemoryStore ∅ ∅ ∅.

(** [Iterator::max_by_key]: the last of the largest. *)
Definition largest (l : list (nat * EncryptedContent Cr)) : option (nat * EncryptedContent Cr) :=
  foldl (fun best x => match best with
                       | Some b => if (b.1 <=? x.1)%nat then Some x else best
                       | None => Some x
                       end) None l.

Definition get_by_content_ref (content_ref : Cr) (s : MemoryCiphertextStore) : option (EncryptedContent Cr) :=
  digests ← refs_to_digests s !! content_ref;
  xs ← mapM (fun digest => ct_store s !! digest) (elements digests);
  snd <$> largest xs.

Definition get_by_pcs_update (op : OpHash) (s : MemoryCiphertextStore) : list (EncryptedContent Cr) :=
  match ops_to_refs s !! op with
  | None => []
  | Some content_refs =>
      content_ref ← elements content_refs;
      digest ← elements (default ∅ (refs_to_digests s !! content_ref));
      option_list (snd <$> ct_store s !! digest)
  end.

Definition memory_insert (encrypted : EncryptedContent Cr) (s : MemoryCiphertextStore) : MemoryCiphertextStore :=
  let digest := Digest_hash encrypted in
  let content_ref := ec_content_ref encrypted in
  let op := ec_pcs_update_op_hash encrypted in
  let store := <[digest := (length (ec_ciphertext encrypted), encrypted)]> (ct_store s) in
  match ct_store s !! digest with
  | Some _ => mkMemoryStore (ops_to_refs s) (refs_to_digests s) store
  | None =>
      mkMemoryStore (<[op := {[content_ref]} ∪ default ∅ (ops_to_refs s !! op)]> (ops_to_refs s))
        (<[content_ref := {[digest]} ∪ default ∅ (refs_to_digests s !! content_ref)]> (refs_to_digests s)) store
  end.

(** [entry(k).and_modify(f)], then dropping the entry when it is empty. *)
Definition shrink {K V} `{Countable K, Countable V} (k : K) (v : V) (m : gmap K (gset V)) : gmap K (gset V) :=
  match m !! k with
  | Some set => if decide (set ∖ {[v]} = ∅) then delete k m else <[k := set ∖ {[v]}]> m
  | None => m
  end.

(** An operation without references returns early, before the reference's
    digests are updated. *)
Definition memory_remove (digest : EcDigest) (s : MemoryCiphertextStore) : option (EncryptedContent Cr) * MemoryCiphertextStore :=
  match ct_store s !! digest with
  | None => (None, s)
  | Some (_, encrypted) =>
      let store := delete digest (ct_store s) in
      match ops_to_refs s !! ec_pcs_update_op_hash encrypted with
      | None => (None, mkMemoryStore (ops_to_refs s) (refs_to_digests s) store)
      | Some _ =>
          (Some encrypted,
           mkMemoryStore (shrink (ec_pcs_update_op_hash encrypted) (ec_content_ref encrypted) (ops_to_refs s))
             (shrink (ec_content_ref encrypted) digest (refs_to_digests s)) store)
      end
  end.

Definition memory_remove_all (content_ref : Cr) (s : MemoryCiphertextStore) : bool * MemoryCiphertextStore :=
  match refs_to_digests s !! content_ref with
  | Some digests =>
      (true, mkMemoryStore (ops_to_refs s) (delete content_ref (refs_to_digests s))
               (foldl (fun m digest => delete digest m) (ct_store s) (elements digests)))
  | None => (false, s)
  end.

#[export] Instance memory_store : CiphertextStore Cr MemoryCiphertextStore Empty_set Empty_set := {|
  get_ciphertext r s := Ok (get_by_content_ref r s);
  mark_decrypted r s := (Ok tt, (memory_remove_all r s).2);
|}.
End Memory.
Arguments MemoryCiphertextStore Cr {_ _}.

(** ** Causal decryption *)

Section Causal.
Context `{P : Primitives} {Cr A S Ge Me : Type} `{Countable Cr}.
Context `{D : !Deserialize (Envelope Cr A), St : !CiphertextStore Cr S Ge Me}.

Record CausalDecryptionState := mkCausalState {
  complete : list (Cr * A);
  cd_keys : gmap Cr SymmetricKey;
  cd_next : gmap Cr SymmetricKey;
}.
Inductive ErrorReason :=
  | GetCiphertextError (e : Ge)
  | MarkDecryptedError (e : Me)
  | DeserializationFailed
  | DecryptionFailed (key : SymmetricKey).

Record Decrypting := mkDecrypting {
  to_decrypt : list (EncryptedContent Cr * SymmetricKey);
  progress : CausalDecryptionState;
  cannot : gmap Cr ErrorReason;
  dc_seen : gset Cr;
}.

(** One ancestor of an envelope; [continue] goes on with the next ancestor. *)
Definition decrypt_ancestor (s : S) (content_ref : Cr) (d : Decrypting) (ancestor : Cr * SymmetricKey) : Decrypting :=
  let '(ancestor_ref, ancestor_key) := ancestor in
  let p := progress d in
  match get_ciphertext ancestor_ref s with
  | Ok (Some c) => mkDecrypting ((c, ancestor_key) :: to_decrypt d) p (cannot d) (dc_seen d)
  | Ok None => mkDecrypting (to_decrypt d) (mkCausalState (complete p) (cd_keys p) (<[ancestor_ref := ancestor_key]> (cd_next p))) (cannot d) (dc_seen d)
  | Err e => mkDecrypting (to_decrypt d) p (<[content_ref := GetCiphertextError e]> (cannot d)) (dc_seen d ∖ {[content_ref]})
  | _ => d
  end.

Definition fail_content (content_ref : Cr) (reason : ErrorReason) (d : Decrypting) : Decrypting :=
  mkDecrypting (to_decrypt d) (progress d) (<[content_ref := reason]> (cannot d)) (dc_seen d ∖ {[content_ref]}).

(** The body of [while let Some((ciphertext, key)) = to_decrypt.pop()]; the head
    of the list is the end of the vector, already taken off. *)
Definition decrypt_one (s : S) (ciphertext : EncryptedContent Cr) (key : SymmetricKey) (d : Decrypting) : Decrypting :=
  let content_ref := ec_content_ref ciphertext in
  if bool_decide (content_ref ∈ dc_seen d) then d
  else
    let p := progress d in
    let d := mkDecrypting (to_decrypt d) (mkCausalState (complete p) (<[content_ref := key]> (cd_keys p)) (cd_next p)) (cannot d)
               ({[content_ref]} ∪ dc_seen d) in
    match content_try_decrypt ciphertext key with
    | None => fail_content content_ref (DecryptionFailed key) d
    | Some decrypted =>
        match (deserialize decrypted : option (Envelope Cr A)) with
        | None => fail_content content_ref DeserializationFailed d
        | Some envelope =>
            let d := foldl (decrypt_ancestor s content_ref) d (map_to_list (ancestors envelope)) in
            let p := progress d in
            mkDecrypting (to_decrypt d) (mkCausalState (complete p ++ [(content_ref, env_plaintext envelope)]) (cd_keys p) (cd_next p)) (cannot d) (dc_seen d)
        end
    end.

Fixpoint causal_loop (fuel : nat) (s : S) (d : Decrypting) : option Decrypting :=
  match to_decrypt d with
  | [] => Some d
  | (ciphertext, key) :: rest =>
      match fuel with
      | O => None
      | Datatypes.S fuel' => causal_loop fuel' s (decrypt_one s ciphertext key (mkDecrypting rest (progress d) (cannot d) (dc_seen d)))
      end
  end.

(** Marking what was decrypted; a failure is recorded, and marking goes on. *)
Fixpoint mark_all (ids : list Cr) (cannot : gmap Cr ErrorReason) (s : S) : gmap Cr ErrorReason * S :=
  match ids with
  | [] => (cannot, s)
  | id :: ids' =>
      match mark_decrypted id s with
      | (Err e, s') => mark_all ids' (<[id := MarkDecryptedError e]> cannot) s'
      | (_, s') => mark_all ids' cannot s'
      end
  end.

Definition try_causal_decrypt (fuel : nat) (content : list (EncryptedContent Cr * SymmetricKey)) :
    M S (gmap Cr ErrorReason * CausalDecryptionState) CausalDecryptionState := fun s =>
  match causal_loop fuel s (mkDecrypting (reverse content) (mkCausalState [] ∅ ∅) ∅ ∅) with
  | None => (Diverge, s)
  | Some d =>
      let '(cannot, s') := mark_all (complete (progress d)).*1 (cannot d) s in
      if decide (cannot = ∅) then (Ok (progress d), s') else (Err (cannot, progress d), s')
  end.
End Causal.
