(* ===== verification/CiphertextProps.v ===== *)
(** * The memory store implements the interface of ciphertext stores
    ([keyhive/keyhive_core/src/store/ciphertext/memory.rs]) *)

From S2P Require Import Prelude TreeMath Crypto Keys SecretStore Tree PathCrypto Signed CaMap OpGraph AppSecret Ciphertext.

(** What causal decryption relies on: fetching does not fail and gives a
    ciphertext of the reference asked for, there are finitely many, and marking
    one hides it and nothing else. *)
Class CiphertextStoreLaws {Cr S Ge Me : Type} `{Countable Cr} (St : CiphertextStore Cr S Ge Me) (ok : S -> Prop) : Prop := {
  cs_get r s : ok s -> exists o, get_ciphertext r s = Ok o /\ forall c, o = Some c -> ec_content_ref c = r;
  cs_finite s : ok s -> exists refs : gset Cr, forall r c, get_ciphertext r s = Ok (Some c) -> r ∈ refs;
  cs_mark r s : ok s -> exists s', mark_decrypted r s = (Ok tt, s') /\ ok s' /\
    forall r', get_ciphertext r' s' = if decide (r' = r) then Ok None else get_ciphertext r' s;
}.

Section Memory.
Context `{P : Primitives} {Cr : Type} `{Countable Cr} `{Sec : !Serialize (EncryptedContent Cr)}.

Definition entry_of (ec : EncryptedContent Cr) : nat * EncryptedContent Cr := (length (ec_ciphertext ec), ec).

(** The indices list exactly what the store holds. *)
Record store_wf (s : MemoryCiphertextStore Cr) : Prop := {
  sf_refs r ds dg : refs_to_digests s !! r = Some ds -> dg ∈ ds -> exists ec, ct_store s !! dg = Some (entry_of ec) /\ ec_content_ref ec = r;
  sf_store dg x : ct_store s !! dg = Some x -> dg = Digest_hash x.2 /\ x = entry_of x.2 /\
    dg ∈ default ∅ (refs_to_digests s !! ec_content_ref x.2) /\ ec_content_ref x.2 ∈ default ∅ (ops_to_refs s !! ec_pcs_update_op_hash x.2);
  sf_nonempty r ds : refs_to_digests s !! r = Some ds -> ds <> ∅;
}.
Definition stored (s : MemoryCiphertextStore Cr) (ec : EncryptedContent Cr) : Prop := ct_store s !! Digest_hash ec = Some (entry_of ec).

Lemma memory_new_wf : store_wf memory_new.
Proof. constructor; cbn; intros *; by rewrite lookup_empty. Qed.

Lemma memory_insert_wf ec s : collision_free (EncryptedContent Cr) -> store_wf s -> store_wf (memory_insert ec s).
Proof.
  intros Hcf [Hr Hs Hn]. unfold memory_insert. destruct (ct_store s !! Digest_hash ec) as [x|] eqn:Hx.
  - assert (<[Digest_hash ec := (length (ec_ciphertext ec), ec)]> (ct_store s) = ct_store s) as ->; [|by constructor].
    apply insert_id. destruct (Hs _ _ Hx) as (Hd & Hent & _). apply Hcf in Hd. rewrite Hx, Hent, <- Hd. done.
  - constructor; cbn.
    + intros r ds dg. intros [[<- <-]|[Hne Hds]]%lookup_insert_Some Hdg.
      * apply elem_of_union in Hdg as [->%elem_of_singleton|Hdg]; [exists ec; by rewrite lookup_insert_eq|].
        destruct (refs_to_digests s !! ec_content_ref ec) as [ds|] eqn:Hds; [|by apply not_elem_of_empty in Hdg].
        destruct (Hr _ _ _ Hds Hdg) as (ec' & Hec & Href). exists ec'. split; [|done]. rewrite lookup_insert_ne; [done|congruence].
      * destruct (Hr _ _ _ Hds Hdg) as (ec' & Hec & Href). exists ec'. split; [|done]. rewrite lookup_insert_ne; [done|congruence].
    + intros dg x. intros [[<- <-]|[Hne Hdg]]%lookup_insert_Some; cbn.
      * split_and!; [done|done|rewrite lookup_insert_eq; set_solver|rewrite lookup_insert_eq; set_solver].
      * destruct (Hs _ _ Hdg) as (? & ? & Hin & Hop). split_and!; [done|done| |].
        -- destruct (decide (ec_content_ref ec = ec_content_ref x.2)) as [Heq|?]; [rewrite Heq, lookup_insert_eq; set_solver|by rewrite lookup_insert_ne].
        -- destruct (decide (ec_pcs_update_op_hash ec = ec_pcs_update_op_hash x.2)) as [Heq|?]; [rewrite Heq, lookup_insert_eq; set_solver|by rewrite lookup_insert_ne].
    + intros r ds [[_ <-]|[_ ?]]%lookup_insert_Some; [set_solver|by apply (Hn r)].
Qed.

Lemma delete_all_lookup (m : gmap (Digest (EncryptedContent Cr)) (nat * EncryptedContent Cr)) l dg :
  foldl (fun m digest => delete digest m) m l !! dg = if decide (dg ∈ l) then None else m !! dg.
Proof.
  revert m. induction l as [|d l IH]; intros m; cbn [foldl]; [by rewrite decide_False by apply not_elem_of_nil|]. rewrite IH.
  destruct (decide (dg = d)) as [->|Hne]; [rewrite lookup_delete_eq, (decide_True (P := d ∈ d :: l)) by left; by destruct (decide _)|].
  rewrite lookup_delete_ne by done. do 2 destruct (decide _); set_solver.
Qed.

Lemma memory_remove_all_wf r s : store_wf s -> store_wf (memory_remove_all r s).2.
Proof.
  intros [Hr Hs Hn]. unfold memory_remove_all. destruct (refs_to_digests s !! r) as [ds|] eqn:Hds; [|done]. constructor; cbn.
  - intros r' ds' dg [Hne Hds']%lookup_delete_Some Hdg. destruct (Hr _ _ _ Hds' Hdg) as (ec & Hec & Href). exists ec. split; [|done].
    rewrite delete_all_lookup, decide_False; [done|]. intros Hin%elem_of_elements. destruct (Hr _ _ _ Hds Hin) as (ec' & Hec' & Href').
    rewrite Hec in Hec'. injection Hec' as _ ->. congruence.
  - intros dg x. rewrite delete_all_lookup. destruct (decide (dg ∈ elements ds)) as [|Hout]; [done|]. intros Hx.
    destruct (Hs _ _ Hx) as (? & ? & Hin & ?). split_and!; [done|done| |done]. rewrite lookup_delete_ne; [done|]. intros Heq.
    rewrite <- Heq, Hds in Hin. apply Hout. by apply elem_of_elements.
  - intros r' ds' [_ ?]%lookup_delete_Some. by apply (Hn r').
Qed.

Lemma largest_spec (l : list (nat * EncryptedContent Cr)) :
  match largest l with Some x => x ∈ l /\ forall y, y ∈ l -> (y.1 <= x.1)%nat | None => l = [] end.
Proof.
  unfold largest. induction l as [|x l IH] using rev_ind; [done|]. rewrite foldl_app. cbn [foldl].
  destruct (foldl _ None l) as [b|]; [|subst l; split; [left|by intros y ->%list_elem_of_singleton]].
  destruct IH as [Hb Hmax]. destruct (Nat.leb_spec b.1 x.1).
  - split; [apply elem_of_app; right; left|]. intros y [Hy| ->%list_elem_of_singleton]%elem_of_app; [|done]. specialize (Hmax y Hy). lia.
  - split; [apply elem_of_app; by left|]. intros y [Hy| ->%list_elem_of_singleton]%elem_of_app; [by apply Hmax|lia].
Qed.

(** Fetching gives the longest of the ciphertexts stored for the reference. *)
Lemma get_by_content_ref_spec r s : store_wf s ->
  match get_by_content_ref r s with
  | Some ec => stored s ec /\ ec_content_ref ec = r /\
      forall ec', stored s ec' -> ec_content_ref ec' = r -> (length (ec_ciphertext ec') <= length (ec_ciphertext ec))%nat
  | None => forall ec, stored s ec -> ec_content_ref ec <> r
  end.
Proof.
  intros [Hr Hs Hn]. unfold get_by_content_ref. destruct (refs_to_digests s !! r) as [ds|] eqn:Hds; cbn.
  - assert (exists xs, mapM (fun digest => ct_store s !! digest) (elements ds) = Some xs) as [xs Hxs].
    { apply mapM_is_Some. apply Forall_forall. intros dg Hdg%elem_of_elements. destruct (Hr _ _ _ Hds Hdg) as (ec & Hec & _). by exists (entry_of ec). }
    rewrite Hxs. cbn. apply mapM_Some_1 in Hxs.
    assert (forall x, x ∈ xs <-> exists dg, dg ∈ ds /\ ct_store s !! dg = Some x) as Hin.
    { intros x. split.
      - intros [i Hi]%list_elem_of_lookup. destruct (Forall2_lookup_r _ _ _ _ _ Hxs Hi) as (dg & Hdg & Hx). exists dg. split; [|done].
        apply elem_of_elements. by apply list_elem_of_lookup_2 in Hdg.
      - intros (dg & Hdg%elem_of_elements & Hx). apply list_elem_of_lookup in Hdg as [i Hi]. destruct (Forall2_lookup_l _ _ _ _ _ Hxs Hi) as (y & Hy & Hxy).
        rewrite Hx in Hxy. injection Hxy as <-. by apply list_elem_of_lookup_2 in Hy. }
    pose proof (largest_spec xs) as Hl. destruct (largest xs) as [x|]; cbn.
    + destruct Hl as [Hx Hmax]. apply Hin in Hx as (dg & Hdg & Hx). destruct (Hr _ _ _ Hds Hdg) as (ec & Hec & Href). rewrite Hx in Hec. injection Hec as ->.
      destruct (Hs _ _ Hx) as (-> & _). cbn. split_and!; [done|done|]. intros ec' Hst Href'. destruct (Hs _ _ Hst) as (_ & _ & Hd & _). cbn in Hd.
      rewrite Href', Hds in Hd. apply (Hmax (entry_of ec')). apply Hin. by exists (Digest_hash ec').
    + subst xs. intros ec Hst Href. destruct (Hs _ _ Hst) as (_ & _ & Hd & _). cbn in Hd. rewrite Href, Hds in Hd.
      assert (entry_of ec ∈ []) as []%not_elem_of_nil. apply Hin. by exists (Digest_hash ec).
  - intros ec Hst Href. destruct (Hs _ _ Hst) as (_ & _ & Hd & _). cbn in Hd. rewrite Href, Hds in Hd. by apply not_elem_of_empty in Hd.
Qed.

Lemma remove_all_get r r' s : store_wf s ->
  get_by_content_ref r' (memory_remove_all r s).2 = if decide (r' = r) then None else get_by_content_ref r' s.
Proof.
  intros [Hr Hs Hn]. unfold memory_remove_all, get_by_content_ref. destruct (refs_to_digests s !! r) as [ds|] eqn:Hds; cbn.
  - destruct (decide (r' = r)) as [->|Hne]; [by rewrite lookup_delete_eq|]. rewrite lookup_delete_ne by done.
    destruct (refs_to_digests s !! r') as [ds'|] eqn:Hds'; [|done]. cbn.
    erewrite (Forall_mapM_ext _ (fun digest => ct_store s !! digest)); [done|]. apply Forall_forall. intros dg Hdg%elem_of_elements.
    rewrite delete_all_lookup, decide_False; [done|]. intros Hin%elem_of_elements.
    destruct (Hr _ _ _ Hds Hin) as (ec & Hec & Href), (Hr _ _ _ Hds' Hdg) as (ec' & Hec' & Href').
    rewrite Hec in Hec'. injection Hec' as _ ->. congruence.
  - destruct (decide (r' = r)) as [->|]; [by rewrite Hds|done].
Qed.

#[export] Instance memory_laws : CiphertextStoreLaws memory_store store_wf.
Proof.
  constructor.
  - intros r s Hs. exists (get_by_content_ref r s). split; [done|]. intros c Hc. pose proof (get_by_content_ref_spec r s Hs) as Hg. rewrite Hc in Hg. apply Hg.
  - intros s Hs. exists (dom (refs_to_digests s)). cbn. intros r c [= Hc]. apply elem_of_dom. unfold get_by_content_ref in Hc.
    destruct (refs_to_digests s !! r); [done|discriminate].
  - intros r s Hs. exists (memory_remove_all r s).2. split_and!; [done|by apply memory_remove_all_wf|].
    intros r'. cbn. rewrite remove_all_get by done. by destruct (decide (r' = r)).
Qed.
End Memory.

(** The memory store: creating it, inserting ciphertexts and dropping all
    of a reference keep the indices in step with what is stored; an inserted
    ciphertext is stored, and fetching a reference gives the longest ciphertext
    stored for it, or nothing when there is none. *)
Theorem memory_store_correct `{P : Primitives} {Cr : Type} `{Countable Cr} `{Sec : !Serialize (EncryptedContent Cr)} :
  collision_free (EncryptedContent Cr) ->
  store_wf (memory_new : MemoryCiphertextStore Cr) /\
  forall s : MemoryCiphertextStore Cr, store_wf s ->
    (forall ec, store_wf (memory_insert ec s) /\ stored (memory_insert ec s) ec) /\
    (forall r, store_wf (memory_remove_all r s).2 /\ get_by_content_ref r (memory_remove_all r s).2 = None) /\
    forall r, match get_by_content_ref r s with
              | Some ec => stored s ec /\ ec_content_ref ec = r /\
                  forall ec', stored s ec' -> ec_content_ref ec' = r -> (length (ec_ciphertext ec') <= length (ec_ciphertext ec))%nat
              | None => forall ec, stored s ec -> ec_content_ref ec <> r
              end.
Proof.
  intros Hcf. split; [apply memory_new_wf|]. intros s Hs. split_and!.
  - intros ec. split; [by apply memory_insert_wf|]. unfold stored, memory_insert, entry_of. destruct (ct_store s !! Digest_hash ec); cbn; apply lookup_insert_eq.
  - intros r. split; [by apply memory_remove_all_wf|]. rewrite remove_all_get by done. by rewrite decide_True.
  - intros r. by apply get_by_content_ref_spec.
Qed.
