(* ===== verification/CausalDecrypt.v ===== *)
(** * Causal decryption opens the history
    ([keyhive/keyhive_core/src/store/ciphertext.rs], [try_causal_decrypt]) *)

From S2P Require Import Prelude TreeMath Crypto Keys SecretStore Tree PathCrypto Signed CaMap OpGraph AppSecret Ciphertext CiphertextProps.

Section Causal.
Context `{P : Primitives} {Cr A S Ge Me : Type} `{Countable Cr}.
Context `{D : !Deserialize (Envelope Cr A)} {St : CiphertextStore Cr S Ge Me} {ok : S -> Prop} {Laws : CiphertextStoreLaws St ok}.
Context (s : S) (Hok : ok s) (content : list (EncryptedContent Cr * SymmetricKey)).

Abbreviation Decrypting' := (@Decrypting Cr A Ge Me _ _).

(** [key] opens [c], and [e] is inside. *)
Definition opens (c : EncryptedContent Cr) (key : SymmetricKey) (e : Envelope Cr A) : Prop :=
  exists b, content_try_decrypt c key = Some b /\ deserialize b = Some e.

(** A ciphertext the caller passed in, or one of the store. *)
Definition available (c : EncryptedContent Cr) : Prop :=
  (exists k, (c, k) ∈ content) \/ get_ciphertext (ec_content_ref c) s = Ok (Some c).

Definition handled (d : Decrypting') (r : Cr) : Prop :=
  r ∈ dc_seen d \/ (exists c k, (c, k) ∈ to_decrypt d /\ ec_content_ref c = r) \/ is_Some (cannot d !! r).

(** The ancestors of an envelope are taken up, or set aside when the store does
    not have them. *)
Definition followed (d : Decrypting') (e : Envelope Cr A) : Prop :=
  forall a ka, ancestors e !! a = Some ka ->
    match get_ciphertext a s with Ok (Some _) => handled d a | _ => is_Some (cd_next (progress d) !! a) end.

Record decrypting (d : Decrypting') : Prop := {
  dg_seen r : r ∈ dc_seen d <-> r ∈ (complete (progress d)).*1;
  dg_nodup : NoDup (complete (progress d)).*1;
  dg_start c k : (c, k) ∈ content -> handled d (ec_content_ref c);
  dg_stack c k : (c, k) ∈ to_decrypt d -> available c;
  dg_complete r pt : (r, pt) ∈ complete (progress d) -> exists c k e,
    available c /\ ec_content_ref c = r /\ cd_keys (progress d) !! r = Some k /\ opens c k e /\ env_plaintext e = pt /\ followed d e;
  dg_next a k : cd_next (progress d) !! a = Some k -> get_ciphertext a s = Ok None;
  dg_cannot r reason : cannot d !! r = Some reason -> reason = DeserializationFailed \/ exists k, reason = DecryptionFailed k;
}.

Lemma decrypting_init : decrypting (mkDecrypting (reverse content) (mkCausalState [] ∅ ∅) ∅ ∅).
Proof.
  constructor; cbn.
  - intros r. split; [set_solver|by intros ?%not_elem_of_nil].
  - constructor.
  - intros c k Hc. right. left. exists c, k. cbn. by rewrite elem_of_reverse.
  - intros c k Hc. rewrite elem_of_reverse in Hc. left. by exists k.
  - by intros r pt ?%not_elem_of_nil.
  - intros a k. by rewrite lookup_empty.
  - intros r reason. by rewrite lookup_empty.
Qed.

(** What going over the ancestors changes. *)
Lemma decrypt_ancestors_spec r anc (d : Decrypting') :
  let d' := foldl (decrypt_ancestor s r) d anc in
  (exists pushed, to_decrypt d' = pushed ++ to_decrypt d /\ forall c k, (c, k) ∈ pushed -> available c) /\
  complete (progress d') = complete (progress d) /\ cd_keys (progress d') = cd_keys (progress d) /\ cannot d' = cannot d /\ dc_seen d' = dc_seen d /\
  (forall a, is_Some (cd_next (progress d) !! a) -> is_Some (cd_next (progress d') !! a)) /\
  (forall a k, cd_next (progress d') !! a = Some k -> cd_next (progress d) !! a = Some k \/ get_ciphertext a s = Ok None) /\
  forall a ka, (a, ka) ∈ anc ->
    match get_ciphertext a s with
    | Ok (Some _) => exists c, (c, ka) ∈ to_decrypt d' /\ ec_content_ref c = a
    | _ => is_Some (cd_next (progress d') !! a)
    end.
Proof.
  cbn zeta. revert d. induction anc as [|[a ka] anc IH]; intros d; cbn [foldl].
  { split_and!; try done; [by exists []; split; [done|intros ?? ?%not_elem_of_nil]|by left|by intros ?? ?%not_elem_of_nil]. }
  destruct (cs_get a s Hok) as (o & Ho & Href).
  specialize (IH (decrypt_ancestor s r d (a, ka))). destruct IH as ((pushed & Hp & Hpa) & Hc & Hk & Hcn & Hs & Hn & Hn' & Hin).
  unfold decrypt_ancestor in *. rewrite Ho in *. destruct o as [c|]; cbn [to_decrypt progress cannot dc_seen complete cd_keys cd_next] in *.
  - specialize (Href c eq_refl). split_and!; try done.
    + exists (pushed ++ [(c, ka)]). rewrite <- app_assoc. split; [done|]. intros c' k' [?|[= -> ->]%list_elem_of_singleton]%elem_of_app; [by apply (Hpa c' k')|].
      right. by rewrite Href, Ho.
    + intros a' ka' [[= -> ->]|Ha']%elem_of_cons; [|by apply Hin]. rewrite Ho. exists c. split; [|done]. rewrite Hp. apply elem_of_app. right. left.
  - split_and!; try done.
    + by exists pushed.
    + intros a' Ha'. apply Hn. apply lookup_insert_is_Some'. by right.
    + intros a' k' Ha'. apply Hn' in Ha' as [[[<- _]|[_ ?]]%lookup_insert_Some|?]; auto.
    + intros a' ka' [[= -> ->]|Ha']%elem_of_cons; [|by apply Hin]. rewrite Ho. apply Hn. by rewrite lookup_insert_eq.
Qed.

(** Dropping the top of the stack once it is handled otherwise. *)
Lemma handled_pop (d d' : Decrypting') c k rest r : to_decrypt d = (c, k) :: rest ->
  dc_seen d ⊆ dc_seen d' -> (forall x, is_Some (cannot d !! x) -> is_Some (cannot d' !! x)) -> (forall x, x ∈ rest -> x ∈ to_decrypt d') ->
  handled d' (ec_content_ref c) -> handled d r -> handled d' r.
Proof.
  intros Hst Hs Hc Hr Htop [?|[(c' & k' & Hin & <-)|?]]; [left; set_solver| |right; right; auto].
  rewrite Hst in Hin. apply elem_of_cons in Hin as [[= -> ->]|Hin]; [done|]. right. left. exists c', k'. auto.
Qed.

(** Completed contents stay completed when more is handled and set aside. *)
Lemma completed_mono (d d' : Decrypting') :
  (forall r, handled d r -> handled d' r) -> (forall a, is_Some (cd_next (progress d) !! a) -> is_Some (cd_next (progress d') !! a)) ->
  forall e, followed d e -> followed d' e.
Proof. intros Hh Hn e He a ka Ha. specialize (He a ka Ha). destruct (get_ciphertext a s) as [[?|]|?| |]; auto. Qed.

(** A ciphertext that cannot be opened is noted, and nothing else happens. *)
Lemma decrypting_fail (d : Decrypting') c k rest reason :
  decrypting d -> to_decrypt d = (c, k) :: rest -> ec_content_ref c ∉ dc_seen d ->
  (reason = DeserializationFailed \/ exists k, reason = DecryptionFailed k) ->
  let p := progress d in
  let d' := fail_content (ec_content_ref c) reason
    (mkDecrypting rest (mkCausalState (complete p) (<[ec_content_ref c := k]> (cd_keys p)) (cd_next p)) (cannot d) ({[ec_content_ref c]} ∪ dc_seen d)) in
  decrypting d' /\ dc_seen d' = dc_seen d /\ to_decrypt d' = rest.
Proof.
  intros [Hseen Hnd Hst Hsk Hcm Hnx Hcn] Hx Hr Hreason p d'. assert (dc_seen d' = dc_seen d) as Heq by (cbn; set_solver). split; [|done].
  assert (forall r, handled d r -> handled d' r) as Hh.
  { intros r. apply (handled_pop d d' c k rest r Hx); [by rewrite Heq| |done|right; right; cbn; by rewrite lookup_insert_eq].
    intros x Hxx. cbn. apply lookup_insert_is_Some'. by right. }
  constructor; try done.
  - intros r. rewrite Heq. apply Hseen.
  - intros c' k' Hc'. by apply Hh, (Hst c' k').
  - intros c' k' Hc'. apply (Hsk c' k'). rewrite Hx. by right.
  - intros r pt Hin. destruct (Hcm r pt Hin) as (c' & k' & e & ? & ? & Hk & ? & ? & ?). exists c', k', e. split_and!; try done.
    + cbn. rewrite lookup_insert_ne; [done|]. intros Hcr. apply Hr. rewrite Hcr. apply Hseen, list_elem_of_fmap. by exists (r, pt).
    + by apply (completed_mono d).
  - intros r x. cbn. intros [[_ <-]|[_ ?]]%lookup_insert_Some; [done|by apply (Hcn r)].
Qed.

(** A ciphertext that is opened. *)
Lemma decrypting_open (d : Decrypting') c k rest e :
  decrypting d -> to_decrypt d = (c, k) :: rest -> ec_content_ref c ∉ dc_seen d -> opens c k e ->
  let p := progress d in
  let d1 := mkDecrypting rest (mkCausalState (complete p) (<[ec_content_ref c := k]> (cd_keys p)) (cd_next p)) (cannot d) ({[ec_content_ref c]} ∪ dc_seen d) in
  let d2 := foldl (decrypt_ancestor s (ec_content_ref c)) d1 (map_to_list (ancestors e)) in
  let d' := mkDecrypting (to_decrypt d2) (mkCausalState (complete (progress d2) ++ [(ec_content_ref c, env_plaintext e)])
              (cd_keys (progress d2)) (cd_next (progress d2))) (cannot d2) (dc_seen d2) in
  decrypting d' /\ dc_seen d' = {[ec_content_ref c]} ∪ dc_seen d.
Proof.
  intros [Hseen Hnd Hst Hsk Hcm Hnx Hcn] Hx Hr Hop p d1 d2 d'.
  destruct (decrypt_ancestors_spec (ec_content_ref c) (map_to_list (ancestors e)) d1) as ((pushed & Hp & Hpa) & Ec & Ek & Ecn & Es & Hn & Hn' & Hin).
  fold d2 in Hp, Ec, Ek, Ecn, Es, Hn, Hn', Hin. cbn [d1 to_decrypt progress complete cd_keys cd_next cannot dc_seen] in Hp, Ec, Ek, Ecn, Es, Hn, Hn'.
  assert (dc_seen d' = {[ec_content_ref c]} ∪ dc_seen d) as Heq by done. split; [|done].
  assert (forall r, handled d r -> handled d' r) as Hh.
  { intros r. apply (handled_pop d d' c k rest r Hx); [rewrite Heq; set_solver|cbn; by rewrite Ecn| |left; rewrite Heq; set_solver].
    intros x Hxx. cbn. rewrite Hp. apply elem_of_app. by right. }
  assert (forall a, is_Some (cd_next (progress d) !! a) -> is_Some (cd_next (progress d') !! a)) as Hnext by exact Hn.
  constructor.
  - intros r. rewrite Heq. cbn. rewrite Ec, fmap_app, elem_of_app, elem_of_union, elem_of_singleton, Hseen. cbn. rewrite list_elem_of_singleton. naive_solver.
  - cbn. rewrite Ec, fmap_app. apply NoDup_app. split_and!; [done| |apply NoDup_singleton]. intros r Hin' ->%list_elem_of_singleton. by apply Hr, Hseen.
  - intros c' k' Hc'. by apply Hh, (Hst c' k').
  - intros c' k'. cbn. rewrite Hp. intros [?|?]%elem_of_app; [by apply (Hpa c' k')|]. apply (Hsk c' k'). rewrite Hx. by right.
  - intros r pt. cbn. rewrite Ec, Ek. intros [Hin'|[= -> ->]%list_elem_of_singleton]%elem_of_app.
    + destruct (Hcm r pt Hin') as (c' & k' & e' & ? & ? & Hk & ? & ? & ?). exists c', k', e'. split_and!; try done.
      * rewrite lookup_insert_ne; [done|]. intros Hcr. apply Hr. rewrite Hcr. apply Hseen, list_elem_of_fmap. by exists (r, pt).
      * by apply (completed_mono d).
    + exists c, k, e. split_and!; try done; [apply (Hsk c k); rewrite Hx; left|by rewrite lookup_insert_eq|].
      intros a ka Ha%elem_of_map_to_list. specialize (Hin a ka Ha). destruct (get_ciphertext a s) as [[?|]|?| |]; try done.
      destruct Hin as (c' & Hc' & Href). right. left. by exists c', ka.
  - intros a ka Ha. cbn in Ha. destruct (Hn' a ka Ha) as [?|?]; [by apply (Hnx a ka)|done].
  - intros r reason. cbn. rewrite Ecn. apply Hcn.
Qed.

Lemma decrypt_one_ok (d : Decrypting') c k rest : decrypting d -> to_decrypt d = (c, k) :: rest ->
  let d' := decrypt_one s c k (mkDecrypting rest (progress d) (cannot d) (dc_seen d)) in
  decrypting d' /\ ((dc_seen d' = dc_seen d /\ to_decrypt d' = rest) \/
    (ec_content_ref c ∉ dc_seen d /\ dc_seen d' = {[ec_content_ref c]} ∪ dc_seen d)).
Proof.
  intros Hd Hx d'. unfold d', decrypt_one. cbn [to_decrypt progress cannot dc_seen complete cd_keys cd_next]. case_bool_decide as Hin.
  - split; [|by left]. destruct Hd as [Hseen Hnd Hst Hsk Hcm Hnx Hcn].
    set (d1 := mkDecrypting rest _ _ _).
    assert (forall r, handled d r -> handled d1 r) as Hh by (intros r; apply (handled_pop d d1 c k rest r Hx); try done; by left).
    constructor; try done.
    + intros c' k' Hc'. by apply Hh, (Hst c' k').
    + intros c' k' Hc'. apply (Hsk c' k'). rewrite Hx. by right.
    + intros r pt Hr. destruct (Hcm r pt Hr) as (c' & k' & e & ? & ? & ? & ? & ? & ?). exists c', k', e. split_and!; try done. by apply (completed_mono d).
  - destruct (content_try_decrypt c k) as [b|] eqn:Hb.
    + destruct (deserialize b) as [e|] eqn:He.
      * destruct (decrypting_open d c k rest e Hd Hx Hin) as [? ?]; [by exists b|]. split; [done|]. by right.
      * destruct (decrypting_fail d c k rest DeserializationFailed Hd Hx Hin) as (? & ? & ?); [by left|]. split; [done|by left].
    + destruct (decrypting_fail d c k rest (DecryptionFailed k) Hd Hx Hin) as (? & ? & ?); [right; by exists k|]. split; [done|by left].
Qed.

Lemma causal_loop_ok : forall d, decrypting d ->
  exists fuel d', causal_loop fuel s d = Some d' /\ decrypting d' /\ to_decrypt d' = [].
Proof.
  destruct (cs_finite s Hok) as [stored Hstored]. set (refs := (list_to_set ((fun x => ec_content_ref x.1) <$> content) : gset Cr) ∪ stored).
  assert (forall c, available c -> ec_content_ref c ∈ refs) as Hrefs.
  { intros c [[k Hc]|Hc]; apply elem_of_union; [left|right; by apply (Hstored _ c)]. apply elem_of_list_to_set, list_elem_of_fmap. by exists (c, k). }
  intros d. remember (size (refs ∖ dc_seen d)) as n eqn:Hn. revert d Hn. induction n as [n IH] using lt_wf_ind. intros d Hn Hd.
  remember (to_decrypt d) as l eqn:Hl. revert d Hn Hd Hl. induction l as [|[c k] l IHl]; intros d Hn Hd Hl.
  { exists 0%nat, d. cbn. rewrite <- Hl. auto. }
  symmetry in Hl. destruct (decrypt_one_ok d c k l Hd Hl) as [Hd' Hcase]. cbn zeta in *. set (d' := decrypt_one s c k _) in *.
  assert (exists fuel d2, causal_loop fuel s d' = Some d2 /\ decrypting d2 /\ to_decrypt d2 = []) as (fuel & d2 & Hloop & ?).
  { destruct Hcase as [[Hsn Htl]|[Hnew Hsn]]; [by apply IHl; rewrite ?Hsn|]. apply (IH (size (refs ∖ dc_seen d'))); [|done|done].
    rewrite Hn. apply subset_size. assert (ec_content_ref c ∈ refs) by (apply Hrefs, (dg_stack _ Hd c k); rewrite Hl; left). rewrite Hsn. set_solver. }
  exists (Datatypes.S fuel), d2. cbn [causal_loop]. by rewrite Hl.
Qed.

Lemma causal_loop_mono fuel fuel' (d d' : Decrypting') : causal_loop fuel s d = Some d' -> (fuel <= fuel')%nat -> causal_loop fuel' s d = Some d'.
Proof.
  revert fuel' d. induction fuel as [|fuel IH]; intros [|fuel'] d; cbn [causal_loop]; destruct (to_decrypt d) as [|[c k] rest]; try done; try lia.
  intros Hl Hle. apply IH; [done|lia].
Qed.
End Causal.

Section Marking.
Context {Cr A S Ge Me : Type} `{Countable Cr} {St : CiphertextStore Cr S Ge Me} {ok : S -> Prop} {Laws : CiphertextStoreLaws St ok}.

Lemma mark_all_ok ids (cn : gmap Cr (@ErrorReason Ge Me)) : forall s, ok s ->
  exists s', mark_all ids cn s = (cn, s') /\ ok s' /\ forall r, get_ciphertext r s' = if decide (r ∈ ids) then Ok None else get_ciphertext r s.
Proof.
  induction ids as [|id ids IH]; intros s Hs; cbn [mark_all].
  { exists s. split_and!; [done|done|]. intros r. by rewrite decide_False by apply not_elem_of_nil. }
  destruct (cs_mark id s Hs) as (s1 & -> & Hs1 & Hg1). destruct (IH s1 Hs1) as (s2 & -> & Hs2 & Hg2). exists s2. split_and!; [done|done|].
  intros r. rewrite Hg2, Hg1. destruct (decide (r ∈ ids)), (decide (r = id)), (decide (r ∈ id :: ids)); try done; set_solver.
Qed.
End Marking.

(** Everything that was passed in was opened, with all of its ancestors that the
    store has, each once and with the key recorded for it; the keys of the
    others are set aside. *)
Record opened_all `{P : Primitives} {Cr A S Ge Me : Type} `{Countable Cr} `{D : !Deserialize (Envelope Cr A)} {St : CiphertextStore Cr S Ge Me}
    (s : S) (content : list (EncryptedContent Cr * SymmetricKey)) (p : @CausalDecryptionState Cr A _ _) : Prop := {
  oa_start c k : (c, k) ∈ content -> ec_content_ref c ∈ (complete p).*1;
  oa_nodup : NoDup (complete p).*1;
  oa_complete r pt : (r, pt) ∈ complete p -> exists c k e,
    available s content c /\ ec_content_ref c = r /\ cd_keys p !! r = Some k /\ opens c k e /\ env_plaintext e = pt /\
    forall a ka, ancestors e !! a = Some ka ->
      match get_ciphertext a s with Ok (Some _) => a ∈ (complete p).*1 | _ => is_Some (cd_next p !! a) end;
  oa_next a k : cd_next p !! a = Some k -> get_ciphertext a s = Ok None;
}.

Lemma decrypting_done `{P : Primitives} {Cr A S Ge Me : Type} `{Countable Cr} `{D : !Deserialize (Envelope Cr A)} {St : CiphertextStore Cr S Ge Me}
    (s : S) content (d : @Decrypting Cr A Ge Me _ _) :
  decrypting s content d -> to_decrypt d = [] -> cannot d = ∅ -> opened_all s content (progress d).
Proof.
  intros [Hseen Hnd Hst Hsk Hcm Hnx Hcn] Hnil Hcan.
  assert (forall r, handled d r -> r ∈ (complete (progress d)).*1) as Hh.
  { intros r [?|[(c & k & Hin & _)|[x Hx]]]; [by apply Hseen|rewrite Hnil in Hin; by apply not_elem_of_nil in Hin|rewrite Hcan, lookup_empty in Hx; done]. }
  constructor; [|done| |done].
  - intros c k Hc. by apply Hh, (Hst c k).
  - intros r pt Hin. destruct (Hcm r pt Hin) as (c & k & e & ? & ? & ? & ? & ? & Hf). exists c, k, e. split_and!; try done.
    intros a ka Ha. specialize (Hf a ka Ha). destruct (get_ciphertext a s) as [[?|]|?| |]; auto.
Qed.

(** What causal decryption of [content] from the store [s] comes to. *)
Definition causal_outcome `{P : Primitives} {Cr A S Ge Me : Type} `{Countable Cr} `{D : !Deserialize (Envelope Cr A)} {St : CiphertextStore Cr S Ge Me}
    (ok : S -> Prop) (s : S) (content : list (EncryptedContent Cr * SymmetricKey))
    (out : res (gmap Cr (@ErrorReason Ge Me) * @CausalDecryptionState Cr A _ _) (@CausalDecryptionState Cr A _ _) * S) : Prop :=
  match out with
  | (Ok p, s') => opened_all s content p /\ ok s' /\
      forall r, get_ciphertext r s' = if decide (r ∈ (complete p).*1) then Ok None else get_ciphertext r s
  | (Err (cannot, p), s') => ok s' /\ cannot <> ∅ /\
      forall r reason, cannot !! r = Some reason -> reason = DeserializationFailed \/ exists k, reason = DecryptionFailed k
  | _ => False
  end.

Lemma causal_decrypt_spec `{P : Primitives} {Cr A S Ge Me : Type} `{Countable Cr} `{D : !Deserialize (Envelope Cr A)}
    {St : CiphertextStore Cr S Ge Me} {ok : S -> Prop} {Laws : CiphertextStoreLaws St ok}
    (s : S) (content : list (EncryptedContent Cr * SymmetricKey)) :
  ok s -> exists enough, forall fuel, (enough <= fuel)%nat -> causal_outcome ok s content (try_causal_decrypt (A := A) fuel content s).
Proof.
  intros Hok. destruct (causal_loop_ok (A := A) s Hok content _ (decrypting_init s Hok content)) as (enough & d & Hl & Hd & Hnil).
  exists enough. intros fuel Hf. unfold try_causal_decrypt. rewrite (causal_loop_mono s _ _ _ _ Hl Hf).
  destruct (mark_all_ok (complete (progress d)).*1 (cannot d) s Hok) as (s' & -> & Hs' & Hg).
  destruct (decide (cannot d = ∅)) as [Hc|Hc]; [split_and!; [by apply decrypting_done|done|done]|]. split_and!; [done|done|].
  apply (dg_cannot _ _ _ Hd).
Qed.

