(* ===== verification/Active.v ===== *)
(** * The active agent
    ([keyhive/keyhive_core/src/principal/active.rs])

    The agent that signs: the secrets of its prekeys, and the individual that
    others see.  The state of a call is the agent and the random generator. *)

From S2P Require Import Prelude TreeMath Crypto Keys Signed CaMap Individual Membership Group Ciphertext.

Local Open Scope monad_scope.

Section Active.
Context `{P : Primitives} `{E : Ed25519}.
Context `{Sadd : !Serialize AddKeyOp, Srot : !Serialize RotateKeyOp, Skop : !Serialize KeyOp}.

Record Active := mkActive {
  ac_signer : AsyncSigner;
  prekey_pairs : gmap ShareKey ShareSecretKey;
  active_id : Identifier;
  ac_individual : Individual;
  prekey_events : list KeyOp;
}.
Definition set_pairs (m : gmap ShareKey ShareSecretKey) (a : Active) : Active :=
  mkActive (ac_signer a) m (active_id a) (ac_individual a) (prekey_events a).
Definition set_individual (i : Individual) (a : Active) : Active :=
  mkActive (ac_signer a) (prekey_pairs a) (active_id a) i (prekey_events a).
Definition tell (op : KeyOp) (a : Active) : Active :=
  mkActive (ac_signer a) (prekey_pairs a) (active_id a) (ac_individual a) (prekey_events a ++ [op]).

Abbreviation ActiveM := (M (Active * Rng) SigningError).

(** [ShareSecretKey::generate] *)
Definition fresh_key : ActiveM ShareSecretKey := fun s =>
  let '(sk, csprng) := ShareSecretKey_generate s.2 in (Ok sk, (s.1, csprng)).
Definition change (f : Active -> Active) : ActiveM unit := modify (fun s => (f s.1, s.2)).

(** [.expect("the op we just signed to be valid")] *)
Definition expect_ok {Er A} (r : res Er A) : ActiveM A :=
  match r with Ok x => ret x | Diverge => diverge | _ => panic end.

(** *** Generating *)

Fixpoint more_pairs (n : nat) (pairs : gmap ShareKey ShareSecretKey) (csprng : Rng) : gmap ShareKey ShareSecretKey * Rng :=
  match n with
  | O => (pairs, csprng)
  | Datatypes.S n' => let '(sk, csprng) := ShareSecretKey_generate csprng in more_pairs n' (<[share_key sk := sk]> pairs) csprng
  end.
Fixpoint sign_adds (signer : AsyncSigner) (pks : list ShareKey) (ops : list KeyOp) : res SigningError (list KeyOp) :=
  match pks with
  | [] => Ok ops
  | pk :: pks' => let* op := try_sign_async signer (mkAddKeyOp pk) in sign_adds signer pks' (ops ++ [KeyAdd op])
  end.

Definition Active_generate (signer : AsyncSigner) (csprng : Rng) : res SigningError Active * Rng :=
  let '(init_sk, csprng) := ShareSecretKey_generate csprng in
  match try_sign_async signer (mkAddKeyOp (share_key init_sk)) with
  | Ok init_op =>
      let '(pairs, csprng) := more_pairs 6 {[share_key init_sk := init_sk]} csprng in
      (let* ops := sign_adds signer (map_to_list pairs).*1 [] in
       match extend ops (PrekeyState_new (KeyAdd init_op)) with
       | (Ok _, s) =>
           Ok (mkActive signer pairs (signer_verifying_key signer) (mkIndividual (signer_verifying_key signer) (build s) s) [])
       | (Diverge, _) => Diverge
       | _ => Panic
       end, csprng)
  | Err e => (Err e, csprng)
  | Panic => (Panic, csprng)
  | Diverge => (Diverge, csprng)
  end.

(** *** Prekeys *)

Definition rotate_prekey (old_prekey : ShareKey) : ActiveM (Signed RotateKeyOp) :=
  new_secret <- fresh_key ;;
  let new_public := share_key new_secret in
  s <- get ;;
  rot_op <- liftR (try_sign_async (ac_signer s.1) (mkRotateKeyOp old_prekey new_public)) ;;
  change (fun a => set_pairs (<[new_public := new_secret]> (prekey_pairs a)) a) ;;
  s <- get ;;
  let i := ac_individual s.1 in
  state <- expect_ok (insert_op (KeyRotate rot_op) (prekey_state i)) ;;
  change (set_individual (mkIndividual (individual_id i) ({[new_public]} ∪ (prekeys i ∖ {[old_prekey]})) state)) ;;
  change (tell (KeyRotate rot_op)) ;;
  ret rot_op.

Definition expand_prekeys : ActiveM (Signed AddKeyOp) :=
  new_secret <- fresh_key ;;
  let new_public := share_key new_secret in
  s <- get ;;
  op <- liftR (try_sign_async (ac_signer s.1) (mkAddKeyOp new_public)) ;;
  let i := ac_individual s.1 in
  state <- expect_ok (insert_op (KeyAdd op) (prekey_state i)) ;;
  change (set_individual (mkIndividual (individual_id i) ({[new_public]} ∪ prekeys i) state)) ;;
  change (fun a => set_pairs (<[new_public := new_secret]> (prekey_pairs a)) a) ;;
  change (tell (KeyAdd op)) ;;
  ret op.

(** The key of a contact: rotated in, and rotated away at once. *)
Definition generate_private_prekey (fuel : nat) : ActiveM (Signed RotateKeyOp) :=
  s <- get ;;
  key <- expect_ok (pick_prekey fuel (active_id s.1) (ac_individual s.1)) ;;
  contact_key <- rotate_prekey key ;;
  rotate_prekey (rotate_new (payload contact_key)) ;;
  ret contact_key.

Definition active_pick_prekey (fuel : nat) (doc_id : Identifier) (a : Active) : res unit ShareKey := pick_prekey fuel doc_id (ac_individual a).

(** [Active::get_capability] over the capability the subject reports. *)
Definition active_get_capability {T} (subject : Identifier -> option (SignedDelegation T)) (min : Access) (a : Active) : option (SignedDelegation T) :=
  match subject (active_id a) with
  | Some cap => if Access_leb min (can (payload cap)) then Some cap else None
  | None => None
  end.

(** *** Secrets and storage *)

Definition export_prekey_secrets `{!Serialize (gmap ShareKey ShareSecretKey)} (a : Active) : bytes := serialize (prekey_pairs a).
(** [BTreeMap::extend]: an imported secret replaces the one held. *)
Definition import_prekey_secrets `{!Deserialize (gmap ShareKey ShareSecretKey)} (b : bytes) (a : Active) : res unit Active :=
  match deserialize b with
  | Some imported => Ok (set_pairs (imported ∪ prekey_pairs a) a)
  | None => Err tt
  end.

Record ActiveArchive := mkActiveArchive {
  archived_pairs : gmap ShareKey ShareSecretKey;
  archived_individual : Individual;
}.
Definition active_into_archive (a : Active) : ActiveArchive := mkActiveArchive (prekey_pairs a) (ac_individual a).
Definition active_from_archive (archive : ActiveArchive) (signer : AsyncSigner) : Active :=
  mkActive signer (archived_pairs archive) (signer_verifying_key signer) (archived_individual archive) [].

(** [Fork] starts a log of its own; [MergeAsync] does not replay it. *)
Definition active_fork (a : Active) : Active :=
  mkActive (ac_signer a) (prekey_pairs a) (active_id a) (ac_individual a) [].
Definition active_merge (a fork : Active) : Active :=
  set_individual (Individual_merge (ac_individual a) (ac_individual fork)) (set_pairs (prekey_pairs fork ∪ prekey_pairs a) a).
End Active.
