(* ===== verification/ActiveProps.v ===== *)
(** * What the active agent keeps

    The prekeys that others see are those its operations give, and the agent
    holds the secret of each of them; the key of a contact is held and not
    published. *)

From S2P Require Import Prelude TreeMath Crypto Keys Signed CaMap Individual Membership Group Ciphertext Active.

Local Open Scope monad_scope.

Section ActiveProps.
Context `{P : Primitives} `{E : Ed25519}.
Context `{Sadd : !Serialize AddKeyOp, Srot : !Serialize RotateKeyOp, Skop : !Serialize KeyOp}.

(** A signer that answers with a signature of its key or with an error. *)
Definition honest_signer (signer : AsyncSigner) : Prop :=
  forall m, match try_sign_bytes_async signer m with
            | Ok s => ed_verify (signer_verifying_key signer) m s = true
            | Err _ => True
            | _ => False
            end.

Record active_wf (a : Active) : Prop := {
  aw_ops : ca_wf (prekey_ops (prekey_state (ac_individual a)));
  aw_prekeys : prekeys (ac_individual a) = build (prekey_state (ac_individual a));
  aw_owned k : k ∈ new_key <$> op_values (prekey_state (ac_individual a)) -> is_Some (prekey_pairs a !! k);
  aw_secret k sk : prekey_pairs a !! k = Some sk -> share_key sk = k;
}.

(** ** Lemmas *)

Lemma sign_cases {T} `{!Serialize T} signer (v : T) : honest_signer signer ->
  (exists s, try_sign_async signer v = Ok s /\ payload s = v /\ try_verify s = Ok tt) \/ (exists e, try_sign_async signer v = Err e).
Proof.
  intros Hs. unfold try_sign_async. specialize (Hs (serialize v)).
  destruct (try_sign_bytes_async signer (serialize v)) as [g|e| |]; cbn; [left|right; by exists e|done|done].
  eexists. split_and!; [done|done|]. unfold try_verify. cbn. by rewrite Hs.
Qed.

(** The operations after an insertion. *)
Lemma op_values_insert op s op' : collision_free KeyOp -> ca_wf (prekey_ops s) ->
  op' ∈ op_values (mkPrekeyState (CaMap_insert op (prekey_ops s)).2) <-> op' = op \/ op' ∈ op_values s.
Proof.
  intros Hcf Hwf. unfold op_values. cbn [prekey_ops CaMap_insert snd]. rewrite !list_elem_of_fmap. split.
  - intros ([d x] & -> & Hx%elem_of_map_to_list). cbn in *. apply lookup_insert_Some in Hx as [[_ ->]|[_ Hx]]; [by left|].
    right. exists (d, x). split; [done|]. by apply elem_of_map_to_list.
  - intros [->|([d x] & -> & Hx%elem_of_map_to_list)]; cbn in *.
    + exists (Digest_hash op, op). split; [done|]. apply elem_of_map_to_list, lookup_insert_eq.
    + destruct (decide (d = Digest_hash op)) as [->|Hne].
      * pose proof (Hwf _ _ Hx) as ->%Hcf. exists (Digest_hash x, x). split; [done|]. apply elem_of_map_to_list, lookup_insert_eq.
      * exists (d, x). split; [done|]. apply elem_of_map_to_list. by rewrite lookup_insert_ne by done.
Qed.

Definition retired (op : KeyOp) : gset ShareKey :=
  match op with KeyAdd _ => ∅ | KeyRotate r => {[rotate_old (payload r)]} end.

(** A key is fresh when no operation known rotates it away. *)
Definition fresh_for (a : Active) (k : ShareKey) : Prop := ~ rotated_away (op_values (prekey_state (ac_individual a))) k.

Lemma rotates_retired k op : rotates k op = true <-> k ∈ retired op.
Proof. destruct op; cbn; [set_solver|]. rewrite bool_decide_eq_true, elem_of_singleton. done. Qed.

Lemma build_insert op s : collision_free KeyOp -> ca_wf (prekey_ops s) ->
  new_key op ∉ retired op -> ~ rotated_away (op_values s) (new_key op) ->
  build (mkPrekeyState (CaMap_insert op (prekey_ops s)).2) = {[new_key op]} ∪ (build s ∖ retired op).
Proof.
  intros Hcf Hwf Hself Hfresh. apply set_eq. intros k. rewrite elem_of_union, elem_of_singleton, elem_of_difference, !build_spec.
  pose proof (fun op' => op_values_insert op s op' Hcf Hwf) as Hins.
  rewrite !list_elem_of_fmap. unfold rotated_away in *. setoid_rewrite Hins.
  setoid_rewrite rotates_retired in Hfresh. setoid_rewrite rotates_retired. split.
  - intros [(op' & -> & [->|Hop']) Hno]; [by left|right]. split; [split; [eauto 6|]|intros Hr; apply Hno; eauto].
    intros (op2 & H2 & Hr). apply Hno. eauto.
  - intros [->|[[(op' & -> & Hop') Hno] Hr]].
    + split; [eauto|]. intros (op' & [->|Hop'] & Hr); [done|]. apply Hfresh. eauto.
    + split; [eauto|]. intros (op2 & [->|H2] & Hr2); [done|]. apply Hno. eauto.
Qed.

(** An operation of the agent recorded with the secret of its key. *)
Definition absorbed (op : KeyOp) (sk : ShareSecretKey) (a a' : Active) : Prop :=
  let i := ac_individual a in
  ac_signer a' = ac_signer a /\ active_id a' = active_id a /\
  prekey_pairs a' = <[new_key op := sk]> (prekey_pairs a) /\
  ac_individual a' = mkIndividual (individual_id i) ({[new_key op]} ∪ (prekeys i ∖ retired op)) (mkPrekeyState (CaMap_insert op (prekey_ops (prekey_state i))).2) /\
  prekey_events a' = prekey_events a ++ [op].

Lemma absorbed_wf op sk a a' : collision_free KeyOp -> active_wf a -> absorbed op sk a a' ->
  new_key op = share_key sk -> new_key op ∉ retired op -> fresh_for a (new_key op) -> active_wf a'.
Proof.
  intros Hcf [H1 H2 H3 H4] (_ & _ & Hp & Hi & _) Hk Hself Hfresh. split; rewrite ?Hi, ?Hp; cbn [prekeys prekey_state].
  - by apply ca_wf_insert.
  - by rewrite H2, build_insert.
  - intros k (op' & -> & Hop')%list_elem_of_fmap. apply op_values_insert in Hop' as [->|Hop']; [rewrite lookup_insert_eq; eauto| |done|done].
    destruct (decide (new_key op = new_key op')) as [->|Hne]; [rewrite lookup_insert_eq; eauto|]. rewrite lookup_insert_ne by done.
    apply H3, list_elem_of_fmap. eauto.
  - intros k sk' [[<- <-]|[_ Hs]]%lookup_insert_Some; [done|]. by apply H4.
Qed.

Lemma rotate_prekey_run old a r : honest_signer (ac_signer a) ->
  let '(sk, r') := ShareSecretKey_generate r in
  (exists op a', rotate_prekey old (a, r) = (Ok op, (a', r')) /\ payload op = mkRotateKeyOp old (share_key sk) /\ absorbed (KeyRotate op) sk a a') \/
  (exists e, rotate_prekey old (a, r) = (Err e, (a, r'))).
Proof.
  intros Hs. destruct (ShareSecretKey_generate r) as [sk r'] eqn:Hg. unfold rotate_prekey, fresh_key, bindM. cbn. rewrite Hg. cbn.
  destruct (sign_cases (ac_signer a) (mkRotateKeyOp old (share_key sk)) Hs) as [(op & -> & Hp & Hv)|[e ->]]; cbn; [left|right; by exists e].
  unfold insert_op. cbn. rewrite Hv. cbn. do 2 eexists. split; [done|]. split; [done|]. unfold absorbed. cbn. by rewrite Hp.
Qed.

Lemma expand_prekeys_run a r : honest_signer (ac_signer a) ->
  let '(sk, r') := ShareSecretKey_generate r in
  (exists op a', expand_prekeys (a, r) = (Ok op, (a', r')) /\ payload op = mkAddKeyOp (share_key sk) /\ absorbed (KeyAdd op) sk a a') \/
  (exists e, expand_prekeys (a, r) = (Err e, (a, r'))).
Proof.
  intros Hs. destruct (ShareSecretKey_generate r) as [sk r'] eqn:Hg. unfold expand_prekeys, fresh_key, bindM. cbn. rewrite Hg. cbn.
  destruct (sign_cases (ac_signer a) (mkAddKeyOp (share_key sk)) Hs) as [(op & -> & Hp & Hv)|[e ->]]; cbn; [left|right; by exists e].
  unfold insert_op. cbn. rewrite Hv. cbn. do 2 eexists. split; [done|]. split; [done|]. unfold absorbed. cbn. rewrite Hp. cbn.
  by rewrite difference_empty_L.
Qed.

(** *** Generating *)

Definition pairs_ok (pairs : gmap ShareKey ShareSecretKey) : Prop := map_Forall (fun k sk => share_key sk = k) pairs.

Lemma more_pairs_ok n : forall pairs r, pairs_ok pairs ->
  pairs_ok (more_pairs n pairs r).1 /\ dom pairs ⊆ dom (more_pairs n pairs r).1.
Proof.
  induction n as [|n IH]; intros pairs r Hok; cbn; [done|]. destruct (ShareSecretKey_generate r) as [sk r'].
  destruct (IH (<[share_key sk := sk]> pairs) r') as [H1 H2]; [by apply map_Forall_insert_2|]. split; [done|]. set_solver.
Qed.

Definition added_of (keys : list ShareKey) (op : KeyOp) : Prop := key_try_verify op = Ok tt /\ new_key op ∈ keys.

Lemma sign_adds_cases signer pks : forall ops, honest_signer signer ->
  (exists new, sign_adds signer pks ops = Ok (ops ++ new) /\ Forall (added_of pks) new) \/ (exists e, sign_adds signer pks ops = Err e).
Proof.
  induction pks as [|pk pks IH]; intros ops Hs; cbn; [left; exists []; by rewrite app_nil_r|].
  destruct (sign_cases signer (mkAddKeyOp pk) Hs) as [(op & -> & Hp & Hv)|[e ->]]; cbn; [|right; by exists e].
  destruct (IH (ops ++ [KeyAdd op]) Hs) as [(new & -> & Hnew)|?]; [left|by right]. exists (KeyAdd op :: new).
  rewrite <-app_assoc. split; [done|]. apply Forall_cons. split.
  - split; [done|]. cbn. rewrite Hp. by left.
  - eapply Forall_impl; [done|]. intros x [? ?]. split; [done|]. by right.
Qed.

Lemma extend_ok ops : forall s, collision_free KeyOp -> ca_wf (prekey_ops s) -> Forall (fun op => key_try_verify op = Ok tt) ops ->
  exists s', extend ops s = (Ok tt, s') /\ ca_wf (prekey_ops s') /\ forall op, op ∈ op_values s' <-> op ∈ ops \/ op ∈ op_values s.
Proof.
  induction ops as [|op ops IH]; intros s Hcf Hwf Hops; cbn.
  - exists s. split_and!; [done|done|]. intros op. rewrite elem_of_nil. tauto.
  - apply Forall_cons in Hops as [Hop Hops]. unfold insert_op. rewrite Hop. cbn [bindR].
    destruct (IH (mkPrekeyState (CaMap_insert op (prekey_ops s)).2)) as (s' & -> & Hwf' & Hv); [done|by apply ca_wf_insert|done|].
    exists s'. split_and!; [done|done|]. intros op'. rewrite Hv, op_values_insert, elem_of_cons by done. tauto.
Qed.

Lemma generate_cases signer r : collision_free KeyOp -> honest_signer signer ->
  (exists a r', Active_generate signer r = (Ok a, r') /\ active_wf a /\ ac_signer a = signer /\ active_id a = signer_verifying_key signer) \/
  (exists e r', Active_generate signer r = (Err e, r')).
Proof.
  intros Hcf Hs. unfold Active_generate. destruct (ShareSecretKey_generate r) as [sk r1].
  destruct (sign_cases signer (mkAddKeyOp (share_key sk)) Hs) as [(op & -> & Hp & Hv)|[e ->]]; [|right; by exists e, r1].
  destruct (more_pairs_ok 6 {[share_key sk := sk]} r1) as [Hok Hdom]; [by apply map_Forall_singleton|].
  destruct (more_pairs 6 _ r1) as [pairs r2]. cbn [fst] in *.
  destruct (sign_adds_cases signer (map_to_list pairs).*1 [] Hs) as [(new & -> & Hnew)|[e ->]]; [|right; by exists e, r2].
  cbn [bindR app]. assert (ca_wf (prekey_ops (PrekeyState_new (KeyAdd op)))) as Hwf0 by (apply ca_wf_insert, map_Forall_empty).
  destruct (extend_ok new (PrekeyState_new (KeyAdd op)) Hcf Hwf0) as (s & -> & Hwf & Hops); [by eapply Forall_impl; [done|intros ? []]|].
  left. do 2 eexists. split; [done|]. split; [|done]. split; cbn; [done|done| |exact Hok].
  intros k (op' & -> & [Hop'|Hop']%Hops)%list_elem_of_fmap.
  - rewrite Forall_forall in Hnew. destruct (Hnew _ Hop') as [_ ([k sk'] & -> & Hk%elem_of_map_to_list)%list_elem_of_fmap]. cbn. eauto.
  - unfold PrekeyState_new in Hop'. apply (op_values_insert (KeyAdd op) (mkPrekeyState CaMap_new)) in Hop' as [->|Hop'].
    + cbn. rewrite Hp. cbn. apply elem_of_dom, Hdom. set_solver.
    + unfold op_values, CaMap_new in Hop'. cbn [prekey_ops] in Hop'. rewrite map_to_list_empty in Hop'. by apply not_elem_of_nil in Hop'.
    + done.
    + apply map_Forall_empty.
Qed.

(** *** Merging *)

Lemma op_values_merge s s' op : collision_free KeyOp -> ca_wf (prekey_ops s) -> ca_wf (prekey_ops s') ->
  op ∈ op_values (PrekeyState_merge s s') -> op ∈ op_values s \/ op ∈ op_values s'.
Proof.
  intros Hcf H1 H2. unfold op_values, PrekeyState_merge. cbn [prekey_ops]. rewrite CaMap_merge_union, !list_elem_of_fmap.
  intros ([d x] & -> & Hx%elem_of_map_to_list). apply lookup_union_Some_raw in Hx as [Hx|[_ Hx]]; [left|right];
    exists (d, x); split; try done; by apply elem_of_map_to_list.
Qed.

Lemma merge_wf a b : collision_free KeyOp -> active_wf a -> active_wf b -> active_wf (active_merge a b).
Proof.
  intros Hcf [A1 A2 A3 A4] [B1 B2 B3 B4]. split; cbn.
  - rewrite CaMap_merge_union. by apply ca_wf_union.
  - done.
  - intros k (op & -> & [Hop|Hop]%op_values_merge)%list_elem_of_fmap; try done; rewrite lookup_union_is_Some;
      [right; apply A3|left; apply B3]; apply list_elem_of_fmap; eauto.
  - intros k sk [Hs|[_ Hs]]%lookup_union_Some_raw; eauto.
Qed.

(** ** Reachable agents

    The agent generated, and what its operations, storage and forks make of it,
    as long as no key the generator draws has been rotated away before. *)
Definition drawn (r : Rng) : ShareKey := share_key (ShareSecretKey_generate r).1.

Inductive active_reachable : Active -> Prop :=
| reach_generate signer r a r' : honest_signer signer -> Active_generate signer r = (Ok a, r') -> active_reachable a
| reach_rotate a old r out a' r' : active_reachable a -> fresh_for a (drawn r) -> drawn r <> old ->
    rotate_prekey old (a, r) = (out, (a', r')) -> active_reachable a'
| reach_expand a r out a' r' : active_reachable a -> fresh_for a (drawn r) ->
    expand_prekeys (a, r) = (out, (a', r')) -> active_reachable a'
| reach_archive a : active_reachable a -> active_reachable (active_from_archive (active_into_archive a) (ac_signer a))
| reach_fork a : active_reachable a -> active_reachable (active_fork a)
| reach_merge a b : active_reachable a -> active_reachable b -> active_reachable (active_merge a b).

Lemma reachable_wf a : collision_free KeyOp -> active_reachable a -> active_wf a /\ honest_signer (ac_signer a).
Proof.
  intros Hcf Hr. induction Hr as [signer r a r' Hs Hg|a old r out a' r' _ [Hwf Hs] Hf Hne Hop|a r out a' r' _ [Hwf Hs] Hf Hop
    |a _ [[H1 H2 H3 H4] Hs]|a _ [[H1 H2 H3 H4] Hs]|a b _ [Ha Hs] _ [Hb _]].
  - destruct (generate_cases signer r Hcf Hs) as [(a0 & r0 & Heq & Hwf & Hsig & _)|(e & r0 & Heq)]; rewrite Heq in Hg; simplify_eq. done.
  - pose proof (rotate_prekey_run old a r Hs) as Hrun. unfold drawn in *. destruct (ShareSecretKey_generate r) as [sk r1]. cbn in Hf, Hne.
    destruct Hrun as [(op & a1 & Heq & Hp & Hab)|[e Heq]]; rewrite Heq in Hop; simplify_eq; [|done].
    split; [|by rewrite (proj1 Hab)]. eapply absorbed_wf; try done; cbn; rewrite Hp; cbn; [done|set_solver|done].
  - pose proof (expand_prekeys_run a r Hs) as Hrun. unfold drawn in *. destruct (ShareSecretKey_generate r) as [sk r1]. cbn in Hf.
    destruct Hrun as [(op & a1 & Heq & Hp & Hab)|[e Heq]]; rewrite Heq in Hop; simplify_eq; [|done].
    split; [|by rewrite (proj1 Hab)]. eapply absorbed_wf; try done; cbn; rewrite Hp; done.
  - by split; [split|].
  - by split; [split|].
  - split; [by apply merge_wf|done].
Qed.

(** ** Properties *)


(** The key of a contact: [generate_private_prekey] replaces the prekey it
    picks by the second key drawn; the first one, which it returns, is not
    among the prekeys any more and its secret is kept.  Both rotations are in
    the operations of the individual and reported to the listener. *)
Theorem private_prekey_correct fuel a key r contact a' r' :
  collision_free KeyOp -> active_reachable a ->
  let r1 := (ShareSecretKey_generate r).2 in
  pick_prekey fuel (active_id a) (ac_individual a) = Ok key ->
  drawn r1 <> drawn r ->
  generate_private_prekey fuel (a, r) = (Ok contact, (a', r')) ->
  payload contact = mkRotateKeyOp key (drawn r) /\
  prekeys (ac_individual a') = {[drawn r1]} ∪ (prekeys (ac_individual a) ∖ {[key; drawn r]}) /\
  drawn r ∉ prekeys (ac_individual a') /\
  prekey_pairs a' !! drawn r = Some (ShareSecretKey_generate r).1 /\
  KeyRotate contact ∈ op_values (prekey_state (ac_individual a')) /\
  exists second, payload second = mkRotateKeyOp (drawn r) (drawn r1) /\
    prekey_events a' = prekey_events a ++ [KeyRotate contact; KeyRotate second].
Proof.
  intros Hcf Hr r1 Hpick Hne. destruct (reachable_wf a Hcf Hr) as [[H1 _ _ _] Hs]. unfold generate_private_prekey, bindM. cbn. rewrite Hpick. cbn.
  pose proof (rotate_prekey_run key a r Hs) as Hrun. unfold drawn in *. destruct (ShareSecretKey_generate r) as [sk r2]. cbn in r1, Hne. subst r1.
  destruct Hrun as [(op & b & -> & Hp & Hab)|[e ->]]; [|done]. pose proof Hab as (Hsig & _ & Hpb & Hib & Heb).
  rewrite Hp. cbn [rotate_new fst snd]. pose proof (rotate_prekey_run (share_key sk) b r2) as Hrun2. rewrite Hsig in Hrun2. specialize (Hrun2 Hs).
  destruct (ShareSecretKey_generate r2) as [sk2 r3]. cbn in Hne |- *. destruct Hrun2 as [(op2 & c & -> & Hp2 & _ & _ & Hpc & Hic & Hec)|[e ->]]; [|done].
  intros [= -> -> ->]. rewrite Hpb in Hpc. rewrite Hib in Hic. rewrite Heb in Hec. cbn in Hpc, Hic, Hec. rewrite Hp, Hp2 in *. cbn in Hpc, Hic.
  rewrite Hic, Hpc. cbn. split_and!; [done|set_solver|set_solver| | |].
  - rewrite lookup_insert_ne by done. apply lookup_insert_eq.
  - pose proof (ca_wf_insert (KeyRotate contact) _ H1) as Hwf.
    apply (proj2 (op_values_insert (KeyRotate op2) (mkPrekeyState _) _ Hcf Hwf)). right.
    apply (proj2 (op_values_insert (KeyRotate contact) _ _ Hcf H1)). by left.
  - exists op2. split; [done|]. by rewrite Hec, <-app_assoc.
Qed.
End ActiveProps.
