(* ===== verification/Keeps.v ===== *)
(** * Invariants of computations

    [keeps I m]: whatever the outcome of [m], the state it leaves satisfies [I]
    when the state it started in did.  The lemmas follow the structure of a
    computation, and are hints of the database [keeps_db]. *)

From S2P Require Import Prelude.

Local Open Scope monad_scope.

Definition keeps {S E A} (I : S -> Prop) (m : M S E A) : Prop := forall s, I s -> I (m s).2.

Create HintDb keeps_db.

Section Keeps.
Context {S E : Type} (I : S -> Prop).

Lemma keeps_pure {A} (m : M S E A) : (forall s, (m s).2 = s) -> keeps I m.
Proof. intros Hm s Hs. by rewrite Hm. Qed.
Lemma keeps_modify (f : S -> S) : (forall s, I s -> I (f s)) -> keeps I (modify f : M S E unit).
Proof. intros Hf s Hs. by apply Hf. Qed.
Lemma keeps_bindM {A B} (m : M S E A) (k : A -> M S E B) : keeps I m -> (forall a, keeps I (k a)) -> keeps I (bindM m k).
Proof.
  intros Hm Hk s Hs. specialize (Hm s Hs). unfold bindM. destruct (m s) as [[a|e| |] s']; try done. by apply Hk.
Qed.
Lemma keeps_forM {A} (l : list A) (f : A -> M S E unit) : (forall x, keeps I (f x)) -> keeps I (forM l f).
Proof.
  intros Hf. induction l as [|x l IH]; cbn [forM]; [by apply keeps_pure|]. apply keeps_bindM; auto.
Qed.
Lemma keeps_whenM (b : bool) (m : M S E unit) : keeps I m -> keeps I (whenM b m).
Proof. destruct b; [done|]. intros _. by apply keeps_pure. Qed.
End Keeps.

Lemma keeps_map_err {S E E' A} (I : S -> Prop) (f : E -> E') (m : M S E A) : keeps I m -> keeps I (map_err f m).
Proof. intros Hm s Hs. specialize (Hm s Hs). unfold map_err. by destruct (m s). Qed.
Lemma keeps_zoom {S T E A} (I : S -> Prop) (J : T -> Prop) (proj : T -> S) put (m : M S E A) :
  (forall t, J t -> I (proj t)) -> (forall s t, J t -> I s -> J (put s t)) -> keeps I m -> keeps J (zoom proj put m).
Proof.
  intros Hp Hput Hm t Ht. specialize (Hm (proj t) (Hp t Ht)). unfold zoom. destruct (m (proj t)) as [r s]. by apply Hput.
Qed.

#[export] Hint Extern 1 (keeps _ (ret _)) => apply keeps_pure; reflexivity : keeps_db.
#[export] Hint Extern 1 (keeps _ (throw _)) => apply keeps_pure; reflexivity : keeps_db.
#[export] Hint Extern 1 (keeps _ panic) => apply keeps_pure; reflexivity : keeps_db.
#[export] Hint Extern 1 (keeps _ diverge) => apply keeps_pure; reflexivity : keeps_db.
#[export] Hint Extern 1 (keeps _ get) => apply keeps_pure; reflexivity : keeps_db.
#[export] Hint Extern 1 (keeps _ (gets _)) => apply keeps_pure; reflexivity : keeps_db.
#[export] Hint Extern 1 (keeps _ (readM _)) => apply keeps_pure; reflexivity : keeps_db.
#[export] Hint Extern 1 (keeps _ (liftR _)) => apply keeps_pure; reflexivity : keeps_db.
#[export] Hint Extern 1 (keeps _ (expect ?o)) => apply keeps_pure; destruct o; reflexivity : keeps_db.
#[export] Hint Extern 1 (keeps _ (loop_result ?o)) => apply keeps_pure; destruct o; reflexivity : keeps_db.
#[export] Hint Resolve keeps_bindM keeps_forM keeps_whenM keeps_map_err : keeps_db.
