(* ===== verification/Document.v ===== *)
(** * Documents
    ([keyhive/keyhive_core/src/principal/document.rs], and the conversions of
    [keyhive/keyhive_core/src/cgka.rs])

    A document is a group with a key agreement among the individuals that the
    group leads to.  The agents behind pointers are in [world]; [pick] is the
    prekey an individual picks for a document. *)

From S2P Require Import Prelude TreeMath Crypto Keys SecretStore Tree PathCrypto Signed CaMap OpGraph AppSecret Cgka.
From S2P Require Import Individual Membership MemberSort GroupState Group Reach Ciphertext.

Local Open Scope monad_scope.

(** [MemberId(id.verifying_key())], [TreeId(doc_id.verifying_key())] and back. *)
Definition member_of (id : Identifier) : MemberId := mkMemberId (VerifyingKey_bytes id).
Definition individual_of (id : MemberId) : Identifier := mkVerifyingKey (MemberId_bytes id).
Definition tree_of (id : Identifier) : TreeId := mkTreeId (VerifyingKey_bytes id).

Inductive AddMemberError :=
  | DocAddMemberError (e : AddGroupMemberError)
  | DocAddCgkaError (e : CgkaError).
Inductive EncryptError :=
  | EncryptionFailed
  | UnableToPcsUpdate (e : CgkaError)
  | FailedToMakeAppSecret (e : CgkaError).
(** [group/delegation.rs]; no call returns it. *)
Inductive DelegationError :=
  | Escalation
  | DelegationSigningError (e : SigningError).
Inductive GenerateDocError :=
  | GenerateDelegationError (e : DelegationError)
  | GenerateSigningError (e : SigningError)
  | GenerateCgkaError (e : CgkaError).
Inductive DecryptError :=
  | KeyNotFound
  | DocDecryptionFailed
  | SivMismatch
  | IoErrorOnSivBuild.
Inductive DocCausalDecryptionError (Cr A Ge Me : Type) `{Countable Cr} :=
  | DocCausalError (cannot : gmap Cr (@ErrorReason Ge Me)) (progress : @CausalDecryptionState Cr A _ _)
  | DocGetCiphertextError (e : Ge)
  | EntrypointDecryptError (e : DecryptError).
Arguments DocCausalError {Cr A Ge Me _ _}.
Arguments DocGetCiphertextError {Cr A Ge Me _ _}.
Arguments EntrypointDecryptError {Cr A Ge Me _ _}.

(** A call that has no error to return. *)
Definition no_error {Er A} (r : res Empty_set A) : res Er A := res_map_err (fun e : Empty_set => match e with end) r.
(** [ShareSecretKey::generate] beside another state. *)
Definition fresh_secret `{P : Primitives} {S Er} : M (S * Rng) Er ShareSecretKey := fun s =>
  let '(sk, r) := ShareSecretKey_generate s.2 in (Ok sk, (s.1, r)).
(** A call on a local value beside the generator. *)
Definition with_local {P : Primitives} {S L Er A} (l : L) (m : M (L * Rng) Er A) : M (S * Rng) Er (A * L) := fun s =>
  let '(r, (l', g)) := m (l, s.2) in (let* a := r in Ok (a, l'), (s.1, g)).

Section Documents.
Context `{P : Primitives} `{E : Ed25519} {T : Type} `{Countable T}.
Context `{Ssd : !Serialize (Signed (StaticDelegation T)), Ssr : !Serialize (Signed (StaticRevocation T))}.
Context `{Sd : !Serialize (Delegation T), Sr : !Serialize (Revocation T)}.
Context `{Sop : !Serialize CgkaOperation, Ssop : !Serialize (Signed CgkaOperation)}.
Context `{Ssk : !Serialize ShareSecretKey, Spcs : !Serialize PcsKey, St : !Serialize T, Slt : !Serialize (list T)}.

Abbreviation World := (gmap Identifier (gmap Identifier (list (SignedDelegation T)))).

Record Document := mkDocument {
  doc_group : @Group T;
  content_heads : gset T;
  content_state : gset T;
  known_decryption_keys : gmap T SymmetricKey;
  doc_cgka : option Cgka;
}.
Definition set_group (g : @Group T) (d : Document) : Document :=
  mkDocument g (content_heads d) (content_state d) (known_decryption_keys d) (doc_cgka d).
Definition set_cgka (c : option Cgka) (d : Document) : Document :=
  mkDocument (doc_group d) (content_heads d) (content_state d) (known_decryption_keys d) c.
Definition know_key (r : T) (k : SymmetricKey) (d : Document) : Document :=
  mkDocument (doc_group d) (content_heads d) (content_state d) (<[r := k]> (known_decryption_keys d)) (doc_cgka d).
Definition doc_id (d : Document) : Identifier := group_id (doc_group d).

(** [Document::cgka] *)
Definition doc_cgka_ref (d : Document) : res CgkaError Cgka := ok_orR (doc_cgka d) NotInitialized.
(** [self.cgka_mut()?] and a call on it. *)
Definition cgka_mut {A} (m : M Cgka CgkaError A) : M Document CgkaError A := fun d =>
  match doc_cgka d with
  | Some c => let '(r, c') := m c in (r, set_cgka (Some c') d)
  | None => (Err NotInitialized, d)
  end.
Definition cgka_mut_rng {A} (m : M (Cgka * Rng) CgkaError A) : M (Document * Rng) CgkaError A := fun s =>
  match doc_cgka s.1 with
  | Some c => let '(r, cr) := m (c, s.2) in (r, (set_cgka (Some cr.1) s.1, cr.2))
  | None => (Err NotInitialized, s)
  end.
Definition on_group {Er A} (m : M (@Group T) Er A) : M Document Er A := zoom doc_group set_group m.

(** ** Creating *)

Definition doc_rebuild {Er} : M Document Er unit := on_group rebuild.
Definition from_group (g : @Group T) (heads : list T) : res CgkaError Document :=
  let '(r, d) := doc_rebuild (mkDocument g (list_to_set heads) ∅ ∅ None) in
  let* _ := r in Ok d.

(** [sk] is the key of the ephemeral signer.  Returns the document and the
    operations that the listener is told. *)
Definition doc_generate (sk : SigningKey) (parents : list Agent) (heads : list T) (rs : RevocationStore T) (log : list (MembershipOperation T))
    (signer : AsyncSigner) (world : World) (pick : Identifier -> Identifier -> ShareKey) :
    M (CaMap (SignedDelegation T) * Rng) GenerateDocError (Document * list SignedOp) :=
  let generated := with_signer sk (fun verifier ephemeral =>
    generate_after_content ephemeral verifier parents {[verifier := heads]} rs log) in
  g <- zoom fst (fun ds s => (ds, s.2)) (map_err GenerateSigningError generated.1) ;;
  let owner := generated.2 in
  let id := group_id g in
  owner_sk <- fresh_secret ;;
  let owner_pk := share_key owner_sk in
  group_members <- liftR (no_error (group_pick_prekeys (pick id) world g)) ;;
  let other_members := filter (fun m => m.1 <> owner) (map_to_list group_members) in
  cgka <- liftR (res_map_err GenerateCgkaError (Cgka_new (tree_of id) (member_of owner) owner_pk signer)) ;;
  cgka <- liftR (res_map_err GenerateCgkaError (with_new_owner (member_of owner) {[owner_pk := owner_sk]} cgka)) ;;
  added <- liftR (res_map_err GenerateCgkaError
    (match other_members with
     | [] => Ok ([], cgka)
     | _ => run (add_multiple ((fun m => (member_of m.1, m.2)) <$> other_members) signer) cgka
     end)) ;;
  updated <- with_local added.2 (map_err GenerateCgkaError (update owner_pk owner_sk signer)) ;;
  ret (mkDocument g (list_to_set heads) ∅ ∅ (Some updated.2), init_add_op cgka :: added.1 ++ [updated.1.2]).

(** ** Members *)

Fixpoint add_prekeys (prekeys : list (Identifier * ShareKey)) (signer : AsyncSigner) (acc : list SignedOp) : M Document CgkaError (list SignedOp) :=
  match prekeys with
  | [] => ret acc
  | (id, prekey) :: prekeys' =>
      op <- cgka_mut (add (member_of id) prekey signer) ;;
      add_prekeys prekeys' signer (acc ++ option_list op)
  end.
Definition add_cgka_members_from_prekeys (prekeys : gmap Identifier ShareKey) (signer : AsyncSigner) : M Document CgkaError (list SignedOp) :=
  add_prekeys (map_to_list prekeys) signer [].

Definition doc_add_member (member_to_add : Agent) (access : Access) (signer : AsyncSigner) (other_relevant_docs : list (Identifier * list T))
    (world : World) (pick : Identifier -> Identifier -> ShareKey) : M Document AddMemberError (@AddMemberUpdate T) :=
  d <- get ;;
  let after_content := <[doc_id d := elements (content_state d)]> (content_of other_relevant_docs) in
  up <- map_err DocAddMemberError (on_group (add_member_with_manual_content member_to_add access signer after_content)) ;;
  if is_reader access then
    prekeys <- loop_result (agent_pick_prekeys (pick (doc_id d)) world (delegate (payload (am_delegation up)))) ;;
    ops <- map_err DocAddCgkaError (add_cgka_members_from_prekeys prekeys signer) ;;
    ret (mkAddMemberUpdate (am_cgka_ops up ++ ops) (am_delegation up))
  else ret up.

(** The individuals that delegations lead to. *)
Definition ids_of_delegations (world : World) (ds : list (SignedDelegation T)) : option (gset Identifier) :=
  foldl (fun acc d => ids ← acc; more ← individual_ids world (delegate (payload d)); Some (ids ∪ more)) (Some ∅) ds.

Fixpoint remove_ids (ids : list Identifier) (signer : AsyncSigner) (ops : list SignedOp) : M Document CgkaError (list SignedOp) :=
  match ids with
  | [] => ret ops
  | id :: ids' =>
      op <- cgka_mut (remove (member_of id) signer) ;;
      remove_ids ids' signer (ops ++ option_list op)
  end.

Definition doc_revoke_member (member_id : Identifier) (retain_all_other_members : bool) (signer : AsyncSigner) (content : ContentHeads T)
    (world : World) : M Document RevokeMemberError (@RevokeMemberUpdate T) :=
  d <- get ;;
  ids_to_remove <- loop_result (ids_of_delegations world (default [] (members (doc_group d) !! member_id))) ;;
  up <- on_group (revoke_member member_id retain_all_other_members signer content) ;;
  d <- get ;;
  still_reachable <- loop_result (group_individual_ids world (doc_group d)) ;;
  ops <- map_err RevokeCgkaError (remove_ids (elements (ids_to_remove ∖ still_reachable)) signer (rm_cgka_ops up)) ;;
  ret (mkRevokeMemberUpdate ops (rm_revocations up) (rm_redelegations up)).

Definition remove_cgka_member (id : Identifier) (signer : AsyncSigner) : M Document CgkaError (option SignedOp) :=
  cgka_mut (remove (member_of id) signer).
Definition doc_receive_delegation (d : SignedDelegation T) : M Document AddError (Digest (SignedDelegation T)) := on_group (receive_delegation d).
Definition doc_receive_revocation (r : SignedRevocation T) : M Document AddError (Digest (SignedRevocation T)) := on_group (receive_revocation r).

(** ** Operations of the key agreement *)

Definition merge_cgka_op (op : SignedOp) : M Document CgkaError bool := fun d =>
  match doc_cgka d with
  | Some _ => cgka_mut (merge_concurrent_operation op) d
  | None =>
      match payload op with
      | Add added_id pk _ predecessors _ _ =>
          match predecessors with
          | [] =>
              match new_from_init_add (tree_of (doc_id d)) added_id pk op with
              | Ok c => (Ok true, set_cgka (Some c) d)
              | Err e => (Err e, d)
              | Panic => (Panic, d)
              | Diverge => (Diverge, d)
              end
          | _ => (Err OutOfOrderOperation, d)
          end
      | _ => (Err UnexpectedInitialOperation, d)
      end
  end.

Definition merge_cgka_invite_op (op : SignedOp) (sk : ShareSecretKey) : M Document CgkaError bool :=
  match payload op with
  | Add added_id pk _ predecessors _ _ =>
      c <- readM doc_cgka_ref ;;
      if negb (cgka_contains_predecessors (list_to_set predecessors) c) then throw OutOfOrderOperation
      else
        c <- liftR (with_new_owner added_id (<[pk := sk]> (owner_sks c)) c) ;;
        modify (set_cgka (Some c)) ;;
        merge_cgka_op op
  | _ => throw UnexpectedInviteOperation
  end.

Definition doc_cgka_ops (d : Document) : res CgkaError (list CgkaEpoch) := let* c := doc_cgka_ref d in cgka_ops_sorted c.

Definition pcs_update (signer : AsyncSigner) : M (Document * Rng) EncryptError SignedOp :=
  new_share_secret_key <- fresh_secret ;;
  updated <- map_err UnableToPcsUpdate (cgka_mut_rng (update (share_key new_share_secret_key) new_share_secret_key signer)) ;;
  ret updated.2.

(** ** Content *)

Definition doc_try_encrypt_content (content_ref : T) (content : bytes) (pred_refs : list T) (signer : AsyncSigner) :
    M (Document * Rng) EncryptError (EncryptedContent T * option SignedOp) :=
  secret <- map_err FailedToMakeAppSecret (cgka_mut_rng (new_app_secret_for content_ref content pred_refs signer)) ;;
  modify (fun s => (know_key content_ref (as_key secret.1) s.1, s.2)) ;;
  encrypted <- liftR (ok_orR (secret_try_encrypt secret.1 content) EncryptionFailed) ;;
  ret (encrypted, secret.2).

Definition doc_try_decrypt_content (encrypted : EncryptedContent T) : M Document DecryptError bytes :=
  decrypt_key <- map_err (fun _ => KeyNotFound) (cgka_mut (decryption_key_for encrypted)) ;;
  liftR (ok_orR (content_try_decrypt encrypted decrypt_key) DocDecryptionFailed).

Section Causal.
Context {A S Ge Me : Type} `{D : !Deserialize (Envelope T bytes), D' : !Deserialize (Envelope T A), Cs : !CiphertextStore T S Ge Me}.
Abbreviation CausalM := (M (Document * S) (DocCausalDecryptionError T A Ge Me)).

(** One ancestor of the entry point; [acc.next] is local to the call. *)
Definition entry_ancestor (acc : list (EncryptedContent T * SymmetricKey) * gmap T SymmetricKey) (ancestor : T * SymmetricKey) :
    CausalM (list (EncryptedContent T * SymmetricKey) * gmap T SymmetricKey) :=
  found <- readM (fun s => res_map_err DocGetCiphertextError (get_ciphertext ancestor.1 s.2)) ;;
  match found with
  | Some encrypted => ret (acc.1 ++ [(encrypted, ancestor.2)], acc.2)
  | None => ret (acc.1, <[ancestor.1 := ancestor.2]> acc.2)
  end.

Definition try_causal_decrypt_content (fuel : nat) (encrypted : EncryptedContent T) : CausalM (@CausalDecryptionState T A _ _) :=
  raw_entrypoint <- zoom fst (fun d s => (d, s.2)) (map_err EntrypointDecryptError (doc_try_decrypt_content encrypted)) ;;
  envelope <- liftR (ok_orR (deserialize raw_entrypoint : option (Envelope T bytes))
    (DocCausalError {[ec_content_ref encrypted := DeserializationFailed]} (mkCausalState [] ∅ ∅))) ;;
  acc <- foldM entry_ancestor (map_to_list (ancestors envelope)) ([], ∅) ;;
  zoom snd (fun st s => (s.1, st)) (map_err (fun x => DocCausalError x.1 x.2) (try_causal_decrypt (A := A) fuel acc.1)).
End Causal.
End Documents.
Arguments Document T {_ _} : rename.
