(* ===== verification/DocMembers.v ===== *)
(** * The members of a document and of its key agreement
    ([keyhive/keyhive_core/src/principal/document.rs])

    Adding and revoking members of a document changes its group and its key
    agreement together: whoever the new member stands for gets a leaf, and
    whoever is not reachable any more loses it. *)

From S2P Require Import Prelude TreeMath Crypto Keys SecretStore Tree TreeInv TreeOps PathCrypto Signed CaMap OpGraph AppSecret Cgka CgkaConverge.
From S2P Require Import Individual Membership MemberSort GroupState Group GroupProps GroupChange Reach ReachProps Ciphertext Document.

Local Open Scope monad_scope.

Section KeyAgreement.
Context `{P : Primitives}.
Context `{Sop : !Serialize CgkaOperation, Ssop : !Serialize (Signed CgkaOperation)}.
Context `{Ssk : !Serialize ShareSecretKey, Spcs : !Serialize PcsKey}.

(** The signer answers, with a signature or an error. *)
Definition signer_returns (signer : AsyncSigner) : Prop :=
  forall m, (exists s, try_sign_bytes_async signer m = Ok s) \/ (exists e, try_sign_bytes_async signer m = Err e).
Definition signer_refuses (signer : AsyncSigner) : Prop := exists m e, try_sign_bytes_async signer m = Err e.

(** Nothing waits to be replayed, and the tree is in shape. *)
Record ready (c : Cgka) : Prop := {
  rd_settled : should_replay c = false;
  rd_heads : cgka_op_heads (ops_graph c) <> ∅;
  rd_tree : exists h, wf_core h (tree c);
}.
Definition leaves_used (c : Cgka) : N := leaf_u32 (next_leaf_idx (tree c)).
Definition tree_ids (c : Cgka) : gset MemberId := dom (id_to_leaf_idx (tree c)).

Lemma contains_tree_ids id c : contains_id id (tree c) = true <-> id ∈ tree_ids c.
Proof. unfold contains_id, tree_ids. by rewrite bool_decide_eq_true, elem_of_dom. Qed.

Lemma add_local_op_heads op g : exists g', add_local_op op g = Ok g' /\ cgka_op_heads g' = {[Digest_hash op]}.
Proof.
  unfold add_local_op, add_op_and_update_heads, is_add_op, CaMap_get. cbn [CaMap_insert snd]. rewrite lookup_insert_eq. cbn.
  eexists. split; [done|]. cbn. by rewrite union_empty_r_L.
Qed.

Lemma ready_pending c : ready c -> pending_ops_for_structural_change c = false.
Proof.
  intros [Hs Hh _]. unfold should_replay in Hs. rewrite bool_decide_eq_false_2 in Hs by done. cbn in Hs.
  by apply orb_false_iff in Hs as [? _].
Qed.

Lemma ready_replay c : ready c -> maybe_replay c = (Ok tt, c).
Proof. intros [Hs _ _]. unfold maybe_replay, bindM, gets. rewrite Hs. done. Qed.

(** Signing and recording an operation on a tree that has been changed. *)
Lemma record_local c t h (op : CgkaOperation) signer : ready c -> wf_core h t -> signer_returns signer ->
  (exists o c', bindM (sign_op signer op) (fun o => bindM (graph_do (add_local_op o)) (fun _ => ret (Some o))) (set_tree t c) = (Ok (Some o), c') /\
     ready c' /\ tree c' = t) \/
  (exists c', bindM (sign_op signer op) (fun o => bindM (graph_do (add_local_op o)) (fun _ => ret (Some o))) (set_tree t c) = (Err Keys.SigningError, c') /\ signer_refuses signer).
Proof.
  intros Hr Hw Hs. unfold sign_op, bindM, liftR, try_sign_async. destruct (Hs (serialize op)) as [[s Heq]|[e Heq]]; rewrite Heq; cbn;
    [left|right; eexists; split; [done|by exists (serialize op), e]].
  set (o := mkSigned op _ s). destruct (add_local_op_heads o (ops_graph c)) as (g & Hg & Hheads).
  unfold graph_do, bindM, gets, liftR, modify. cbn. rewrite Hg. exists o, (set_ops_graph g (set_tree t c)). split; [done|]. split; [|done].
  constructor; cbn; [|rewrite Hheads; set_solver|by exists h].
  unfold should_replay. cbn. rewrite (ready_pending c Hr). unfold has_single_head. rewrite Hheads, size_singleton. cbn. by rewrite andb_false_r.
Qed.

Lemma add_eq id pk signer c n t : contains_id id (tree c) = false -> maybe_replay c = (Ok tt, c) ->
  push_leaf id (NKShareKey pk) (tree c) = (Ok n, t) ->
  exists op, add id pk signer c = bindM (sign_op signer op) (fun o => bindM (graph_do (add_local_op o)) (fun _ => ret (Some o))) (set_tree t c).
Proof.
  intros Hin Hm Hp. eexists. unfold add, bindM at 1, gets. rewrite Hin. unfold bindM at 1. rewrite Hm.
  unfold bindM at 1, tree_do, zoom. rewrite Hp. reflexivity.
Qed.

Lemma remove_eq id signer c x t : contains_id id (tree c) = true -> maybe_replay c = (Ok tt, c) -> group_size c <> 1%N ->
  remove_id id (tree c) = (Ok x, t) ->
  exists op, remove id signer c = bindM (sign_op signer op) (fun o => bindM (graph_do (add_local_op o)) (fun _ => ret (Some o))) (set_tree t c).
Proof.
  intros Hin Hm Hne Hp. eexists. unfold remove, bindM at 1, gets. rewrite Hin. cbn [negb]. unfold bindM at 1. rewrite Hm.
  unfold bindM at 1. rewrite (proj2 (N.eqb_neq _ _) Hne). unfold bindM at 1, tree_do, zoom. rewrite Hp. reflexivity.
Qed.

Lemma add_ready id pk signer c : ready c -> signer_returns signer -> (leaves_used c < 2 ^ 30)%N ->
  (exists o c', add id pk signer c = (Ok o, c') /\ ready c' /\ tree_ids c' = {[id]} ∪ tree_ids c /\ (leaves_used c' <= leaves_used c + 1)%N) \/
  (exists c', add id pk signer c = (Err Keys.SigningError, c')).
Proof.
  intros Hr Hs Hroom. destruct (contains_id id (tree c)) eqn:Hin.
  { left. exists None, c. split; [unfold add, bindM, gets; by rewrite Hin|]. apply contains_tree_ids in Hin. split_and!; [done|set_solver|lia]. }
  destruct (rd_tree c Hr) as [h Hw].
  destruct (add_eq id pk signer c _ _ Hin (ready_replay c Hr) (push_leaf_eq h (tree c) id (NKShareKey pk) Hw Hroom)) as [op ->].
  assert (id_to_leaf_idx (tree c) !! id = None) as Hfresh.
  { apply eq_None_not_Some. unfold contains_id in Hin. by apply bool_decide_eq_false in Hin. }
  pose proof (wf_is_core _ _ (wf_pushed h (tree c) id (NKShareKey pk) Hw Hroom Hfresh)) as Hw'.
  destruct (record_local c _ _ op signer Hr Hw' Hs) as [(o & c' & -> & Hr' & Ht)|(c' & -> & _)]; [left|right; by exists c'].
  exists (Some o), c'. split; [done|]. split; [done|]. unfold tree_ids, leaves_used. rewrite Ht, pushed_ids. split; [set_solver|].
  unfold pushed. destruct (roomy h (tree c)). cbn. lia.
Qed.

Lemma remove_ready id signer c : ready c -> signer_returns signer ->
  (exists o c', remove id signer c = (Ok o, c') /\ ready c' /\ tree_ids c' = tree_ids c ∖ {[id]}) \/
  (remove id signer c = (Err RemoveLastMember, c) /\ tree_ids c = {[id]}) \/
  (exists c', remove id signer c = (Err Keys.SigningError, c') /\ signer_refuses signer).
Proof.
  intros Hr Hs. destruct (contains_id id (tree c)) eqn:Hin; cycle 1.
  { left. exists None, c. split; [unfold remove, bindM, gets; by rewrite Hin|]. split; [done|].
    assert (id ∉ tree_ids c) by (rewrite <- contains_tree_ids; congruence). set_solver. }
  destruct (rd_tree c Hr) as [h Hw]. pose proof Hin as [[a] Hid]%bool_decide_eq_true.
  destruct (N.eq_dec (group_size c) 1%N) as [H1|Hne].
  { right. left. split.
    - unfold remove, bindM, gets. rewrite Hin. cbn [negb]. rewrite (ready_replay c Hr). by rewrite (proj2 (N.eqb_eq _ _) H1).
    - unfold group_size in H1. rewrite (member_count_size h) in H1 by done. unfold tree_ids.
      assert (size (dom (id_to_leaf_idx (tree c))) = 1%nat) as Hsz by (rewrite size_dom; lia). apply size_1_elem_of in Hsz as [x Hx%leibniz_equiv].
      assert (id ∈ dom (id_to_leaf_idx (tree c))) as Hd by (apply elem_of_dom; eauto). rewrite Hx in *. set_solver. }
  destruct (remove_id_ok h (tree c) id a Hw Hid Hne) as (keys & t' & Hrem & _ & Hw' & _ & Htr).
  destruct (remove_eq id signer c _ _ Hin (ready_replay c Hr) Hne Hrem) as [op ->].
  destruct (record_local c t' h op signer Hr Hw' Hs) as [(o & c' & -> & Hr' & Ht)|(c' & -> & Href)]; [left|right; right; by exists c'].
  exists (Some o), c'. split; [done|]. split; [done|]. unfold tree_ids. rewrite Ht, (tr_ids _ _ _ Htr). cbn. apply dom_delete_L.
Qed.
End KeyAgreement.

Section Members.
Context `{P : Primitives} `{E : Ed25519} {T : Type} `{Countable T}.
Context `{Ssd : !Serialize (Signed (StaticDelegation T)), Ssr : !Serialize (Signed (StaticRevocation T))}.
Context `{Sd : !Serialize (Delegation T), Sr : !Serialize (Revocation T)}.
Context `{Sop : !Serialize CgkaOperation, Ssop : !Serialize (Signed CgkaOperation)}.
Context `{Ssk : !Serialize ShareSecretKey, Spcs : !Serialize PcsKey}.

Lemma cgka_mut_some {A} (m : M Cgka CgkaError A) (d : Document T) c : doc_cgka d = Some c ->
  cgka_mut m d = ((m c).1, set_cgka (Some (m c).2) d).
Proof. intros Hc. unfold cgka_mut. rewrite Hc. by destruct (m c). Qed.

Lemma set_cgka_twice c c' (d : Document T) : set_cgka c (set_cgka c' d) = set_cgka c d.
Proof. done. Qed.
Lemma set_cgka_self c (d : Document T) : doc_cgka d = Some c -> set_cgka (Some c) d = d.
Proof. destruct d. cbn. by intros ->. Qed.

Lemma add_prekeys_ready signer prekeys : signer_returns signer -> forall (d : Document T) c acc, doc_cgka d = Some c -> ready c ->
  (leaves_used c + N.of_nat (length prekeys) <= 2 ^ 30)%N ->
  (exists ops c', add_prekeys prekeys signer acc d = (Ok ops, set_cgka (Some c') d) /\ ready c' /\
     tree_ids c' = list_to_set (member_of <$> prekeys.*1) ∪ tree_ids c) \/
  (exists d', add_prekeys prekeys signer acc d = (Err Keys.SigningError, d')).
Proof.
  intros Hs. induction prekeys as [|[id pk] prekeys IH]; intros d c acc Hc Hr Hroom; cbn [add_prekeys].
  { left. exists acc, c. rewrite set_cgka_self by done. split_and!; [done|done|set_solver]. }
  cbn [length] in Hroom. unfold bindM. rewrite (cgka_mut_some _ _ c Hc).
  destruct (add_ready (member_of id) pk signer c Hr Hs) as [(o & c1 & -> & Hr1 & Hids & Hl)|(c1 & ->)]; [lia|cbn|right; cbn; eauto].
  destruct (IH (set_cgka (Some c1) d) c1 (acc ++ option_list o) eq_refl Hr1) as [(ops & c' & -> & Hr' & Hids')|[d' ->]]; [lia| |right; eauto].
  left. exists ops, c'. split; [done|]. split; [done|]. rewrite Hids', Hids. cbn. set_solver.
Qed.

Lemma remove_ids_ready signer ids : signer_returns signer -> forall (d : Document T) c acc, doc_cgka d = Some c -> ready c ->
  (exists ops c', remove_ids ids signer acc d = (Ok ops, set_cgka (Some c') d) /\ ready c' /\
     tree_ids c' = tree_ids c ∖ list_to_set (member_of <$> ids)) \/
  (exists d', remove_ids ids signer acc d = (Err RemoveLastMember, d') /\ tree_ids c ⊆ list_to_set (member_of <$> ids)) \/
  (exists d', remove_ids ids signer acc d = (Err Keys.SigningError, d')).
Proof.
  intros Hs. induction ids as [|id ids IH]; intros d c acc Hc Hr; cbn [remove_ids].
  { left. exists acc, c. rewrite set_cgka_self by done. split_and!; [done|done|set_solver]. }
  unfold bindM. rewrite (cgka_mut_some _ _ c Hc).
  destruct (remove_ready (member_of id) signer c Hr Hs) as [(o & c1 & -> & Hr1 & Hids)|[[-> Hids]|(c1 & -> & _)]]; cbn.
  - destruct (IH (set_cgka (Some c1) d) c1 (acc ++ option_list o) eq_refl Hr1) as [(ops & c' & -> & Hr' & Hids')|[(d' & -> & Hids')|[d' ->]]].
    + left. exists ops, c'. split; [done|]. split; [done|]. rewrite Hids', Hids. set_solver.
    + right. left. exists d'. split; [done|]. rewrite Hids in Hids'. intros x Hx. destruct (decide (x = member_of id)); set_solver.
    + right. right. eauto.
  - right. left. eexists. split; [done|]. rewrite Hids. set_solver.
  - right. right. eauto.
Qed.

Lemma member_of_inj i j : member_of i = member_of j -> i = j.
Proof. destruct i, j. unfold member_of. cbn. congruence. Qed.

(** The individuals that one of the agents leads to. *)
Definition reached_from (world : gmap Identifier (gmap Identifier (list (SignedDelegation T)))) (agents : list Agent) (i : Identifier) : Prop :=
  exists a, a ∈ agents /\ leads_individual world a i.
Definition delegates (ds : list (SignedDelegation T)) : list Agent := (fun d => delegate (payload d)) <$> ds.
(** The delegates the group walks from: of the first delegation of each member. *)
Definition first_delegates (g : @Group T) : list Agent := delegates (omap head (map_to_list (members g)).*2).

Lemma reached_from_nil world i : ~ reached_from world [] i.
Proof. intros (a & ?%not_elem_of_nil & _). done. Qed.
Lemma reached_from_snoc world l a i : reached_from world (l ++ [a]) i <-> reached_from world l i \/ leads_individual world a i.
Proof.
  unfold reached_from. setoid_rewrite elem_of_app. setoid_rewrite list_elem_of_singleton. split.
  - intros (b & [?| ->] & ?); eauto.
  - intros [(b & ? & ?)|?]; eauto.
Qed.

Lemma ids_of_delegations_ok world ds : Forall (unique_ids world) (delegates ds) ->
  exists ids, ids_of_delegations world ds = Some ids /\ forall i, i ∈ ids <-> reached_from world (delegates ds) i.
Proof.
  unfold ids_of_delegations, delegates. induction ds as [|d ds IH] using rev_ind; intros Hu.
  - exists ∅. split; [done|]. intros i. split; [set_solver|]. by intros ?%reached_from_nil.
  - rewrite fmap_app in *. apply Forall_app in Hu as [Hu Hd]. assert (unique_ids world (delegate (payload d))) as Hd' by exact (Forall_inv Hd).
    destruct (IH Hu) as (ids & Hids & Hi).
    rewrite foldl_app, Hids. cbn [foldl mbind option_bind]. destruct (individual_ids_spec world _ Hd') as (more & -> & Hm). cbn [mbind option_bind]. eexists. split; [done|].
    intros i. rewrite elem_of_union, Hi, Hm. symmetry. apply reached_from_snoc.
Qed.

Lemma group_individual_ids_ok world (g : @Group T) :
  map_Forall (fun _ ds => ds <> []) (members g) -> Forall (unique_ids world) (first_delegates g) ->
  exists ids, group_individual_ids world g = Some ids /\ forall i, i ∈ ids <-> reached_from world (first_delegates g) i.
Proof.
  intros Hne. unfold group_individual_ids, first_delegates, delegates.
  assert (Forall (fun ds => ds <> []) (map_to_list (members g)).*2) as Hl.
  { apply Forall_forall. intros ds ([k ds'] & -> & Hk%elem_of_map_to_list)%list_elem_of_fmap. exact (Hne k ds' Hk). }
  clear Hne. induction (map_to_list (members g)).*2 as [|ds l IH] using rev_ind; intros Hu.
  - exists ∅. split; [done|]. intros i. split; [set_solver|]. by intros ?%reached_from_nil.
  - apply Forall_app in Hl as [Hl Hds%Forall_inv]. destruct ds as [|d ds]; [done|].
    rewrite omap_app, fmap_app in *. apply Forall_app in Hu as [Hu Hd]. assert (unique_ids world (delegate (payload d))) as Hd' by exact (Forall_inv Hd).
    destruct (IH Hl Hu) as (ids & Hids & Hi).
    rewrite foldl_app, Hids. cbn [foldl mbind option_bind]. destruct (individual_ids_spec world _ Hd') as (more & -> & Hm). cbn [mbind option_bind]. eexists. split; [done|].
    intros i. rewrite elem_of_union, Hi, Hm. symmetry. apply reached_from_snoc.
Qed.
End Members.

(** ** Properties *)


