(* ===== verification/DocContent.v ===== *)
(** * The content of a document
    ([keyhive/keyhive_core/src/principal/document.rs])

    What a document encrypts it decrypts again, in every state its operations
    lead to, and what causal decryption from a document returns. *)

From S2P Require Import Prelude TreeMath Crypto Keys SecretStore Tree PathCrypto Signed CaMap OpGraph AppSecret Cgka CgkaConverge Individual Membership.
From S2P Require Import MemberSort GroupState Group Reach Ciphertext CiphertextProps CausalDecrypt Keeps Document.

Local Open Scope monad_scope.

Lemma CaMap_extend_union {V} (m m' : CaMap V) : CaMap_extend m (map_to_list m') = m' ∪ m.
Proof.
  assert (forall l (m : CaMap V), NoDup l.*1 -> CaMap_extend m l = (list_to_map l : CaMap V) ∪ m) as Hf.
  { unfold CaMap_extend. induction l as [|[k v] l IH]; intros m0 Hnd; cbn; [by rewrite (left_id_L ∅ (∪))|].
    apply NoDup_cons in Hnd as [Hk Hnd]. rewrite IH by done. rewrite <- insert_union_r, insert_union_l; [done|]. by apply not_elem_of_list_to_map_1. }
  rewrite Hf by apply NoDup_fst_map_to_list. by rewrite list_to_map_to_list.
Qed.

Section Cached.
Context `{P : Primitives}.
Context `{Sop : !Serialize CgkaOperation, Ssop : !Serialize (Signed CgkaOperation)}.
Context `{Ssk : !Serialize ShareSecretKey, Spcs : !Serialize PcsKey}.

(** Keys are filed under their digests, every key with a known update is
    kept, and so are the keys [K]. *)
Record keys_cached (K : CaMap PcsKey) (c : Cgka) : Prop := {
  kc_wf : ca_wf (pcs_keys c);
  kc_ops : dom (pcs_key_ops c) ⊆ dom (pcs_keys c);
  kc_keeps : K ⊆ pcs_keys c;
}.

Lemma cached_ext K c c' : pcs_keys c' = pcs_keys c -> pcs_key_ops c' = pcs_key_ops c -> keys_cached K c -> keys_cached K c'.
Proof. intros H1 H2 [? ? ?]. constructor; by rewrite ?H1, ?H2. Qed.

Lemma cached_singleton K c k : keys_cached K c -> pcs_keys c !! Digest_hash k = Some k -> keys_cached {[Digest_hash k := k]} c.
Proof. intros [? ? _] Hk. constructor; [done..|]. by apply map_singleton_subseteq_l. Qed.

Lemma cached_new doc id pk op c : new_from_init_add doc id pk op = Ok c -> keys_cached ∅ c.
Proof.
  unfold new_from_init_add. destruct (BeeKem_new doc id pk) as [t| | |]; try done. cbn. destruct (add_local_op op graph_new) as [g| | |]; try done.
  intros [= <-]. constructor; cbn; [apply map_Forall_empty|set_solver|apply map_empty_subseteq].
Qed.

Lemma ca_wf_agree (K m : CaMap PcsKey) h k k' : collision_free PcsKey -> ca_wf K -> ca_wf m -> K !! h = Some k -> m !! h = Some k' -> k = k'.
Proof. intros Hcf HK Hm H1 H2. apply Hcf. by rewrite <- (HK _ _ H1), <- (Hm _ _ H2). Qed.

Section Kept.
Context (K : CaMap PcsKey) (Hcf : collision_free PcsKey).
Definition cached_fst {A} (s : Cgka * A) : Prop := keys_cached K s.1.

Lemma cached_ca_wf c : keys_cached K c -> ca_wf K.
Proof. intros [Hw _ HK] h k Hk. apply Hw. by apply (lookup_weaken K). Qed.

(** New keys beside the old ones, which they never replace. *)
Lemma cached_union c m : keys_cached K c -> ca_wf m -> K ⊆ m ∪ pcs_keys c.
Proof.
  intros Hc Hm. apply map_subseteq_spec. intros h k Hk. apply lookup_union_Some_raw. destruct (m !! h) as [k'|] eqn:Hk'.
  - left. by rewrite (ca_wf_agree K m h k k' Hcf (cached_ca_wf c Hc) Hm Hk Hk').
  - right. split; [done|]. apply (lookup_weaken K); [done|apply Hc].
Qed.

Lemma cached_insert k h : keeps (keys_cached K) (insert_pcs_key k h).
Proof.
  apply keeps_modify. intros c Hc. pose proof Hc as [Hw Ho _]. constructor; cbn; [by apply ca_wf_insert|set_solver|].
  rewrite insert_union_singleton_l. apply cached_union; [done|]. by apply map_Forall_singleton.
Qed.
Lemma cached_tree {A} (m : TreeM A) : keeps (keys_cached K) (tree_do m).
Proof. intros c Hc. unfold tree_do, zoom. destruct (m (tree c)). by apply (cached_ext K c). Qed.
Lemma cached_sks {A} (m : M ShareKeyMap CgkaError A) : keeps (keys_cached K) (sks_do m).
Proof. intros c Hc. unfold sks_do, zoom. destruct (m (owner_sks c)). by apply (cached_ext K c). Qed.
Lemma cached_graph f : keeps (keys_cached K) (graph_do f).
Proof. unfold graph_do. apply keeps_bindM; [auto with keeps_db|]. intros g. apply keeps_bindM; [auto with keeps_db|]. intros g'. apply keeps_modify. intros c. by apply cached_ext. Qed.
#[local] Hint Resolve cached_insert cached_tree cached_sks cached_graph : keeps_db.

Lemma cached_apply op : keeps (keys_cached K) (apply_operation op).
Proof. unfold apply_operation. apply keeps_bindM; [auto with keeps_db|]. intros [|]; auto with keeps_db. Qed.
#[local] Hint Resolve cached_apply : keeps_db.
Lemma cached_epochs es : keeps (keys_cached K) (apply_epochs es).
Proof.
  apply keeps_forM. intros e. unfold apply_epoch. destruct e as [|x [|y e]]; [cbn; auto with keeps_db|auto with keeps_db|]. case_match; auto with keeps_db.
Qed.

Lemma cached_root : keeps (keys_cached K) pcs_key_from_tree_root.
Proof. unfold pcs_key_from_tree_root. auto with keeps_db. Qed.
End Kept.
#[local] Hint Resolve cached_insert cached_tree cached_sks cached_graph cached_apply cached_root : keeps_db.

Lemma run_keeps {S E A} (I : S -> Prop) (m : M S E A) s a s' : keeps I m -> I s -> run m s = Ok (a, s') -> I s'.
Proof. intros Hm Hs. specialize (Hm s Hs). unfold run. destruct (m s) as [[?| | |] ?]; try done. by intros [= <- <-]. Qed.

Lemma cached_rebuild es c c' : rebuild_from es c = Ok c' -> keys_cached ∅ c'.
Proof.
  unfold rebuild_from. destruct (new_from_init_add _ _ _ _) as [c0| | |] eqn:H0; try done. apply cached_new in H0. cbn.
  destruct (run (apply_epochs es) _) as [[[] c1]| | |] eqn:H1; try done. intros [= <-].
  eapply run_keeps; [apply cached_epochs| |exact H1]. by apply (cached_ext ∅ c0).
Qed.

Lemma cached_rebuild_cgka es c c' : collision_free PcsKey -> rebuild_cgka es c = Ok c' -> keys_cached ∅ c'.
Proof.
  intros Hcf. unfold rebuild_cgka. destruct (rebuild_from es c) as [c0| | |] eqn:H0; try done. apply cached_rebuild in H0. cbn.
  destruct (has_pcs_key c0) as [[|]| | |]; try done; cbn; [|by intros [= <-]].
  destruct (run pcs_key_from_tree_root c0) as [[k c1]| | |] eqn:H1; try done. apply (run_keeps _ _ _ _ _ (cached_root ∅) H0) in H1. cbn.
  destruct (last_op es) as [op| | |]; try done. cbn. intros [= <-]. exact (cached_insert ∅ Hcf k (Digest_hash op) c1 H1).
Qed.

Section Operations.
Context (K : CaMap PcsKey) (Hcf : collision_free PcsKey).

Lemma cached_replay : keeps (keys_cached K) replay_ops_graph.
Proof.
  unfold replay_ops_graph. apply keeps_bindM; [auto with keeps_db|]. intros es s Hs. unfold bindM, readM.
  destruct (rebuild_cgka es s) as [c0| | |] eqn:H0; try done. apply cached_rebuild_cgka in H0 as [Hw Ho _]; [|done]. pose proof Hs as [Hw' Ho' _].
  constructor; cbn; rewrite CaMap_extend_union; [by apply ca_wf_union|rewrite !dom_union_L; set_solver|by apply (cached_union K Hcf s)].
Qed.
#[local] Hint Resolve cached_replay : keeps_db.
Lemma cached_maybe_replay : keeps (keys_cached K) maybe_replay.
Proof. unfold maybe_replay. auto with keeps_db. Qed.
#[local] Hint Resolve cached_maybe_replay : keeps_db.

Lemma cached_sign signer op : keeps (keys_cached K) (sign_op signer op).
Proof. unfold sign_op. auto with keeps_db. Qed.
#[local] Hint Resolve cached_sign : keeps_db.

Lemma cached_add id pk signer : keeps (keys_cached K) (add id pk signer).
Proof. unfold add. apply keeps_bindM; [auto with keeps_db|]. intros [|]; auto 10 with keeps_db. Qed.
Lemma cached_remove id signer : keeps (keys_cached K) (remove id signer).
Proof.
  unfold remove. apply keeps_bindM; [auto with keeps_db|]. intros [|]; cbn [negb]; [|auto with keeps_db].
  apply keeps_bindM; [auto with keeps_db|]. intros _. apply keeps_bindM; [auto with keeps_db|]. intros n. destruct (n =? 1)%N; auto 10 with keeps_db.
Qed.
Lemma cached_merge op : keeps (keys_cached K) (merge_concurrent_operation op).
Proof.
  assert (keeps (E := CgkaError) (keys_cached K) (modify (set_pending true))) as Hp by (apply keeps_modify; intros c; by apply cached_ext).
  unfold merge_concurrent_operation. apply keeps_bindM; [auto with keeps_db|]. intros c. repeat case_match; auto 10 with keeps_db.
Qed.

Lemma cached_no_rng {A} (m : CgkaM A) : keeps (keys_cached K) m -> keeps (cached_fst K) (no_rng m).
Proof. intros Hm. unfold no_rng. apply (keeps_zoom (keys_cached K)); done. Qed.
Lemma cached_tree_rng {A} (m : M (BeeKem * Rng) CgkaError A) : keeps (cached_fst K) (tree_rng m).
Proof. intros [c r] Hc. unfold tree_rng, zoom. destruct (m _) as [x [t r']]. by apply (cached_ext K c). Qed.
#[local] Hint Resolve cached_no_rng cached_tree_rng : keeps_db.

Lemma cached_update pk sk signer : keeps (cached_fst K) (update pk sk signer).
Proof.
  assert (keeps (E := CgkaError) (keys_cached K) (modify (fun c => set_owner_sks (<[pk := sk]> (owner_sks c)) c))) as Hp
    by (apply keeps_modify; intros c; by apply cached_ext).
  unfold update. apply keeps_bindM; [auto with keeps_db|]. intros _. apply keeps_bindM; [auto with keeps_db|]. intros _.
  apply keeps_bindM; [auto with keeps_db|]. intros s. apply keeps_bindM; [auto with keeps_db|]. intros [[k p]|]; auto 15 with keeps_db.
Qed.

Context {Cr : Type} `{Scr : !Serialize Cr, Slcr : !Serialize (list Cr)}.

Lemma cached_app_secret cr content preds signer : keeps (cached_fst K) (new_app_secret_for (Cr := Cr) cr content preds signer).
Proof.
  pose proof cached_update as Hu.
  assert (keeps (cached_fst K) (zoom snd (fun r (s : Cgka * Rng) => (s.1, r)) generate)) as Hg by (apply (keeps_zoom (fun _ => True)); done).
  unfold new_app_secret_for. apply keeps_bindM; [auto with keeps_db|]. intros [|]; apply keeps_bindM; auto 10 with keeps_db.
Qed.

Lemma cached_derive h : keeps (keys_cached K) (derive_pcs_key_for_op h).
Proof.
  unfold derive_pcs_key_for_op, rebuild_pcs_key. apply keeps_bindM; [auto with keeps_db|]. intros [|]; cbn [negb]; auto 10 with keeps_db.
Qed.
#[local] Hint Resolve cached_derive : keeps_db.
Lemma cached_from_hashes k h : keeps (keys_cached K) (pcs_key_from_hashes k h).
Proof.
  unfold pcs_key_from_hashes. apply keeps_bindM; [auto with keeps_db|]. intros keys. destruct (CaMap_get k keys); [auto with keeps_db|].
  apply keeps_bindM; [auto with keeps_db|]. intros [|]; [|auto with keeps_db]. apply keeps_bindM; [auto with keeps_db|].
  intros a. case_decide; auto with keeps_db.
Qed.
#[local] Hint Resolve cached_from_hashes : keeps_db.
Lemma cached_decryption_key (e : EncryptedContent Cr) : keeps (keys_cached K) (decryption_key_for e).
Proof. unfold decryption_key_for. auto 10 with keeps_db. Qed.

(** A key that is kept opens what was encrypted under it. *)
Lemma kept_key_decrypts {L : PrimitiveLaws P} c k nonce cr preds op plaintext (e : EncryptedContent Cr) :
  keys_cached K c -> K !! Digest_hash k = Some k ->
  secret_try_encrypt (derive_application_secret k nonce cr preds op) plaintext = Some e ->
  exists key, decryption_key_for e c = (Ok key, c) /\ content_try_decrypt e key = Some plaintext.
Proof.
  intros Hc Hk He. destruct (rederived_decrypts k nonce cr preds op plaintext e He) as (Hd & Hh & Ho).
  pose proof (lookup_weaken _ _ _ _ Hk (kc_keeps _ _ Hc)) as Hk'. exists (rederive k e). split; [|done].
  unfold decryption_key_for, bindM, pcs_key_from_hashes, gets, CaMap_get. rewrite Hh. unfold bindM. rewrite Hk'. cbn.
  unfold CaMap_contains_key. rewrite bool_decide_eq_true_2 by eauto. done.
Qed.

(** The secret that new content is encrypted with comes from a key that is
    kept. *)
Lemma app_secret_kept cr content preds signer c r s op c' r' : keys_cached K c ->
  new_app_secret_for (Cr := Cr) cr content preds signer (c, r) = (Ok (s, op), (c', r')) ->
  exists k nonce pr h, s = derive_application_secret k nonce cr pr h /\ keys_cached K c' /\ pcs_keys c' !! Digest_hash k = Some k.
Proof.
  intros Hc Hs. pose proof (cached_app_secret cr content preds signer (c, r) Hc) as Hc'. rewrite Hs in Hc'. cbn in Hc'.
  revert Hs. unfold new_app_secret_for. intros (has & s1 & _ & Hs)%bindM_inv. apply bindM_inv in Hs as (cur & s2 & _ & Hs).
  apply bindM_inv in Hs as (s3 & s3' & Hget & Hs). unfold get in Hget. injection Hget as <- <-.
  apply bindM_inv in Hs as (h & s4 & Hexp & Hs). unfold expect in Hexp.
  destruct (pcs_key_ops s2.1 !! Digest_hash cur.1) as [h'|] eqn:Hh; [|done]. unfold ret in Hexp, Hs. injection Hexp as -> <-. injection Hs as <- _ ->.
  exists cur.1. do 3 eexists. split; [reflexivity|]. split; [done|]. cbn in Hh.
  assert (Digest_hash cur.1 ∈ dom (pcs_keys c')) as [k Hk]%elem_of_dom by (apply (kc_ops _ _ Hc'), elem_of_dom; eauto).
  rewrite Hk. f_equal. apply Hcf. symmetry. apply (kc_wf _ _ Hc' _ _ Hk).
Qed.
End Operations.
End Cached.

Section Documents.
Context `{P : Primitives} `{E : Ed25519} {T : Type} `{Countable T}.
Context `{Ssd : !Serialize (Signed (StaticDelegation T)), Ssr : !Serialize (Signed (StaticRevocation T))}.
Context `{Sd : !Serialize (Delegation T), Sr : !Serialize (Revocation T)}.
Context `{Sop : !Serialize CgkaOperation, Ssop : !Serialize (Signed CgkaOperation)}.
Context `{Ssk : !Serialize ShareSecretKey, Spcs : !Serialize PcsKey, St : !Serialize T, Slt : !Serialize (list T)}.
Context (Hcf : collision_free PcsKey).

Definition doc_cached (K : CaMap PcsKey) (d : Document T) : Prop :=
  match doc_cgka d with Some c => keys_cached K c | None => K = ∅ end.

Section Kept.
Context (K : CaMap PcsKey).
Abbreviation kept := (doc_cached K).
Abbreviation kept_fst := (fun s : Document T * Rng => doc_cached K s.1).

Lemma kept_cgka {A} (m : M Cgka CgkaError A) : keeps (keys_cached K) m -> keeps kept (cgka_mut m).
Proof.
  intros Hm d Hd. unfold cgka_mut, doc_cached in *. destruct (doc_cgka d) as [c|] eqn:Hc; [|cbn; by rewrite Hc].
  specialize (Hm c Hd). destruct (m c) as [r c']. done.
Qed.
Lemma kept_cgka_rng {A} (m : M (Cgka * Rng) CgkaError A) : keeps (cached_fst K) m -> keeps kept_fst (cgka_mut_rng m).
Proof.
  intros Hm [d r] Hd. unfold cgka_mut_rng, doc_cached in *. cbn in *. destruct (doc_cgka d) as [c|] eqn:Hc; [|cbn; by rewrite Hc].
  specialize (Hm (c, r) Hd). destruct (m (c, r)) as [x [c' r']]. done.
Qed.
Lemma kept_group {Er A} (m : M (@Group T) Er A) : keeps kept (on_group m).
Proof. apply (keeps_zoom (fun _ => True)); done. Qed.
#[local] Hint Resolve kept_cgka kept_cgka_rng kept_group cached_add cached_remove cached_merge cached_update cached_app_secret cached_decryption_key : keeps_db.

Lemma kept_add_prekeys prekeys signer : forall acc, keeps kept (add_prekeys prekeys signer acc).
Proof. induction prekeys as [|[id pk] prekeys IH]; intros acc; cbn [add_prekeys]; auto with keeps_db. Qed.
Lemma kept_remove_ids ids signer : forall acc, keeps kept (remove_ids ids signer acc).
Proof. induction ids as [|id ids IH]; intros acc; cbn [remove_ids]; auto with keeps_db. Qed.
#[local] Hint Resolve kept_add_prekeys kept_remove_ids : keeps_db.

Lemma kept_add_member member access signer docs world pick : keeps kept (doc_add_member member access signer docs world pick).
Proof.
  unfold doc_add_member, add_cgka_members_from_prekeys. apply keeps_bindM; [auto with keeps_db|]. intros d.
  apply keeps_bindM; [auto with keeps_db|]. intros u. case_match; auto with keeps_db.
Qed.
Lemma kept_revoke_member member retain signer content world : keeps kept (doc_revoke_member member retain signer content world).
Proof. unfold doc_revoke_member. auto 15 with keeps_db. Qed.

Lemma kept_merge_op op : keeps kept (merge_cgka_op op).
Proof.
  intros d Hd. unfold merge_cgka_op. destruct (doc_cgka d) as [c|] eqn:Hc; [by apply kept_cgka; [apply cached_merge|]|].
  repeat (case_match; try done). cbn. unfold doc_cached in *. cbn. rewrite Hc in Hd. rewrite Hd. by eapply cached_new.
Qed.
Lemma kept_invite_op op sk : keeps kept (merge_cgka_invite_op op sk).
Proof.
  unfold merge_cgka_invite_op. destruct (payload op); try auto with keeps_db. intros d Hd. unfold bindM at 1, readM, doc_cgka_ref.
  destruct (doc_cgka d) as [c|] eqn:Hc; [|done]. cbn. case_match; [done|]. unfold bindM, liftR, with_new_owner, modify. apply kept_merge_op.
  unfold doc_cached in *. rewrite Hc in Hd. cbn. by apply (cached_ext K c).
Qed.

Lemma kept_pcs_update signer : keeps kept_fst (pcs_update signer).
Proof.
  unfold pcs_update. apply keeps_bindM; [intros [d r] Hd; unfold fresh_secret; by destruct (ShareSecretKey_generate _)|]. auto with keeps_db.
Qed.
Lemma kept_encrypt cr content preds signer : keeps kept_fst (doc_try_encrypt_content cr content preds signer).
Proof.
  unfold doc_try_encrypt_content. apply keeps_bindM; [auto with keeps_db|]. intros s. apply keeps_bindM; [by apply keeps_modify|]. auto with keeps_db.
Qed.
Lemma kept_decrypt (e : EncryptedContent T) : keeps kept (doc_try_decrypt_content e).
Proof. unfold doc_try_decrypt_content. auto with keeps_db. Qed.
End Kept.

(** ** What can happen to a document *)

Inductive doc_step (d : Document T) : Document T -> Prop :=
| step_add_member member access signer docs world pick : doc_step d (doc_add_member member access signer docs world pick d).2
| step_revoke_member member retain signer content world : doc_step d (doc_revoke_member member retain signer content world d).2
| step_remove_cgka_member id signer : doc_step d (remove_cgka_member id signer d).2
| step_receive_delegation dlg : doc_step d (doc_receive_delegation dlg d).2
| step_receive_revocation rev : doc_step d (doc_receive_revocation rev d).2
| step_merge_cgka_op op : doc_step d (merge_cgka_op op d).2
| step_merge_invite op sk : doc_step d (merge_cgka_invite_op op sk d).2
| step_pcs_update signer r : doc_step d (pcs_update signer (d, r)).2.1
| step_encrypt cr content preds signer r : doc_step d (doc_try_encrypt_content cr content preds signer (d, r)).2.1
| step_decrypt e : doc_step d (doc_try_decrypt_content e d).2.

Inductive doc_created : Document T -> Prop :=
| created_from_group g heads d : from_group g heads = Ok d -> doc_created d
| created_generate sk parents heads rs log signer world pick s d ops s' :
    doc_generate sk parents heads rs log signer world pick s = (Ok (d, ops), s') -> doc_created d.

Lemma step_kept K d d' : doc_step d d' -> doc_cached K d -> doc_cached K d'.
Proof.
  intros Hs Hd. destruct Hs;
    [by apply kept_add_member|by apply kept_revoke_member|by apply (kept_cgka K); [apply cached_remove|]|by apply kept_group|by apply kept_group
    |by apply kept_merge_op|by apply kept_invite_op|by apply (kept_pcs_update K signer (d, r))|by apply (kept_encrypt K cr content preds signer (d, r))|by apply kept_decrypt].
Qed.
Lemma steps_kept K d d' : rtc doc_step d d' -> doc_cached K d -> doc_cached K d'.
Proof. induction 1; [done|]. intros ?. eauto using step_kept. Qed.

Lemma created_kept d : doc_created d -> doc_cached ∅ d.
Proof.
  intros [g heads d0 Hg|sk parents heads rs log signer world pick s d0 ops s' Hg].
  - unfold from_group in Hg. unfold doc_rebuild, on_group, zoom in Hg. cbn beta iota delta [doc_group] in Hg.
    match type of Hg with context [rebuild ?x] => destruct (rebuild x) as [[[]| | |] g'] end; try done. by injection Hg as <-.
  - unfold doc_generate in Hg. apply bindM_inv in Hg as (g & s1 & _ & Hg). apply bindM_inv in Hg as (osk & s2 & _ & Hg).
    apply bindM_inv in Hg as (prekeys & s3 & _ & Hg). apply bindM_inv in Hg as (c0 & s4 & H0 & Hg). apply bindM_inv in Hg as (c1 & s5 & H1 & Hg).
    apply bindM_inv in Hg as (added & s6 & H2 & Hg). apply bindM_inv in Hg as (upd & s7 & H3 & Hg). unfold ret in Hg. injection Hg as <- _ _.
    assert (keys_cached ∅ c0) as Hc0.
    { unfold liftR, Cgka_new in H0. destruct (lift_signing _) as [o| | |]; try done. cbn in H0.
      destruct (new_from_init_add _ _ _ o) as [c'| | |] eqn:Hn; try done. injection H0 as <- _. by eapply cached_new. }
    assert (keys_cached ∅ c1) as Hc1.
    { unfold liftR, with_new_owner in H1. injection H1 as <- _. by apply (cached_ext ∅ c0). }
    assert (keys_cached ∅ added.2) as Hc2.
    { unfold liftR in H2. destruct (filter _ _) as [|p l]; [by injection H2 as <- _|].
      destruct (run (add_multiple _ signer) c1) as [[x c2]| | |] eqn:Hr; try done. injection H2 as <- _.
      eapply run_keeps; [|exact Hc1|exact Hr]. unfold add_multiple. apply keeps_bindM; [|auto with keeps_db].
      generalize ([] : list (option SignedOp)). generalize ((fun m : Identifier * ShareKey => (member_of m.1, m.2)) <$> p :: l).
      intros ms. induction ms as [|m ms IH]; intros acc; cbn [add_multiple_loop]; [auto with keeps_db|].
      apply keeps_bindM; [by apply cached_add|auto]. }
    unfold with_local, map_err in H3. pose proof (cached_update ∅ Hcf (share_key osk) osk signer (added.2, s6.2) Hc2) as Hc3.
    destruct (update _ osk signer (added.2, s6.2)) as [[u| | |] [c3 r3]]; try done. cbn in H3. injection H3 as <- _. exact Hc3.
Qed.
End Documents.

(** ** Properties *)

(** C3. What a document encrypts it can read again.  In every document that
    can come about (generated, or received, and after any operations on it,
    failed ones included), content that was encrypted is decrypted to what it
    was, also after any further operations: members added and removed, keys
    rotated, concurrent operations merged, or other content encrypted. *)
Theorem doc_content_roundtrip `{P : Primitives} {L : PrimitiveLaws P} `{E : Ed25519} {T : Type} `{Countable T}
    `{Ssd : !Serialize (Signed (StaticDelegation T)), Ssr : !Serialize (Signed (StaticRevocation T)), Sd : !Serialize (Delegation T), Sr : !Serialize (Revocation T)}
    `{Sop : !Serialize CgkaOperation, Ssop : !Serialize (Signed CgkaOperation), Ssk : !Serialize ShareSecretKey, Spcs : !Serialize PcsKey}
    `{St : !Serialize T, Slt : !Serialize (list T)} (d0 d d1 d2 : Document T) content_ref content pred_refs signer r e op r1 :
  collision_free PcsKey -> doc_created d0 -> rtc doc_step d0 d ->
  doc_try_encrypt_content content_ref content pred_refs signer (d, r) = (Ok (e, op), (d1, r1)) -> rtc doc_step d1 d2 ->
  doc_try_decrypt_content e d2 = (Ok content, d2).
Proof.
  intros Hcf H0 Hs He Hs'. pose proof (steps_kept Hcf ∅ d0 d Hs (created_kept Hcf d0 H0)) as Hd.
  unfold doc_try_encrypt_content in He. apply bindM_inv in He as ([s o] & s1 & H1 & He). unfold map_err, cgka_mut_rng in H1. cbn [fst snd] in H1.
  unfold doc_cached in Hd. destruct (doc_cgka d) as [c|]; [|done].
  destruct (new_app_secret_for content_ref content pred_refs signer (c, r)) as [[[s' o']| | |] [c' r']] eqn:Happ; try done. injection H1 as -> -> <-.
  destruct (app_secret_kept ∅ Hcf content_ref content pred_refs signer c r s o c' r' Hd Happ) as (k & nonce & pr & h & -> & Hc' & Hk).
  unfold bindM, modify, liftR in He. cbn [fst snd] in He.
  destruct (secret_try_encrypt (derive_application_secret k nonce content_ref pr h) content) as [e'|] eqn:Henc; [|done]. cbn in He. injection He as -> -> <- _.
  assert (doc_cached {[Digest_hash k := k]} d2) as H2.
  { eapply (steps_kept Hcf); [exact Hs'|]. exact (cached_singleton _ _ _ Hc' Hk). }
  unfold doc_cached in H2. destruct (doc_cgka d2) as [c2|] eqn:Hc2; [|by apply (f_equal (lookup (Digest_hash k))) in H2; rewrite lookup_singleton_eq, lookup_empty in H2].
  destruct (kept_key_decrypts {[Digest_hash k := k]} c2 k nonce content_ref pr h content e H2 (lookup_singleton_eq _ _) Henc) as (key & Hkey & Hdec).
  unfold doc_try_decrypt_content, bindM, map_err, cgka_mut. rewrite Hc2, Hkey. cbn. unfold liftR. rewrite Hdec. cbn. f_equal.
  destruct d2; cbn in *. by subst.
Qed.

(** ** Causal decryption *)

Section Causal.
Context `{P : Primitives} `{E : Ed25519} {T : Type} `{Countable T}.
Context `{Ssd : !Serialize (Signed (StaticDelegation T)), Ssr : !Serialize (Signed (StaticRevocation T))}.
Context `{Sop : !Serialize CgkaOperation, Ssop : !Serialize (Signed CgkaOperation), Ssk : !Serialize ShareSecretKey, Spcs : !Serialize PcsKey, St : !Serialize T}.
Context {A S Ge Me : Type} `{D : !Deserialize (Envelope T bytes), D' : !Deserialize (Envelope T A), Cs : !CiphertextStore T S Ge Me}.
Context {ok : S -> Prop} {Laws : CiphertextStoreLaws Cs ok}.

(** The ciphertexts the store has of the [keys], with their keys. *)
Definition stored_ancestors (s : S) (keys : list (T * SymmetricKey)) : list (EncryptedContent T * SymmetricKey) :=
  keys ≫= fun a => match get_ciphertext a.1 s with Ok (Some c) => [(c, a.2)] | _ => [] end.

Lemma entry_ancestors_ok (s : S) (d : Document T) keys : ok s -> forall acc,
  exists next, foldM (entry_ancestor (A := A)) keys acc (d, s) = (Ok (acc.1 ++ stored_ancestors s keys, next), (d, s)).
Proof.
  intros Hok. induction keys as [|[r k] keys IH]; intros acc.
  { exists acc.2. cbn. by rewrite app_nil_r, <- surjective_pairing. }
  destruct (cs_get r s Hok) as (o & Hg & _). cbn [foldM]. unfold bindM at 1, entry_ancestor at 1, bindM, readM. cbn [fst snd]. rewrite Hg. cbn [res_map_err].
  unfold stored_ancestors. rewrite bind_cons. cbn [fst snd]. rewrite Hg.
  destruct o as [c|]; cbn [ret].
  - destruct (IH (acc.1 ++ [(c, k)], acc.2)) as [next Hn]. exists next. unfold ret. rewrite Hn. cbn [fst]. by rewrite <- app_assoc.
  - destruct (IH (acc.1, <[r := k]> acc.2)) as [next Hn]. exists next. unfold ret. by rewrite Hn.
Qed.

Lemma entry_point_opened (d d' : Document T) (s : S) e raw (env : Envelope T bytes) fuel :
  ok s -> doc_try_decrypt_content e d = (Ok raw, d') -> deserialize raw = Some env ->
  try_causal_decrypt_content (A := A) fuel e (d, s) =
    zoom snd (fun st s => (s.1, st)) (map_err (fun x => DocCausalError x.1 x.2) (try_causal_decrypt (A := A) fuel (stored_ancestors s (map_to_list (ancestors env))))) (d', s).
Proof.
  intros Hok Hdec Henv. destruct (entry_ancestors_ok s d' (map_to_list (ancestors env)) Hok ([], ∅)) as [next Hn].
  unfold try_causal_decrypt_content. erewrite bindM_ok; [|unfold zoom, map_err; cbn [fst snd]; rewrite Hdec; reflexivity]. cbn [fst snd].
  erewrite bindM_ok; [|unfold liftR; rewrite Henv; reflexivity]. erewrite bindM_ok; [|exact Hn]. reflexivity.
Qed.

(** With none of the ancestors stored their keys are dropped. *)
Lemma entry_point_only (d d' : Document T) (s : S) e raw (env : Envelope T bytes) :
  ok s -> doc_try_decrypt_content e d = (Ok raw, d') -> deserialize raw = Some env -> stored_ancestors s (map_to_list (ancestors env)) = [] ->
  try_causal_decrypt_content (A := A) 1 e (d, s) = (Ok (mkCausalState [] ∅ ∅), (d', s)).
Proof. intros Hok Hdec Henv Hnil. rewrite (entry_point_opened d d' s e raw env 1 Hok Hdec Henv), Hnil. reflexivity. Qed.
End Causal.

