(* ===== verification/DocWitness.v ===== *)
(** * A ciphertext store and a document over the toy primitives

    The theorems on ciphertext stores applied to a store with two contents, those
    on documents to a document of Alice and Bob, and runs of the model on inputs
    the code treats unexpectedly. *)

From Stdlib Require Import Strings.Byte.
From S2P Require Import Prelude TreeMath Crypto Keys SecretStore Tree TreeInv TreeOps PathCrypto PathDecrypt TreeHistory Signed CaMap OpGraph AppSecret.
From S2P Require Import Cgka ToySerialize CgkaWitness Individual IndividualWitness Membership GroupState Group GroupChange Reach ReachProps.
From S2P Require Import GroupWitness Ciphertext CiphertextProps CausalDecrypt Document DocMembers DocContent.

Import ToyPrimitives ToySerialize.

#[export] Instance enc_encrypted_content : Enc (EncryptedContent N).
Proof.
  refine (enc_via (fun e => (ec_nonce e, ec_ciphertext e, ec_pcs_key_hash e, ec_pcs_update_op_hash e, ec_content_ref e, ec_pred_refs e)) _).
  by intros [] [] [= -> -> -> -> -> ->].
Defined.

(** A first byte tells whether an ancestor and its key come before the text. *)
#[export] Instance toy_envelope : Deserialize (Envelope N bytes) := fun b =>
  match b with
  | x00 :: text => Some (mkEnvelope text ∅)
  | x01 :: r :: k :: text => Some (mkEnvelope text {[Byte.to_N r := mkSymmetricKey [k]]})
  | _ => None
  end.

Definition sealed (r : N) (key : byte) (op : byte) (plain : bytes) : EncryptedContent N :=
  mkEncryptedContent (mkSiv [x00]) (default [] (try_encrypt (mkSymmetricKey [key]) (mkSiv [x00]) plain)) (mkDigest []) (mkDigest [op]) r (mkDigest []).

Definition first : EncryptedContent N := sealed 1 x11 x00 [x00; x61].
Definition second : EncryptedContent N := sealed 2 x12 x00 [x01; x01; x11; x62].
Definition small_store : MemoryCiphertextStore N := memory_insert first memory_new.

Lemma memory_store_correct_witness :
  store_wf small_store /\ stored small_store first /\ get_by_content_ref 1%N (memory_remove_all 1%N small_store).2 = None.
Proof.
  destruct (memory_store_correct (Cr := N) toy_collision_free) as [Hnew Hall]. destruct (Hall memory_new Hnew) as (Hins & _).
  destruct (Hins first) as [Hwf Hst]. destruct (Hall _ Hwf) as (_ & Hrem & _). split_and!; [exact Hwf|exact Hst|apply Hrem].
Defined.

(** Opening the second content with its key opens the first one too. *)
Definition to_open : list (EncryptedContent N * SymmetricKey) := [(second, mkSymmetricKey [x12])].
Lemma opening_run : exists d : @Decrypting N bytes Empty_set Empty_set _ _,
  causal_loop 3 small_store (mkDecrypting (reverse to_open) (mkCausalState [] ∅ ∅) ∅ ∅) = Some d /\ cannot d = ∅ /\ (complete (progress d)).*1 = [2; 1]%N.
Proof. eexists. split_and!; vm_compute; reflexivity. Qed.


(** Two ciphertexts of one content under one update: removing the first one
    hides the second from the update, and removing the second one returns
    nothing and leaves a reference to a ciphertext that is gone, after which a
    third ciphertext of the content cannot be fetched. *)
Definition again : EncryptedContent N := sealed 1 x13 x00 [x00; x63].
Definition third : EncryptedContent N := sealed 1 x14 x05 [x00; x64].
Theorem memory_remove_corrupts :
  let s := memory_insert again small_store in
  let s1 := (memory_remove (Digest_hash first) s).2 in
  let s2 := memory_remove (Digest_hash again) s1 in
  get_by_content_ref 1%N s1 = Some again /\ get_by_pcs_update (mkDigest [x00]) s1 = [] /\
  s2.1 = None /\ get_by_content_ref 1%N (memory_insert third s2.2) = None.
Proof. vm_compute. repeat split; reflexivity. Qed.

(** ** A document *)

Definition no_groups : gmap Identifier (gmap Identifier (list Dlg)) := ∅.
Definition prekey_of (_ id : Identifier) : ShareKey := mkShareKey (VerifyingKey_bytes id).

(** Alice and Bob, each with a leaf. *)
Definition diary : Document N := mkDocument (club_of [to_bob] []) ∅ ∅ ∅ (Some alice1).

Lemma alice1_ready : ready alice1.
Proof.
  constructor; [vm_compute; reflexivity|apply (bool_decide_eq_false _); vm_compute; reflexivity|]. rewrite alice1_tree. destruct (reachable_sealed _ _ toy_t2_reachable) as [h Hs].
  exists h. apply Hs.
Qed.

Lemma person_unique (world : gmap Identifier (gmap Identifier (list Dlg))) id : unique_ids world (AgentIndividual id).
Proof.
  assert (forall b, leads world (AgentIndividual id) b -> b = AgentIndividual id) as H; [|by intros b c ->%H ->%H].
  induction 1 as [|b ms c _ -> Hm]; [done|]. discriminate Hm.
Qed.
Lemma signer_of_returns id : signer_returns (signer_of id).
Proof. intros m. left. eexists. reflexivity. Qed.



(** ** Content *)

Definition pen : AsyncSigner := mkAsyncSigner alice (fun _ => Ok (mkSignature [x30])).
Definition notes_generation := doc_generate (T := N) (E := toy_ed) [x07] [AgentIndividual alice] [] rev_store_new [] pen no_groups prekey_of (∅, toy_rng).
Definition notes : Document N := match notes_generation.1 with Ok (d, _) => d | _ => diary end.
(** Text that names content 1 as its ancestor, with the key of it. *)
Definition text : bytes := [x01; x01; x11; x62].
Definition noted := doc_try_encrypt_content 5%N text [] pen (notes, toy_rng).
Definition note : EncryptedContent N := match noted.1 with Ok (e, _) => e | _ => first end.
Definition later : Document N := (pcs_update pen (noted.2.1, noted.2.2)).2.1.

Lemma notes_created : doc_created notes.
Proof.
  assert (is_ok notes_generation.1 = true) as Hok by (vm_compute; reflexivity). unfold notes. destruct notes_generation as [[[d ops]| | |] s'] eqn:Hg; try discriminate Hok.
  eapply created_generate. exact Hg.
Qed.
Lemma noted_ok : exists op, noted = (Ok (note, op), (noted.2.1, noted.2.2)).
Proof.
  assert (is_ok noted.1 = true) as Hok by (vm_compute; reflexivity). unfold note. destruct noted as [[[e op]| | |] [d r]]; try discriminate Hok. by exists op.
Qed.

(** The text is read again after a key rotation. *)
Lemma doc_content_roundtrip_witness : doc_try_decrypt_content note later = (Ok text, later).
Proof.
  destruct noted_ok as [op Hop].
  apply (doc_content_roundtrip (L := toy_laws) notes notes noted.2.1 later 5%N text [] pen toy_rng note op noted.2.2 toy_collision_free notes_created).
  - constructor.
  - exact Hop.
  - exact (rtc_once _ _ (step_pcs_update noted.2.1 pen noted.2.2)).
Defined.

(** Opening the note also opens content 1, which the store has. *)
Lemma note_opens : exists d', doc_try_decrypt_content note noted.2.1 = (Ok text, d').
Proof.
  assert (match (doc_try_decrypt_content note noted.2.1).1 with Ok b => b | _ => [] end = text) as Hok by (vm_compute; reflexivity).
  destruct (doc_try_decrypt_content note noted.2.1) as [[b| | |] d']; try discriminate Hok. cbn [fst] in Hok. rewrite Hok. by exists d'.
Qed.
Definition text_envelope : Envelope N bytes := mkEnvelope [x62] {[1%N := mkSymmetricKey [x11]]}.


(** ** What the code does with some documents *)

(** Nothing of the note's history is stored: the key of content 1, which the
    note carries, is lost. *)
Theorem causal_decrypt_drops_entry_keys :
  ancestors text_envelope !! 1%N = Some (mkSymmetricKey [x11]) /\
  exists s', try_causal_decrypt_content (A := bytes) 1 note (noted.2.1, memory_new) = (Ok (mkCausalState [] ∅ ∅), s').
Proof.
  split; [reflexivity|]. destruct note_opens as [d' Hd]. eexists.
  exact (entry_point_only (A := bytes) noted.2.1 d' memory_new note text text_envelope memory_new_wf Hd eq_refl eq_refl).
Qed.
