(* ===== verification/Keyhive.v ===== *)
(** * A keyhive and the events it receives
    ([keyhive/keyhive_core/src/keyhive.rs], [event.rs], [event/static_event.rs],
    [principal/public.rs])

    The top-level object: the individuals, groups and documents an agent knows,
    the stores of delegations and revocations they share, and the events that
    wait for what they depend on.  Everything sits behind locks in the code; a
    call here is one that runs alone, and waiting for a lock that the call holds
    itself is [Diverge]. *)

From S2P Require Import Prelude TreeMath Crypto Keys SecretStore Tree PathCrypto Signed CaMap OpGraph AppSecret Cgka.
From S2P Require Import Individual Membership MemberSort GroupState Group Active Document.

Local Open Scope monad_scope.

(** ** Events *)

Inductive StaticEvent (T : Type) :=
  | PrekeysExpanded (op : Signed AddKeyOp)
  | PrekeyRotated (op : Signed RotateKeyOp)
  | StaticCgkaOperation (op : Signed CgkaOperation)
  | Delegated (d : Signed (StaticDelegation T))
  | Revoked (r : Signed (StaticRevocation T)).
Arguments PrekeysExpanded {T}.
Arguments PrekeyRotated {T}.
Arguments StaticCgkaOperation {T}.
Arguments Delegated {T}.
Arguments Revoked {T}.

(** *** Errors *)

Inductive StaticEventConversionError (T : Type) :=
  | ConversionMissingDelegation (hash : Digest (SignedDelegation T))
  | ConversionMissingRevocation (hash : Digest (SignedRevocation T))
  | ConversionUnknownAgent (id : Identifier).
Arguments ConversionMissingDelegation {T}.
Arguments ConversionMissingRevocation {T}.
Arguments ConversionUnknownAgent {T}.

Inductive ReceiveStaticDelegationError (T : Type) :=
  | StaticVerificationError (e : VerificationError)
  | MissingProof (hash : Digest (SignedDelegation T))
  | MissingRevocationDependency (hash : Digest (SignedRevocation T))
  | CgkaInitError (e : CgkaError)
  | GroupReceiveError (e : AddError)
  | UnknownAgent (id : Identifier).
Arguments StaticVerificationError {T}.
Arguments MissingProof {T}.
Arguments MissingRevocationDependency {T}.
Arguments CgkaInitError {T}.
Arguments GroupReceiveError {T}.
Arguments UnknownAgent {T}.

(** [From<StaticEventConversionError>] *)
Definition from_conversion {T} (e : StaticEventConversionError T) : ReceiveStaticDelegationError T :=
  match e with
  | ConversionMissingDelegation hash => MissingProof hash
  | ConversionMissingRevocation hash => MissingRevocationDependency hash
  | ConversionUnknownAgent id => UnknownAgent id
  end.

Inductive ReceiveCgkaOpError :=
  | ReceiveCgkaError (e : CgkaError)
  | CgkaVerificationError (e : VerificationError)
  | UnknownDocument (id : Identifier)
  | UnknownInvitePrekey (pk : ShareKey).

Inductive ReceiveStaticEventError (T : Type) :=
  | StaticPrekeyOpError (e : ReceivePrekeyOpError)
  | StaticCgkaOpError (e : ReceiveCgkaOpError)
  | StaticMembershipError (e : ReceiveStaticDelegationError T).
Arguments StaticPrekeyOpError {T}.
Arguments StaticCgkaOpError {T}.
Arguments StaticMembershipError {T}.

Section Keyhives.
Context `{P : Primitives} `{E : Ed25519} {T : Type} `{Countable T}.
Context `{Ssd : !Serialize (Signed (StaticDelegation T)), Ssr : !Serialize (Signed (StaticRevocation T))}.
Context `{Spd : !Serialize (StaticDelegation T), Spr : !Serialize (StaticRevocation T)}.
Context `{Sop : !Serialize CgkaOperation, Ssop : !Serialize (Signed CgkaOperation)}.
Context `{Ssk : !Serialize ShareSecretKey, Spcs : !Serialize PcsKey}.
Context `{Sadd : !Serialize AddKeyOp, Srot : !Serialize RotateKeyOp, Skop : !Serialize KeyOp, Sev : !Serialize (StaticEvent T)}.

(** ** State *)

(** [Arc<Mutex<Individual>>]: the pointer that the active agent holds too, or
    one of its own. *)
Inductive IndividualCell :=
  | ActiveCell
  | OwnCell (i : Individual).

Record Keyhive := mkKeyhive {
  kh_verifying_key : VerifyingKey;
  kh_active : Active;
  kh_individuals : gmap Identifier IndividualCell;
  kh_groups : gmap Identifier (@Group T);
  kh_docs : gmap Identifier (Document T);
  kh_delegations : CaMap (SignedDelegation T);
  kh_revocations : RevocationStore T;
  kh_pending_events : list (StaticEvent T);
  kh_cgka_events : list SignedOp;
}.
Definition set_active (a : Active) (k : Keyhive) : Keyhive :=
  mkKeyhive (kh_verifying_key k) a (kh_individuals k) (kh_groups k) (kh_docs k) (kh_delegations k) (kh_revocations k) (kh_pending_events k) (kh_cgka_events k).
Definition set_individuals (m : gmap Identifier IndividualCell) (k : Keyhive) : Keyhive :=
  mkKeyhive (kh_verifying_key k) (kh_active k) m (kh_groups k) (kh_docs k) (kh_delegations k) (kh_revocations k) (kh_pending_events k) (kh_cgka_events k).
Definition set_groups (m : gmap Identifier (@Group T)) (k : Keyhive) : Keyhive :=
  mkKeyhive (kh_verifying_key k) (kh_active k) (kh_individuals k) m (kh_docs k) (kh_delegations k) (kh_revocations k) (kh_pending_events k) (kh_cgka_events k).
Definition set_docs (m : gmap Identifier (Document T)) (k : Keyhive) : Keyhive :=
  mkKeyhive (kh_verifying_key k) (kh_active k) (kh_individuals k) (kh_groups k) m (kh_delegations k) (kh_revocations k) (kh_pending_events k) (kh_cgka_events k).
Definition set_stores (ds : CaMap (SignedDelegation T)) (rs : RevocationStore T) (k : Keyhive) : Keyhive :=
  mkKeyhive (kh_verifying_key k) (kh_active k) (kh_individuals k) (kh_groups k) (kh_docs k) ds rs (kh_pending_events k) (kh_cgka_events k).
Definition set_pending (l : list (StaticEvent T)) (k : Keyhive) : Keyhive :=
  mkKeyhive (kh_verifying_key k) (kh_active k) (kh_individuals k) (kh_groups k) (kh_docs k) (kh_delegations k) (kh_revocations k) l (kh_cgka_events k).
Definition tell_cgka (op : SignedOp) (k : Keyhive) : Keyhive :=
  mkKeyhive (kh_verifying_key k) (kh_active k) (kh_individuals k) (kh_groups k) (kh_docs k) (kh_delegations k) (kh_revocations k) (kh_pending_events k) (kh_cgka_events k ++ [op]).

(** *** Shared stores

    [delegations] and [revocations] are one pair of stores for all groups: a
    group is given them for a call, and what the call did to them is kept. *)
Definition with_stores (k : Keyhive) (g : @Group T) : @Group T :=
  set_state (set_revocations (kh_revocations k) (set_delegations (kh_delegations k) (g_state g))) g.
Definition take_stores (g : @Group T) (k : Keyhive) : Keyhive := set_stores (gs_delegations (g_state g)) (gs_revocations (g_state g)) k.

Definition at_group {Er A} (id : Identifier) (g : @Group T) (m : M (@Group T) Er A) : M Keyhive Er A := fun k =>
  let '(r, g') := m (with_stores k g) in (r, set_groups (<[id := g']> (kh_groups k)) (take_stores g' k)).
Definition at_doc {Er A} (id : Identifier) (d : Document T) (m : M (Document T) Er A) : M Keyhive Er A := fun k =>
  let '(r, d') := m (Document.set_group (with_stores k (doc_group d)) d) in (r, set_docs (<[id := d']> (kh_docs k)) (take_stores (doc_group d') k)).

Definition cell_value (k : Keyhive) (c : IndividualCell) : Individual :=
  match c with ActiveCell => ac_individual (kh_active k) | OwnCell i => i end.

(** *** The public agent

    [public_sk] is the signing key of 32 zero bytes. *)
Definition public_secret : ShareSecretKey := mkShareSecretKey (repeat Byte.x00 32).
Definition public_individual (public_sk : SigningKey) : res Empty_set Individual :=
  match try_sign_sync public_sk (mkAddKeyOp (share_key public_secret)) with
  | Ok op => let s := PrekeyState_new (KeyAdd op) in Ok (mkIndividual (ed_verifying_key public_sk) (build s) s)
  | Diverge => Diverge
  | _ => Panic
  end.

(** [Keyhive::generate] *)
Definition kh_generate (public_sk : SigningKey) (signer : AsyncSigner) (csprng : Rng) : res SigningError Keyhive * Rng :=
  let '(generated, csprng) := Active_generate signer csprng in
  (let* inner_active := generated in
   let* public := no_error (public_individual public_sk) in
   Ok (mkKeyhive (signer_verifying_key signer) inner_active
         (<[active_id inner_active := ActiveCell]> {[ed_verifying_key public_sk := OwnCell public]}) ∅ ∅ ∅ rev_store_new [] []), csprng).

(** ** Looking up *)

Definition get_agent (id : Identifier) (k : Keyhive) : option Agent :=
  if decide (id = active_id (kh_active k)) then Some (AgentActive id)
  else match kh_docs k !! id with
       | Some _ => Some (AgentDocument id)
       | None =>
           match kh_groups k !! id with
           | Some _ => Some (AgentGroup id)
           | None => match kh_individuals k !! id with Some _ => Some (AgentIndividual id) | None => None end
           end
       end.

Definition register_individual (i : Individual) (k : Keyhive) : bool * Keyhive :=
  match kh_individuals k !! individual_id i with
  | Some _ => (false, k)
  | None => (true, set_individuals (<[individual_id i := OwnCell i]> (kh_individuals k)) k)
  end.

Definition get_delegation (h : Digest (SignedDelegation T)) (k : Keyhive) : option (SignedDelegation T) := kh_delegations k !! h.
Definition get_revocation (h : Digest (SignedRevocation T)) (k : Keyhive) : option (SignedRevocation T) := rs_revocations (kh_revocations k) !! h.

(** ** From static operations *)

Definition resolve_proof (k : Keyhive) (proof : option (Digest (SignedDelegation T))) : res (StaticEventConversionError T) (option (SignedDelegation T)) :=
  match proof with
  | Some h => let* d := ok_orR (get_delegation h k) (ConversionMissingDelegation h) in Ok (Some d)
  | None => Ok None
  end.
Fixpoint resolve_revocations {Er} (missing : Digest (SignedRevocation T) -> Er) (k : Keyhive) (hs : list (Digest (SignedRevocation T))) (acc : list (SignedRevocation T)) :
    res Er (list (SignedRevocation T)) :=
  match hs with
  | [] => Ok acc
  | h :: hs' => let* r := ok_orR (get_revocation h k) (missing h) in resolve_revocations missing k hs' (acc ++ [r])
  end.

Definition static_delegation_to_delegation (static_dlg : Signed (StaticDelegation T)) (k : Keyhive) : res (StaticEventConversionError T) (Delegation T) :=
  let sd := payload static_dlg in
  let* proof := resolve_proof k (sd_proof sd) in
  let* delegate := ok_orR (get_agent (sd_delegate sd) k) (ConversionUnknownAgent (sd_delegate sd)) in
  let* after_revocations := resolve_revocations ConversionMissingRevocation k (sd_after_revocations sd) [] in
  Ok (mkDelegation delegate (sd_can sd) proof after_revocations (sd_after_content sd)).

Definition static_revocation_to_revocation (static_rev : Signed (StaticRevocation T)) (k : Keyhive) : res (StaticEventConversionError T) (Revocation T) :=
  let sr := payload static_rev in
  let* revoke := ok_orR (get_delegation (sr_revoke sr) k) (ConversionMissingDelegation (sr_revoke sr)) in
  let* proof := resolve_proof k (sr_proof sr) in
  Ok (mkRevocation revoke proof (sr_after_content sr)).

(** ** Receiving prekeys *)

Definition set_id_or_indie (i : IdOrIndividual) (g : @Group T) : @Group T :=
  mkGroup i (members g) (active_revocations g) (g_state g) (notified g).

(** The prekeys of a group or document: of the individual it was, or a new one. *)
Definition group_receive_prekey_op (op : KeyOp) (g : @Group T) : res ReceivePrekeyOpError (@Group T) :=
  match id_or_indie g with
  | OrIndividual indie => let* indie := receive_prekey_op op indie in Ok (set_id_or_indie (OrIndividual indie) g)
  | IdOrGroup _ => Ok (set_id_or_indie (OrIndividual (Individual_new op)) g)
  end.

Definition prekey_op_to (op : KeyOp) (agent : Agent) : M Keyhive ReceivePrekeyOpError unit := fun k =>
  match agent with
  | AgentActive _ =>
      match receive_prekey_op op (ac_individual (kh_active k)) with
      | Ok i => (Ok tt, set_active (set_individual i (kh_active k)) k)
      | Err e => (Err e, k)
      | Panic => (Panic, k)
      | Diverge => (Diverge, k)
      end
  | AgentIndividual id =>
      match kh_individuals k !! id with
      | Some c =>
          match receive_prekey_op op (cell_value k c) with
          | Ok i =>
              (Ok tt, match c with
                      | ActiveCell => set_active (set_individual i (kh_active k)) k
                      | OwnCell _ => set_individuals (<[id := OwnCell i]> (kh_individuals k)) k
                      end)
          | Err e => (Err e, k)
          | Panic => (Panic, k)
          | Diverge => (Diverge, k)
          end
      | None => (Ok tt, k)
      end
  | AgentGroup id =>
      match kh_groups k !! id with
      | Some g =>
          match group_receive_prekey_op op g with
          | Ok g => (Ok tt, set_groups (<[id := g]> (kh_groups k)) k)
          | Err e => (Err e, k)
          | Panic => (Panic, k)
          | Diverge => (Diverge, k)
          end
      | None => (Ok tt, k)
      end
  | AgentDocument id =>
      match kh_docs k !! id with
      | Some d =>
          match group_receive_prekey_op op (doc_group d) with
          | Ok g => (Ok tt, set_docs (<[id := Document.set_group g d]> (kh_docs k)) k)
          | Err e => (Err e, k)
          | Panic => (Panic, k)
          | Diverge => (Diverge, k)
          end
      | None => (Ok tt, k)
      end
  end.

(** The agent comes from the maps it is looked up in again, so the cases of an
    agent that is not there do not arise. *)
Definition kh_receive_prekey_op (op : KeyOp) : M Keyhive ReceivePrekeyOpError unit :=
  let id := key_issuer op in
  found <- gets (get_agent id) ;;
  match found with
  | Some agent => prekey_op_to op agent
  | None =>
      modify (fun k => (register_individual (Individual_new op) k).2) ;;
      prekey_op_to op (AgentIndividual id)
  end.

(** ** Receiving delegations and revocations *)

(** [promote_individual_to_group]: the delegations to the group, and the
    revocations of its delegations, are put in again. *)
Definition repoint_delegation (agent : Agent) (ds : CaMap (SignedDelegation T)) (x : Digest (SignedDelegation T) * SignedDelegation T) :
    CaMap (SignedDelegation T) :=
  let d := payload x.2 in
  if decide (delegate d = agent)
  then dlg_insert (mkSigned (mkDelegation agent (can d) (proof d) (after_revocations d) (after_content d)) (issuer x.2) (signature x.2)) ds
  else ds.
Definition repoint_revocation (group_id : Identifier) (ds : CaMap (SignedDelegation T)) (x : Digest (SignedRevocation T) * SignedRevocation T)
    (rs : RevocationStore T) : res Empty_set (RevocationStore T) :=
  let r := payload x.2 in
  if decide (dlg_subject_id (revoke r) = group_id) then
    let* revoked := expectR (ds !! Digest_hash (revoke r)) in
    let* p := expectR (rev_proof r) in
    Ok (rev_store_insert (mkSigned (mkRevocation revoked (ds !! Digest_hash p) (rev_after_content r)) (issuer x.2) (signature x.2)) rs)
  else Ok rs.

Definition promote_individual_to_group {Er} (indie : Individual) (head : SignedDelegation T) : M Keyhive Er (@Group T) :=
  k <- get ;;
  g <- liftR (no_error (from_individual indie head (kh_delegations k) (kh_revocations k) [])) ;;
  modify (take_stores g) ;;
  k <- get ;;
  let ds := foldl (repoint_delegation (AgentGroup (group_id g))) (kh_delegations k) (map_to_list (kh_delegations k)) in
  modify (set_stores ds (kh_revocations k)) ;;
  rs <- liftR (no_error (foldR (fun rs x => repoint_revocation (group_id g) ds x rs) (map_to_list (rs_revocations (kh_revocations k))) (kh_revocations k))) ;;
  modify (set_stores ds rs) ;;
  ret g.

Abbreviation ReceiveM := (M Keyhive (ReceiveStaticDelegationError T)).

(** The head of a group that is not known yet. *)
Definition new_membered (subject_id : Identifier) (delegation : SignedDelegation T) : ReceiveM unit :=
  k <- get ;;
  g <- liftR (no_error (Group_new subject_id delegation (kh_delegations k) (kh_revocations k) [])) ;;
  modify (take_stores g) ;;
  match after_content (payload delegation) !! subject_id with
  | Some (head :: tail) =>
      d <- liftR (res_map_err CgkaInitError (from_group g (head :: tail))) ;;
      modify (fun k => set_docs (<[doc_id d := d]> (kh_docs k)) k)
  | _ => modify (fun k => set_groups (<[group_id g := g]> (kh_groups k)) k)
  end.

(** Where a verified delegation goes. *)
Definition deliver_delegation (delegation : SignedDelegation T) : ReceiveM unit :=
  let subject_id := dlg_subject_id delegation in
  k <- get ;;
  match kh_groups k !! subject_id with
  | Some g => at_group subject_id g (map_err GroupReceiveError (receive_delegation delegation)) ;; ret tt
  | None =>
      match kh_docs k !! subject_id with
      | Some d => at_doc subject_id d (map_err GroupReceiveError (doc_receive_delegation delegation)) ;; ret tt
      | None =>
          match kh_individuals k !! subject_id with
          | Some c =>
              modify (fun k => set_individuals (delete subject_id (kh_individuals k)) k) ;;
              promote_individual_to_group (cell_value k c) delegation ;;
              ret tt
          | None => new_membered subject_id delegation
          end
      end
  end.

Definition kh_receive_delegation (static_dlg : Signed (StaticDelegation T)) : ReceiveM unit :=
  k <- get ;;
  if bool_decide (is_Some (kh_delegations k !! coerce (Digest_hash static_dlg))) then ret tt
  else
    liftR (res_map_err StaticVerificationError (try_verify static_dlg)) ;;
    payload <- readM (fun k => res_map_err from_conversion (static_delegation_to_delegation static_dlg k)) ;;
    readM (fun k => resolve_revocations MissingRevocationDependency k (sd_after_revocations (Signed.payload static_dlg)) []) ;;
    deliver_delegation (mkSigned payload (issuer static_dlg) (signature static_dlg)).

(** The last branch takes the lock of [groups] that the lookup at the top of the
    chain of [if let] still holds, after it has recorded the revoked delegation. *)
Definition deliver_revocation (revocation : SignedRevocation T) : ReceiveM unit :=
  let id := rev_subject_id revocation in
  k <- get ;;
  match kh_groups k !! id with
  | Some g => at_group id g (map_err GroupReceiveError (receive_revocation revocation)) ;; ret tt
  | None =>
      match kh_docs k !! id with
      | Some d => at_doc id d (map_err GroupReceiveError (doc_receive_revocation revocation)) ;; ret tt
      | None =>
          match kh_individuals k !! id with
          | Some c =>
              modify (fun k => set_individuals (delete id (kh_individuals k)) k) ;;
              g <- promote_individual_to_group (cell_value k c) (revoke (payload revocation)) ;;
              k <- get ;;
              let '(r, g) := receive_revocation revocation (with_stores k g) in
              modify (take_stores g) ;;
              liftR (res_map_err GroupReceiveError r) ;;
              ret tt
          | None =>
              g <- liftR (no_error (Group_new (issuer revocation) (revoke (payload revocation)) (kh_delegations k) (kh_revocations k) [])) ;;
              modify (take_stores g) ;;
              diverge
          end
      end
  end.

Definition kh_receive_revocation (static_rev : Signed (StaticRevocation T)) : ReceiveM unit :=
  k <- get ;;
  if bool_decide (is_Some (rs_revocations (kh_revocations k) !! coerce (Digest_hash static_rev))) then ret tt
  else
    liftR (res_map_err StaticVerificationError (try_verify static_rev)) ;;
    payload <- readM (fun k => res_map_err from_conversion (static_revocation_to_revocation static_rev k)) ;;
    deliver_revocation (mkSigned payload (issuer static_rev) (signature static_rev)).

(** ** Receiving operations of the key agreement *)

Definition document_of (id : TreeId) : Identifier := mkVerifyingKey (TreeId_bytes id).

(** The secret for an addition of this agent, or of the public one. *)
Definition invite_secret (public_sk : SigningKey) (op : CgkaOperation) (k : Keyhive) : res ReceiveCgkaOpError (option ShareSecretKey) :=
  match op with
  | Add added_id pk _ _ _ _ =>
      let added_id := individual_of added_id in
      if decide (active_id (kh_active k) = added_id) then
        let* sk := ok_orR (prekey_pairs (kh_active k) !! pk) (UnknownInvitePrekey pk) in Ok (Some sk)
      else
        let* public := no_error (public_individual public_sk) in
        if decide (individual_id public = added_id) then Ok (Some public_secret) else Ok None
  | _ => Ok None
  end.

Definition receive_cgka_op (public_sk : SigningKey) (signed_op : SignedOp) : M Keyhive ReceiveCgkaOpError unit :=
  liftR (res_map_err CgkaVerificationError (try_verify signed_op)) ;;
  let doc_id := document_of (op_doc_id (payload signed_op)) in
  k <- get ;;
  d <- liftR (ok_orR (kh_docs k !! doc_id) (UnknownDocument doc_id)) ;;
  secret <- readM (invite_secret public_sk (payload signed_op)) ;;
  merged <- at_doc doc_id d (map_err ReceiveCgkaError
    (match secret with Some sk => merge_cgka_invite_op signed_op sk | None => merge_cgka_op signed_op end)) ;;
  whenM merged (modify (tell_cgka signed_op)).

(** ** Receiving events *)

Definition receive_static_event (public_sk : SigningKey) (e : StaticEvent T) : M Keyhive (ReceiveStaticEventError T) unit :=
  match e with
  | PrekeysExpanded op => map_err StaticPrekeyOpError (kh_receive_prekey_op (KeyAdd op))
  | PrekeyRotated op => map_err StaticPrekeyOpError (kh_receive_prekey_op (KeyRotate op))
  | StaticCgkaOperation op => map_err StaticCgkaOpError (receive_cgka_op public_sk op)
  | Delegated d => map_err StaticMembershipError (kh_receive_delegation d)
  | Revoked r => map_err StaticMembershipError (kh_receive_revocation r)
  end.

(** *** Ingesting *)

(** [unique_events.entry(hash).or_insert(event)] *)
Definition unique_events (events : list (StaticEvent T)) : gmap (Digest (StaticEvent T)) (StaticEvent T) :=
  foldl (fun m e => match m !! Digest_hash e with Some _ => m | None => <[Digest_hash e := e]> m end) ∅ events.

(** One pass over the events: those that are accepted, and prekey operations
    that are refused, are done with. *)
Fixpoint ingest_epoch (public_sk : SigningKey) (epoch next_epoch : list (StaticEvent T)) : M Keyhive Empty_set (list (StaticEvent T)) :=
  match epoch with
  | [] => ret next_epoch
  | event :: epoch' => fun k =>
      match receive_static_event public_sk event k with
      | (Ok _, k') => ingest_epoch public_sk epoch' next_epoch k'
      | (Err (StaticPrekeyOpError _), k') => ingest_epoch public_sk epoch' next_epoch k'
      | (Err _, k') => ingest_epoch public_sk epoch' (next_epoch ++ [event]) k'
      | (Panic, k') => (Panic, k')
      | (Diverge, k') => (Diverge, k')
      end
  end.

(** The [loop]: until nothing is left, or a pass accepts nothing. *)
Fixpoint ingest_loop (public_sk : SigningKey) (fuel : nat) (epoch : list (StaticEvent T)) : M Keyhive Empty_set (list (StaticEvent T)) :=
  match fuel with
  | O => diverge
  | Datatypes.S fuel' =>
      next_epoch <- ingest_epoch public_sk epoch [] ;;
      match next_epoch with
      | [] => ret []
      | _ =>
          if decide (length next_epoch = length epoch) then modify (set_pending next_epoch) ;; ret next_epoch
          else ingest_loop public_sk fuel' next_epoch
      end
  end.

(** Every pass but the last leaves fewer events. [into_values] lists the values of
    a hash map, in no specified order. *)
Definition ingest_unsorted_static_events (into_values : gmap (Digest (StaticEvent T)) (StaticEvent T) -> list (StaticEvent T))
    (public_sk : SigningKey) (events : list (StaticEvent T)) : M Keyhive Empty_set (list (StaticEvent T)) :=
  k <- get ;;
  let epoch := into_values (unique_events (events ++ kh_pending_events k)) in
  ingest_loop public_sk (Datatypes.S (length epoch)) epoch.
End Keyhives.
Arguments Keyhive T {_ _} : rename.
