(* ===== verification/KeyhiveStores.v ===== *)
(** * The stores a keyhive's groups share

    Every operation in the stores is under its own digest, was signed by its
    issuer, and has what it depends on beside it.  Recording an operation whose
    dependencies are there keeps it so. *)

From S2P Require Import Prelude TreeMath Crypto Keys Signed CaMap OpGraph.
From S2P Require Import Individual Membership MemberSort MemberExplore GroupState Group GroupProps.

Section Stores.
Context `{P : Primitives} `{E : Ed25519} {T : Type} `{EqDecision T}.
Context `{Ssd : !Serialize (Signed (StaticDelegation T)), Ssr : !Serialize (Signed (StaticRevocation T))}.
Context `{Spd : !Serialize (StaticDelegation T), Spr : !Serialize (StaticRevocation T)}.
Abbreviation Dlgs := (CaMap (SignedDelegation T)).
Abbreviation Revs := (CaMap (SignedRevocation T)).

Definition held (ds : Dlgs) (rs : Revs) (op : MembershipOperation T) : Prop :=
  match op with
  | OpDelegation d => ds !! Digest_hash d = Some d
  | OpRevocation r => rs !! Digest_hash r = Some r
  end.
Definition op_verified (op : MembershipOperation T) : Prop :=
  match op with
  | OpDelegation d => try_verify (Signed_map dlg_static d) = Ok tt
  | OpRevocation r => try_verify (Signed_map rev_static r) = Ok tt
  end.

Record stores_ok (ds : Dlgs) (rs : Revs) : Prop := {
  so_delegations : ca_wf ds;
  so_revocations : ca_wf rs;
  so_closed op op' : held ds rs op -> op' ∈ after_auth op -> held ds rs op';
  so_verified op : held ds rs op -> op_verified op;
}.

Lemma stores_ok_empty : stores_ok ∅ ∅.
Proof. constructor; [apply map_Forall_empty..| |]; intros [d|r]; cbn; by rewrite lookup_empty. Qed.

Lemma held_reaches ds rs heads op : stores_ok ds rs -> (forall x, x ∈ heads -> held ds rs x) -> reaches heads op -> held ds rs op.
Proof. intros Hok Hh. induction 1 as [op Hin|op p _ IH Hp]; [auto|]. by apply (so_closed _ _ Hok op). Qed.

Lemma held_lineage ds rs d p : stores_ok ds rs -> (forall x, x ∈ after_auth (OpDelegation d) -> held ds rs x) ->
  p ∈ proof_lineage (payload d) -> held ds rs (OpDelegation p).
Proof.
  intros Hok. remember (dlg_size (payload d)) as n eqn:Hn. revert d Hn. induction n as [n IH] using lt_wf_ind. intros d -> Hd Hp.
  assert (forall p0, proof (payload d) = Some p0 -> held ds rs (OpDelegation p0) /\ (dlg_size (payload p0) < dlg_size (payload d))%nat) as Hpf.
  { intros p0 Hp0. pose proof (after_auth_proof d p0 Hp0) as Hin. split; [by apply Hd|]. by apply after_auth_smaller in Hin. }
  destruct d as [[a c [p0|] revs content] i s]; cbn in Hp; [|by apply not_elem_of_nil in Hp]. destruct (Hpf p0 eq_refl) as [Hh Hlt].
  apply elem_of_cons in Hp as [->|Hp]; [done|]. eapply (IH _ Hlt p0 eq_refl); [|done]. intros x Hx. by apply (so_closed _ _ Hok (OpDelegation p0)).
Qed.

(** *** Recording *)

Lemma insert_held ds rs d : held ds rs (OpDelegation d) -> dlg_insert d ds = ds.
Proof. intros Hd. by apply insert_id. Qed.
Lemma rev_insert_held ds rs r : held ds (rs_revocations rs) (OpRevocation r) -> rs_revocations (rev_store_insert r rs) = rs_revocations rs.
Proof. intros Hr. by apply insert_id. Qed.

Lemma held_insert_dlg ds rs d op : ds !! Digest_hash d = None -> held (dlg_insert d ds) rs op -> op = OpDelegation d \/ held ds rs op.
Proof.
  intros Hn. destruct op as [x|r]; cbn; [|by right]. unfold dlg_insert. cbn. intros [[_ ->]|[_ ?]]%lookup_insert_Some; auto.
Qed.
Lemma insert_dlg_held ds rs d op : ds !! Digest_hash d = None -> held ds rs op -> held (dlg_insert d ds) rs op.
Proof.
  intros Hn. destruct op as [x|r]; cbn; [|done]. unfold dlg_insert. cbn. intros Hx. rewrite lookup_insert_ne; [done|]. intros Heq. rewrite Heq in Hn. congruence.
Qed.

Lemma stores_ok_insert_dlg ds rs d : stores_ok ds rs -> ds !! Digest_hash d = None \/ held ds rs (OpDelegation d) ->
  (forall x, x ∈ after_auth (OpDelegation d) -> held ds rs x) -> op_verified (OpDelegation d) -> stores_ok (dlg_insert d ds) rs.
Proof.
  intros Hok [Hn|Hin] Hd Hv; [|by rewrite (insert_held ds rs)]. destruct Hok as [H1 H2 H3 H4]. constructor; [by apply ca_wf_insert|done| |].
  - intros op op' [->|Hop]%held_insert_dlg Hin; [by apply insert_dlg_held, Hd|by eapply insert_dlg_held, H3|done].
  - intros op [->|Hop]%held_insert_dlg; auto.
Qed.

Lemma held_insert_rev ds rs r op : held ds (rs_revocations (rev_store_insert r rs)) op -> op = OpRevocation r \/ held ds (rs_revocations rs) op.
Proof. destruct op as [x|x]; cbn; [by right|]. intros [[_ ->]|[_ ?]]%lookup_insert_Some; auto. Qed.
Lemma insert_rev_held ds rs r op : rs_revocations rs !! Digest_hash r = None -> held ds (rs_revocations rs) op -> held ds (rs_revocations (rev_store_insert r rs)) op.
Proof.
  intros Hn. destruct op as [x|x]; cbn; [done|]. intros Hx. rewrite lookup_insert_ne; [done|]. intros Heq. rewrite Heq in Hn. congruence.
Qed.
Lemma stores_ok_insert_rev ds rs r : stores_ok ds (rs_revocations rs) -> rs_revocations rs !! Digest_hash r = None \/ held ds (rs_revocations rs) (OpRevocation r) ->
  (forall x, x ∈ after_auth (OpRevocation r) -> held ds (rs_revocations rs) x) -> op_verified (OpRevocation r) -> stores_ok ds (rs_revocations (rev_store_insert r rs)).
Proof.
  intros Hok [Hn|Hin] Hd Hv; [|by rewrite (rev_insert_held ds)]. destruct Hok as [H1 H2 H3 H4]. constructor; [done|by apply ca_wf_insert| |].
  - intros op op' [->|Hop]%held_insert_rev Hin; [by apply insert_rev_held, Hd|by eapply insert_rev_held, H3].
  - intros op [->|Hop]%held_insert_rev; auto.
Qed.

(** *** Creating a group's state *)

Lemma record_heads_held fuel : forall heads ds rs, (length heads <= fuel)%nat -> (forall h, h ∈ heads -> held ds (rs_revocations rs) (OpDelegation h)) ->
  record_heads fuel heads ds rs = Some (ds, rs).
Proof.
  induction fuel as [|fuel IH]; intros [|h heads] ds rs Hf Hh; cbn [record_heads length] in *; try done; [lia|].
  assert (dlg_contains_value h ds = true) as ->; [|apply IH; [lia|intros x Hx; apply Hh; by right]].
  apply bool_decide_eq_true. exists h. apply (Hh h). left.
Qed.

Lemma record_revocations_held ds (revs : list (SignedRevocation T)) : forall st, (forall r, r ∈ revs -> held ds (rs_revocations st.1) (OpRevocation r)) ->
  rs_revocations (foldl record_revocation st revs).1 = rs_revocations st.1 /\
  forall h, h ∈ (foldl record_revocation st revs).2 -> h ∈ st.2 \/ exists r, r ∈ revs /\ rev_proof (payload r) = Some h.
Proof.
  induction revs as [|r revs IH]; intros st Hr; cbn [foldl]; [auto|].
  assert (rs_revocations (record_revocation st r).1 = rs_revocations st.1) as Heq by (apply (rev_insert_held ds), Hr; left).
  destruct (IH (record_revocation st r)) as [H1 H2]; [intros x Hx; rewrite Heq; apply Hr; by right|]. split; [by rewrite H1|].
  intros h [Hh|(x & Hx & Hp)]%H2; [|right; exists x; split; [by right|done]].
  unfold record_revocation in Hh. cbn in Hh. destruct (rev_proof (payload r)) as [p|] eqn:Hp; [|auto].
  apply elem_of_cons in Hh as [->|Hh]; [|auto]. right. exists r. split; [left|done].
Qed.

Lemma record_lineage_held ds (lineage : list (SignedDelegation T)) : forall st, (forall op op', held ds (rs_revocations st.2.1) op -> op' ∈ after_auth op -> held ds (rs_revocations st.2.1) op') ->
  (forall p, p ∈ lineage -> held ds (rs_revocations st.2.1) (OpDelegation p)) -> (forall h, h ∈ st.2.2 -> held ds (rs_revocations st.2.1) (OpDelegation h)) ->
  (forall p, p ∈ lineage -> dlg_insert p st.1 = st.1) ->
  let st' := foldl record_lineage st lineage in
  st'.1 = st.1 /\ rs_revocations st'.2.1 = rs_revocations st.2.1 /\ forall h, h ∈ st'.2.2 -> held ds (rs_revocations st.2.1) (OpDelegation h).
Proof.
  induction lineage as [|p lineage IH]; intros st Hc Hp Hh Hi; cbn [foldl]; [auto|].
  assert (held ds (rs_revocations st.2.1) (OpDelegation p)) as Hp0 by (apply Hp; left).
  destruct (record_revocations_held ds (after_revocations (payload p)) st.2) as [H1 H2].
  { intros r Hr. apply (Hc _ _ Hp0). unfold after_auth. apply elem_of_app. right. apply list_elem_of_fmap. eauto. }
  set (st1 := record_lineage st p) in *. assert (st1.1 = st.1) as E1 by (apply Hi; left).
  assert (rs_revocations st1.2.1 = rs_revocations st.2.1) as E2 by exact H1.
  destruct (IH st1) as (J1 & J2 & J3); rewrite ?E1, ?E2; auto.
  - intros q Hq. apply Hp. by right.
  - intros h [Hin|(r & Hr & Hpr)]%H2; [auto|]. apply (Hc (OpRevocation r)); [|by apply after_auth_rev_proof].
    apply (Hc _ _ Hp0). unfold after_auth. apply elem_of_app. right. apply list_elem_of_fmap. eauto.
  - intros q Hq. apply Hi. by right.
  - rewrite E1 in J1. rewrite E2 in J2, J3. auto.
Qed.

Lemma heads_size_length (hs : list (SignedDelegation T)) : (length hs <= sum_list_with (fun d => dlg_size (payload d)) hs)%nat.
Proof. induction hs as [|h hs IH]; cbn; [lia|]. pose proof (dlg_size_eq (payload h)). lia. Qed.

Lemma GroupState_new_held d ds rs : stores_ok ds (rs_revocations rs) -> (forall x, x ∈ after_auth (OpDelegation d) -> held ds (rs_revocations rs) x) ->
  ds !! Digest_hash d = None \/ held ds (rs_revocations rs) (OpDelegation d) ->
  exists rs', GroupState_new d ds rs = Some (mkGroupState (issuer d) (dlg_insert d ds) (dlg_insert d ∅) rs' rev_store_new) /\ rs_revocations rs' = rs_revocations rs.
Proof.
  intros Hok Hd [Hn|Hin]; unfold GroupState_new.
  - pose proof (dlg_size_eq (payload d)) as Hsz. destruct (dlg_size (payload d)) as [|fuel] eqn:Hfuel; [lia|]. cbn [record_heads].
    assert (dlg_contains_value d ds = false) as ->.
    { apply bool_decide_eq_false. rewrite Hn. by intros []. }
    destruct (record_lineage_held ds (proof_lineage (payload d)) (dlg_insert d ds, (rs, []))) as (H1 & H2 & H3); cbn [fst snd].
    { apply Hok. }
    { intros p Hp. by apply (held_lineage ds (rs_revocations rs) d). }
    { intros h []%not_elem_of_nil. }
    { intros p Hp. apply (insert_held _ (rs_revocations rs)), insert_dlg_held; [done|]. by apply (held_lineage ds (rs_revocations rs) d). }
    pose proof (record_lineage_size (dlg_insert d ds, (rs, [])) (proof_lineage (payload d))) as Hs. pose proof (lineage_revs_size (payload d)) as Hl.
    destruct (foldl record_lineage _ _) as [ds1 [rs1 hs1]]. cbn [fst snd] in *. subst ds1. pose proof (heads_size_length hs1). cbn in Hs.
    rewrite record_heads_held; [|lia|].
    + exists rs1. done.
    + intros h Hh. rewrite H2. apply insert_dlg_held; auto.
  - rewrite record_heads_held; [|pose proof (dlg_size_eq (payload d)); cbn; lia|by intros h ->%list_elem_of_singleton]. exists rs. by rewrite (insert_held ds (rs_revocations rs)).
Qed.
End Stores.
