(* ===== verification/KeyhiveSafe.v ===== *)
(** * What a keyhive holds is genuine
    ([keyhive/keyhive_core/src/keyhive.rs])

    The invariant of a keyhive under everything it may be sent: its maps are
    under the ids of what they hold, the heads of its groups are in the shared
    stores, and the stores hold signed operations with their dependencies. *)

From S2P Require Import Prelude Keeps TreeMath Crypto Keys SecretStore Tree PathCrypto Signed CaMap OpGraph AppSecret Cgka.
From S2P Require Import Individual Membership MemberSort MemberExplore GroupState Group GroupProps GroupChange Active Document Keyhive KeyhiveStores.

Local Open Scope monad_scope.

(** ** Groups *)

Section Groups.
Context `{P : Primitives} `{E : Ed25519} {T : Type} `{EqDecision T}.
Context `{Ssd : !Serialize (Signed (StaticDelegation T)), Ssr : !Serialize (Signed (StaticRevocation T))}.
Context `{Spd : !Serialize (StaticDelegation T), Spr : !Serialize (StaticRevocation T)}.

(** [op] may be recorded: what it depends on is there, and it is not there in
    another form. *)
Record recordable (ds : CaMap (SignedDelegation T)) (rs : CaMap (SignedRevocation T)) (op : MembershipOperation T) : Prop := {
  rc_after x : x ∈ after_auth op -> held ds rs x;
  rc_verified : op_verified op;
  rc_once : held ds rs op \/ match op with OpDelegation d => ds !! Digest_hash d = None | OpRevocation r => rs !! Digest_hash r = None end;
}.

Definition own_held (g : @Group T) : MembershipOperation T -> Prop :=
  held (gs_delegations (g_state g)) (rs_revocations (gs_revocations (g_state g))).
Definition own_ok (g : @Group T) : Prop := stores_ok (gs_delegations (g_state g)) (rs_revocations (gs_revocations (g_state g))).
Definition own_recordable (g : @Group T) : MembershipOperation T -> Prop :=
  recordable (gs_delegations (g_state g)) (rs_revocations (gs_revocations (g_state g))).

(** A group with the stores it is called with. *)
Record group_wf (id : Identifier) (g : @Group T) : Prop := {
  gw_id : group_id g = id;
  gw_stores : own_ok g;
  gw_heads op : op ∈ group_heads g -> own_held g op;
}.
Definition extends (g g' : @Group T) : Prop := forall op, own_held g op -> own_held g' op.

Lemma receive_delegation_state d (g : @Group T) :
  g_state (receive_delegation d g).2 = g_state g \/ g_state (receive_delegation d g).2 = state_after d (g_state g).
Proof.
  unfold receive_delegation, bindM, zoom. pose proof (add_delegation_spec d (g_state g)) as Hs. destruct (add_delegation d (g_state g)) as [[h|e| |] s]; try done.
  - destruct Hs as (_ & _ & ->). right. unfold rebuild, bindM, get, loop_result, modify. by destruct (rebuild_heads _ _ _).
  - destruct Hs as [_ ->]. by left.
Qed.
Definition state_after_rev (r : SignedRevocation T) (s : GroupState T) : GroupState T :=
  mkGroupState (gs_id s) (gs_delegations s) (delegation_heads s) (rev_store_insert r (gs_revocations s)) (rev_store_insert r (revocation_heads s)).
Lemma receive_revocation_state r (g : @Group T) :
  g_state (receive_revocation r g).2 = g_state g \/ g_state (receive_revocation r g).2 = state_after_rev r (g_state g).
Proof.
  unfold receive_revocation, bindM, modify, zoom. cbn [notify g_state].
  pose proof (add_revocation_spec r (g_state g)) as Hs. destruct (add_revocation r (g_state g)) as [[h|e| |] s]; try done.
  - destruct Hs as (_ & _ & ->). right. unfold rebuild, bindM, get, loop_result, modify. by destruct (rebuild_heads _ _ _).
  - destruct Hs as [_ ->]. by left.
Qed.

Lemma group_wf_state id (g g' : @Group T) : g_state g' = g_state g -> group_wf id g -> group_wf id g'.
Proof. intros Heq [H1 H2 H3]. unfold group_id, own_ok, group_heads, own_held in *. constructor; unfold group_id, own_ok, group_heads, own_held; by rewrite Heq. Qed.

Lemma extends_insert_dlg ds (rs : CaMap (SignedRevocation T)) d op : recordable ds rs (OpDelegation d) -> held ds rs op -> held (dlg_insert d ds) rs op.
Proof. intros [_ _ [Hin|Hn]] Hop; [by rewrite (insert_held ds rs)|by apply insert_dlg_held]. Qed.
Lemma extends_insert_rev ds (rs : RevocationStore T) r op : recordable ds (rs_revocations rs) (OpRevocation r) ->
  held ds (rs_revocations rs) op -> held ds (rs_revocations (rev_store_insert r rs)) op.
Proof. intros [_ _ [Hin|Hn]] Hop; [by rewrite (rev_insert_held ds)|by apply insert_rev_held]. Qed.
Lemma recorded_dlg ds (rs : CaMap (SignedRevocation T)) d : stores_ok ds rs -> recordable ds rs (OpDelegation d) ->
  stores_ok (dlg_insert d ds) rs /\ held (dlg_insert d ds) rs (OpDelegation d).
Proof. intros Hok [Ha Hv Ho]. split; [apply stores_ok_insert_dlg; naive_solver|]. apply lookup_insert_eq. Qed.
Lemma recorded_rev ds (rs : RevocationStore T) r : stores_ok ds (rs_revocations rs) -> recordable ds (rs_revocations rs) (OpRevocation r) ->
  stores_ok ds (rs_revocations (rev_store_insert r rs)) /\ held ds (rs_revocations (rev_store_insert r rs)) (OpRevocation r).
Proof. intros Hok [Ha Hv Ho]. split; [apply stores_ok_insert_rev; naive_solver|]. apply lookup_insert_eq. Qed.

Lemma receive_delegation_wf id d (g : @Group T) : group_wf id g -> own_recordable g (OpDelegation d) ->
  group_wf id (receive_delegation d g).2 /\ extends g (receive_delegation d g).2.
Proof.
  intros Hg Hd. destruct (receive_delegation_state d g) as [Heq|Heq].
  { split; [by eapply group_wf_state|]. intros op. unfold own_held. by rewrite Heq. }
  destruct Hg as [H1 H2 H3]. destruct (recorded_dlg _ _ _ H2 Hd) as [Hok Hin]. split; [constructor|]; unfold extends, own_ok, own_held, group_id in *; rewrite ?Heq; cbn [state_after state_after_rev gs_id gs_delegations gs_revocations]; auto.
  - intros op Hop. destruct (heads_after_known d g op) as [->|Hold]; [|done|].
    + unfold group_heads in *. rewrite ?Heq in Hop. done.
    + apply extends_insert_dlg; auto.
  - intros op Hop. by apply extends_insert_dlg.
Qed.

Lemma receive_revocation_wf id r (g : @Group T) : group_wf id g -> own_recordable g (OpRevocation r) ->
  group_wf id (receive_revocation r g).2 /\ extends g (receive_revocation r g).2.
Proof.
  intros Hg Hr. destruct (receive_revocation_state r g) as [Heq|Heq].
  { split; [by eapply group_wf_state|]. intros op. unfold own_held. by rewrite Heq. }
  destruct Hg as [H1 H2 H3]. destruct (recorded_rev _ _ _ H2 Hr) as [Hok Hin]. split; [constructor|]; unfold extends, own_ok, own_held, group_id in *; rewrite ?Heq; cbn [state_after state_after_rev gs_id gs_delegations gs_revocations]; auto.
  - intros op Hop. unfold group_heads in Hop. rewrite Heq in Hop. cbn [state_after_rev delegation_heads revocation_heads] in Hop.
    apply heads_of_elem in Hop as [(k & x & Hx & ->)|(k & x & Hx & ->)].
    + apply extends_insert_rev, H3; [done|]. apply heads_of_elem. left. by exists k, x.
    + cbn in Hx. apply lookup_insert_Some in Hx as [[_ <-]|[_ Hx]]; [done|]. apply extends_insert_rev, H3; [done|]. apply heads_of_elem. right. by exists k, x.
  - intros op Hop. by apply extends_insert_rev.
Qed.
End Groups.

(** ** Keyhives *)

Section Keyhives.
Context `{P : Primitives} `{E : Ed25519} {T : Type} `{Countable T}.
Context `{Ssd : !Serialize (Signed (StaticDelegation T)), Ssr : !Serialize (Signed (StaticRevocation T))}.
Context `{Spd : !Serialize (StaticDelegation T), Spr : !Serialize (StaticRevocation T)}.
Context `{Sop : !Serialize CgkaOperation, Ssop : !Serialize (Signed CgkaOperation)}.
Context `{Ssk : !Serialize ShareSecretKey, Spcs : !Serialize PcsKey}.
Context `{Sadd : !Serialize AddKeyOp, Srot : !Serialize RotateKeyOp, Skop : !Serialize KeyOp, Sev : !Serialize (StaticEvent T)}.

Definition kh_held (k : Keyhive T) : MembershipOperation T -> Prop := held (kh_delegations k) (rs_revocations (kh_revocations k)).

Record kh_wf (k : Keyhive T) : Prop := {
  kw_active : individual_id (ac_individual (kh_active k)) = active_id (kh_active k);
  kw_individuals id c : kh_individuals k !! id = Some c -> individual_id (cell_value k c) = id;
  kw_groups id g : kh_groups k !! id = Some g -> group_wf id (with_stores k g);
  kw_docs id d : kh_docs k !! id = Some d -> group_wf id (with_stores k (doc_group d));
  kw_stores : stores_ok (kh_delegations k) (rs_revocations (kh_revocations k));
}.

(** *** Conversions *)

Lemma get_agent_id id (k : Keyhive T) a : get_agent id k = Some a -> agent_identifier a = id.
Proof. unfold get_agent. repeat case_match; by intros [= <-]. Qed.

Lemma held_lookup_dlg k h d : kh_wf k -> get_delegation h k = Some d -> h = Digest_hash d /\ kh_held k (OpDelegation d).
Proof. intros Hk Hd. pose proof (so_delegations _ _ (kw_stores _ Hk) _ _ Hd) as ->. done. Qed.
Lemma held_lookup_rev k h r : kh_wf k -> get_revocation h k = Some r -> h = Digest_hash r /\ kh_held k (OpRevocation r).
Proof. intros Hk Hr. pose proof (so_revocations _ _ (kw_stores _ Hk) _ _ Hr) as ->. done. Qed.

Lemma resolve_proof_ok k h p : kh_wf k -> resolve_proof k h = Ok p ->
  h = Digest_hash <$> p /\ forall d, p = Some d -> kh_held k (OpDelegation d).
Proof.
  intros Hk. unfold resolve_proof. destruct h as [h|]; [|by intros [= <-]]. destruct (get_delegation h k) as [d|] eqn:Hd; cbn; [|done].
  intros [= <-]. apply held_lookup_dlg in Hd as [-> Hd]; [|done]. split; [done|]. by intros ? [= <-].
Qed.
Lemma resolve_revocations_ok {Er} (missing : _ -> Er) k hs : forall acc rs, kh_wf k -> resolve_revocations missing k hs acc = Ok rs ->
  exists more, rs = acc ++ more /\ hs = Digest_hash <$> more /\ forall r, r ∈ more -> kh_held k (OpRevocation r).
Proof.
  induction hs as [|h hs IH]; intros acc rs Hk; cbn [resolve_revocations].
  { intros [= <-]. exists []. rewrite app_nil_r. split_and!; [done|done|]. by intros r ?%not_elem_of_nil. }
  destruct (get_revocation h k) as [r|] eqn:Hr; cbn; [|done]. apply held_lookup_rev in Hr as [-> Hr]; [|done].
  intros Hres. destruct (IH _ _ Hk Hres) as (more & -> & -> & Hm). exists (r :: more). rewrite <- app_assoc. split_and!; [done|done|].
  intros x [->|Hx]%elem_of_cons; [done|by apply Hm].
Qed.

(** The converted operation has the static form it came from, hence its digest
    and signature, and its dependencies are held. *)
Lemma convert_delegation sd k d : kh_wf k -> static_delegation_to_delegation sd k = Ok d ->
  dlg_static d = payload sd /\ forall i s op, op ∈ after_auth (OpDelegation (mkSigned d i s)) -> kh_held k op.
Proof.
  intros Hk. unfold static_delegation_to_delegation. destruct (resolve_proof k (sd_proof (payload sd))) as [p| | |] eqn:Hp; try done. cbn.
  destruct (get_agent (sd_delegate (payload sd)) k) as [a|] eqn:Ha; cbn; [|done].
  destruct (resolve_revocations ConversionMissingRevocation k (sd_after_revocations (payload sd)) []) as [rs| | |] eqn:Hr; try done. cbn. intros [= <-].
  apply resolve_proof_ok in Hp as [Hp Hph]; [|done]. apply resolve_revocations_ok in Hr as (more & -> & Hr & Hrh); [|done]. apply get_agent_id in Ha. split.
  - destruct (payload sd) as [c pf dl revs content]. cbn in *. subst. by destruct p.
  - intros i s op. unfold after_auth. cbn. intros [(d & -> & Hd)%list_elem_of_fmap|(r & -> & Hd)%list_elem_of_fmap]%elem_of_app; [|auto].
    destruct p as [p0|]; cbn in Hd; [|by apply not_elem_of_nil in Hd]. apply list_elem_of_singleton in Hd as ->. auto.
Qed.
Lemma convert_revocation sr k r : kh_wf k -> static_revocation_to_revocation sr k = Ok r ->
  rev_static r = payload sr /\ forall i s op, op ∈ after_auth (OpRevocation (mkSigned r i s)) -> kh_held k op.
Proof.
  intros Hk. unfold static_revocation_to_revocation. destruct (get_delegation (sr_revoke (payload sr)) k) as [d|] eqn:Hd; cbn; [|done].
  destruct (resolve_proof k (sr_proof (payload sr))) as [p| | |] eqn:Hp; try done. cbn. intros [= <-].
  apply resolve_proof_ok in Hp as [Hp Hph]; [|done]. apply held_lookup_dlg in Hd as [Hd Hdh]; [|done]. split.
  - destruct (payload sr) as [rv pf content]. cbn in *. subst. by destruct p.
  - intros i s op. unfold after_auth. cbn. rewrite app_nil_r. intros [->|(x & -> & Hx)%list_elem_of_fmap]%elem_of_cons; [done|].
    destruct p as [p0|]; cbn in Hx; [|by apply not_elem_of_nil in Hx]. apply list_elem_of_singleton in Hx as ->. auto.
Qed.

Lemma static_digest_dlg d (sd : Signed (StaticDelegation T)) : dlg_static d = payload sd -> Digest_hash (mkSigned d (issuer sd) (signature sd)) = coerce (Digest_hash sd).
Proof.
  intros Hs. unfold Digest_hash, coerce. cbn. f_equal. f_equal. unfold serialize at 1, SignedDelegation_serialize, Signed_map. cbn. rewrite Hs. by destruct sd.
Qed.
Lemma static_digest_rev r (sr : Signed (StaticRevocation T)) : rev_static r = payload sr -> Digest_hash (mkSigned r (issuer sr) (signature sr)) = coerce (Digest_hash sr).
Proof.
  intros Hs. unfold Digest_hash, coerce. cbn. f_equal. f_equal. unfold serialize at 1, SignedRevocation_serialize, Signed_map. cbn. rewrite Hs. by destruct sr.
Qed.

Lemma convert_recordable_dlg sd k d : kh_wf k -> kh_delegations k !! coerce (Digest_hash sd) = None -> try_verify sd = Ok tt ->
  static_delegation_to_delegation sd k = Ok d ->
  recordable (kh_delegations k) (rs_revocations (kh_revocations k)) (OpDelegation (mkSigned d (issuer sd) (signature sd))).
Proof.
  intros Hk Hn Hv Hd. destruct (convert_delegation sd k d Hk Hd) as [Hs Ha].
  assert (Signed_map dlg_static (mkSigned d (issuer sd) (signature sd)) = sd) as Hmap by (unfold Signed_map; cbn; rewrite Hs; by destruct sd).
  constructor; [apply Ha|cbn; by rewrite Hmap|]. right. rewrite <- Hn. by rewrite (static_digest_dlg d sd Hs).
Qed.
Lemma convert_recordable_rev sr k r : kh_wf k -> rs_revocations (kh_revocations k) !! coerce (Digest_hash sr) = None -> try_verify sr = Ok tt ->
  static_revocation_to_revocation sr k = Ok r ->
  recordable (kh_delegations k) (rs_revocations (kh_revocations k)) (OpRevocation (mkSigned r (issuer sr) (signature sr))).
Proof.
  intros Hk Hn Hv Hr. destruct (convert_revocation sr k r Hk Hr) as [Hs Ha].
  assert (Signed_map rev_static (mkSigned r (issuer sr) (signature sr)) = sr) as Hmap by (unfold Signed_map; cbn; rewrite Hs; by destruct sr).
  constructor; [apply Ha|cbn; by rewrite Hmap|]. right. rewrite <- Hn. by rewrite (static_digest_rev r sr Hs).
Qed.

(** *** Stores that grow *)

Definition kh_grows (k k' : Keyhive T) : Prop := forall op, kh_held k op -> kh_held k' op.
Lemma kh_grows_refl k : kh_grows k k.
Proof. by intros op. Qed.

Lemma group_wf_grows id g (k k' : Keyhive T) : kh_grows k k' -> stores_ok (kh_delegations k') (rs_revocations (kh_revocations k')) ->
  group_wf id (with_stores k g) -> group_wf id (with_stores k' g).
Proof. intros Hg Hok [H1 H2 H3]. constructor; [done|done|]. intros op Hop. by apply Hg, H3. Qed.

Lemma wf_set_stores k ds rs : kh_wf k -> stores_ok ds (rs_revocations rs) -> kh_grows k (set_stores ds rs k) -> kh_wf (set_stores ds rs k).
Proof.
  intros [H1 H2 H3 H4 H5] Hok Hg. constructor; [done|done| | |done].
  - intros id g Hid. by apply (group_wf_grows _ _ k), H3.
  - intros id d Hid. by apply (group_wf_grows _ _ k), H4.
Qed.
Lemma wf_take_stores k g : kh_wf k -> own_ok g -> (forall op, kh_held k op -> own_held g op) -> kh_wf (take_stores g k).
Proof. intros Hk Hok Hg. by apply wf_set_stores. Qed.

(** A group that has just been called with the stores of [k]. *)
Definition called (k : Keyhive T) (id : Identifier) (g : @Group T) : Prop := group_wf id g /\ forall op, kh_held k op -> own_held g op.
Lemma called_take k id g : kh_wf k -> called k id g -> kh_wf (take_stores g k) /\ kh_grows k (take_stores g k).
Proof. intros Hk [[_ Hok _] Hx]. split; [apply wf_take_stores; [done|done|]; intros op Hop|intros op Hop]; by apply Hx. Qed.
Lemma with_own_stores g (k : Keyhive T) : with_stores (take_stores g k) g = g.
Proof. by destruct g as [? ? ? [] ?]. Qed.

Lemma wf_put_group k id g : kh_wf k -> group_wf id (with_stores k g) -> kh_wf (set_groups (<[id := g]> (kh_groups k)) k).
Proof.
  intros [H1 H2 H3 H4 H5] Hg. constructor; [done|done| |done|done]. cbn. intros id' g' [[-> ->]|[_ ?]]%lookup_insert_Some; [done|by apply H3].
Qed.
Lemma wf_put_doc k id d : kh_wf k -> group_wf id (with_stores k (doc_group d)) -> kh_wf (set_docs (<[id := d]> (kh_docs k)) k).
Proof.
  intros [H1 H2 H3 H4 H5] Hg. constructor; [done|done|done| |done]. cbn. intros id' d' [[-> ->]|[_ ?]]%lookup_insert_Some; [done|by apply H4].
Qed.
Lemma wf_drop_individual k id : kh_wf k -> kh_wf (set_individuals (delete id (kh_individuals k)) k).
Proof. intros [H1 H2 H3 H4 H5]. constructor; [done| |done|done|done]. cbn. intros id' c [_ Hc]%lookup_delete_Some. by apply H2. Qed.

Lemma at_group_wf {Er A} k id g (m : M (@Group T) Er A) : kh_wf k -> called k id (m (with_stores k g)).2 ->
  kh_wf (at_group id g m k).2 /\ kh_grows k (at_group id g m k).2.
Proof.
  intros Hk Hc. unfold at_group. destruct (m (with_stores k g)) as [r g']. cbn [snd] in *. destruct (called_take k id g' Hk Hc) as [Hk' Hg].
  split; [|done]. apply (wf_put_group (take_stores g' k)); [done|]. rewrite with_own_stores. apply Hc.
Qed.
Lemma at_doc_wf {Er A} k id d (m : M (Document T) Er A) : kh_wf k -> called k id (doc_group (m (Document.set_group (with_stores k (doc_group d)) d)).2) ->
  kh_wf (at_doc id d m k).2 /\ kh_grows k (at_doc id d m k).2.
Proof.
  intros Hk Hc. unfold at_doc. destruct (m _) as [r d']. cbn [snd] in *. destruct (called_take k id _ Hk Hc) as [Hk' Hg].
  split; [|done]. apply (wf_put_doc (take_stores (doc_group d') k)); [done|]. rewrite with_own_stores. apply Hc.
Qed.
Lemma called_same k id g : group_wf id (with_stores k g) -> called k id (with_stores k g).
Proof. intros Hg. split; [done|]. by intros op. Qed.
Lemma called_extends k id g g' : group_wf id g' -> extends (with_stores k g) g' -> called k id g'.
Proof. intros Hg Hx. split; [done|]. intros op Hop. by apply Hx. Qed.

(** *** Groups that are created *)

Abbreviation kh_recordable k := (recordable (kh_delegations k) (rs_revocations (kh_revocations k))).

Lemma create_called k idi head log g : kh_wf k -> kh_recordable k (OpDelegation head) ->
  Group_create idi head (kh_delegations k) (kh_revocations k) log = Ok g ->
  called k (issuer head) g /\ own_held g (OpDelegation head) /\ rs_revocations (gs_revocations (g_state g)) = rs_revocations (kh_revocations k).
Proof.
  intros Hk Hr. unfold Group_create. destruct Hr as [Ha Hv Ho].
  destruct (GroupState_new_held head (kh_delegations k) (kh_revocations k) (kw_stores _ Hk) Ha ltac:(tauto)) as (rs' & -> & Hrs). cbn.
  unfold rebuild, bindM, get, loop_result, modify. destruct (rebuild_heads _ _ _) as [st|]; [|done]. cbn. intros [= <-].
  destruct (recorded_dlg _ _ head (kw_stores _ Hk)) as [Hok Hin]; [by constructor|].
  split; [split; [constructor|]|split]; unfold own_ok, own_held; cbn; rewrite ?Hrs; try done.
  - intros op Hop. apply heads_of_elem in Hop as [(h & d & Hd & ->)|(h & r & Hr & ->)]; cbn in *; [|by rewrite lookup_empty in Hr].
    apply lookup_insert_Some in Hd as [[_ <-]|[_ Hd]]; [|by rewrite lookup_empty in Hd]. done.
  - intros op Hop. apply extends_insert_dlg; [by constructor|done].
Qed.

Lemma repoint_delegations_same k agent l : kh_wf k -> (forall x, x ∈ l -> kh_delegations k !! x.1 = Some x.2) ->
  foldl (repoint_delegation agent) (kh_delegations k) l = kh_delegations k.
Proof.
  intros Hk. induction l as [|x l IH]; intros Hl; cbn [foldl]; [done|].
  assert (repoint_delegation agent (kh_delegations k) x = kh_delegations k) as ->; [|apply IH; intros y Hy; apply Hl; by right].
  unfold repoint_delegation. case_decide as Ha; [|done]. assert (kh_delegations k !! x.1 = Some x.2) as Hx by (apply Hl; left).
  destruct x as [h [[a c p rs ct] i s]]. cbn in *. subst a. apply (insert_held _ (rs_revocations (kh_revocations k))).
  by apply (held_lookup_dlg k h) in Hx as [_ ?].
Qed.

Lemma repoint_revocations_same k gid l : kh_wf k -> (forall x, x ∈ l -> rs_revocations (kh_revocations k) !! x.1 = Some x.2) ->
  forall rs rs', rs_revocations rs = rs_revocations (kh_revocations k) ->
  foldR (fun rs x => repoint_revocation gid (kh_delegations k) x rs) l rs = Ok rs' -> rs_revocations rs' = rs_revocations (kh_revocations k).
Proof.
  intros Hk. induction l as [|x l IH]; intros Hl rs rs' Hrs; cbn [foldR]; [by intros [= <-]|].
  destruct (repoint_revocation gid (kh_delegations k) x rs) as [rs1| | |] eqn:Hr; try done. cbn. intros Hf.
  eapply IH; [intros y Hy; apply Hl; by right| |exact Hf]. clear IH Hf rs'. revert Hr. unfold repoint_revocation.
  case_decide; [|by intros [= <-]]. assert (rs_revocations (kh_revocations k) !! x.1 = Some x.2) as Hx by (apply Hl; left).
  destruct x as [h r]. cbn in *. apply (held_lookup_rev k h) in Hx as [_ Hx]; [|done].
  pose proof (so_closed _ _ (kw_stores _ Hk) _ _ Hx (after_auth_revoke r)) as Hrv. cbn in Hrv. rewrite Hrv. cbn.
  destruct (rev_proof (payload r)) as [p|] eqn:Hp; [|done]. cbn. pose proof (so_closed _ _ (kw_stores _ Hk) _ _ Hx (after_auth_rev_proof r p Hp)) as Hpv. cbn in Hpv.
  rewrite Hpv. intros [= <-]. rewrite <- Hp. assert (mkSigned (mkRevocation (revoke (payload r)) (rev_proof (payload r)) (rev_after_content (payload r))) (issuer r) (signature r) = r) as ->.
  { by destruct r as [[] ? ?]. }
  rewrite (rev_insert_held (kh_delegations k)); [done|]. by rewrite Hrs.
Qed.

Definition kh_keeps {Er A} (m : M (Keyhive T) Er A) (k : Keyhive T) : Prop := kh_wf (m k).2 /\ kh_grows k (m k).2.

Lemma grows_trans k k1 k2 : kh_grows k k1 -> kh_grows k1 k2 -> kh_grows k k2.
Proof. intros H1 H2 op Hop. by apply H2, H1. Qed.

Lemma promote_keeps {Er} k indie head : kh_wf k -> kh_recordable k (OpDelegation head) ->
  let m := promote_individual_to_group (Er := Er) indie head in
  kh_keeps m k /\ forall g, (m k).1 = Ok g ->
    group_wf (issuer head) (with_stores (m k).2 g) /\ kh_held (m k).2 (OpDelegation head) /\
    rs_revocations (kh_revocations (m k).2) = rs_revocations (kh_revocations k).
Proof.
  intros Hk Hr m. unfold kh_keeps, m, promote_individual_to_group, bindM, get, liftR, modify.
  destruct (from_individual indie head (kh_delegations k) (kh_revocations k) []) as [g|[]| |] eqn:Hg; cbn [no_error res_map_err fst snd];
    [|by split; [split; [|apply kh_grows_refl]|]..].
  destruct (create_called k _ head [] g Hk Hr Hg) as (Hc & Hh & Hrev). destruct (called_take k _ g Hk Hc) as [Hk1 Hg1].
  rewrite (repoint_delegations_same (take_stores g k)) by (done || (intros [? ?] Hx; by apply elem_of_map_to_list)).
  set (k1 := take_stores g k) in *.
  assert (forall rs, rs_revocations rs = rs_revocations (kh_revocations k1) -> kh_wf (set_stores (kh_delegations k1) rs k1) /\ kh_grows k1 (set_stores (kh_delegations k1) rs k1)) as Hset.
  { intros rs Hrs. assert (kh_grows k1 (set_stores (kh_delegations k1) rs k1)) as Hgr by (intros op; unfold kh_held; cbn; by rewrite Hrs).
    split; [|done]. apply wf_set_stores; [done| |done]. rewrite Hrs. apply Hk1. }
  destruct (foldR _ _ _) as [rs|[]| |] eqn:Hf; cbn [no_error res_map_err fst snd].
  - apply (repoint_revocations_same k1) in Hf; [|done|intros [? ?] Hx; by apply elem_of_map_to_list|done]. destruct (Hset rs Hf) as [Hw Hgr].
    split; [split; [exact Hw|by apply (grows_trans _ k1)]|]. intros g0 [= <-]. split; [|split; [by apply Hgr|by rewrite <- Hrev]].
    apply (group_wf_grows _ _ k1 _ Hgr); [apply Hw|]. unfold k1. rewrite with_own_stores. apply Hc.
  - split; [|done]. destruct (Hset (kh_revocations k1) eq_refl) as [Hw Hgr]. split; [exact Hw|by apply (grows_trans _ k1)].
  - split; [|done]. destruct (Hset (kh_revocations k1) eq_refl) as [Hw Hgr]. split; [exact Hw|by apply (grows_trans _ k1)].
Qed.

(** *** Delivering *)

Lemma kh_keeps_ret {Er A} k (m : M (Keyhive T) Er A) : kh_keeps m k -> kh_keeps (bindM m (fun _ => ret tt)) k.
Proof. unfold kh_keeps, bindM, ret. by destruct (m k) as [[a|e| |] k']. Qed.
Lemma ret_ok {Er A} (m : M (Keyhive T) Er A) k u : (bindM m (fun _ => ret tt) k).1 = Ok u ->
  (exists a, (m k).1 = Ok a) /\ (bindM m (fun _ => ret tt) k).2 = (m k).2.
Proof. unfold bindM, ret. destruct (m k) as [[a|e| |] k']; cbn; try done. eauto. Qed.

Lemma map_err_state {S Er Er' A} (f : Er -> Er') (m : M S Er A) s : (map_err f m s).2 = (m s).2.
Proof. unfold map_err. by destruct (m s). Qed.

Lemma receive_delegation_called k id g d : kh_wf k -> group_wf id (with_stores k g) -> kh_recordable k (OpDelegation d) ->
  called k id (receive_delegation d (with_stores k g)).2.
Proof. intros Hk Hg Hd. destruct (receive_delegation_wf id d _ Hg Hd). by apply (called_extends _ _ g). Qed.
Lemma receive_revocation_called k id g r : kh_wf k -> group_wf id (with_stores k g) -> kh_recordable k (OpRevocation r) ->
  called k id (receive_revocation r (with_stores k g)).2.
Proof. intros Hk Hg Hr. destruct (receive_revocation_wf id r _ Hg Hr). by apply (called_extends _ _ g). Qed.

Lemma from_group_state g heads d : from_group g heads = Ok d -> g_state (doc_group d) = g_state g.
Proof.
  unfold from_group, doc_rebuild, on_group, zoom. cbn [doc_group]. unfold rebuild, bindM, get, loop_result, modify. destruct (rebuild_heads _ _ _); [|done]. cbn. by intros [= <-].
Qed.

Lemma new_membered_keeps k subject d : kh_wf k -> kh_recordable k (OpDelegation d) ->
  kh_keeps (new_membered subject d) k /\ ((new_membered subject d k).1 = Ok tt -> kh_held (new_membered subject d k).2 (OpDelegation d)).
Proof.
  intros Hk Hd. unfold kh_keeps, new_membered, bindM, get, liftR, modify.
  destruct (Group_new subject d (kh_delegations k) (kh_revocations k) []) as [g|[]| |] eqn:Hg; cbn [no_error res_map_err fst snd];
    [|by split; [split; [|apply kh_grows_refl]|]..].
  destruct (create_called k _ d [] g Hk Hd Hg) as (Hc & Hh & Hrev). destruct (called_take k _ g Hk Hc) as [Hk1 Hg1]. set (k1 := take_stores g k) in *.
  assert (forall id g', g_state g' = g_state g -> id = group_id g -> group_wf id (with_stores k1 g')) as Hput.
  { intros id g' Hs ->. apply (group_wf_state _ g); [unfold with_stores; cbn; rewrite Hs; by destruct g as [? ? ? [] ?]|].
    destruct Hc as [Hwf _]. by rewrite (gw_id _ _ Hwf). }
  destruct (after_content (payload d) !! subject) as [[|h tl]|]; [by split; [split; [apply wf_put_group; auto|]|]| |by split; [split; [apply wf_put_group; auto|]|]].
  destruct (from_group g (h :: tl)) as [doc|e| |] eqn:Hdoc; cbn [res_map_err fst snd]; [|by split..].
  pose proof (from_group_state g _ _ Hdoc) as Hs. split; [split; [|done]|done]. apply wf_put_doc; [done|]. apply Hput; [done|]. unfold doc_id, group_id. by rewrite Hs.
Qed.

Lemma on_group_group {Er A} (m : M (@Group T) Er A) (d : Document T) : doc_group (on_group m d).2 = (m (doc_group d)).2 /\ (on_group m d).1 = (m (doc_group d)).1.
Proof. unfold on_group, zoom. by destruct (m (doc_group d)). Qed.
Lemma map_err_ok {S Er Er' A} (f : Er -> Er') (m : M S Er A) s a : (map_err f m s).1 = Ok a -> (m s).1 = Ok a.
Proof. unfold map_err. destruct (m s) as [[x|e| |] s']; cbn; try done. by intros [= ->]. Qed.
Lemma at_group_held {Er A} k id g (m : M (@Group T) Er A) a : (at_group id g m k).1 = Ok a ->
  (m (with_stores k g)).1 = Ok a /\ forall op, kh_held (at_group id g m k).2 op <-> own_held (m (with_stores k g)).2 op.
Proof. unfold at_group. destruct (m (with_stores k g)) as [r g']. cbn. intros ->. split; [done|]. intros op. reflexivity. Qed.
Lemma at_doc_held {Er A} k id d (m : M (Document T) Er A) a : let d0 := Document.set_group (with_stores k (doc_group d)) d in (at_doc id d m k).1 = Ok a ->
  (m d0).1 = Ok a /\ forall op, kh_held (at_doc id d m k).2 op <-> own_held (doc_group (m d0).2) op.
Proof. cbn zeta. unfold at_doc. destruct (m _) as [r d']. cbn. intros ->. split; [done|]. intros op. reflexivity. Qed.

Lemma accepted_held_dlg d (g : @Group T) h : (receive_delegation d g).1 = Ok h -> own_held (receive_delegation d g).2 (OpDelegation d).
Proof.
  destruct (receive_delegation d g) as [r g'] eqn:Heq. cbn. intros ->. apply receive_delegation_accepts in Heq as (_ & Hs & _).
  unfold own_held. rewrite Hs. apply lookup_insert_eq.
Qed.
Lemma accepted_held_rev r (g : @Group T) h : (receive_revocation r g).1 = Ok h -> own_held (receive_revocation r g).2 (OpRevocation r).
Proof.
  unfold receive_revocation, bindM, modify, zoom. cbn [notify g_state]. pose proof (add_revocation_spec r (g_state g)) as Hs.
  destruct (add_revocation r (g_state g)) as [[h'|e| |] s]; try done. destruct Hs as (_ & _ & ->).
  unfold rebuild, bindM, get, loop_result, modify. destruct (rebuild_heads _ _ _); [|done]. intros _. unfold own_held. cbn. apply lookup_insert_eq.
Qed.

Lemma deliver_delegation_keeps k d : kh_wf k -> kh_recordable k (OpDelegation d) ->
  kh_keeps (deliver_delegation d) k /\ ((deliver_delegation d k).1 = Ok tt -> kh_held (deliver_delegation d k).2 (OpDelegation d)).
Proof.
  intros Hk Hd. unfold deliver_delegation. cbn zeta.
  assert (forall (f : Keyhive T -> M (Keyhive T) (ReceiveStaticDelegationError T) unit), kh_keeps (f k) k /\ ((f k k).1 = Ok tt -> kh_held (f k k).2 (OpDelegation d)) ->
    kh_keeps (bindM get f) k /\ ((bindM get f k).1 = Ok tt -> kh_held (bindM get f k).2 (OpDelegation d))) as Hget by done.
  apply Hget. clear Hget. destruct (kh_groups k !! dlg_subject_id d) as [g|] eqn:Hg.
  { pose proof (kw_groups _ Hk _ _ Hg) as Hwf. split.
    - apply kh_keeps_ret, at_group_wf; [done|]. rewrite map_err_state. by apply receive_delegation_called.
    - intros [[a Ha] ->]%ret_ok. apply at_group_held in Ha as [Ha Hheld]. apply Hheld. rewrite map_err_state. by eapply accepted_held_dlg, map_err_ok. }
  destruct (kh_docs k !! dlg_subject_id d) as [doc|] eqn:Hdoc.
  { pose proof (kw_docs _ Hk _ _ Hdoc) as Hwf. split.
    - apply kh_keeps_ret, at_doc_wf; [done|]. rewrite map_err_state. unfold doc_receive_delegation. destruct (on_group_group (receive_delegation d) (Document.set_group (with_stores k (doc_group doc)) doc)) as [-> _].
      by apply receive_delegation_called.
    - intros [[a Ha] ->]%ret_ok. apply at_doc_held in Ha as [Ha Hheld]. apply Hheld. rewrite map_err_state. apply map_err_ok in Ha. unfold doc_receive_delegation in *.
      destruct (on_group_group (receive_delegation d) (Document.set_group (with_stores k (doc_group doc)) doc)) as [-> H2]. rewrite H2 in Ha. by eapply accepted_held_dlg. }
  destruct (kh_individuals k !! dlg_subject_id d) as [c|] eqn:Hc; [|by apply new_membered_keeps].
  set (k1 := set_individuals (delete (dlg_subject_id d) (kh_individuals k)) k). assert (kh_wf k1) as Hk1 by by apply wf_drop_individual.
  destruct (promote_keeps (Er := ReceiveStaticDelegationError T) k1 (cell_value k c) d Hk1 Hd) as [[Hw Hgr] Hok].
  split; [split|]; unfold bindM, modify; fold k1; destruct (promote_individual_to_group (cell_value k c) d k1) as [[g|e| |] k2]; try done. intros _. by apply (Hok g).
Qed.

Lemma held_recordable k op : kh_wf k -> kh_held k op -> kh_recordable k op.
Proof. intros Hk Hop. constructor; [|by apply (so_verified _ _ (kw_stores _ Hk))|by left]. intros x Hx. by apply (so_closed _ _ (kw_stores _ Hk) op). Qed.

Lemma deliver_promoted k r c : kh_wf k -> kh_recordable k (OpRevocation r) ->
  let m := (g <- promote_individual_to_group (cell_value k c) (revoke (payload r)) ;;
            k <- get ;;
            let '(res, g) := receive_revocation r (with_stores k g) in
            modify (take_stores g) ;;
            liftR (res_map_err GroupReceiveError res) ;;
            ret tt) : M (Keyhive T) (ReceiveStaticDelegationError T) unit in
  forall k1, kh_wf k1 -> kh_delegations k1 = kh_delegations k -> kh_revocations k1 = kh_revocations k ->
  kh_keeps m k1 /\ ((m k1).1 = Ok tt -> kh_held (m k1).2 (OpRevocation r)).
Proof.
  intros Hk Hr m k1 Hk1 Hd1 Hr1. assert (kh_recordable k1 (OpRevocation r)) as Hr' by (by rewrite Hd1, Hr1).
  pose proof (rc_after _ _ _ Hr' _ (after_auth_revoke r)) as Hrv.
  destruct (promote_keeps (Er := ReceiveStaticDelegationError T) k1 (cell_value k c) (revoke (payload r)) Hk1 (held_recordable _ _ Hk1 Hrv)) as [[Hw Hgr] Hok].
  unfold kh_keeps, m, bindM, get, modify, liftR, ret. destruct (promote_individual_to_group (cell_value k c) (revoke (payload r)) k1) as [[g|e| |] k2]; cbn [fst snd] in *;
    [|by split; [split|]..]. destruct (Hok g eq_refl) as (Hg & _ & Hrev).
  assert (kh_recordable k2 (OpRevocation r)) as Hr2.
  { destruct Hr' as [Ha Hv Ho]. constructor; [intros x Hx; by apply Hgr, Ha|done|]. destruct Ho as [Ho|Ho]; [left; by apply Hgr|right; by rewrite Hrev]. }
  pose proof (receive_revocation_called k2 _ g r Hw Hg Hr2) as Hc. pose proof (accepted_held_rev r (with_stores k2 g)) as Hh.
  destruct (receive_revocation r (with_stores k2 g)) as [res g2]. cbn [snd fst] in *.
  destruct (called_take k2 _ g2 Hw Hc) as [Hk3 Hg3].
  destruct res as [h|e| |]; cbn; (split; [split; [done|by apply (grows_trans _ k2)]|try done]). intros _. by apply (Hh h).
Qed.

Lemma deliver_revocation_keeps k r : kh_wf k -> kh_recordable k (OpRevocation r) ->
  kh_keeps (deliver_revocation r) k /\ ((deliver_revocation r k).1 = Ok tt -> kh_held (deliver_revocation r k).2 (OpRevocation r)).
Proof.
  intros Hk Hd. unfold deliver_revocation. cbn zeta.
  assert (forall (f : Keyhive T -> M (Keyhive T) (ReceiveStaticDelegationError T) unit), kh_keeps (f k) k /\ ((f k k).1 = Ok tt -> kh_held (f k k).2 (OpRevocation r)) ->
    kh_keeps (bindM get f) k /\ ((bindM get f k).1 = Ok tt -> kh_held (bindM get f k).2 (OpRevocation r))) as Hget by done.
  apply Hget. clear Hget. destruct (kh_groups k !! rev_subject_id r) as [g|] eqn:Hg.
  { pose proof (kw_groups _ Hk _ _ Hg) as Hwf. split.
    - apply kh_keeps_ret, at_group_wf; [done|]. rewrite map_err_state. by apply receive_revocation_called.
    - intros [[a Ha] ->]%ret_ok. apply at_group_held in Ha as [Ha Hheld]. apply Hheld. rewrite map_err_state. by eapply accepted_held_rev, map_err_ok. }
  destruct (kh_docs k !! rev_subject_id r) as [doc|] eqn:Hdoc.
  { pose proof (kw_docs _ Hk _ _ Hdoc) as Hwf. split.
    - apply kh_keeps_ret, at_doc_wf; [done|]. rewrite map_err_state. unfold doc_receive_revocation. destruct (on_group_group (receive_revocation r) (Document.set_group (with_stores k (doc_group doc)) doc)) as [-> _].
      by apply receive_revocation_called.
    - intros [[a Ha] ->]%ret_ok. apply at_doc_held in Ha as [Ha Hheld]. apply Hheld. rewrite map_err_state. apply map_err_ok in Ha. unfold doc_receive_revocation in *.
      destruct (on_group_group (receive_revocation r) (Document.set_group (with_stores k (doc_group doc)) doc)) as [-> H2]. rewrite H2 in Ha. by eapply accepted_held_rev. }
  destruct (kh_individuals k !! rev_subject_id r) as [c|] eqn:Hc.
  { apply (deliver_promoted k r c Hk Hd (set_individuals (delete (rev_subject_id r) (kh_individuals k)) k)); [by apply wf_drop_individual|done|done]. }
  pose proof (held_recordable k _ Hk (rc_after _ _ _ Hd _ (after_auth_revoke r))) as Hrv. unfold kh_keeps, bindM, liftR, modify, diverge.
  destruct (Group_new (issuer r) (revoke (payload r)) (kh_delegations k) (kh_revocations k) []) as [g|[]| |] eqn:Hnew; cbn [no_error res_map_err fst snd];
    [|by split; [split; [|apply kh_grows_refl]|]..].
  destruct (create_called k _ _ [] g Hk Hrv Hnew) as (Hcall & _ & _). destruct (called_take k _ g Hk Hcall) as [Hk1 Hg1]. by split.
Qed.

(** *** Events *)

Lemma resolve_again {Er Er'} (f : _ -> Er) (f' : _ -> Er') (k : Keyhive T) hs : forall acc rs, resolve_revocations f k hs acc = Ok rs -> resolve_revocations f' k hs acc = Ok rs.
Proof. induction hs as [|h hs IH]; intros acc rs; cbn [resolve_revocations]; [by intros [= ->]|]. destruct (get_revocation h k); cbn; [apply IH|done]. Qed.
Lemma resolve_returns {Er} (f : _ -> Er) (k : Keyhive T) hs : forall acc, (exists rs, resolve_revocations f k hs acc = Ok rs) \/ exists h, h ∈ hs /\ resolve_revocations f k hs acc = Err (f h) /\ get_revocation h k = None.
Proof.
  induction hs as [|h hs IH]; intros acc; cbn [resolve_revocations]; [eauto|]. destruct (get_revocation h k) eqn:Hh; cbn.
  - destruct (IH (acc ++ [s])) as [?|(h' & ? & ? & ?)]; [by left|]. right. exists h'. split_and!; [by right|done|done].
  - right. exists h. split_and!; [left|done|done].
Qed.

Lemma kh_receive_delegation_eq sd k : kh_receive_delegation sd k =
  if bool_decide (is_Some (kh_delegations k !! coerce (Digest_hash sd))) then (Ok tt, k)
  else match try_verify sd with
       | Ok _ =>
           match static_delegation_to_delegation sd k with
           | Ok d => deliver_delegation (mkSigned d (issuer sd) (signature sd)) k
           | Err e => (Err (from_conversion e), k)
           | Panic => (Panic, k)
           | Diverge => (Diverge, k)
           end
       | Err e => (Err (StaticVerificationError e), k)
       | Panic => (Panic, k)
       | Diverge => (Diverge, k)
       end.
Proof.
  unfold kh_receive_delegation, bindM, get, liftR, readM, ret. case_bool_decide; [done|]. destruct (try_verify sd) as [[]| | |]; try done.
  cbn [res_map_err]. destruct (static_delegation_to_delegation sd k) as [d| | |] eqn:Hd; try done. cbn [res_map_err].
  assert (exists rs, resolve_revocations (Er := ReceiveStaticDelegationError T) MissingRevocationDependency k (sd_after_revocations (payload sd)) [] = Ok rs) as [rs ->]; [|done].
  revert Hd. unfold static_delegation_to_delegation. destruct (resolve_proof k (sd_proof (payload sd))); try done. cbn. destruct (get_agent _ k); [|done]. cbn.
  destruct (resolve_revocations ConversionMissingRevocation k _ []) as [rs| | |] eqn:Hr; try done. intros _. exists rs. by eapply resolve_again.
Qed.
Lemma kh_receive_revocation_eq sr k : kh_receive_revocation sr k =
  if bool_decide (is_Some (rs_revocations (kh_revocations k) !! coerce (Digest_hash sr))) then (Ok tt, k)
  else match try_verify sr with
       | Ok _ =>
           match static_revocation_to_revocation sr k with
           | Ok r => deliver_revocation (mkSigned r (issuer sr) (signature sr)) k
           | Err e => (Err (from_conversion e), k)
           | Panic => (Panic, k)
           | Diverge => (Diverge, k)
           end
       | Err e => (Err (StaticVerificationError e), k)
       | Panic => (Panic, k)
       | Diverge => (Diverge, k)
       end.
Proof.
  unfold kh_receive_revocation, bindM, get, liftR, readM, ret. case_bool_decide; [done|]. destruct (try_verify sr) as [[]| | |]; try done.
  cbn [res_map_err]. by destruct (static_revocation_to_revocation sr k).
Qed.

Lemma kh_receive_delegation_keeps k sd : kh_wf k ->
  kh_keeps (kh_receive_delegation sd) k /\
  ((kh_receive_delegation sd k).1 = Ok tt -> is_Some (kh_delegations (kh_receive_delegation sd k).2 !! coerce (Digest_hash sd))).
Proof.
  intros Hk. unfold kh_keeps. rewrite kh_receive_delegation_eq. case_bool_decide as Hin; [by split; [split; [|apply kh_grows_refl]|]|].
  apply eq_None_not_Some in Hin. destruct (try_verify sd) as [[]| | |] eqn:Hv; try (by split; [split; [|apply kh_grows_refl]|]).
  destruct (static_delegation_to_delegation sd k) as [d| | |] eqn:Hd; try (by split; [split; [|apply kh_grows_refl]|]).
  destruct (deliver_delegation_keeps k _ Hk (convert_recordable_dlg sd k d Hk Hin Hv Hd)) as [Hkeep Hok]. split; [exact Hkeep|].
  intros H1. specialize (Hok H1). destruct (convert_delegation sd k d Hk Hd) as [Hs _]. unfold kh_held, held in Hok. rewrite (static_digest_dlg d sd Hs) in Hok. eauto.
Qed.
Lemma kh_receive_revocation_keeps k sr : kh_wf k ->
  kh_keeps (kh_receive_revocation sr) k /\
  ((kh_receive_revocation sr k).1 = Ok tt -> is_Some (rs_revocations (kh_revocations (kh_receive_revocation sr k).2) !! coerce (Digest_hash sr))).
Proof.
  intros Hk. unfold kh_keeps. rewrite kh_receive_revocation_eq. case_bool_decide as Hin; [by split; [split; [|apply kh_grows_refl]|]|].
  apply eq_None_not_Some in Hin. destruct (try_verify sr) as [[]| | |] eqn:Hv; try (by split; [split; [|apply kh_grows_refl]|]).
  destruct (static_revocation_to_revocation sr k) as [r| | |] eqn:Hd; try (by split; [split; [|apply kh_grows_refl]|]).
  destruct (deliver_revocation_keeps k _ Hk (convert_recordable_rev sr k r Hk Hin Hv Hd)) as [Hkeep Hok]. split; [exact Hkeep|].
  intros H1. specialize (Hok H1). destruct (convert_revocation sr k r Hk Hd) as [Hs _]. unfold kh_held, held in Hok. rewrite (static_digest_rev r sr Hs) in Hok. eauto.
Qed.

Lemma receive_prekey_op_id op i i' : receive_prekey_op op i = Ok i' -> individual_id i' = individual_id i.
Proof. unfold receive_prekey_op. case_decide; [|done]. by destruct (insert_op op (prekey_state i)); intros [= <-]. Qed.
Lemma wf_set_active k i : kh_wf k -> individual_id i = active_id (kh_active k) -> kh_wf (set_active (set_individual i (kh_active k)) k).
Proof.
  intros [H1 H2 H3 H4 H5] Hi. constructor; [done| |done|done|done]. cbn. intros id [|j] Hc; [|by apply (H2 id (OwnCell j))].
  cbn. rewrite Hi, <- H1. by apply (H2 id ActiveCell).
Qed.
Lemma wf_put_individual k id i : kh_wf k -> individual_id i = id -> kh_wf (set_individuals (<[id := OwnCell i]> (kh_individuals k)) k).
Proof.
  intros [H1 H2 H3 H4 H5] Hi. constructor; [done| |done|done|done]. cbn. intros id' c [[-> <-]|[_ Hc]]%lookup_insert_Some; [done|by apply H2].
Qed.
Lemma group_prekey_state op (g g' : @Group T) : group_receive_prekey_op op g = Ok g' -> g_state g' = g_state g.
Proof. unfold group_receive_prekey_op. destruct (id_or_indie g); [by intros [= <-]|]. by destruct (receive_prekey_op op individual); intros [= <-]. Qed.

Lemma prekey_op_to_keeps k op agent : kh_wf k -> kh_keeps (prekey_op_to op agent) k.
Proof.
  intros Hk. assert (kh_wf k /\ kh_grows k k) as Hsame by (split; [done|apply kh_grows_refl]).
  destruct agent as [id|id|id|id]; unfold kh_keeps; cbn [prekey_op_to].
  - destruct (receive_prekey_op op (ac_individual (kh_active k))) as [i| | |] eqn:Hi; try done. apply receive_prekey_op_id in Hi.
    split; [|by intros x Hx]. apply wf_set_active; [done|]. rewrite Hi. apply Hk.
  - destruct (kh_individuals k !! id) as [c|] eqn:Hc; [|done]. destruct (receive_prekey_op op (cell_value k c)) as [i| | |] eqn:Hi; try done.
    apply receive_prekey_op_id in Hi. pose proof (kw_individuals _ Hk _ _ Hc) as Hid. rewrite <- Hi in Hid. destruct c as [|j].
    + split; [|by intros x Hx]. apply wf_set_active; [done|]. rewrite Hi. apply Hk.
    + split; [|by intros x Hx]. by apply wf_put_individual.
  - destruct (kh_groups k !! id) as [g|] eqn:Hg; [|done]. destruct (group_receive_prekey_op op g) as [g'| | |] eqn:Hg'; try done.
    apply group_prekey_state in Hg'. split; [|by intros x Hx]. apply wf_put_group; [done|].
    eapply group_wf_state; [|by apply (kw_groups _ Hk _ _ Hg)]. unfold with_stores. cbn. by rewrite Hg'.
  - destruct (kh_docs k !! id) as [d|] eqn:Hd; [|done]. destruct (group_receive_prekey_op op (doc_group d)) as [g'| | |] eqn:Hg'; try done.
    apply group_prekey_state in Hg'. split; [|by intros x Hx]. apply wf_put_doc; [done|].
    eapply group_wf_state; [|by apply (kw_docs _ Hk _ _ Hd)]. unfold with_stores. cbn. by rewrite Hg'.
Qed.
Lemma kh_receive_prekey_op_keeps k op : kh_wf k -> kh_keeps (kh_receive_prekey_op op) k.
Proof.
  intros Hk. unfold kh_keeps, kh_receive_prekey_op, bindM, gets, modify. destruct (get_agent (key_issuer op) k) as [a|]; [by apply prekey_op_to_keeps|].
  unfold register_individual. destruct (kh_individuals k !! individual_id (Individual_new op)); [by apply prekey_op_to_keeps|].
  apply (prekey_op_to_keeps (set_individuals (<[individual_id (Individual_new op) := OwnCell (Individual_new op)]> (kh_individuals k)) k)). by apply wf_put_individual.
Qed.

Lemma cgka_mut_group {A} (m : M Cgka CgkaError A) (d : Document T) : doc_group (cgka_mut m d).2 = doc_group d.
Proof. unfold cgka_mut. destruct (doc_cgka d); [|done]. by destruct (m c). Qed.
Lemma merge_cgka_op_group op (d : Document T) : doc_group (merge_cgka_op op d).2 = doc_group d.
Proof. unfold merge_cgka_op. destruct (doc_cgka d); [apply cgka_mut_group|]. repeat case_match; done. Qed.
Lemma merge_cgka_invite_op_group op sk (d : Document T) : doc_group (merge_cgka_invite_op op sk d).2 = doc_group d.
Proof.
  unfold merge_cgka_invite_op. destruct (payload op); try done. unfold bindM, readM. destruct (doc_cgka_ref d); try done. case_match; [done|].
  unfold liftR, with_new_owner, modify. by rewrite merge_cgka_op_group.
Qed.
Lemma receive_cgka_op_keeps public_sk k op : kh_wf k -> kh_keeps (receive_cgka_op public_sk op) k.
Proof.
  intros Hk. assert (kh_wf k /\ kh_grows k k) as Hsame by (split; [done|apply kh_grows_refl]).
  unfold kh_keeps, receive_cgka_op, bindM, liftR, get, readM. destruct (try_verify op); try done. cbn [res_map_err].
  destruct (kh_docs k !! document_of (op_doc_id (payload op))) as [d|] eqn:Hd; [|done]. cbn [ok_orR].
  destruct (invite_secret public_sk (payload op) k) as [secret| | |]; try done.
  match goal with |- context [at_doc ?i ?d ?m k] => assert (kh_wf (at_doc i d m k).2 /\ kh_grows k (at_doc i d m k).2) as Hat end.
  { apply at_doc_wf; [done|]. rewrite map_err_state. pose proof (kw_docs _ Hk _ _ Hd) as Hwf.
    destruct secret as [sk|]; [rewrite merge_cgka_invite_op_group|rewrite merge_cgka_op_group]; by apply called_same. }
  destruct (at_doc _ _ _ k) as [[b| | |] k']; try done. destruct b; cbn in *; [|done]. destruct Hat as [[H1 H2 H3 H4 H5] Hg]. by split.
Qed.

Lemma receive_static_event_keeps public_sk k e : kh_wf k -> kh_keeps (receive_static_event public_sk e) k.
Proof.
  intros Hk. unfold kh_keeps. destruct e; cbn [receive_static_event]; rewrite map_err_state.
  - by apply kh_receive_prekey_op_keeps.
  - by apply kh_receive_prekey_op_keeps.
  - by apply receive_cgka_op_keeps.
  - by apply kh_receive_delegation_keeps.
  - by apply kh_receive_revocation_keeps.
Qed.
End Keyhives.
