(* ===== verification/KeyhiveLive.v ===== *)
(** * Events that can be delivered are
    ([keyhive/keyhive_core/src/keyhive.rs], [ingest_unsorted_static_events])

    A set of membership events that is causally complete is accepted as a
    whole, in whatever order it comes. *)

From S2P Require Import Prelude TreeMath Crypto Keys SecretStore Tree PathCrypto Signed CaMap OpGraph AppSecret Cgka.
From S2P Require Import Individual Membership MemberSort MemberExplore MemberOrder GroupState Group GroupView GroupProps GroupChange.
From S2P Require Import Active Document Keyhive KeyhiveStores KeyhiveSafe.

Local Open Scope monad_scope.

(** ** Rebuilding returns *)

Section Rebuild.
Context `{P : Primitives} {T : Type} `{EqDecision T}.
Context `{Ssd : !Serialize (Signed (StaticDelegation T)), Ssr : !Serialize (Signed (StaticRevocation T))}.

Abbreviation load c := (length (next_to_revoke c) + size (c_in_play c))%nat.

Lemma cascade_dependent_load (c : @Cascade T) s : (load (cascade_dependent c s) <= load c)%nat.
Proof.
  unfold cascade_dependent. destruct (c_in_play c !! s) as [d|] eqn:Hd; cbn; [|lia].
  rewrite map_size_delete_Some by eauto. assert (size (c_in_play c) <> 0%nat); [|lia]. intros Hz%map_size_empty_inv. rewrite Hz, lookup_empty in Hd. done.
Qed.

Lemma cascade_total fuel : forall deps (c : @Cascade T), (load c <= fuel)%nat -> is_Some (cascade fuel deps c).
Proof.
  induction fuel as [|fuel IH]; intros deps c Hf; cbn [cascade]; (destruct (next_to_revoke c) as [|s rest] eqn:Hn; [by eexists|]); cbn in Hf; [lia|].
  apply IH. set (c1 := mkCascade rest _ _ _).
  assert (forall l (c : @Cascade T), (load (foldl cascade_dependent c l) <= load c)%nat) as Hfold.
  { induction l as [|x l IHl]; intros c0; cbn [foldl]; [lia|]. etrans; [apply IHl|apply cascade_dependent_load]. }
  etrans; [apply Hfold|]. unfold c1. cbn. assert (size (delete s (c_in_play c)) <= size (c_in_play c))%nat; [|lia]. rewrite map_size_delete. destruct (c_in_play c !! s); cbn; lia.
Qed.

Lemma rebuild_heads_total vk dlgs revs : sound_history (heads_of dlgs revs) -> is_Some (rebuild_heads vk dlgs revs).
Proof.
  intros Hs. unfold rebuild_heads. destruct (reverse_topsort_ok dlgs revs Hs) as (l & -> & _). cbn. unfold rebuild_ops.
  induction (snd <$> _) as [|op ops [st Hst]]; cbn [foldr]; [by eexists|]. rewrite Hst. cbn. destruct op as [d|r]; cbn; [by eexists|].
  unfold rebuild_revocation. case_match; [by eexists|].
  edestruct cascade_total as [c Hc]; [|rewrite Hc; by eexists]. cbn. lia.
Qed.

Lemma rebuild_returns {Er} (g : @Group T) : sound_history (group_heads g) -> exists g', rebuild (Er := Er) g = (Ok tt, g') /\ g_state g' = g_state g.
Proof.
  intros Hs. unfold rebuild, bindM, get, loop_result, modify. destruct (rebuild_heads_total (group_id g) _ _ Hs) as [st Hst]. rewrite Hst. by eexists.
Qed.
End Rebuild.

(** ** Histories *)

Section Histories.
Context `{P : Primitives} `{E : Ed25519} {T : Type} `{EqDecision T}.
Context `{Ssd : !Serialize (Signed (StaticDelegation T)), Ssr : !Serialize (Signed (StaticRevocation T))}.
Context `{Spd : !Serialize (StaticDelegation T), Spr : !Serialize (StaticRevocation T)}.

(** [From<Event> for StaticEvent], for operations. *)
Definition op_static (op : MembershipOperation T) : StaticEvent T :=
  match op with
  | OpDelegation d => Delegated (Signed_map dlg_static d)
  | OpRevocation r => Revoked (Signed_map rev_static r)
  end.

(** Operations with all they depend on, signed, and of the form that groups
    accept; digests and signatures tell them apart. *)
Record history (H : list (MembershipOperation T)) : Prop := {
  hi_closed op x : op ∈ H -> x ∈ after_auth op -> x ∈ H;
  hi_verified op : op ∈ H -> op_verified op;
  hi_delegations d : OpDelegation d ∈ H -> authorised (dlg_subject_id d) d;
  hi_revocations r : OpRevocation r ∈ H -> revocation_accepted (rev_subject_id r) r;
  hi_digests a b : a ∈ H -> b ∈ H -> op_digest a = op_digest b -> op_static a = op_static b;
  hi_signatures d d' : OpDelegation d ∈ H -> OpDelegation d' ∈ H -> signature d = signature d' -> op_static (OpDelegation d) = op_static (OpDelegation d');
}.

Lemma static_digest a b : op_static a = op_static b -> op_digest a = op_digest b.
Proof.
  destruct a as [a|a], b as [b|b]; cbn; try done; intros [= Heq]; unfold coerce, Digest_hash; cbn; do 2 f_equal.
  - unfold serialize, SignedDelegation_serialize. unfold Signed_map in *. cbn. congruence.
  - unfold serialize, SignedRevocation_serialize. unfold Signed_map in *. cbn. congruence.
Qed.

Lemma dlg_static_eq (d : Delegation T) :
  dlg_static d = mkStaticDelegation (can d) (Digest_hash <$> proof d) (agent_identifier (delegate d)) (Digest_hash <$> after_revocations d) (after_content d).
Proof. by destruct d as [a c [p|] rs ct]. Qed.
Lemma rev_static_eq (r : Revocation T) : rev_static r = mkStaticRevocation (Digest_hash (revoke r)) (Digest_hash <$> rev_proof r) (rev_after_content r).
Proof. by destruct r as [v [p|] ct]. Qed.

(** What the static form of a delegation tells. *)
Definition same_proof (p q : option (SignedDelegation T)) : Prop :=
  match p, q with
  | Some p, Some q => op_digest (OpDelegation p) = op_digest (OpDelegation q)
  | None, None => True
  | _, _ => False
  end.
Lemma same_proof_digest p q : Digest_hash <$> p = Digest_hash <$> q -> same_proof p q.
Proof. destruct p as [p|], q as [q|]; try done. intros Heq%(inj Some). cbn [same_proof op_digest]. by rewrite Heq. Qed.
Lemma static_fields d e : op_static (OpDelegation d) = op_static (OpDelegation e) ->
  issuer d = issuer e /\ signature d = signature e /\ can (payload d) = can (payload e) /\
  agent_identifier (delegate (payload d)) = agent_identifier (delegate (payload e)) /\ same_proof (proof (payload d)) (proof (payload e)).
Proof.
  unfold op_static, Signed_map. rewrite !dlg_static_eq. intros Heq. split_and!; try congruence. apply same_proof_digest. congruence.
Qed.
Lemma static_rev_fields r e : op_static (OpRevocation r) = op_static (OpRevocation e) ->
  issuer r = issuer e /\ op_digest (OpDelegation (revoke (payload r))) = op_digest (OpDelegation (revoke (payload e))) /\
  same_proof (rev_proof (payload r)) (rev_proof (payload e)).
Proof.
  unfold op_static, Signed_map. rewrite !rev_static_eq. intros Heq. assert (Digest_hash (revoke (payload r)) = Digest_hash (revoke (payload e))) as Hv by congruence.
  assert (Digest_hash <$> rev_proof (payload r) = Digest_hash <$> rev_proof (payload e)) as Hp by congruence.
  split_and!; [congruence|by cbn [op_digest]; rewrite Hv|by apply same_proof_digest].
Qed.

Section Matched.
Context (H : list (MembershipOperation T)) (Hh : history H).
Context (ds : CaMap (SignedDelegation T)) (rs : CaMap (SignedRevocation T)) (Hok : stores_ok ds rs).
Context (Hm : forall op, held ds rs op -> exists h, h ∈ H /\ op_static h = op_static op).

Abbreviation same e d := (op_static (OpDelegation e) = op_static (OpDelegation d)).

Lemma same_op h op : h ∈ H -> held ds rs op -> op_digest h = op_digest op -> op_static h = op_static op.
Proof. intros Hin Hop Hd. destruct (Hm op Hop) as (h' & Hin' & Hs). rewrite <- Hs. apply (hi_digests _ Hh); [done..|]. by rewrite Hd, (static_digest h' op). Qed.

Lemma same_lineage e d : OpDelegation e ∈ H -> (forall x, x ∈ after_auth (OpDelegation d) -> held ds rs x) -> same e d ->
  Forall2 (fun p q => same p q) (proof_lineage (payload e)) (proof_lineage (payload d)).
Proof.
  remember (dlg_size (payload d)) as n eqn:Hn. revert e d Hn. induction n as [n IH] using lt_wf_ind. intros e d -> He Hd Hs.
  destruct (static_fields _ _ Hs) as (_ & _ & _ & _ & Hp).
  assert (forall d : SignedDelegation T, proof_lineage (payload d) = match proof (payload d) with Some p => p :: proof_lineage (payload p) | None => [] end) as Hl by (by intros [[? ? [] ? ?] ? ?]).
  rewrite (Hl e), (Hl d). destruct (proof (payload e)) as [p|] eqn:Hpe, (proof (payload d)) as [q|] eqn:Hpd; try done. cbn in Hp.
  pose proof (after_auth_proof d q Hpd) as Hq. assert (same p q) as Hpq.
  { apply same_op; [|by apply Hd|done]. apply (hi_closed _ Hh (OpDelegation e)); [done|]. by apply after_auth_proof. }
  constructor; [done|]. apply (IH (dlg_size (payload q))); [by apply after_auth_smaller in Hq|done| | |done].
  - apply (hi_closed _ Hh (OpDelegation e)); [done|]. by apply after_auth_proof.
  - intros x Hx. by apply (so_closed _ _ Hok (OpDelegation q)); [apply Hd|].
Qed.

Lemma same_subject e d : same e d -> Forall2 (fun p q => same p q) (proof_lineage (payload e)) (proof_lineage (payload d)) -> dlg_subject_id e = dlg_subject_id d.
Proof.
  intros Hs Hl. unfold dlg_subject_id. assert (same (List.last (proof_lineage (payload e)) e) (List.last (proof_lineage (payload d)) d)) as Hlast.
  { revert Hs Hl. generalize (proof_lineage (payload e)), (proof_lineage (payload d)). intros le ld Hs Hl. revert e d Hs. induction Hl as [|p q le ld Hpq Hl IH]; intros e d Hs; [done|].
    destruct Hl; [done|]. by apply (IH e d). }
  by destruct (static_fields _ _ Hlast) as (? & _).
Qed.

Lemma authorised_same id e d : same e d -> Forall2 (fun p q => same p q) (proof_lineage (payload e)) (proof_lineage (payload d)) -> authorised id e -> authorised id d.
Proof.
  intros Hs Hl [H1 H2 H3]. constructor; [by rewrite <- (same_subject e d)| |].
  - clear H1 H3. revert Hs H2. revert Hl. generalize (proof_lineage (payload e)), (proof_lineage (payload d)). intros le ld Hl. revert e d.
    induction Hl as [|p q le ld Hpq Hl IH]; intros e d Hs; cbn; [done|]. intros [Hi Hlk]. destruct (static_fields _ _ Hs) as (Hie & _).
    destruct (static_fields _ _ Hpq) as (_ & _ & _ & Hda & _). split; [congruence|]. by apply (IH p q).
  - intros q Hq. apply list_elem_of_lookup in Hq as [i Hi]. destruct (Forall2_lookup_r _ _ _ _ _ Hl Hi) as (p & Hp & Hpq).
    destruct (static_fields _ _ Hs) as (_ & _ & Hc & _). destruct (static_fields _ _ Hpq) as (_ & _ & Hc' & _). rewrite <- Hc, <- Hc'. apply H3. by eapply list_elem_of_lookup_2.
Qed.

Lemma held_lineages e d : OpDelegation e ∈ H -> held ds rs (OpDelegation d) -> same e d ->
  Forall2 (fun p q => same p q) (proof_lineage (payload e)) (proof_lineage (payload d)).
Proof. intros He Hd. apply same_lineage; [done|]. intros x Hx. by apply (so_closed _ _ Hok (OpDelegation d)). Qed.

Lemma same_eq e d p q : same e d -> same p q -> Signed_eq e p = Signed_eq d q.
Proof. intros (H1 & H2 & _)%static_fields (H3 & H4 & _)%static_fields. unfold Signed_eq. by rewrite H1, H2, H3, H4. Qed.
Lemma same_descendant e d p q : same p q -> Forall2 (fun p q => same p q) (proof_lineage (payload e)) (proof_lineage (payload d)) ->
  is_descendant_of (payload e) p = is_descendant_of (payload d) q.
Proof. intros Hpq Hl. unfold is_descendant_of. induction Hl as [|x y le ld Hxy Hl IH]; cbn [existsb]; [done|]. by rewrite (same_eq x y p q), IH. Qed.

Lemma accepted_same id e r : OpRevocation e ∈ H -> (forall x, x ∈ after_auth (OpRevocation r) -> held ds rs x) -> op_static (OpRevocation e) = op_static (OpRevocation r) ->
  revocation_accepted id e -> revocation_accepted id r.
Proof.
  intros He Hr Hs [H1 H2]. destruct (static_rev_fields _ _ Hs) as (Hi & Hrv & Hp).
  assert (forall x, x ∈ after_auth (OpRevocation e) -> x ∈ H) as HinH by (intros x; by apply (hi_closed _ Hh)).
  assert (same (revoke (payload e)) (revoke (payload r))) as Hsr by (apply same_op; [apply HinH, after_auth_revoke|apply Hr, after_auth_revoke|done]).
  pose proof (held_lineages _ _ (HinH _ (after_auth_revoke e)) (Hr _ (after_auth_revoke r)) Hsr) as Hl.
  split; [unfold rev_subject_id; by rewrite <- (same_subject _ _ Hsr Hl)|].
  destruct (rev_proof (payload e)) as [p|] eqn:Hpe, (rev_proof (payload r)) as [q|] eqn:Hpr; try done; [|by rewrite <- Hi]. cbn in Hp.
  pose proof (HinH _ (after_auth_rev_proof _ _ Hpe)) as HpH. pose proof (Hr _ (after_auth_rev_proof _ _ Hpr)) as Hqh.
  assert (same p q) as Hpq by by apply same_op. pose proof (held_lineages _ _ HpH Hqh Hpq) as Hlp.
  rewrite (same_eq _ _ _ _ Hsr Hpq), (same_descendant _ _ _ _ Hpq Hl) in H2. destruct H2 as [H2 H3]. split; [done|]. intros x Hx.
  apply list_elem_of_lookup in Hx as [i Hx]. destruct (Forall2_lookup_r _ _ _ _ _ Hlp Hx) as (y & Hy & Hyx).
  destruct (static_fields _ _ Hpq) as (Hip & _ & Hc & _). destruct (static_fields _ _ Hyx) as (_ & _ & Hc' & Hd' & _).
  rewrite <- Hc, <- Hc', <- Hip, <- Hd'. apply H3. by eapply list_elem_of_lookup_2.
Qed.

(** What is held tells its digests and signatures apart. *)
Lemma held_digest a b : held ds rs a -> held ds rs b -> op_digest a = op_digest b -> a = b.
Proof.
  intros Ha Hb Hd. destruct (Hm a Ha) as (ha & HaH & Hsa), (Hm b Hb) as (hb & HbH & Hsb).
  assert (op_static a = op_static b) as Hs.
  { rewrite <- Hsa, <- Hsb. apply (hi_digests _ Hh); [done..|]. by rewrite (static_digest _ _ Hsa), (static_digest _ _ Hsb). }
  clear - Ha Hb Hd Hs. destruct a as [a|a], b as [b|b]; cbn in Hs; try done; cbn in Ha, Hb, Hd; f_equal.
  - assert (Digest_hash a = Digest_hash b) as Heq by (unfold coerce in Hd; destruct (Digest_hash a), (Digest_hash b); cbn in Hd; congruence). rewrite Heq in Ha. congruence.
  - assert (Digest_hash a = Digest_hash b) as Heq by (unfold coerce in Hd; destruct (Digest_hash a), (Digest_hash b); cbn in Hd; congruence). rewrite Heq in Ha. congruence.
Qed.
Lemma held_signature d d' : held ds rs (OpDelegation d) -> held ds rs (OpDelegation d') -> signature d = signature d' -> d = d'.
Proof.
  intros Hd Hd' Hs. destruct (Hm _ Hd) as ([e|e] & He & Hes); [|done]. destruct (Hm _ Hd') as ([e'|e'] & He' & Hes'); [|done].
  destruct (static_fields _ _ Hes) as (_ & Hsg & _), (static_fields _ _ Hes') as (_ & Hsg' & _).
  assert (OpDelegation d = OpDelegation d') as Heq; [|by injection Heq]. apply held_digest; [done..|].
  rewrite <- (static_digest _ _ Hes), <- (static_digest _ _ Hes'). apply static_digest, (hi_signatures _ Hh); [done..|congruence].
Qed.
Lemma held_sound heads : (forall x, x ∈ heads -> held ds rs x) -> sound_history heads.
Proof.
  intros Hheads. assert (forall op, reaches heads op -> held ds rs op) as Hr by (intros op; by apply held_reaches). constructor.
  - intros a b Ha%Hr Hb%Hr. by apply held_digest.
  - intros d d' Hd%Hr Hd'%Hr. by apply held_signature.
  - intros r p Hrr%Hr Hp. destruct (Hm _ Hrr) as ([e|e] & He & Hes); [done|].
    pose proof (hi_revocations _ Hh e He) as Hacc. apply (accepted_same _ e r He) in Hacc as [_ Hacc]; [|intros x Hx; by apply (so_closed _ _ Hok (OpRevocation r))|done].
    rewrite Hp in Hacc. destruct Hacc as [Hpr _]. pose proof (so_closed _ _ Hok _ _ Hrr (after_auth_revoke r)) as Hv.
    pose proof (so_closed _ _ Hok _ _ Hrr (after_auth_rev_proof r p Hp)) as Hph. destruct Hpr as [[_ Hsg]%andb_true_iff|Hd].
    + apply bool_decide_eq_true in Hsg. left. symmetry. by apply held_signature.
    + right. apply existsb_exists in Hd as (x & Hx%list_elem_of_In & [_ Hsg]%andb_true_iff). apply bool_decide_eq_true in Hsg.
      assert (x = p) as <-; [|done]. apply held_signature; [|done|done]. eapply (held_lineage ds rs (revoke (payload r))); [done| |done].
      intros y Hy. by apply (so_closed _ _ Hok (OpDelegation (revoke (payload r)))).
Qed.
End Matched.
End Histories.
