(* ===== verification/KeyhiveIngest.v ===== *)
(** * Ingesting events
    ([keyhive/keyhive_core/src/keyhive.rs], [ingest_unsorted_static_events])

    What a pass over the events does to a keyhive that serves a history of
    membership operations, and how the loop of passes ends. *)

From S2P Require Import Prelude TreeMath Crypto Keys SecretStore Tree PathCrypto Signed CaMap OpGraph AppSecret Cgka.
From S2P Require Import Individual Membership MemberSort MemberExplore MemberOrder GroupState Group GroupView GroupProps GroupChange.
From S2P Require Import Active Document Keyhive KeyhiveStores KeyhiveSafe KeyhiveLive.

Local Open Scope monad_scope.

Section Delivery.
Context `{P : Primitives} `{E : Ed25519} {T : Type} `{Countable T}.
Context `{Ssd : !Serialize (Signed (StaticDelegation T)), Ssr : !Serialize (Signed (StaticRevocation T))}.
Context `{Spd : !Serialize (StaticDelegation T), Spr : !Serialize (StaticRevocation T)}.
Context `{Sop : !Serialize CgkaOperation, Ssop : !Serialize (Signed CgkaOperation)}.
Context `{Ssk : !Serialize ShareSecretKey, Spcs : !Serialize PcsKey}.
Context `{Sadd : !Serialize AddKeyOp, Srot : !Serialize RotateKeyOp, Skop : !Serialize KeyOp, Sev : !Serialize (StaticEvent T)}.

(** ** What it takes *)

Definition knows (k : Keyhive T) (id : Identifier) : Prop := is_Some (get_agent id k).
Definition received (k : Keyhive T) (op : MembershipOperation T) : Prop :=
  match op with
  | OpDelegation d => is_Some (kh_delegations k !! Digest_hash d)
  | OpRevocation r => is_Some (rs_revocations (kh_revocations k) !! Digest_hash r)
  end.
(** What the operation depends on is there, and its delegate is known. *)
Definition ready_for (k : Keyhive T) (op : MembershipOperation T) : Prop :=
  (forall x, x ∈ after_auth op -> received k x) /\
  match op with OpDelegation d => knows k (agent_identifier (delegate (payload d))) | OpRevocation _ => True end.
Definition has_home (k : Keyhive T) (id : Identifier) : Prop := is_Some (kh_groups k !! id) \/ is_Some (kh_docs k !! id).

Context (hist : list (MembershipOperation T)).

(** The keyhive has nothing but operations of the history, each of a group or
    document it has, and none of these is an individual to it. *)
Record serving (k : Keyhive T) : Prop := {
  sv_wf : kh_wf k;
  sv_matched op : kh_held k op -> exists h, h ∈ hist /\ op_static h = op_static op;
  sv_homed d : kh_held k (OpDelegation d) -> has_home k (dlg_subject_id d);
  sv_subjects op : op ∈ hist -> kh_individuals k !! op_subject_id op = None;
}.

(** What a keyhive is after it has recorded [op]. *)
Record recorded (k k' : Keyhive T) (op : MembershipOperation T) : Prop := {
  rd_delegations : kh_delegations k' = match op with OpDelegation d => dlg_insert d (kh_delegations k) | OpRevocation _ => kh_delegations k end;
  rd_revocations : rs_revocations (kh_revocations k') =
    match op with OpDelegation _ => rs_revocations (kh_revocations k) | OpRevocation r => <[Digest_hash r := r]> (rs_revocations (kh_revocations k)) end;
  rd_individuals : kh_individuals k' = kh_individuals k;
  rd_active : kh_active k' = kh_active k;
  rd_pending : kh_pending_events k' = kh_pending_events k;
  rd_homes id : has_home k id -> has_home k' id;
  rd_home : has_home k' (op_subject_id op);
}.

Lemma received_grows k k' op : kh_wf k -> kh_grows k k' -> received k op -> received k' op.
Proof.
  intros Hk Hg. destruct op as [d|r]; intros [x Hx]; cbn.
  - apply (held_lookup_dlg k) in Hx as [-> Hx]; [|done]. apply Hg in Hx. by eexists.
  - apply (held_lookup_rev k) in Hx as [-> Hx]; [|done]. apply Hg in Hx. by eexists.
Qed.
Lemma knows_iff k id : knows k id <-> id = active_id (kh_active k) \/ has_home k id \/ is_Some (kh_individuals k !! id).
Proof.
  unfold knows, get_agent, has_home. case_decide; [naive_solver|]. destruct (kh_docs k !! id); [naive_solver|]. destruct (kh_groups k !! id); [naive_solver|].
  destruct (kh_individuals k !! id); [naive_solver|]. split; [by intros []|]. intros [?|[[[]|[]]|[]]]; done.
Qed.
Lemma recorded_knows k k' op id : recorded k k' op -> knows k id -> knows k' id.
Proof. intros Hr. rewrite !knows_iff, (rd_active _ _ _ Hr), (rd_individuals _ _ _ Hr). intros [?|[?|?]]; [by left|right; left; by apply (rd_homes _ _ _ Hr)|by right; right]. Qed.

(** *** Static forms and digests *)

Lemma static_dlg_digest (d : SignedDelegation T) : coerce (Digest_hash (Signed_map dlg_static d)) = Digest_hash d.
Proof. reflexivity. Qed.
Lemma static_rev_digest (r : SignedRevocation T) : coerce (Digest_hash (Signed_map rev_static r)) = Digest_hash r.
Proof. reflexivity. Qed.

Lemma resolve_ready {Er} (f : _ -> Er) (k : Keyhive T) (revs : list (SignedRevocation T)) : (forall r, r ∈ revs -> received k (OpRevocation r)) ->
  forall acc, exists rs, resolve_revocations f k (Digest_hash <$> revs) acc = Ok rs.
Proof.
  intros Hr. induction revs as [|r revs IH]; intros acc; cbn [fmap list_fmap resolve_revocations]; [eauto|].
  destruct (Hr r (list_elem_of_here _ _)) as [x Hx]. unfold get_revocation. rewrite Hx. apply IH. intros y Hy. apply Hr. by right.
Qed.
Lemma convert_ready_dlg k (d : SignedDelegation T) : ready_for k (OpDelegation d) -> exists d', static_delegation_to_delegation (Signed_map dlg_static d) k = Ok d'.
Proof.
  intros [Hr [a Ha]]. unfold static_delegation_to_delegation, Signed_map. cbn [payload]. rewrite dlg_static_eq. cbn [sd_proof sd_delegate sd_after_revocations].
  assert (exists p, resolve_proof k (Digest_hash <$> proof (payload d)) = Ok p) as [p ->].
  { destruct (proof (payload d)) as [q|] eqn:Hp; cbn [fmap option_fmap option_map resolve_proof]; [|eauto]. destruct (Hr _ (after_auth_proof d q Hp)) as [x Hx].
    unfold get_delegation. rewrite Hx. cbn. eauto. }
  cbn. rewrite Ha. cbn. destruct (resolve_ready (Er := StaticEventConversionError T) ConversionMissingRevocation k (after_revocations (payload d))) with (acc := @nil (SignedRevocation T)) as [rs ->]; [|eauto].
  intros r Hin. apply Hr. unfold after_auth. apply elem_of_app. right. apply list_elem_of_fmap. by exists r.
Qed.
Lemma convert_ready_rev k (r : SignedRevocation T) : ready_for k (OpRevocation r) -> exists r', static_revocation_to_revocation (Signed_map rev_static r) k = Ok r'.
Proof.
  intros [Hr _]. unfold static_revocation_to_revocation, Signed_map. cbn [payload]. rewrite rev_static_eq. cbn [sr_revoke sr_proof].
  destruct (Hr _ (after_auth_revoke r)) as [v Hv]. unfold get_delegation. rewrite Hv. cbn [ok_orR bindR].
  destruct (rev_proof (payload r)) as [q|] eqn:Hp; cbn [fmap option_fmap option_map resolve_proof]; [|cbn; eauto]. destruct (Hr _ (after_auth_rev_proof r q Hp)) as [x Hx]. unfold get_delegation. rewrite Hx. cbn. eauto.
Qed.

(** ** Groups take what they are sent *)

Context (Hh : history hist).
Abbreviation kh_recordable k := (recordable (kh_delegations k) (rs_revocations (kh_revocations k))).
Definition matched (op : MembershipOperation T) : Prop := exists h, h ∈ hist /\ op_static h = op_static op.

Lemma insert_matched_dlg ds (rs : CaMap (SignedRevocation T)) d : (forall op, held ds rs op -> matched op) -> recordable ds rs (OpDelegation d) -> matched (OpDelegation d) ->
  forall op, held (dlg_insert d ds) rs op -> matched op.
Proof.
  intros Hm [_ _ [Hin|Hn]] Hd op Hop; [rewrite (insert_held ds rs) in Hop by done; by apply Hm|]. apply held_insert_dlg in Hop as [->|Hop]; [done|by apply Hm|done].
Qed.
Lemma insert_matched_rev ds (rs : RevocationStore T) r : (forall op, held ds (rs_revocations rs) op -> matched op) -> matched (OpRevocation r) ->
  forall op, held ds (rs_revocations (rev_store_insert r rs)) op -> matched op.
Proof. intros Hm Hd op [->|Hop]%held_insert_rev; [done|by apply Hm]. Qed.

Lemma matched_authorised k d : serving k -> kh_recordable k (OpDelegation d) -> matched (OpDelegation d) -> authorised (dlg_subject_id d) d.
Proof.
  intros [Hk Hm _ _] Hd ([e|e] & He & Hes); [|done].
  pose proof (same_lineage hist Hh _ _ (kw_stores _ Hk) Hm e d He (rc_after _ _ _ Hd) Hes) as Hl. rewrite <- (same_subject e d Hes Hl).
  apply (authorised_same _ e d Hes Hl). by apply (hi_delegations _ Hh).
Qed.
Lemma matched_accepted k r : serving k -> kh_recordable k (OpRevocation r) -> matched (OpRevocation r) -> revocation_accepted (rev_subject_id r) r.
Proof.
  intros [Hk Hm _ _] Hd ([e|e] & He & Hes); [done|]. pose proof (hi_revocations _ Hh e He) as Hacc.
  apply (accepted_same hist Hh _ _ (kw_stores _ Hk) Hm _ e r He (rc_after _ _ _ Hd) Hes) in Hacc. pose proof Hacc as [Hs _]. by rewrite Hs.
Qed.

Lemma group_takes_dlg k g d : serving k -> group_wf (dlg_subject_id d) (with_stores k g) -> kh_recordable k (OpDelegation d) -> matched (OpDelegation d) ->
  exists h g', receive_delegation d (with_stores k g) = (Ok h, g') /\ g_state g' = state_after d (g_state (with_stores k g)).
Proof.
  intros Hs Hg Hd Hm. pose proof Hs as [Hk Hall _ _]. pose proof (matched_authorised k d Hs Hd Hm) as Ha. rewrite <- (gw_id _ _ Hg) in Ha.
  set (g0 := with_stores k g) in *. unfold receive_delegation. unfold bindM at 1, zoom. pose proof (add_delegation_spec d (g_state g0)) as Hadd.
  destruct (add_delegation d (g_state g0)) as [[h|e| |] s]; try done; [|by destruct Hadd]. destruct Hadd as (_ & -> & ->).
  destruct (recorded_dlg _ _ d (kw_stores _ Hk) Hd) as [Hok Hin].
  destruct (rebuild_returns (Er := AddError) (set_state (state_after d (g_state g0)) g0)) as (g' & Hreb & Hst).
  { apply (held_sound hist Hh _ _ Hok); [by apply insert_matched_dlg|]. intros x [->|Hx]%heads_after_known; [done|]. apply extends_insert_dlg; [done|by apply (gw_heads _ _ Hg)]. }
  unfold bindM. rewrite Hreb. cbn. eauto.
Qed.
Lemma group_takes_rev k g r : serving k -> group_wf (rev_subject_id r) (with_stores k g) -> kh_recordable k (OpRevocation r) -> matched (OpRevocation r) ->
  exists h g', receive_revocation r (with_stores k g) = (Ok h, g') /\ g_state g' = state_after_rev r (g_state (with_stores k g)).
Proof.
  intros Hs Hg Hr Hm. pose proof Hs as [Hk Hall _ _]. pose proof (matched_accepted k r Hs Hr Hm) as Ha. rewrite <- (gw_id _ _ Hg) in Ha.
  set (g0 := with_stores k g) in *. unfold receive_revocation. unfold bindM at 1, modify. unfold bindM at 1, zoom. cbn [notify g_state]. pose proof (add_revocation_spec r (g_state g0)) as Hadd.
  destruct (add_revocation r (g_state g0)) as [[h|e| |] s]; try done; [|by destruct Hadd]. destruct Hadd as (_ & -> & ->).
  destruct (recorded_rev _ _ r (kw_stores _ Hk) Hr) as [Hok Hin].
  destruct (rebuild_returns (Er := AddError) (set_state (state_after_rev r (g_state g0)) (notify (OpRevocation r) g0))) as (g' & Hreb & Hst).
  { apply (held_sound hist Hh _ _ Hok); [by apply insert_matched_rev|]. intros x Hx.
    apply heads_of_elem in Hx as [(h' & y & Hy & ->)|(h' & y & Hy & ->)]; cbn in Hy.
    - apply extends_insert_rev; [done|]. apply (gw_heads _ _ Hg), heads_of_elem. left. by exists h', y.
    - apply lookup_insert_Some in Hy as [[_ <-]|[_ Hy]]; [done|]. apply extends_insert_rev; [done|]. apply (gw_heads _ _ Hg), heads_of_elem. right. by exists h', y. }
  unfold bindM. unfold state_after_rev in Hreb. rewrite Hreb. cbn. eauto.
Qed.

(** ** Keyhives take what they are sent *)

Lemma subject_not_individual k d : serving k -> kh_recordable k (OpDelegation d) -> matched (OpDelegation d) -> kh_individuals k !! dlg_subject_id d = None.
Proof.
  intros [Hk Hm _ Hs] Hd ([e|e] & He & Hes); [|done].
  pose proof (same_lineage hist Hh _ _ (kw_stores _ Hk) Hm e d He (rc_after _ _ _ Hd) Hes) as Hl. rewrite <- (same_subject e d Hes Hl). by apply (Hs _ He).
Qed.

Lemma last_cons {A} (l : list A) : forall x y, List.last (x :: l) y = List.last l x.
Proof. induction l as [|z l IH]; intros x y; [done|]. change (List.last (z :: l) y = List.last (z :: l) x). by rewrite !IH. Qed.
Lemma homeless_root k d : serving k -> kh_recordable k (OpDelegation d) -> ~ has_home k (dlg_subject_id d) -> dlg_subject_id d = issuer d.
Proof.
  intros [Hk _ Hhome _] Hd Hno. destruct (proof (payload d)) as [p|] eqn:Hp; [|by apply root_subject]. destruct Hno.
  assert (dlg_subject_id d = dlg_subject_id p) as ->; [|apply Hhome, (rc_after _ _ _ Hd), after_auth_proof, Hp].
  unfold dlg_subject_id. destruct d as [[a c q rs ct] i s]. cbn in Hp. subst q. cbn [proof_lineage payload]. by rewrite last_cons.
Qed.

Lemma new_group_takes k d : serving k -> kh_recordable k (OpDelegation d) -> matched (OpDelegation d) -> exists g,
  Group_new (dlg_subject_id d) d (kh_delegations k) (kh_revocations k) [] = Ok g /\ gs_delegations (g_state g) = dlg_insert d (kh_delegations k) /\
  rs_revocations (gs_revocations (g_state g)) = rs_revocations (kh_revocations k) /\ group_id g = issuer d /\ sound_history (group_heads g).
Proof.
  intros Hs Hd Hm. pose proof Hs as [Hk Hall _ _]. pose proof Hd as [Ha Hv Ho]. unfold Group_new, Group_create.
  destruct (GroupState_new_held d (kh_delegations k) (kh_revocations k) (kw_stores _ Hk) Ha ltac:(tauto)) as (rs' & -> & Hrs). cbn [loopR bindR].
  set (s := mkGroupState _ _ _ _ _). set (g0 := mkGroup (IdOrGroup (dlg_subject_id d)) ∅ ∅ s ([] ++ [OpDelegation d])).
  destruct (recorded_dlg _ _ d (kw_stores _ Hk) Hd) as [Hok Hin].
  assert (sound_history (group_heads g0)) as Hsound.
  { apply (held_sound hist Hh _ _ Hok); [by apply insert_matched_dlg|]. intros x Hx. apply heads_of_elem in Hx as [(h & y & Hy & ->)|(h & y & Hy & ->)]; cbn in Hy.
    - apply lookup_insert_Some in Hy as [[_ <-]|[_ Hy]]; [done|]. by rewrite lookup_empty in Hy.
    - by rewrite lookup_empty in Hy. }
  destruct (rebuild_returns (Er := Empty_set) g0 Hsound) as (g' & Hreb & Hst). rewrite Hreb. cbn. exists g'. unfold group_id, group_heads. rewrite Hst. by split_and!.
Qed.

Lemma deliver_dlg_ok k d : serving k -> kh_recordable k (OpDelegation d) -> matched (OpDelegation d) ->
  exists k', deliver_delegation d k = (Ok tt, k') /\ recorded k k' (OpDelegation d).
Proof.
  intros Hs Hd Hm. unfold deliver_delegation. cbn zeta. unfold bindM at 1, get. destruct (kh_groups k !! dlg_subject_id d) as [g|] eqn:Hg.
  { destruct (group_takes_dlg k g d Hs (kw_groups _ (sv_wf _ Hs) _ _ Hg) Hd Hm) as (h & g' & Heq & Hst).
    unfold bindM, at_group, map_err. rewrite Heq. cbn. eexists. split; [done|]. constructor; cbn; rewrite ?Hst; try done.
    - intros id [?|?]; [left|by right]. cbn. apply lookup_insert_is_Some'. by right.
    - left. cbn. rewrite lookup_insert_eq. by eexists. }
  destruct (kh_docs k !! dlg_subject_id d) as [doc|] eqn:Hdoc.
  { destruct (group_takes_dlg k (doc_group doc) d Hs (kw_docs _ (sv_wf _ Hs) _ _ Hdoc) Hd Hm) as (h & g' & Heq & Hst).
    unfold bindM, at_doc, map_err, doc_receive_delegation, on_group, zoom. cbn [doc_group Document.set_group]. rewrite Heq. cbn. eexists. split; [done|]. constructor; cbn; rewrite ?Hst; try done.
    - intros id [?|?]; [by left|right]. cbn. apply lookup_insert_is_Some'. by right.
    - right. cbn. rewrite lookup_insert_eq. by eexists. }
  rewrite (subject_not_individual k d Hs Hd Hm). destruct (new_group_takes k d Hs Hd Hm) as (g & Hnew & Hds & Hrs & Hid & Hsound).
  assert (dlg_subject_id d = issuer d) as Hroot by (apply (homeless_root k); [done..|]; intros [[? ?]|[? ?]]; congruence).
  unfold new_membered, bindM, get, liftR, modify. rewrite Hnew. cbn [no_error res_map_err].
  assert (recorded k (set_groups (<[group_id g := g]> (kh_groups k)) (take_stores g k)) (OpDelegation d)) as Hgroup.
  { constructor; cbn; try done.
    - intros id [?|?]; [left|by right]. cbn. apply lookup_insert_is_Some'. by right.
    - left. cbn. rewrite Hid, Hroot, lookup_insert_eq. by eexists. }
  destruct (after_content (payload d) !! dlg_subject_id d) as [[|h tl]|]; [by eexists| |by eexists].
  destruct (rebuild_returns (Er := CgkaError) g Hsound) as (g' & Hreb & Hst).
  unfold from_group, doc_rebuild, on_group, zoom. cbn [doc_group]. rewrite Hreb. cbn. eexists. split; [done|]. constructor; cbn; try done.
  - intros id [?|?]; [by left|right]. cbn. apply lookup_insert_is_Some'. by right.
  - right. cbn. unfold doc_id, group_id in *. cbn. rewrite Hst, Hid, Hroot, lookup_insert_eq. by eexists.
Qed.

Lemma deliver_rev_ok k r : serving k -> kh_recordable k (OpRevocation r) -> matched (OpRevocation r) ->
  exists k', deliver_revocation r k = (Ok tt, k') /\ recorded k k' (OpRevocation r).
Proof.
  intros Hs Hr Hm. unfold deliver_revocation. cbn zeta. unfold bindM at 1, get. destruct (kh_groups k !! rev_subject_id r) as [g|] eqn:Hg.
  { destruct (group_takes_rev k g r Hs (kw_groups _ (sv_wf _ Hs) _ _ Hg) Hr Hm) as (h & g' & Heq & Hst).
    unfold bindM, at_group, map_err. rewrite Heq. cbn. eexists. split; [done|]. constructor; cbn; rewrite ?Hst; try done.
    - intros id [?|?]; [left|by right]. cbn. apply lookup_insert_is_Some'. by right.
    - left. cbn. rewrite lookup_insert_eq. by eexists. }
  destruct (kh_docs k !! rev_subject_id r) as [doc|] eqn:Hdoc.
  { destruct (group_takes_rev k (doc_group doc) r Hs (kw_docs _ (sv_wf _ Hs) _ _ Hdoc) Hr Hm) as (h & g' & Heq & Hst).
    unfold bindM, at_doc, map_err, doc_receive_revocation, on_group, zoom. cbn [doc_group Document.set_group]. rewrite Heq. cbn. eexists. split; [done|]. constructor; cbn; rewrite ?Hst; try done.
    - intros id [?|?]; [by left|right]. cbn. apply lookup_insert_is_Some'. by right.
    - right. cbn. rewrite lookup_insert_eq. by eexists. }
  destruct (sv_homed _ Hs _ (rc_after _ _ _ Hr _ (after_auth_revoke r))) as [[? Hx]|[? Hx]]; unfold rev_subject_id in *; congruence.
Qed.

Lemma recorded_held k k' op x : recorded k k' op -> kh_recordable k op -> kh_held k' x -> x = op \/ kh_held k x.
Proof.
  intros [Hd Hr _ _ _ _ _] [_ _ Hnew]. unfold kh_held. rewrite Hd, Hr. destruct op as [d|r].
  - destruct Hnew as [Hin|Hnew]; [rewrite (insert_held _ _ _ Hin); by right|]. by intros ?%held_insert_dlg.
  - by intros ?%(held_insert_rev _ (kh_revocations k)).
Qed.
Lemma recorded_received k k' op : recorded k k' op -> received k' op.
Proof.
  intros [Hd Hr _ _ _ _ _]. destruct op as [d|r]; cbn [received]; [rewrite Hd|rewrite Hr, lookup_insert_eq; by eexists].
  unfold dlg_insert, CaMap_insert. cbn. rewrite lookup_insert_eq. by eexists.
Qed.
Lemma recorded_serving k k' op : serving k -> kh_wf k' -> kh_recordable k op -> matched op -> recorded k k' op -> serving k'.
Proof.
  intros [Hk Hm Hhome Hsub] Hk' Hop Hmat Hr. constructor; [done| | |by rewrite (rd_individuals _ _ _ Hr)].
  - intros x [->|Hx]%(recorded_held _ _ _ _ Hr Hop); [done|by apply Hm].
  - intros d [<-|Hx]%(recorded_held _ _ _ _ Hr Hop); [by apply (rd_home _ _ _ Hr)|by apply (rd_homes _ _ _ Hr), Hhome].
Qed.

(** One event: it is taken, or it is not ready and nothing happens. *)
Record took (k k' : Keyhive T) : Prop := {
  tk_serving : serving k';
  tk_grows : kh_grows k k';
  tk_knows id : knows k id -> knows k' id;
  tk_pending : kh_pending_events k' = kh_pending_events k;
}.
Lemma took_refl k : serving k -> took k k.
Proof. intros Hs. constructor; [done|apply kh_grows_refl|done|done]. Qed.
Lemma took_trans k k1 k2 : took k k1 -> took k1 k2 -> took k k2.
Proof. intros [A1 A2 A3 A4] [B1 B2 B3 B4]. constructor; [done|intros x Hx; by apply B2, A2|auto|by rewrite B4]. Qed.
Lemma recorded_took k k' op : serving k -> kh_wf k' -> kh_grows k k' -> kh_recordable k op -> matched op -> recorded k k' op -> took k k' /\ received k' op.
Proof.
  intros Hs Hk' Hg Hop Hm Hr. split; [|by apply (recorded_received k)]. constructor; [by apply (recorded_serving k k' op)|done| |apply Hr].
  intros id. by apply (recorded_knows k k' op).
Qed.

(** Conversions only fail for want of something. *)
Lemma convert_returns_dlg sd (k : Keyhive T) : (exists d, static_delegation_to_delegation sd k = Ok d) \/ exists e, static_delegation_to_delegation sd k = Err e.
Proof.
  unfold static_delegation_to_delegation, resolve_proof. destruct (sd_proof (payload sd)) as [h|]; [destruct (get_delegation h k); cbn; [|eauto]|cbn];
    (destruct (get_agent _ k); cbn; [|eauto]);
    (destruct (resolve_returns (Er := StaticEventConversionError T) ConversionMissingRevocation k (sd_after_revocations (payload sd)) []) as [[? ->]|(? & _ & -> & _)]; cbn; eauto).
Qed.
Lemma convert_returns_rev sr (k : Keyhive T) : (exists r, static_revocation_to_revocation sr k = Ok r) \/ exists e, static_revocation_to_revocation sr k = Err e.
Proof.
  unfold static_revocation_to_revocation, resolve_proof. destruct (get_delegation (sr_revoke (payload sr)) k); cbn; [|eauto].
  destruct (sr_proof (payload sr)) as [h|]; [destruct (get_delegation h k)|]; cbn; eauto.
Qed.

Lemma convert_takes_dlg k d d' : serving k -> OpDelegation d ∈ hist -> kh_delegations k !! Digest_hash d = None ->
  static_delegation_to_delegation (Signed_map dlg_static d) k = Ok d' -> exists k',
  deliver_delegation (mkSigned d' (issuer d) (signature d)) k = (Ok tt, k') /\ took k k' /\ received k' (OpDelegation d).
Proof.
  intros Hs Hop Hin Hc. pose proof (sv_wf _ Hs) as Hk. pose proof (hi_verified _ Hh _ Hop) as Hv.
  pose proof (convert_recordable_dlg (Signed_map dlg_static d) k d' Hk Hin Hv Hc) as Hr. destruct (convert_delegation _ _ _ Hk Hc) as [Hst _].
  assert (matched (OpDelegation (mkSigned d' (issuer d) (signature d)))) as Hm.
  { exists (OpDelegation d). split; [done|]. cbn [op_static]. unfold Signed_map. cbn [payload issuer signature] in *. by rewrite Hst. }
  destruct (deliver_dlg_ok k _ Hs Hr Hm) as (k' & Heq & Hrec). destruct (deliver_delegation_keeps k _ Hk Hr) as [[Hw Hg] _]. cbn [Signed_map issuer signature] in *. rewrite Heq in Hw, Hg |- *.
  exists k'. split; [done|]. destruct (recorded_took k k' _ Hs Hw Hg Hr Hm Hrec) as [Ht Hrcv]. split; [done|]. cbn [received] in *.
  pose proof (static_digest_dlg d' (Signed_map dlg_static d) Hst) as Hdig. rewrite static_dlg_digest in Hdig. cbn [Signed_map issuer signature] in Hdig. by rewrite <- Hdig.
Qed.
Lemma convert_takes_rev k r r' : serving k -> OpRevocation r ∈ hist -> rs_revocations (kh_revocations k) !! Digest_hash r = None ->
  static_revocation_to_revocation (Signed_map rev_static r) k = Ok r' -> exists k',
  deliver_revocation (mkSigned r' (issuer r) (signature r)) k = (Ok tt, k') /\ took k k' /\ received k' (OpRevocation r).
Proof.
  intros Hs Hop Hin Hc. pose proof (sv_wf _ Hs) as Hk. pose proof (hi_verified _ Hh _ Hop) as Hv.
  pose proof (convert_recordable_rev (Signed_map rev_static r) k r' Hk Hin Hv Hc) as Hr. destruct (convert_revocation _ _ _ Hk Hc) as [Hst _].
  assert (matched (OpRevocation (mkSigned r' (issuer r) (signature r)))) as Hm.
  { exists (OpRevocation r). split; [done|]. cbn [op_static]. unfold Signed_map. cbn [payload issuer signature] in *. by rewrite Hst. }
  destruct (deliver_rev_ok k _ Hs Hr Hm) as (k' & Heq & Hrec). destruct (deliver_revocation_keeps k _ Hk Hr) as [[Hw Hg] _]. cbn [Signed_map issuer signature] in *. rewrite Heq in Hw, Hg |- *.
  exists k'. split; [done|]. destruct (recorded_took k k' _ Hs Hw Hg Hr Hm Hrec) as [Ht Hrcv]. split; [done|]. cbn [received] in *.
  pose proof (static_digest_rev r' (Signed_map rev_static r) Hst) as Hdig. rewrite static_rev_digest in Hdig. cbn [Signed_map issuer signature] in Hdig. by rewrite <- Hdig.
Qed.

Lemma event_outcome public_sk k op : serving k -> op ∈ hist ->
  (exists k', receive_static_event public_sk (op_static op) k = (Ok tt, k') /\ took k k' /\ received k' op) \/
  (exists e, receive_static_event public_sk (op_static op) k = (Err (StaticMembershipError e), k) /\ ~ ready_for k op).
Proof.
  intros Hs Hop. pose proof (hi_verified _ Hh op Hop) as Hv.
  destruct op as [d|r]; cbn [op_static receive_static_event]; unfold map_err; [rewrite kh_receive_delegation_eq, static_dlg_digest|rewrite kh_receive_revocation_eq, static_rev_digest];
    (case_bool_decide as Hin; [left; exists k; split_and!; [done|by apply took_refl|done]|]); cbn [op_verified] in Hv; rewrite Hv; apply eq_None_not_Some in Hin.
  - destruct (convert_returns_dlg (Signed_map dlg_static d) k) as [[d' Hc]|[e Hc]]; rewrite Hc; cbn [issuer signature Signed_map].
    + left. destruct (convert_takes_dlg k d d' Hs Hop Hin Hc) as (k' & -> & Ht & Hr). by exists k'.
    + right. eexists. split; [done|]. intros [? Hok]%convert_ready_dlg. congruence.
  - destruct (convert_returns_rev (Signed_map rev_static r) k) as [[r' Hc]|[e Hc]]; rewrite Hc; cbn [issuer signature Signed_map].
    + left. destruct (convert_takes_rev k r r' Hs Hop Hin Hc) as (k' & -> & Ht & Hr). by exists k'.
    + right. eexists. split; [done|]. intros [? Hok]%convert_ready_rev. congruence.
Qed.

(** ** Passes over the events *)

Lemma took_ready k k' op : serving k -> took k k' -> ready_for k op -> ready_for k' op.
Proof.
  intros Hs Ht [Hr Hd]. split; [intros x Hx; eapply received_grows; [apply Hs|apply Ht|by apply Hr]|]. destruct op; [|done]. by apply (tk_knows _ _ Ht).
Qed.
Lemma took_received k k' op : serving k -> took k k' -> received k op -> received k' op.
Proof. intros Hs Ht. apply received_grows; [apply Hs|apply Ht]. Qed.

Lemma epoch_outcome public_sk es : forall next_epoch k, serving k -> (forall e, e ∈ es -> exists op, op ∈ hist /\ e = op_static op) -> exists left k',
  ingest_epoch public_sk es next_epoch k = (Ok (next_epoch ++ left), k') /\ took k k' /\ left `sublist_of` es /\
  (forall op, op ∈ hist -> op_static op ∈ es -> op_static op ∈ left \/ received k' op) /\
  (forall op, op ∈ hist -> op_static op ∈ left -> ~ ready_for k op).
Proof.
  induction es as [|e es IH]; intros next_epoch k Hs Hes.
  { exists [], k. rewrite app_nil_r. split_and!; [done|by apply took_refl|constructor|by intros op _ ?%not_elem_of_nil..]. }
  cbn [ingest_epoch]. destruct (Hes e (list_elem_of_here _ _)) as (op & Hop & ->).
  assert (forall e, e ∈ es -> exists op, op ∈ hist /\ e = op_static op) as Hes' by (intros e He; apply Hes; by right).
  destruct (event_outcome public_sk k op Hs Hop) as [(k1 & Heq & Ht & _)|(er & Heq & _)]; rewrite Heq.
  - destruct (IH next_epoch k1 (tk_serving _ _ Ht) Hes') as (left & k' & Hrun & Ht' & Hsub & Hin & Hleft). exists left, k'.
    split_and!; [done|by apply (took_trans _ k1)|by constructor| |].
    + intros x Hx [Hxe|Hxe]%elem_of_cons; [|by apply Hin]. right. eapply took_received; [apply Ht|done|].
      destruct (event_outcome public_sk k x Hs Hx) as [(k2 & Heq2 & _ & Hr)|(er & Heq2 & _)]; rewrite Hxe, Heq in Heq2; by simplify_eq.
    + intros x Hx Hl Hr. by apply (Hleft x Hx Hl), (took_ready k).
  - destruct (IH (next_epoch ++ [op_static op]) k Hs Hes') as (left & k' & Hrun & Ht' & Hsub & Hin & Hleft). exists (op_static op :: left), k'.
    rewrite <- app_assoc in Hrun. split_and!; [done|done|by constructor| |].
    + intros x Hx [Hxe|Hxe]%elem_of_cons; [left; rewrite Hxe; left|]. destruct (Hin x Hx Hxe); [left; by right|by right].
    + intros x Hx [Hxe|Hxe]%elem_of_cons; [|by apply Hleft].
      destruct (event_outcome public_sk k x Hs Hx) as [(k2 & Heq2 & _)|(er' & _ & Hn)]; [|done]. rewrite Hxe, Heq in Heq2. by simplify_eq.
Qed.

(** A causal order: what an operation depends on comes before it, as does an
    operation of the group it delegates to, unless the keyhive has them. *)
Fixpoint causal_order (k : Keyhive T) (before rest : list (MembershipOperation T)) : Prop :=
  match rest with
  | [] => True
  | op :: rest' =>
      (forall x, x ∈ after_auth op -> received k x \/ x ∈ before) /\
      match op with
      | OpDelegation d => let id := agent_identifier (delegate (payload d)) in knows k id \/ exists y, OpDelegation y ∈ before /\ dlg_subject_id y = id
      | OpRevocation _ => True
      end /\ causal_order k (op :: before) rest'
  end.

Lemma received_home k y : serving k -> OpDelegation y ∈ hist -> received k (OpDelegation y) -> has_home k (dlg_subject_id y).
Proof.
  intros [Hk Hm Hhome _] Hy [d Hd]. apply (held_lookup_dlg k) in Hd as [Hdig Hd]; [|done].
  assert (op_static (OpDelegation y) = op_static (OpDelegation d)) as Hs by (apply (same_op hist Hh _ _ Hm); [done..|]; cbn; by rewrite Hdig).
  rewrite (same_subject y d Hs); [by apply Hhome|]. apply (same_lineage hist Hh _ _ (kw_stores _ Hk) Hm); [done| |done].
  intros x Hx. exact (so_closed _ _ (kw_stores _ Hk) _ _ Hd Hx).
Qed.

Lemma received_subject k op : serving k -> op ∈ hist -> received k op -> has_home k (op_subject_id op).
Proof.
  intros Hs Hop Hr. destruct op as [d|r]; [by apply received_home|]. pose proof Hs as [Hk Hm Hhome _]. destruct Hr as [x Hx].
  apply (held_lookup_rev k) in Hx as [Hdig Hx]; [|done].
  assert (op_static (OpRevocation r) = op_static (OpRevocation x)) as (_ & Hst & _)%static_rev_fields by (apply (same_op hist Hh _ _ Hm); [done..|]; cbn; by rewrite Hdig).
  apply (received_home k _ Hs (hi_closed _ Hh _ _ Hop (after_auth_revoke r))). cbn [received].
  pose proof (so_closed _ _ (kw_stores _ Hk) _ _ Hx (after_auth_revoke x)) as Hheld. cbn [op_digest] in Hst.
  assert (Digest_hash (revoke (payload r)) = Digest_hash (revoke (payload x))) as -> by (injection Hst; unfold Digest_hash; congruence). by eexists.
Qed.

Lemma causal_all k0 k : serving k0 -> took k0 k -> forall rest before, causal_order k0 before rest ->
  (forall op, op ∈ before \/ op ∈ rest -> op ∈ hist) -> (forall op, op ∈ before -> received k op) ->
  (forall op, op ∈ rest -> received k op \/ ~ ready_for k op) -> forall op, op ∈ rest -> received k op /\ ready_for k op.
Proof.
  intros Hs0 Ht. induction rest as [|o rest IH]; intros before Hc Hh' Hb Hr op; [by intros ?%not_elem_of_nil|]. destruct Hc as (Hdeps & Hdel & Hc).
  assert (ready_for k o) as Hready.
  { split.
    - intros x Hx. destruct (Hdeps x Hx) as [Hx'|Hx']; [by apply (took_received k0)|by apply Hb].
    - destruct o as [d|r]; [|done]. destruct Hdel as [Hk|(y & Hy & <-)]; [by apply (tk_knows _ _ Ht)|]. apply knows_iff. right. left.
      apply received_home; [apply Ht|apply Hh'; by left|by apply Hb]. }
  assert (received k o) as Hrec by (destruct (Hr o (list_elem_of_here _ _)); done).
  intros [->|Hop]%elem_of_cons; [done|]. apply (IH (o :: before) Hc); [| | |done].
  - intros x [[->|Hx]%elem_of_cons|Hx]; apply Hh'; [right; left|by left|right; by right].
  - intros x [->|Hx]%elem_of_cons; [done|by apply Hb].
  - intros x Hx. apply Hr. by right.
Qed.

Lemma sublist_whole {A} (l l' : list A) : l `sublist_of` l' -> length l = length l' -> l = l'.
Proof. induction 1 as [|x l l' _ IH|x l l' Hl _]; cbn; [done|intros [= ?]; by rewrite IH|]. apply sublist_length in Hl. lia. Qed.
Lemma loop_delivers public_sk k0 ops : serving k0 -> causal_order k0 [] ops -> (forall op, op ∈ ops -> op ∈ hist) ->
  forall fuel es k, length es < fuel -> took k0 k -> (forall e, e ∈ es -> exists op, op ∈ ops /\ e = op_static op) ->
  (forall op, op ∈ ops -> op_static op ∈ es \/ received k op) ->
  exists k', ingest_loop public_sk fuel es k = (Ok [], k') /\ took k0 k' /\ forall op, op ∈ ops -> received k' op.
Proof.
  intros Hs0 Hc Hops. induction fuel as [|fuel IH]; intros es k Hlen Ht Hes Hin; [lia|]. cbn [ingest_loop]. unfold bindM.
  destruct (epoch_outcome public_sk es [] k (tk_serving _ _ Ht)) as (left & k' & -> & Ht' & Hsub & Hout & Hleft); [intros e He; destruct (Hes e He) as (op & ? & ->); eauto|].
  cbn [app]. assert (forall op, op ∈ ops -> op_static op ∈ left \/ received k' op) as Hin'.
  { intros op Hop. destruct (Hin op Hop) as [He|Hr]; [by apply Hout; [apply Hops|]|]. right. by apply (took_received k); [apply Ht|..]. }
  pose proof (took_trans _ _ _ Ht Ht') as Ht2. destruct left as [|e left'] eqn:Hl.
  { exists k'. split_and!; [done|done|]. intros op Hop. destruct (Hin' op Hop) as [?%not_elem_of_nil|?]; done. }
  rewrite <- Hl in *. destruct (decide (length left = length es)) as [Hsame|Hless].
  - exfalso. assert (left = es) as -> by (by apply sublist_whole).
    destruct (Hes e) as (op & Hop & Heq); [rewrite Hl; left|].
    assert (received k op /\ ready_for k op) as [_ Hr].
    { apply (causal_all k0 k Hs0 Ht ops [] Hc); [intros x [?%not_elem_of_nil|?]; [done|by apply Hops]|by intros x ?%not_elem_of_nil| |done].
      intros x Hx. destruct (Hin x Hx); [right; by apply Hleft; [apply Hops|]|by left]. }
    apply (Hleft op); [by apply Hops|rewrite Hl, Heq; left|done].
  - apply sublist_length in Hsub as Hle. apply IH; [lia|done| |done].
    intros x Hx. apply Hes. by eapply elem_of_sublist.
Qed.
End Delivery.
