(* ===== verification/KeyhiveProps.v ===== *)
(** * What a keyhive promises
    ([keyhive/keyhive_core/src/keyhive.rs])

    Everything in the stores is genuine and complete, events are taken in
    whatever order they come, and ingesting ends. *)

From S2P Require Import Prelude TreeMath Crypto Keys SecretStore Tree PathCrypto Signed CaMap OpGraph AppSecret Cgka.
From S2P Require Import Individual Membership MemberSort MemberExplore MemberOrder GroupState Group GroupView GroupProps GroupChange.
From S2P Require Import Active Document Keyhive KeyhiveStores KeyhiveSafe KeyhiveLive KeyhiveIngest.

Local Open Scope monad_scope.

Section Promises.
Context `{P : Primitives} `{E : Ed25519} {T : Type} `{Countable T}.
Context `{Ssd : !Serialize (Signed (StaticDelegation T)), Ssr : !Serialize (Signed (StaticRevocation T))}.
Context `{Spd : !Serialize (StaticDelegation T), Spr : !Serialize (StaticRevocation T)}.
Context `{Sop : !Serialize CgkaOperation, Ssop : !Serialize (Signed CgkaOperation)}.
Context `{Ssk : !Serialize ShareSecretKey, Spcs : !Serialize PcsKey}.
Context `{Sadd : !Serialize AddKeyOp, Srot : !Serialize RotateKeyOp, Skop : !Serialize KeyOp, Sev : !Serialize (StaticEvent T)}.

(** ** Events by digest *)

Abbreviation hashed e m := (match m !! Digest_hash e with Some _ => m | None => <[Digest_hash e := e]> m end).
Lemma unique_from (es : list (StaticEvent T)) : forall m : gmap (Digest (StaticEvent T)) (StaticEvent T),
  let m' := foldl (fun m e => hashed e m) m es in
  (forall h e, m' !! h = Some e -> m !! h = Some e \/ e ∈ es /\ h = Digest_hash e) /\ (forall h, is_Some (m !! h) -> is_Some (m' !! h)) /\
  forall e, e ∈ es -> is_Some (m' !! Digest_hash e).
Proof.
  induction es as [|x es IH]; intros m; cbn [foldl]; [split_and!; [by left|done|by intros e ?%not_elem_of_nil]|].
  destruct (IH (hashed x m)) as (H1 & H2 & H3). split_and!.
  - intros h e [Hm|[He ->]]%H1; [|right; split; [by right|done]]. destruct (m !! Digest_hash x) eqn:Hx; [by left|].
    apply lookup_insert_Some in Hm as [[<- <-]|[_ Hm]]; [right; split; [left|done]|by left].
  - intros h Hh. apply H2. destruct (m !! Digest_hash x) eqn:Hx; [done|]. apply lookup_insert_is_Some'. by right.
  - intros e [->|He]%elem_of_cons; [|by apply H3]. apply H2. destruct (m !! Digest_hash x) eqn:Hx; [by rewrite Hx|]. rewrite lookup_insert_eq. by eexists.
Qed.
Lemma unique_events_of (es : list (StaticEvent T)) h e : unique_events es !! h = Some e -> e ∈ es /\ h = Digest_hash e.
Proof. intros He. destruct (unique_from es ∅) as (H1 & _). destruct (H1 h e He) as [Hm|?]; [by rewrite lookup_empty in Hm|done]. Qed.
Lemma unique_events_all (es : list (StaticEvent T)) e : e ∈ es -> exists e', unique_events es !! Digest_hash e = Some e' /\ e' ∈ es /\ Digest_hash e' = Digest_hash e.
Proof.
  intros He. destruct (unique_from es ∅) as (_ & _ & H3). destruct (H3 e He) as [e' Hin]. exists e'. split; [done|]. by apply unique_events_of in Hin as [? ->].
Qed.

Section HashMaps.
Context (into_values : gmap (Digest (StaticEvent T)) (StaticEvent T) -> list (StaticEvent T)).
Context (Hvalues : forall m, into_values m ≡ₚ (map_to_list m).*2).

Lemma values_elem m e : e ∈ into_values m <-> exists h, m !! h = Some e.
Proof.
  rewrite Hvalues, list_elem_of_fmap. split; [intros ([h x] & -> & Hx%elem_of_map_to_list); by exists h|]. intros [h Hh]. exists (h, e). by rewrite elem_of_map_to_list.
Qed.
Lemma epoch_elem es e : collision_free (StaticEvent T) -> e ∈ into_values (unique_events es) <-> e ∈ es.
Proof.
  intros Hcf. rewrite values_elem. split; [intros (h & He%unique_events_of); tauto|]. intros (e' & He & _ & Hd)%unique_events_all. apply Hcf in Hd as ->. by eexists.
Qed.
Lemma epoch_digests es : NoDup (Digest_hash <$> into_values (unique_events es)).
Proof.
  rewrite Hvalues, <- list_fmap_compose. erewrite list_fmap_ext; [apply (NoDup_fst_map_to_list (unique_events es))|].
  intros i [h e] He. apply list_elem_of_lookup_2, elem_of_map_to_list, unique_events_of in He as [_ ->]. done.
Qed.
End HashMaps.
Lemma sublist_map {A B} (f : A -> B) l l' : l `sublist_of` l' -> (f <$> l) `sublist_of` (f <$> l').
Proof. induction 1; cbn; by constructor. Qed.

Lemma ingest_all into_values public_sk hist ops events (k : Keyhive T) :
  (forall m, into_values m ≡ₚ (map_to_list m).*2) -> collision_free (StaticEvent T) ->
  history hist -> serving hist k -> (forall op, op ∈ ops -> op ∈ hist) -> causal_order k [] ops ->
  (forall e, e ∈ events ++ kh_pending_events k <-> exists op, op ∈ ops /\ e = op_static op) ->
  exists k', ingest_unsorted_static_events into_values public_sk events k = (Ok [], k') /\ serving hist k' /\ kh_grows k k' /\
    forall op, op ∈ ops -> received k' op /\ has_home k' (op_subject_id op).
Proof.
  intros Hv Hcf Hh Hs Hops Hc He. unfold ingest_unsorted_static_events, bindM, get. set (epoch := into_values _).
  assert (forall e, e ∈ epoch <-> exists op, op ∈ ops /\ e = op_static op) as Hepoch by (intros e; unfold epoch; by rewrite epoch_elem).
  destruct (loop_delivers hist Hh public_sk k ops Hs Hc Hops (Datatypes.S (length epoch)) epoch k) as (k' & -> & Ht & Hr); [lia|by apply took_refl|by apply Hepoch| |].
  { intros op Hop. left. apply Hepoch. by exists op. }
  exists k'. split_and!; [done|apply Ht|apply Ht|]. intros op Hop. split; [by apply Hr|]. apply (received_subject hist); [done|apply Ht|by apply Hops|by apply Hr].
Qed.

(** C8. Events that form a causal order of operations of a history are all taken,
    in whatever order they come, those of earlier calls that were pending included:
    nothing is left, and each operation has its group or document. *)
Theorem ingest_delivers into_values public_sk hist ops events (k : Keyhive T) :
  (forall m, into_values m ≡ₚ (map_to_list m).*2) -> collision_free (StaticEvent T) ->
  history hist -> serving hist k -> (forall op, op ∈ ops -> op ∈ hist) -> causal_order k [] ops ->
  (forall e, e ∈ events ++ kh_pending_events k <-> exists op, op ∈ ops /\ e = op_static op) ->
  exists k', ingest_unsorted_static_events into_values public_sk events k = (Ok [], k') /\ serving hist k' /\ kh_grows k k' /\
    forall op, op ∈ ops -> received k' op /\ has_home k' (op_subject_id op).
Proof. apply ingest_all. Qed.

(** ** How ingesting ends *)

Section Ingesting.
Context (public_sk : SigningKey) (evs : list (StaticEvent T)).

(** What receiving events of [evs] leads to. *)
Definition reached : relation (Keyhive T) := rtc (fun k k' => exists e, e ∈ evs /\ k' = (receive_static_event public_sk e k).2).
Definition settles (r : res (ReceiveStaticEventError T) unit) : Prop :=
  match r with Ok _ | Err (StaticPrekeyOpError _) => True | _ => False end.
Definition settled_from (k : Keyhive T) (e : StaticEvent T) : Prop := exists k1, reached k k1 /\ settles (receive_static_event public_sk e k1).1.
Definition refused_from (k : Keyhive T) (e : StaticEvent T) : Prop :=
  exists k1 er, reached k k1 /\ (receive_static_event public_sk e k1).1 = Err er /\ ~ settles (Err er).
(** What a pass, or the loop, over [es] has done. *)
Definition accounted (k : Keyhive T) (es left : list (StaticEvent T)) : Prop :=
  left `sublist_of` es /\ (forall e, e ∈ es -> e ∈ left \/ settled_from k e) /\ forall e, e ∈ left -> refused_from k e.
Definition breaks_from (k : Keyhive T) (r : res (ReceiveStaticEventError T) unit) (k' : Keyhive T) : Prop :=
  exists e k1, e ∈ evs /\ reached k k1 /\ receive_static_event public_sk e k1 = (r, k').

Lemma reached_step k e : e ∈ evs -> reached k (receive_static_event public_sk e k).2.
Proof. intros He. apply rtc_once. by exists e. Qed.
Lemma settled_earlier k k' e : reached k k' -> settled_from k' e -> settled_from k e.
Proof. intros Hk (k1 & H1 & H2). exists k1. split; [by etransitivity|done]. Qed.
Lemma refused_earlier k k' e : reached k k' -> refused_from k' e -> refused_from k e.
Proof. intros Hk (k1 & er & H1 & H2). exists k1, er. split; [by etransitivity|done]. Qed.
Lemma breaks_earlier k k' r k2 : reached k k' -> breaks_from k' r k2 -> breaks_from k r k2.
Proof. intros Hk (e & k1 & He & H1 & H2). exists e, k1. split_and!; [done|by etransitivity|done]. Qed.

Lemma accounted_settled k k1 e es left : reached k k1 -> settled_from k e -> accounted k1 es left -> accounted k (e :: es) left.
Proof.
  intros Hk He (H1 & H2 & H3). split_and!; [by constructor| |intros x Hx; by apply (refused_earlier _ k1), H3].
  intros x [->|Hx]%elem_of_cons; [by right|]. destruct (H2 x Hx); [by left|right; by apply (settled_earlier _ k1)].
Qed.
Lemma accounted_refused k k1 e es left : reached k k1 -> refused_from k e -> accounted k1 es left -> accounted k (e :: es) (e :: left).
Proof.
  intros Hk He (H1 & H2 & H3). split_and!; [by constructor| |].
  - intros x [->|Hx]%elem_of_cons; [left; left|]. destruct (H2 x Hx); [left; by right|right; by apply (settled_earlier _ k1)].
  - intros x [->|Hx]%elem_of_cons; [done|by apply (refused_earlier _ k1), H3].
Qed.
Lemma accounted_again k k1 es mid left : reached k k1 -> accounted k es mid -> accounted k1 mid left -> accounted k es left.
Proof.
  intros Hk (H1 & H2 & _) (G1 & G2 & G3). split_and!; [by etransitivity| |intros x Hx; by apply (refused_earlier _ k1), G3].
  intros x [Hx|?]%H2; [|by right]. destruct (G2 x Hx); [by left|right; by apply (settled_earlier _ k1)].
Qed.

Definition pass_outcome (k : Keyhive T) (es next_epoch : list (StaticEvent T)) (o : res Empty_set (list (StaticEvent T)) * Keyhive T) : Prop :=
  match o with
  | (Ok l, k') => exists left, l = next_epoch ++ left /\ reached k k' /\ accounted k es left
  | (Err _, _) => False
  | (Panic, k') => breaks_from k Panic k'
  | (Diverge, k') => breaks_from k Diverge k'
  end.
Lemma pass_settled k k1 e es next_epoch o : reached k k1 -> settled_from k e -> pass_outcome k1 es next_epoch o -> pass_outcome k (e :: es) next_epoch o.
Proof.
  intros Hk He. destruct o as [[l|[]| |] k']; cbn; [|by apply breaks_earlier..]. intros (left & -> & Hr & Ha). exists left.
  split_and!; [done|by etransitivity|by apply (accounted_settled _ k1)].
Qed.
Lemma pass_refused k k1 e es next_epoch o : reached k k1 -> refused_from k e -> pass_outcome k1 es (next_epoch ++ [e]) o -> pass_outcome k (e :: es) next_epoch o.
Proof.
  intros Hk He. destruct o as [[l|[]| |] k']; cbn; [|by apply breaks_earlier..]. intros (left & -> & Hr & Ha). exists (e :: left).
  rewrite <- app_assoc. split_and!; [done|by etransitivity|by apply (accounted_refused _ k1)].
Qed.
Lemma epoch_accounted es : forall next_epoch k, (forall e, e ∈ es -> e ∈ evs) -> pass_outcome k es next_epoch (ingest_epoch public_sk es next_epoch k).
Proof.
  induction es as [|e es IH]; intros next_epoch k Hes; cbn [ingest_epoch].
  { exists []. rewrite app_nil_r. split_and!; [done|apply rtc_refl|]. split_and!; [constructor|by intros e ?%not_elem_of_nil..]. }
  pose proof (Hes e (list_elem_of_here _ _)) as He. pose proof (reached_step k e He) as Hstep.
  assert (forall x, x ∈ es -> x ∈ evs) as Hes' by (intros x Hx; apply Hes; by right).
  destruct (receive_static_event public_sk e k) as [r k1] eqn:Heq. cbn [snd] in Hstep.
  assert (settles r -> settled_from k e) as Hset by (intros Hr; exists k; split; [apply rtc_refl|by rewrite Heq]).
  assert (forall er, r = Err er -> ~ settles (Err er) -> refused_from k e) as Href by (intros er -> Hr; exists k, er; split_and!; [apply rtc_refl|by rewrite Heq|done]).
  destruct r as [[]|[er|er|er]| |]; cbn [settles] in *; try (by apply (pass_settled k k1); auto); try (by apply (pass_refused k k1); eauto).
  - exists e, k. by split_and!; [|apply rtc_refl|].
  - exists e, k. by split_and!; [|apply rtc_refl|].
Qed.

Lemma loop_accounted fuel : forall es k, length es < fuel -> (forall e, e ∈ es -> e ∈ evs) ->
  match ingest_loop public_sk fuel es k with
  | (Ok left, k') => accounted k es left /\ exists k1, reached k k1 /\ k' = match left with [] => k1 | _ => set_pending left k1 end
  | (Err _, _) => False
  | (Panic, k') => breaks_from k Panic k'
  | (Diverge, k') => breaks_from k Diverge k'
  end.
Proof.
  induction fuel as [|fuel IH]; intros es k Hlen Hes; [lia|]. cbn [ingest_loop]. unfold bindM. pose proof (epoch_accounted es [] k Hes) as Hpass.
  destruct (ingest_epoch public_sk es [] k) as [[l|[]| |] k1]; [|done..]. destruct Hpass as (left & -> & Hr & Ha). cbn [app].
  destruct left as [|e left]; [by split; [|exists k1]|]. case_decide as Hsame; [by split; [|exists k1]|]. pose proof Ha as (Hsub & _). apply sublist_length in Hsub as Hle.
  specialize (IH (e :: left) k1 ltac:(cbn in *; lia)). destruct (ingest_loop public_sk fuel (e :: left) k1) as [[l|[]| |] k'].
  - destruct IH as (Ha' & k2 & Hr2 & ->); [intros x Hx; apply Hes; by eapply elem_of_sublist|]. split; [by apply (accounted_again _ k1 _ (e :: left))|]. exists k2. split; [by etransitivity|done].
  - apply (breaks_earlier _ k1); [done|]. apply IH. intros x Hx. apply Hes. by eapply elem_of_sublist.
  - apply (breaks_earlier _ k1); [done|]. apply IH. intros x Hx. apply Hes. by eapply elem_of_sublist.
Qed.
End Ingesting.

(** C10. Ingesting ends unless an event it was given does not: it then returns what it
    has refused in the end, of which nothing is lost: each digest it was given is
    of an event that was accepted, or is a refused prekey operation, or is
    returned and, with the rest, kept pending. *)
Theorem ingest_correct into_values public_sk events (k : Keyhive T) : (forall m, into_values m ≡ₚ (map_to_list m).*2) ->
  let evs := events ++ kh_pending_events k in
  match ingest_unsorted_static_events into_values public_sk events k with
  | (Ok left, k') =>
      NoDup (Digest_hash <$> left) /\ (forall e, e ∈ left -> e ∈ evs /\ refused_from public_sk evs k e) /\
      (forall e, e ∈ evs -> exists e', Digest_hash e' = Digest_hash e /\ (e' ∈ left \/ settled_from public_sk evs k e')) /\
      exists k1, reached public_sk evs k k1 /\ k' = match left with [] => k1 | _ => set_pending left k1 end
  | (Err _, _) => False
  | (Panic, k') => breaks_from public_sk evs k Panic k'
  | (Diverge, k') => breaks_from public_sk evs k Diverge k'
  end.
Proof.
  intros Hv evs. unfold ingest_unsorted_static_events, bindM, get. fold evs. set (epoch := into_values (unique_events evs)).
  assert (forall e, e ∈ epoch -> e ∈ evs) as Hin by (intros e (h & He%unique_events_of)%values_elem; [tauto|done]).
  pose proof (loop_accounted public_sk evs (Datatypes.S (length epoch)) epoch k ltac:(lia) Hin) as Hloop.
  destruct (ingest_loop public_sk (Datatypes.S (length epoch)) epoch k) as [[left|[]| |] k']; [|done..]. destruct Hloop as ((Hsub & Hall & Href) & Hk).
  split_and!; [| | |done].
  - eapply sublist_NoDup; [|by apply sublist_map]. by apply epoch_digests.
  - intros e He. split; [by eapply Hin, elem_of_sublist|by apply Href].
  - intros e (e' & He & _ & Hd)%unique_events_all. exists e'. split; [done|]. apply Hall. apply values_elem; [done|by eexists].
Qed.

(** ** What is in a keyhive *)

Inductive kh_reachable (public_sk : SigningKey) : Keyhive T -> Prop :=
| kh_generated signer r k r' : kh_generate public_sk signer r = (Ok k, r') -> kh_reachable public_sk k
| kh_event k e : kh_reachable public_sk k -> kh_reachable public_sk (receive_static_event public_sk e k).2
| kh_ingested k into_values events : kh_reachable public_sk k -> kh_reachable public_sk (ingest_unsorted_static_events into_values public_sk events k).2.

Lemma generate_wf public_sk signer r k r' : kh_generate public_sk signer r = (Ok k, r') -> kh_wf k.
Proof.
  unfold kh_generate. destruct (Active_generate signer r) as [[a|e| |] r1] eqn:Ha; cbn; [|done..].
  destruct (no_error (public_individual public_sk)) as [i|e| |] eqn:Hi; cbn; [|done..]. intros [= <- <-].
  assert (individual_id (ac_individual a) = active_id a) as Hid.
  { revert Ha. unfold Active_generate. destruct (ShareSecretKey_generate r) as [sk r2]. destruct (try_sign_async signer _) as [op| | |]; [|done..].
    destruct (more_pairs 6 _ r2) as [pairs r3]. destruct (sign_adds signer _ []) as [ops| | |]; cbn; [|done..]. destruct (extend ops _) as [[]?]; by intros [= <- <-]. }
  constructor; cbn; [done| |by intros ??; rewrite lookup_empty..|].
  - intros id c [[<- <-]|[_ [<- <-]%lookup_singleton_Some]]%lookup_insert_Some; [done|]. cbn. revert Hi. unfold no_error, public_individual.
    destruct (try_sign_sync _ _); cbn; by intros [= <-].
  - constructor; [by intros ??; rewrite lookup_empty|by intros ??; rewrite lookup_empty| |]; intros [d|d]; unfold held; cbn; by rewrite lookup_empty.
Qed.
Lemma set_pending_wf k es : kh_wf k -> kh_wf (set_pending es k).
Proof. intros [H1 H2 H3 H4 H5]. by constructor. Qed.
Lemma epoch_wf public_sk es : forall next_epoch k, kh_wf k -> kh_wf (ingest_epoch public_sk es next_epoch k).2.
Proof.
  induction es as [|e es IH]; intros next_epoch k Hk; cbn [ingest_epoch]; [done|]. pose proof (receive_static_event_keeps public_sk k e Hk) as [Hk' _].
  destruct (receive_static_event public_sk e k) as [[[]|[er|er|er]| |] k1]; cbn [snd] in *; by try apply IH.
Qed.
Lemma loop_wf public_sk fuel : forall es k, kh_wf k -> kh_wf (ingest_loop public_sk fuel es k).2.
Proof.
  induction fuel as [|fuel IH]; intros es k Hk; cbn [ingest_loop]; [done|]. unfold bindM. pose proof (epoch_wf public_sk es [] k Hk) as Hk'.
  destruct (ingest_epoch public_sk es [] k) as [[[|e left]|[]| |] k1]; [done| |done..]. case_decide; [by apply set_pending_wf|by apply IH].
Qed.
Lemma kh_reachable_wf public_sk k : kh_reachable public_sk k -> kh_wf k.
Proof.
  induction 1 as [signer r k r' Hg|k e _ IH|k into_values events _ IH]; [by eapply generate_wf|by apply receive_static_event_keeps|]. by apply loop_wf.
Qed.

(** C9. Whatever events it has been sent, a keyhive stores delegations and revocations
    under their digests, their signatures verify, and what they are based on is
    stored too. *)
Theorem keyhive_genuine public_sk k : kh_reachable public_sk k ->
  (forall h d, kh_delegations k !! h = Some d -> h = Digest_hash d /\ try_verify (Signed_map dlg_static d) = Ok tt /\
    (forall p, proof (payload d) = Some p -> kh_delegations k !! Digest_hash p = Some p) /\
    forall r, r ∈ after_revocations (payload d) -> rs_revocations (kh_revocations k) !! Digest_hash r = Some r) /\
  (forall h r, rs_revocations (kh_revocations k) !! h = Some r -> h = Digest_hash r /\ try_verify (Signed_map rev_static r) = Ok tt /\
    kh_delegations k !! Digest_hash (revoke (payload r)) = Some (revoke (payload r)) /\
    forall p, rev_proof (payload r) = Some p -> kh_delegations k !! Digest_hash p = Some p).
Proof.
  intros Hk%kh_reachable_wf. pose proof (kw_stores _ Hk) as Hst. split.
  - intros h d [-> Hd]%(held_lookup_dlg k); [|done]. split_and!; [done|by apply (so_verified _ _ Hst (OpDelegation d))| |].
    + intros p Hp. exact (so_closed _ _ Hst _ _ Hd (after_auth_proof d p Hp)).
    + intros r Hr. assert (OpRevocation r ∈ after_auth (OpDelegation d)) as Hin; [|exact (so_closed _ _ Hst _ _ Hd Hin)].
      unfold after_auth. apply elem_of_app. right. apply list_elem_of_fmap. by exists r.
  - intros h r [-> Hr]%(held_lookup_rev k); [|done]. split_and!; [done|by apply (so_verified _ _ Hst (OpRevocation r))|exact (so_closed _ _ Hst _ _ Hr (after_auth_revoke r))|].
    intros p Hp. exact (so_closed _ _ Hst _ _ Hr (after_auth_rev_proof r p Hp)).
Qed.

Lemma group_wf_keyed k id g : group_wf id (with_stores k g) -> group_id g = id /\
  (forall h d, delegation_heads (g_state g) !! h = Some d -> kh_delegations k !! Digest_hash d = Some d) /\
  forall h r, rs_revocations (revocation_heads (g_state g)) !! h = Some r -> rs_revocations (kh_revocations k) !! Digest_hash r = Some r.
Proof.
  intros [Hid _ Hheads]. split_and!; [done| |]; intros h x Hx.
  - apply (Hheads (OpDelegation x)), heads_of_elem. left. by exists h, x.
  - apply (Hheads (OpRevocation x)), heads_of_elem. right. by exists h, x.
Qed.


Lemma resolve_held {Er} (f : _ -> Er) (k : Keyhive T) (rs : list (SignedRevocation T)) : (forall r, r ∈ rs -> get_revocation (Digest_hash r) k = Some r) ->
  forall acc, resolve_revocations f k (Digest_hash <$> rs) acc = Ok (acc ++ rs).
Proof.
  induction rs as [|r rs IH]; intros Hr acc; cbn [fmap list_fmap resolve_revocations]; [by rewrite app_nil_r|]. rewrite (Hr r) by left. cbn [ok_orR bindR].
  rewrite IH by (intros x Hx; apply Hr; by right). by rewrite <- app_assoc.
Qed.
Lemma resolve_proof_held (k : Keyhive T) (p : option (SignedDelegation T)) : (forall d, p = Some d -> get_delegation (Digest_hash d) k = Some d) ->
  resolve_proof k (Digest_hash <$> p) = Ok p.
Proof. destruct p as [d|]; [|done]. intros Hp. cbn [fmap option_fmap option_map resolve_proof]. by rewrite (Hp d). Qed.

(** C40. An operation survives its trip as a static event: converted back where what it
    is based on is stored and its delegate is known, it is the operation it was. *)
Theorem static_conversion_roundtrip (k : Keyhive T) :
  (forall d, (forall x, x ∈ after_auth (OpDelegation d) -> kh_held k x) -> get_agent (agent_identifier (delegate (payload d))) k = Some (delegate (payload d)) ->
    static_delegation_to_delegation (Signed_map dlg_static d) k = Ok (payload d)) /\
  (forall r, (forall x, x ∈ after_auth (OpRevocation r) -> kh_held k x) -> static_revocation_to_revocation (Signed_map rev_static r) k = Ok (payload r)).
Proof.
  split.
  - intros d Hd Ha. unfold static_delegation_to_delegation, Signed_map. cbn [payload]. rewrite dlg_static_eq. cbn [sd_proof sd_delegate sd_after_revocations sd_can sd_after_content].
    rewrite resolve_proof_held by (intros p Hp; exact (Hd _ (after_auth_proof d p Hp))). cbn [bindR]. rewrite Ha. cbn [ok_orR bindR].
    rewrite resolve_held; [cbn; by destruct (payload d)|]. intros r Hr. apply (Hd (OpRevocation r)). unfold after_auth. apply elem_of_app. right. apply list_elem_of_fmap. by exists r.
  - intros r Hr. unfold static_revocation_to_revocation, Signed_map. cbn [payload]. rewrite rev_static_eq. cbn [sr_revoke sr_proof sr_after_content].
    unfold get_delegation at 1. rewrite (Hr _ (after_auth_revoke r)). cbn [ok_orR bindR].
    rewrite resolve_proof_held by (intros p Hp; exact (Hr _ (after_auth_rev_proof r p Hp))). cbn. by destruct (payload r).
Qed.

(** ** Hazards *)

(** A prekey operation of an issuer the keyhive does not know is checked too late:
    it is refused when its signature does not verify, but the issuer has by then
    been registered, with the unverified prekey as its only one. *)
Theorem forged_prekey_registered a e (k : Keyhive T) : get_agent (issuer a) k = None -> try_verify a = Err e -> exists k',
  kh_receive_prekey_op (KeyAdd a) k = (Err (PrekeyVerificationError e), k') /\ get_agent (issuer a) k' = Some (AgentIndividual (issuer a)) /\
  exists i, kh_individuals k' !! issuer a = Some (OwnCell i) /\ prekeys i = {[add_share_key (payload a)]}.
Proof.
  intros Ha Hv. assert (kh_individuals k !! issuer a = None) as Hn.
  { revert Ha. unfold get_agent. repeat case_match; done. }
  unfold kh_receive_prekey_op, bindM, gets, modify. cbn [key_issuer]. rewrite Ha. unfold register_individual. cbn [individual_id Individual_new key_issuer]. rewrite Hn. cbn [snd].
  unfold prekey_op_to. cbn [kh_individuals set_individuals]. rewrite lookup_insert_eq. cbn [cell_value]. unfold receive_prekey_op. rewrite decide_True by done.
  unfold insert_op, key_try_verify. rewrite Hv. cbn [bindR]. eexists. split; [done|]. split.
  - revert Ha. unfold get_agent. cbn. case_decide; [done|]. destruct (kh_docs k !! issuer a); [done|]. destruct (kh_groups k !! issuer a); [done|]. by rewrite lookup_insert_eq.
  - eexists. cbn [kh_individuals set_individuals]. rewrite lookup_insert_eq. split; [done|]. cbn [prekeys Individual_new].
    unfold build, op_values, PrekeyState_new, CaMap_insert, CaMap_new. cbn [snd prekey_ops]. rewrite insert_empty, map_to_list_singleton. cbn. set_solver.
Qed.

Lemma promote_frame {Er} indie head (k : Keyhive T) : exists ds rs, (promote_individual_to_group (Er := Er) indie head k).2 = set_stores ds rs k.
Proof.
  unfold promote_individual_to_group, bindM, get, liftR, modify, ret. assert (exists ds rs, k = set_stores ds rs k) as Hsame by (exists (kh_delegations k), (kh_revocations k); by destruct k).
  destruct (no_error (from_individual indie head (kh_delegations k) (kh_revocations k) [])) as [g|?| |]; [|exact Hsame..]. cbn [snd].
  destruct (no_error (foldR _ _ _)) as [rs|?| |]; by eexists _, _.
Qed.

(** C39. A delegation in the name of an individual promotes it to a group, but neither
    the group nor the individual is kept: the agent is not known any more, and a
    revocation of one of its delegations never returns, as the lock on the groups
    is taken twice. *)
Theorem promotion_forgets_agent d (k k' : Keyhive T) : dlg_subject_id d <> active_id (kh_active k) ->
  kh_groups k !! dlg_subject_id d = None -> kh_docs k !! dlg_subject_id d = None -> is_Some (kh_individuals k !! dlg_subject_id d) ->
  deliver_delegation d k = (Ok tt, k') -> get_agent (dlg_subject_id d) k' = None /\
  forall r, rev_subject_id r = dlg_subject_id d -> match (deliver_revocation r k').1 with Panic | Diverge => True | _ => False end.
Proof.
  intros Hact Hg Hd [c Hc]. unfold deliver_delegation, bindM, get, modify. rewrite Hg, Hd, Hc.
  set (k1 := set_individuals (delete (dlg_subject_id d) (kh_individuals k)) k). destruct (promote_frame (Er := ReceiveStaticDelegationError T) (cell_value k c) d k1) as (ds & rs & Hfr).
  destruct (promote_individual_to_group (cell_value k c) d k1) as [[g|e| |] k2]; cbn [snd] in Hfr; [|done..]. unfold ret. intros [= <-]. subst k2.
  split; [unfold get_agent; cbn; rewrite decide_False, Hd, Hg, lookup_delete_eq by done; done|].
  intros r Hr. unfold deliver_revocation, bindM, get. rewrite Hr. cbn. rewrite Hg, Hd, lookup_delete_eq. unfold liftR.
  by destruct (Group_new _ _ _ _ _) as [?|[]| |].
Qed.
End Promises.
