(* ===== verification/KeyhiveWitness.v ===== *)
(** * An active agent and a keyhive over the toy primitives

    The theorems on the active agent applied to Ann, and those on keyhives to
    Ann's keyhive, which is told of a club she and the public agent are in. *)

From Stdlib Require Import Strings.Byte.
From S2P Require Import Prelude TreeMath Crypto Keys SecretStore Tree PathCrypto Signed CaMap OpGraph AppSecret Cgka ToySerialize Individual.
From S2P Require Import IndividualWitness Membership MemberSort MemberExplore MemberOrder GroupState Group GroupView GroupProps GroupChange.
From S2P Require Import GroupWitness Ciphertext Active ActiveProps Document Keyhive KeyhiveStores KeyhiveSafe KeyhiveLive KeyhiveIngest KeyhiveProps.

Import ToyPrimitives ToySerialize.

Definition ann_signer : AsyncSigner := MemorySigner [x07].
Definition ann_run := Active_generate ann_signer 10%nat.
Definition ann_dummy : Active := mkActive ann_signer ∅ zed_key zed [].
Definition ann : Active := match ann_run.1 with Ok a => a | _ => ann_dummy end.

Definition succeeded {Er A} (r : res Er A) : bool := match r with Ok _ => true | _ => false end.

Lemma ann_reachable : active_reachable ann.
Proof.
  apply (reach_generate (P := toy) ann_signer 10%nat ann ann_run.2).
  - intros m. change (ed_verify (ed_verifying_key [x07]) m (mkSignature ([x07] ++ m)) = true). by apply (ed_verify_sign (Ed25519Laws := toy_ed_laws) [x07]).
  - assert (succeeded ann_run.1 = true) as Hok by (vm_compute; reflexivity). unfold ann. fold ann_run. by destruct ann_run as [[a| | |] r].
Qed.


Lemma private_prekey_correct_witness :
  exists contact a' r', generate_private_prekey (P := toy) 1 (ann, 20%nat) = (Ok contact, (a', r')) /\
    drawn (P := toy) 20%nat ∉ prekeys (ac_individual a') /\ KeyRotate contact ∈ op_values (prekey_state (ac_individual a')).
Proof.
  assert (succeeded (pick_prekey 1 (active_id ann) (ac_individual ann)) = true) as Hpick by (vm_compute; reflexivity).
  assert (succeeded (generate_private_prekey (P := toy) 1 (ann, 20%nat)).1 = true) as Hgen by (vm_compute; reflexivity).
  destruct (pick_prekey 1 (active_id ann) (ac_individual ann)) as [key| | |] eqn:Hk; try discriminate Hpick.
  destruct (generate_private_prekey (P := toy) 1 (ann, 20%nat)) as [[contact| | |] [a' r']] eqn:Hg; try discriminate Hgen.
  exists contact, a', r'. split; [reflexivity|].
  destruct (private_prekey_correct (P := toy) 1 ann key 20%nat contact a' r' toy_collision_free ann_reachable Hk) as (_ & _ & H1 & _ & H2 & _);
    [vm_compute; discriminate|exact Hg|split; assumption].
Defined.

(** ** A keyhive *)

#[export] Instance enc_static_event : Enc (StaticEvent N).
Proof.
  refine (enc_via (fun e => match e with
    | PrekeysExpanded op => inl op
    | PrekeyRotated op => inr (inl op)
    | StaticCgkaOperation op => inr (inr (inl op))
    | Delegated d => inr (inr (inr (inl d)))
    | Revoked r => inr (inr (inr (inr r))) end) _).
  intros [] []; intros [= ]; by subst.
Defined.

Definition public_key : SigningKey := [x00; x00].
Definition public_id : Identifier := ed_verifying_key public_key.
Definition ann_id : Identifier := mkVerifyingKey [x07].

(** Ann's keyhive, as generated. *)
Definition ann_keyhive_run := kh_generate (T := N) public_key ann_signer 10%nat.
Definition blank : Keyhive N := mkKeyhive ann_id ann_dummy ∅ ∅ ∅ ∅ rev_store_new [] [].
Definition ann_keyhive : Keyhive N := match ann_keyhive_run.1 with Ok k => k | _ => blank end.
Lemma ann_keyhive_ok : ann_keyhive_run = (Ok ann_keyhive, ann_keyhive_run.2).
Proof.
  assert (succeeded ann_keyhive_run.1 = true) as Hok by (vm_compute; reflexivity). unfold ann_keyhive. by destruct ann_keyhive_run as [[k| | |] r].
Qed.

(** The club's delegation to Ann, hers to the public agent, and its revocation. *)
Definition granted (by_ : Identifier) (a : Agent) (c : Access) (p : option Dlg) : Dlg :=
  let d := mkDelegation a c p [] ∅ in mkSigned d by_ (mkSignature (VerifyingKey_bytes by_ ++ serialize (dlg_static d))).
Definition revoked (by_ : Identifier) (d : Dlg) (p : option Dlg) : Rev :=
  let r := mkRevocation d p ∅ in mkSigned r by_ (mkSignature (VerifyingKey_bytes by_ ++ serialize (rev_static r))).
Definition club_ann : Dlg := granted club (AgentActive ann_id) Admin None.
Definition ann_public : Dlg := granted ann_id (AgentIndividual public_id) Read (Some club_ann).
Definition no_public : Rev := revoked ann_id ann_public (Some ann_public).
Definition club_ops : list (MembershipOperation N) := [OpDelegation club_ann; OpDelegation ann_public; OpRevocation no_public].

Lemma club_authorised d : d = club_ann \/ d = ann_public -> authorised (dlg_subject_id d) d.
Proof.
  intros Hd. assert (dlg_subject_id d = club) as -> by (by destruct Hd as [-> | ->]; vm_compute). pose proof (add_delegation_spec d (club_state [] [])) as H.
  assert (is_ok (add_delegation d (club_state [] [])).1 = true) as Hok by (destruct Hd as [-> | ->]; vm_compute; reflexivity).
  destruct (add_delegation d (club_state [] [])) as [[h|e| |] g']; [apply H|discriminate Hok..].
Qed.
Lemma club_accepted : revocation_accepted (rev_subject_id no_public) no_public.
Proof.
  assert (rev_subject_id no_public = club) as -> by (by vm_compute). pose proof (add_revocation_spec no_public (club_state [] [])) as H.
  assert (is_ok (add_revocation no_public (club_state [] [])).1 = true) as Hok by (vm_compute; reflexivity).
  destruct (add_revocation no_public (club_state [] [])) as [[h|e| |] g']; [apply H|discriminate Hok..].
Qed.
Lemma club_history : history club_ops.
Proof.
  constructor.
  - intros op x Hop Hx. unfold club_ops in *. in_cases Hop; in_cases Hx; listed.
  - intros op Hop. unfold club_ops in *. in_cases Hop; vm_compute; reflexivity.
  - intros d Hop. unfold club_ops in *. apply club_authorised. in_cases Hop; injection Hop as ->; [by left|by right].
  - intros d Hop. unfold club_ops in *. in_cases Hop; injection Hop as ->. apply club_accepted.
  - intros a b Ha Hb. unfold club_ops in *. in_cases Ha; in_cases Hb; try done; intros H; exfalso; vm_compute in H; discriminate H.
  - intros d d' Ha Hb. unfold club_ops in *. in_cases Ha; in_cases Hb; injection Ha as ->; injection Hb as ->; try done; intros H; exfalso; vm_compute in H; discriminate H.
Qed.
Lemma club_subject op : op ∈ club_ops -> op_subject_id op = club.
Proof. unfold club_ops. intros Hop. in_cases Hop; vm_compute; reflexivity. Qed.
Lemma ann_serving : serving club_ops ann_keyhive.
Proof.
  assert (kh_delegations ann_keyhive = ∅) as Hd by (vm_compute; reflexivity). assert (rs_revocations (kh_revocations ann_keyhive) = ∅) as Hr by (vm_compute; reflexivity).
  assert (forall op, ~ kh_held ann_keyhive op) as Hno by (intros [d|r]; unfold kh_held; rewrite Hd, Hr; unfold held; by rewrite lookup_empty).
  constructor; [exact (generate_wf public_key ann_signer 10%nat ann_keyhive ann_keyhive_run.2 ann_keyhive_ok)|intros op Ho; destruct (Hno _ Ho)|intros d Ho; destruct (Hno _ Ho)|].
  intros op ->%club_subject. vm_compute. reflexivity.
Qed.

Definition listing (m : gmap (Digest (StaticEvent N)) (StaticEvent N)) : list (StaticEvent N) := (map_to_list m).*2.
Definition is_some {A} (o : option A) : bool := match o with Some _ => true | None => false end.
Lemma is_some_true {A} (o : option A) : is_some o = true -> is_Some o.
Proof. by destruct o. Qed.

(** The revocation comes first, the root delegation last. *)
Lemma ingest_delivers_witness : exists k',
  ingest_unsorted_static_events listing public_key (op_static <$> reverse club_ops) ann_keyhive = (Ok [], k') /\ received k' (OpRevocation no_public).
Proof.
  destruct (ingest_delivers listing public_key club_ops club_ops (op_static <$> reverse club_ops) ann_keyhive) as (k' & Hrun & _ & _ & Hrec).
  - intros m. reflexivity.
  - exact toy_collision_free.
  - exact club_history.
  - exact ann_serving.
  - intros op Hop. exact Hop.
  - assert (knows ann_keyhive ann_id /\ knows ann_keyhive public_id) as [Hann Hpub] by (split; apply is_some_true; vm_compute; reflexivity).
    cbn [causal_order club_ops]. split_and!; [|by left| |by left| |exact I|exact I]; intros x Hx; in_cases Hx; right; listed.
  - assert (kh_pending_events ann_keyhive = []) as -> by (vm_compute; reflexivity). intros e. rewrite app_nil_r, list_elem_of_fmap.
    split; intros (op & H1 & H2); exists op; [by rewrite elem_of_reverse in H2|by rewrite elem_of_reverse].
  - exists k'. split; [exact Hrun|]. apply Hrec. unfold club_ops. listed.
Defined.

Definition told : res Empty_set (list (StaticEvent N)) * Keyhive N :=
  ingest_unsorted_static_events listing public_key (op_static <$> reverse club_ops) ann_keyhive.
Lemma told_reachable : kh_reachable public_key told.2.
Proof. apply kh_ingested. exact (kh_generated public_key ann_signer 10%nat ann_keyhive ann_keyhive_run.2 ann_keyhive_ok). Qed.
Lemma told_public : kh_delegations told.2 !! Digest_hash ann_public = Some ann_public.
Proof. vm_compute. reflexivity. Qed.
Lemma told_revocation : rs_revocations (kh_revocations told.2) !! Digest_hash no_public = Some no_public.
Proof. vm_compute. reflexivity. Qed.

(** The revocation alone is refused, kept pending, and returned. *)
Lemma ingest_correct_witness :
  let o := ingest_unsorted_static_events listing public_key [op_static (OpRevocation no_public)] ann_keyhive in
  exists left, o.1 = Ok left /\ forall e, e ∈ left -> e = op_static (OpRevocation no_public).
Proof.
  intros o. assert (succeeded o.1 = true) as Hok by (vm_compute; reflexivity).
  assert (kh_pending_events ann_keyhive = []) as Hp by (vm_compute; reflexivity).
  pose proof (ingest_correct listing public_key [op_static (OpRevocation no_public)] ann_keyhive (fun m => reflexivity _)) as Hall. cbv zeta in Hall. fold o in Hall. rewrite Hp in Hall.
  destruct o as [[left| | |] k']; [|discriminate Hok..]. destruct Hall as (_ & Hleft & _). exists left. split; [reflexivity|].
  intros e He. destruct (Hleft e He) as [Hin _]. rewrite app_nil_r in Hin. by apply list_elem_of_singleton in Hin.
Defined.

Lemma keyhive_genuine_witness : try_verify (Signed_map rev_static no_public) = Ok tt /\ kh_delegations told.2 !! Digest_hash ann_public = Some ann_public.
Proof.
  destruct (keyhive_genuine public_key told.2 told_reachable) as [_ Hrev]. destruct (Hrev _ _ told_revocation) as (_ & Hv & Hr & _). split; [exact Hv|exact Hr].
Defined.


Lemma static_conversion_roundtrip_witness : static_revocation_to_revocation (Signed_map rev_static no_public) told.2 = Ok (payload no_public).
Proof.
  destruct (static_conversion_roundtrip told.2) as [_ Hrev]. apply Hrev. intros x Hx. cbn in Hx. in_cases Hx; exact told_public.
Defined.

(** Mallory is registered with a prekey somebody else made up. *)
Definition forged : Signed AddKeyOp := mkSigned (mkAddKeyOp (mkShareKey [x09])) mallory (mkSignature [x00]).
Lemma forged_prekey_registered_witness : exists k',
  (kh_receive_prekey_op (KeyAdd forged) ann_keyhive).2 = k' /\ get_agent mallory k' = Some (AgentIndividual mallory).
Proof.
  assert (get_agent (issuer forged) ann_keyhive = None) as Hno by (vm_compute; reflexivity).
  destruct (try_verify forged) as [|e| |] eqn:Hv; [vm_compute in Hv; discriminate Hv| |vm_compute in Hv; discriminate Hv..].
  destruct (forged_prekey_registered forged e ann_keyhive Hno Hv) as (k' & Heq & Hk & _). exists k'. rewrite Heq. split; [reflexivity|exact Hk].
Defined.

(** The public agent delegates in its own name, and is forgotten. *)
Definition by_public : Dlg := granted public_id (AgentActive ann_id) Read None.
Lemma promotion_forgets_agent_witness : get_agent public_id (deliver_delegation by_public ann_keyhive).2 = None.
Proof.
  assert (succeeded (deliver_delegation by_public ann_keyhive).1 = true) as Hok by (vm_compute; reflexivity).
  destruct (deliver_delegation by_public ann_keyhive) as [[[]| | |] k'] eqn:Heq; [|discriminate Hok..].
  refine (proj1 (promotion_forgets_agent by_public ann_keyhive k' _ _ _ _ Heq)).
  - apply (bool_decide_unpack _). vm_compute. exact I.
  - vm_compute. reflexivity.
  - vm_compute. reflexivity.
  - apply is_some_true. vm_compute. reflexivity.
Defined.
