(* ===== verification/MemberOps.v ===== *)
(** * The membership operations an agent needs
    ([keyhive/keyhive_core/src/principal/group/membership_operation.rs], the walk
    over operations; [keyhive.rs], the queries for agents)

    A keyhive sends an agent the operations of every group and document it is a
    member of, with all they depend on, and the revocations of its own
    delegations.  There is a query for one agent, and one that prepares the answer
    for all of them. *)

From S2P Require Import Prelude TreeMath Crypto Keys SecretStore Tree PathCrypto Signed CaMap OpGraph AppSecret Cgka.
From S2P Require Import Individual Membership MemberSort MemberExplore GroupState Group Reach Active Document Keyhive.

Local Open Scope monad_scope.

Section Walk.
Context `{P : Primitives} {T : Type}.
Context `{Ssd : !Serialize (Signed (StaticDelegation T)), Ssr : !Serialize (Signed (StaticRevocation T))}.

Abbreviation MembershipOpMap := (gmap (MemDigest T) (MembershipOperation T)).
Abbreviation MembershipOpEntry := (MemDigest T * MembershipOperation T)%type.
Definition entry_of (op : MembershipOperation T) : MembershipOpEntry := (op_digest op, op).

Definition collect_membership_heads (dlg_heads : CaMap (SignedDelegation T)) (rev_heads : RevocationStore T) : list MembershipOpEntry :=
  ((fun x => (coerce x.1, OpDelegation x.2)) <$> map_to_list dlg_heads) ++
  ((fun x => (coerce x.1, OpRevocation x.2)) <$> map_to_list (rs_revocations rev_heads)).

(** The heads of the groups by their id. *)
Context (group_heads : Identifier -> list (SignedDelegation T)).

(** The head of the list is the end of the vector. *)
Definition push_membership_edges (op : MembershipOperation T) (heads : list MembershipOpEntry) (visited : gset (MemDigest T)) (follow_group_heads : bool) :
    list MembershipOpEntry :=
  match op with
  | OpDelegation dlg =>
      let heads := match proof (payload dlg) with Some p => entry_of (OpDelegation p) :: heads | None => heads end in
      let heads := foldl (fun hs rev => entry_of (OpRevocation rev) :: hs) heads (after_revocations (payload dlg)) in
      match follow_group_heads, delegate (payload dlg) with
      | true, AgentGroup id =>
          foldl (fun hs dlg => if bool_decide (op_digest (OpDelegation dlg) ∈ visited) then hs else entry_of (OpDelegation dlg) :: hs) heads (group_heads id)
      | _, _ => heads
      end
  | OpRevocation rev =>
      let heads := match rev_proof (payload rev) with Some p => entry_of (OpDelegation p) :: heads | None => heads end in
      entry_of (OpDelegation (revoke (payload rev))) :: heads
  end.

(** [while let Some((hash, op)) = heads.pop()]; [put] is how the operation goes
    into the map. *)
Fixpoint bfs_loop (put : MemDigest T -> MembershipOperation T -> MembershipOpMap -> MembershipOpMap) (follow_group_heads : bool)
    (fuel : nat) (heads : list MembershipOpEntry) (visited : gset (MemDigest T)) (ops : MembershipOpMap) : option (MembershipOpMap * gset (MemDigest T)) :=
  match heads with
  | [] => Some (ops, visited)
  | (hash, op) :: rest =>
      match fuel with
      | O => None
      | Datatypes.S fuel' =>
          if bool_decide (hash ∈ visited) then bfs_loop put follow_group_heads fuel' rest visited ops
          else
            let visited := {[hash]} ∪ visited in
            bfs_loop put follow_group_heads fuel' (push_membership_edges op rest visited follow_group_heads) visited (put hash op ops)
      end
  end.

(** [ops.insert(hash, op)] and [all_ops.entry(hash).or_insert(op)] *)
Definition put_op (hash : MemDigest T) (op : MembershipOperation T) (ops : MembershipOpMap) : MembershipOpMap := <[hash := op]> ops.
Definition put_new_op (hash : MemDigest T) (op : MembershipOperation T) (ops : MembershipOpMap) : MembershipOpMap :=
  match ops !! hash with Some _ => ops | None => <[hash := op]> ops end.

Definition bfs_membership_ops (fuel : nat) (heads : list MembershipOpEntry) : option MembershipOpMap :=
  r ← bfs_loop put_op true fuel (reverse heads) ∅ ∅; Some r.1.
Definition bfs_extend_from_revocation (fuel : nat) (rev : SignedRevocation T) (all_ops : MembershipOpMap) (visited : gset (MemDigest T)) :
    option (MembershipOpMap * gset (MemDigest T)) :=
  bfs_loop put_new_op false fuel (push_membership_edges (OpRevocation rev) [] visited false) visited all_ops.
End Walk.

(** ** Queries *)

Record AllMembershipOps (T : Type) := mkAllMembershipOps {
  am_ops : gmap Identifier (gmap (MemDigest T) (MembershipOperation T));
  am_index : gmap Identifier (gset Identifier);
}.
Arguments mkAllMembershipOps {T}.
Arguments am_ops {T}.
Arguments am_index {T}.

Inductive MemberedId := MemberedGroup (id : Identifier) | MemberedDocument (id : Identifier).
#[export] Instance MemberedId_eq_dec : EqDecision MemberedId.
Proof. solve_decision. Defined.
#[export] Instance MemberedId_countable : Countable MemberedId.
Proof.
  refine (inj_countable' (fun m => match m with MemberedGroup i => inl i | MemberedDocument i => inr i end)
    (fun s => match s with inl i => MemberedGroup i | inr i => MemberedDocument i end) _). by intros [].
Defined.

Section Queries.
Context `{P : Primitives} `{E : Ed25519} {T : Type} `{Countable T}.
Context `{Ssd : !Serialize (Signed (StaticDelegation T)), Ssr : !Serialize (Signed (StaticRevocation T))}.
Abbreviation Keyhive := (Keyhive T).
Abbreviation MembershipOpMap := (gmap (MemDigest T) (MembershipOperation T)).

(** What the walks over agents find behind the pointers. *)
Definition kh_world (k : Keyhive) : gmap Identifier (gmap Identifier (list (SignedDelegation T))) :=
  (members <$> kh_groups k) ∪ ((fun d => members (doc_group d)) <$> kh_docs k).
Definition kh_group_heads (k : Keyhive) (id : Identifier) : list (SignedDelegation T) :=
  match kh_groups k !! id with Some g => dlg_values (delegation_heads (g_state g)) | None => [] end.

(** One round of a loop over the groups, or over the documents. *)
Definition reachable_step (mk : Identifier -> MemberedId) (agent : Agent) (k : Keyhive) (caps : gmap MemberedId (@Group T * Access)) (g : @Group T) :
    res Empty_set (gmap MemberedId (@Group T * Access)) :=
  let* transitive := transitive_members (kh_world k) g in
  match transitive !! agent_identifier agent with
  | Some (_, can) => Ok (<[mk (group_id g) := (g, can)]> caps)
  | None => Ok caps
  end.
Definition membered_reachable_by_agent (agent : Agent) (k : Keyhive) : res Empty_set (gmap MemberedId (@Group T * Access)) :=
  let* caps := foldR (reachable_step MemberedGroup agent k) (map_to_list (kh_groups k)).*2 ∅ in
  foldR (reachable_step MemberedDocument agent k) (doc_group <$> (map_to_list (kh_docs k)).*2) caps.

Definition group_membership_heads (g : @Group T) : list (MemDigest T * MembershipOperation T) :=
  collect_membership_heads (delegation_heads (g_state g)) (revocation_heads (g_state g)).
Definition agent_revocations (id : AgentId) (k : Keyhive) : list (SignedRevocation T) :=
  match get_revocations_for_agent id (kh_revocations k) with Some revs => (map_to_list revs).*2 | None => [] end.

(** The loop is that of [bfs_membership_ops]. *)
Definition membership_ops_for_agent (fuel : nat) (agent : Agent) (k : Keyhive) : res Empty_set MembershipOpMap :=
  let* reachable := membered_reachable_by_agent agent k in
  let heads := mjoin ((fun x => group_membership_heads x.2.1) <$> map_to_list reachable) in
  let heads := heads ++ ((fun rev => entry_of (OpRevocation rev)) <$> agent_revocations (agent_id agent) k) in
  loopR (bfs_membership_ops (kh_group_heads k) fuel heads).

Definition source_step (fuel : nat) (k : Keyhive) (all : AllMembershipOps T) (g : @Group T) : res Empty_set (AllMembershipOps T) :=
  let* transitive := transitive_members (kh_world k) g in
  let source_id := group_id g in
  let* ops := loopR (bfs_membership_ops (kh_group_heads k) fuel (group_membership_heads g)) in
  Ok (mkAllMembershipOps (<[source_id := ops]> (am_ops all))
        (foldl (fun index agent_id => <[agent_id := {[source_id]} ∪ default ∅ (index !! agent_id)]> index) (am_index all) (map_to_list transitive).*1)).

Definition revocation_step (fuel : nat) (k : Keyhive) (st : MembershipOpMap * gset (MemDigest T)) (rev : SignedRevocation T) :
    res Empty_set (MembershipOpMap * gset (MemDigest T)) :=
  let hash := op_digest (OpRevocation rev) in
  if bool_decide (hash ∈ st.2) then Ok st
  else
    let visited := {[hash]} ∪ st.2 in
    loopR (bfs_extend_from_revocation (kh_group_heads k) fuel rev (put_new_op hash (OpRevocation rev) st.1) visited).

Definition agent_identifier_of (id : AgentId) : Identifier :=
  match id with ActiveId i | IndividualId i | GroupId i | DocumentId i => i end.
Definition agent_step (fuel : nat) (k : Keyhive) (all : AllMembershipOps T) (x : AgentId * gmap (VerifyingKey * Signature) (SignedRevocation T)) :
    res Empty_set (AllMembershipOps T) :=
  let identifier := agent_identifier_of x.1 in
  let agent_ops := default ∅ (am_ops all !! identifier) in
  let* st := foldR (revocation_step fuel k) (map_to_list x.2).*2 (agent_ops, dom agent_ops) in
  Ok (mkAllMembershipOps (<[identifier := st.1]> (am_ops all))
        (if decide (st.1 = ∅) then am_index all
         else <[identifier := {[identifier]} ∪ default ∅ (am_index all !! identifier)]> (am_index all))).

Definition membership_ops_for_all_agents (fuel : nat) (k : Keyhive) : res Empty_set (AllMembershipOps T) :=
  let* all := foldR (source_step fuel k) (map_to_list (kh_groups k)).*2 (mkAllMembershipOps ∅ ∅) in
  let* all := foldR (source_step fuel k) (doc_group <$> (map_to_list (kh_docs k)).*2) all in
  foldR (agent_step fuel k) (map_to_list (agent_to_revocations (kh_revocations k))) all.

(** [AllMembershipOps::ops_for_agent] *)
Definition ops_for_agent (agent_id : Identifier) (all : AllMembershipOps T) : option (list (MemDigest T * MembershipOperation T)) :=
  ids ← am_index all !! agent_id;
  Some (mjoin ((fun id => match am_ops all !! id with Some ops => map_to_list ops | None => [] end) <$> elements ids)).
End Queries.
