(* ===== verification/MemberOpsProps.v ===== *)
(** * What the walk over membership operations collects

    The walk from the heads of the groups and documents an agent reaches ends, and
    collects exactly what the heads are based on. *)

From S2P Require Import Prelude TreeMath Crypto Keys SecretStore Tree PathCrypto Signed CaMap OpGraph AppSecret Cgka Individual Membership MemberSort.
From S2P Require Import MemberExplore GroupState Group Reach Active Document Keyhive MemberOps.

Section Walk.
Context `{P : Primitives} {T : Type}.
Context `{Ssd : !Serialize (Signed (StaticDelegation T)), Ssr : !Serialize (Signed (StaticRevocation T))}.
Context (group_heads : Identifier -> list (SignedDelegation T)) (follow : bool).

(** What an operation leads to: what it depends on and, for a delegation to a
    group, the delegations at the heads of the group. *)
Definition group_edges (op : MembershipOperation T) : list (MembershipOperation T) :=
  match op with
  | OpDelegation d => match follow, delegate (payload d) with true, AgentGroup id => OpDelegation <$> group_heads id | _, _ => [] end
  | OpRevocation _ => []
  end.
Definition op_edges (op : MembershipOperation T) : list (MembershipOperation T) := after_auth op ++ group_edges op.

Inductive walked (roots : list (MembershipOperation T)) : MembershipOperation T -> Prop :=
| walked_root op : op ∈ roots -> walked roots op
| walked_edge op p : walked roots op -> p ∈ op_edges op -> walked roots p.

Lemma walked_from (roots more : list (MembershipOperation T)) x : (forall y, y ∈ roots -> walked more y) -> walked roots x -> walked more x.
Proof. intros Hr. induction 1 as [op Hop|op p _ IH Hp]; [by apply Hr|by apply (walked_edge _ op)]. Qed.

(** *** Pushing *)

Lemma push_revs (revs : list (SignedRevocation T)) : forall hs, foldl (fun hs rev => entry_of (OpRevocation rev) :: hs) hs revs = (entry_of <$> reverse (OpRevocation <$> revs)) ++ hs.
Proof.
  induction revs as [|r revs IH]; intros hs; cbn [foldl fmap list_fmap]; [done|]. rewrite IH, reverse_cons, fmap_app, <- app_assoc. done.
Qed.
Lemma push_dlgs (visited : gset (MemDigest T)) (ds : list (SignedDelegation T)) : forall hs, exists kept,
  foldl (fun hs dlg => if bool_decide (op_digest (OpDelegation dlg) ∈ visited) then hs else entry_of (OpDelegation dlg) :: hs) hs ds = (entry_of <$> kept) ++ hs /\
  (length kept <= length ds)%nat /\ (forall op, op ∈ kept -> op ∈ OpDelegation <$> ds) /\ (forall op, op ∈ OpDelegation <$> ds -> op ∈ kept \/ op_digest op ∈ visited).
Proof.
  induction ds as [|d ds IH]; intros hs; cbn [foldl fmap list_fmap]; [exists []; split_and!; [done|done|done|by intros op ?%not_elem_of_nil]|].
  case_bool_decide as Hv.
  - destruct (IH hs) as (kept & H1 & H2 & H3 & H4). exists kept. split_and!; [done|cbn; lia|intros op Hop; right; by apply H3|].
    intros op [->|Hop]%elem_of_cons; [by right|by apply H4].
  - destruct (IH (entry_of (OpDelegation d) :: hs)) as (kept & H1 & H2 & H3 & H4). exists (kept ++ [OpDelegation d]).
    split_and!; [rewrite H1, fmap_app, <- app_assoc; done|rewrite length_app; cbn; lia| |].
    + intros op [Hop| ->%list_elem_of_singleton]%elem_of_app; [right; by apply H3|left].
    + intros op [->|Hop]%elem_of_cons; [left; apply elem_of_app; right; by apply list_elem_of_singleton|].
      destruct (H4 op Hop); [left; apply elem_of_app; by left|by right].
Qed.
Lemma push_edges op rest (visited : gset (MemDigest T)) : exists more,
  push_membership_edges group_heads op rest visited follow = (entry_of <$> more) ++ rest /\ (length more <= length (op_edges op))%nat /\
  (forall p, p ∈ more -> p ∈ op_edges op) /\ (forall p, p ∈ op_edges op -> p ∈ more \/ op_digest p ∈ visited).
Proof.
  unfold op_edges. destruct op as [d|r]; cbn [push_membership_edges group_edges].
  - rewrite push_revs. set (hs := _ ++ _).
    assert (exists more, hs = (entry_of <$> more) ++ rest /\ more ≡ₚ after_auth (OpDelegation d)) as (more & Hhs & Hmore).
    { unfold after_auth, hs. cbn. destruct (proof (payload d)) as [p|]; cbn.
      - exists (reverse (OpRevocation <$> after_revocations (payload d)) ++ [OpDelegation p]). rewrite fmap_app, <- app_assoc. split; [done|]. rewrite reverse_Permutation. symmetry. apply Permutation_cons_append.
      - exists (reverse (OpRevocation <$> after_revocations (payload d))). split; [done|]. by rewrite reverse_Permutation. }
    assert (exists more, hs = (entry_of <$> more) ++ rest /\ (length more <= length (after_auth (OpDelegation d) ++ []))%nat /\
      (forall p, p ∈ more -> p ∈ after_auth (OpDelegation d) ++ []) /\ forall p, p ∈ after_auth (OpDelegation d) ++ [] -> p ∈ more \/ op_digest p ∈ visited) as Hplain.
    { exists more. rewrite app_nil_r. split_and!; [done|by rewrite Hmore|by intros p ?; rewrite <- Hmore|by intros p Hp; left; rewrite Hmore]. }
    destruct follow; [|exact Hplain]. destruct (delegate (payload d)) as [i|i|i|i]; try exact Hplain. clear Hplain.
    destruct (push_dlgs visited (group_heads i) hs) as (kept & H1 & H2 & H3 & H4). rewrite H1, Hhs, app_assoc, <- fmap_app. exists (kept ++ more).
    split_and!; [done|rewrite !length_app, length_fmap, Hmore; lia| |].
    + intros p [Hp|Hp]%elem_of_app; apply elem_of_app; [right; by apply H3|left; by rewrite <- Hmore].
    + intros p [Hp|Hp]%elem_of_app; [left; apply elem_of_app; right; by rewrite Hmore|]. destruct (H4 p Hp); [left; apply elem_of_app; by left|by right].
  - rewrite app_nil_r. exists (after_auth (OpRevocation r)). unfold after_auth. cbn. rewrite app_nil_r. destruct (rev_proof (payload r)); cbn; split_and!; auto.
Qed.

(** *** Walking *)

(** A finite set of operations that leads nowhere else, told apart by digests. *)
Record op_universe (U : list (MembershipOperation T)) : Prop := {
  ou_closed op p : op ∈ U -> p ∈ op_edges op -> p ∈ U;
  ou_digests a b : a ∈ U -> b ∈ U -> op_digest a = op_digest b -> a = b;
}.

Definition has_op (ops : gmap (MemDigest T) (MembershipOperation T)) (op : MembershipOperation T) : Prop := ops !! op_digest op = Some op.
(** The operations collected so far, and those whose turn is to come. *)
Record walking (U : list (MembershipOperation T)) (ops : gmap (MemDigest T) (MembershipOperation T)) (todo : list (MembershipOperation T)) : Prop := {
  wk_ops h op : ops !! h = Some op -> h = op_digest op /\ op ∈ U;
  wk_todo op : op ∈ todo -> op ∈ U;
  wk_closed op p : has_op ops op -> p ∈ op_edges op -> has_op ops p \/ p ∈ todo;
}.

Lemma walking_seen U ops todo op : op_universe U -> walking U ops todo -> op ∈ U -> op_digest op ∈ dom ops -> has_op ops op.
Proof.
  intros HU Hw Hop [op' Hd]%elem_of_dom. destruct (wk_ops _ _ _ Hw _ _ Hd) as [Heq Hin]. unfold has_op. rewrite Hd. f_equal. by apply (ou_digests _ HU).
Qed.
Lemma walking_from U ops todo roots x : walking U ops todo -> (forall y, y ∈ roots -> has_op ops y \/ walked todo y) -> walked roots x -> has_op ops x \/ walked todo x.
Proof.
  intros Hw Hr. induction 1 as [op Hop|op p _ [IH|IH] Hp]; [by apply Hr| |right; by apply (walked_edge _ op)].
  destruct (wk_closed _ _ _ Hw op p IH Hp); [by left|right; by apply walked_root].
Qed.

Definition walk_cost (U : list (MembershipOperation T)) (ops : gmap (MemDigest T) (MembershipOperation T)) : nat :=
  sum_list_with (fun u => if bool_decide (op_digest u ∈ dom ops) then 0%nat else length (op_edges u)) U.
Lemma walk_cost_insert U ops op : op ∈ U -> op_digest op ∉ dom ops -> (walk_cost U (<[op_digest op := op]> ops) + length (op_edges op) <= walk_cost U ops)%nat.
Proof.
  intros Hop Hn. unfold walk_cost. assert (forall u, ((if bool_decide (op_digest u ∈ dom (<[op_digest op := op]> ops)) then 0 else length (op_edges u)) <=
    (if bool_decide (op_digest u ∈ dom ops) then 0 else length (op_edges u)))%nat) as Hle.
  { intros u. case_bool_decide as H1; [lia|]. rewrite bool_decide_eq_false_2; [done|]. rewrite dom_insert in H1. set_solver. }
  apply list_elem_of_split in Hop as (l1 & l2 & ->). rewrite !sum_list_with_app. cbn [sum_list_with].
  rewrite (bool_decide_eq_true_2 (op_digest op ∈ dom (<[op_digest op := op]> ops))) by (rewrite dom_insert; set_solver).
  rewrite (bool_decide_eq_false_2 (op_digest op ∈ dom ops)) by done.
  assert (forall l, (sum_list_with (fun u => if bool_decide (op_digest u ∈ dom (<[op_digest op := op]> ops)) then 0 else length (op_edges u)) l <=
    sum_list_with (fun u => if bool_decide (op_digest u ∈ dom ops) then 0 else length (op_edges u)) l)%nat) as Hsum.
  { intros l. induction l as [|u l IH]; cbn [sum_list_with]; [lia|]. specialize (Hle u). lia. }
  pose proof (Hsum l1). pose proof (Hsum l2). lia.
Qed.

Lemma walking_visit U ops op rest more : op_universe U -> walking U ops (op :: rest) -> op_digest op ∉ dom ops ->
  (forall p, p ∈ more -> p ∈ op_edges op) -> (forall p, p ∈ op_edges op -> p ∈ more \/ op_digest p ∈ dom (<[op_digest op := op]> ops)) ->
  walking U (<[op_digest op := op]> ops) (more ++ rest).
Proof.
  intros HU [W1 W2 W3] Hn Hsub Hcov. assert (op ∈ U) as HopU by (apply W2; left). apply not_elem_of_dom in Hn.
  assert (forall h x, <[op_digest op := op]> ops !! h = Some x -> h = op_digest x /\ x ∈ U) as Hops by (intros h x [[<- <-]|[_ Hx]]%lookup_insert_Some; [done|by apply W1]).
  constructor; [done| |].
  - intros x [Hx|Hx]%elem_of_app; [|apply W2; by right]. apply (ou_closed _ HU op); [done|by apply Hsub].
  - intros x p Hx Hp. unfold has_op in Hx. apply lookup_insert_Some in Hx as [[_ <-]|[_ Hx]].
    + destruct (Hcov p Hp) as [?|[p' Hp']%elem_of_dom]; [right; apply elem_of_app; by left|]. left. unfold has_op. rewrite Hp'. f_equal.
      destruct (Hops _ _ Hp') as [Hd Hin]. apply (ou_digests _ HU); [done|by apply (ou_closed _ HU op)|done].
    + destruct (W3 x p Hx Hp) as [Hh|[->|?]%elem_of_cons].
      * left. unfold has_op. rewrite lookup_insert_ne; [done|]. intros Heq. unfold has_op in Hh. congruence.
      * left. apply lookup_insert_eq.
      * right. apply elem_of_app. by right.
Qed.

(** The walk returns what it had and all that can be walked to. *)
Lemma bfs_loop_ok put U : (forall h op ops, ops !! h = None -> put h op ops = <[h := op]> ops) -> op_universe U -> forall fuel todo ops, (length todo + walk_cost U ops <= fuel)%nat -> walking U ops todo -> exists ops',
  bfs_loop group_heads put follow fuel (entry_of <$> todo) (dom ops) ops = Some (ops', dom ops') /\ walking U ops' [] /\
  forall op, has_op ops' op <-> has_op ops op \/ walked todo op.
Proof.
  intros Hput HU. induction fuel as [|fuel IH]; intros [|op rest] ops Hf Hw; cbn [bfs_loop fmap list_fmap length] in *; try lia.
  1,2: exists ops; split_and!; [done|done|]; intros op; split; [by left|]; intros [?|Hop]; [done|]; exfalso; induction Hop as [op Hop|]; [by apply not_elem_of_nil in Hop|done].
  cbn [entry_of]. unfold entry_of at 1. pose proof (wk_todo _ _ _ Hw op (list_elem_of_here _ _)) as HopU. case_bool_decide as Hseen.
  - assert (has_op ops op) as Hop by (by apply (walking_seen U _ (op :: rest))).
    assert (walking U ops rest) as Hw'.
    { destruct Hw as [W1 W2 W3]. constructor; [done|intros x Hx; apply W2; by right|]. intros x p Hx Hp.
      destruct (W3 x p Hx Hp) as [?|[->|?]%elem_of_cons]; [by left|by left|by right]. }
    destruct (IH rest ops ltac:(lia) Hw') as (ops' & Hrun & Hdone & Hall). exists ops'. split_and!; [done|done|]. intros x. rewrite Hall. split.
    + intros [?|Hx]; [by left|right]. apply (walked_from rest); [|done]. intros y Hy. apply walked_root. by right.
    + intros [?|Hx]; [by left|]. apply (walking_from U ops rest (op :: rest)); [done| |done]. intros y [->|Hy]%elem_of_cons; [by left|right; by apply walked_root].
  - destruct (push_edges op (entry_of <$> rest) (dom (<[op_digest op := op]> ops))) as (more & Hpush & Hlen & Hsub & Hcov).
    assert (ops !! op_digest op = None) as Hnone by (by apply not_elem_of_dom). rewrite Hput by done.
    assert ({[op_digest op]} ∪ dom ops = dom (<[op_digest op := op]> ops)) as -> by (by rewrite dom_insert_L). rewrite Hpush, <- fmap_app.
    destruct (IH (more ++ rest) (<[op_digest op := op]> ops)) as (ops' & Hrun & Hdone & Hall).
    { rewrite length_app. pose proof (walk_cost_insert U ops op HopU Hseen). lia. }
    { by apply walking_visit. }
    exists ops'. split_and!; [done|done|]. intros x. rewrite Hall. split.
    + intros [Hx|Hx].
      * unfold has_op in Hx. apply lookup_insert_Some in Hx as [[Hd Hx]|[_ Hx]]; [right; subst x; apply walked_root; left|by left].
      * right. apply (walked_from (more ++ rest)); [|done]. intros y [Hy|Hy]%elem_of_app; [|apply walked_root; by right].
        apply (walked_edge _ op); [apply walked_root; left|by apply Hsub].
    + assert (forall y, has_op ops y -> has_op (<[op_digest op := op]> ops) y) as Hmono by (intros y Hy; unfold has_op; rewrite lookup_insert_ne; [done|]; intros Heq; unfold has_op in Hy; congruence).
      intros [Hx|Hx]; [left; by apply Hmono|]. apply (walking_from U _ (more ++ rest) (op :: rest)); [by apply walking_visit| |done].
      intros y [->|Hy]%elem_of_cons; [left; apply lookup_insert_eq|right; apply walked_root, elem_of_app; by right].
Qed.
End Walk.

(** ** What is exported *)

(** ** Histories are finite *)

Section Histories.
Context {T : Type}.
Implicit Types (op x : MembershipOperation T) (roots l : list (MembershipOperation T)).

Lemma reaches_nil x : ~ reaches [] x.
Proof. induction 1 as [op Hop|]; [by apply not_elem_of_nil in Hop|done]. Qed.
Lemma reaches_cons op roots x : reaches (op :: roots) x <-> reaches [op] x \/ reaches roots x.
Proof.
  split.
  - induction 1 as [y [->|Hy]%elem_of_cons|y z _ [IH|IH] Hz]; [left; apply reaches_head; left|right; by apply reaches_head|left; by apply (reaches_after _ y)|right; by apply (reaches_after _ y)].
  - intros [Hx|Hx]; revert Hx; apply reaches_sub; intros y Hy; apply reaches_head; [apply list_elem_of_singleton in Hy as ->; left|by right].
Qed.
Lemma reaches_self op x : reaches [op] x <-> x = op \/ reaches (after_auth op) x.
Proof.
  split.
  - induction 1 as [y ->%list_elem_of_singleton|y z _ [->|IH] Hz]; [by left|right; by apply reaches_head|right; by apply (reaches_after _ y)].
  - intros [->|Hx]; [apply reaches_head; left|]. revert Hx. apply reaches_sub. intros y Hy. apply (reaches_after _ op); [apply reaches_head; left|done].
Qed.

Lemma finite_histories roots : exists l, forall x, x ∈ l <-> reaches roots x.
Proof.
  assert (forall n op, (op_size op < n)%nat -> exists l, forall x, x ∈ l <-> reaches [op] x) as Hone.
  { induction n as [|n IH]; intros op Hn; [lia|].
    assert (forall deps, (forall p, p ∈ deps -> p ∈ after_auth op) -> exists l, forall x, x ∈ l <-> reaches deps x) as Hdeps.
    { induction deps as [|p deps IHd]; intros Hd; [exists []; intros x; split; [by intros ?%not_elem_of_nil|by intros ?%reaches_nil]|].
      destruct IHd as [l Hl]; [intros q Hq; apply Hd; by right|]. destruct (IH p) as [lp Hlp].
      { assert (op_size p < op_size op)%nat by (apply after_auth_smaller, Hd; left). lia. }
      exists (lp ++ l). intros x. by rewrite elem_of_app, Hl, Hlp, (reaches_cons p deps). }
    destruct (Hdeps (after_auth op)) as [l Hl]; [done|]. exists (op :: l). intros x. by rewrite elem_of_cons, Hl, (reaches_self op). }
  induction roots as [|op roots [l Hl]]; [exists []; intros x; split; [by intros ?%not_elem_of_nil|by intros ?%reaches_nil]|].
  destruct (Hone (Datatypes.S (op_size op)) op) as [lp Hlp]; [lia|]. exists (lp ++ l). intros x. by rewrite elem_of_app, Hl, Hlp, (reaches_cons op roots).
Qed.
End Histories.

Section Exports.
Context `{P : Primitives} `{E : Ed25519} {T : Type} `{Countable T}.
Context `{Ssd : !Serialize (Signed (StaticDelegation T)), Ssr : !Serialize (Signed (StaticRevocation T))}.
Implicit Types (k : Keyhive T) (g : @Group T) (op : MembershipOperation T).

(** ** What is to be sent *)

(** The groups of a keyhive, and those of its documents. *)
Definition sources k : list (@Group T) := (map_to_list (kh_groups k)).*2 ++ (doc_group <$> (map_to_list (kh_docs k)).*2).
Definition source_heads g : list (MembershipOperation T) :=
  (OpDelegation <$> dlg_values (delegation_heads (g_state g))) ++ (OpRevocation <$> rev_values (revocation_heads (g_state g))).
Definition gives_access k g (id : Identifier) : Prop := exists caps, transitive_members (kh_world k) g = Ok caps /\ is_Some (caps !! id).

(** The operations for an agent: the histories of the groups and documents it has
    access to, also those of groups it meets there, and of its revocations. *)
Inductive exported k (agent : Agent) : MembershipOperation T -> Prop :=
| exported_head g op : g ∈ sources k -> gives_access k g (agent_identifier agent) -> op ∈ source_heads g -> exported k agent op
| exported_revocation r : r ∈ agent_revocations (agent_id agent) k -> exported k agent (OpRevocation r)
| exported_after op p : exported k agent op -> p ∈ after_auth op -> exported k agent p
| exported_group d id h : exported k agent (OpDelegation d) -> delegate (payload d) = AgentGroup id -> h ∈ kh_group_heads k id -> exported k agent (OpDelegation h).

(** All there is to send. *)
Definition all_revocations k : list (SignedRevocation T) := mjoin ((fun x => (map_to_list x.2).*2) <$> map_to_list (agent_to_revocations (kh_revocations k))).
Definition all_roots k : list (MembershipOperation T) := mjoin (source_heads <$> sources k) ++ (OpRevocation <$> all_revocations k).

Record exporting k : Prop := {
  ex_walks g : g ∈ sources k -> exists caps, transitive_members (kh_world k) g = Ok caps;
  ex_ids : NoDup (group_id <$> sources k);
  ex_groups id g : kh_groups k !! id = Some g -> group_id g = id;
  ex_keyed g : g ∈ sources k -> ca_wf (delegation_heads (g_state g)) /\ ca_wf (rs_revocations (revocation_heads (g_state g)));
  ex_digests a b : reaches (all_roots k) a -> reaches (all_roots k) b -> op_digest a = op_digest b -> a = b;
}.

Abbreviation walks k := (walked (kh_group_heads k)).

Lemma group_in_sources k id g : kh_groups k !! id = Some g -> g ∈ sources k.
Proof. intros Hg. apply elem_of_app. left. apply list_elem_of_fmap. exists (id, g). by rewrite elem_of_map_to_list. Qed.
Lemma source_root k g op : g ∈ sources k -> op ∈ source_heads g -> op ∈ all_roots k.
Proof. intros Hg Hop. apply elem_of_app. left. apply list_elem_of_join. exists (source_heads g). split; [done|]. apply list_elem_of_fmap. by exists g. Qed.
Lemma source_heads_length k g : g ∈ sources k -> (length (source_heads g) <= length (all_roots k))%nat.
Proof.
  intros Hg. unfold all_roots. rewrite length_app. apply list_elem_of_split in Hg as (l1 & l2 & ->).
  rewrite fmap_app, fmap_cons, join_app. change (mjoin (source_heads g :: (source_heads <$> l2))) with (source_heads g ++ mjoin (source_heads <$> l2)). rewrite !length_app. lia.
Qed.
Lemma revocation_root k id r : r ∈ agent_revocations id k -> OpRevocation r ∈ all_roots k.
Proof.
  unfold agent_revocations, get_revocations_for_agent. destruct (agent_to_revocations (kh_revocations k) !! id) as [revs|] eqn:Hid; [|by intros ?%not_elem_of_nil].
  intros Hr. apply elem_of_app. right. apply list_elem_of_fmap. exists r. split; [done|]. apply list_elem_of_join. eexists. split; [exact Hr|].
  apply list_elem_of_fmap. exists (id, revs). by rewrite elem_of_map_to_list.
Qed.

(** *** A finite universe *)

Lemma group_edges_root k follow op p : p ∈ group_edges (kh_group_heads k) follow op -> p ∈ all_roots k.
Proof.
  unfold group_edges. destruct op as [d|r]; [|by intros ?%not_elem_of_nil]. destruct follow; [|by intros ?%not_elem_of_nil].
  destruct (delegate (payload d)) as [i|i|i|i]; try by intros ?%not_elem_of_nil. intros (h & -> & Hh)%list_elem_of_fmap.
  unfold kh_group_heads in Hh. destruct (kh_groups k !! i) as [g|] eqn:Hg; [|by apply not_elem_of_nil in Hh].
  apply (source_root k g); [by eapply group_in_sources|]. apply elem_of_app. left. apply list_elem_of_fmap. by exists h.
Qed.
Lemma export_universe k : exporting k -> exists U, (forall op, op ∈ U <-> reaches (all_roots k) op) /\ forall follow, op_universe (kh_group_heads k) follow U.
Proof.
  intros Hk. destruct (finite_histories (all_roots k)) as [U HU]. exists U. split; [done|]. intros follow. constructor.
  - intros op p Hop%HU [Hp|Hp]%elem_of_app; apply HU; [by apply (reaches_after _ op)|]. by apply reaches_head, (group_edges_root k follow op).
  - intros a b Ha%HU Hb%HU. by apply (ex_digests _ Hk).
Qed.

(** *** Heads *)

Lemma heads_entries k g : exporting k -> g ∈ sources k -> group_membership_heads g = entry_of <$> source_heads g.
Proof.
  intros Hk Hg. destruct (ex_keyed _ Hk g Hg) as [Hd Hr]. unfold group_membership_heads, collect_membership_heads, source_heads, dlg_values, rev_values.
  rewrite fmap_app, <- !list_fmap_compose. f_equal; apply list_fmap_ext; intros i [h x] Hx%list_elem_of_lookup_2%elem_of_map_to_list; cbn.
  - rewrite (Hd _ _ Hx). done.
  - rewrite (Hr _ _ Hx). done.
Qed.
Lemma exported_walked k agent todo : (forall op, op ∈ todo <-> (exists g, g ∈ sources k /\ gives_access k g (agent_identifier agent) /\ op ∈ source_heads g) \/
    exists r, r ∈ agent_revocations (agent_id agent) k /\ op = OpRevocation r) -> forall op, exported k agent op <-> walks k true todo op.
Proof.
  intros Ht op. split.
  - induction 1 as [g op Hg Ha Hop|r Hr|op p _ IH Hp|d id h _ IH Hd Hh].
    + apply walked_root, Ht. left. by exists g.
    + apply walked_root, Ht. right. by exists r.
    + apply (walked_edge _ _ _ op); [done|]. apply elem_of_app. by left.
    + apply (walked_edge _ _ _ (OpDelegation d)); [done|]. apply elem_of_app. right. cbn. rewrite Hd. apply list_elem_of_fmap. by exists h.
  - induction 1 as [op [(g & Hg & Ha & Hop)|(r & Hr & ->)]%Ht|op p _ IH [Hp|Hp]%elem_of_app].
    + by apply (exported_head k agent g).
    + by apply exported_revocation.
    + by apply (exported_after k agent op).
    + destruct op as [d|r]; cbn in Hp; [|by apply not_elem_of_nil in Hp]. destruct (delegate (payload d)) as [i|i|i|i] eqn:Hd; try by apply not_elem_of_nil in Hp.
      apply list_elem_of_fmap in Hp as (h & -> & Hh). by apply (exported_group k agent d i).
Qed.

(** ** The query for one agent *)

Definition in_caps (caps : gmap MemberedId (@Group T * Access)) g : Prop := exists key can, caps !! key = Some (g, can).

Lemma reachable_fold (mk : Identifier -> MemberedId) agent k l : Inj (=) (=) mk -> forall caps, (forall g, g ∈ l -> exists c, transitive_members (kh_world k) g = Ok c) ->
  NoDup (group_id <$> l) -> (forall g, g ∈ l -> caps !! mk (group_id g) = None) -> exists caps',
  foldR (reachable_step mk agent k) l caps = Ok caps' /\ (forall g, in_caps caps' g <-> in_caps caps g \/ g ∈ l /\ gives_access k g (agent_identifier agent)) /\
  forall key, (forall i, key <> mk i) -> caps' !! key = caps !! key.
Proof.
  intros Hinj. induction l as [|g l IH]; intros caps Hw Hnd Hfresh; cbn [foldR].
  { exists caps. split_and!; [done| |done]. intros g. split; [by left|]. by intros [?|[?%not_elem_of_nil _]]. }
  cbn [fmap list_fmap] in Hnd. apply NoDup_cons in Hnd as [Hg Hnd]. destruct (Hw g (list_elem_of_here _ _)) as [c Hc]. unfold reachable_step at 1. rewrite Hc. cbn [bindR].
  assert (forall x, x ∈ l -> mk (group_id x) <> mk (group_id g)) as Hne by (intros x Hx Heq%(inj mk); apply Hg; rewrite <- Heq; by apply list_elem_of_fmap_2).
  assert (caps !! mk (group_id g) = None) as Hno by (apply Hfresh; left).
  destruct (c !! agent_identifier agent) as [[a can]|] eqn:Ha.
  - destruct (IH (<[mk (group_id g) := (g, can)]> caps)) as (caps' & Hrun & Hin & Hkey); [intros x Hx; apply Hw; by right|done| |].
    { intros x Hx. rewrite lookup_insert_ne by (by apply not_eq_sym, Hne). apply Hfresh. by right. }
    exists caps'. cbn [bindR]. split_and!; [done| |intros key Hk; rewrite Hkey, lookup_insert_ne; auto].
    intros x. rewrite Hin. split.
    + intros [(key & cn & [[_ [= <- _]]|[_ Hx]]%lookup_insert_Some)|[Hx Hgv]]; [right; split; [left|exists c; by rewrite Ha]|left; by exists key, cn|right; split; [by right|done]].
    + intros [(key & cn & Hx)|[[->|Hx]%elem_of_cons Hgv]]; [left; exists key, cn; rewrite lookup_insert_ne; [done|congruence]|left; exists (mk (group_id g)), can; apply lookup_insert_eq|by right].
  - destruct (IH caps) as (caps' & Hrun & Hin & Hkey); [intros x Hx; apply Hw; by right|done|intros x Hx; apply Hfresh; by right|].
    exists caps'. split_and!; [done| |done]. intros x. rewrite Hin. split; [intros [?|[Hx Hgv]]; [by left|right; split; [by right|done]]|].
    intros [?|[[->|Hx]%elem_of_cons Hgv]]; [by left| |by right]. destruct Hgv as (c' & Hc' & [v Hv]). congruence.
Qed.

Lemma reachable_ok agent k : exporting k -> exists caps, membered_reachable_by_agent agent k = Ok caps /\
  forall g, in_caps caps g <-> g ∈ sources k /\ gives_access k g (agent_identifier agent).
Proof.
  intros [Hw Hids _ _ _]. unfold sources in *. rewrite fmap_app in Hids. apply NoDup_app in Hids as (Hg & _ & Hd). unfold membered_reachable_by_agent.
  assert (Inj (=) (=) MemberedGroup) as Hi1 by (by intros ?? [= ->]). assert (Inj (=) (=) MemberedDocument) as Hi2 by (by intros ?? [= ->]).
  destruct (reachable_fold MemberedGroup agent k (map_to_list (kh_groups k)).*2 Hi1 ∅) as (c1 & -> & H1 & K1); [intros g Hin; apply Hw, elem_of_app; by left|done|by intros; apply lookup_empty|].
  cbn [bindR]. destruct (reachable_fold MemberedDocument agent k (doc_group <$> (map_to_list (kh_docs k)).*2) Hi2 c1) as (c2 & -> & H2 & _).
  { intros g Hin. apply Hw, elem_of_app. by right. }
  { done. }
  { intros g _. by rewrite K1, lookup_empty. }
  exists c2. split; [done|]. intros g. rewrite H2, H1, elem_of_app. assert (~ in_caps ∅ g) by (intros (key & can & Hx); by rewrite lookup_empty in Hx). tauto.
Qed.

Lemma walking_start follow k U (todo : list (MembershipOperation T)) : (forall op, op ∈ todo -> op ∈ U) -> walking (kh_group_heads k) follow U ∅ todo.
Proof. intros Ht. constructor; [by intros h op; rewrite lookup_empty|done|]. intros op p Hop. unfold has_op in Hop. by rewrite lookup_empty in Hop. Qed.

(** The walk from heads that are in play. *)
Lemma bfs_ops_ok k U (todo : list (MembershipOperation T)) : exporting k -> (forall follow, op_universe (kh_group_heads k) follow U) -> (forall op, op ∈ todo -> op ∈ U) ->
  exists ops, (forall fuel, (length todo + walk_cost (kh_group_heads k) true U ∅ <= fuel)%nat -> bfs_membership_ops (kh_group_heads k) fuel (entry_of <$> todo) = Some ops) /\
  forall h op, ops !! h = Some op <-> h = op_digest op /\ walks k true todo op.
Proof.
  intros Hk HU Ht. assert (walking (kh_group_heads k) true U ∅ (reverse todo)) as Hw by (apply walking_start; intros op; rewrite elem_of_reverse; apply Ht).
  destruct (bfs_loop_ok (kh_group_heads k) true put_op U (fun _ _ _ _ => eq_refl) (HU true) (length todo + walk_cost (kh_group_heads k) true U ∅) (reverse todo) ∅) as (ops & Hrun & Hdone & Hall); [by rewrite length_reverse|done|].
  exists ops. split.
  - intros fuel Hf. unfold bfs_membership_ops. rewrite <- fmap_reverse.
    destruct (bfs_loop_ok (kh_group_heads k) true put_op U (fun _ _ _ _ => eq_refl) (HU true) fuel (reverse todo) ∅) as (ops2 & Hrun2 & Hdone2 & Hall2); [by rewrite length_reverse|done|].
    rewrite dom_empty_L in Hrun2. rewrite Hrun2. cbn. f_equal. apply map_eq. intros h. apply option_eq. intros op.
    split; intros Hop; [destruct (wk_ops _ _ _ _ _ Hdone2 _ _ Hop) as [-> _]; apply Hall, Hall2|destruct (wk_ops _ _ _ _ _ Hdone _ _ Hop) as [-> _]; apply Hall2, Hall]; exact Hop.
  - assert (forall x, walks k true (reverse todo) x <-> walks k true todo x) as Hrev.
    { intros x. split; apply walked_from; intros y Hy; apply walked_root; [by rewrite elem_of_reverse in Hy|by rewrite elem_of_reverse]. }
    intros h op. split.
    + intros Hop. destruct (wk_ops _ _ _ _ _ Hdone _ _ Hop) as [-> _]. split; [done|]. apply Hall in Hop as [Hop|Hop]; [unfold has_op in Hop; by rewrite lookup_empty in Hop|by apply Hrev].
    + intros [-> Hop]. apply Hall. right. by apply Hrev.
Qed.

Lemma mjoin_cons {A} (l : list A) ls : mjoin (l :: ls) = l ++ mjoin ls.
Proof. done. Qed.
Lemma agent_ops_ok k agent : exporting k -> exists ops fuel0,
  (forall fuel, (fuel0 <= fuel)%nat -> membership_ops_for_agent fuel agent k = Ok ops) /\
  forall h op, ops !! h = Some op <-> h = op_digest op /\ exported k agent op.
Proof.
  intros Hk. destruct (export_universe k Hk) as (U & HUin & HU). destruct (reachable_ok agent k Hk) as (caps & Hcaps & Hin).
  set (todo := mjoin ((fun x => source_heads x.2.1) <$> map_to_list caps) ++ (OpRevocation <$> agent_revocations (agent_id agent) k)).
  assert (forall x, x ∈ map_to_list caps -> x.2.1 ∈ sources k /\ gives_access k x.2.1 (agent_identifier agent)) as Hcap.
  { intros [key [g can]] Hx%elem_of_map_to_list. apply Hin. by exists key, can. }
  assert (mjoin ((fun x => group_membership_heads x.2.1) <$> map_to_list caps) ++ ((fun rev => entry_of (OpRevocation rev)) <$> agent_revocations (agent_id agent) k) = entry_of <$> todo) as Hheads.
  { unfold todo. rewrite fmap_app, <- list_fmap_compose. f_equal. revert Hcap. generalize (map_to_list caps). intros l Hl. induction l as [|x l IH]; [done|].
    rewrite !fmap_cons, !mjoin_cons, fmap_app, IH by (intros y Hy; apply Hl; by right). f_equal. apply (heads_entries k); [done|]. apply Hl. left. }
  assert (forall op, op ∈ todo <-> (exists g, g ∈ sources k /\ gives_access k g (agent_identifier agent) /\ op ∈ source_heads g) \/
    exists r, r ∈ agent_revocations (agent_id agent) k /\ op = OpRevocation r) as Htodo.
  { intros op. unfold todo. rewrite elem_of_app, list_elem_of_join. split.
    - intros [(l & Hop & ([key [g can]] & -> & Hx)%list_elem_of_fmap)|(r & -> & Hr)%list_elem_of_fmap]; [left; exists g; cbn in Hop; destruct (Hcap _ Hx); done|right; by exists r].
    - intros [(g & Hg & Ha & Hop)|(r & Hr & ->)]; [|right; apply list_elem_of_fmap; by exists r]. left. exists (source_heads g). split; [done|].
      destruct (proj2 (Hin g) (conj Hg Ha)) as (key & can & Hkey). apply list_elem_of_fmap. exists (key, (g, can)). by rewrite elem_of_map_to_list. }
  destruct (bfs_ops_ok k U todo Hk HU) as (ops & Hrun & Hall).
  { intros op [(g & Hg & _ & Hop)|(r & Hr & ->)]%Htodo; apply HUin, reaches_head; [by apply (source_root k g)|by eapply revocation_root]. }
  exists ops, (length todo + walk_cost (kh_group_heads k) true U ∅)%nat. split.
  - intros fuel Hf. unfold membership_ops_for_agent. rewrite Hcaps. cbn [bindR]. rewrite Hheads, Hrun by done. done.
  - intros h op. by rewrite Hall, (exported_walked k agent todo Htodo).
Qed.

(** C17. [membership_ops_for_agent] ends, and returns exactly the operations the agent
    needs, each under its digest. *)
Theorem membership_ops_for_agent_correct k agent : exporting k -> exists ops fuel0,
  (forall fuel, (fuel0 <= fuel)%nat -> membership_ops_for_agent fuel agent k = Ok ops) /\
  forall h op, ops !! h = Some op <-> h = op_digest op /\ exported k agent op.
Proof. apply agent_ops_ok. Qed.
End Exports.
