(* ===== verification/MemberOpsAll.v ===== *)
(** * The membership operations of all agents at once

    [membership_ops_for_all_agents] walks from each group and document once.  It
    gives every agent what the query for the agent gives it, as long as no group
    or document has been revoked, and no revocation goes back to a delegation to a
    group. *)

From S2P Require Import Prelude TreeMath Crypto Keys SecretStore Tree PathCrypto Signed CaMap OpGraph AppSecret Cgka.
From S2P Require Import Individual Membership MemberSort MemberExplore GroupState Group Reach Active Document Keyhive MemberOps MemberOpsProps.

Section All.
Context `{P : Primitives} `{E : Ed25519} {T : Type} `{Countable T}.
Context `{Ssd : !Serialize (Signed (StaticDelegation T)), Ssr : !Serialize (Signed (StaticRevocation T))}.
Implicit Types (k : Keyhive T) (g : @Group T) (op : MembershipOperation T).
Abbreviation walks k := (walked (kh_group_heads k)).

(** Operations under their digests that can be walked to. *)
Definition collects k follow (roots : list (MembershipOperation T)) (ops : gmap (MemDigest T) (MembershipOperation T)) : Prop :=
  forall h op, ops !! h = Some op <-> h = op_digest op /\ walks k follow roots op.
Abbreviation indexed all a := (default ∅ (am_index all !! a)).

Lemma foldR_join {Er A B} (f : B -> A -> res Er B) l1 l2 : forall b, foldR f (l1 ++ l2) b = bindR (foldR f l1 b) (foldR f l2).
Proof. induction l1 as [|x l1 IH]; intros b; cbn [app foldR]; [done|]. destruct (f b x); cbn; [apply IH|done..]. Qed.

(** ** From groups and documents *)

Lemma index_fold (s : Identifier) (ids : list Identifier) : forall (index : gmap Identifier (gset Identifier)) a x,
  x ∈ default ∅ (foldl (fun index a => <[a := {[s]} ∪ default ∅ (index !! a)]> index) index ids !! a) <-> x ∈ default ∅ (index !! a) \/ a ∈ ids /\ x = s.
Proof.
  induction ids as [|i ids IH]; intros index a x; cbn [foldl]; [split; [by left|]; by intros [?|[?%not_elem_of_nil _]]|]. rewrite IH.
  destruct (decide (a = i)) as [->|Hne]; [rewrite lookup_insert_eq; cbn; set_solver|]. rewrite lookup_insert_ne by done. set_solver.
Qed.

Lemma sources_fold k U fuel : exporting k -> (forall follow, op_universe (kh_group_heads k) follow U) -> (forall op, op ∈ U <-> reaches (all_roots k) op) ->
  (length (all_roots k) + walk_cost (kh_group_heads k) true U ∅ <= fuel)%nat ->
  forall l all, (forall g, g ∈ l -> g ∈ sources k) -> NoDup (group_id <$> l) -> exists all', foldR (source_step fuel k) l all = Ok all' /\
  (forall g, g ∈ l -> exists ops, am_ops all' !! group_id g = Some ops /\ collects k true (source_heads g) ops) /\
  (forall id, id ∉ group_id <$> l -> am_ops all' !! id = am_ops all !! id) /\
  forall a s, s ∈ indexed all' a <-> s ∈ indexed all a \/ exists g, g ∈ l /\ s = group_id g /\ gives_access k g a.
Proof.
  intros Hk HU HUin Hfuel. induction l as [|g l IH]; intros all Hl Hnd; cbn [foldR].
  { exists all. split_and!; [done|by intros g ?%not_elem_of_nil|done|]. intros a s. split; [by left|]. by intros [?|(g & ?%not_elem_of_nil & _)]. }
  apply NoDup_cons in Hnd as [Hg Hnd]. pose proof (Hl g (list_elem_of_here _ _)) as Hgs. destruct (ex_walks _ Hk g Hgs) as [caps Hcaps].
  destruct (bfs_ops_ok k U (source_heads g) Hk HU) as (ops & Hrun & Hops); [intros op Hop; by apply HUin, reaches_head, (source_root k g)|].
  unfold source_step at 1. rewrite Hcaps. cbn [bindR]. rewrite (heads_entries k g Hk Hgs), Hrun by (pose proof (source_heads_length k g Hgs); lia). cbn [loopR bindR].
  set (all1 := mkAllMembershipOps _ _). destruct (IH all1) as (all' & Heq & Hin & Hout & Hidx); [intros x Hx; apply Hl; by right|done|].
  exists all'. split_and!; [done| | |].
  - intros x [->|Hx]%elem_of_cons; [|by apply Hin]. exists ops. split; [|exact Hops]. rewrite Hout by done. cbn. apply lookup_insert_eq.
  - intros id Hid. cbn [fmap list_fmap] in Hid. apply not_elem_of_cons in Hid as [Hne Hid]. rewrite Hout by done. cbn. by rewrite lookup_insert_ne.
  - intros a s. rewrite Hidx. unfold all1. cbn [am_index]. rewrite index_fold. split.
    + intros [[?|[Ha ->]]|(x & Hx & Hs)]; [by left| |right; exists x; split; [by right|done]]. right. exists g. split_and!; [left|done|]. exists caps. split; [done|].
      apply list_elem_of_fmap in Ha as ([a' v] & -> & Hv%elem_of_map_to_list). by exists v.
    + intros [?|(x & [->|Hx]%elem_of_cons & -> & Hgv)]; [by left; left| |right; by exists x]. left. right. split; [|done].
      destruct Hgv as (c' & Hc' & [v Hv]). rewrite Hcaps in Hc'. injection Hc' as <-. apply list_elem_of_fmap. exists (a, v). by rewrite elem_of_map_to_list.
Qed.

(** ** From revocations *)

Lemma walk_cost_mono k follow U ops ops' : dom ops ⊆ dom ops' -> (walk_cost (kh_group_heads k) follow U ops' <= walk_cost (kh_group_heads k) follow U ops)%nat.
Proof.
  intros Hd. unfold walk_cost. induction U as [|u U IH]; cbn [sum_list_with]; [done|]. apply Nat.add_le_mono; [|exact IH].
  case_bool_decide as H1; [lia|]. rewrite bool_decide_eq_false_2; [done|]. set_solver.
Qed.

Definition rev_fuel k (U : list (MembershipOperation T)) : nat :=
  walk_cost (kh_group_heads k) false U ∅ + sum_list_with (fun u => length (after_auth u)) U.
Abbreviation opmap := (gmap (MemDigest T) (MembershipOperation T)).

Lemma put_new_fresh (h : MemDigest T) op (ops : opmap) : ops !! h = None -> put_new_op h op ops = <[h := op]> ops.
Proof. intros Hn. unfold put_new_op. by rewrite Hn. Qed.

Lemma revocation_step_ok k U fuel (ops : opmap) r : (forall follow, op_universe (kh_group_heads k) follow U) -> (rev_fuel k U <= fuel)%nat ->
  walking (kh_group_heads k) false U ops [] -> OpRevocation r ∈ U -> exists ops',
  revocation_step fuel k (ops, dom ops) r = Ok (ops', dom ops') /\ walking (kh_group_heads k) false U ops' [] /\
  forall op, has_op ops' op <-> has_op ops op \/ walks k false [OpRevocation r] op.
Proof.
  intros HU Hf Hw Hr. unfold revocation_step. cbn [fst snd]. case_bool_decide as Hin.
  { exists ops. pose proof (walking_seen _ _ U ops [] _ (HU false) Hw Hr Hin) as Hh. split_and!; [done|done|]. intros op. split; [by left|].
    intros [?|Ho]; [done|]. destruct (walking_from _ _ U ops [] [OpRevocation r] op Hw) as [?|Hn]; [by intros y ->%list_elem_of_singleton; left|done|done|].
    exfalso. clear -Hn. induction Hn as [x Hx|]; [by apply not_elem_of_nil in Hx|done]. }
  assert (ops !! op_digest (OpRevocation r) = None) as Hnone by (by apply not_elem_of_dom). unfold bfs_extend_from_revocation. rewrite put_new_fresh by done.
  set (ops1 := <[_ := _]> ops). assert ({[op_digest (OpRevocation r)]} ∪ dom ops = dom ops1) as -> by (unfold ops1; by rewrite dom_insert_L).
  destruct (push_edges (kh_group_heads k) false (OpRevocation r) [] (dom ops1)) as (more & -> & Hlen & Hsub & Hcov). rewrite app_nil_r.
  assert (walking (kh_group_heads k) false U ops1 (more ++ [])) as Hw1.
  { apply walking_visit; [apply HU| |done|done|done]. destruct Hw as [W1 _ W3]. constructor; [done|by intros x ->%list_elem_of_singleton|].
    intros x p Hx Hp. destruct (W3 x p Hx Hp) as [?|?%not_elem_of_nil]; [by left|done]. }
  rewrite app_nil_r in Hw1. destruct (bfs_loop_ok (kh_group_heads k) false put_new_op U put_new_fresh (HU false) fuel more ops1) as (ops' & -> & Hd & Hall); [|done|].
  { assert (walk_cost (kh_group_heads k) false U ops1 <= walk_cost (kh_group_heads k) false U ∅)%nat by (apply walk_cost_mono; set_solver).
    apply (sum_list_with_elem (fun u => length (after_auth u))) in Hr. unfold rev_fuel in Hf. unfold op_edges in Hlen. cbn [group_edges] in Hlen. rewrite app_nil_r in Hlen. lia. }
  exists ops'. split_and!; [done|done|]. intros op. rewrite Hall. unfold ops1. split.
  - intros [Ho|Ho]; [apply lookup_insert_Some in Ho as [[_ <-]|[_ Ho]]; [right; apply walked_root; left|by left]|right].
    revert Ho. apply walked_from. intros y Hy. apply (walked_edge _ _ _ (OpRevocation r)); [apply walked_root; left|by apply Hsub].
  - intros [Ho|Ho]; [left; unfold has_op in *; rewrite lookup_insert_ne; congruence|].
    apply (walking_from _ _ U ops1 more [OpRevocation r]); [done| |done]. intros y ->%list_elem_of_singleton. left. apply lookup_insert_eq.
Qed.

Lemma walked_cons k follow op roots x : walks k follow (op :: roots) x <-> walks k follow [op] x \/ walks k follow roots x.
Proof.
  split.
  - induction 1 as [y [->|Hy]%elem_of_cons|y z _ [IH|IH] Hz]; [left; apply walked_root; left|right; by apply walked_root|left; by apply (walked_edge _ _ _ y)|right; by apply (walked_edge _ _ _ y)].
  - intros [Hx|Hx]; revert Hx; apply walked_from; intros y Hy; apply walked_root; [apply list_elem_of_singleton in Hy as ->; left|by right].
Qed.
Lemma walked_nil k follow x : ~ walks k follow [] x.
Proof. induction 1 as [y Hy|]; [by apply not_elem_of_nil in Hy|done]. Qed.

Lemma revocations_fold k U fuel : (forall follow, op_universe (kh_group_heads k) follow U) -> (rev_fuel k U <= fuel)%nat -> forall revs (ops : opmap),
  walking (kh_group_heads k) false U ops [] -> (forall r, r ∈ revs -> OpRevocation r ∈ U) -> exists ops',
  foldR (revocation_step fuel k) revs (ops, dom ops) = Ok (ops', dom ops') /\ walking (kh_group_heads k) false U ops' [] /\
  forall op, has_op ops' op <-> has_op ops op \/ walks k false (OpRevocation <$> revs) op.
Proof.
  intros HU Hf. induction revs as [|r revs IH]; intros ops Hw Hr; cbn [foldR].
  { exists ops. split_and!; [done|done|]. intros op. split; [by left|]. by intros [?|?%walked_nil]. }
  destruct (revocation_step_ok k U fuel ops r HU Hf Hw) as (ops1 & -> & Hw1 & H1); [apply Hr; left|]. cbn [bindR].
  destruct (IH ops1 Hw1) as (ops' & -> & Hw' & H'); [intros x Hx; apply Hr; by right|]. exists ops'. split_and!; [done|done|].
  intros op. rewrite H', H1, fmap_cons, (walked_cons k false (OpRevocation r) (OpRevocation <$> revs)). tauto.
Qed.

(** ** For all agents *)

Abbreviation agent_revs k := (map_to_list (agent_to_revocations (kh_revocations k))).
Definition revs_of (x : AgentId * gmap (VerifyingKey * Signature) (SignedRevocation T)) : list (SignedRevocation T) := (map_to_list x.2).*2.

(** Agents with revocations are told apart by their identifiers, and are neither
    groups nor documents of the keyhive. *)
Record revoked_apart k : Prop := {
  ra_ids : NoDup ((fun x => agent_identifier_of x.1) <$> agent_revs k);
  ra_sources x g : x ∈ agent_revs k -> g ∈ sources k -> agent_identifier_of x.1 <> group_id g;
}.

Lemma agents_fold k U fuel : (forall follow, op_universe (kh_group_heads k) follow U) -> (rev_fuel k U <= fuel)%nat -> forall l (all : AllMembershipOps T),
  NoDup ((fun x => agent_identifier_of x.1) <$> l) -> (forall x, x ∈ l -> am_ops all !! agent_identifier_of x.1 = None) ->
  (forall x r, x ∈ l -> r ∈ revs_of x -> OpRevocation r ∈ U) -> exists all', foldR (agent_step fuel k) l all = Ok all' /\
  (forall x, x ∈ l -> exists ops, am_ops all' !! agent_identifier_of x.1 = Some ops /\ collects k false (OpRevocation <$> revs_of x) ops) /\
  (forall id, id ∉ (fun x => agent_identifier_of x.1) <$> l -> am_ops all' !! id = am_ops all !! id) /\
  forall a s, s ∈ indexed all' a <-> s ∈ indexed all a \/ exists x, x ∈ l /\ a = agent_identifier_of x.1 /\ s = a /\ revs_of x <> [].
Proof.
  intros HU Hf. induction l as [|x l IH]; intros all Hnd Hno Hr; cbn [foldR].
  { exists all. split_and!; [done|by intros x ?%not_elem_of_nil|done|]. intros a s. split; [by left|]. by intros [?|(x & ?%not_elem_of_nil & _)]. }
  cbn [fmap list_fmap] in Hnd. apply NoDup_cons in Hnd as [Hx Hnd]. unfold agent_step at 1. rewrite (Hno x) by left. cbn [default].
  destruct (revocations_fold k U fuel HU Hf (revs_of x) ∅) as (ops & Hrun & Hw & Hops); [by apply walking_start; intros ? ?%not_elem_of_nil|intros r; apply Hr; left|].
  unfold revs_of at 1 in Hrun. rewrite Hrun. cbn [bindR fst]. set (all1 := mkAllMembershipOps _ _).
  assert (collects k false (OpRevocation <$> revs_of x) ops) as Hcol.
  { intros h op. split; [intros Ho; destruct (wk_ops _ _ _ _ _ Hw _ _ Ho) as [-> _]; split; [done|]; apply Hops in Ho as [Ho|?]; [unfold has_op in Ho; by rewrite lookup_empty in Ho|done]|].
    intros [-> Ho]. apply Hops. by right. }
  destruct (IH all1) as (all' & -> & Hin & Hout & Hidx); [done| |intros y r Hy; apply Hr; by right|].
  { intros y Hy. cbn. rewrite lookup_insert_ne; [apply Hno; by right|]. intros Heq. apply Hx. rewrite Heq. by apply (list_elem_of_fmap_2 (fun x => agent_identifier_of x.1)). }
  exists all'. split_and!; [done| | |].
  - intros y [->|Hy]%elem_of_cons; [|by apply Hin]. exists ops. split; [|done]. rewrite Hout by done. apply lookup_insert_eq.
  - intros id Hid. cbn [fmap list_fmap] in Hid. apply not_elem_of_cons in Hid as [Hne Hid]. rewrite Hout by done. cbn. by rewrite lookup_insert_ne.
  - intros a s. rewrite Hidx. assert (s ∈ indexed all1 a <-> s ∈ indexed all a \/ a = agent_identifier_of x.1 /\ s = a /\ revs_of x <> []) as ->.
    { assert (ops = ∅ <-> revs_of x = []) as Hempty.
      { split; [|intros Hnil; apply map_empty; intros h; apply eq_None_not_Some; intros [op [_ Ho]%Hcol]; rewrite Hnil in Ho; by apply walked_nil in Ho].
        intros ->. destruct (revs_of x) as [|r revs]; [done|]. exfalso. assert ((∅ : opmap) !! op_digest (OpRevocation r) = Some (OpRevocation r)) as Ho by (apply Hcol; split; [done|]; apply walked_root; left).
        by rewrite lookup_empty in Ho. }
      unfold all1. cbn [am_index]. case_decide as Hd; [|destruct (decide (a = agent_identifier_of x.1)) as [->|Hne]; [rewrite lookup_insert_eq; cbn [from_option]; unfold id; rewrite elem_of_union, elem_of_singleton; tauto|rewrite lookup_insert_ne by done; tauto]].
      split; [by left|]. intros [?|(_ & _ & Hne)]; [done|]. tauto. }
    split.
    + intros [[?|(-> & -> & Hne)]|(y & Hy & Hrest)]; [by left|right; exists x; split_and!; [left|done..]|right; exists y; split; [by right|done]].
    + intros [?|(y & [->|Hy]%elem_of_cons & -> & -> & Hne)]; [by left; left|left; by right|right; by exists y].
Qed.

(** What the index and the operations of a finished pass hold. *)
Record all_ops_spec k (all : AllMembershipOps T) : Prop := {
  ao_sources g : g ∈ sources k -> exists ops, am_ops all !! group_id g = Some ops /\ collects k true (source_heads g) ops;
  ao_agents x : x ∈ agent_revs k -> exists ops, am_ops all !! agent_identifier_of x.1 = Some ops /\ collects k false (OpRevocation <$> revs_of x) ops;
  ao_index a s : s ∈ indexed all a <-> (exists g, g ∈ sources k /\ s = group_id g /\ gives_access k g a) \/
    exists x, x ∈ agent_revs k /\ a = agent_identifier_of x.1 /\ s = a /\ revs_of x <> [];
}.
Lemma revs_of_root k x r : x ∈ agent_revs k -> r ∈ revs_of x -> OpRevocation r ∈ all_roots k.
Proof.
  intros Hx Hr. apply elem_of_app. right. apply list_elem_of_fmap. exists r. split; [done|]. apply list_elem_of_join. eexists. split; [exact Hr|].
  apply list_elem_of_fmap. by exists x.
Qed.
Lemma all_ops_ok k : exporting k -> revoked_apart k -> exists fuel0, forall fuel, (fuel0 <= fuel)%nat -> exists all,
  membership_ops_for_all_agents fuel k = Ok all /\ all_ops_spec k all.
Proof.
  intros Hk Ha. destruct (export_universe k Hk) as (U & HUin & HU). exists (length (all_roots k) + walk_cost (kh_group_heads k) true U ∅ + rev_fuel k U)%nat.
  intros fuel Hf. unfold membership_ops_for_all_agents.
  destruct (sources_fold k U fuel Hk HU HUin ltac:(lia) (sources k) (mkAllMembershipOps ∅ ∅)) as (all1 & Hrun & Hin & Hout & Hidx); [done|apply Hk|].
  unfold sources in Hrun. rewrite foldR_join in Hrun. destruct (foldR (source_step fuel k) (map_to_list (kh_groups k)).*2 _) as [all0| | |]; cbn [bindR] in Hrun |- *; [|done..].
  rewrite Hrun. cbn [bindR]. destruct (agents_fold k U fuel HU ltac:(lia) (agent_revs k) all1) as (all & -> & Hin' & Hout' & Hidx'); [apply Ha| | |].
  { intros x Hx. rewrite Hout; [apply lookup_empty|]. intros (g & Heq & Hg)%list_elem_of_fmap. by apply (ra_sources _ Ha x g Hx Hg). }
  { intros x r Hx Hr. apply HUin, reaches_head. by apply (revs_of_root k x). }
  exists all. split; [done|]. constructor; [|exact Hin'|].
  - intros g Hg. rewrite Hout'; [by apply Hin|]. intros (x & Heq & Hx)%list_elem_of_fmap. by apply (ra_sources _ Ha x g Hx Hg).
  - intros a s. rewrite Hidx', Hidx. cbn [am_index]. rewrite lookup_empty. cbn [from_option]. rewrite elem_of_empty. tauto.
Qed.

(** *** Following groups or not *)

Lemma walked_plain k (roots : list (MembershipOperation T)) : (forall d id, reaches roots (OpDelegation d) -> delegate (payload d) <> AgentGroup id) ->
  forall op, walks k true roots op <-> walks k false roots op.
Proof.
  intros Hno op. split; [|induction 1 as [x Hx|x y _ IH [Hy|Hy]%elem_of_app]; [by apply walked_root|apply (walked_edge _ _ _ x); [done|apply elem_of_app; by left]|by destruct x; apply not_elem_of_nil in Hy]].
  intros Hw. assert (walks k false roots op /\ reaches roots op) as [? _]; [|done]. induction Hw as [x Hx|x y _ [IH1 IH2] [Hy|Hy]%elem_of_app].
  - split; [by apply walked_root|by apply reaches_head].
  - split; [apply (walked_edge _ _ _ x); [done|apply elem_of_app; by left]|by apply (reaches_after _ x)].
  - exfalso. destruct x as [d|r]; cbn in Hy; [|by apply not_elem_of_nil in Hy]. destruct (delegate (payload d)) as [i|i|i|i] eqn:Hd; try by apply not_elem_of_nil in Hy. by apply (Hno d i).
Qed.

(** The queries agree on what an agent needs. *)
Record queries_agree k agent : Prop := {
  qa_apart : revoked_apart k;
  qa_agent x : x ∈ agent_revs k -> agent_identifier_of x.1 = agent_identifier agent -> x.1 = agent_id agent;
  qa_groups d id : reaches (OpRevocation <$> agent_revocations (agent_id agent) k) (OpDelegation d) -> delegate (payload d) <> AgentGroup id;
}.
Lemma exported_split k agent op : exported k agent op <->
  (exists g, g ∈ sources k /\ gives_access k g (agent_identifier agent) /\ walks k true (source_heads g) op) \/ walks k true (OpRevocation <$> agent_revocations (agent_id agent) k) op.
Proof.
  split.
  - induction 1 as [g op Hg Ha Hop|r Hr|op p _ [(g & Hg & Ha & IH)|IH] Hp|d id h _ [(g & Hg & Ha & IH)|IH] Hd Hh].
    + left. exists g. split_and!; [done|done|by apply walked_root].
    + right. apply walked_root, list_elem_of_fmap. by exists r.
    + left. exists g. split_and!; [done|done|]. apply (walked_edge _ _ _ op); [done|]. apply elem_of_app. by left.
    + right. apply (walked_edge _ _ _ op); [done|]. apply elem_of_app. by left.
    + left. exists g. split_and!; [done|done|]. apply (walked_edge _ _ _ (OpDelegation d)); [done|]. apply elem_of_app. right. cbn. rewrite Hd. apply list_elem_of_fmap. by exists h.
    + right. apply (walked_edge _ _ _ (OpDelegation d)); [done|]. apply elem_of_app. right. cbn. rewrite Hd. apply list_elem_of_fmap. by exists h.
  - assert (forall x y, exported k agent x -> y ∈ op_edges (kh_group_heads k) true x -> exported k agent y) as Hstep.
    { intros x y Hx [Hy|Hy]%elem_of_app; [by apply (exported_after k agent x)|]. destruct x as [d|r]; cbn in Hy; [|by apply not_elem_of_nil in Hy].
      destruct (delegate (payload d)) as [i|i|i|i] eqn:Hd; try by apply not_elem_of_nil in Hy. apply list_elem_of_fmap in Hy as (h & -> & Hh). by apply (exported_group k agent d i). }
    intros [(g & Hg & Ha & Hw)|Hw]; induction Hw as [x Hx|x y _ IH Hy]; [by apply (exported_head k agent g)|by apply (Hstep x)| |by apply (Hstep x)].
    apply list_elem_of_fmap in Hx as (r & -> & Hr). by apply exported_revocation.
Qed.

Lemma agent_revocations_of k agent r : queries_agree k agent ->
  r ∈ agent_revocations (agent_id agent) k <-> exists x, x ∈ agent_revs k /\ agent_identifier_of x.1 = agent_identifier agent /\ r ∈ revs_of x.
Proof.
  intros Hq. unfold agent_revocations, get_revocations_for_agent. split.
  - destruct (agent_to_revocations (kh_revocations k) !! agent_id agent) as [revs|] eqn:Hid; [|by intros ?%not_elem_of_nil]. intros Hr.
    exists (agent_id agent, revs). split_and!; [by apply elem_of_map_to_list|by destruct agent|exact Hr].
  - intros ([id revs] & Hx & Hid & Hr). pose proof (qa_agent _ _ Hq _ Hx Hid) as Heq. cbn in Heq. subst id. apply elem_of_map_to_list in Hx. by rewrite Hx.
Qed.

Lemma revocation_source k agent op : queries_agree k agent -> walks k false (OpRevocation <$> agent_revocations (agent_id agent) k) op ->
  exists x, x ∈ agent_revs k /\ agent_identifier_of x.1 = agent_identifier agent /\ walks k false (OpRevocation <$> revs_of x) op.
Proof.
  intros Hq. induction 1 as [y (r & -> & Hr)%list_elem_of_fmap|y z _ (x & Hx & Hid & IH) Hz]; [|exists x; split_and!; [done|done|by apply (walked_edge _ _ _ y)]].
  apply (agent_revocations_of k agent r Hq) in Hr as (x & Hx & Hid & Hr). exists x. split_and!; [done|done|]. apply walked_root, list_elem_of_fmap. by exists r.
Qed.
Lemma ops_for_agent_elem a (all : AllMembershipOps T) h op :
  (exists l, ops_for_agent a all = Some l /\ (h, op) ∈ l) <-> exists s ops, s ∈ indexed all a /\ am_ops all !! s = Some ops /\ ops !! h = Some op.
Proof.
  unfold ops_for_agent. split.
  - destruct (am_index all !! a) as [ids|] eqn:Hids; cbn; [|by intros (l & [=] & _)]. intros (l & [= <-] & (l' & Hin & (s & -> & Hs)%list_elem_of_fmap)%list_elem_of_join).
    destruct (am_ops all !! s) as [ops|] eqn:Hops; [|by apply not_elem_of_nil in Hin]. exists s, ops. apply elem_of_elements in Hs. by apply elem_of_map_to_list in Hin.
  - intros (s & ops & Hs & Hops & Ho). destruct (am_index all !! a) as [ids|] eqn:Hids; cbn in *; [|by apply not_elem_of_empty in Hs]. eexists. split; [done|].
    apply list_elem_of_join. exists (map_to_list ops). split; [by apply elem_of_map_to_list|]. apply list_elem_of_fmap. exists s. rewrite Hops. split; [done|by apply elem_of_elements].
Qed.

End All.
