(* ===== verification/KeyhiveSync.v ===== *)
(** * From one keyhive to another
    ([keyhive/keyhive_core/src/keyhive.rs])

    The membership operations a keyhive collects for an agent, ingested by the
    agent's keyhive. *)

From S2P Require Import Prelude TreeMath Crypto Keys SecretStore Tree PathCrypto Signed CaMap OpGraph AppSecret Cgka.
From S2P Require Import Individual Membership MemberSort MemberExplore MemberOrder GroupState Group GroupView GroupProps GroupChange Reach.
From S2P Require Import Active Document Keyhive KeyhiveStores KeyhiveSafe KeyhiveLive KeyhiveIngest KeyhiveProps MemberOps MemberOpsProps.

Section Ranks.
Context `{P : Primitives} `{E : Ed25519} {T : Type} `{Countable T}.
Context `{Ssd : !Serialize (Signed (StaticDelegation T)), Ssr : !Serialize (Signed (StaticRevocation T))}.
Context `{Spd : !Serialize (StaticDelegation T), Spr : !Serialize (StaticRevocation T)}.
Context `{Sop : !Serialize CgkaOperation, Ssop : !Serialize (Signed CgkaOperation)}.
Context `{Ssk : !Serialize ShareSecretKey, Spcs : !Serialize PcsKey}.
Context `{Sadd : !Serialize AddKeyOp, Srot : !Serialize RotateKeyOp, Skop : !Serialize KeyOp, Sev : !Serialize (StaticEvent T)}.

(** ** Causal orders from ranks *)

Section Sorting.
Context (k : Keyhive T) (rank : MembershipOperation T -> nat).
Abbreviation earlier before rest op x := (x ∈ before \/ x ∈ rest /\ (rank x < rank op)%nat).
Definition below (a b : MembershipOperation T) : Prop := (rank a <= rank b)%nat.
#[local] Instance below_dec a b : Decision (below a b).
Proof. unfold below. apply _. Defined.

Lemma causal_by_rank rest : forall before, StronglySorted below rest ->
  (forall op x, op ∈ rest -> x ∈ after_auth op -> received k x \/ earlier before rest op x) ->
  (forall d, OpDelegation d ∈ rest -> knows k (agent_identifier (delegate (payload d))) \/
    exists y, earlier before rest (OpDelegation d) (OpDelegation y) /\ dlg_subject_id y = agent_identifier (delegate (payload d))) ->
  causal_order k before rest.
Proof.
  induction rest as [|op rest IH]; intros before Hs Hdep Hdel; cbn [causal_order]; [done|]. apply StronglySorted_inv in Hs as [Hs Hmin].
  assert (forall x, earlier before (op :: rest) op x -> x ∈ before) as Hfirst.
  { intros x [?|[[->|Hx]%elem_of_cons Hlt]]; [done|lia|]. rewrite Forall_forall in Hmin. apply Hmin in Hx. unfold below in Hx. lia. }
  assert (forall o x, earlier before (op :: rest) o x -> earlier (op :: before) rest o x) as Hshift.
  { intros o x [?|[[->|Hx]%elem_of_cons Hlt]]; [left; by right|left; left|by right]. }
  split_and!.
  - intros x Hx. destruct (Hdep op x (list_elem_of_here _ _) Hx) as [?|?]; [by left|right; by apply Hfirst].
  - destruct op as [d|r]; [|done]. destruct (Hdel d (list_elem_of_here _ _)) as [?|(y & Hy & Hsub)]; [by left|right]. exists y. split; [by apply Hfirst|done].
  - apply IH; [done| |].
    + intros o x Ho Hx. destruct (Hdep o x) as [?|?]; [by right|done|by left|right; by apply Hshift].
    + intros d Hd. destruct (Hdel d) as [?|(y & Hy & Hsub)]; [by right|by left|right]. exists y. split; [by apply Hshift|done].
Qed.

Lemma causal_sorted l : (forall op x, op ∈ l -> x ∈ after_auth op -> received k x \/ x ∈ l /\ (rank x < rank op)%nat) ->
  (forall d, OpDelegation d ∈ l -> knows k (agent_identifier (delegate (payload d))) \/
    exists y, OpDelegation y ∈ l /\ (rank (OpDelegation y) < rank (OpDelegation d))%nat /\ dlg_subject_id y = agent_identifier (delegate (payload d))) ->
  exists l', l' ≡ₚ l /\ causal_order k [] l'.
Proof.
  intros Hdep Hdel. exists (merge_sort below l). pose proof (merge_sort_Permutation below l) as Hp. split; [done|]. apply causal_by_rank.
  - apply StronglySorted_merge_sort; [intros a b c; unfold below; lia|intros a b; unfold below; lia].
  - intros op x Hop Hx. rewrite Hp in Hop. destruct (Hdep op x Hop Hx) as [?|[Hin Hlt]]; [by left|right; right]. by rewrite Hp.
  - intros d Hd. rewrite Hp in Hd. destruct (Hdel d Hd) as [?|(y & Hy & Hlt & Hsub)]; [by left|right]. exists y. split; [right; by rewrite Hp|done].
Qed.
End Sorting.

(** ** Sending and receiving *)

(** A delegation that depends on nothing, to an agent the keyhive knows. *)
Definition founding (k : Keyhive T) (op : MembershipOperation T) : Prop :=
  after_auth op = [] /\ match op with OpDelegation d => knows k (agent_identifier (delegate (payload d))) | OpRevocation _ => False end.
#[local] Instance founding_dec k op : Decision (founding k op).
Proof.
  unfold founding, knows. apply and_dec; [destruct (after_auth op); [by left|by right]|destruct op; apply _].
Defined.
Definition founding_rank (k : Keyhive T) (op : MembershipOperation T) : nat := if decide (founding k op) then 0%nat else Datatypes.S (op_size op).

(** The receiver knows whom the operations delegate to, or is sent what founds
    the group in question. *)
Definition introduced (b : Keyhive T) (sent : MembershipOperation T -> Prop) : Prop :=
  forall d, sent (OpDelegation d) -> knows b (agent_identifier (delegate (payload d))) \/
    exists y, sent (OpDelegation y) /\ founding b (OpDelegation y) /\ dlg_subject_id y = agent_identifier (delegate (payload d)).

Lemma sent_in_order b (l : list (MembershipOperation T)) : (forall op x, op ∈ l -> x ∈ after_auth op -> x ∈ l) -> introduced b (fun op => op ∈ l) ->
  exists l', l' ≡ₚ l /\ causal_order b [] l'.
Proof.
  intros Hc Hi. apply (causal_sorted b (founding_rank b)).
  - intros op x Hop Hx. right. split; [by apply (Hc op)|]. unfold founding_rank. rewrite (decide_False (P := founding b op)).
    + pose proof (after_auth_smaller op x Hx). case_decide; lia.
    + intros [Hnil _]. rewrite Hnil in Hx. by apply not_elem_of_nil in Hx.
  - intros d Hd. destruct (decide (is_Some (get_agent (agent_identifier (delegate (payload d))) b))) as [?|Hn]; [by left|right]. destruct (Hi d Hd) as [?|(y & Hy & Hf & Hsub)]; [done|].
    exists y. split_and!; [done| |done]. unfold founding_rank. rewrite decide_True by done. rewrite decide_False; [lia|]. by intros [_ ?].
Qed.

End Ranks.
