(* ===== verification/MemberOpsWitness.v ===== *)
(** * What a keyhive over the toy primitives sends

    Ann's keyhive, which has been told of the club, sends the public agent the
    revocation of its delegation and what that depends on. *)

From Stdlib Require Import Strings.Byte.
From S2P Require Import Prelude TreeMath Crypto Keys SecretStore Tree PathCrypto Signed CaMap OpGraph AppSecret Cgka ToySerialize.
From S2P Require Import Individual IndividualWitness Membership MemberSort MemberExplore MemberOrder GroupState Group GroupView GroupProps GroupChange Reach GroupWitness.
From S2P Require Import Active ActiveProps KeyhiveWitness Document Keyhive KeyhiveStores KeyhiveSafe KeyhiveLive KeyhiveIngest KeyhiveProps.
From S2P Require Import MemberOps MemberOpsProps MemberOpsAll KeyhiveSync.

Import ToyPrimitives ToySerialize.

Definition told_k : Keyhive N := told.2.
Definition told_roots : list (MembershipOperation N) := all_roots told_k.
Lemma told_roots_ok : told_roots ⊆ club_ops.
Proof.
  assert (told_roots = [OpDelegation ann_public; OpRevocation no_public; OpRevocation no_public]) as -> by (vm_compute; reflexivity).
  intros x Hx. unfold club_ops. in_cases Hx; listed.
Qed.
Lemma told_history op : reaches told_roots op -> op ∈ club_ops.
Proof.
  apply reaches_closed; [exact told_roots_ok|]. intros x p. apply (hi_closed _ club_history).
Qed.

Lemma club_delegations d : OpDelegation d ∈ club_ops -> d = club_ann \/ d = ann_public.
Proof. unfold club_ops. intros Hd. in_cases Hd; injection Hd as ->; [by left|by right]. Qed.

(** The only source is the club. *)
Definition told_club : @Group N := default (club_of [] []) (head (sources told_k)).
Lemma told_sources g : g ∈ sources told_k -> g = told_club.
Proof.
  assert (length (sources told_k) = 1%nat) as Hlen by (vm_compute; reflexivity). unfold told_club.
  destruct (sources told_k) as [|x [|y l]]; try discriminate Hlen. intros Hg. by apply list_elem_of_singleton in Hg.
Qed.
Lemma told_groups_only id g : kh_groups told_k !! id = Some g -> g = told_club /\ id = club.
Proof.
  intros Hg. split; [by eapply told_sources, group_in_sources|]. assert ((map_to_list (kh_groups told_k)).*1 = [club]) as Hk by (vm_compute; reflexivity).
  apply elem_of_map_to_list in Hg. apply (list_elem_of_fmap_2 fst) in Hg. rewrite Hk in Hg. by apply list_elem_of_singleton in Hg.
Qed.
Definition keyed_bool {V} `{Serialize V} (m : CaMap V) : bool := forallb (fun x => bool_decide (x.1 = Digest_hash x.2)) (map_to_list m).
Lemma keyed_bool_ok {V} `{Serialize V} (m : CaMap V) : keyed_bool m = true -> ca_wf m.
Proof. unfold keyed_bool. rewrite forallb_forall. intros Hall h v Hv. apply elem_of_map_to_list, list_elem_of_In, Hall, bool_decide_eq_true in Hv. done. Qed.

Lemma told_exporting : exporting told_k.
Proof.
  constructor.
  - intros g ->%told_sources. assert (is_ok (transitive_members (kh_world told_k) told_club) = true) as Hok by (vm_compute; reflexivity).
    destruct (transitive_members (kh_world told_k) told_club) as [caps| | |]; [by exists caps|discriminate Hok..].
  - assert (group_id <$> sources told_k = [club]) as -> by (vm_compute; reflexivity). apply NoDup_singleton.
  - intros id g [-> ->]%told_groups_only. vm_compute. reflexivity.
  - intros g ->%told_sources. split; apply keyed_bool_ok; vm_compute; reflexivity.
  - intros a b Ha%told_history Hb%told_history. unfold club_ops in *. in_cases Ha; in_cases Hb; try (intros _; exact eq_refl); intros Heq; exfalso; vm_compute in Heq; discriminate Heq.
Qed.

Definition public_agent : Agent := AgentIndividual public_id.
Lemma told_agrees : queries_agree told_k public_agent.
Proof.
  assert ((map_to_list (agent_to_revocations (kh_revocations told_k))).*1 = [IndividualId public_id]) as Hk by (vm_compute; reflexivity).
  assert (forall x, x ∈ map_to_list (agent_to_revocations (kh_revocations told_k)) -> x.1 = IndividualId public_id) as Hx.
  { intros x Hx. apply (list_elem_of_fmap_2 fst) in Hx. rewrite Hk in Hx. by apply list_elem_of_singleton in Hx. }
  constructor; [constructor| |].
  - assert ((fun x => agent_identifier_of x.1) <$> map_to_list (agent_to_revocations (kh_revocations told_k)) = [public_id]) as -> by (vm_compute; reflexivity). apply NoDup_singleton.
  - intros x g Hin ->%told_sources. rewrite (Hx x Hin). assert (group_id told_club = club) as -> by (vm_compute; reflexivity). discriminate.
  - intros x Hin _. apply (Hx x Hin).
  - intros d id Hd. assert (OpDelegation d ∈ club_ops) as Hin.
    { apply told_history. revert Hd. apply reaches_sub. intros y (r & -> & Hr)%list_elem_of_fmap. apply reaches_head. by eapply revocation_root. }
    clear Hk Hx Hd. apply club_delegations in Hin as [-> | ->]; discriminate.
Qed.

Lemma exported_revocation_public : exported told_k public_agent (OpRevocation no_public).
Proof.
  apply exported_revocation. assert (agent_revocations (agent_id public_agent) told_k = [no_public]) as -> by (vm_compute; reflexivity). left.
Qed.

Lemma membership_ops_for_agent_correct_witness : exists ops fuel0,
  (forall fuel, (fuel0 <= fuel)%nat -> membership_ops_for_agent fuel public_agent told_k = Ok ops) /\ ops !! op_digest (OpRevocation no_public) = Some (OpRevocation no_public).
Proof.
  destruct (membership_ops_for_agent_correct told_k public_agent told_exporting) as (ops & fuel0 & Hrun & Hops). exists ops, fuel0. split; [exact Hrun|].
  apply Hops. split; [exact eq_refl|exact exported_revocation_public].
Defined.



(** ** Where the queries differ

    Bob was a member of the club through the group [ring1], and was revoked.  The
    query for Bob goes from his revocation to the delegation to the group and on
    to the heads of the group; the pass over all agents stops at the delegation. *)
Definition ring_root : Dlg := grant ring1 carol Admin None [] x61.
Definition club_ring : Dlg := grant_to club (AgentGroup ring1) Admin x62.
Definition ring_bob : Dlg := grant carol bob Read (Some club_ring) [] x63.
Definition no_ring_bob : Rev := ungrant carol ring_bob (Some club_ring) x64.
Definition ring_state : GroupState N := mkGroupState ring1 (dlg_from_iter [ring_root]) (dlg_from_iter [ring_root]) rev_store_new rev_store_new.
Definition ring_keyhive : Keyhive N :=
  mkKeyhive ann_id ann_dummy ∅ {[ring1 := mkGroup (IdOrGroup ring1) {[carol := [ring_root]]} ∅ ring_state []]} ∅
    (dlg_from_iter [ring_root; club_ring; ring_bob]) (rev_from_iter [no_ring_bob]) [] [].
Definition ring_digest : MemDigest N := op_digest (OpDelegation ring_root).

Lemma all_agents_stop_at_groups :
  match membership_ops_for_agent 20 (AgentIndividual bob) ring_keyhive, membership_ops_for_all_agents 20 ring_keyhive with
  | Ok ops, Ok all => is_some (ops !! ring_digest) = true /\
      match ops_for_agent bob all with Some l => bool_decide (ring_digest ∈ l.*1) = false | None => False end
  | _, _ => False
  end.
Proof. vm_compute. split; reflexivity. Qed.
