(* ===== verification/KeyhiveFacade.v ===== *)
(** * What the active agent does with its keyhive
    ([keyhive/keyhive_core/src/keyhive.rs], [principal/peer.rs],
    [principal/membered.rs])

    Creating groups and documents, adding and revoking members with the leaves of
    the documents that contain the group, and content.  A call of a document's
    method holds the lock of the document: a walk over agents that comes to the
    document itself does not return. *)

From S2P Require Import Prelude TreeMath Crypto Keys SecretStore Tree PathCrypto Signed CaMap OpGraph AppSecret Cgka.
From S2P Require Import Individual Membership MemberSort GroupState Group Reach Ciphertext Active Document Keyhive MemberOps.

Local Open Scope monad_scope.

Section Locks.
Context {T : Type}.
Abbreviation World := (gmap Identifier (gmap Identifier (list (SignedDelegation T)))).

(** Whether the walk from the agents on the stack locks the document [target]. *)
Fixpoint walk_locks (target : Identifier) (world : World) (fuel : nat) (stack : list Agent) (seen : gset Identifier) : option bool :=
  match stack with
  | [] => Some false
  | node :: rest =>
      match fuel with
      | O => None
      | Datatypes.S fuel' =>
          if bool_decide (agent_identifier node ∈ seen) then walk_locks target world fuel' rest seen
          else if decide (node = AgentDocument target) then Some true
          else
            let seen := {[agent_identifier node]} ∪ seen in
            match membered world node with
            | None => walk_locks target world fuel' rest seen
            | Some ms => walk_locks target world fuel' (reverse (all_delegates ms) ++ rest) seen
            end
      end
  end.
Definition agent_locks (target : Identifier) (world : World) (a : Agent) : bool :=
  bool_decide (walk_locks target world (Datatypes.S (world_count world)) [a] ∅ = Some true).
Definition agents_lock (target : Identifier) (world : World) (l : list Agent) : bool := existsb (agent_locks target world) l.
End Locks.

Section Facade.
Context `{P : Primitives} `{E : Ed25519} {T : Type} `{Countable T}.
Context `{Ssd : !Serialize (Signed (StaticDelegation T)), Ssr : !Serialize (Signed (StaticRevocation T))}.
Context `{Sd : !Serialize (Delegation T), Sr : !Serialize (Revocation T)}.
Context `{Sop : !Serialize CgkaOperation, Ssop : !Serialize (Signed CgkaOperation)}.
Context `{Ssk : !Serialize ShareSecretKey, Spcs : !Serialize PcsKey}.
Context `{Sadd : !Serialize AddKeyOp, Srot : !Serialize RotateKeyOp, Skop : !Serialize KeyOp}.
Context `{St : !Serialize T, Slt : !Serialize (list T)}.
Abbreviation Keyhive := (Keyhive T).

(** ** Looking up *)

(** [Peer]: an agent other than the active one, by the pointer to it.  Groups
    and documents work on the stores of the keyhive. *)
Inductive Peer :=
  | PeerIndividual (c : IndividualCell) (id : Identifier)
  | PeerGroup (g : @Group T)
  | PeerDocument (d : Document T).
Definition peer_id (p : Peer) : Identifier :=
  match p with PeerIndividual _ id => id | PeerGroup g => group_id g | PeerDocument d => doc_id d end.
Definition agent_of_peer (p : Peer) : Agent :=
  match p with PeerIndividual _ id => AgentIndividual id | PeerGroup g => AgentGroup (group_id g) | PeerDocument d => AgentDocument (doc_id d) end.

Definition get_peer (id : Identifier) (k : Keyhive) : option Peer :=
  match kh_docs k !! id with
  | Some d => Some (PeerDocument d)
  | None =>
      match kh_groups k !! id with
      | Some g => Some (PeerGroup g)
      | None => (fun c => PeerIndividual c id) <$> kh_individuals k !! id
      end
  end.

Definition register_peer (peer : Peer) (k : Keyhive) : bool * Keyhive :=
  match get_peer (peer_id peer) k with
  | Some _ => (false, k)
  | None =>
      (true, match peer with
             | PeerIndividual c id => set_individuals (<[id := c]> (kh_individuals k)) k
             | PeerGroup g => set_groups (<[group_id g := g]> (kh_groups k)) k
             | PeerDocument d => set_docs (<[doc_id d := d]> (kh_docs k)) k
             end)
  end.

Definition register_group (root_delegation : SignedDelegation T) : M Keyhive Empty_set bool :=
  k <- get ;;
  if bool_decide (is_Some (kh_groups k !! dlg_subject_id root_delegation)) then ret false
  else
    g <- liftR (Group_new (issuer root_delegation) root_delegation (kh_delegations k) (kh_revocations k) []) ;;
    modify (take_stores g) ;;
    modify (fun k => set_groups (<[group_id g := g]> (kh_groups k)) k) ;;
    ret true.

Definition get_membership_operation (digest : MemDigest T) (k : Keyhive) : option (MembershipOperation T) :=
  match kh_delegations k !! coerce digest with
  | Some d => Some (OpDelegation d)
  | None => OpRevocation <$> rs_revocations (kh_revocations k) !! coerce digest
  end.

(** ** Contact cards and prekeys *)

(** The result is the individual; the prekey operation that the listener is then
    told is [card] itself. *)
Definition receive_contact_card (card : KeyOp) : M Keyhive ReceivePrekeyOpError Individual := fun k =>
  match kh_individuals k !! ContactCard_id card with
  | Some c =>
      match receive_prekey_op card (cell_value k c) with
      | Ok i =>
          (Ok i, match c with
                 | ActiveCell => set_active (set_individual i (kh_active k)) k
                 | OwnCell _ => set_individuals (<[ContactCard_id card := OwnCell i]> (kh_individuals k)) k
                 end)
      | Err e => (Err e, k)
      | Panic => (Panic, k)
      | Diverge => (Diverge, k)
      end
  | None => let i := individual_of_card card in (Ok i, (register_individual i k).2)
  end.

(** A call on the active agent, which draws from the generator. *)
Definition on_active {Er A} (m : M (Active * Rng) Er A) : M (Keyhive * Rng) Er A :=
  zoom (fun s => (kh_active s.1, s.2)) (fun a s => (set_active a.1 s.1, a.2)) m.
Definition kh_contact_card (fuel : nat) : M (Keyhive * Rng) SigningError KeyOp :=
  op <- on_active (generate_private_prekey fuel) ;; ret (KeyRotate op).
Definition get_existing_contact_card (k : Keyhive) : res unit KeyOp := contact_card (ac_individual (kh_active k)).
Definition kh_rotate_prekey (prekey : ShareKey) : M (Keyhive * Rng) SigningError (Signed RotateKeyOp) := on_active (rotate_prekey prekey).
Definition kh_expand_prekeys : M (Keyhive * Rng) SigningError (Signed AddKeyOp) := on_active expand_prekeys.

(** ** Creating groups and documents *)

Definition active_agent (k : Keyhive) : Agent := AgentActive (active_id (kh_active k)).

(** [sk] is the key that the ephemeral signer of the group draws. *)
Definition generate_group (sk : SigningKey) (coparents : list Peer) : M Keyhive SigningError Identifier := fun k =>
  let '(r, ds) := Group_generate sk (active_agent k :: (agent_of_peer <$> coparents)) (kh_revocations k) [] (kh_delegations k) in
  let k := set_stores ds (kh_revocations k) k in
  match r with
  | Ok g => (Ok (group_id g), set_groups (<[group_id g := g]> (kh_groups k)) (take_stores g k))
  | Err e => (Err e, k)
  | Panic => (Panic, k)
  | Diverge => (Diverge, k)
  end.

Definition register_unknown (peers : list Peer) (k : Keyhive) : Keyhive :=
  foldl (fun k peer => match get_agent (peer_id peer) k with Some _ => k | None => (register_peer peer k).2 end) k peers.

(** The heads of the new document, and their lineages, go into the shared store. *)
Definition insert_lineages (heads : list (SignedDelegation T)) (ds : CaMap (SignedDelegation T)) : CaMap (SignedDelegation T) :=
  foldl (fun ds head => foldl (fun ds dep => dlg_insert dep ds) (dlg_insert head ds) (proof_lineage (payload head))) ds heads.

(** [pick] is the prekey each individual picks for a document. *)
Definition generate_doc (sk : SigningKey) (coparents : list Peer) (initial_content_heads : list T) (pick : Identifier -> Identifier -> ShareKey) :
    M (Keyhive * Rng) GenerateDocError Identifier := fun s =>
  let k := register_unknown coparents s.1 in
  let '(r, (ds, rng)) := doc_generate sk (active_agent k :: (agent_of_peer <$> coparents)) initial_content_heads (kh_revocations k) []
                           (ac_signer (kh_active k)) (kh_world k) pick (kh_delegations k, s.2) in
  let k := set_stores ds (kh_revocations k) k in
  match r with
  | Ok (doc, ops) =>
      let k := foldl (fun k op => tell_cgka op k) k ops in
      let k := set_stores (insert_lineages (dlg_values (delegation_heads (g_state (doc_group doc)))) (kh_delegations k)) (kh_revocations k) k in
      (Ok (doc_id doc), (set_docs (<[doc_id doc := doc]> (kh_docs k)) k, rng))
  | Err e => (Err e, (k, rng))
  | Panic => (Panic, (k, rng))
  | Diverge => (Diverge, (k, rng))
  end.

(** ** Adding members *)

(** [Document::add_member] on a locked document. *)
Definition locked_add_member (member_to_add : Agent) (access : Access) (signer : AsyncSigner) (other_relevant_docs : list (Identifier * list T))
    (world : gmap Identifier (gmap Identifier (list (SignedDelegation T)))) (pick : Identifier -> Identifier -> ShareKey) :
    M (Document T) AddMemberError (@AddMemberUpdate T) := fun d =>
  if bool_decide (doc_id d ∈ other_relevant_docs.*1) then (Diverge, d)
  else
    let content := <[doc_id d := elements (content_state d)]> (content_of other_relevant_docs) in
    match on_group (add_member_with_manual_content member_to_add access signer content) d with
    | (Ok _, d') =>
        if is_reader access && agent_locks (doc_id d) world member_to_add then (Diverge, d')
        else doc_add_member member_to_add access signer other_relevant_docs world pick d
    | _ => doc_add_member member_to_add access signer other_relevant_docs world pick d
    end.

Definition doc_contents (k : Keyhive) (docs : list Identifier) : list (Identifier * list T) :=
  omap (fun id => d ← kh_docs k !! id; Some (id, elements (content_heads d))) docs.

(** A round of the loop over the documents: the leaves of the new member in a
    document that contains the group. *)
Definition propagate_add (group_id : Identifier) (delegate : Agent) (signer : AsyncSigner) (pick : Identifier -> Identifier -> ShareKey)
    (ops : list SignedOp) (id : Identifier) : M Keyhive AddMemberError (list SignedOp) :=
  k <- get ;;
  match kh_docs k !! id with
  | None => ret ops
  | Some d =>
      transitive <- liftR (no_error (transitive_members (kh_world k) (doc_group d))) ;;
      if bool_decide (is_Some (transitive !! group_id)) then
        prekeys <- loop_result (agent_pick_prekeys (pick (doc_id d)) (kh_world k) delegate) ;;
        more <- at_doc id d (map_err DocAddCgkaError (add_cgka_members_from_prekeys prekeys signer)) ;;
        ret (ops ++ more)
      else ret ops
  end.

(** The resource is one of the keyhive. *)
Definition kh_add_member (to_add : Agent) (resource : MemberedId) (access : Access) (other_relevant_docs : list Identifier)
    (pick : Identifier -> Identifier -> ShareKey) : M Keyhive AddMemberError (@AddMemberUpdate T) :=
  k <- get ;;
  let signer := ac_signer (kh_active k) in
  let others := doc_contents k other_relevant_docs in
  match resource with
  | MemberedGroup id =>
      g <- expect (kh_groups k !! id) ;;
      update <- at_group id g (map_err DocAddMemberError (add_member to_add access signer others)) ;;
      if is_reader access then
        k <- get ;;
        ops <- foldM (propagate_add id (delegate (payload (am_delegation update))) signer pick) (map_to_list (kh_docs k)).*1 (am_cgka_ops update) ;;
        ret (mkAddMemberUpdate ops (am_delegation update))
      else ret update
  | MemberedDocument id =>
      d <- expect (kh_docs k !! id) ;;
      at_doc id d (locked_add_member to_add access signer others (kh_world k) pick)
  end.

(** ** Revoking members *)

Definition docs_step (agent : Agent) (k : Keyhive) (caps : gmap Identifier Access) (d : Document T) : res Empty_set (gmap Identifier Access) :=
  let* transitive := transitive_members (kh_world k) (doc_group d) in
  match transitive !! agent_identifier agent with
  | Some (_, cap) => Ok (<[doc_id d := cap]> caps)
  | None => Ok caps
  end.
Definition docs_reachable_by_agent (agent : Agent) (k : Keyhive) : res Empty_set (gmap Identifier Access) :=
  foldR (docs_step agent k) (map_to_list (kh_docs k)).*2 ∅.
Definition reachable_docs (k : Keyhive) : res Empty_set (gmap Identifier Access) := docs_reachable_by_agent (active_agent k) k.

Definition reachable_members (membered : MemberedId) (k : Keyhive) : option (res Empty_set (gmap Identifier (Agent * Access))) :=
  match membered with
  | MemberedGroup id => transitive_members (kh_world k) <$> kh_groups k !! id
  | MemberedDocument id => (fun d => transitive_members (kh_world k) (doc_group d)) <$> kh_docs k !! id
  end.

(** [Document::revoke_member] on a locked document. *)
Definition locked_revoke_member (to_revoke : Identifier) (retain_all_other_members : bool) (signer : AsyncSigner) (content : ContentHeads T)
    (world : gmap Identifier (gmap Identifier (list (SignedDelegation T)))) : M (Document T) RevokeMemberError (@RevokeMemberUpdate T) := fun d =>
  if agents_lock (doc_id d) world ((fun x => delegate (payload x)) <$> default [] (members (doc_group d) !! to_revoke)) then (Diverge, d)
  else
    match on_group (revoke_member to_revoke retain_all_other_members signer content) d with
    | (Ok _, d') =>
        if agents_lock (doc_id d) world ((fun x => delegate (payload x)) <$> omap head (map_to_list (members (doc_group d'))).*2) then (Diverge, d')
        else doc_revoke_member to_revoke retain_all_other_members signer content world d
    | _ => doc_revoke_member to_revoke retain_all_other_members signer content world d
    end.

(** An error of a removal is dropped. *)
Definition try_remove (still_reachable : gset Identifier) (signer : AsyncSigner) (ops : list SignedOp) (id : Identifier) :
    M (Document T) RevokeMemberError (list SignedOp) := fun d =>
  if bool_decide (id ∈ still_reachable) then (Ok ops, d)
  else
    match remove_cgka_member id signer d with
    | (Ok (Some op), d') => (Ok (ops ++ [op]), d')
    | (Ok None, d') | (Err _, d') => (Ok ops, d')
    | (Panic, d') => (Panic, d')
    | (Diverge, d') => (Diverge, d')
    end.

Definition individuals_of (caps : gmap Identifier (Agent * Access)) : gset Identifier :=
  list_to_set (omap (fun x => match x.2.1 with AgentIndividual i | AgentActive i => Some i | _ => None end) (map_to_list caps)).

Definition propagate_removal (group_id : Identifier) (revoked : gset Identifier) (signer : AsyncSigner) (ops : list SignedOp) (id : Identifier) :
    M Keyhive RevokeMemberError (list SignedOp) :=
  k <- get ;;
  match kh_docs k !! id with
  | None => ret ops
  | Some d =>
      transitive <- liftR (no_error (transitive_members (kh_world k) (doc_group d))) ;;
      if bool_decide (is_Some (transitive !! group_id)) then
        at_doc id d (foldM (try_remove (individuals_of transitive) signer) (elements revoked) ops)
      else ret ops
  end.

Definition kh_revoke_member (to_revoke : Identifier) (retain_all_other_members : bool) (resource : MemberedId) :
    M Keyhive RevokeMemberError (@RevokeMemberUpdate T) :=
  k <- get ;;
  docs <- liftR (no_error (reachable_docs k)) ;;
  let relevant_docs := content_of (doc_contents k (elements (dom docs))) in
  let signer := ac_signer (kh_active k) in
  match resource with
  | MemberedGroup id =>
      g <- expect (kh_groups k !! id) ;;
      revoked <- loop_result (ids_of_delegations (kh_world k) (default [] (members g !! to_revoke))) ;;
      update <- at_group id g (revoke_member to_revoke retain_all_other_members signer relevant_docs) ;;
      if decide (revoked = ∅) then ret update
      else
        k <- get ;;
        ops <- foldM (propagate_removal id revoked signer) (map_to_list (kh_docs k)).*1 (rm_cgka_ops update) ;;
        ret (mkRevokeMemberUpdate ops (rm_revocations update) (rm_redelegations update))
  | MemberedDocument id =>
      d <- expect (kh_docs k !! id) ;;
      at_doc id d (locked_revoke_member to_revoke retain_all_other_members signer relevant_docs (kh_world k))
  end.

(** ** Content *)

Definition at_doc_rng {Er A} (id : Identifier) (m : M (Document T * Rng) Er A) : M (Keyhive * Rng) Er A := fun s =>
  match kh_docs s.1 !! id with
  | Some d => let '(r, (d', rng)) := m (d, s.2) in (r, (set_docs (<[id := d']> (kh_docs s.1)) s.1, rng))
  | None => (Panic, s)
  end.
Definition kh_try_encrypt_content (id : Identifier) (content_ref : T) (pred_refs : list T) (content : bytes) :
    M (Keyhive * Rng) EncryptError (EncryptedContent T * option SignedOp) :=
  s <- get ;;
  result <- at_doc_rng id (doc_try_encrypt_content content_ref content pred_refs (ac_signer (kh_active s.1))) ;;
  match result.2 with Some op => modify (fun s => (tell_cgka op s.1, s.2)) | None => ret tt end ;;
  ret result.
Definition kh_try_decrypt_content (id : Identifier) (encrypted : EncryptedContent T) : M Keyhive DecryptError bytes := fun k =>
  match kh_docs k !! id with
  | Some d => let '(r, d') := doc_try_decrypt_content encrypted d in (r, set_docs (<[id := d']> (kh_docs k)) k)
  | None => (Panic, k)
  end.
(** The store of ciphertexts is beside the keyhive. *)
Definition kh_try_causal_decrypt_content {A S Ge Me : Type} `{D : !Deserialize (Envelope T bytes), D' : !Deserialize (Envelope T A), Cs : !CiphertextStore T S Ge Me}
    (fuel : nat) (id : Identifier) (encrypted : EncryptedContent T) : M (Keyhive * S) (DocCausalDecryptionError T A Ge Me) (@CausalDecryptionState T A _ _) := fun s =>
  match kh_docs s.1 !! id with
  | Some d => let '(r, (d', store)) := try_causal_decrypt_content fuel encrypted (d, s.2) in (r, (set_docs (<[id := d']> (kh_docs s.1)) s.1, store))
  | None => (Panic, s)
  end.
Definition force_pcs_update (id : Identifier) : M (Keyhive * Rng) EncryptError SignedOp :=
  s <- get ;; at_doc_rng id (pcs_update (ac_signer (kh_active s.1))).
End Facade.
