(* ===== verification/KeyhiveMembers.v ===== *)
(** * Members of groups that are in documents

    When a member is added to a group or revoked from it, the leaves of every
    document that contains the group follow. *)

From S2P Require Import Prelude TreeMath Crypto Keys SecretStore Tree PathCrypto Signed CaMap OpGraph AppSecret Cgka.
From S2P Require Import Individual Membership MemberSort GroupState Group GroupChange Reach ReachProps ReachMembers Ciphertext Active Document DocMembers.
From S2P Require Import Keyhive MemberOps KeyhiveFacade.

Local Open Scope monad_scope.

Section Propagation.
Context `{P : Primitives} `{E : Ed25519} {T : Type} `{Countable T}.
Context `{Ssd : !Serialize (Signed (StaticDelegation T)), Ssr : !Serialize (Signed (StaticRevocation T))}.
Context `{Sd : !Serialize (Delegation T), Sr : !Serialize (Revocation T)}.
Context `{Sop : !Serialize CgkaOperation, Ssop : !Serialize (Signed CgkaOperation)}.
Context `{Ssk : !Serialize ShareSecretKey, Spcs : !Serialize PcsKey}.
Abbreviation Keyhive := (Keyhive T).
Abbreviation World := (gmap Identifier (gmap Identifier (list (SignedDelegation T)))).

(** ** A loop over the documents *)

Lemma take_with_stores (k : Keyhive) (g : @Group T) : take_stores (with_stores k g) k = k.
Proof. by destruct k. Qed.

Lemma kh_world_docs (k : Keyhive) docs :
  (forall i, (fun d => members (doc_group d)) <$> docs !! i = (fun d => members (doc_group d)) <$> kh_docs k !! i) -> kh_world (set_docs docs k) = kh_world k.
Proof.
  intros Hd. unfold kh_world. cbn [kh_groups kh_docs set_docs]. f_equal. apply map_eq. intros i. by rewrite !lookup_fmap.
Qed.

Section Loop.
Context (k1 : Keyhive) (changed : Document T -> Document T -> Prop).
Hypothesis changed_members : forall d d', changed d d' -> members (doc_group d') = members (doc_group d).

(** The documents of [todo] are as they were, the others changed. *)
Definition updating (todo : list Identifier) (docs : gmap Identifier (Document T)) : Prop :=
  forall i, match kh_docs k1 !! i, docs !! i with
            | Some d, Some d' => if decide (i ∈ todo) then d' = d else changed d d'
            | None, None => True
            | _, _ => False
            end.

Lemma updating_world todo docs : updating todo docs -> kh_world (set_docs docs k1) = kh_world k1.
Proof.
  intros Hu. apply kh_world_docs. intros i. specialize (Hu i). destruct (kh_docs k1 !! i), (docs !! i); try done. cbn. f_equal.
  destruct (decide _); [by subst|by apply changed_members].
Qed.

Lemma updating_start : updating (map_to_list (kh_docs k1)).*1 (kh_docs k1).
Proof.
  intros i. destruct (kh_docs k1 !! i) as [d|] eqn:Hd; [|done]. rewrite decide_True; [done|].
  apply list_elem_of_fmap. exists (i, d). split; [done|]. by apply elem_of_map_to_list.
Qed.

Lemma updating_step i todo docs d d' : updating (i :: todo) docs -> i ∉ todo -> kh_docs k1 !! i = Some d -> changed d d' ->
  updating todo (<[i := d']> docs).
Proof.
  intros Hu Hi Hd Hc j. specialize (Hu j). destruct (decide (i = j)) as [<-|Hne].
  - by rewrite lookup_insert_eq, Hd, decide_False.
  - rewrite lookup_insert_ne by done. destruct (kh_docs k1 !! j), (docs !! j); try done.
    destruct (decide (j ∈ i :: todo)) as [Hj|Hj], (decide (j ∈ todo)) as [Hj'|Hj']; set_solver.
Qed.

Lemma fold_docs {Er A} (step : A -> Identifier -> M Keyhive Er A) (refused : Er -> Prop) :
  (forall acc i d docs, kh_world (set_docs docs k1) = kh_world k1 -> kh_docs k1 !! i = Some d -> docs !! i = Some d ->
     (exists acc' d', step acc i (set_docs docs k1) = (Ok acc', set_docs (<[i := d']> docs) k1) /\ changed d d') \/
     (exists e k', step acc i (set_docs docs k1) = (Err e, k') /\ refused e)) ->
  forall todo acc docs, NoDup todo -> (forall i, i ∈ todo -> is_Some (kh_docs k1 !! i)) -> updating todo docs ->
  (exists acc' docs', foldM step todo acc (set_docs docs k1) = (Ok acc', set_docs docs' k1) /\ updating [] docs') \/
  (exists e k', foldM step todo acc (set_docs docs k1) = (Err e, k') /\ refused e).
Proof.
  intros Hstep. induction todo as [|i todo IH]; intros acc docs Hnd Hin Hu; [left; by exists acc, docs|].
  apply NoDup_cons in Hnd as [Hi Hnd]. destruct (Hin i (list_elem_of_here _ _)) as [d Hd]. pose proof (Hu i) as Hui. rewrite Hd in Hui.
  destruct (docs !! i) as [d0|] eqn:Hdi; [|done]. rewrite decide_True in Hui by left. subst d0.
  cbn [foldM]. unfold bindM. destruct (Hstep acc i d docs (updating_world _ _ Hu) Hd Hdi) as [(acc' & d' & -> & Hc)|(e & k' & -> & He)]; [|right; by eauto].
  apply IH; [done|intros j Hj; apply Hin; by right|by apply updating_step with d].
Qed.

Lemma fold_all_docs {Er A} (step : A -> Identifier -> M Keyhive Er A) (refused : Er -> Prop) acc :
  (forall acc i d docs, kh_world (set_docs docs k1) = kh_world k1 -> kh_docs k1 !! i = Some d -> docs !! i = Some d ->
     (exists acc' d', step acc i (set_docs docs k1) = (Ok acc', set_docs (<[i := d']> docs) k1) /\ changed d d') \/
     (exists e k', step acc i (set_docs docs k1) = (Err e, k') /\ refused e)) ->
  (exists acc' docs', foldM step (map_to_list (kh_docs k1)).*1 acc k1 = (Ok acc', set_docs docs' k1) /\ updating [] docs') \/
  (exists e k', foldM step (map_to_list (kh_docs k1)).*1 acc k1 = (Err e, k') /\ refused e).
Proof.
  intros Hstep. assert (set_docs (kh_docs k1) k1 = k1) as Heq by (by destruct k1).
  pose proof (fold_docs step refused Hstep (map_to_list (kh_docs k1)).*1 acc (kh_docs k1)) as Hf. rewrite Heq in Hf.
  apply Hf; [apply NoDup_fst_map_to_list| |apply updating_start].
  intros i ([j d] & -> & Hd%elem_of_map_to_list)%list_elem_of_fmap. by exists d.
Qed.

Lemma updated_all docs i d : updating [] docs -> kh_docs k1 !! i = Some d -> exists d', docs !! i = Some d' /\ changed d d'.
Proof.
  intros Hu Hd. specialize (Hu i). rewrite Hd in Hu. destruct (docs !! i) as [d'|]; [|done]. exists d'. split; [done|].
  rewrite decide_False in Hu by apply not_elem_of_nil. done.
Qed.
End Loop.

(** A call on one document of the keyhive that changes only its key agreement. *)
Definition at_stores (k : Keyhive) (d : Document T) : Document T := Document.set_group (with_stores k (doc_group d)) d.

Lemma at_doc_cgka {Er A} (k1 : Keyhive) docs i d (m : M (Document T) Er A) r c :
  m (at_stores k1 d) = (r, set_cgka c (at_stores k1 d)) ->
  at_doc i d m (set_docs docs k1) = (r, set_docs (<[i := set_cgka c (at_stores k1 d)]> docs) k1).
Proof.
  intros Hm. unfold at_doc. change (Document.set_group (with_stores (set_docs docs k1) (doc_group d)) d) with (at_stores k1 d). rewrite Hm.
  f_equal.
Qed.

(** ** What a document carries *)

(** The agent with the id [id] is among those the document gives access to. *)
Definition inside (world : World) (id : Identifier) (d : Document T) : Prop :=
  exists a, carries world (doc_group d) a /\ agent_identifier a = id.

Lemma contains_group world id d : sound_world world (doc_group d) -> doc_id d <> id ->
  exists caps, transitive_members world (doc_group d) = Ok caps /\ found world (doc_group d) caps /\ (is_Some (caps !! id) <-> inside world id d).
Proof.
  intros Hw Hid. destruct (transitive_members_ok _ _ Hw) as (caps & Ht & Hf). exists caps. split; [done|]. split; [done|].
  apply Hf. unfold doc_id in Hid. congruence.
Qed.

(** The agents a document carries differ in their ids, and the individuals among
    them from the document. *)
Record distinct_members (world : World) (d : Document T) : Prop := {
  dm_unique a b : carries world (doc_group d) a -> carries world (doc_group d) b -> agent_identifier a = agent_identifier b -> a = b;
  dm_self a : carries world (doc_group d) a -> membered world a = None -> agent_identifier a <> doc_id d;
}.
Definition carries_individual (world : World) (d : Document T) (i : Identifier) : Prop :=
  exists a, carries world (doc_group d) a /\ membered world a = None /\ agent_identifier a = i.

Lemma individuals_of_ok world d caps : distinct_members world d -> found world (doc_group d) caps ->
  forall i, i ∈ individuals_of caps <-> carries_individual world d i.
Proof.
  intros [Hu Hs] [Hc Hall] i. unfold individuals_of. rewrite elem_of_list_to_set, list_elem_of_omap. split.
  - intros ([j [a acc]] & Hj%elem_of_map_to_list & Ha). destruct (Hc j (a, acc) Hj) as [Hca _]. cbn in Ha, Hca.
    exists a. destruct a; cbn in Ha |- *; simplify_eq; done.
  - intros (a & Ha & Hm & Hi). destruct (proj2 (Hall i (fun e => Hs a Ha Hm (eq_trans Hi e)))) as [v Hv]; [by exists a|].
    destruct (Hc i v Hv) as [Hcv Hvi]. assert (v.1 = a) as Hva by (apply Hu; [done..|congruence]).
    exists (i, v). split; [by apply elem_of_map_to_list|]. cbn [snd]. rewrite Hva. destruct a; cbn in Hm, Hi |- *; congruence.
Qed.

(** ** Adding *)

(** What the addition of [member] to the group [id] makes of a document. *)
Definition extended (world : World) (id : Identifier) (member : Agent) (d d' : Document T) : Prop :=
  (~ inside world id d -> d' = d) /\
  (inside world id d -> forall c, doc_cgka d = Some c -> exists c', doc_cgka d' = Some c' /\ ready c' /\
     forall m, m ∈ tree_ids c' <-> m ∈ tree_ids c \/ exists i, leads_individual world member i /\ m = member_of i).

(** The key agreement of a document can take the individuals [member] leads to. *)
Definition has_room (world : World) (pick : Identifier -> Identifier -> ShareKey) (member : Agent) (d : Document T) : Prop :=
  exists c, doc_cgka d = Some c /\ ready c /\
    forall keys, agent_pick_prekeys (pick (doc_id d)) world member = Some keys -> (leaves_used c + N.of_nat (size keys) <= 2 ^ 30)%N.

Lemma propagate_add_ok (k1 : Keyhive) id member signer pick :
  let world := kh_world k1 in
  signer_returns signer -> unique_ids world member ->
  (forall i d, kh_docs k1 !! i = Some d -> sound_world world (doc_group d) /\ doc_id d <> id) ->
  (forall i d, kh_docs k1 !! i = Some d -> inside world id d -> has_room world pick member d) ->
  forall acc i d docs, kh_world (set_docs docs k1) = world -> kh_docs k1 !! i = Some d -> docs !! i = Some d ->
  (exists acc' d', propagate_add id member signer pick acc i (set_docs docs k1) = (Ok acc', set_docs (<[i := d']> docs) k1) /\
     members (doc_group d') = members (doc_group d) /\ extended world id member d d') \/
  (exists e k', propagate_add id member signer pick acc i (set_docs docs k1) = (Err e, k') /\ e = DocAddCgkaError Keys.SigningError).
Proof.
  intros world Hs Hu Hdocs Hroom acc i d docs Hw Hd Hi. destruct (Hdocs i d Hd) as [Hsw Hid].
  destruct (contains_group world id d Hsw Hid) as (caps & Ht & _ & Hin).
  unfold propagate_add. rewrite (bindM_ok get _ _ _ _ eq_refl). change (kh_docs (set_docs docs k1)) with docs. rewrite Hi, Hw.
  rewrite (bindM_ok _ _ _ caps (set_docs docs k1)) by (by rewrite Ht).
  case_bool_decide as Hcap; cycle 1.
  { left. exists acc, d. split; [rewrite insert_id by done; reflexivity|]. split; [done|]. split; [done|]. intros Hd'. by apply Hin in Hd'. }
  apply Hin in Hcap as Hins. destruct (Hroom i d Hd Hins) as (c & Hc & Hr & Hsize).
  destruct (agent_pick_prekeys_correct world (pick (doc_id d)) member Hu) as (keys & Hkeys & Hk).
  rewrite (bindM_ok _ _ _ keys (set_docs docs k1)) by (by rewrite Hkeys). unfold bindM.
  destruct (add_prekeys_ready signer (map_to_list keys) Hs (at_stores k1 d) c [] Hc Hr) as [(ops & c' & Heq & Hr' & Hids)|[d' Heq]];
    [rewrite length_map_to_list; by apply Hsize| |].
  - left. rewrite (at_doc_cgka k1 docs i d _ (Ok ops) (Some c')) by (unfold map_err, add_cgka_members_from_prekeys; by rewrite Heq).
    do 2 eexists. split; [reflexivity|]. split; [done|]. split; [done|]. intros _ c0 Hc0. assert (c0 = c) as -> by congruence.
    exists c'. split; [done|]. split; [done|]. intros m. rewrite Hids, elem_of_union, elem_of_list_to_set, list_elem_of_fmap.
    setoid_rewrite list_elem_of_fmap. split; [intros [(j & -> & [j' kk] & -> & Hjk%elem_of_map_to_list)|?]|intros [?|(j & Hj & ->)]]; auto.
    + right. exists j'. split; [|done]. by apply (Hk j' kk).
    + left. exists j. split; [done|]. exists (j, pick (doc_id d) j). split; [done|]. by apply elem_of_map_to_list, Hk.
  - right. unfold at_doc, map_err, add_cgka_members_from_prekeys. change (Document.set_group _ d) with (at_stores k1 d). rewrite Heq. cbn. eauto.
Qed.

(** ** Revoking *)

(** Leaves are taken one by one; the last leaf stays. *)
Definition left_over (before gone after : gset MemberId) : Prop :=
  after = before ∖ gone \/ (before ⊆ gone /\ exists m, m ∈ before /\ after = {[m]}).

Lemma left_over_remove before gone after m : left_over (before ∖ {[m]}) gone after -> left_over before ({[m]} ∪ gone) after.
Proof.
  intros [->|(Hsub & x & Hx & ->)]; [left; by rewrite difference_difference_l_L|right].
  split; [|exists x; set_solver]. intros y Hy. destruct (decide (y = m)); set_solver.
Qed.
Lemma left_over_last gone after m : m ∉ gone -> left_over {[m]} gone after -> left_over {[m]} ({[m]} ∪ gone) after.
Proof.
  intros Hm [->|(Hsub & x & Hx & ->)]; [|set_solver]. right. split; [set_solver|]. exists m. set_solver.
Qed.

Lemma try_remove_ready still signer ids : signer_returns signer -> ~ signer_refuses signer -> NoDup ids ->
  forall (d : Document T) c acc, doc_cgka d = Some c -> ready c ->
  exists ops c', foldM (try_remove still signer) ids acc d = (Ok ops, set_cgka (Some c') d) /\ ready c' /\
    left_over (tree_ids c) (list_to_set (member_of <$> filter (fun i => i ∉ still) ids)) (tree_ids c').
Proof.
  intros Hs Hsigns Hnd. induction ids as [|id ids IH]; intros d c acc Hc Hr; cbn [foldM].
  { exists acc, c. split; [by rewrite set_cgka_self|]. split; [done|]. left. cbn. set_solver. }
  apply NoDup_cons in Hnd as [Hid Hnd]. specialize (IH Hnd).
  destruct (decide (id ∈ still)) as [Hin|Hin].
  { rewrite (bindM_ok _ _ _ acc d) by (unfold try_remove; by rewrite bool_decide_true). rewrite filter_cons_False by tauto. by apply IH. }
  rewrite filter_cons_True by done. cbn [fmap list_fmap list_to_set].
  destruct (remove_ready (member_of id) signer c Hr Hs) as [(o & c1 & Heq & Hr1 & Hids)|[[Heq Hids]|(c1 & _ & ?)]]; [| |done].
  - rewrite (bindM_ok _ _ _ (acc ++ option_list o) (set_cgka (Some c1) d)).
    2:{ unfold try_remove, remove_cgka_member. rewrite bool_decide_false, (cgka_mut_some _ _ c Hc), Heq by done. destruct o; cbn; by rewrite ?app_nil_r. }
    destruct (IH (set_cgka (Some c1) d) c1 (acc ++ option_list o) eq_refl Hr1) as (ops & c' & -> & Hr' & Hl).
    exists ops, c'. split; [done|]. split; [done|]. rewrite Hids in Hl. by apply left_over_remove.
  - rewrite (bindM_ok _ _ _ acc d).
    2:{ unfold try_remove, remove_cgka_member. rewrite bool_decide_false, (cgka_mut_some _ _ c Hc), Heq by done. by rewrite set_cgka_self. }
    destruct (IH d c acc Hc Hr) as (ops & c' & -> & Hr' & Hl). exists ops, c'. split; [done|]. split; [done|]. rewrite Hids in *.
    apply left_over_last; [|done]. rewrite elem_of_list_to_set, list_elem_of_fmap. intros (j & <-%member_of_inj & [_ Hj]%list_elem_of_filter). done.
Qed.

(** What the revocation of a member of the group [id] that stood for [revoked]
    makes of a document. *)
Definition reduced (world : World) (id : Identifier) (revoked : Identifier -> Prop) (d d' : Document T) : Prop :=
  let lost m := exists i, revoked i /\ ~ carries_individual world d i /\ m = member_of i in
  (~ inside world id d -> d' = d) /\
  (inside world id d -> forall c, doc_cgka d = Some c -> exists c', doc_cgka d' = Some c' /\ ready c' /\
     ((forall m, m ∈ tree_ids c' <-> m ∈ tree_ids c /\ ~ lost m) \/
      ((forall m, m ∈ tree_ids c -> lost m) /\ exists m, m ∈ tree_ids c /\ tree_ids c' = {[m]}))).

Lemma propagate_removal_ok (k1 : Keyhive) id revoked signer :
  let world := kh_world k1 in
  signer_returns signer -> ~ signer_refuses signer ->
  (forall i d, kh_docs k1 !! i = Some d -> sound_world world (doc_group d) /\ doc_id d <> id) ->
  (forall i d, kh_docs k1 !! i = Some d -> inside world id d -> distinct_members world d /\ exists c, doc_cgka d = Some c /\ ready c) ->
  forall acc i d docs, kh_world (set_docs docs k1) = world -> kh_docs k1 !! i = Some d -> docs !! i = Some d ->
  exists acc' d', propagate_removal id revoked signer acc i (set_docs docs k1) = (Ok acc', set_docs (<[i := d']> docs) k1) /\
     members (doc_group d') = members (doc_group d) /\ reduced world id (fun i => i ∈ revoked) d d'.
Proof.
  intros world Hs Hsigns Hdocs Hready acc i d docs Hw Hd Hi. destruct (Hdocs i d Hd) as [Hsw Hid].
  destruct (contains_group world id d Hsw Hid) as (caps & Ht & Hf & Hin).
  unfold propagate_removal. rewrite (bindM_ok get _ _ _ _ eq_refl). change (kh_docs (set_docs docs k1)) with docs. rewrite Hi, Hw.
  rewrite (bindM_ok _ _ _ caps (set_docs docs k1)) by (by rewrite Ht).
  case_bool_decide as Hcap; cycle 1.
  { exists acc, d. split; [rewrite insert_id by done; reflexivity|]. split; [done|]. split; [done|]. intros Hd'. by apply Hin in Hd'. }
  apply Hin in Hcap as Hins. destruct (Hready i d Hd Hins) as (Hdm & c & Hc & Hr).
  pose proof (individuals_of_ok world d caps Hdm Hf) as Hstill.
  destruct (try_remove_ready (individuals_of caps) signer (elements revoked) Hs Hsigns (NoDup_elements _) (at_stores k1 d) c acc Hc Hr) as (ops & c' & Heq & Hr' & Hl).
  exists ops, (set_cgka (Some c') (at_stores k1 d)). split; [by apply at_doc_cgka|]. split; [done|]. split; [done|]. intros _ c0 Hc0.
  assert (c0 = c) as -> by congruence. exists c'. split; [done|]. split; [done|].
  set (lost := list_to_set _) in Hl.
  assert (forall m, m ∈ lost <-> exists j, j ∈ revoked /\ ~ carries_individual world d j /\ m = member_of j) as Hlost.
  { intros m. unfold lost. rewrite elem_of_list_to_set, list_elem_of_fmap. setoid_rewrite list_elem_of_filter. setoid_rewrite elem_of_elements.
    setoid_rewrite Hstill. split; [intros (j & -> & ? & ?)|intros (j & ? & ? & ->)]; by exists j. }
  destruct Hl as [->|[Hsub Hm]]; [left; intros m; by rewrite elem_of_difference, Hlost|right]. split; [|done]. intros m Hm'. by apply Hlost, Hsub.
Qed.
Lemma reduced_iff world id (r r' : Identifier -> Prop) d d' : (forall i, r i <-> r' i) -> reduced world id r d d' -> reduced world id r' d d'.
Proof.
  intros Hiff [Hout Hin]. split; [done|]. intros Hi c Hc. destruct (Hin Hi c Hc) as (c' & ? & ? & Hcases). exists c'. split; [done|]. split; [done|].
  setoid_rewrite <- Hiff. done.
Qed.

Lemma reduced_none world id (r : Identifier -> Prop) d : (forall i, ~ r i) ->
  (inside world id d -> exists c, doc_cgka d = Some c /\ ready c) -> reduced world id r d d.
Proof.
  intros Hno Hready. split; [done|]. intros Hi c Hc. destruct (Hready Hi) as (c0 & Hc0 & Hr). assert (c0 = c) as -> by congruence.
  exists c. split; [done|]. split; [done|]. left. intros m. split; [intros Hm; split; [done|]; intros (i & Hr' & _); by apply (Hno i)|by intros [? _]].
Qed.

(** ** The documents an agent can reach *)

Lemma docs_reachable_fold agent (k : Keyhive) l : forall caps,
  (forall d, d ∈ l -> exists tr, transitive_members (kh_world k) (doc_group d) = Ok tr) ->
  exists caps', foldR (docs_step agent k) l caps = Ok caps' /\
    forall i, is_Some (caps' !! i) <-> is_Some (caps !! i) \/
      exists d tr, d ∈ l /\ doc_id d = i /\ transitive_members (kh_world k) (doc_group d) = Ok tr /\ is_Some (tr !! agent_identifier agent).
Proof.
  induction l as [|d l IH]; intros caps Hl; cbn [foldR].
  { exists caps. split; [done|]. intros i. split; [by left|]. intros [?|(d & tr & ?%not_elem_of_nil & _)]; done. }
  destruct (Hl d (list_elem_of_here _ _)) as [tr Ht].
  assert (exists caps1, docs_step agent k caps d = Ok caps1 /\ forall i, is_Some (caps1 !! i) <->
    is_Some (caps !! i) \/ (doc_id d = i /\ is_Some (tr !! agent_identifier agent))) as (caps1 & -> & H1).
  { unfold docs_step. rewrite Ht. cbn [bindR]. destruct (tr !! agent_identifier agent) as [[a cap]|] eqn:Hc.
    - eexists. split; [done|]. intros i. rewrite lookup_insert_is_Some'. assert (is_Some (Some (a, cap))) by (by eexists). tauto.
    - exists caps. split; [done|]. intros i. split; [by left|]. intros [?|[_ [? [=]]]]; done. }
  cbn [bindR]. destruct (IH caps1) as (caps' & -> & Hc'); [intros x Hx; apply Hl; by right|]. exists caps'. split; [done|].
  intros i. rewrite Hc', H1. setoid_rewrite elem_of_cons. split.
  - intros [[?|[??]]|(x & tx & ? & ?)]; [by left|right; exists d, tr; auto|right; exists x, tx; auto].
  - intros [?|(x & tx & [->|?] & ? & Htx & ?)]; [by left; left|left; right; split; [done|congruence]|right; by exists x, tx].
Qed.
End Propagation.

(** ** Properties *)



(** The documents an agent can reach: the query ends without a panic and
    returns exactly the documents that carry the agent. *)
Theorem docs_reachable_correct {T : Type} `{Countable T} agent (k : Keyhive T) :
  (forall i d, kh_docs k !! i = Some d -> doc_id d = i /\ sound_world (kh_world k) (doc_group d) /\ doc_id d <> agent_identifier agent) ->
  exists caps, docs_reachable_by_agent agent k = Ok caps /\
    forall i, is_Some (caps !! i) <-> exists d, kh_docs k !! i = Some d /\ inside (kh_world k) (agent_identifier agent) d.
Proof.
  intros Hdocs. unfold docs_reachable_by_agent.
  assert (forall d, d ∈ (map_to_list (kh_docs k)).*2 <-> exists i, kh_docs k !! i = Some d) as Hin.
  { intros d. rewrite list_elem_of_fmap. split; [intros ([i d'] & -> & Hd%elem_of_map_to_list); by exists i|].
    intros [i Hd]. exists (i, d). split; [done|]. by apply elem_of_map_to_list. }
  destruct (docs_reachable_fold agent k (map_to_list (kh_docs k)).*2 ∅) as (caps & Heq & Hc).
  - intros d [i Hd]%Hin. destruct (Hdocs i d Hd) as (_ & Hw & Hne). destruct (contains_group _ _ d Hw Hne) as (tr & Ht & _). by exists tr.
  - exists caps. split; [done|]. intros i. rewrite Hc, lookup_empty, is_Some_alt. split.
    + intros [[]|(d & tr & [j Hd]%Hin & <- & Ht & Htr)]. destruct (Hdocs j d Hd) as (Hid & Hw & Hne). rewrite Hid. exists d. split; [done|].
      destruct (contains_group _ _ d Hw Hne) as (tr' & Ht' & _ & <-). congruence.
    + intros (d & Hd & Hi). right. destruct (Hdocs i d Hd) as (Hid & Hw & Hne). destruct (contains_group _ _ d Hw Hne) as (tr & Ht & _ & Htr).
      exists d, tr. split; [apply Hin; by exists i|]. split; [done|]. split; [done|]. by apply Htr.
Qed.
