(* ===== verification/KeyhiveQueries.v ===== *)
(** * What a keyhive tells an agent
    ([keyhive/keyhive_core/src/keyhive.rs], [principal/agent.rs],
    [principal/individual/op.rs], [cgka.rs])

    The prekey operations and the operations of the key agreements an agent is
    to be sent, for one agent and for all agents in one pass, and the static
    events all of it amounts to. *)

From S2P Require Import Prelude TreeMath Crypto Keys SecretStore Tree PathCrypto Signed CaMap OpGraph AppSecret Cgka.
From S2P Require Import Individual Membership MemberSort GroupState Group Reach Ciphertext Active Document Keyhive MemberOps KeyhiveFacade.

Local Open Scope monad_scope.

(** [ops] once for every identifier, and for every agent the identifiers whose
    operations it reaches. *)
Record AllReachablePrekeyOps := mkAllPrekeyOps {
  ap_ops : gmap Identifier (list KeyOp);
  ap_index : gmap Identifier (gset Identifier);
}.
Record AllCgkaOps := mkAllCgkaOps {
  ao_ops : gmap Identifier (list SignedOp);
  ao_index : gmap Identifier (gset Identifier);
}.
Definition prekey_ops_of_agent (agent_id : Identifier) (all : AllReachablePrekeyOps) : option (list KeyOp) :=
  ids ← ap_index all !! agent_id; Some (mjoin (omap (fun id => ap_ops all !! id) (elements ids))).
Definition cgka_ops_of_agent (agent_id : Identifier) (all : AllCgkaOps) : option (list SignedOp) :=
  ids ← ao_index all !! agent_id; Some (mjoin (omap (fun id => ao_ops all !! id) (elements ids))).

Section Queries.
Context `{P : Primitives} {T : Type} `{Countable T}.
Context `{Ssd : !Serialize (Signed (StaticDelegation T)), Ssr : !Serialize (Signed (StaticRevocation T))}.
Context `{Sop : !Serialize CgkaOperation, Ssop : !Serialize (Signed CgkaOperation)}.
Context `{Sev : !Serialize (StaticEvent T)}.
Abbreviation Keyhive := (Keyhive T).
Abbreviation KeyOps := (CaMap KeyOp).

(** ** Prekey operations *)

Section Prekeys.
(** The individual behind the pointer that an agent holds. *)
Variable behind : Identifier -> Individual.

Definition individual_key_ops (i : Individual) : KeyOps := prekey_ops (prekey_state i).
Definition group_key_ops (g : @Group T) : KeyOps :=
  match id_or_indie g with OrIndividual i => individual_key_ops i | IdOrGroup _ => ∅ end.
Definition key_ops (k : Keyhive) (a : Agent) : KeyOps :=
  match a with
  | AgentActive _ => individual_key_ops (ac_individual (kh_active k))
  | AgentIndividual id => individual_key_ops (behind id)
  | AgentGroup id => from_option group_key_ops ∅ (kh_groups k !! id)
  | AgentDocument id => from_option (fun d => group_key_ops (doc_group d)) ∅ (kh_docs k !! id)
  end.

(** The groups and then the documents, as agents. *)
Definition membered_agents (k : Keyhive) : list (Agent * @Group T) :=
  ((fun g => (AgentGroup (group_id g), g)) <$> (map_to_list (kh_groups k)).*2) ++
  ((fun d => (AgentDocument (doc_id d), doc_group d)) <$> (map_to_list (kh_docs k)).*2).

(** [map.entry(agent_id).or_default().extend(key_ops)] *)
Definition add_many_keys (map : gmap Identifier KeyOps) (agent_id : Identifier) (ops : KeyOps) : gmap Identifier KeyOps :=
  <[agent_id := ops ∪ default ∅ (map !! agent_id)]> map.
Definition add_new_keys (k : Keyhive) (map : gmap Identifier KeyOps) (x : Identifier * (Agent * Access)) : gmap Identifier KeyOps :=
  match map !! x.1 with Some _ => map | None => add_many_keys map x.1 (key_ops k x.2.1) end.
Definition prekeys_step (agent : Agent) (k : Keyhive) (map : gmap Identifier KeyOps) (x : Agent * @Group T) : res Empty_set (gmap Identifier KeyOps) :=
  let* transitive := transitive_members (kh_world k) x.2 in
  if bool_decide (is_Some (transitive !! agent_identifier agent)) then
    Ok (foldl (add_new_keys k) (add_many_keys map (group_id x.2) (key_ops k x.1)) (map_to_list transitive))
  else Ok map.

(** [KeyOp::topsort] of every entry. *)
Definition topsort_step (fuel : nat) (sorted : gmap Identifier (list KeyOp)) (x : Identifier * KeyOps) : res Empty_set (gmap Identifier (list KeyOp)) :=
  let* ops := loopR (key_topsort fuel (map_to_list x.2).*2) in Ok (<[x.1 := ops]> sorted).
Definition topsort_all (fuel : nat) (map : gmap Identifier KeyOps) : res Empty_set (gmap Identifier (list KeyOp)) :=
  foldR (topsort_step fuel) (map_to_list map) ∅.

Definition own_prekeys (k : Keyhive) : KeyOps := individual_key_ops (ac_individual (kh_active k)).
Definition reachable_prekeys (agent : Agent) (k : Keyhive) : res Empty_set (gmap Identifier KeyOps) :=
  let map := add_many_keys ∅ (active_id (kh_active k)) (own_prekeys k) in
  let map := add_many_keys map (agent_identifier agent) (key_ops k agent) in
  foldR (prekeys_step agent k) (membered_agents k) map.
Definition reachable_prekey_ops_for_agent (fuel : nat) (agent : Agent) (k : Keyhive) : res Empty_set (gmap Identifier (list KeyOp)) :=
  let* map := reachable_prekeys agent k in topsort_all fuel map.

(** *** All agents *)

(** [if let Entry::Vacant(e) = cache.entry(id) { e.insert(..) }] *)
Definition cache_key_ops (cache : gmap Identifier KeyOps) (id : Identifier) (ops : KeyOps) : gmap Identifier KeyOps :=
  match cache !! id with Some _ => cache | None => <[id := ops]> cache end.
Abbreviation Walked := (Agent * @Group T * gmap Identifier (Agent * Access))%type.
Definition walk_step (k : Keyhive) (data : list Walked) (x : Agent * @Group T) : res Empty_set (list Walked) :=
  let* transitive := transitive_members (kh_world k) x.2 in Ok (data ++ [(x.1, x.2, transitive)]).
Definition cache_source (k : Keyhive) (cache : gmap Identifier KeyOps) (x : Walked) : gmap Identifier KeyOps :=
  foldl (fun cache m => cache_key_ops cache m.1 (key_ops k m.2.1)) (cache_key_ops cache (group_id x.1.2) (key_ops k x.1.1)) (map_to_list x.2).
Definition cache_individual (k : Keyhive) (cache : gmap Identifier KeyOps) (x : Identifier * IndividualCell) : gmap Identifier KeyOps :=
  cache_key_ops cache x.1 (individual_key_ops (cell_value k x.2)).
Definition prekey_cache (k : Keyhive) (data : list Walked) : gmap Identifier KeyOps :=
  foldl (cache_individual k) (foldl (cache_source k) {[active_id (kh_active k) := own_prekeys k]} data) (map_to_list (kh_individuals k)).

(** [index.entry(agent_id).or_default().extend(ids)] *)
Definition index_extend (agent_id : Identifier) (ids : gset Identifier) (index : gmap Identifier (gset Identifier)) : gmap Identifier (gset Identifier) :=
  <[agent_id := ids ∪ default ∅ (index !! agent_id)]> index.
Definition index_source (active : Identifier) (index : gmap Identifier (gset Identifier)) (x : Walked) : gmap Identifier (gset Identifier) :=
  foldl (fun index agent_id => index_extend agent_id ({[active; agent_id; group_id x.1.2]} ∪ dom x.2) index) index (map_to_list x.2).*1.
Definition prekey_index (k : Keyhive) (data : list Walked) : gmap Identifier (gset Identifier) :=
  let active := active_id (kh_active k) in
  let index := index_extend active {[active]} ∅ in
  let index := foldl (fun index agent_id => index_extend agent_id {[active; agent_id]} index) index (map_to_list (kh_individuals k)).*1 in
  foldl (index_source active) index data.

Definition reachable_prekey_ops_for_all_agents (fuel : nat) (k : Keyhive) : res Empty_set AllReachablePrekeyOps :=
  let* data := foldR (walk_step k) (membered_agents k) [] in
  let* ops := topsort_all fuel (prekey_cache k data) in
  Ok (mkAllPrekeyOps ops (prekey_index k data)).
End Prekeys.

(** ** Operations of the key agreements *)

(** A document whose operations cannot be sorted is skipped. *)
Definition sorted_ops (d : Document T) : res Empty_set (option (list SignedOp)) :=
  match doc_cgka_ops d with
  | Ok epochs => Ok (Some (mjoin epochs))
  | Err _ => Ok None
  | Panic => Panic
  | Diverge => Diverge
  end.
Definition reachable_ops_step (k : Keyhive) (ops : list SignedOp) (id : Identifier) : res Empty_set (list SignedOp) :=
  match kh_docs k !! id with
  | Some d => let* more := sorted_ops d in Ok (ops ++ default [] more)
  | None => Ok ops
  end.
Definition cgka_ops_reachable_by_agent (agent : Agent) (k : Keyhive) : res Empty_set (list SignedOp) :=
  let* reachable := docs_reachable_by_agent agent k in foldR (reachable_ops_step k) (map_to_list reachable).*1 [].
Definition cgka_ops_for_doc (id : Identifier) (k : Keyhive) : res CgkaError (option (list SignedOp)) :=
  match kh_docs k !! id with
  | Some d => let* epochs := doc_cgka_ops d in Ok (Some (mjoin epochs))
  | None => Ok None
  end.
Definition cgka_source_step (k : Keyhive) (all : AllCgkaOps) (d : Document T) : res Empty_set AllCgkaOps :=
  let* doc_ops := sorted_ops d in
  match doc_ops with
  | None | Some [] => Ok all
  | Some ops =>
      let* transitive := transitive_members (kh_world k) (doc_group d) in
      Ok (mkAllCgkaOps (<[doc_id d := ops]> (ao_ops all))
            (foldl (fun index agent_id => index_extend agent_id {[doc_id d]} index) (ao_index all) (map_to_list transitive).*1))
  end.
Definition cgka_ops_for_all_agents (k : Keyhive) : res Empty_set AllCgkaOps :=
  foldR (cgka_source_step k) (map_to_list (kh_docs k)).*2 (mkAllCgkaOps ∅ ∅).

(** ** Events *)

Definition event_of_key_op (op : KeyOp) : StaticEvent T := match op with KeyAdd a => PrekeysExpanded a | KeyRotate r => PrekeyRotated r end.
Definition event_of_membership_op (op : MembershipOperation T) : StaticEvent T :=
  match op with OpDelegation d => Delegated (Signed_map dlg_static d) | OpRevocation r => Revoked (Signed_map rev_static r) end.
Abbreviation EventMap := (gmap (Digest (StaticEvent T)) (StaticEvent T)).
Definition put_event (m : EventMap) (e : StaticEvent T) : EventMap := <[Digest_hash e := e]> m.

(** An event is hashed in its static form; a membership operation keeps the
    digest it has as one. *)
Definition static_events_for_agent (behind : Identifier -> Individual) (fuel : nat) (agent : Agent) (k : Keyhive) : res Empty_set EventMap :=
  let* ops := membership_ops_for_agent fuel agent k in
  let events := foldl (fun m x => <[coerce x.1 := event_of_membership_op x.2]> m) ∅ (map_to_list ops) in
  let* prekeys := reachable_prekey_ops_for_agent behind fuel agent k in
  let events := foldl put_event events (event_of_key_op <$> mjoin (map_to_list prekeys).*2) in
  let* cgka := cgka_ops_reachable_by_agent agent k in
  Ok (foldl put_event events (StaticCgkaOperation <$> cgka)).
Definition pending_event_hashes (k : Keyhive) : gset (Digest (StaticEvent T)) := list_to_set (Digest_hash <$> kh_pending_events k).
End Queries.
