(* ===== verification/KeyhiveQueriesProps.v ===== *)
(** * The two ways to ask what an agent is to be sent agree *)

From S2P Require Import Prelude TreeMath Crypto Keys SecretStore Tree PathCrypto Signed CaMap OpGraph AppSecret Cgka.
From S2P Require Import Individual Membership MemberSort GroupState Group Reach ReachMembers Ciphertext Active Document Keyhive MemberOps KeyhiveFacade KeyhiveMembers KeyhiveQueries.

Local Open Scope monad_scope.

(** ** Indexes *)

Section Index.
Implicit Types index : gmap Identifier (gset Identifier).

Definition grants index (a i : Identifier) : Prop := exists ids, index !! a = Some ids /\ i ∈ ids.

Lemma grants_extend index b ids a i : grants (index_extend b ids index) a i <-> grants index a i \/ (a = b /\ i ∈ ids).
Proof.
  unfold grants, index_extend. destruct (decide (b = a)) as [<-|Hne].
  - rewrite lookup_insert_eq. split.
    + intros (? & [= <-] & [?|Hi]%elem_of_union); [by right|]. destruct (index !! b) as [old|]; [left; by exists old|]. by apply elem_of_empty in Hi.
    + intros [(old & -> & Hi)|[_ Hi]]; eexists; (split; [done|]); apply elem_of_union; [by right|by left].
  - rewrite lookup_insert_ne by done. split; [by left|]. intros [?|[-> _]]; done.
Qed.

Lemma grants_foldl {A} (key : A -> Identifier) (ids : A -> gset Identifier) l a i : forall index,
  grants (foldl (fun index x => index_extend (key x) (ids x) index) index l) a i <-> grants index a i \/ exists x, x ∈ l /\ a = key x /\ i ∈ ids x.
Proof.
  induction l as [|x l IH]; intros index; cbn [foldl].
  { split; [by left|]. intros [?|(x & ?%not_elem_of_nil & _)]; done. }
  rewrite IH, grants_extend. setoid_rewrite elem_of_cons. split.
  - intros [[?|[??]]|(y & ? & ?)]; [by left|right; exists x; auto|right; exists y; auto].
  - intros [?|(y & [->|?] & ?)]; [by left; left|by left; right|right; by exists y].
Qed.

(** Everyone with an entry is granted what is in [always]. *)
Definition granting (always : Identifier -> gset Identifier) index : Prop := forall a ids, index !! a = Some ids -> always a ⊆ ids.
Lemma granting_extend always b ids index : granting always index -> always b ⊆ ids -> granting always (index_extend b ids index).
Proof.
  intros Hg Hb a ids'. unfold index_extend. intros [[<- <-]|[_ Ha]]%lookup_insert_Some; [set_solver|by apply Hg].
Qed.
Lemma granting_foldl {A} always (key : A -> Identifier) (ids : A -> gset Identifier) l : (forall x, x ∈ l -> always (key x) ⊆ ids x) ->
  forall index, granting always index -> granting always (foldl (fun index x => index_extend (key x) (ids x) index) index l).
Proof.
  induction l as [|x l IH]; intros Hl index Hg; [done|]. cbn [foldl]. apply IH; [intros y Hy; apply Hl; by right|].
  apply granting_extend; [done|]. apply Hl. left.
Qed.
End Index.

Section Agree.
Context `{P : Primitives} {T : Type} `{Countable T}.
Context `{Ssd : !Serialize (Signed (StaticDelegation T)), Ssr : !Serialize (Signed (StaticRevocation T))}.
Context `{Sop : !Serialize CgkaOperation, Ssop : !Serialize (Signed CgkaOperation)}.
Abbreviation Keyhive := (Keyhive T).
Abbreviation KeyOps := (CaMap KeyOp).
Abbreviation Walked := (Agent * @Group T * gmap Identifier (Agent * Access))%type.

(** ** Sorting every entry *)

Lemma topsort_fold fuel l : forall acc sorted, NoDup l.*1 -> foldR (topsort_step fuel) l acc = Ok sorted <->
  (forall id o, (id, o) ∈ l -> exists s, key_topsort fuel (map_to_list o).*2 = Some s /\ sorted !! id = Some s) /\
  (forall id, id ∉ l.*1 -> sorted !! id = acc !! id).
Proof.
  induction l as [|[id o] l IH]; intros acc sorted Hnd; cbn [foldR].
  { split; [intros [= <-]; split; [by intros ?? ?%not_elem_of_nil|done]|]. intros [_ Heq]. f_equal. apply map_eq. intros id. symmetry. apply Heq. apply not_elem_of_nil. }
  cbn in Hnd. apply NoDup_cons in Hnd as [Hid Hnd]. unfold topsort_step at 1. cbn [fst snd].
  destruct (key_topsort fuel (map_to_list o).*2) as [s|] eqn:Hs; cbn [loopR bindR]; cycle 1.
  { split; [done|]. intros [Hl _]. destruct (Hl id o (list_elem_of_here _ _)) as (s & Hs' & _). congruence. }
  rewrite IH by done. split.
  - intros [Hl Ho]. split.
    + intros i o' [[= -> ->]|?]%elem_of_cons; [|by apply Hl]. exists s. split; [done|]. rewrite Ho by done. apply lookup_insert_eq.
    + intros i Hi. cbn in Hi. apply not_elem_of_cons in Hi as [Hne Hi]. rewrite Ho by done. by apply lookup_insert_ne.
  - intros [Hl Ho]. split; [intros i o' Hi; apply Hl; by right|]. intros i Hi. destruct (decide (id = i)) as [<-|Hne].
    + destruct (Hl id o (list_elem_of_here _ _)) as (s' & Hs' & ->). rewrite lookup_insert_eq. congruence.
    + rewrite lookup_insert_ne by done. apply Ho. cbn. rewrite not_elem_of_cons. by split.
Qed.

Lemma topsort_all_ok fuel m sorted : topsort_all fuel m = Ok sorted <->
  (forall id o, m !! id = Some o -> exists s, key_topsort fuel (map_to_list o).*2 = Some s /\ sorted !! id = Some s) /\
  (forall id, m !! id = None -> sorted !! id = None).
Proof.
  unfold topsort_all. rewrite topsort_fold by apply NoDup_fst_map_to_list. setoid_rewrite elem_of_map_to_list. setoid_rewrite lookup_empty.
  assert (forall id, id ∉ (map_to_list m).*1 <-> m !! id = None) as Hn; [|by setoid_rewrite Hn].
  intros id. rewrite eq_None_not_Some. apply not_iff_compat. rewrite list_elem_of_fmap. split.
  - intros ([i o] & -> & Ho%elem_of_map_to_list). by exists o.
  - intros [o Ho]. exists (id, o). split; [done|]. by apply elem_of_map_to_list.
Qed.

Lemma topsort_all_filter fuel m sorted (ids : gset Identifier) : topsort_all fuel m = Ok sorted ->
  topsort_all fuel (filter (fun x => x.1 ∈ ids) m) = Ok (filter (fun x => x.1 ∈ ids) sorted).
Proof.
  rewrite !topsort_all_ok. intros [Hs Hn]. split.
  - intros id o [Ho Hid]%map_lookup_filter_Some. destruct (Hs id o Ho) as (s & ? & Hs'). exists s. split; [done|]. by apply map_lookup_filter_Some.
  - intros id Hid. apply map_lookup_filter_None. destruct (m !! id) as [o|] eqn:Ho; [right|left; by apply Hn].
    intros s _ Hin. apply map_lookup_filter_None in Hid as [?|Hid]; [congruence|]. by apply (Hid o).
Qed.

(** ** Prekeys *)

Section Entries.
Context (ops_of : Identifier -> KeyOps).

(** Every entry has the operations of its identifier. *)
Definition of_ids (m : gmap Identifier KeyOps) : Prop := forall id o, m !! id = Some o -> o = ops_of id.
Lemma of_ids_eq m m' : of_ids m -> of_ids m' -> (forall i, is_Some (m !! i) <-> is_Some (m' !! i)) -> m = m'.
Proof.
  intros Hm Hm' Hdom. apply map_eq. intros i. destruct (m !! i) as [o|] eqn:Ho, (m' !! i) as [o'|] eqn:Ho'; [|exfalso..|done].
  - by rewrite (Hm i o Ho), (Hm' i o' Ho').
  - destruct (proj1 (Hdom i)) as [? ?]; [by exists o|congruence].
  - destruct (proj2 (Hdom i)) as [? ?]; [by exists o'|congruence].
Qed.

Lemma add_many_ok m id : of_ids m -> of_ids (add_many_keys m id (ops_of id)) /\
  forall i, is_Some (add_many_keys m id (ops_of id) !! i) <-> is_Some (m !! i) \/ i = id.
Proof.
  intros Hm. unfold add_many_keys. split.
  - intros i o [[<- <-]|[_ Hi]]%lookup_insert_Some; [|by apply Hm]. destruct (m !! id) as [o|] eqn:Ho; cbn; [rewrite (Hm id o Ho); apply map_union_idemp|apply map_union_empty].
  - intros i. rewrite lookup_insert_is_Some'. naive_solver.
Qed.
Lemma cache_ok m id : of_ids m -> of_ids (cache_key_ops m id (ops_of id)) /\
  forall i, is_Some (cache_key_ops m id (ops_of id) !! i) <-> is_Some (m !! i) \/ i = id.
Proof.
  intros Hm. unfold cache_key_ops. destruct (m !! id) as [o|] eqn:Ho.
  - split; [done|]. intros i. split; [by left|]. intros [?| ->]; [done|by exists o].
  - split; [intros i o [[<- <-]|[_ Hi]]%lookup_insert_Some; [done|by apply Hm]|]. intros i. rewrite lookup_insert_is_Some'. naive_solver.
Qed.

(** Loops that add the operations of an identifier. *)
Lemma adding_fold {A} (step : gmap Identifier KeyOps -> A -> gmap Identifier KeyOps) (adds : A -> Identifier -> Prop) l :
  (forall m x, x ∈ l -> of_ids m -> of_ids (step m x) /\ forall i, is_Some (step m x !! i) <-> is_Some (m !! i) \/ adds x i) ->
  forall m, of_ids m -> of_ids (foldl step m l) /\ forall i, is_Some (foldl step m l !! i) <-> is_Some (m !! i) \/ exists x, x ∈ l /\ adds x i.
Proof.
  induction l as [|x l IH]; intros Hstep m Hm; cbn [foldl].
  { split; [done|]. intros i. split; [by left|]. intros [?|(x & ?%not_elem_of_nil & _)]; done. }
  destruct (Hstep m x (list_elem_of_here _ _) Hm) as [Hx Hdx]. destruct (IH (fun m y Hy => Hstep m y (list_elem_of_further _ _ _ Hy)) _ Hx) as [Ho Hd].
  split; [done|]. intros i. rewrite Hd, Hdx. setoid_rewrite elem_of_cons. split.
  - intros [[?|?]|(y & ? & ?)]; [by left|right; exists x; auto|right; exists y; auto].
  - intros [?|(y & [->|?] & ?)]; [by left; left|by left; right|right; by exists y].
Qed.
End Entries.

Section Walks.
Context (k : Keyhive).
Abbreviation active := (active_id (kh_active k)).

(** *** The walks *)

Definition walked (x : Agent * @Group T) (y : Walked) : Prop := y.1 = x /\ transitive_members (kh_world k) x.2 = Ok y.2.
Definition source_ids (y : Walked) (i : Identifier) : Prop := i = group_id y.1.2 \/ is_Some (y.2 !! i).

Lemma walked_fold l : forall acc data, foldR (walk_step k) l acc = Ok data -> exists more, data = acc ++ more /\ Forall2 walked l more.
Proof.
  induction l as [|x l IH]; intros acc data; cbn [foldR]; [intros [= <-]; exists []; by rewrite app_nil_r|].
  unfold walk_step at 1. destruct (transitive_members (kh_world k) x.2) as [caps|e| |] eqn:Hc; cbn [bindR]; try done.
  intros (more & -> & Hm)%IH. exists ((x.1, x.2, caps) :: more). split; [by rewrite <- app_assoc|]. constructor; [|done]. split; [by destruct x|done].
Qed.

Lemma is_Some_entry {V} (m : gmap Identifier V) i : is_Some (m !! i) <-> exists x, x ∈ map_to_list m /\ i = x.1.
Proof.
  split; [intros [v Hv]; exists (i, v); split; [by apply elem_of_map_to_list|done]|]. intros ([j v] & Hv%elem_of_map_to_list & ->). by exists v.
Qed.

(** *** The index *)

Lemma index_source_grants index y a i : grants (index_source active index y) a i <->
  grants index a i \/ (is_Some (y.2 !! a) /\ (i = active \/ i = a \/ source_ids y i)).
Proof.
  unfold index_source. rewrite (grants_foldl id (fun b => {[active; b; group_id y.1.2]} ∪ dom y.2)). unfold id, source_ids. rewrite is_Some_entry with (i := a).
  setoid_rewrite list_elem_of_fmap. setoid_rewrite elem_of_union. setoid_rewrite elem_of_dom. split.
  - intros [?|(b & (x & -> & Hx) & -> & Hi)]; [by left|right]. split; [by exists x|]. set_solver.
  - intros [?|[(x & Hx & ->) Hi]]; [by left|right]. exists x.1. split; [by exists x|]. set_solver.
Qed.

Lemma index_sources_grants l a i : forall index, grants (foldl (index_source active) index l) a i <->
  grants index a i \/ exists y, y ∈ l /\ is_Some (y.2 !! a) /\ (i = active \/ i = a \/ source_ids y i).
Proof.
  induction l as [|y l IH]; intros index; cbn [foldl].
  { split; [by left|]. intros [?|(x & ?%not_elem_of_nil & _)]; done. }
  rewrite IH, index_source_grants. setoid_rewrite elem_of_cons. split.
  - intros [[?|?]|(z & ? & ?)]; [by left|right; exists y; auto|right; exists z; auto].
  - intros [?|(z & [->|?] & ?)]; [by left; left|by left; right|right; by exists z].
Qed.

Lemma prekey_index_granting l : granting (fun a => {[active; a]}) (prekey_index k l).
Proof.
  unfold prekey_index. set (index := foldl _ (index_extend active _ ∅) _).
  assert (granting (fun a => {[active; a]}) index) as Hg.
  { apply (granting_foldl _ id (fun a => {[active; a]})); [done|]. apply granting_extend; [|set_solver]. intros a ids. by rewrite lookup_empty. }
  clearbody index. revert index Hg. induction l as [|y l IH]; intros index Hg; [done|]. cbn [foldl]. apply IH. unfold index_source.
  apply (granting_foldl _ id (fun b => {[active; b; group_id y.1.2]} ∪ dom y.2)); [set_solver|done].
Qed.

Lemma prekey_index_ok data a ids : prekey_index k data !! a = Some ids ->
  forall i, i ∈ ids <-> i = active \/ i = a \/ exists y, y ∈ data /\ is_Some (y.2 !! a) /\ source_ids y i.
Proof.
  intros Ha i. assert (i ∈ ids <-> grants (prekey_index k data) a i) as ->.
  { unfold grants. rewrite Ha. split; [intros ?; by exists ids|]. by intros (? & [= <-] & ?). }
  pose proof (prekey_index_granting data a ids Ha) as Hg. split.
  - unfold prekey_index. rewrite index_sources_grants, (grants_foldl id (fun b => {[active; b]})), grants_extend. unfold id.
    intros [[[(? & ? & _)|[-> ?]]|(b & _ & -> & ?)]|(y & Hy & Hs & Hi)]; [by rewrite lookup_empty in *|set_solver|set_solver|].
    destruct Hi as [?|[?|?]]; [by left|by right; left|right; right; by exists y].
  - intros [->|[->|(y & Hy & Hs & Hi)]]; [exists ids; split; [done|set_solver]..|].
    unfold prekey_index. apply index_sources_grants. right. exists y. auto.
Qed.

Lemma prekey_index_known data a ids : prekey_index k data !! a = Some ids ->
  a = active \/ is_Some (kh_individuals k !! a) \/ exists y, y ∈ data /\ is_Some (y.2 !! a).
Proof.
  intros Ha. assert (grants (prekey_index k data) a a) as Hg by (exists ids; split; [done|]; pose proof (prekey_index_granting data a ids Ha); set_solver).
  revert Hg. unfold prekey_index. rewrite index_sources_grants, (grants_foldl id (fun b => {[active; b]})), grants_extend. unfold id.
  intros [[[(? & ? & _)|[-> _]]|(b & (x & -> & Hx)%list_elem_of_fmap & -> & _)]|(y & Hy & Hs & _)]; [by rewrite lookup_empty in *|by left| |].
  - right. left. apply is_Some_entry. by exists x.
  - right. right. by exists y.
Qed.
End Walks.

Section Prekeys.
Context (behind : Identifier -> Individual) (k : Keyhive) (ops_of : Identifier -> KeyOps).
Abbreviation active := (active_id (kh_active k)).

(** Agents with one identifier have the same prekey operations. *)
Record keys_by_id : Prop := {
  kb_active : own_prekeys k = ops_of active;
  kb_individuals id c : kh_individuals k !! id = Some c -> individual_key_ops (cell_value k c) = ops_of id;
  kb_sources x : x ∈ membered_agents k -> key_ops behind k x.1 = ops_of (group_id x.2);
  kb_members x caps id v : x ∈ membered_agents k -> transitive_members (kh_world k) x.2 = Ok caps -> caps !! id = Some v -> key_ops behind k v.1 = ops_of id;
}.

Context (Hk : keys_by_id).

Lemma prekeys_step_ok agent x y m : x ∈ membered_agents k -> walked k x y -> of_ids ops_of m ->
  exists m', prekeys_step behind agent k m x = Ok m' /\ of_ids ops_of m' /\
    forall i, is_Some (m' !! i) <-> is_Some (m !! i) \/ (is_Some (y.2 !! agent_identifier agent) /\ source_ids y i).
Proof.
  intros Hx [Hy Hc] Hm. unfold prekeys_step. rewrite Hc. cbn [bindR]. case_bool_decide as Hin.
  2:{ exists m. split; [done|]. split; [done|]. intros i. tauto. }
  rewrite (kb_sources Hk x Hx). destruct (add_many_ok ops_of m (group_id x.2) Hm) as [Hm1 Hd1].
  destruct (adding_fold ops_of (add_new_keys behind k) (fun v i => i = v.1) (map_to_list y.2)) with (m := add_many_keys m (group_id x.2) (ops_of (group_id x.2))) as [Hm2 Hd2]; [|done|].
  { intros m0 [id v] Hv%elem_of_map_to_list Hm0. unfold add_new_keys. cbn [fst snd]. rewrite (kb_members Hk x y.2 id v Hx Hc Hv).
    destruct (m0 !! id) as [o|] eqn:Ho; [|by apply add_many_ok]. split; [done|]. intros i. split; [by left|]. intros [?| ->]; [done|by exists o]. }
  eexists. split; [done|]. split; [exact Hm2|]. intros i. rewrite Hd2, Hd1. unfold source_ids. rewrite (is_Some_entry y.2 i), Hy. tauto.
Qed.

Lemma prekeys_fold agent l data : Forall2 (walked k) l data -> l ⊆ membered_agents k -> forall m, of_ids ops_of m ->
  exists m', foldR (prekeys_step behind agent k) l m = Ok m' /\ of_ids ops_of m' /\
    forall i, is_Some (m' !! i) <-> is_Some (m !! i) \/ exists y, y ∈ data /\ is_Some (y.2 !! agent_identifier agent) /\ source_ids y i.
Proof.
  induction 1 as [|x y l data Hxy _ IH]; intros Hl m Hm; cbn [foldR].
  { exists m. split; [done|]. split; [done|]. intros i. split; [by left|]. intros [?|(y & ?%not_elem_of_nil & _)]; done. }
  destruct (prekeys_step_ok agent x y m) as (m1 & -> & Hm1 & Hd1); [apply Hl; left|done|done|]. cbn [bindR].
  destruct (IH (fun z Hz => Hl z (list_elem_of_further _ _ _ Hz)) m1 Hm1) as (m' & -> & Hm' & Hd). exists m'. split; [done|]. split; [done|].
  intros i. rewrite Hd, Hd1. setoid_rewrite elem_of_cons. split.
  - intros [[?|?]|(z & ? & ?)]; [by left|right; exists y; auto|right; exists z; auto].
  - intros [?|(z & [->|?] & ?)]; [by left; left|by left; right|right; by exists z].
Qed.

(** *** The cache *)

Section Data.
Context (data : list Walked) (Hdata : Forall2 (walked k) (membered_agents k) data).

Lemma data_source y : y ∈ data -> y.1 ∈ membered_agents k /\ transitive_members (kh_world k) y.1.2 = Ok y.2.
Proof.
  intros [i Hi]%list_elem_of_lookup_1. destruct (Forall2_lookup_r _ _ _ _ _ Hdata Hi) as (x & Hx & <- & Hc). split; [by apply list_elem_of_lookup_2 in Hx|done].
Qed.

Lemma prekey_cache_ok : of_ids ops_of (prekey_cache behind k data) /\ forall i, is_Some (prekey_cache behind k data !! i) <->
  i = active \/ (exists y, y ∈ data /\ source_ids y i) \/ is_Some (kh_individuals k !! i).
Proof.
  assert (of_ids ops_of {[active := own_prekeys k]}) as H0 by (intros i o [<- <-]%lookup_singleton_Some; apply Hk).
  destruct (adding_fold ops_of (cache_source behind k) source_ids data) with (m := {[active := own_prekeys k]} : gmap Identifier KeyOps) as [H1 Hd1]; [|done|].
  { intros m y Hy Hm. destruct (data_source y Hy) as [Hx Hc]. unfold cache_source. rewrite (kb_sources Hk y.1 Hx).
    destruct (cache_ok ops_of m (group_id y.1.2) Hm) as [Hm1 Hd1].
    destruct (adding_fold ops_of (fun cache v => cache_key_ops cache v.1 (key_ops behind k v.2.1)) (fun v i => i = v.1) (map_to_list y.2)) with (m := cache_key_ops m (group_id y.1.2) (ops_of (group_id y.1.2)))
      as [Hm2 Hd2]; [|done|].
    - intros m0 [id v] Hv%elem_of_map_to_list Hm0. cbn [fst snd]. rewrite (kb_members Hk y.1 y.2 id v Hx Hc Hv). by apply cache_ok.
    - split; [exact Hm2|]. intros i. rewrite Hd2, Hd1. unfold source_ids. rewrite (is_Some_entry y.2). tauto. }
  destruct (adding_fold ops_of (cache_individual k) (fun x i => i = x.1) (map_to_list (kh_individuals k))) with (m := foldl (cache_source behind k) {[active := own_prekeys k]} data)
    as [H2 Hd2]; [|done|].
  { intros m [id c] Hc%elem_of_map_to_list Hm. unfold cache_individual. cbn [fst snd]. rewrite (kb_individuals Hk id c Hc). by apply cache_ok. }
  split; [exact H2|]. intros i. unfold prekey_cache. rewrite Hd2, Hd1, (is_Some_entry (kh_individuals k)).
  assert (is_Some (({[active := own_prekeys k]} : gmap Identifier KeyOps) !! i) <-> i = active) as ->; [|tauto].
  split; [intros [? [<- _]%lookup_singleton_Some]; done|intros ->; rewrite lookup_singleton_eq; by eexists].
Qed.
End Data.
End Prekeys.
(** ** Operations of the key agreements *)

Section CgkaOps.
Context (k : Keyhive).

(** The document has operations, and they can be sorted. *)
Definition doc_has_ops (d : Document T) (ops : list SignedOp) : Prop := sorted_ops d = Ok (Some ops) /\ ops <> [].
Definition doc_carries (d : Document T) (a : Identifier) : Prop :=
  exists tr, transitive_members (kh_world k) (doc_group d) = Ok tr /\ is_Some (tr !! a).

Record cgka_ops_of (l : list (Document T)) (all : AllCgkaOps) : Prop := {
  co_ops i ops : ao_ops all !! i = Some ops <-> exists d, d ∈ l /\ doc_id d = i /\ doc_has_ops d ops;
  co_index a i : grants (ao_index all) a i <-> exists d ops, d ∈ l /\ doc_id d = i /\ doc_has_ops d ops /\ doc_carries d a;
  co_sorts d : d ∈ l -> exists o, sorted_ops d = Ok o;
}.

Lemma cgka_ops_skip l d all : cgka_ops_of l all -> (forall ops, ~ doc_has_ops d ops) -> (exists o, sorted_ops d = Ok o) -> cgka_ops_of (l ++ [d]) all.
Proof.
  intros [Ho Hi Hs] Hno Hd. constructor.
  - intros i ops. rewrite Ho. setoid_rewrite elem_of_app. setoid_rewrite list_elem_of_singleton. split; [intros (x & ? & ?); exists x; auto|].
    intros (x & [?| ->] & ? & Hx); [by exists x|by apply Hno in Hx].
  - intros a i. rewrite Hi. setoid_rewrite elem_of_app. setoid_rewrite list_elem_of_singleton. split; [intros (x & ops & ? & ?); exists x, ops; auto|].
    intros (x & ops & [?| ->] & ? & Hx & ?); [by exists x, ops|by apply Hno in Hx].
  - intros x [?| ->%list_elem_of_singleton]%elem_of_app; [by apply Hs|done].
Qed.

Lemma cgka_ops_take l d ops tr all : cgka_ops_of l all -> doc_id d ∉ doc_id <$> l -> doc_has_ops d ops -> transitive_members (kh_world k) (doc_group d) = Ok tr ->
  cgka_ops_of (l ++ [d]) (mkAllCgkaOps (<[doc_id d := ops]> (ao_ops all))
    (foldl (fun index agent_id => index_extend agent_id {[doc_id d]} index) (ao_index all) (map_to_list tr).*1)).
Proof.
  intros [Ho Hi Hs] Hnew Hd Ht. constructor; cbn [ao_ops ao_index].
  - intros i ops'. setoid_rewrite elem_of_app. setoid_rewrite list_elem_of_singleton. destruct (decide (doc_id d = i)) as [<-|Hne].
    + rewrite lookup_insert_eq. split; [intros [= <-]; exists d; auto|]. intros (x & [Hx| ->] & Hid & Hops); [|destruct Hd, Hops; congruence].
      destruct Hnew. rewrite <- Hid. by apply list_elem_of_fmap_2.
    + rewrite lookup_insert_ne, Ho by done. split; [intros (x & ? & ?); exists x; auto|]. intros (x & [?| ->] & ? & ?); [by exists x|done].
  - intros a i. rewrite (grants_foldl id (fun _ => {[doc_id d]})), Hi. unfold id. setoid_rewrite elem_of_app. setoid_rewrite list_elem_of_singleton.
    setoid_rewrite elem_of_singleton. split.
    + intros [(x & o & ? & ?)|(b & (x & -> & Hx)%list_elem_of_fmap & -> & ->)]; [exists x, o; auto|]. exists d, ops. split_and!; [by right|done|done|].
      exists tr. split; [done|]. apply is_Some_entry. by exists x.
    + intros (x & o & [?| ->] & <- & Hops & Hc); [left; by exists x, o|right]. destruct Hc as (tr' & Ht' & (y & Hy & ->)%is_Some_entry).
      assert (tr' = tr) as -> by congruence. exists y.1. split; [by apply list_elem_of_fmap_2|done].
  - intros x [?| ->%list_elem_of_singleton]%elem_of_app; [by apply Hs|by exists (Some ops); apply Hd].
Qed.

Lemma cgka_ops_fold todo : forall l all all', NoDup (doc_id <$> l ++ todo) -> cgka_ops_of l all ->
  foldR (cgka_source_step k) todo all = Ok all' -> cgka_ops_of (l ++ todo) all'.
Proof.
  induction todo as [|d todo IH]; intros l all all' Hnd Hall; cbn [foldR]; [intros [= <-]; by rewrite app_nil_r|].
  intros Hf. replace (l ++ d :: todo) with ((l ++ [d]) ++ todo) in * by (by rewrite <- app_assoc).
  assert (exists all1, cgka_source_step k all d = Ok all1 /\ foldR (cgka_source_step k) todo all1 = Ok all') as (all1 & H1 & H2).
  { destruct (cgka_source_step k all d) as [x|e| |]; cbn [bindR] in Hf; try done. by exists x. }
  apply (IH (l ++ [d]) all1); [done| |done]. clear IH Hf H2. unfold cgka_source_step in H1.
  destruct (sorted_ops d) as [o|e| |] eqn:Hs; cbn [bindR] in H1; try done. destruct o as [[|op ops]|]; [|revert H1|].
  - injection H1 as <-. apply cgka_ops_skip; [done| |by eexists]. intros ops [Hs' Hne]. congruence.
  - destruct (transitive_members (kh_world k) (doc_group d)) as [tr|e| |] eqn:Ht; cbn [bindR]; try done. intros [= <-].
    apply cgka_ops_take; [done| |by split|done]. rewrite !fmap_app in Hnd. apply NoDup_app in Hnd as [Hnd _].
    apply NoDup_app in Hnd as (_ & Hdis & _). intros Hin. apply (Hdis _ Hin). left.
  - injection H1 as <-. apply cgka_ops_skip; [done| |by eexists]. intros ops [Hs' Hne]. congruence.
Qed.

Lemma reachable_ops_fold ids : (forall i d, i ∈ ids -> kh_docs k !! i = Some d -> exists o, sorted_ops d = Ok o) -> forall acc,
  exists ops, foldR (reachable_ops_step k) ids acc = Ok ops /\
    forall op, op ∈ ops <-> op ∈ acc \/ exists i d o, i ∈ ids /\ kh_docs k !! i = Some d /\ doc_has_ops d o /\ op ∈ o.
Proof.
  induction ids as [|i ids IH]; intros Hs acc; cbn [foldR].
  { exists acc. split; [done|]. intros op. split; [by left|]. intros [?|(? & ? & ? & ?%not_elem_of_nil & _)]; done. }
  assert (exists acc1, reachable_ops_step k acc i = Ok acc1 /\
    forall op, op ∈ acc1 <-> op ∈ acc \/ exists d o, kh_docs k !! i = Some d /\ doc_has_ops d o /\ op ∈ o) as (acc1 & -> & H1).
  { unfold reachable_ops_step. destruct (kh_docs k !! i) as [d|] eqn:Hd; [|exists acc; split; [done|]; intros op; split; [by left|]; intros [?|(d & ? & [=] & _)]; done].
    destruct (Hs i d (list_elem_of_here _ _) Hd) as [o Ho]. rewrite Ho. cbn [bindR]. eexists. split; [done|]. intros op. rewrite elem_of_app.
    split; (intros [?|Hop]; [by left|right]).
    - destruct o as [o|]; [|by apply not_elem_of_nil in Hop]. exists d, o. split_and!; [done| |done]. split; [done|]. intros ->. by apply not_elem_of_nil in Hop.
    - destruct Hop as (d' & o' & [= <-] & [Ho' _] & Hop). rewrite Ho in Ho'. injection Ho' as ->. done. }
  cbn [bindR]. destruct (IH (fun j d Hj => Hs j d (list_elem_of_further _ _ _ Hj)) acc1) as (ops & -> & H2). exists ops. split; [done|].
  intros op. rewrite H2, H1. setoid_rewrite elem_of_cons. split.
  - intros [[?|(d & o & ? & ?)]|(j & d & o & ? & ?)]; [by left|right; exists i, d, o; auto|right; exists j, d, o; auto].
  - intros [?|(j & d & o & [->|?] & ? & ?)]; [by left; left|left; right; by exists d, o|right; by exists j, d, o].
Qed.

Lemma cgka_ops_none : cgka_ops_of [] (mkAllCgkaOps ∅ ∅).
Proof.
  constructor; cbn; [intros i ops; rewrite lookup_empty; split; [done|by intros (d & ?%not_elem_of_nil & _)]| |by intros ? ?%not_elem_of_nil].
  intros a i. unfold grants. setoid_rewrite lookup_empty. split; [by intros (? & [=] & _)|by intros (d & ? & ?%not_elem_of_nil & _)].
Qed.

Lemma keyed_docs : (forall i d, kh_docs k !! i = Some d -> doc_id d = i) ->
  (forall d, d ∈ (map_to_list (kh_docs k)).*2 <-> kh_docs k !! doc_id d = Some d) /\ NoDup (doc_id <$> (map_to_list (kh_docs k)).*2).
Proof.
  intros Hdocs. split.
  - intros d. rewrite list_elem_of_fmap. split.
    + intros ([i d'] & -> & Hd%elem_of_map_to_list). cbn. by rewrite (Hdocs i d' Hd).
    + intros Hd. exists (doc_id d, d). split; [done|]. by apply elem_of_map_to_list.
  - replace (doc_id <$> (map_to_list (kh_docs k)).*2) with (map_to_list (kh_docs k)).*1; [apply NoDup_fst_map_to_list|].
    rewrite <- list_fmap_compose. apply list_fmap_ext. intros _ [i d] Hid%list_elem_of_lookup_2%elem_of_map_to_list. by apply Hdocs in Hid as <-.
Qed.
End CgkaOps.

Lemma cgka_ops_of_agent_elem a all op : op ∈ default [] (cgka_ops_of_agent a all) <->
  exists i o, grants (ao_index all) a i /\ ao_ops all !! i = Some o /\ op ∈ o.
Proof.
  unfold cgka_ops_of_agent, grants. destruct (ao_index all !! a) as [ids|]; cbn [mbind option_bind from_option id].
  - unfold id. rewrite list_elem_of_join. setoid_rewrite list_elem_of_omap. setoid_rewrite elem_of_elements. split.
    + intros (o & Hop & i & Hi' & Hoi). exists i, o. split; [by exists ids|done].
    + intros (i & o & (? & [= <-] & Hi') & Hoi & Hop). exists o. split; [done|]. by exists i.
  - split; [by intros ?%not_elem_of_nil|]. by intros (i & o & (? & [=] & _) & _).
Qed.
End Agree.

(** ** Properties *)


(** C20. What operations of key agreements an agent is to be sent: the pass over
    all agents and the query for one agent have the same operations; documents
    without a key agreement are skipped by both. *)
Theorem cgka_queries_agree `{P : Primitives} {T : Type} `{Countable T} `{Sop : !Serialize CgkaOperation, Ssop : !Serialize (Signed CgkaOperation)}
    (k : Keyhive T) agent all :
  (forall i d, kh_docs k !! i = Some d -> doc_id d = i /\ exists tr, transitive_members (kh_world k) (doc_group d) = Ok tr) ->
  cgka_ops_for_all_agents k = Ok all ->
  exists ops, cgka_ops_reachable_by_agent agent k = Ok ops /\
    forall op, op ∈ ops <-> op ∈ default [] (cgka_ops_of_agent (agent_identifier agent) all).
Proof.
  intros Hdocs Hall.
  pose proof (keyed_docs k (fun i d Hd => proj1 (Hdocs i d Hd))) as [Hin Hnd]. apply (cgka_ops_fold k (map_to_list (kh_docs k)).*2 []) in Hall; [|done|apply cgka_ops_none].
  cbn [app] in Hall. destruct Hall as [Ho Hi Hs].
  unfold cgka_ops_reachable_by_agent, docs_reachable_by_agent. destruct (docs_reachable_fold agent k (map_to_list (kh_docs k)).*2 ∅) as (caps & -> & Hc).
  { intros d Hd%Hin. by apply (Hdocs (doc_id d)). }
  cbn [bindR]. destruct (reachable_ops_fold k (map_to_list caps).*1) with (acc := [] : list SignedOp) as (ops & -> & Hops).
  { intros i d _ Hd. apply Hs, Hin. by destruct (Hdocs i d Hd) as [-> _]. }
  exists ops. split; [done|]. intros op. rewrite Hops. setoid_rewrite list_elem_of_fmap.
  rewrite cgka_ops_of_agent_elem.
  setoid_rewrite Hi. setoid_rewrite Ho. split.
  - intros [?%not_elem_of_nil|(i & d & o & (x & -> & Hx) & Hd & Hdo & Hop)]; [done|]. destruct (Hdocs x.1 d Hd) as [Hid _].
    assert (d ∈ (map_to_list (kh_docs k)).*2) as Hdl by (apply Hin; by rewrite Hid).
    destruct (proj1 (Hc x.1)) as [Hno|(d' & tr & Hd' & Hid' & Ht & Htr)]; [apply is_Some_entry; by exists x|by rewrite lookup_empty in Hno; destruct Hno|].
    assert (d' = d) as -> by (apply Hin in Hd'; rewrite Hid', Hd in Hd'; congruence).
    exists x.1, o. split; [|split; [by exists d|done]]. exists d, o. split_and!; [done..|]. by exists tr.
  - intros (i & o & (d & o' & Hd & <- & Hdo & tr & Ht & Htr) & (d' & Hd' & Hid & Hdo') & Hop). right.
    assert (d' = d) as -> by (apply Hin in Hd, Hd'; rewrite Hid in Hd'; congruence).
    destruct (proj2 (Hc (doc_id d))) as [v Hv]; [right; by exists d, tr|]. exists (doc_id d), d, o. split; [|by split; [apply Hin|]].
    exists (doc_id d, v). split; [done|]. by apply elem_of_map_to_list.
Qed.
