(* ===== verification/KeyhiveCallsWitness.v ===== *)
(** * A document that contains a group

    The theorems on adding to a group and revoking from it, applied to a log that
    has the club of Alice and Bob as its member, and the theorems on what is to be
    sent.  The keys of the events are not all digests of the events. *)

From Stdlib Require Import Strings.Byte.
From S2P Require Import Prelude TreeMath Crypto Keys SecretStore Tree TreeInv TreeOps PathCrypto Signed CaMap OpGraph AppSecret Cgka ToySerialize.
From S2P Require Import CgkaWitness Individual IndividualWitness Membership GroupState Group GroupChange Reach ReachProps ReachMembers GroupWitness.
From S2P Require Import Active KeyhiveWitness Document DocMembers DocWitness Keyhive MemberOps KeyhiveFacade KeyhiveMembers.
From S2P Require Import KeyhiveQueries KeyhiveQueriesProps.

Import ToyPrimitives ToySerialize.

(** ** Checks of a finite world *)

Definition world_lists (world : gmap Identifier (gmap Identifier (list Dlg))) : list (Identifier * list Dlg) :=
  x ← map_to_list world; map_to_list x.2.
Definition list_check (x : Identifier * list Dlg) : bool :=
  match x.2 with [] => false | _ => forallb (fun d => bool_decide (agent_identifier (delegate (payload d)) = x.1)) x.2 end.
Definition sound_check (world : gmap Identifier (gmap Identifier (list Dlg))) : bool :=
  forallb list_check (world_lists world) && bool_decide (NoDup (signature <$> mjoin (world_lists world).*2)).

Lemma world_lists_elem world i ms id ds : world !! i = Some ms -> ms !! id = Some ds -> (id, ds) ∈ world_lists world.
Proof.
  intros Hi Hd. apply list_elem_of_bind. exists (i, ms). split; by apply elem_of_map_to_list.
Qed.
Lemma NoDup_fmap_eq {A B} (f : A -> B) l x y : NoDup (f <$> l) -> x ∈ l -> y ∈ l -> f x = f y -> x = y.
Proof.
  induction l as [|z l IH]; [by intros _ ?%not_elem_of_nil|]. rewrite fmap_cons, NoDup_cons.
  intros [Hz Hnd] [->|Hx]%elem_of_cons [->|Hy]%elem_of_cons Hf; [done| | |by apply IH]; destruct Hz; [rewrite Hf|rewrite <- Hf]; by apply list_elem_of_fmap_2.
Qed.

Lemma sound_checked world (g : @Group N) : world !! group_id g = Some (members g) -> sound_check world = true -> sound_world world g.
Proof.
  intros Hg [Hl Hnd%bool_decide_eq_true]%andb_true_iff. rewrite List.forallb_forall in Hl.
  assert (forall i ms, world !! i = Some ms -> well_listed ms) as Hwell.
  { intros i ms Hi id ds Hds. specialize (Hl (id, ds) (proj1 (list_elem_of_In _ _) (world_lists_elem _ _ _ _ _ Hi Hds))). unfold list_check in Hl. cbn in Hl.
    destruct ds as [|d0 ds]; [done|]. split; [done|]. rewrite List.forallb_forall in Hl. intros d Hd%list_elem_of_In%Hl%bool_decide_eq_true. done. }
  assert (forall d, known world g d -> d ∈ mjoin (world_lists world).*2) as Hknown.
  { intros d Hd. assert (exists i ms, world !! i = Some ms /\ listed ms d) as (i & ms & Hi & id & ds & Hds & Hin) by (destruct Hd; eauto).
    apply list_elem_of_join. exists ds. split; [done|]. apply list_elem_of_fmap. exists (id, ds). split; [done|]. by apply (world_lists_elem _ i ms). }
  constructor; [by apply (Hwell (group_id g))|done|]. intros d d' Hd%Hknown Hd'%Hknown. by apply (NoDup_fmap_eq signature _ _ _ Hnd).
Qed.

(** [l] has the best delegate of every member of [g] and is closed under inner members. *)
Definition closed_check (world : gmap Identifier (gmap Identifier (list Dlg))) (g : @Group N) (l : list Agent) : bool :=
  forallb (fun x => match max_by_can x.2 with Some p => bool_decide (delegate (payload p) ∈ l) | None => true end) (map_to_list (members g)) &&
  forallb (fun a => match membered world a with Some ms => forallb (fun b => bool_decide (b ∈ l)) (all_delegates ms) | None => true end) l.

Lemma carries_checked world g l a : closed_check world g l = true -> carries world g a -> a ∈ l.
Proof.
  intros [Hm Hi]%andb_true_iff. rewrite List.forallb_forall in Hm, Hi.
  induction 1 as [id ds p Hds Hp|a ms d _ IH _ Hms (id & ds & Hds & Hd)].
  - specialize (Hm (id, ds) (proj1 (list_elem_of_In _ _) (proj2 (elem_of_map_to_list _ _ _) Hds))). cbn [snd] in Hm. rewrite Hp in Hm.
    by apply bool_decide_eq_true in Hm.
  - specialize (Hi a (proj1 (list_elem_of_In _ _) IH)). rewrite Hms, List.forallb_forall in Hi.
    apply (bool_decide_eq_true _), Hi, list_elem_of_In. unfold all_delegates. apply list_elem_of_fmap. exists d. split; [done|].
    apply list_elem_of_join. exists ds. split; [done|]. apply list_elem_of_fmap. exists (id, ds). split; [done|]. by apply elem_of_map_to_list.
Qed.

(** ** The log *)

Definition log_id : Identifier := key x45.
Definition log_club : Dlg := grant_to log_id (AgentGroup club) Edit x60.
Definition log : Document N :=
  mkDocument (mkGroup (IdOrGroup log_id) {[club := [log_club]]} ∅ (mkGroupState log_id ∅ ∅ rev_store_new rev_store_new) []) ∅ ∅ ∅ (Some alice1).
Definition clubbers : @Group N := club_of [to_bob] [].
Definition hive : Keyhive N :=
  mkKeyhive alice (mkActive (signer_of alice) ∅ alice zed []) ∅ {[club := clubbers]} {[log_id := log]}
    (gs_delegations (g_state clubbers)) (gs_revocations (g_state clubbers)) [] [].
Definition hive_with (g : @Group N) : Keyhive N := set_groups (<[club := g]> (kh_groups hive)) (take_stores g hive).

Lemma log_only i d : kh_docs hive !! i = Some d -> d = log.
Proof. unfold hive. cbn [kh_docs]. by intros [_ <-]%lookup_singleton_Some. Qed.
Lemma signer_of_signs id : ~ signer_refuses (signer_of id).
Proof. intros (m & e & Heq). discriminate Heq. Qed.
Lemma log_inside g : inside (kh_world (hive_with g)) club log.
Proof.
  exists (AgentGroup club). split; [|done]. apply (carries_member _ _ club [log_club] log_club); [apply lookup_singleton_eq|reflexivity].
Qed.
Lemma log_listed g : kh_world (hive_with g) !! group_id (doc_group log) = Some (members (doc_group log)).
Proof.
  change (group_id (doc_group log)) with log_id. unfold kh_world, hive_with. cbn [kh_groups kh_docs set_groups take_stores set_stores hive]. rewrite lookup_union_r; [by rewrite lookup_fmap, lookup_singleton_eq|].
  rewrite lookup_fmap, lookup_insert_ne, lookup_singleton_ne by discriminate. done.
Qed.


(** Bob is revoked from the club and loses his leaf of the log. *)
Definition alice_docs : gmap Identifier Access := match reachable_docs hive with Ok caps => caps | _ => ∅ end.
Lemma alice_docs_ok : reachable_docs hive = Ok alice_docs.
Proof.
  unfold alice_docs. assert (is_ok (reachable_docs hive) = true) as Hok by (vm_compute; reflexivity). destruct (reachable_docs hive); [done|discriminate Hok..].
Qed.
Definition without_bob := revoke_member bob false (signer_of alice) (content_of (doc_contents hive (elements (dom alice_docs)))) (with_stores hive clubbers).
Definition log_agents : list Agent := [AgentGroup club; AgentIndividual alice].

Lemma log_carries a : carries (kh_world (hive_with without_bob.2)) (doc_group log) a -> a ∈ log_agents.
Proof. apply carries_checked. vm_compute. reflexivity. Qed.
Lemma log_distinct : distinct_members (kh_world (hive_with without_bob.2)) log.
Proof.
  constructor.
  - intros a b Ha%log_carries Hb%log_carries. unfold log_agents in *. in_cases Ha; in_cases Hb; (reflexivity || discriminate).
  - intros a Ha%log_carries. unfold log_agents in Ha. in_cases Ha; discriminate.
Qed.
Lemma log_lost_bob : ~ carries_individual (kh_world (hive_with without_bob.2)) log bob.
Proof. intros (a & Ha%log_carries & _ & Hid). unfold log_agents in Ha. in_cases Ha; discriminate Hid. Qed.
Lemma log_sound : sound_world (kh_world (hive_with without_bob.2)) (doc_group log).
Proof. apply sound_checked; [apply log_listed|vm_compute; reflexivity]. Qed.

Lemma alice_in : member_of alice ∈ tree_ids alice1.
Proof. apply (bool_decide_eq_true _). vm_compute. reflexivity. Qed.


(** Alice reaches the log through the club. *)
Lemma docs_reachable_correct_witness :
  exists caps, docs_reachable_by_agent (AgentIndividual alice) hive = Ok caps /\
    forall i, is_Some (caps !! i) <-> exists d, kh_docs hive !! i = Some d /\ inside (kh_world hive) alice d.
Proof.
  apply (docs_reachable_correct (AgentIndividual alice) hive). intros i d Hd. pose proof (log_only i d Hd) as ->.
  assert (i = log_id) as -> by (unfold hive in Hd; cbn [kh_docs] in Hd; by apply lookup_singleton_Some in Hd as [<- _]).
  split; [exact eq_refl|]. split; [|discriminate]. change hive with (hive_with clubbers). apply sound_checked; [apply log_listed|vm_compute; reflexivity].
Defined.

(** A document given to itself as a reader waits for its own lock. *)
Definition diary_hive : Keyhive N := set_docs {[club := diary]} (set_groups ∅ hive).
Lemma cyclic_member_deadlocks :
  match (kh_add_member (AgentDocument club) (MemberedDocument club) Read [] prekey_of diary_hive).1 with Diverge => True | _ => False end.
Proof. vm_compute. exact I. Qed.

(** ** What the keyhive is to send *)

Definition everyone (_ : Identifier) : Individual := zed.
Definition zed_ops (id : Identifier) : CaMap KeyOp := if bool_decide (id ∈ [club; log_id]) then ∅ else individual_key_ops zed.
Definition hive_prekeys := reachable_prekey_ops_for_all_agents everyone 10%nat hive.

Lemma hive_sources x : x ∈ membered_agents hive -> x = (AgentGroup club, clubbers) \/ x = (AgentDocument log_id, doc_group log).
Proof.
  assert (membered_agents hive = [(AgentGroup club, clubbers); (AgentDocument log_id, doc_group log)]) as ->.
  { unfold membered_agents, hive. cbn [kh_groups kh_docs]. rewrite !map_to_list_singleton. reflexivity. }
  intros Hx. in_cases Hx; [by left|by right].
Qed.

Definition agents_of (r : res Empty_set (gmap Identifier (Agent * Access))) : list (Identifier * Agent) :=
  match r with Ok caps => (fun x => (x.1, x.2.1)) <$> map_to_list caps | _ => [] end.
Definition agent_check (x : Identifier * Agent) : bool :=
  match x.2 with
  | AgentIndividual _ => bool_decide (x.1 ∉ [club; log_id])
  | AgentGroup i => bool_decide (x.1 = club /\ i = club)
  | _ => false
  end.
Lemma hive_members x caps id v : x ∈ membered_agents hive -> transitive_members (kh_world hive) x.2 = Ok caps -> caps !! id = Some v ->
  agent_check (id, v.1) = true.
Proof.
  intros Hx Hc Hv. assert (forallb agent_check (agents_of (transitive_members (kh_world hive) x.2)) = true) as Hall.
  { destruct (hive_sources x Hx) as [-> | ->]; vm_compute; reflexivity. }
  rewrite Hc in Hall. rewrite List.forallb_forall in Hall. apply Hall, list_elem_of_In. unfold agents_of.
  apply list_elem_of_fmap. exists (id, v). split; [done|]. by apply elem_of_map_to_list.
Qed.

Lemma hive_keys : keys_by_id everyone hive zed_ops.
Proof.
  constructor.
  - exact eq_refl.
  - intros id c Hc. unfold hive in Hc. cbn [kh_individuals] in Hc. by rewrite lookup_empty in Hc.
  - intros x Hx. destruct (hive_sources x Hx) as [-> | ->]; cbn [fst snd]; vm_compute; reflexivity.
  - intros x caps id v Hx Hc Hv. pose proof (hive_members x caps id v Hx Hc Hv) as Hck. clear Hx Hc Hv. unfold agent_check in Hck. cbn [fst snd] in Hck.
    destruct (v.1) as [i|i|i|i]; try discriminate Hck.
    + apply bool_decide_eq_true in Hck. unfold zed_ops. rewrite bool_decide_false by done. exact eq_refl.
    + apply bool_decide_eq_true in Hck as [-> ->]. vm_compute. reflexivity.
Qed.

Lemma bob_keys : key_ops everyone hive (AgentIndividual bob) = zed_ops bob.
Proof. exact eq_refl. Qed.


Lemma cgka_queries_agree_witness :
  exists all ops, cgka_ops_for_all_agents hive = Ok all /\ cgka_ops_reachable_by_agent (AgentIndividual bob) hive = Ok ops /\
    forall op, op ∈ ops <-> op ∈ default [] (cgka_ops_of_agent bob all).
Proof.
  assert (is_ok (cgka_ops_for_all_agents hive) = true) as Hok by (vm_compute; reflexivity).
  destruct (cgka_ops_for_all_agents hive) as [all| | |] eqn:Hall; try discriminate Hok. exists all.
  destruct (cgka_queries_agree hive (AgentIndividual bob) all) as (ops & Hops & Heq); [|exact Hall|exists ops; split; [exact eq_refl|split; [exact Hops|exact Heq]]].
  intros i d Hd. pose proof (log_only i d Hd) as ->. split.
  - unfold hive in Hd. cbn [kh_docs] in Hd. apply lookup_singleton_Some in Hd as [<- _]. exact eq_refl.
  - clear Hok Hall Hd. assert (is_ok (transitive_members (kh_world hive) (doc_group log)) = true) as Hok by (vm_compute; reflexivity).
    destruct (transitive_members (kh_world hive) (doc_group log)) as [tr| | |]; try discriminate Hok. exists tr. exact eq_refl.
Defined.

(** A delegation is listed under its digest as a signed delegation, which is not
    its digest as an event. *)
Definition hive_events := static_events_for_agent everyone 20%nat (AgentIndividual bob) hive.
Lemma membership_events_misfiled :
  match hive_events with
  | Ok m => existsb (fun x => negb (bool_decide (x.1 = Digest_hash x.2))) (map_to_list m) = true
  | _ => False
  end.
Proof. vm_compute. reflexivity. Qed.
